(* ===== verification/_CoqProject ===== *)
-Q . S2P
Prelude.v
Digits.v
Buffer.v
Inline.v
Parser.v
Stream.v
Writer.v
Keyspace.v
Expire.v
Commands.v
Options.v
Spec.v
Refine.v
Handlers.v
Dispatch.v
Linear.v
Spread.v
Session.v
Kernel.v
Server.v
Input.v
Serial.v
ServerInv.v
Events.v
ServerSerial.v
Conns.v
Memory.v
Work.v
Prompt.v
Drain.v
Poller.v
Backends.v
Main.v
Program.v
Signals.v
Types.v
Sockets.v
Log.v
CommandTheorems.v
ProtocolTheorems.v
KeyspaceTheorems.v
ServerTheorems.v
LoopTheorems.v
ResourceTheorems.v
