(* ===== verification/Prelude.v ===== *)
(** * kvsd: a verification development

    kvsd is a single-threaded key-value server that speaks a subset of RESP2
    over TCP.  This library models the whole of [src/src], from the bytes a
    kernel delivers to the bytes it is given back, and proves that clients get
    what the README promises them.

    ** The program

    One thread runs [EventLoop::run] (net/event_loop.cpp): it waits on a poller
    (net/poller_epoll.cpp or net/poller_kqueue.cpp), hands each readiness
    report to the callback registered for the descriptor, and between batches
    calls the tick, [Db::active_expire_cycle].  The callbacks are the
    listener's and the connections' (net/server.cpp).  A readable connection is
    read once into its input buffer (net/buffer.cpp); [process_input] then lets
    the connection's [RespParser] (resp/parser.cpp) take calls off the buffer
    and hands each to [CommandTable::dispatch] (cmd/table.cpp), whose handlers
    (cmd/connection.cpp, string.cpp, keyspace.cpp, server.cpp) read and change
    the [Db] (db/db.cpp) and append a reply (resp/writer.cpp) to the
    connection's output buffer; [flush_output] sends what the kernel takes and
    asks the poller to report when it will take more.  [main.cpp] reads the
    command line and wires the parts together.

    ** The files, in order

    Shared.
    - Prelude: bytes, machine integers, the state monad, relations kept by
      every step of a computation, lemmas and hints.

    The protocol.
    - Digits: [string_to_int64] (resp/parser.cpp) and [format_int]
      (resp/writer.cpp).
    - Buffer: [Buffer] (net/buffer.h, buffer.cpp), and the class [ByteQueue]
      with its laws: what every other part asks of a buffer.  Two instances:
      [Buffer], and plain lists, which serve as the specification.
    - Inline: [split_inline] (resp/parser.cpp).
    - Parser: [find_crlf], [RespParser::parse] and its states; [step] is one
      turn of the [for (;;) switch (state_)], the record [Parser] the members
      that survive between reads.
    - Stream: [drain] and [feed], the parser driven read after read, and
      [encode], what a client sends.
    - Writer: [namespace reply] (resp/writer.cpp); [Reply] is the reply a client
      understands, [wire] its bytes, [read_reply] a client's reader.

    The keyspace.
    - Keyspace: [Value], [now_ms], [Db] (db/value.h, clock.h, db.h, db.cpp).
      [Db.map_] is a [gmap], [Db.volatile_keys_] a [gset].  [Db.view t] is the
      live keyspace at time [t]; each operation has a lemma on its view.
    - Expire: [active_expire_cycle] with its sixteen rounds, its walk over the
      buckets of the unordered_set and its [minstd_rand].

    The commands.
    - Commands: [CommandContext], the helpers of cmd/commands.h, every handler,
      the table and [dispatch].  A handler is a computation in the state monad
      over the context.
    - Options: the grammar of the options of SET.
    - Spec: the README's command table as a specification: [request] reads an
      argument vector, [exec] runs a request on the keyspace a client sees.
    - Refine: [kv_of t d], the keyspace a client of the store [d] sees at [t].
    - Handlers, Dispatch: each handler, then [dispatch], against Spec, when the
      clock stands still during the call.
    - Linear: the same under a clock that ticks, for the calls that one instant
      explains ([one_instant]).
    - Spread: the same for all calls: [takes] says what a call that runs from
      one moment to a later one may answer and leave behind.
    - Session: sequences of calls and expiry cycles against [history_over],
      each call while it runs, and [history_spec], each at one instant.

    The server.
    - Kernel: system calls as an oracle, the trace of them, and what is assumed
      of them ([kernel_ok]) and owed to them ([proper], [orderly]).
    - Server: [Conn], [Server], [EventLoop] and [namespace sock] (net/conn.h,
      server.cpp, event_loop.cpp, socket.cpp), one definition per method.  A
      registered callback is an object: [Registration] is its kind and when it
      was allocated.
    - Input: the parse-and-dispatch loop against Stream and Session.
    - Serial: logs of what the thread did, who is owed what, and replay; what
      a connection has said.
    - ServerInv: the invariant [inv], kept by every method; [start], [~Server].
    - Events: relations every method keeps, as the class [Stable] that all
      methods are shown to respect once and for all; what a method leaves of
      the connections and callbacks it is not about; when the loop stops.
    - ServerSerial: the server runs a log, shown method by method.
    - Conns: a property that every connection keeps, lifted from reading and
      writing to any run.
    - Memory: what a connection holds.
    - Work: how many reads and accepts a method makes, and of how many bytes.
    - Prompt: what a client that keeps up has pending.
    - Drain: what is pending gets sent to a client that reads.
    - Poller: [Poller::Impl] and [wait] of both backends.
    - Backends: the contract of net/poller.h as the class [PollerLaws], and
      [add], [set_write_interest] and [del] of both backends as instances, on a
      kernel that does what epoll_ctl(2) or kevent(2) documents.

    The program.
    - Main: [parse_u64] and [parse_args] (main.cpp), with what they print.
    - Program: [main], from the command line to the exit status.
    - Signals: dispositions, [install_signal_handlers], [handle_signal] and
      [g_shutdown] (main.cpp), [kSendFlags] (net/server.cpp); [main] under any
      signals, with the shutdown check reading the program's own flag.
    - Types: the ranges of what the server keeps, through any log and run.
    - Sockets: [local_port], [peer_name] (net/socket.cpp) and [bound_port].
    - Log: util/log.cpp.

    The properties, with concrete inputs that meet their hypotheses:
    CommandTheorems, ProtocolTheorems, KeyspaceTheorems, ServerTheorems,
    LoopTheorems, ResourceTheorems.

    ** What is shown

    The main line ends in two theorems, for every kernel that keeps its promises
    and every clock that does not go back.  [server_implements_spec]: start the
    server and let it run; however accepts, reads, partial writes, closes and
    ticks interleave, there is one serial log of calls, refusals and expiry
    cycles, with nothing in it but what was read from some connection
    ([read_from]), and of an open one all that its bytes parse to ([said]); the
    README's semantics gives replies to its calls, from the empty keyspace on
    ([history_over]), expired keys being absent and expiry cycles invisible; and
    every connection has been sent, with what is pending, exactly its own.
    [clients_are_served]: the same from one client's side: a pipeline of encoded
    calls, in any pieces, among any other clients, reads back as one reply per
    call.  They rest on [server_serializes], that the server runs a log;
    [log_over], that a log is a history; and [pipeline_end_to_end] is the case
    of one connection by itself.

    When is a call answered?  [dispatch_refines] says what a call does if the
    clock stands still while it runs, and if it does not ([takes]); for most
    calls one instant explains the reply and the effect, whatever the clock does
    between a handler's readings of it ([calls_take_one_instant]).  The others
    are DEL and EXISTS of several keys, each key having its own instant, SET XX
    with a lifetime, and EXPIRE, which may confirm a lifetime that it does not
    give ([expire_can_lose_key]).  At one instant, or if one explains the call,
    [takes] is what the README says of that instant ([takes_collapses]), and a
    history of such calls is one of instants ([history_over_collapses]);
    [log_implements_spec] is that case for logs.

    Around it:
    - commands: [dispatch] refines Spec for every argument vector; under a
      clock that goes back it still answers exactly once and keeps the store
      well formed ([dispatch_any_clock]); the grammar of SET, deadlines without
      wrap-around, the output limit;
    - protocol: any chunking of any stream, parsing that can stop and resume,
      termination and bounds of the parser on any bytes, exact integer
      conversions, replies that a client reads back, the buffer as a queue and
      its growth;
    - keyspace: lookups are never stale, the volatile index is exact unless
      [set_expire_at] is given the deadline 0, active expiry is invisible and
      makes progress;
    - server: no use of an erased connection, no lost or repeated byte, write
      interest exactly when output is pending, no descriptor leak, no call that
      could block, shedding that cannot spin, shutdown;
    - event loop: a report reaches the connection it is about or none, a
      callback object outlives the call inside it, both backends report what
      the kernel says and keep the same table, and the server together
      with either has registered in the kernel exactly what it means to
      ([registrations_exact]);
    - resources: what a client can make the server hold until it is closing
      ([memory_bounded]), every number within its type ([server_well_typed]),
      every wait as long as configured ([waits_are_bounded]), what one
      iteration does for one client ([iteration_is_fair]), replies that wait for
      no later event ([replies_are_prompt]), pending output that is sent in at
      most as many iterations as it has bytes ([output_drains]);
    - program: every way [main] ends, the configurations a command line can ask
      for, what signals do to it ([signals_stop_cleanly]), the lines that are
      logged;
    - what the code does in places its comments or documents say otherwise:
      [late_commands_execute], [closing_input_grows], [expire_can_lose_key],
      [pause_without_clients_is_final],
      [inline_limit_depends_on_chunks], [unknown_command_injects],
      [parse_u64_accepts_negative], [kqueue_add_leaves_half],
      [expire_at_zero_breaks_index].

    ** Conventions

    A [char] is an [ascii], a [std::string] or a pointer and length a list of
    them.  [int64_t], [uint64_t] and [int] are [Z], wrapped with [s64], [u64]
    and [s32] wherever the source computes at that width.  A [size_t] that
    indexes or counts bytes in memory is a [nat].

    Where the source would run into undefined behaviour, a ghost flag is set
    instead, and shown never to be: [oob] for [argv[i]] past its end, [fault]
    for a [Conn&] that has been erased.

    The clock is a function [time] from the number of readings made so far:
    any two readings may differ.  [clock_ok] bounds it (after 1970, within
    64 bits); theorems that need more say so: [monotone], it does not go back;
    [frozen], it stands still during a call; [steady_log], it does so during
    those calls of a log that no single instant explains.  The order of an unordered_set is a
    parameter [layout], of which [layout_ok] asks that the buckets together
    hold the elements once each.

    The kernel is an oracle that may answer each call depending on everything
    that happened before.  [kernel_ok] states what is relied on: [read] and
    [send] move no more than asked, a new descriptor is not in use, changing or
    dropping an existing registration succeeds, and a [send] is interrupted at
    most [retries] times in a row.  Failures are otherwise unrestricted.

    ** Loops

    A loop whose recursion is not structural takes fuel, and a lemma shows the
    fuel enough, so no result is cut short:
    - [find_crlf]: one turn more than there are bytes ([find_crlf_loop_spec]);
    - [parse]: one turn more than readable bytes, each turn consuming at least
      one or returning ([parse_loop_total]);
    - [input_loop]: as many turns as readable bytes and one more;
    - [flush_loop]: pending bytes times one more than [retries]; running out
      would set [fault] ([flush_loop_ok]);
    - [Buffer.grow]: doubling reaches the wanted size ([growth_bounded]);
    - the expiry cycle: sixteen rounds, each a walk over at most as many
      buckets as there are, as in the source;
    - [run_loop]: the number of iterations is a parameter of every theorem.

    ** Not modelled

    Which moments produce a log line, and the text of it: Log is the module the
    lines go through, and nothing reads them back, so the other files do not
    carry it along, nor the name of the peer that only log lines use.  The
    argument [reason] of [close_conn] is such a text.

    Signals other than SIGINT, SIGTERM and SIGPIPE, and any that arrive before
    the handlers are installed; in the theorems that are not about signals the
    flag is the oracle's [k_shutdown], read once per tick.  The poller's own
    descriptor is not counted among the server's: it was created or not
    ([poller_valid], which is [Epoll.valid] or [Kqueue.valid]).  How long [wait]
    really blocks, as time only shows through the clock; the timeout it is given
    is in the trace.  That [Poller::wait] allocates, and running out of memory
    anywhere.

    Tests and scripts. *)
From Stdlib Require Export ZArith Lia ZifyBool ZifyNat Ascii String.
From stdpp Require Export base numbers list strings gmap sets fin_maps.

Declare Scope kvsd_scope.
Delimit Scope kvsd_scope with kvsd.
#[global] Open Scope kvsd_scope.
#[global] Open Scope Z_scope.

Create HintDb kvsd.
Create Rewrite HintDb kvsd_rw.

(** ** Bytes

    A C++ [char] is an [ascii] (eight booleans): the type itself carries the
    bound.  A [std::string] and a [(const char*, size_t)] pair are lists of
    them, so embedded NUL, CR and LF are ordinary elements. *)
Abbreviation byte := ascii (only parsing).
Abbreviation bytes := (list ascii).

(** The value of a byte as an unsigned char, and the byte of a value. *)
Definition code (c : byte) : Z := Z.of_N (N_of_ascii c).

Definition chr (z : Z) : byte := ascii_of_N (Z.to_N (z `mod` 256)).

(** A string literal of the source. *)
Definition lit (s : string) : bytes := list_ascii_of_string s.

Notation "'$' s" := (lit s%string) (at level 1, format "'$' s") : kvsd_scope.

Definition CR : byte := "013"%char.

Definition LF : byte := "010"%char.

Abbreviation CRLF := [CR; LF].

Definition byte_eqb (a b : byte) : bool := Ascii.eqb a b.

Notation "a =b? b" := (byte_eqb a b) (at level 70) : kvsd_scope.

(** [std::memchr]: the offset of the first [c] in [s]. *)
Fixpoint memchr (c : byte) (s : bytes) : option nat :=
  match s with
  | [] => None
  | x :: s' => if x =b? c then Some 0%nat else S <$> memchr c s'
  end.

(** ** Machine integers

    A [uint64_t]/[size_t] is a [Z] reduced modulo 2^64, an [int64_t] the
    symmetric representative.  Signed overflow is undefined behaviour in C++:
    the model wraps, and the theorems show the argument is already in range. *)
Definition UINT64_MAX : Z := 2 ^ 64 - 1.

Definition INT64_MAX : Z := 2 ^ 63 - 1.

Definition INT64_MIN : Z := - 2 ^ 63.

Definition u64 (z : Z) : Z := z `mod` 2 ^ 64.

Definition s64 (z : Z) : Z := (z + 2 ^ 63) `mod` 2 ^ 64 - 2 ^ 63.

(** [static_cast<int>]. *)
Definition s32 (z : Z) : Z := (z + 2 ^ 31) `mod` 2 ^ 32 - 2 ^ 31.

Definition in_u64 (z : Z) : Prop := 0 ≤ z ≤ UINT64_MAX.

Definition in_s64 (z : Z) : Prop := INT64_MIN ≤ z ≤ INT64_MAX.

Ltac mach := unfold in_u64, in_s64, UINT64_MAX, INT64_MAX, INT64_MIN in *.

(** ** A state monad

    Operations that mutate an object are functions from the state before to
    the result and the state after. *)
Definition ST (S A : Type) : Type := S → A * S.

#[global] Instance ST_ret S : MRet (ST S) := λ A a s, (a, s).

#[global] Instance ST_bind S : MBind (ST S) := λ A B f m s, let '(a, s') := m s in f a s'.

Definition get {S} : ST S S := λ s, (s, s).

Definition modify {S} (f : S → S) : ST S unit := λ s, (tt, f s).

Definition result {S A} (m : ST S A) (s : S) : A := (m s).1.

Definition final {S A} (m : ST S A) (s : S) : S := (m s).2.

(** ** Lemmas on bytes *)
Lemma code_bound c : 0 ≤ code c < 256.
Proof. unfold code. pose proof (N_ascii_bounded c). lia. Qed.

Lemma chr_code c : chr (code c) = c.
Proof.
  unfold chr. rewrite Z.mod_small by apply code_bound.
  unfold code. rewrite N2Z.id. apply ascii_N_embedding.
Qed.

Lemma code_chr z : 0 ≤ z < 256 → code (chr z) = z.
Proof.
  intros Hz. unfold code, chr. rewrite Z.mod_small by lia.
  rewrite N_ascii_embedding; lia.
Qed.

Lemma code_inj c d : code c = code d → c = d.
Proof. intros H. by rewrite <-(chr_code c), <-(chr_code d), H. Qed.

Lemma byte_eqb_spec a b : Bool.reflect (a = b) (a =b? b).
Proof. apply Ascii.eqb_spec. Qed.

Lemma byte_eqb_refl a : (a =b? a) = true.
Proof. by destruct (byte_eqb_spec a a). Qed.

Lemma byte_eqb_ne a b : a ≠ b → (a =b? b) = false.
Proof. by destruct (byte_eqb_spec a b). Qed.

#[export] Hint Rewrite byte_eqb_refl : kvsd_rw.

(** Case analysis on the byte comparisons of the goal or of a hypothesis. *)
Ltac case_byte :=
  match goal with
  | |- context [?a =b? ?b] => destruct (byte_eqb_spec a b)
  | H : context [?a =b? ?b] |- _ => destruct (byte_eqb_spec a b)
  end; simplify_eq.

(** A concrete string holds no CR. *)
Ltac no_cr := apply (bool_decide_unpack _); by vm_compute.

(** ** Lemmas on machine integers *)
Lemma u64_small z : in_u64 z → u64 z = z.
Proof. mach. intros. apply Z.mod_small. lia. Qed.

Lemma s64_small z : in_s64 z → s64 z = z.
Proof. mach. intros. unfold s64. rewrite Z.mod_small; lia. Qed.

Lemma s32_small z : - 2 ^ 31 ≤ z < 2 ^ 31 → s32 z = z.
Proof. intros. unfold s32. rewrite Z.mod_small; lia. Qed.

Lemma u64_range z : in_u64 (u64 z).
Proof. mach. unfold u64. pose proof (Z.mod_pos_bound z (2 ^ 64)). lia. Qed.

Lemma s64_range z : in_s64 (s64 z).
Proof. mach. unfold s64. pose proof (Z.mod_pos_bound (z + 2 ^ 63) (2 ^ 64)). lia. Qed.

(** ** Lemmas on [memchr] *)
Lemma memchr_Some c s i :
  memchr c s = Some i ↔ s !! i = Some c ∧ c ∉ take i s.
Proof.
  revert i. induction s as [|x s IH]; intros i; simpl.
  - rewrite lookup_nil. naive_solver.
  - case_byte.
    + destruct i as [|i]; simpl; set_solver.
    + rewrite fmap_Some. setoid_rewrite IH. destruct i as [|i]; simpl.
      * naive_solver.
      * rewrite not_elem_of_cons. naive_solver.
Qed.

Lemma memchr_None c s : memchr c s = None ↔ c ∉ s.
Proof.
  induction s as [|x s IH]; simpl; [set_solver|].
  case_byte; [set_solver|]. rewrite fmap_None, IH. set_solver.
Qed.

Lemma memchr_lt c s i : memchr c s = Some i → (i < length s)%nat.
Proof. intros [H _]%memchr_Some. by eapply lookup_lt_Some. Qed.

Lemma memchr_app_l c s t i : memchr c s = Some i → memchr c (s ++ t) = Some i.
Proof.
  rewrite !memchr_Some. intros [H1 H2]. pose proof (lookup_lt_Some _ _ _ H1).
  rewrite lookup_app_l, take_app_le by lia. done.
Qed.

Lemma memchr_app_r c s t :
  c ∉ s → memchr c (s ++ t) = Nat.add (length s) <$> memchr c t.
Proof.
  induction s as [|x s IH]; simpl; intros Hs.
  - by destruct (memchr c t).
  - rewrite byte_eqb_ne by set_solver. rewrite IH by set_solver.
    by destruct (memchr c t).
Qed.

Lemma memchr_mid c s t : c ∉ s → memchr c (s ++ c :: t) = Some (length s).
Proof.
  intros Hs. rewrite memchr_app_r by done. simpl. rewrite byte_eqb_refl.
  simpl. by rewrite Nat.add_0_r.
Qed.

(** ** Lemmas on lists *)
Lemma lookup_take_drop {A} (s : list A) i x :
  s !! i = Some x → s = take i s ++ x :: drop (S i) s.
Proof. intros H. symmetry. by apply take_drop_middle. Qed.

Lemma drop_app_le' {A} (s t : list A) n :
  (n ≤ length s)%nat → drop n (s ++ t) = drop n s ++ t.
Proof. apply drop_app_le. Qed.

(** ** Lemmas on the state monad *)
Lemma bind_run {S A B} (m : ST S A) (f : A → ST S B) s :
  mbind f m s = f (m s).1 (m s).2.
Proof. unfold mbind, ST_bind. by destruct (m s). Qed.

Lemma ret_run {S A} (x : A) (s : S) : (mret x : ST S A) s = (x, s).
Proof. done. Qed.

#[export] Hint Rewrite @bind_run @ret_run : kvsd_rw.

(** ** Relations every step of a computation keeps *)
Definition respects {S} (R : S → S → Prop) {A} (m : ST S A) : Prop := ∀ s, R s (m s).2.

Section Respects.
Context {S : Type} (R : S → S → Prop) `{!PreOrder R}.

Lemma respects_ret {A} (x : A) : respects R (mret x).
Proof. intros s. reflexivity. Qed.

Lemma respects_get : respects R get.
Proof. intros s. reflexivity. Qed.

Lemma respects_bind {A C} (m : ST S A) (f : A → ST S C) :
  respects R m → (∀ x, respects R (f x)) → respects R (m ≫= f).
Proof.
  intros Hm Hf s. rewrite bind_run. specialize (Hm s). destruct (m s) as [x s1].
  etrans; [exact Hm|apply Hf].
Qed.
End Respects.

Create HintDb methods.

(** Analyses a computation down to the steps the hints know. *)
Ltac method := repeat
  match goal with
  | |- ∀ _, _ => intros ?
  | |- respects _ (let _ := _ in _) => cbv zeta
  | |- respects _ _ => solve [auto with methods]
  | |- respects _ (_ ≫= _) => apply respects_bind; [apply _|..]
  | |- respects _ (mret _) => apply respects_ret; apply _
  | |- respects _ (if ?b then _ else _) => destruct b
  | |- respects _ (match ?x with _ => _ end) => destruct x
  end.

#[export] Hint Resolve code_bound u64_range s64_range : kvsd.
