(* ===== verification/Digits.v ===== *)
(** * Decimal integers on the wire

    The two conversions between an [int64_t] and its decimal text: the strict
    parser [string_to_int64] of [src/resp/parser.cpp], used for protocol
    headers and for stored counters, and the hand-rolled formatter
    [format_int] of [src/resp/writer.cpp], used by every reply.  The lemmas
    characterise the parser completely against a reference value function and
    show that the two are inverse on the whole [int64_t] range. *)
From stdpp Require Import pretty.
From S2P Require Import Prelude.

(** ** [string_to_int64] (parser.cpp)

    The digit loop.  [p[i] < '0' || p[i] > '9'] gives the same answer whether
    [char] is signed or not: a byte above 127 is below '0' in the first case
    and above '9' in the second. *)
Fixpoint digits_loop (s : bytes) (v : Z) : option Z :=
  match s with
  | [] => Some v
  | c :: s' =>
      if (code c <? code "0") || (code "9" <? code c) then None
      else
        let d := u64 (code c - code "0") in
        if (UINT64_MAX - d) `div` 10 <? v then None
        else digits_loop s' (u64 (v * 10 + d))
  end.

(** The limit check and the conversion back to a signed value. *)
Definition finish_int64 (negative : bool) (v : Z) : option Z :=
  let limit := if negative then u64 (INT64_MAX + 1) else INT64_MAX in
  if limit <? v then None
  else if negative then
    Some (if v =? u64 (INT64_MAX + 1) then INT64_MIN else s64 (- s64 v))
  else Some (s64 v).

Definition string_to_int64 (s : bytes) : option Z :=
  let n := length s in
  if (n =? 0)%nat || (20 <? n)%nat then None
  else if bool_decide (s !! 0%nat = Some "-"%char) then
    if (n =? 1)%nat then None
    else digits_loop (drop 1 s) 0 ≫= finish_int64 true
  else digits_loop s 0 ≫= finish_int64 false.

(** ** [format_int] (writer.cpp)

    The loop filling [tmp] with the digits, least significant first; the fuel
    is [sizeof tmp]. *)
Fixpoint tmp_digits (room : nat) (v : Z) : bytes :=
  match room with
  | O => []
  | S room' =>
      if 0 <? v then chr (code "0" + v `mod` 10) :: tmp_digits room' (v `div` 10)
      else []
  end.

(** The magnitude, negated in unsigned arithmetic. *)
Definition magnitude (n : Z) : Z :=
  if n <? 0 then u64 (u64 (Z.lnot (u64 n)) + 1) else u64 n.

Definition format_int (n : Z) : bytes :=
  if n =? 0 then ["0"%char]
  else (if n <? 0 then ["-"%char] else []) ++ rev (tmp_digits 20 (magnitude n)).

(** [std::to_string] of a 64-bit integer: its decimal representation. *)
Definition std_to_string (n : Z) : bytes := lit (pretty n).

(** ** Reference semantics of decimal text *)
Definition is_digit (c : byte) : bool := (code "0" <=? code c) && (code c <=? code "9").

Definition dec_from (v : Z) (ds : bytes) : Z :=
  fold_left (λ acc c, acc * 10 + (code c - code "0")) ds v.

Definition dec_value (ds : bytes) : Z := dec_from 0 ds.

(** The texts the parser is meant to accept, with their value. *)
Inductive denotes : bytes → Z → Prop :=
  | denotes_pos ds :
      ds ≠ [] → Forall is_digit ds → dec_value ds ≤ INT64_MAX →
      denotes ds (dec_value ds)
  | denotes_neg ds :
      ds ≠ [] → Forall is_digit ds → INT64_MIN ≤ - dec_value ds →
      denotes ("-"%char :: ds) (- dec_value ds).

(** ** The digit loop computes the reference value *)
Lemma code_0 : code "0" = 48. Proof. done. Qed.

Lemma code_9 : code "9" = 57. Proof. done. Qed.

#[export] Hint Rewrite code_0 code_9 : kvsd_rw.

Lemma is_digit_code c : is_digit c ↔ 48 ≤ code c ≤ 57.
Proof. unfold is_digit. rewrite code_0, code_9, andb_True, !Is_true_true, !Z.leb_le. done. Qed.

Lemma dec_from_cons v c ds : dec_from v (c :: ds) = dec_from (v * 10 + (code c - 48)) ds.
Proof. done. Qed.

#[local] Arguments dec_from : simpl never.

Lemma dec_from_mono v ds : Forall is_digit ds → 0 ≤ v → v ≤ dec_from v ds.
Proof.
  intros Hds. revert v. induction Hds as [|c ds Hc _ IH]; intros v Hv; [done|].
  rewrite is_digit_code in Hc. rewrite dec_from_cons.
  specialize (IH (v * 10 + (code c - 48))). lia.
Qed.

Lemma digits_loop_digits ds v :
  Forall is_digit ds → in_u64 v →
  digits_loop ds v =
    if bool_decide (dec_from v ds ≤ UINT64_MAX) then Some (dec_from v ds) else None.
Proof.
  intros Hds. revert v. induction Hds as [|c ds Hc Hds IH]; intros v Hv; simpl.
  - rewrite bool_decide_eq_true_2; [done|]. apply Hv.
  - rewrite is_digit_code in Hc. rewrite code_0, code_9.
    replace ((code c <? 48) || (57 <? code c)) with false by lia.
    rewrite (u64_small (code c - 48)) by (mach; lia).
    pose proof (Z.div_mod (UINT64_MAX - (code c - 48)) 10) as Hd.
    pose proof (Z.mod_pos_bound (UINT64_MAX - (code c - 48)) 10) as Hm.
    rewrite dec_from_cons. destruct (_ <? v) eqn:E.
    + rewrite bool_decide_eq_false_2; [done|].
      pose proof (dec_from_mono (v * 10 + (code c - 48)) ds Hds). mach. lia.
    + assert (in_u64 (v * 10 + (code c - 48))) by (mach; lia).
      rewrite u64_small by done. by apply IH.
Qed.

Lemma digits_loop_Some ds v r : digits_loop ds v = Some r → Forall is_digit ds.
Proof.
  revert v. induction ds as [|c ds IH]; intros v; simpl; [by constructor|].
  destruct (_ || _) eqn:E; [done|]. destruct (_ <? v); [done|]. intros H.
  constructor; [|by eapply IH]. rewrite is_digit_code. rewrite code_0, code_9 in E. lia.
Qed.

#[local] Arguments digits_loop : simpl never.

(** ** The parser accepts exactly the texts that denote an [int64_t] *)
Lemma digits_loop_Some_iff ds r :
  digits_loop ds 0 = Some r ↔ Forall is_digit ds ∧ r = dec_value ds ∧ r ≤ UINT64_MAX.
Proof.
  split.
  - intros H. pose proof (digits_loop_Some _ _ _ H) as Hds.
    rewrite digits_loop_digits in H by (done || mach; lia).
    case_bool_decide; naive_solver.
  - intros (Hds & -> & Hle). rewrite digits_loop_digits by (done || mach; lia).
    by rewrite bool_decide_eq_true_2.
Qed.

Lemma dec_value_nonneg ds : Forall is_digit ds → 0 ≤ dec_value ds.
Proof. intros. by apply dec_from_mono. Qed.

Lemma finish_int64_Some neg v z :
  0 ≤ v →
  finish_int64 neg v = Some z ↔
    if neg then z = - v ∧ INT64_MIN ≤ - v else z = v ∧ v ≤ INT64_MAX.
Proof.
  intros Hv. unfold finish_int64.
  assert (u64 (INT64_MAX + 1) = 2 ^ 63) as -> by done.
  destruct neg; (destruct (_ <? v) eqn:E; [split; [done|mach; lia]|]).
  - destruct (v =? 2 ^ 63) eqn:E2.
    + rewrite (inj_iff Some). mach. lia.
    + rewrite (s64_small v), s64_small, (inj_iff Some) by (mach; lia). mach. lia.
  - rewrite s64_small, (inj_iff Some) by (mach; lia). mach. lia.
Qed.

Lemma dash_not_digit ds : ¬ Forall is_digit ("-"%char :: ds).
Proof. intros [H _]%Forall_cons. done. Qed.

Lemma string_to_int64_denotes s z :
  string_to_int64 s = Some z ↔ (length s ≤ 20)%nat ∧ denotes s z.
Proof.
  unfold string_to_int64. split.
  - destruct (_ || _) eqn:E; [done|]. intros H. split; [lia|].
    case_bool_decide as Hd.
    + destruct s as [|c ds]; [done|]. injection Hd as ->. simpl in *.
      destruct ds as [|d ds]; [done|]. simpl in H.
      apply bind_Some in H as (v & (Hds & -> & Hle)%digits_loop_Some_iff & H).
      apply finish_int64_Some in H as [-> Hmin]; [|by apply dec_value_nonneg].
      by constructor.
    + apply bind_Some in H as (v & (Hds & -> & Hle)%digits_loop_Some_iff & H).
      apply finish_int64_Some in H as [-> Hmin]; [|by apply dec_value_nonneg].
      constructor; [|done..]. by intros ->.
  - intros [Hlen Hd]. destruct Hd as [ds Hne Hds Hmax|ds Hne Hds Hmin].
    + assert (length ds ≠ 0%nat) by by destruct ds.
      replace (_ || _) with false by lia.
      rewrite bool_decide_eq_false_2; last first.
      { intros Hd. destruct ds as [|c ds]; [done|]. injection Hd as ->.
        by eapply dash_not_digit. }
      apply bind_Some. exists (dec_value ds). rewrite digits_loop_Some_iff.
      rewrite finish_int64_Some by by apply dec_value_nonneg.
      split_and!; (done || mach; lia).
    + assert (length ("-"%char :: ds) ≠ 0%nat) by done.
      replace (_ || _) with false by lia. simpl in *.
      destruct ds as [|d ds]; [done|]. simpl.
      apply bind_Some. exists (dec_value (d :: ds)). rewrite digits_loop_Some_iff.
      rewrite finish_int64_Some by by apply dec_value_nonneg.
      split_and!; (done || mach; lia).
Qed.

Lemma denotes_range s z : denotes s z → in_s64 z.
Proof.
  intros [ds _ Hds H|ds _ Hds H]; pose proof (dec_value_nonneg _ Hds); mach; lia.
Qed.

Lemma string_to_int64_range s z : string_to_int64 s = Some z → in_s64 z.
Proof. rewrite string_to_int64_denotes. intros [_ H]. by eapply denotes_range. Qed.

Lemma string_to_int64_length s z : string_to_int64 s = Some z → (1 ≤ length s ≤ 20)%nat.
Proof.
  rewrite string_to_int64_denotes. intros [Hl H].
  destruct H as [ds|ds]; [|simpl in *; lia]. destruct ds; [done|simpl in *; lia].
Qed.

(** ** The formatter *)
Lemma dec_from_app v s t : dec_from v (s ++ t) = dec_from (dec_from v s) t.
Proof. apply fold_left_app. Qed.

Lemma digit_chr d : 0 ≤ d < 10 → is_digit (chr (code "0" + d)).
Proof. intros. rewrite is_digit_code, code_0, code_chr; lia. Qed.

Lemma tmp_digits_spec room v :
  0 ≤ v < 10 ^ Z.of_nat room →
  Forall is_digit (tmp_digits room v) ∧ dec_value (rev (tmp_digits room v)) = v.
Proof.
  revert v. induction room as [|room IH]; intros v Hv; simpl.
  { change (10 ^ Z.of_nat 0) with 1 in Hv. by replace v with 0 by lia. }
  destruct (0 <? v) eqn:E; [|by replace v with 0 by lia].
  pose proof (Z.mod_pos_bound v 10 ltac:(done)).
  pose proof (Z.div_mod v 10 ltac:(done)).
  rewrite Nat2Z.inj_succ, Z.pow_succ_r in Hv by lia.
  destruct (IH (v `div` 10)) as [IHd IHv]; [lia|]. split.
  - constructor; [by apply digit_chr|done].
  - simpl. unfold dec_value in *. rewrite dec_from_app, IHv, dec_from_cons.
    unfold dec_from; simpl. rewrite code_0, code_chr by lia. lia.
Qed.

Lemma tmp_digits_length room k v :
  0 ≤ v < 10 ^ Z.of_nat k → (length (tmp_digits room v) ≤ k)%nat.
Proof.
  revert k v. induction room as [|room IH]; intros k v Hv; simpl; [lia|].
  destruct (0 <? v) eqn:E; [|simpl; lia]. destruct k as [|k].
  { change (10 ^ Z.of_nat 0) with 1 in Hv. lia. }
  rewrite Nat2Z.inj_succ, Z.pow_succ_r in Hv by lia. simpl.
  pose proof (Z.mod_pos_bound v 10 ltac:(done)).
  pose proof (Z.div_mod v 10 ltac:(done)). specialize (IH k (v `div` 10)). lia.
Qed.

Lemma tmp_digits_nonempty room v : 0 < v → room ≠ 0%nat → rev (tmp_digits room v) ≠ [].
Proof.
  intros Hv Hr H. apply (f_equal length) in H. rewrite length_rev in H.
  destruct room; [done|]. simpl in H. by destruct (Z.ltb_spec 0 v); [|lia].
Qed.

Lemma magnitude_abs n : in_s64 n → magnitude n = Z.abs n.
Proof.
  unfold magnitude. mach. intros Hn. destruct (n <? 0) eqn:E.
  - replace (u64 n) with (n + 2 ^ 64) by (unfold u64; rewrite <-(Z.mod_unique n (2 ^ 64) (-1) (n + 2 ^ 64)); lia).
    assert (Z.lnot (n + 2 ^ 64) = - n - 1 - 2 ^ 64) as -> by (unfold Z.lnot; lia).
    replace (u64 (- n - 1 - 2 ^ 64)) with (- n - 1).
    + rewrite u64_small by (mach; lia). lia.
    + unfold u64. apply (Z.mod_unique _ _ (-1)); lia.
  - rewrite u64_small by (mach; lia). lia.
Qed.

Lemma format_int_denotes n : in_s64 n → denotes (format_int n) n.
Proof.
  intros Hn. unfold format_int.
  destruct (n =? 0) eqn:E.
  { replace n with (dec_value ["0"%char]) by (vm_compute; lia).
    apply denotes_pos; [done|by repeat constructor|done]. }
  rewrite magnitude_abs by done.
  assert (0 ≤ Z.abs n < 10 ^ Z.of_nat 20) as Hb by (mach; lia).
  destruct (tmp_digits_spec 20 _ Hb) as [Hd Hv].
  assert (rev (tmp_digits 20 (Z.abs n)) ≠ []) by (apply tmp_digits_nonempty; lia).
  apply Forall_rev in Hd.
  set (ds := rev (tmp_digits 20 (Z.abs n))) in *. clearbody ds.
  destruct (n <? 0) eqn:E2; simpl.
  - replace n with (- dec_value ds) at 1 by lia. constructor; [done..|]. mach; lia.
  - replace n with (dec_value ds) at 1 by lia. constructor; [done..|]. mach; lia.
Qed.

Lemma format_int_length n : in_s64 n → (length (format_int n) ≤ 20)%nat.
Proof.
  intros Hn. unfold format_int. destruct (n =? 0); [simpl; lia|].
  rewrite magnitude_abs, length_app, length_rev by done.
  pose proof (tmp_digits_length 20 19 (Z.abs n)) as H.
  destruct (n <? 0); simpl length in *; mach; lia.
Qed.

Lemma string_to_int64_format_int n : in_s64 n → string_to_int64 (format_int n) = Some n.
Proof.
  intros Hn. apply string_to_int64_denotes.
  auto using format_int_length, format_int_denotes.
Qed.

Lemma denotes_no_ctl s n c : denotes s n → (c = CR ∨ c = LF) → c ∉ s.
Proof.
  intros H Hc Hin.
  assert (Forall (λ c, is_digit c ∨ c = "-"%char) s) as Hall.
  { destruct H as [ds _ Hd _|ds _ Hd _]; [|constructor; [by right|]];
      (eapply Forall_impl; [exact Hd|naive_solver]). }
  rewrite Forall_forall in Hall. specialize (Hall c Hin). naive_solver.
Qed.

(** ** The formatter agrees with [std::to_string] *)
Lemma pretty_N_char_chr d : (d < 10)%N → pretty_N_char d = chr (48 + Z.of_N d).
Proof.
  intros H.
  assert (d = 0 ∨ d = 1 ∨ d = 2 ∨ d = 3 ∨ d = 4 ∨ d = 5 ∨ d = 6 ∨ d = 7 ∨ d = 8 ∨ d = 9)%N
    by lia.
  naive_solver.
Qed.

Lemma pretty_N_go_tmp_digits room v s :
  (Z.of_N v < 10 ^ Z.of_nat room) →
  list_ascii_of_string (pretty_N_go v s) =
    rev (tmp_digits room (Z.of_N v)) ++ list_ascii_of_string s.
Proof.
  revert v s. induction room as [|room IH]; intros v s Hv; simpl.
  { change (10 ^ Z.of_nat 0) with 1 in Hv. by replace v with 0%N by lia. }
  destruct (0 <? Z.of_N v) eqn:E; [|by replace v with 0%N by lia].
  rewrite pretty_N_go_step by lia.
  pose proof (N.mod_lt v 10 ltac:(done)).
  rewrite Nat2Z.inj_succ, Z.pow_succ_r in Hv by lia.
  rewrite IH by (rewrite N2Z.inj_div; apply Z.div_lt_upper_bound; lia).
  simpl. rewrite <-(assoc_L (++)), code_0, pretty_N_char_chr by done. simpl.
  by rewrite N2Z.inj_div, N2Z.inj_mod.
Qed.

Lemma format_int_std_to_string n : in_s64 n → format_int n = std_to_string n.
Proof.
  intros Hn. unfold format_int, std_to_string, lit. destruct (n =? 0) eqn:E.
  { by replace n with 0 by lia. }
  rewrite magnitude_abs by done.
  assert (Z.of_N (Z.abs_N n) = Z.abs n) as Ha by lia.
  pose proof (pretty_N_go_tmp_digits 20 (Z.abs_N n) "") as H.
  rewrite Ha, app_nil_r in H. rewrite <-H by (mach; lia).
  by destruct n as [|p|p].
Qed.

#[global] Arguments format_int : simpl never.
#[global] Arguments string_to_int64 : simpl never.
#[global] Arguments std_to_string : simpl never.
