(* ===== verification/Buffer.v ===== *)
(** * The growable byte buffer with a read cursor

    [src/net/buffer.h] and [src/net/buffer.cpp].  [Buffer] keeps the storage
    vector and both cursors; [contents] is what [to_string()] returns, the
    bytes between the cursors.  The class [ByteQueue] is what the parser, the
    reply encoders and the server ask of a buffer; its laws speak of the
    contents only.  Two instances implement it: [Buffer], and plain byte lists,
    which serve as the specification. *)
From S2P Require Import Prelude.

(** ** The interface *)
Class ByteQueue (B : Type) := {
  bq_ok : B → Prop;
  bq_empty : B;
  contents : B → bytes;
  readable : B → nat;
  ensure_writable : nat → B → B;
  append : bytes → B → B;
  consume : nat → B → B;
}.

Class ByteQueueLaws (B : Type) `{!ByteQueue B} := {
  bq_empty_ok : bq_ok (bq_empty : B);
  bq_ensure_ok n (b : B) : bq_ok b → bq_ok (ensure_writable n b);
  bq_append_ok p (b : B) : bq_ok b → bq_ok (append p b);
  bq_consume_ok n (b : B) : bq_ok b → bq_ok (consume n b);
  contents_empty : contents (bq_empty : B) = [];
  contents_ensure n (b : B) : bq_ok b → contents (ensure_writable n b) = contents b;
  contents_append p (b : B) : bq_ok b → contents (append p b) = contents b ++ p;
  contents_consume n (b : B) : bq_ok b → contents (consume n b) = drop n (contents b);
  readable_contents (b : B) : bq_ok b → readable b = length (contents b);
}.

(** The specification instance: the bytes themselves. *)
#[export] Instance list_queue : ByteQueue bytes := {|
  bq_ok := λ _, True;
  bq_empty := [];
  contents := id;
  readable := length;
  ensure_writable := λ _ b, b;
  append := λ p b, b ++ p;
  consume := λ n b, drop n b;
|}.

#[export] Instance list_queue_laws : ByteQueueLaws bytes.
Proof. by split. Qed.

(** ** The implementation *)
Module Buffer.

(** [kDoublingLimit] and [kInitialSize] (buffer.cpp). *)
Definition kDoublingLimit : Z := 16 * 1024 * 1024.

Definition kInitialSize : Z := 1024.

(** The members of [class Buffer].  The cursors are element counts. *)
Record Buffer := mkBuffer {
  data_ : bytes;
  read_pos_ : nat;
  write_pos_ : nat;
}.

Definition empty_buffer : Buffer := mkBuffer [] 0 0.

Definition readable (b : Buffer) : nat := write_pos_ b - read_pos_ b.

Definition empty (b : Buffer) : bool := (readable b =? 0)%nat.

(** The region [peek()] points at. *)
Definition peek (b : Buffer) : bytes := drop (read_pos_ b) (data_ b).

Definition writable (b : Buffer) : nat := length (data_ b) - write_pos_ b.

Definition capacity (b : Buffer) : nat := length (data_ b).

Definition to_string (b : Buffer) : bytes := take (readable b) (peek b).

(** [memmove]/[memcpy] of [p] to offset [i] of the storage. *)
Definition write_at (i : nat) (p : bytes) (d : bytes) : bytes :=
  take i d ++ p ++ drop (i + length p) d.

Definition compact (b : Buffer) : Buffer :=
  let n := readable b in
  let d := if (0 <? n)%nat && (0 <? read_pos_ b)%nat
           then write_at 0 (take n (peek b)) (data_ b) else data_ b in
  mkBuffer d 0 n.

(** What one iteration of the growth loop adds. *)
Definition growth_step (next : Z) : Z := if next <? kDoublingLimit then next else kDoublingLimit.

(** The growth loop [while (next < want) next += ...].  The fuel counts
    iterations; each adds at least [kInitialSize] bytes.  Sizes are exact:
    [grow_bound] below keeps every value under [want + kDoublingLimit], far
    from the [size_t] limit for any vector that can be allocated. *)
Fixpoint grow (fuel : nat) (want next : Z) : Z :=
  match fuel with
  | O => next
  | S fuel' =>
      if next <? want then
        grow fuel' want (next + growth_step next)
      else next
  end.

Definition grow_fuel (want : Z) : nat := Z.to_nat (want `div` kInitialSize + 1).

Definition ensure_writable (n : nat) (b : Buffer) : Buffer :=
  if (n <=? writable b)%nat then b
  else if (n <=? read_pos_ b + writable b)%nat then compact b
  else
    let b1 := compact b in
    let want := Z.of_nat (write_pos_ b1) + Z.of_nat n in
    let next := grow (grow_fuel want) want (Z.max (Z.of_nat (length (data_ b1))) kInitialSize) in
    mkBuffer (data_ b1 ++ replicate (Z.to_nat next - length (data_ b1)) zero)
             (read_pos_ b1) (write_pos_ b1).

(** Records that [n] bytes were written directly at [write_ptr()]. *)
Definition commit (n : nat) (b : Buffer) : Buffer :=
  mkBuffer (data_ b) (read_pos_ b) (write_pos_ b + n).

(** What happens between [write_ptr()] and [commit]: the kernel or [memcpy]
    stores [p] at the write cursor. *)
Definition store (p : bytes) (b : Buffer) : Buffer :=
  mkBuffer (write_at (write_pos_ b) p (data_ b)) (read_pos_ b) (write_pos_ b).

Definition append (p : bytes) (b : Buffer) : Buffer :=
  if (length p =? 0)%nat then b
  else commit (length p) (store p (ensure_writable (length p) b)).

Definition consume_all (b : Buffer) : Buffer := mkBuffer (data_ b) 0 0.

Definition consume (n : nat) (b : Buffer) : Buffer :=
  if (readable b <=? n)%nat then consume_all b
  else mkBuffer (data_ b) (read_pos_ b + n) (write_pos_ b).

(** ** Representation invariant *)
Definition ok (b : Buffer) : Prop := (read_pos_ b ≤ write_pos_ b ≤ length (data_ b))%nat.

(** ** Growth *)
Lemma growth_step_bound next :
  0 ≤ next → 0 ≤ growth_step next ≤ Z.min next kDoublingLimit ∧
  (kInitialSize ≤ next → kInitialSize ≤ growth_step next).
Proof.
  unfold growth_step, kInitialSize, kDoublingLimit. intros.
  destruct (Z.ltb_spec next (16 * 1024 * 1024)); lia.
Qed.

Lemma grow_spec fuel want next :
  kInitialSize ≤ next → want - next ≤ Z.of_nat fuel * kInitialSize →
  want ≤ grow fuel want next.
Proof.
  revert next. induction fuel as [|fuel IH]; intros next Hn Hf; simpl; [lia|].
  destruct (next <? want) eqn:E; [|lia].
  pose proof (growth_step_bound next). unfold kInitialSize in *. apply IH; lia.
Qed.

Lemma grow_mono fuel want next : 0 ≤ next → next ≤ grow fuel want next.
Proof.
  revert next. induction fuel as [|fuel IH]; intros next Hn; simpl; [lia|].
  destruct (next <? want) eqn:E; [|lia].
  pose proof (growth_step_bound next). etrans; [|apply IH]; lia.
Qed.

Lemma grow_bound fuel want next :
  0 ≤ next → 0 ≤ want →
  grow fuel want next ≤ Z.max next (Z.min (2 * want) (want + kDoublingLimit)).
Proof.
  intros Hn Hw. revert next Hn.
  induction fuel as [|fuel IH]; intros next Hn; simpl; [lia|].
  destruct (next <? want) eqn:E; [|lia].
  pose proof (growth_step_bound next Hn). specialize (IH (next + growth_step next)). lia.
Qed.

Lemma grow_fuel_enough want next :
  0 ≤ want → kInitialSize ≤ next → want ≤ grow (grow_fuel want) want next.
Proof.
  intros Hw Hn. apply grow_spec; [done|]. unfold grow_fuel, kInitialSize in *.
  pose proof (Z.div_mod want 1024 ltac:(done)).
  pose proof (Z.mod_pos_bound want 1024 ltac:(done)). lia.
Qed.

(** ** Operations on the contents *)
Lemma length_to_string b : ok b → length (to_string b) = readable b.
Proof. unfold ok, to_string, peek, readable. rewrite length_take, length_drop. lia. Qed.

Lemma length_write_at i p d :
  (i + length p ≤ length d)%nat → length (write_at i p d) = length d.
Proof. intros. unfold write_at. rewrite !length_app, length_take, length_drop. lia. Qed.

Lemma compact_spec b :
  ok b →
  ok (compact b) ∧ to_string (compact b) = to_string b ∧
  read_pos_ (compact b) = 0%nat ∧ write_pos_ (compact b) = readable b ∧
  capacity (compact b) = capacity b.
Proof.
  intros Hok. unfold ok, capacity, compact, readable in *; simpl.
  destruct (_ && _) eqn:E.
  - set (s := take _ (peek b)).
    assert (length s = write_pos_ b - read_pos_ b)%nat as Hs by by apply length_to_string.
    rewrite length_write_at by lia. split_and!; [lia..| |done|done|done].
    unfold to_string, readable, peek; simpl. unfold write_at; simpl.
    rewrite drop_0, Nat.sub_0_r. by apply take_app_length'.
  - split_and!; [lia..| |done|done|done].
    unfold to_string, readable, peek; simpl. rewrite drop_0, Nat.sub_0_r.
    apply andb_false_iff in E as [E|E].
    + by replace (_ - _)%nat with 0%nat by lia.
    + by replace (read_pos_ b) with 0%nat by lia.
Qed.

Lemma to_string_extend d t r w :
  (w ≤ length d)%nat → to_string (mkBuffer (d ++ t) r w) = to_string (mkBuffer d r w).
Proof.
  intros Hw. unfold to_string, peek, readable; simpl.
  destruct (decide (r ≤ w)%nat).
  - rewrite drop_app_le by lia. rewrite take_app_le; [done|]. rewrite length_drop. lia.
  - by replace (w - r)%nat with 0%nat by lia.
Qed.

Lemma ensure_writable_spec n b :
  ok b →
  ok (ensure_writable n b) ∧ to_string (ensure_writable n b) = to_string b ∧
  (n ≤ writable (ensure_writable n b))%nat.
Proof.
  intros Hok. unfold ensure_writable.
  destruct (n <=? writable b)%nat eqn:E1; [split_and!; (done || lia)|].
  destruct (compact_spec b Hok) as (Hok1 & Hs & Hr & Hw & Hc).
  destruct (n <=? read_pos_ b + writable b)%nat eqn:E2.
  { split_and!; [done|done|]. unfold ok, writable, capacity, readable in *. lia. }
  destruct (compact b) as [d r w] eqn:Eb. unfold ok, writable, capacity in *; simpl in *.
  set (want := Z.of_nat w + Z.of_nat n).
  pose proof (grow_fuel_enough want (Z.max (Z.of_nat (length d)) kInitialSize)) as Hg.
  set (next := grow _ _ _) in *. clearbody next.
  rewrite length_app, length_replicate. split_and!; [lia..| |lia].
  rewrite to_string_extend by lia. by rewrite <-Hs.
Qed.

Lemma store_commit_spec p b :
  ok b → (length p ≤ writable b)%nat →
  ok (commit (length p) (store p b)) ∧
  to_string (commit (length p) (store p b)) = to_string b ++ p.
Proof.
  unfold ok, writable. intros Hok Hp. destruct b as [d r w]; simpl in *.
  rewrite length_write_at by lia. split; [lia|].
  unfold to_string, peek, readable; simpl. unfold write_at.
  rewrite drop_app_le by (rewrite length_take; lia).
  rewrite (assoc_L (++)). rewrite take_app_le; last first.
  { rewrite length_app, length_drop, length_take. lia. }
  rewrite skipn_firstn_comm.
  rewrite take_ge by (rewrite length_app, length_take, length_drop; lia). done.
Qed.

Lemma append_spec p b :
  ok b → ok (append p b) ∧ to_string (append p b) = to_string b ++ p.
Proof.
  intros Hok. unfold append. destruct (length p =? 0)%nat eqn:E.
  { destruct p; [|done]. by rewrite app_nil_r. }
  destruct (ensure_writable_spec (length p) b Hok) as (Hok' & Hs & Hw).
  rewrite <-Hs. by apply store_commit_spec.
Qed.

Lemma consume_spec n b :
  ok b → ok (consume n b) ∧ to_string (consume n b) = drop n (to_string b).
Proof.
  intros Hok. unfold consume. destruct (readable b <=? n)%nat eqn:E.
  - split; [unfold ok in *; simpl; lia|].
    rewrite (drop_ge (to_string b)) by (rewrite length_to_string by done; lia). done.
  - unfold ok, to_string, peek, readable in *; simpl. split; [lia|].
    rewrite skipn_firstn_comm, drop_drop. f_equal. lia.
Qed.
End Buffer.

#[export] Instance buffer_queue : ByteQueue Buffer.Buffer := {|
  bq_ok := Buffer.ok;
  bq_empty := Buffer.empty_buffer;
  contents := Buffer.to_string;
  readable := Buffer.readable;
  ensure_writable := Buffer.ensure_writable;
  append := Buffer.append;
  consume := Buffer.consume;
|}.

#[export] Instance buffer_queue_laws : ByteQueueLaws Buffer.Buffer.
Proof.
  split; simpl.
  - done.
  - intros. by apply Buffer.ensure_writable_spec.
  - intros. by apply Buffer.append_spec.
  - intros. by apply Buffer.consume_spec.
  - done.
  - intros. by apply Buffer.ensure_writable_spec.
  - intros. by apply Buffer.append_spec.
  - intros. by apply Buffer.consume_spec.
  - intros. symmetry. by apply Buffer.length_to_string.
Qed.
