(* ===== verification/Inline.v ===== *)
(** * Inline commands

    [split_inline] of [src/resp/parser.cpp]: the whitespace-separated command
    line with double and single quotes that telnet users type.  The pointer
    and length pair [p], [i], [n] of the source is the list of the bytes from
    [p + i] to [p + n]: [i + k < n] says that list has more than [k]
    elements. *)
From S2P Require Import Prelude.

(** ** Character classes *)
Definition is_hex (c : byte) : bool :=
  ((code "0" <=? code c) && (code c <=? code "9"))
  || ((code "a" <=? code c) && (code c <=? code "f"))
  || ((code "A" <=? code c) && (code c <=? code "F")).

Definition hex_val (c : byte) : Z :=
  if (code "0" <=? code c) && (code c <=? code "9") then code c - code "0"
  else if (code "a" <=? code c) && (code c <=? code "f") then code c - code "a" + 10
  else code c - code "A" + 10.

(** [std::isspace] in the "C" locale, which the program never leaves. *)
Definition is_space (c : byte) : bool :=
  (c =b? " ") || ((9 <=? code c) && (code c <=? 13)).

Definition backslash : byte := "092"%char.

Definition dquote : byte := "034"%char.

Definition squote : byte := "039"%char.

(** The [switch] on the character after a backslash. *)
Definition unescape (c : byte) : byte :=
  if c =b? "n" then LF
  else if c =b? "r" then CR
  else if c =b? "t" then chr 9
  else if c =b? "b" then chr 8
  else if c =b? "a" then chr 7
  else c.

(** ** One word

    The [while (!done)] loop, with its two flags: [None] is [return false], a
    result is the word and what follows it. *)
Fixpoint word (in_double in_single : bool) (cur : bytes) (s : bytes) : option (bytes * bytes) :=
  match s with
  | [] => if in_double || in_single then None else Some (cur, [])
  | c :: s1 =>
      if in_double then
        if c =b? backslash then
          match s1 with
          | [] => word in_double in_single (cur ++ [c]) s1
          | e :: s2 =>
              match s2 with
              | h :: (l :: s4) as s3 =>
                  if (e =b? "x") && is_hex h && is_hex l then
                    word in_double in_single
                         (cur ++ [chr (Z.lor (Z.shiftl (hex_val h) 4) (hex_val l))]) s4
                  else word in_double in_single (cur ++ [unescape e]) s2
              | _ => word in_double in_single (cur ++ [unescape e]) s2
              end
          end
        else if c =b? dquote then
          match s1 with
          | d :: _ => if is_space d then Some (cur, s1) else None
          | [] => Some (cur, s1)
          end
        else word in_double in_single (cur ++ [c]) s1
      else if in_single then
        match s1 with
        | d :: s2 =>
            if (c =b? backslash) && (d =b? squote) then
              word in_double in_single (cur ++ [squote]) s2
            else if c =b? squote then if is_space d then Some (cur, s1) else None
            else word in_double in_single (cur ++ [c]) s1
        | [] =>
            if c =b? squote then Some (cur, s1)
            else word in_double in_single (cur ++ [c]) s1
        end
      else if is_space c then Some (cur, s1)
      else if c =b? dquote then word true in_single cur s1
      else if c =b? squote then word in_double true cur s1
      else word in_double in_single (cur ++ [c]) s1
  end.

(** ** The whole line

    [while (i < n && is_space(p[i])) ++i]. *)
Fixpoint skip_spaces (s : bytes) : bytes :=
  match s with
  | c :: s' => if is_space c then skip_spaces s' else s
  | [] => []
  end.

(** The outer [while (true)]; every round consumes at least one byte. *)
Fixpoint words_loop (fuel : nat) (out : list bytes) (s : bytes) : option (list bytes) :=
  match fuel with
  | O => None
  | S fuel' =>
      match skip_spaces s with
      | [] => Some out
      | s' =>
          match word false false [] s' with
          | None => None
          | Some (cur, rest) => words_loop fuel' (out ++ [cur]) rest
          end
      end
  end.

Definition split_inline (s : bytes) : option (list bytes) := words_loop (S (length s)) [] s.

(** ** The quoting a client may use

    Every byte of an argument as [\xHH] between double quotes, arguments
    separated by one space. *)
Definition hex_digit (d : Z) : byte := chr (if d <? 10 then code "0" + d else code "a" + (d - 10)).

Definition escape (c : byte) : bytes :=
  [backslash; "x"%char; hex_digit (code c `div` 16); hex_digit (code c `mod` 16)].

Definition quote (s : bytes) : bytes := dquote :: concat (escape <$> s) ++ [dquote].

Definition quote_line (args : list bytes) : bytes := concat ((λ a, quote a ++ [" "%char]) <$> args).

Example split_plain :
  split_inline ($"  SET key 'a \' b' " ++ [dquote] ++ $"x\n\x41" ++ [dquote])
  = Some [$"SET"; $"key"; $"a ' b"; ["x"%char; LF; "A"%char]].
Proof. vm_compute. reflexivity. Qed.

Example split_unbalanced : split_inline ($"SET 'a") = None.
Proof. vm_compute. reflexivity. Qed.

(** ** Sizes: every round makes progress, and no byte is produced twice *)
Lemma word_size n in_double in_single cur s w rest :
  (length s ≤ n)%nat →
  word in_double in_single cur s = Some (w, rest) →
  (length w + length rest ≤ length cur + length s)%nat ∧
  (length rest ≤ length s - 1)%nat.
Proof.
  revert in_double in_single cur s.
  induction n as [|n IH]; intros in_double in_single cur s Hn H;
    (destruct s as [|c s1]; [simpl in H; case_match; simplify_eq/=; lia|]);
    [simpl in Hn; lia|].
  cbn [word] in H. cbn [length] in Hn.
  all: repeat case_match; simplify_eq; cbn [length] in *; try lia.
  all: apply IH in H as [Hs Hr]; [|cbn [length]; lia]; rewrite ?length_app in Hs.
  all: cbn [length] in *; lia.
Qed.

#[local] Arguments word : simpl never.

Lemma skip_spaces_length s : (length (skip_spaces s) ≤ length s)%nat.
Proof. induction s as [|c s IH]; simpl; [lia|]. destruct (is_space c); simpl; lia. Qed.

Lemma words_loop_fuel f1 f2 out s :
  (length s < f1)%nat → (length s < f2)%nat → words_loop f1 out s = words_loop f2 out s.
Proof.
  revert f2 out s. induction f1 as [|f1 IH]; intros f2 out s H1 H2; [lia|].
  destruct f2 as [|f2]; [lia|]. simpl.
  pose proof (skip_spaces_length s). destruct (skip_spaces s) as [|c s1]; [done|].
  destruct (word false false [] (c :: s1)) as [[w rest]|] eqn:E; [|done].
  apply (word_size (length (c :: s1))) in E as [_ E]; [|done].
  apply IH; simpl in *; lia.
Qed.

Lemma words_loop_size fuel out s args :
  words_loop fuel out s = Some args →
  (sum_list (length <$> args) ≤ sum_list (length <$> out) + length s)%nat ∧
  (length args ≤ length out + length s)%nat.
Proof.
  revert out s. induction fuel as [|fuel IH]; intros out s H; [done|]. simpl in H.
  pose proof (skip_spaces_length s).
  destruct (skip_spaces s) as [|c s1]; [simplify_eq; lia|].
  destruct (word false false [] (c :: s1)) as [[w rest]|] eqn:E; [|done].
  apply (word_size (length (c :: s1))) in E as [E1 E2]; [|done].
  apply IH in H as [H3 H4]. rewrite fmap_app, sum_list_with_app, length_app in *. 
  simpl in *. lia.
Qed.

(** The first word does not depend on the words already split. *)
Lemma words_loop_out fuel out s :
  words_loop fuel out s = (λ args, out ++ args) <$> words_loop fuel [] s.
Proof.
  revert out s. induction fuel as [|fuel IH]; intros out s; [done|]. simpl.
  destruct (skip_spaces s) as [|c s1]; [simpl; by rewrite app_nil_r|].
  destruct (word false false [] (c :: s1)) as [[w rest]|]; [|done].
  rewrite (IH (out ++ [w])), (IH [w]). destruct (words_loop fuel [] rest); [|done].
  simpl. by rewrite <-(assoc_L (++)).
Qed.

(** One round of the outer loop, on the whole line. *)
Lemma split_inline_step s w rest c s1 :
  skip_spaces s = c :: s1 → word false false [] (c :: s1) = Some (w, rest) →
  split_inline s = cons w <$> split_inline rest.
Proof.
  intros Hs Hw. unfold split_inline. simpl. rewrite Hs, Hw.
  pose proof (skip_spaces_length s) as Hl. rewrite Hs in Hl.
  apply (word_size (length (c :: s1))) in Hw as [_ Hr]; [|done].
  rewrite (words_loop_fuel _ (S (length rest))) by (simpl in *; lia).
  rewrite words_loop_out. done.
Qed.

(** ** Escapes decode to the byte they encode *)
Lemma hex_digit_spec d : 0 ≤ d < 16 → is_hex (hex_digit d) ∧ hex_val (hex_digit d) = d.
Proof.
  intros. assert (d = 0 ∨ d = 1 ∨ d = 2 ∨ d = 3 ∨ d = 4 ∨ d = 5 ∨ d = 6 ∨ d = 7 ∨ d = 8 ∨
    d = 9 ∨ d = 10 ∨ d = 11 ∨ d = 12 ∨ d = 13 ∨ d = 14 ∨ d = 15) as Hd by lia.
  repeat destruct Hd as [->|Hd]; subst; by vm_compute.
Qed.

Lemma nibbles c : Z.lor (Z.shiftl (code c `div` 16) 4) (code c `mod` 16) = code c.
Proof.
  rewrite Z.shiftl_mul_pow2 by done. change (2 ^ 4) with 16.
  rewrite (Z.div_mod (code c) 16) at 3 by done. rewrite Z.mul_comm.
  symmetry. apply Z.add_nocarry_lor. apply Z.bits_inj'. intros n Hn.
  rewrite Z.land_spec, Z.bits_0. change 16 with (2 ^ 4). rewrite Z.mul_comm.
  destruct (decide (n < 4)).
  - by rewrite Z.mul_pow2_bits_low.
  - rewrite Z.mod_pow2_bits_high by lia. apply andb_false_r.
Qed.

Lemma word_escape cur c s : word true false cur (escape c ++ s) = word true false (cur ++ [c]) s.
Proof.
  pose proof (code_bound c). unfold escape. simpl.
  destruct (hex_digit_spec (code c `div` 16)) as [H1 H2].
  { split; [apply Z.div_pos; lia|apply Z.div_lt_upper_bound; lia]. }
  destruct (hex_digit_spec (code c `mod` 16)) as [H3 H4]; [by apply Z.mod_pos_bound|].
  unfold word at 1; fold word. simpl. rewrite (Is_true_true_1 _ H1), (Is_true_true_1 _ H3), H2, H4, nibbles, chr_code. done.
Qed.

#[local] Arguments escape : simpl never.

Lemma word_escapes cur a s :
  word true false cur (concat (escape <$> a) ++ s) = word true false (cur ++ a) s.
Proof.
  revert cur. induction a as [|c a IH]; intros cur; [by rewrite app_nil_r|].
  rewrite fmap_cons, concat_cons, <-(assoc_L (++)), word_escape, IH, <-(assoc_L (++)). done.
Qed.

Lemma split_inline_quote a s :
  split_inline (quote a ++ " "%char :: s) = cons a <$> split_inline (" "%char :: s).
Proof.
  apply (split_inline_step _ _ _ dquote ((concat (escape <$> a) ++ [dquote]) ++ " "%char :: s)).
  - done.
  - change (word true false [] ((concat (escape <$> a) ++ [dquote]) ++ " "%char :: s)
            = Some (a, " "%char :: s)).
    by rewrite <-(assoc_L (++)), word_escapes.
Qed.

Lemma split_inline_space s : split_inline (" "%char :: s) = split_inline s.
Proof.
  change (words_loop (S (S (length s))) [] s = split_inline s).
  apply words_loop_fuel; lia.
Qed.

Lemma split_inline_quote_line args : split_inline (quote_line args) = Some args.
Proof.
  induction args as [|a args IH]; [done|]. unfold quote_line in *.
  rewrite fmap_cons, concat_cons, <-(assoc_L (++)). cbn [app]. rewrite split_inline_quote, split_inline_space, IH. done.
Qed.

(** ** Unquoted words *)
Definition plain (c : byte) : bool := negb (is_space c || (c =b? dquote) || (c =b? squote)).

Definition plain_line (args : list bytes) : bytes := concat ((λ a, a ++ [" "%char]) <$> args).

Lemma word_plain cur a s :
  Forall plain a → word false false cur (a ++ " "%char :: s) = Some (cur ++ a, s).
Proof.
  revert cur. induction a as [|c a IH]; intros cur Ha; simpl;
    unfold word; fold word; [by rewrite app_nil_r|].
  apply Forall_cons in Ha as [Hc Ha]. unfold plain in Hc.
  destruct (is_space c), (c =b? dquote), (c =b? squote); try done.
  rewrite IH, <-(assoc_L (++)); done.
Qed.

Lemma split_inline_plain args :
  Forall (λ a, a ≠ [] ∧ Forall plain a) args → split_inline (plain_line args) = Some args.
Proof.
  induction 1 as [|a args [Hne Ha] _ IH]; [done|]. unfold plain_line in *.
  rewrite fmap_cons, concat_cons, <-(assoc_L (++)). simpl. destruct a as [|c a]; [done|].
  erewrite split_inline_step; [by rewrite IH|..].
  - simpl. apply Forall_cons in Ha as [Hc _]. unfold plain in Hc.
    by destruct (is_space c).
  - change (c :: a ++ ?x) with ((c :: a) ++ x). by rewrite word_plain.
Qed.

Lemma word_plain_end cur a : Forall plain a → word false false cur a = Some (cur ++ a, []).
Proof.
  revert cur. induction a as [|c a IH]; intros cur Ha; simpl;
    unfold word; fold word; [by rewrite app_nil_r|].
  apply Forall_cons in Ha as [Hc Ha]. unfold plain in Hc.
  destruct (is_space c), (c =b? dquote), (c =b? squote); try done.
  rewrite IH, <-(assoc_L (++)); done.
Qed.

Lemma split_inline_plain_end a : a ≠ [] → Forall plain a → split_inline a = Some [a].
Proof.
  intros Hne Ha. destruct a as [|c a]; [done|].
  rewrite (split_inline_step _ (c :: a) [] c a); [done| |by rewrite word_plain_end].
  simpl. apply Forall_cons in Ha as [Hc _]. unfold plain in Hc. by destruct (is_space c).
Qed.
