(* ===== verification/Parser.v ===== *)
(** * The incremental RESP2 parser

    [class RespParser] of [src/resp/parser.h] and [src/resp/parser.cpp].  The
    four members that survive between reads are the record [Parser]; [step] is
    one turn of the [for (;;) switch (state_)] loop, over any buffer that
    implements [ByteQueue]; [parse] runs it until it returns. *)
From S2P Require Import Prelude Buffer Digits Inline.

(** ** [find_crlf] (parser.cpp)

    [p] is the offset of the scanning pointer in [s]; [fuel] counts the turns
    of the [while], each of which moves it forward. *)
Fixpoint find_crlf_loop (fuel : nat) (s : bytes) (p : nat) : option nat :=
  match fuel with
  | O => None
  | S fuel' =>
      if (p + 1 <? length s)%nat then
        match memchr CR (take (length s - p - 1) (drop p s)) with
        | None => None
        | Some i =>
            let r := (p + i)%nat in
            if bool_decide (s !! (r + 1)%nat = Some LF) then Some r
            else find_crlf_loop fuel' s (r + 1)
        end
      else None
  end.

Definition find_crlf (s : bytes) : option nat := find_crlf_loop (S (length s)) s 0.

(** The first offset of a CRLF pair, by structural recursion. *)
Fixpoint first_crlf (s : bytes) : option nat :=
  match s with
  | a :: ((b :: _) as s') =>
      if (a =b? CR) && (b =b? LF) then Some 0%nat else S <$> first_crlf s'
  | _ => None
  end.

(** ** Data *)
Inductive State := Start | ArgLen | ArgData.

#[export] Instance State_eq_dec : EqDecision State.
Proof. solve_decision. Defined.

Record ProtocolLimits := {
  max_multibulk_args : Z;
  max_bulk_len : Z;
  max_inline_len : Z;
}.

Definition default_limits : ProtocolLimits := {|
  max_multibulk_args := 1024 * 1024;
  max_bulk_len := 512 * 1024 * 1024;
  max_inline_len := 64 * 1024;
|}.

(** [ParseStatus], with the out-parameter each status assigns: [*argv] on
    [Complete], [*err] on [Error]. *)
Inductive ParseStatus :=
  | Incomplete
  | Complete (argv : list bytes)
  | Error (err : bytes).

Record Parser := mkParser {
  state_ : State;
  args_remaining_ : Z;
  arg_len_ : Z;
  argv_ : list bytes;
  limits_ : ProtocolLimits;
}.

Definition new_parser (l : ProtocolLimits) : Parser := mkParser Start 0 (-1) [] l.

Definition reset (p : Parser) : Parser := mkParser Start 0 (-1) [] (limits_ p).

Definition fail_err (msg : bytes) : bytes := $"Protocol error: " ++ msg.

(** One turn of the loop either returns from [parse] or goes round again. *)
Inductive Turn (B : Type) :=
  | Return (p : Parser) (b : B) (s : ParseStatus)
  | Again (p : Parser) (b : B).
Arguments Return {B}.
Arguments Again {B}.

Section Parse.
Context {B : Type} `{!ByteQueue B}.

Definition fail (p : Parser) (b : B) (msg : bytes) : Turn B :=
  Return (reset p) b (Error (fail_err msg)).

(** [case State::Start], inline branch. *)
Definition step_inline (p : Parser) (b : B) : Turn B :=
  let s := contents b in
  match memchr LF s with
  | None =>
      if max_inline_len (limits_ p) <? Z.of_nat (readable b)
      then fail p b $"too big inline request"
      else Return p b Incomplete
  | Some nl =>
      let total := (nl + 1)%nat in
      let line_len :=
        if (0 <? nl)%nat && bool_decide (s !! (nl - 1)%nat = Some CR)
        then (nl - 1)%nat else nl in
      if max_inline_len (limits_ p) <? Z.of_nat line_len
      then fail p b $"too big inline request"
      else
        match split_inline (take line_len s) with
        | None => fail p (consume total b) $"unbalanced quotes in request"
        | Some parts => Return (reset p) (consume total b) (Complete parts)
        end
  end.

(** [case State::Start], multibulk branch. *)
Definition step_multibulk (p : Parser) (b : B) : Turn B :=
  let s := contents b in
  match find_crlf s with
  | None =>
      if (64 <? readable b)%nat then fail p b $"too big mbulk count string"
      else Return p b Incomplete
  | Some line_len =>
      match string_to_int64 (take (line_len - 1) (drop 1 s)) with
      | None => fail p b $"invalid multibulk length"
      | Some count =>
          if s64 (max_multibulk_args (limits_ p)) <? count
          then fail p b $"invalid multibulk length"
          else
            let b' := consume (line_len + 2) b in
            if count <=? 0 then Return (reset p) b' (Complete [])
            else Again (mkParser ArgLen count (arg_len_ p) [] (limits_ p)) b'
      end
  end.

Definition step_start (p : Parser) (b : B) : Turn B :=
  if (readable b =? 0)%nat then Return p b Incomplete
  else if bool_decide (contents b !! 0%nat = Some "*"%char) then step_multibulk p b
  else step_inline p b.

(** [case State::ArgLen]. *)
Definition step_arg_len (p : Parser) (b : B) : Turn B :=
  let s := contents b in
  match find_crlf s with
  | None =>
      if (64 <? readable b)%nat then fail p b $"too big bulk count string"
      else Return p b Incomplete
  | Some line_len =>
      if (line_len =? 0)%nat || negb (bool_decide (s !! 0%nat = Some "$"%char)) then
        let got := if (line_len =? 0)%nat then " "%char else default zero (s !! 0%nat) in
        fail p b ($"expected '$', got '" ++ [got] ++ $"'")
      else
        match string_to_int64 (take (line_len - 1) (drop 1 s)) with
        | None => fail p b $"invalid bulk length"
        | Some len =>
            if (len <? 0) || (s64 (max_bulk_len (limits_ p)) <? len)
            then fail p b $"invalid bulk length"
            else Again (mkParser ArgData (args_remaining_ p) len (argv_ p) (limits_ p))
                       (consume (line_len + 2) b)
        end
  end.

(** [case State::ArgData]. *)
Definition step_arg_data (p : Parser) (b : B) : Turn B :=
  let s := contents b in
  let len := Z.to_nat (arg_len_ p) in
  let need := u64 (u64 (arg_len_ p) + 2) in
  if Z.of_nat (readable b) <? need then Return p b Incomplete
  else if negb (bool_decide (s !! len = Some CR)) || negb (bool_decide (s !! (len + 1)%nat = Some LF))
  then fail p b $"invalid bulk length"
  else
    let argv := argv_ p ++ [take len s] in
    let b' := consume (Z.to_nat need) b in
    let left := s64 (args_remaining_ p - 1) in
    if left =? 0 then Return (reset p) b' (Complete argv)
    else Again (mkParser ArgLen left (-1) argv (limits_ p)) b'.

Definition step (p : Parser) (b : B) : Turn B :=
  match state_ p with
  | Start => step_start p b
  | ArgLen => step_arg_len p b
  | ArgData => step_arg_data p b
  end.

(** The [for (;;)].  Every turn that goes round again has consumed at least
    two bytes, so one turn per readable byte, plus one, is enough. *)
Fixpoint parse_loop (fuel : nat) (p : Parser) (b : B) : option (Parser * B * ParseStatus) :=
  match fuel with
  | O => None
  | S fuel' =>
      match step p b with
      | Return p' b' s => Some (p', b', s)
      | Again p' b' => parse_loop fuel' p' b'
      end
  end.

Definition parse (p : Parser) (b : B) : Parser * B * ParseStatus :=
  default (p, b, Incomplete) (parse_loop (S (readable b)) p b).
End Parse.

(** ** [find_crlf] finds the first CRLF *)
Lemma first_crlf_cons a s :
  first_crlf (a :: s) =
    if (a =b? CR) && bool_decide (s !! 0%nat = Some LF) then Some 0%nat else S <$> first_crlf s.
Proof.
  destruct s as [|b s]; simpl; [by rewrite andb_false_r|].
  assert ((b =b? LF) = bool_decide (Some b = Some LF)) as ->; [|done].
  destruct (byte_eqb_spec b LF); case_bool_decide; naive_solver.
Qed.

#[local] Arguments first_crlf : simpl never.

Lemma first_crlf_memchr s :
  first_crlf s =
    match memchr CR (take (length s - 1) s) with
    | None => None
    | Some i =>
        if bool_decide (s !! (i + 1)%nat = Some LF) then Some i
        else Nat.add (i + 1) <$> first_crlf (drop (i + 1) s)
    end.
Proof.
  induction s as [|a s IH]; [done|]. rewrite first_crlf_cons.
  destruct s as [|b s]; [by rewrite bool_decide_eq_false_2, andb_false_r|].
  replace (length (a :: b :: s) - 1)%nat with (S (length (b :: s) - 1)) by (simpl; lia).
  rewrite firstn_cons. cbn [memchr]. case_byte; simpl andb.
  - change ((CR :: b :: s) !! (0 + 1)%nat) with (Some b).
    case_bool_decide; [done|]. change (drop (0 + 1) (CR :: b :: s)) with (b :: s).
    by destruct (first_crlf (b :: s)).
  - rewrite IH. destruct (memchr CR (take _ (b :: s))) as [i|]; [|done]. simpl.
    case_bool_decide; [done|]. by destruct (first_crlf (drop (i + 1) (b :: s))).
Qed.

Lemma find_crlf_loop_spec fuel s p :
  (length s < p + fuel)%nat → (p ≤ length s)%nat →
  find_crlf_loop fuel s p = Nat.add p <$> first_crlf (drop p s).
Proof.
  revert p. induction fuel as [|fuel IH]; intros p Hf Hp; [lia|]. simpl.
  rewrite first_crlf_memchr, length_drop.
  destruct (p + 1 <? length s)%nat eqn:E; last first.
  { replace (length s - p - 1)%nat with 0%nat by lia. done. }
  destruct (memchr CR _) as [i|] eqn:Ei; [|done].
  apply memchr_lt in Ei. rewrite length_take, length_drop in Ei.
  rewrite lookup_drop, drop_drop.
  replace (p + i + 1)%nat with (p + (i + 1))%nat by lia.
  case_bool_decide; [done|]. rewrite IH by lia.
  destruct (first_crlf _); simpl; [f_equal; lia|done].
Qed.

Lemma find_crlf_first s : find_crlf s = first_crlf s.
Proof.
  unfold find_crlf. rewrite find_crlf_loop_spec by lia. rewrite drop_0.
  by destruct (first_crlf s).
Qed.

Lemma first_crlf_app s t i : first_crlf s = Some i → first_crlf (s ++ t) = Some i.
Proof.
  revert i. induction s as [|a s IH]; intros i; [done|]. simpl.
  rewrite !first_crlf_cons.
  destruct (a =b? CR); simpl.
  - case_bool_decide as H.
    { rewrite bool_decide_eq_true_2; [done|]. by destruct s. }
    intros (j & Hj & ->)%fmap_Some. rewrite (IH j Hj).
    destruct s as [|b s]; [done|]. by rewrite bool_decide_eq_false_2.
  - intros (j & Hj & ->)%fmap_Some. by rewrite (IH j Hj).
Qed.

Lemma first_crlf_lt s i : first_crlf s = Some i → (i + 1 < length s)%nat.
Proof.
  revert i. induction s as [|a s IH]; intros i; [done|]. rewrite first_crlf_cons.
  destruct (_ && _) eqn:E.
  - intros [= <-]. destruct s; simpl; [by rewrite andb_false_r in E|lia].
  - intros (j & Hj & ->)%fmap_Some. apply IH in Hj. simpl. lia.
Qed.

Lemma first_crlf_app_None s t i :
  first_crlf s = None → first_crlf (s ++ t) = Some i → (length s ≤ i + 1)%nat.
Proof.
  revert i. induction s as [|a s IH]; intros i; [simpl; lia|]. simpl.
  rewrite !first_crlf_cons.
  destruct s as [|b s]; [simpl; lia|]. simpl.
  destruct (_ && _) eqn:E; [done|]. intros Hn%fmap_None (j & Hj & ->)%fmap_Some.
  specialize (IH j Hn Hj). simpl in *. lia.
Qed.

Lemma first_crlf_mid l t : CR ∉ l → first_crlf (l ++ CRLF ++ t) = Some (length l).
Proof.
  induction l as [|a l IH]; intros Hl; [done|]. rewrite <-app_comm_cons, first_crlf_cons.
  rewrite byte_eqb_ne by set_solver. rewrite IH by set_solver. done.
Qed.

Lemma first_crlf_lookup s i :
  first_crlf s = Some i → s !! i = Some CR ∧ s !! (i + 1)%nat = Some LF.
Proof.
  revert i. induction s as [|a s IH]; intros i; [done|]. rewrite first_crlf_cons.
  destruct (byte_eqb_spec a CR) as [->|]; simpl.
  - case_bool_decide; [by intros [= <-]|]. intros (j & Hj & ->)%fmap_Some. by apply IH in Hj.
  - intros (j & Hj & ->)%fmap_Some. by apply IH in Hj.
Qed.

(** ** The buffer is only an implementation of its contents

    The parser over any lawful [ByteQueue] makes the same turns as the parser
    over the byte list the queue stands for. *)
Definition turn_sim {B} `{!ByteQueue B} (t : Turn B) (u : Turn bytes) : Prop :=
  match t, u with
  | Return p b s, Return p' b' s' => p = p' ∧ s = s' ∧ bq_ok b ∧ contents b = b'
  | Again p b, Again p' b' => p = p' ∧ bq_ok b ∧ contents b = b'
  | _, _ => False
  end.

Section Refine.
Context {B : Type} `{!ByteQueue B} `{!ByteQueueLaws B}.

Lemma step_sim p (b : B) : bq_ok b → turn_sim (step p b) (step p (contents b)).
Proof.
  intros Hb. unfold step, step_start, step_multibulk, step_inline, step_arg_len, step_arg_data, fail.
  rewrite readable_contents by done. simpl.
  repeat case_match; simplify_eq; simpl; auto using bq_consume_ok, contents_consume.
Qed.

Lemma parse_loop_sim fuel p (b : B) :
  bq_ok b →
  match parse_loop fuel p b, parse_loop fuel p (contents b) with
  | Some (p1, b1, s1), Some (p2, b2, s2) => p1 = p2 ∧ s1 = s2 ∧ bq_ok b1 ∧ contents b1 = b2
  | None, None => True
  | _, _ => False
  end.
Proof.
  revert p b. induction fuel as [|fuel IH]; intros p b Hb; [done|]. simpl.
  pose proof (step_sim p b Hb) as H. unfold turn_sim in H.
  destruct (step p b), (step p (contents b)); try done. destruct H as (-> & Hok & <-).
  by apply IH.
Qed.

Lemma parse_sim p (b : B) :
  bq_ok b →
  (parse p b).1.1 = (parse p (contents b)).1.1 ∧
  (parse p b).2 = (parse p (contents b)).2 ∧
  bq_ok (parse p b).1.2 ∧
  contents (parse p b).1.2 = (parse p (contents b)).1.2.
Proof.
  intros Hb. unfold parse. rewrite readable_contents by done.
  change (readable (contents b)) with (length (contents b)).
  pose proof (parse_loop_sim (S (length (contents b))) p b Hb) as H.
  destruct (parse_loop _ p b) as [[[p1 b1] s1]|], (parse_loop _ p (contents b)) as [[[p2 b2] s2]|];
    try done; simpl; naive_solver.
Qed.
End Refine.

(** ** The parser invariant *)
Definition limits_ok (l : ProtocolLimits) : Prop :=
  0 ≤ max_multibulk_args l ≤ INT64_MAX ∧ 0 ≤ max_bulk_len l ≤ INT64_MAX ∧ 0 ≤ max_inline_len l.

Definition parser_ok (p : Parser) : Prop :=
  limits_ok (limits_ p) ∧
  Forall (λ a : bytes, Z.of_nat (length a) ≤ max_bulk_len (limits_ p)) (argv_ p) ∧
  match state_ p with
  | Start => p = new_parser (limits_ p)
  | ArgLen => arg_len_ p = -1
  | ArgData => 0 ≤ arg_len_ p ≤ max_bulk_len (limits_ p)
  end ∧
  (state_ p ≠ Start →
   1 ≤ args_remaining_ p ∧
   Z.of_nat (length (argv_ p)) + args_remaining_ p ≤ max_multibulk_args (limits_ p)).

(** What one turn guarantees, on byte lists. *)
Definition turn_ok (p : Parser) (s : bytes) (t : Turn bytes) : Prop :=
  match t with
  | Return p' s' st =>
      parser_ok p' ∧ limits_ p' = limits_ p ∧
      match st with
      | Incomplete => p' = p ∧ s' = s
      | Complete argv =>
          p' = reset p ∧ (length s' < length s)%nat ∧
          Z.of_nat (length argv) ≤ Z.max (max_multibulk_args (limits_ p)) (max_inline_len (limits_ p)) ∧
          Forall (λ a : bytes, Z.of_nat (length a) ≤
                   Z.max (max_bulk_len (limits_ p)) (max_inline_len (limits_ p))) argv
      | Error _ => p' = reset p ∧ (length s' ≤ length s)%nat
      end
  | Again p' s' => parser_ok p' ∧ limits_ p' = limits_ p ∧ (length s' + 2 ≤ length s)%nat
  end.

Lemma reset_ok p : parser_ok p → parser_ok (reset p).
Proof. intros (Hl & _). split_and!; done || by constructor. Qed.

Lemma new_parser_ok l : limits_ok l → parser_ok (new_parser l).
Proof. intros Hl. split_and!; done || by constructor. Qed.

#[export] Hint Resolve reset_ok new_parser_ok : kvsd.

Lemma fail_turn_ok p s msg : parser_ok p → turn_ok p s (fail p s msg).
Proof. intros Hp. simpl. split_and!; auto with kvsd. Qed.

Lemma sum_list_elem (l : list nat) x : x ∈ l → (x ≤ sum_list l)%nat.
Proof. induction 1; simpl; lia. Qed.

Lemma step_inline_ok p s : parser_ok p → turn_ok p s (step_inline p s).
Proof.
  intros Hp. unfold step_inline. simpl.
  destruct (memchr LF s) as [nl|] eqn:E.
  2: { destruct (_ <? _); [by apply fail_turn_ok|done]. }
  apply memchr_lt in E.
  set (line_len := if (_ : bool) then (nl - 1)%nat else nl).
  assert (line_len ≤ nl)%nat as Hl by (unfold line_len; destruct (_ && _); lia).
  destruct (_ <? _) eqn:E2; [by apply fail_turn_ok|].
  destruct (split_inline _) as [parts|] eqn:Es.
  - apply words_loop_size in Es as [Hsum Hlen].
    rewrite length_take, Nat.min_l in Hsum, Hlen by lia. simpl in *.
    rewrite length_drop. split_and!; auto with kvsd; [lia..|].
    apply Forall_forall. intros a Ha.
    pose proof (sum_list_elem (length <$> parts) (length a)) as Hle.
    specialize (Hle ltac:(by apply list_elem_of_fmap_2)). lia.
  - simpl. rewrite length_drop. split_and!; auto with kvsd. lia.
Qed.

Lemma step_multibulk_ok p s :
  parser_ok p → state_ p = Start → turn_ok p s (step_multibulk p s).
Proof.
  intros Hp Hst. pose proof Hp as (Hlim & _ & Hstart & _).
  pose proof Hlim as (Hm & Hb & Hi).
  rewrite Hst in Hstart. unfold step_multibulk. simpl. rewrite find_crlf_first.
  destruct (first_crlf s) as [i|] eqn:E.
  2: { destruct (_ <? _)%nat; [by apply fail_turn_ok|done]. }
  apply first_crlf_lt in E.
  destruct (string_to_int64 _) as [count|]; [|by apply fail_turn_ok].
  rewrite s64_small by (mach; lia).
  destruct (_ <? count) eqn:E2; [by apply fail_turn_ok|].
  destruct (count <=? 0) eqn:E3; simpl; rewrite length_drop.
  - simpl. split_and!; auto with kvsd; lia || by constructor.
  - rewrite Hstart. unfold parser_ok; simpl. split_and!; auto; lia || by constructor.
Qed.

Lemma step_arg_len_ok p s :
  parser_ok p → state_ p = ArgLen → turn_ok p s (step_arg_len p s).
Proof.
  intros Hp Hst. pose proof Hp as (Hlim & Hall & Hlen & Hargs).
  pose proof Hlim as (Hm & Hb & Hi).
  unfold step_arg_len. simpl. rewrite find_crlf_first.
  destruct (first_crlf s) as [i|] eqn:E.
  2: { destruct (_ <? _)%nat; [by apply fail_turn_ok|done]. }
  apply first_crlf_lt in E.
  destruct (_ || negb _); [by apply fail_turn_ok|].
  destruct (string_to_int64 _) as [len|]; [|by apply fail_turn_ok].
  rewrite s64_small by (mach; lia).
  destruct (_ || _) eqn:E2; [by apply fail_turn_ok|]. simpl. rewrite length_drop.
  unfold parser_ok; simpl. split_and!; auto; try lia.
  intros _. apply Hargs. by rewrite Hst.
Qed.

Lemma need_exact len : 0 ≤ len ≤ INT64_MAX → u64 (u64 len + 2) = len + 2.
Proof. intros. rewrite (u64_small len), u64_small by (mach; lia). done. Qed.

Lemma step_arg_data_ok p s :
  parser_ok p → state_ p = ArgData → turn_ok p s (step_arg_data p s).
Proof.
  intros Hp Hst. pose proof Hp as (Hlim & Hall & Hlen & Hargs).
  pose proof Hlim as (Hm & Hb & Hi).
  rewrite Hst in Hlen. destruct (Hargs ltac:(by rewrite Hst)) as [Hr1 Hr2].
  unfold step_arg_data. simpl. rewrite need_exact by lia.
  destruct (_ <? _) eqn:E1; [done|].
  destruct (_ || _); [by apply fail_turn_ok|].
  rewrite s64_small by (mach; lia).
  assert (Forall (λ a : bytes, Z.of_nat (length a) ≤ max_bulk_len (limits_ p))
            (argv_ p ++ [take (Z.to_nat (arg_len_ p)) s])) as Hall'.
  { apply Forall_app. split; [done|]. constructor; [|done]. rewrite length_take. lia. }
  destruct (_ =? 0) eqn:E2; simpl; rewrite length_drop.
  - rewrite length_app; simpl. split_and!; auto with kvsd; [lia..|].
    eapply Forall_impl; [done|]. simpl. lia.
  - unfold parser_ok; simpl. rewrite length_app; simpl. split_and!; auto; lia.
Qed.

Lemma step_ok p s : parser_ok p → turn_ok p s (step p s).
Proof.
  intros Hp. unfold step, step_start. destruct (state_ p) eqn:E.
  - destruct (_ =? 0)%nat; [done|].
    case_bool_decide; [by apply step_multibulk_ok|by apply step_inline_ok].
  - by apply step_arg_len_ok.
  - by apply step_arg_data_ok.
Qed.

(** ** Termination *)
Lemma parse_loop_total fuel p (s : bytes) :
  parser_ok p → (length s < fuel)%nat → is_Some (parse_loop fuel p s).
Proof.
  revert p s. induction fuel as [|fuel IH]; intros p s Hp Hf; [lia|]. simpl.
  pose proof (step_ok p s Hp) as H. destruct (step p s) as [|p' s']; [done|].
  destruct H as (Hp' & _ & Hlen). apply IH; [done|lia].
Qed.

Lemma parse_loop_mono f1 f2 p (s : bytes) r :
  parse_loop f1 p s = Some r → (f1 ≤ f2)%nat → parse_loop f2 p s = Some r.
Proof.
  revert f2 p s. induction f1 as [|f1 IH]; intros f2 p s H Hle; [done|].
  destruct f2 as [|f2]; [lia|]. simpl in *.
  destruct (step p s); [done|]. apply IH; [done|lia].
Qed.

Lemma parse_loop_parse p (s : bytes) :
  parser_ok p → parse_loop (S (length s)) p s = Some (parse p s).
Proof.
  intros Hp. destruct (parse_loop_total (S (length s)) p s Hp) as [r Hr]; [lia|].
  unfold parse. change (readable s) with (length s). by rewrite Hr.
Qed.

(** [parse], one turn at a time. *)
Lemma parse_step p (s : bytes) :
  parser_ok p →
  parse p s = match step p s with
              | Return p' s' st => (p', s', st)
              | Again p' s' => parse p' s'
              end.
Proof.
  intros Hp. pose proof (step_ok p s Hp) as Hok.
  pose proof (parse_loop_parse p s Hp) as H. simpl in H.
  destruct (step p s) as [p' s' st|p' s']; [by injection H|].
  destruct Hok as (Hp' & _ & Hlen).
  pose proof (parse_loop_parse p' s' Hp') as H'.
  apply (parse_loop_mono _ (length s)) in H'; [|lia]. congruence.
Qed.

(** Induction on the turns of a call. *)
Lemma parse_ind (P : Parser → bytes → Prop) :
  (∀ p s, parser_ok p →
     (∀ p' s', step p s = Again p' s' → parser_ok p' → P p' s') → P p s) →
  ∀ p s, parser_ok p → P p s.
Proof.
  intros Hstep p s. remember (length s) as n eqn:En. revert p s En.
  induction n as [n IH] using lt_wf_ind. intros p s -> Hp. apply Hstep; [done|].
  intros p' s' Hs Hp'. pose proof (step_ok p s Hp) as Hok. rewrite Hs in Hok.
  eapply IH; [|done|done]. destruct Hok as (_ & _ & ?). lia.
Qed.

(** What one call guarantees. *)
Definition call_ok (p : Parser) (s : bytes) (r : Parser * bytes * ParseStatus) : Prop :=
  let '(p', s', st) := r in
  parser_ok p' ∧ limits_ p' = limits_ p ∧
  match st with
  | Incomplete => (length s' ≤ length s)%nat
  | Complete argv =>
      p' = reset p ∧ (length s' < length s)%nat ∧
      Z.of_nat (length argv) ≤ Z.max (max_multibulk_args (limits_ p)) (max_inline_len (limits_ p)) ∧
      Forall (λ a : bytes, Z.of_nat (length a) ≤
               Z.max (max_bulk_len (limits_ p)) (max_inline_len (limits_ p))) argv
  | Error _ => p' = reset p ∧ (length s' ≤ length s)%nat
  end.

Lemma parse_ok p s : parser_ok p → call_ok p s (parse p s).
Proof.
  revert p s. apply parse_ind. intros p s Hp IH. rewrite parse_step by done.
  pose proof (step_ok p s Hp) as Hok. destruct (step p s) as [p' s' st|p' s'].
  - unfold turn_ok, call_ok in *. destruct st; naive_solver.
  - destruct Hok as (Hp' & Hl & Hlen). specialize (IH p' s' eq_refl Hp').
    destruct (parse p' s') as [[p1 s1] st]. unfold call_ok, reset in *. rewrite Hl in IH.
    destruct st; intuition lia.
Qed.
