(* ===== verification/Stream.v ===== *)
(** * The parser on a byte stream

    TCP delivers a stream in arbitrary pieces.  [drain] is the loop around
    [parse] in [Server::process_input] with the commands collected instead of
    dispatched, and [feed] runs it after every [read].  The results: a turn
    depends only on the bytes it consumes, so parsing can stop anywhere and
    resume ([parse_resume]); and the commands a client encodes come out
    unchanged, pipelined and cut at any offsets. *)
From S2P Require Import Prelude Buffer Digits Inline Parser.

Implicit Types (s t x : bytes).

(** ** What a client sends: an array of bulk strings *)
Definition encode_arg (a : bytes) : bytes :=
  "$"%char :: std_to_string (Z.of_nat (length a)) ++ CRLF ++ a ++ CRLF.

Definition encode (argv : list bytes) : bytes :=
  "*"%char :: std_to_string (Z.of_nat (length argv)) ++ CRLF ++ concat (encode_arg <$> argv).

(** A command within the limits of the parser. *)
Definition fits (l : ProtocolLimits) (argv : list bytes) : Prop :=
  Z.of_nat (length argv) ≤ max_multibulk_args l ∧
  Forall (λ a : bytes, Z.of_nat (length a) ≤ max_bulk_len l) argv.

(** ** The caller's loop *)
Fixpoint drain (fuel : nat) (p : Parser) (s : bytes)
    : option (list (list bytes) * Parser * bytes * option bytes) :=
  match fuel with
  | O => None
  | S fuel' =>
      match parse p s with
      | (p', s', Incomplete) => Some ([], p', s', None)
      | (p', s', Error e) => Some ([], p', s', Some e)
      | (p', s', Complete argv) =>
          '(cmds, p'', s'', e) ← drain fuel' p' s'; Some (argv :: cmds, p'', s'', e)
      end
  end.

(** Each [Complete] consumes a byte, so one call per byte is enough. *)
Definition drain_all (p : Parser) (s : bytes) : list (list bytes) * Parser * bytes * option bytes :=
  default ([], p, s, None) (drain (S (length s)) p s).

Fixpoint feed (p : Parser) (s : bytes) (chunks : list bytes)
    : list (list bytes) * Parser * bytes * option bytes :=
  match chunks with
  | [] => ([], p, s, None)
  | c :: chunks' =>
      match drain_all p (s ++ c) with
      | (cmds, p', s', Some e) => (cmds, p', s', Some e)
      | (cmds, p', s', None) =>
          let '(cmds', p'', s'', e) := feed p' s' chunks' in (cmds ++ cmds', p'', s'', e)
      end
  end.

(** ** A turn depends only on the bytes it consumes *)
Definition turn_app (t : Turn bytes) (x : bytes) : Turn bytes :=
  match t with
  | Return p s st => Return p (s ++ x) st
  | Again p s => Again p (s ++ x)
  end.

Definition decisive (t : Turn bytes) : Prop :=
  match t with
  | Return _ _ (Complete _) | Again _ _ => True
  | _ => False
  end.

Lemma step_inline_app p s x :
  decisive (step_inline p s) → step_inline p (s ++ x) = turn_app (step_inline p s) x.
Proof.
  unfold step_inline. simpl. destruct (memchr LF s) as [nl|] eqn:E.
  2: { by destruct (_ <? _). }
  rewrite (memchr_app_l _ _ x nl E). apply memchr_lt in E.
  rewrite lookup_app_l by lia.
  set (line_len := if (_ : bool) then (nl - 1)%nat else nl).
  assert (line_len ≤ nl)%nat as Hl by (unfold line_len; destruct (_ && _); lia).
  destruct (_ <? _); [done|]. rewrite take_app_le by lia.
  destruct (split_inline _); [|done]. intros _. simpl. by rewrite drop_app_le by lia.
Qed.

(** A header line: its offset, and the digits between the type byte and CRLF. *)
Lemma header_app s x i :
  first_crlf s = Some i →
  take (i - 1) (drop 1 (s ++ x)) = take (i - 1) (drop 1 s) ∧
  drop (i + 2) (s ++ x) = drop (i + 2) s ++ x.
Proof.
  intros H%first_crlf_lt. split; [|apply drop_app_le; lia].
  rewrite drop_app_le by lia. apply take_app_le. rewrite length_drop. lia.
Qed.

Lemma step_multibulk_app p s x :
  decisive (step_multibulk p s) → step_multibulk p (s ++ x) = turn_app (step_multibulk p s) x.
Proof.
  unfold step_multibulk. simpl. rewrite !find_crlf_first.
  destruct (first_crlf s) as [i|] eqn:E; [|by destruct (_ <? _)%nat].
  rewrite (first_crlf_app _ x _ E). destruct (header_app s x i E) as [-> ->].
  destruct (string_to_int64 _); [|done]. destruct (_ <? z); [done|].
  by destruct (z <=? 0).
Qed.

Lemma step_arg_len_app p s x :
  decisive (step_arg_len p s) → step_arg_len p (s ++ x) = turn_app (step_arg_len p s) x.
Proof.
  unfold step_arg_len. simpl. rewrite !find_crlf_first.
  destruct (first_crlf s) as [i|] eqn:E; [|by destruct (_ <? _)%nat].
  rewrite (first_crlf_app _ x _ E). destruct (header_app s x i E) as [-> ->].
  apply first_crlf_lt in E. rewrite lookup_app_l by lia.
  destruct (_ || negb _); [done|]. destruct (string_to_int64 _); [|done].
  by destruct (_ || _).
Qed.

Lemma step_arg_data_app p s x :
  parser_ok p → state_ p = ArgData →
  decisive (step_arg_data p s) → step_arg_data p (s ++ x) = turn_app (step_arg_data p s) x.
Proof.
  intros (Hlim & _ & Hlen & _) Hst. rewrite Hst in Hlen. destruct Hlim as (_ & Hb & _).
  unfold step_arg_data. simpl. rewrite need_exact by lia. rewrite length_app.
  destruct (Z.of_nat (length s) <? arg_len_ p + 2) eqn:E; [done|].
  replace (Z.of_nat (length s + length x) <? arg_len_ p + 2) with false by lia.
  rewrite !lookup_app_l, take_app_le, drop_app_le by lia.
  destruct (_ || _); [done|]. by destruct (_ =? 0).
Qed.

Lemma step_app p s x :
  parser_ok p → decisive (step p s) → step p (s ++ x) = turn_app (step p s) x.
Proof.
  intros Hp. unfold step, step_start. destruct (state_ p) eqn:E.
  - change (readable s) with (length s). change (readable (s ++ x)) with (length (s ++ x)).
    rewrite length_app. destruct (length s =? 0)%nat eqn:E0; [done|].
    replace (length s + length x =? 0)%nat with false by lia. simpl.
    rewrite lookup_app_l by lia.
    case_bool_decide; [apply step_multibulk_app|apply step_inline_app].
  - apply step_arg_len_app.
  - by apply step_arg_data_app.
Qed.

Lemma step_incomplete p s p' s' :
  parser_ok p → step p s = Return p' s' Incomplete → p' = p ∧ s' = s.
Proof. intros Hp H. pose proof (step_ok p s Hp) as Hok. rewrite H in Hok. apply Hok. Qed.

(** A call that stopped for lack of bytes resumes where it stopped. *)
Lemma parse_app p s x :
  parser_ok p →
  match parse p s with
  | (p', s', Incomplete) => parse p (s ++ x) = parse p' (s' ++ x)
  | (p', s', Complete argv) => parse p (s ++ x) = (p', s' ++ x, Complete argv)
  | _ => True
  end.
Proof.
  revert p s. apply parse_ind. intros p s Hp IH.
  rewrite (parse_step p s), (parse_step p (s ++ x)) by done.
  pose proof (step_app p s x Hp) as Happ.
  destruct (step p s) as [p' s' st|p' s'] eqn:E.
  - destruct st as [|argv|e]; [|by rewrite Happ|done].
    apply step_incomplete in E as [-> ->]; [|done]. by rewrite <-parse_step.
  - rewrite Happ by done. simpl. apply IH; [done|].
    pose proof (step_ok p s Hp) as Hok. rewrite E in Hok. apply Hok.
Qed.

(** ** Round trip: the parser reads back what a client encodes *)
Lemma size_in_s64 {A} (l : list A) z : Z.of_nat (length l) ≤ z → z ≤ INT64_MAX → in_s64 (Z.of_nat (length l)).
Proof. mach. lia. Qed.

Lemma header_encoded c n t h :
  in_s64 n → c ≠ CR → h = c :: std_to_string n ++ CRLF ++ t →
  ∃ i, first_crlf h = Some i ∧ string_to_int64 (take (i - 1) (drop 1 h)) = Some n ∧
       drop (i + 2) h = t ∧ i ≠ 0%nat ∧ h !! 0%nat = Some c ∧ length h ≠ 0%nat.
Proof.
  intros Hn Hc ->. exists (S (length (std_to_string n))).
  rewrite <-format_int_std_to_string by done.
  pose proof (denotes_no_ctl _ _ CR (format_int_denotes n Hn) ltac:(by left)) as Hcr.
  split_and!; [..|done|done|done].
  - rewrite app_comm_cons, first_crlf_mid by set_solver. done.
  - simpl. rewrite Nat.sub_0_r, drop_0, take_app_length. by apply string_to_int64_format_int.
  - simpl. rewrite drop_app_ge by lia.
    by replace (length (format_int n) + 2 - length (format_int n))%nat with 2%nat by lia.
Qed.

Lemma step_encoded_count l n t :
  limits_ok l → 0 ≤ n ≤ max_multibulk_args l →
  step (new_parser l) ("*"%char :: std_to_string n ++ CRLF ++ t)
  = if n =? 0 then Return (new_parser l) t (Complete [])
    else Again (mkParser ArgLen n (-1) [] l) t.
Proof.
  intros (Hm & _ & _) Hn. remember ("*"%char :: _) as h eqn:Eh.
  apply header_encoded in Eh as (i & H1 & H2 & H3 & _ & H0 & Hne); [|mach; lia|done].
  unfold step, step_start, step_multibulk. simpl.
  replace (length h =? 0)%nat with false by lia. rewrite bool_decide_eq_true_2 by done.
  rewrite find_crlf_first, H1, H2, s64_small by (mach; lia).
  replace (_ <? n) with false by lia. replace (n <=? 0) with (n =? 0) by lia. by rewrite H3.
Qed.

Lemma step_encoded_len l r al argv (a : bytes) t :
  limits_ok l → Z.of_nat (length a) ≤ max_bulk_len l →
  step (mkParser ArgLen r al argv l) (encode_arg a ++ t)
  = Again (mkParser ArgData r (Z.of_nat (length a)) argv l) (a ++ CRLF ++ t).
Proof.
  intros (_ & Hb & _) Ha.
  remember (encode_arg a ++ t) as h eqn:Eh. unfold encode_arg in Eh.
  rewrite <-app_comm_cons, <-!(assoc_L (++)) in Eh.
  apply header_encoded in Eh as (i & H1 & H2 & H3 & Hi & H0 & Hne); [|mach; lia|done].
  unfold step, step_arg_len. simpl state_. simpl contents.
  rewrite find_crlf_first, H1, H2. simpl limits_. rewrite s64_small by (mach; lia).
  replace (i =? 0)%nat with false by lia.
  rewrite bool_decide_eq_true_2 by done. cbn [negb orb].
  replace ((_ <? _) || _) with false by lia. cbn [consume list_queue]. by rewrite H3.
Qed.

Lemma step_encoded_data l r argv (a : bytes) t :
  limits_ok l → Z.of_nat (length a) ≤ max_bulk_len l → 1 ≤ r ≤ INT64_MAX →
  step (mkParser ArgData r (Z.of_nat (length a)) argv l) (a ++ CRLF ++ t)
  = if r =? 1 then Return (new_parser l) t (Complete (argv ++ [a]))
    else Again (mkParser ArgLen (r - 1) (-1) (argv ++ [a]) l) t.
Proof.
  intros (_ & Hb & _) Ha Hr. unfold step, step_arg_data. simpl.
  rewrite need_exact by lia. rewrite length_app. simpl.
  replace (_ <? _) with false by lia.
  rewrite !Nat2Z.id, !lookup_app_r by lia. rewrite Nat.sub_diag.
  replace (length a + 1 - length a)%nat with 1%nat by lia. simpl.
  rewrite s64_small by (mach; lia). rewrite take_app_length.
  rewrite drop_app_ge by lia.
  replace (Z.to_nat (Z.of_nat (length a) + 2) - length a)%nat with 2%nat by lia. simpl.
  replace (r - 1 =? 0) with (r =? 1) by lia. by destruct (r =? 1).
Qed.

Lemma parse_encoded_args l argv args t :
  limits_ok l → args ≠ [] →
  Z.of_nat (length argv) + Z.of_nat (length args) ≤ max_multibulk_args l →
  Forall (λ a : bytes, Z.of_nat (length a) ≤ max_bulk_len l) (argv ++ args) →
  parse (mkParser ArgLen (Z.of_nat (length args)) (-1) argv l) (concat (encode_arg <$> args) ++ t)
  = (new_parser l, t, Complete (argv ++ args)).
Proof.
  intros Hl Hne Hn Hall. revert argv Hne Hn Hall.
  induction args as [|a args IH]; intros argv Hne Hn Hall; [done|].
  pose proof Hall as [Hall1 [Ha Hall2]%Forall_cons]%Forall_app.
  pose proof Hl as (Hm & Hb & Hi).
  rewrite fmap_cons, concat_cons, <-(assoc_L (++)).
  rewrite parse_step.
  2: { unfold parser_ok; simpl. split_and!; auto. intros _. simpl length in *. lia. }
  rewrite step_encoded_len by done. rewrite parse_step.
  2: { unfold parser_ok; simpl. split_and!; auto; [lia|]. intros _. simpl length in *. lia. }
  rewrite step_encoded_data by (done || simpl length in *; mach; lia).
  destruct args as [|a' args].
  - simpl. done.
  - rewrite (proj2 (Z.eqb_neq _ 1)) by (simpl length; lia).
    replace (Z.of_nat (length (a :: a' :: args)) - 1) with (Z.of_nat (length (a' :: args)))
      by (simpl length; lia).
    rewrite IH; [by rewrite <-(assoc_L (++))|done| |by rewrite <-(assoc_L (++))].
    rewrite length_app. simpl length in *. lia.
Qed.

Lemma parse_encode l argv t :
  limits_ok l → fits l argv → parse (new_parser l) (encode argv ++ t) = (new_parser l, t, Complete argv).
Proof.
  intros Hl [Hn Hall]. unfold encode.
  rewrite <-app_comm_cons, <-!(assoc_L (++)).
  rewrite parse_step by by apply new_parser_ok. rewrite step_encoded_count by (done || lia).
  destruct argv as [|a argv]; [done|]. by apply (parse_encoded_args l []).
Qed.

(** ** The caller's loop *)
Lemma parse_result_ok p s p' s' st : parser_ok p → parse p s = (p', s', st) → parser_ok p'.
Proof. intros Hp H. pose proof (parse_ok p s Hp) as Hok. rewrite H in Hok. apply Hok. Qed.

Lemma parse_complete_lt p s p' s' argv :
  parser_ok p → parse p s = (p', s', Complete argv) → (length s' < length s)%nat.
Proof. intros Hp H. pose proof (parse_ok p s Hp) as Hok. rewrite H in Hok. apply Hok. Qed.

Lemma drain_total fuel p s :
  parser_ok p → (length s < fuel)%nat → is_Some (drain fuel p s).
Proof.
  revert p s. induction fuel as [|fuel IH]; intros p s Hp Hf; [lia|]. simpl.
  destruct (parse p s) as [[p' s'] st] eqn:E. destruct st as [|argv|e]; [done| |done].
  pose proof (parse_complete_lt _ _ _ _ _ Hp E).
  destruct (IH p' s') as [[[[cmds p2] s2] e] ->]; [by eapply parse_result_ok|lia|done].
Qed.

Lemma drain_mono f1 f2 p s r :
  drain f1 p s = Some r → (f1 ≤ f2)%nat → drain f2 p s = Some r.
Proof.
  revert f2 p s r. induction f1 as [|f1 IH]; intros f2 p s r H Hle; [done|].
  destruct f2 as [|f2]; [lia|]. simpl in *.
  destruct (parse p s) as [[p' s'] st]. destruct st as [|argv|e]; [done| |done].
  apply bind_Some in H as ([[[cmds p2] s2] e] & H & Heq).
  by rewrite (IH f2 _ _ _ H) by lia.
Qed.

(** The loop, one command at a time. *)
Lemma drain_all_step p s :
  parser_ok p →
  drain_all p s =
    match parse p s with
    | (p', s', Incomplete) => ([], p', s', None)
    | (p', s', Error e) => ([], p', s', Some e)
    | (p', s', Complete argv) =>
        let '(cmds, p'', s'', e) := drain_all p' s' in (argv :: cmds, p'', s'', e)
    end.
Proof.
  intros Hp. unfold drain_all at 1. simpl.
  destruct (parse p s) as [[p' s'] st] eqn:E. destruct st as [|argv|e]; [done| |done].
  pose proof (parse_complete_lt _ _ _ _ _ Hp E).
  destruct (drain_total (S (length s')) p' s') as [r Hr]; [by eapply parse_result_ok|lia|].
  unfold drain_all. rewrite (drain_mono _ (length s) _ _ _ Hr), Hr by lia.
  by destruct r as [[[cmds p2] s2] e].
Qed.

(** Induction on the commands of a buffer. *)
Lemma drain_ind (P : Parser → bytes → Prop) :
  (∀ p s, parser_ok p →
     (∀ p' s' argv, parse p s = (p', s', Complete argv) → parser_ok p' → P p' s') → P p s) →
  ∀ p s, parser_ok p → P p s.
Proof.
  intros Hstep p s. remember (length s) as n eqn:En. revert p s En.
  induction n as [n IH] using lt_wf_ind. intros p s -> Hp. apply Hstep; [done|].
  intros p' s' argv H Hp'. eapply IH; [|done|done]. exact (parse_complete_lt _ _ _ _ _ Hp H).
Qed.

Lemma parse_incomplete_quiet p s p' s' :
  parser_ok p → parse p s = (p', s', Incomplete) → parse p' s' = (p', s', Incomplete).
Proof.
  intros Hp. revert p s Hp.
  apply (parse_ind (λ p s, parse p s = (p', s', Incomplete) → parse p' s' = (p', s', Incomplete))).
  intros p s Hp IH H. pose proof H as H'. rewrite parse_step in H by done.
  destruct (step p s) as [p1 s1 st|p1 s1] eqn:E.
  - injection H as -> -> ->. by apply step_incomplete in E as [-> ->].
  - pose proof (step_ok p s Hp) as Hok. rewrite E in Hok. eapply IH; [done|apply Hok|done].
Qed.

Definition quiet (p : Parser) (s : bytes) : Prop := parse p s = (p, s, Incomplete).

Lemma drain_all_spec p s cmds p' s' :
  parser_ok p → drain_all p s = (cmds, p', s', None) →
  parser_ok p' ∧ quiet p' s' ∧
  ∀ x, drain_all p (s ++ x) =
       let '(cmds', p'', s'', e) := drain_all p' (s' ++ x) in (cmds ++ cmds', p'', s'', e).
Proof.
  intros Hp. revert p s Hp cmds.
  apply (drain_ind (λ p s, ∀ cmds, drain_all p s = (cmds, p', s', None) → _)).
  intros p s Hp IH cmds H. rewrite drain_all_step in H by done.
  pose proof (λ x, parse_app p s x Hp) as Happ.
  destruct (parse p s) as [[p1 s1] st] eqn:E.
  pose proof (parse_result_ok _ _ _ _ _ Hp E) as Hp1. destruct st as [|argv|e]; [..|done].
  - simplify_eq. split_and!; [done|exact (parse_incomplete_quiet _ _ _ _ Hp E)|].
    intros x. rewrite (drain_all_step p (s ++ x)), (drain_all_step p' (s' ++ x)), Happ by done.
    destruct (parse p' (s' ++ x)) as [[p2 s2] [|argv|e]]; [done| |done].
    by destruct (drain_all p2 s2) as [[[??]?]?].
  - destruct (drain_all p1 s1) as [[[cmds1 p2] s2] e2] eqn:E1. simplify_eq.
    destruct (IH p1 s1 argv eq_refl Hp1 cmds1 E1) as (? & ? & Hx). split_and!; [done..|].
    intros x. rewrite (drain_all_step p (s ++ x)), Happ, Hx by done.
    by destruct (drain_all p' (s' ++ x)) as [[[??]?]?].
Qed.

Lemma drain_all_quiet p s : parser_ok p → quiet p s → drain_all p s = ([], p, s, None).
Proof. intros Hp Hq. rewrite drain_all_step by done. by rewrite Hq. Qed.

(** Splitting the stream changes nothing as long as no piece is refused. *)
Lemma feed_drain p s chunks cmds p' s' :
  parser_ok p → quiet p s → feed p s chunks = (cmds, p', s', None) →
  drain_all p (s ++ concat chunks) = (cmds, p', s', None).
Proof.
  revert p s cmds. induction chunks as [|c chunks IH]; intros p s cmds Hp Hq H; simpl in *.
  - rewrite app_nil_r, drain_all_quiet by done. done.
  - destruct (drain_all p (s ++ c)) as [[[cmds1 p1] s1] [e|]] eqn:E; [done|].
    destruct (feed p1 s1 chunks) as [[[cmds2 p2] s2] e2] eqn:E2. simplify_eq.
    apply drain_all_spec in E as (Hp1 & Hq1 & Hx); [|done].
    rewrite (assoc_L (++)), Hx. by rewrite (IH _ _ _ Hp1 Hq1 E2).
Qed.

(** ** An encoded stream survives any chunking

    A turn on a prefix of a stream that parses makes the same progress or asks
    for more bytes: the "too big header" refusals cannot fire early, because a
    header that is going to be accepted is short. *)
Lemma short_header s x i n :
  first_crlf (s ++ x) = Some i → string_to_int64 (take (i - 1) (drop 1 (s ++ x))) = Some n →
  first_crlf s = None → (length s ≤ 64)%nat.
Proof.
  intros Hi Hn Hs. pose proof (first_crlf_app_None _ _ _ Hs Hi).
  apply first_crlf_lt in Hi. apply string_to_int64_length in Hn.
  rewrite length_take, length_drop in Hn. lia.
Qed.

Definition multibulk_start (p : Parser) (s : bytes) : Prop :=
  state_ p = Start → s !! 0%nat = Some "*"%char.

Lemma step_multibulk_prefix p s x :
  decisive (step_multibulk p (s ++ x)) →
  step_multibulk p s = Return p s Incomplete ∨ decisive (step_multibulk p s).
Proof.
  unfold step_multibulk. simpl. rewrite !find_crlf_first.
  destruct (first_crlf (s ++ x)) as [i|] eqn:E; [|by destruct (_ <? _)%nat].
  destruct (string_to_int64 _) as [n|] eqn:En; [|done].
  destruct (first_crlf s) as [j|] eqn:Ej.
  - rewrite (first_crlf_app _ x _ Ej) in E. injection E as <-.
    destruct (header_app s x j Ej) as [Ht _]. rewrite Ht in En. rewrite En.
    destruct (_ <? n); [done|]. destruct (n <=? 0); by right.
  - intros _. left. pose proof (short_header _ _ _ _ E En Ej).
    by replace (64 <? length s)%nat with false by lia.
Qed.

Lemma step_arg_len_prefix p s x :
  decisive (step_arg_len p (s ++ x)) →
  step_arg_len p s = Return p s Incomplete ∨ decisive (step_arg_len p s).
Proof.
  unfold step_arg_len. simpl. rewrite !find_crlf_first.
  destruct (first_crlf (s ++ x)) as [i|] eqn:E; [|by destruct (_ <? _)%nat].
  destruct (_ || negb _) eqn:Eb; [done|].
  destruct (string_to_int64 _) as [n|] eqn:En; [|done].
  destruct (first_crlf s) as [j|] eqn:Ej.
  - rewrite (first_crlf_app _ x _ Ej) in E. injection E as <-.
    destruct (header_app s x j Ej) as [Ht _]. rewrite Ht in En. apply first_crlf_lt in Ej.
    rewrite lookup_app_l in Eb by lia. rewrite Eb, En.
    destruct ((n <? 0) || _); [done|]. by right.
  - intros _. left. pose proof (short_header _ _ _ _ E En Ej).
    by replace (64 <? length s)%nat with false by lia.
Qed.

Lemma step_arg_data_prefix p s x :
  parser_ok p → state_ p = ArgData → decisive (step_arg_data p (s ++ x)) →
  step_arg_data p s = Return p s Incomplete ∨ decisive (step_arg_data p s).
Proof.
  intros (Hlim & _ & Hlen & _) Hst. rewrite Hst in Hlen. destruct Hlim as (_ & Hb & _).
  unfold step_arg_data. simpl. rewrite need_exact by lia. rewrite length_app.
  destruct (Z.of_nat (length s) <? arg_len_ p + 2) eqn:E; [by left|].
  replace (Z.of_nat (length s + length x) <? arg_len_ p + 2) with false by lia.
  rewrite !lookup_app_l by lia.
  destruct (_ || _); [done|]. intros _. right. by destruct (_ =? 0).
Qed.

Lemma step_prefix p s x :
  parser_ok p → multibulk_start p (s ++ x) → decisive (step p (s ++ x)) →
  step p s = Return p s Incomplete ∨ decisive (step p s).
Proof.
  intros Hp Hm. unfold step, step_start. destruct (state_ p) eqn:E.
  - specialize (Hm E). simpl. destruct s as [|c s]; [by left|]. simpl in *.
    rewrite Hm. rewrite !bool_decide_eq_true_2 by done.
    apply (step_multibulk_prefix p (c :: s)).
  - apply step_arg_len_prefix.
  - by apply step_arg_data_prefix.
Qed.

Lemma again_state p s p' s' : step p s = Again p' s' → state_ p' ≠ Start.
Proof.
  unfold step, step_start, step_multibulk, step_inline, step_arg_len, step_arg_data, fail.
  repeat case_match; intros; simplify_eq; done.
Qed.

Lemma parse_prefix p s x r argv p' :
  parser_ok p → multibulk_start p (s ++ x) → parse p (s ++ x) = (p', r, Complete argv) →
  (∃ p1 s1, parse p s = (p1, s1, Incomplete) ∧ multibulk_start p1 (s1 ++ x)) ∨
  (∃ s1, parse p s = (p', s1, Complete argv) ∧ r = s1 ++ x).
Proof.
  intros Hp. revert p s Hp.
  apply (parse_ind (λ p s, multibulk_start p (s ++ x) → _ = _ → _)).
  intros p s Hp IH Hm H. rewrite parse_step in H by done. rewrite (parse_step p s) by done.
  assert (decisive (step p (s ++ x))) as Hd by (by destruct (step p (s ++ x)) as [??[]|]; simplify_eq).
  destruct (step_prefix p s x Hp Hm Hd) as [Hs|Hs].
  - left. rewrite Hs. eauto.
  - rewrite (step_app p s x Hp Hs) in H. pose proof (step_ok p s Hp) as Hok.
    destruct (step p s) as [p1 s1 st|p1 s1] eqn:E; simpl in H.
    + right. simplify_eq. eauto.
    + apply IH; [done|apply Hok| |done]. intros Hst. by apply again_state in E.
Qed.

(** [p] with the bytes [y] still to come is in the middle of sending [cmds]. *)
Definition expects (l : ProtocolLimits) (p : Parser) (y : bytes) (cmds : list (list bytes)) : Prop :=
  match cmds with
  | [] => p = new_parser l ∧ y = []
  | c :: cmds' =>
      multibulk_start p y ∧
      parse p y = (new_parser l, concat (encode <$> cmds'), Complete c)
  end.

Lemma expects_start l cmds :
  limits_ok l → Forall (fits l) cmds → expects l (new_parser l) (concat (encode <$> cmds)) cmds.
Proof.
  intros Hl Hall. destruct cmds as [|c cmds]; [done|]. apply Forall_cons in Hall as [Hc Hall].
  rewrite fmap_cons, concat_cons. split; [done|]. by apply parse_encode.
Qed.

Lemma drain_expects l p s x cmds :
  limits_ok l → Forall (fits l) cmds → parser_ok p → expects l p (s ++ x) cmds →
  ∃ c1 c2 p' s', cmds = c1 ++ c2 ∧ drain_all p s = (c1, p', s', None) ∧ expects l p' (s' ++ x) c2.
Proof.
  intros Hl Hall. revert p s. induction Hall as [|c cmds Hc Hall IH]; intros p s Hp Hex.
  - destruct Hex as [-> [-> ->]%app_eq_nil]. exists [], [], (new_parser l), [].
    split_and!; [done| |done]. by apply drain_all_quiet.
  - destruct Hex as [Hm Hparse].
    destruct (parse_prefix _ _ _ _ _ _ Hp Hm Hparse) as [(p1 & s1 & E & Hm1)|(s1 & E & Hr)].
    + exists [], (c :: cmds), p1, s1. split_and!; [done|by rewrite drain_all_step, E|].
      split; [done|]. rewrite <-Hparse. pose proof (parse_app p s x Hp) as Happ.
      by rewrite E in Happ.
    + destruct (IH (new_parser l) s1) as (c1 & c2 & p2 & s2 & -> & Hd & Hex).
      { by apply new_parser_ok. }
      { rewrite <-Hr. by apply expects_start. }
      exists (c :: c1), c2, p2, s2. split_and!; [done| |done].
      by rewrite drain_all_step, E, Hd.
Qed.

Lemma feed_expects l p s chunks cmds :
  limits_ok l → Forall (fits l) cmds → parser_ok p → quiet p s →
  expects l p (s ++ concat chunks) cmds →
  feed p s chunks = (cmds, new_parser l, [], None).
Proof.
  intros Hl. revert p s cmds. induction chunks as [|c chunks IH]; intros p s cmds Hall Hp Hq Hex.
  - simpl in Hex. rewrite app_nil_r in Hex. simpl. destruct cmds as [|c cmds].
    + by destruct Hex as [-> ->].
    + destruct Hex as [_ Hex]. by rewrite Hq in Hex.
  - simpl in Hex. rewrite (assoc_L (++)) in Hex.
    destruct (drain_expects l p (s ++ c) _ _ Hl Hall Hp Hex) as (c1 & c2 & p2 & s2 & -> & Hd & Hex2).
    simpl. rewrite Hd. apply drain_all_spec in Hd as (Hp2 & Hq2 & _); [|done].
    apply Forall_app in Hall as [_ Hall2].
    by rewrite (IH p2 s2 c2).
Qed.
