(* ===== verification/Writer.v ===== *)
(** * RESP2 reply encoders

    [namespace reply] of [src/resp/writer.h] and [src/resp/writer.cpp], over
    any [ByteQueue].  [Reply] is the abstract reply a client understands,
    [wire] its bytes, and [read_reply] a RESP2 client's reader; the encoders
    append exactly the wire form, and the reader recovers it. *)
From S2P Require Import Prelude Buffer Digits Parser.

(** ** The encoders *)
Module reply.
Section Encode.
Context {B : Type} `{!ByteQueue B}.

(** [buf] holds [format_int]'s digits followed by CRLF. *)
Definition append_int_crlf (n : Z) (out : B) : B := append (format_int n ++ CRLF) out.

(** The overload for [std::string]. *)
Definition simple (s : bytes) (out : B) : B :=
  let out := ensure_writable (length s + 3) out in
  let out := append ["+"%char] out in
  let out := append s out in
  append CRLF out.

(** The overload for [const char*], which ends at the first NUL. *)
Definition simple_cstr (s : bytes) (out : B) : B :=
  let n := default (length s) (memchr zero s) in
  let out := ensure_writable (n + 3) out in
  let out := append ["+"%char] out in
  let out := append (take n s) out in
  append CRLF out.

Definition error (msg : bytes) (out : B) : B :=
  let out := ensure_writable (length msg + 3) out in
  let out := append ["-"%char] out in
  let out := append msg out in
  append CRLF out.

Definition integer (n : Z) (out : B) : B :=
  let out := append [":"%char] out in
  append_int_crlf n out.

Definition bulk (data : bytes) (out : B) : B :=
  let out := ensure_writable (length data + 32) out in
  let out := append ["$"%char] out in
  let out := append_int_crlf (s64 (Z.of_nat (length data))) out in
  let out := append data out in
  append CRLF out.

Definition null_bulk (out : B) : B := append ($"$-1" ++ CRLF) out.

Definition array_header (n : Z) (out : B) : B :=
  let out := append ["*"%char] out in
  append_int_crlf n out.

Definition ok (out : B) : B := append ($"+OK" ++ CRLF) out.
End Encode.
End reply.

(** ** Replies as a client sees them *)
Inductive Reply :=
  | RSimple (s : bytes)
  | RError (msg : bytes)
  | RInteger (n : Z)
  | RBulk (data : bytes)
  | RNull
  | RArray (n : Z).

#[export] Instance Reply_eq_dec : EqDecision Reply.
Proof. solve_decision. Defined.

Definition wire (r : Reply) : bytes :=
  match r with
  | RSimple s => "+"%char :: s ++ CRLF
  | RError msg => "-"%char :: msg ++ CRLF
  | RInteger n => ":"%char :: std_to_string n ++ CRLF
  | RBulk d => "$"%char :: std_to_string (Z.of_nat (length d)) ++ CRLF ++ d ++ CRLF
  | RNull => $"$-1" ++ CRLF
  | RArray n => "*"%char :: std_to_string n ++ CRLF
  end.

(** What RESP2 can carry: a simple string or an error is one line, an integer
    is 64 bits wide. *)
Definition sendable (r : Reply) : Prop :=
  match r with
  | RSimple s | RError s => CR ∉ s
  | RInteger n | RArray n => in_s64 n
  | RBulk d => Z.of_nat (length d) ≤ INT64_MAX
  | RNull => True
  end.

(** A client reading one reply: a type byte, a line, and for a bulk string its
    payload. *)
Definition read_bulk (n : Z) (s : bytes) : option (Reply * bytes) :=
  if n =? -1 then Some (RNull, s)
  else if (n <? 0) || (Z.of_nat (length s) <? n + 2) then None
  else
    let k := Z.to_nat n in
    if bool_decide (take 2 (drop k s) = CRLF) then Some (RBulk (take k s), drop (k + 2) s)
    else None.

Definition read_reply (s : bytes) : option (Reply * bytes) :=
  match s, first_crlf s with
  | c :: s', Some (S i) =>
      let line := take i s' in
      let rest := drop (i + 2) s' in
      if c =b? "+" then Some (RSimple line, rest)
      else if c =b? "-" then Some (RError line, rest)
      else if c =b? ":" then (λ n, (RInteger n, rest)) <$> string_to_int64 line
      else if c =b? "*" then (λ n, (RArray n, rest)) <$> string_to_int64 line
      else if c =b? "$" then n ← string_to_int64 line; read_bulk n rest
      else None
  | _, _ => None
  end.

(** All the replies of a stream. *)
Fixpoint read_replies (n : nat) (s : bytes) : option (list Reply * bytes) :=
  match n with
  | O => Some ([], s)
  | S n' =>
      '(r, s') ← read_reply s;
      '(rs, s'') ← read_replies n' s';
      Some (r :: rs, s'')
  end.

(** ** The encoders append the wire form *)
Section Contents.
Context {B : Type} `{!ByteQueue B} `{!ByteQueueLaws B}.

(** [f] is an encoder of [r]. *)
Definition encodes (f : B → B) (r : Reply) : Prop :=
  ∀ out, bq_ok out → bq_ok (f out) ∧ contents (f out) = contents out ++ wire r.

Ltac encoder :=
  let Hout := fresh "Hout" in
  intros out Hout; split;
  [auto 10 using bq_append_ok, bq_ensure_ok
  |repeat first [rewrite contents_append by auto 10 using bq_append_ok, bq_ensure_ok
                |rewrite contents_ensure by auto 10 using bq_append_ok, bq_ensure_ok];
   simpl; rewrite <-?(assoc_L (++)); try done].

Lemma simple_encodes s : encodes (reply.simple s) (RSimple s).
Proof. unfold reply.simple. encoder. Qed.

Lemma simple_cstr_encodes s : zero ∉ s → encodes (reply.simple_cstr s) (RSimple s).
Proof.
  intros Hs. unfold reply.simple_cstr. rewrite (proj2 (memchr_None zero s) Hs).
  simpl. rewrite take_ge by done. encoder.
Qed.

Lemma error_encodes msg : encodes (reply.error msg) (RError msg).
Proof. unfold reply.error. encoder. Qed.

Lemma integer_encodes n : in_s64 n → encodes (reply.integer n) (RInteger n).
Proof.
  intros Hn. unfold reply.integer, reply.append_int_crlf.
  rewrite format_int_std_to_string by done. encoder.
Qed.

Lemma bulk_encodes d : Z.of_nat (length d) ≤ INT64_MAX → encodes (reply.bulk d) (RBulk d).
Proof.
  intros Hd. unfold reply.bulk, reply.append_int_crlf. rewrite s64_small by (mach; lia).
  rewrite format_int_std_to_string by (mach; lia). encoder.
Qed.

Lemma null_bulk_encodes : encodes reply.null_bulk RNull.
Proof. unfold reply.null_bulk. encoder. Qed.

Lemma array_header_encodes n : in_s64 n → encodes (reply.array_header n) (RArray n).
Proof.
  intros Hn. unfold reply.array_header, reply.append_int_crlf.
  rewrite format_int_std_to_string by done. encoder.
Qed.

Lemma ok_encodes : encodes reply.ok (RSimple $"OK").
Proof. unfold reply.ok. encoder. Qed.
End Contents.

(** ** The encoders by name

    A call of one of them, what it does, and the reply that a client is to
    understand. *)
Inductive Encoder :=
  | Simple (s : bytes)
  | SimpleCstr (s : bytes)
  | Ok
  | Err (msg : bytes)
  | Integer (n : Z)
  | Bulk (data : bytes)
  | NullBulk
  | ArrayHeader (n : Z).

Definition write {B} `{!ByteQueue B} (e : Encoder) : B → B :=
  match e with
  | Simple s => reply.simple s
  | SimpleCstr s => reply.simple_cstr s
  | Ok => reply.ok
  | Err msg => reply.error msg
  | Integer n => reply.integer n
  | Bulk data => reply.bulk data
  | NullBulk => reply.null_bulk
  | ArrayHeader n => reply.array_header n
  end.

Definition meant (e : Encoder) : Reply :=
  match e with
  | Simple s | SimpleCstr s => RSimple s
  | Ok => RSimple $"OK"
  | Err msg => RError msg
  | Integer n => RInteger n
  | Bulk data => RBulk data
  | NullBulk => RNull
  | ArrayHeader n => RArray n
  end.

(** What a caller owes: lines without a carriage return, a C string without
    NUL, numbers and lengths of 64 bits. *)
Definition writable (e : Encoder) : Prop :=
  match e with
  | Simple s | Err s => CR ∉ s
  | SimpleCstr s => CR ∉ s ∧ zero ∉ s
  | Integer n | ArrayHeader n => in_s64 n
  | Bulk data => Z.of_nat (length data) ≤ INT64_MAX
  | Ok | NullBulk => True
  end.

Lemma write_encodes {B} `{!ByteQueue B} `{!ByteQueueLaws B} e :
  writable e → encodes (write e : B → B) (meant e).
Proof.
  destruct e; simpl; intros H; [apply simple_encodes|apply simple_cstr_encodes, H|apply ok_encodes|
    apply error_encodes|by apply integer_encodes|by apply bulk_encodes|apply null_bulk_encodes|by apply array_header_encodes].
Qed.

Lemma writable_sendable e : writable e → sendable (meant e).
Proof. destruct e; simpl; try done; [by intros [? _]|intros _; no_cr]. Qed.

(** ** A client reads back what was sent *)
Lemma read_line c l t :
  c ≠ CR → CR ∉ l →
  first_crlf (c :: l ++ CRLF ++ t) = Some (S (length l)) ∧
  take (length l) (l ++ CRLF ++ t) = l ∧ drop (length l + 2) (l ++ CRLF ++ t) = t.
Proof.
  intros Hc Hl. split_and!.
  - rewrite app_comm_cons, first_crlf_mid by set_solver. done.
  - apply take_app_length.
  - rewrite drop_app_ge by lia. by replace (length l + 2 - length l)%nat with 2%nat by lia.
Qed.

Lemma std_to_string_read n :
  in_s64 n → CR ∉ std_to_string n ∧ string_to_int64 (std_to_string n) = Some n.
Proof.
  intros Hn. rewrite <-format_int_std_to_string by done. split.
  - eapply denotes_no_ctl; [by apply format_int_denotes|by left].
  - by apply string_to_int64_format_int.
Qed.

Lemma read_bulk_wire d t : read_bulk (Z.of_nat (length d)) (d ++ CRLF ++ t) = Some (RBulk d, t).
Proof.
  unfold read_bulk. replace (_ =? -1) with false by lia.
  rewrite !length_app. simpl length. replace (_ || _) with false by lia.
  rewrite Nat2Z.id, drop_app_length, take_app_length.
  rewrite bool_decide_eq_true_2 by done.
  rewrite drop_app_ge by lia. by replace (length d + 2 - length d)%nat with 2%nat by lia.
Qed.

Lemma read_reply_wire r t : sendable r → read_reply (wire r ++ t) = Some (r, t).
Proof.
  intros Hr. destruct r as [s|s|n|d| |n]; simpl in Hr; [..|done|].
  - destruct (read_line "+" s t) as (H1 & H2 & H3); [done|done|].
    unfold wire. rewrite <-app_comm_cons, <-(assoc_L (++)). unfold read_reply. by rewrite H1, H2, H3.
  - destruct (read_line "-" s t) as (H1 & H2 & H3); [done|done|].
    unfold wire. rewrite <-app_comm_cons, <-(assoc_L (++)). unfold read_reply. by rewrite H1, H2, H3.
  - destruct (std_to_string_read n Hr) as [Hn1 Hn2].
    destruct (read_line ":" (std_to_string n) t) as (H1 & H2 & H3); [done|done|].
    unfold wire. rewrite <-app_comm_cons, <-(assoc_L (++)). unfold read_reply.
    rewrite H1, H2, H3. simpl. by rewrite Hn2.
  - destruct (std_to_string_read (Z.of_nat (length d))) as [Hn1 Hn2]; [mach; lia|].
    destruct (read_line "$" (std_to_string (Z.of_nat (length d))) (d ++ CRLF ++ t))
      as (H1 & H2 & H3); [done|done|].
    unfold wire. rewrite <-app_comm_cons, <-!(assoc_L (++)). unfold read_reply. rewrite H1, H2, H3.
    simpl byte_eqb. cbv iota. rewrite Hn2. apply read_bulk_wire.
  - destruct (std_to_string_read n Hr) as [Hn1 Hn2].
    destruct (read_line "*" (std_to_string n) t) as (H1 & H2 & H3); [done|done|].
    unfold wire. rewrite <-app_comm_cons, <-(assoc_L (++)). unfold read_reply.
    rewrite H1, H2, H3. simpl. by rewrite Hn2.
Qed.

Lemma read_replies_wire rs t :
  Forall sendable rs → read_replies (length rs) (concat (wire <$> rs) ++ t) = Some (rs, t).
Proof.
  induction 1 as [|r rs Hr _ IH]; [done|].
  rewrite fmap_cons, concat_cons, <-(assoc_L (++)). simpl.
  rewrite read_reply_wire by done. simpl. by rewrite IH.
Qed.
