(* ===== verification/Keyspace.v ===== *)
(** * The keyspace

    [src/db/value.h], [src/db/clock.h], [src/db/db.h] and [src/db/db.cpp].
    [map_] is a finite map, [volatile_keys_] a finite set.  The clock is an
    oracle: the [n]-th call of [now_ms()] in the life of the process returns
    [time n], and [World] counts the calls, so an operation that reads the
    clock twice may see two different times, and the clock may jump.

    A [Value*] returned by [lookup] is represented by the key it was looked up
    with: reading through it is the value returned, writing through it is
    [assign], which stores at that key.  The functions of the source never
    erase the entry between the two.

    [view t] is the abstract keyspace at time [t], the entries that have not
    expired.  The lemmas relate every operation to the view. *)
From S2P Require Import Prelude.

(** ** Values (value.h) *)
Inductive ValueType := TString.

#[export] Instance ValueType_eq_dec : EqDecision ValueType.
Proof. solve_decision. Defined.

Definition type_name (t : ValueType) : bytes :=
  match t with TString => $"string" end.

Record Value := mkValue {
  type : ValueType;
  data : bytes;
  expire_at_ms : Z;
}.

#[export] Instance Value_eq_dec : EqDecision Value.
Proof. solve_decision. Defined.

Definition kNoExpiry : Z := 0.

Definition has_expiry (v : Value) : bool := negb (expire_at_ms v =? kNoExpiry).

Definition is_expired (v : Value) (now : Z) : bool := has_expiry v && (expire_at_ms v <=? now).

Module Db.

(** ** State (db.h) *)
Record Db := mkDb {
  map_ : gmap bytes Value;
  volatile_keys_ : gset bytes;
  rng_ : Z;
  doomed_ : list bytes;
  expired_count_ : Z;
}.

(** The keyspace and the number of clock readings so far. *)
Record World := mkWorld { the_db : Db; reads : nat }.

Definition set_db (d : Db) (w : World) : World := mkWorld d (reads w).

(** [std::minstd_rand]: its seeding and its step. *)
Definition minstd_seed (s : Z) : Z := if s `mod` 2147483647 =? 0 then 1 else s `mod` 2147483647.

Definition minstd_next (x : Z) : Z := (48271 * x) `mod` 2147483647.

(** [Db::Db()], with the value of [std::random_device]. *)
Definition new_db (random_device : Z) : Db := mkDb ∅ ∅ (minstd_seed random_device) [] 0.

(** [map_[key] = v]: insertion, or assignment through a [Value*]. *)
Definition assign (key : bytes) (v : Value) (d : Db) : Db :=
  mkDb (<[key := v]> (map_ d)) (volatile_keys_ d) (rng_ d) (doomed_ d) (expired_count_ d).

Definition set_volatile (s : gset bytes) (d : Db) : Db :=
  mkDb (map_ d) s (rng_ d) (doomed_ d) (expired_count_ d).

Definition map_erase (key : bytes) (d : Db) : Db :=
  mkDb (delete key (map_ d)) (volatile_keys_ d) (rng_ d) (doomed_ d) (expired_count_ d).

Definition volatile_insert (key : bytes) (d : Db) : Db :=
  set_volatile (volatile_keys_ d ∪ {[key]}) d.

Definition volatile_erase (key : bytes) (d : Db) : Db :=
  set_volatile (volatile_keys_ d ∖ {[key]}) d.

(** [++expired_count_], a [uint64_t]. *)
Definition count_expired (d : Db) : Db :=
  mkDb (map_ d) (volatile_keys_ d) (rng_ d) (doomed_ d) (u64 (expired_count_ d + 1)).

(** ** Operations (db.cpp) *)
Definition reclaim (key : bytes) (d : Db) : Db :=
  count_expired (volatile_erase key (map_erase key d)).

(** [data], [expire_at_ms] and the [ValueType::String] tag replace whatever
    was there. *)
Definition set_string (key : bytes) (s : bytes) (expire_at : Z) (d : Db) : Db :=
  let d := assign key (mkValue TString s expire_at) d in
  if expire_at =? kNoExpiry then volatile_erase key d else volatile_insert key d.

Definition size (d : Db) : nat := base.size (map_ d).

Definition volatile_size (d : Db) : nat := base.size (volatile_keys_ d).

Definition expired_count (d : Db) : Z := expired_count_ d.

Definition clear (d : Db) : Db := mkDb ∅ ∅ (rng_ d) (doomed_ d) (expired_count_ d).

Definition kNoKey : Z := -2.

Definition kNoTtl : Z := -1.

Section Ops.
Context (time : nat → Z).

Definition now_ms : ST World Z := λ w, (time (reads w), mkWorld (the_db w) (S (reads w))).

Definition update (f : Db → Db) : ST World unit := modify (λ w, set_db (f (the_db w)) w).

Definition lookup (key : bytes) : ST World (option Value) :=
  w ← get;
  match map_ (the_db w) !! key with
  | None => mret None
  | Some v =>
      now ← now_ms;
      if is_expired v now then _ ← update (reclaim key); mret None
      else mret (Some v)
  end.

Definition erase (key : bytes) : ST World bool :=
  v ← lookup key;
  match v with
  | None => mret false
  | Some _ => _ ← update (map_erase key); _ ← update (volatile_erase key); mret true
  end.

Definition set_expire_at (key : bytes) (expire_at : Z) : ST World bool :=
  v ← lookup key;
  match v with
  | None => mret false
  | Some v =>
      _ ← update (assign key (mkValue (type v) (data v) expire_at));
      _ ← update (volatile_insert key);
      mret true
  end.

Definition persist (key : bytes) : ST World bool :=
  v ← lookup key;
  match v with
  | None => mret false
  | Some v =>
      if negb (has_expiry v) then mret false
      else
        _ ← update (assign key (mkValue (type v) (data v) kNoExpiry));
        _ ← update (volatile_erase key);
        mret true
  end.

Definition pttl (key : bytes) : ST World Z :=
  v ← lookup key;
  match v with
  | None => mret kNoKey
  | Some v =>
      if negb (has_expiry v) then mret kNoTtl
      else
        now ← now_ms;
        let remaining := s64 (expire_at_ms v - now) in
        mret (if 0 <? remaining then remaining else 0)
  end.
End Ops.

(** ** Specification

    The live entries at time [t]. *)
Definition view (t : Z) (d : Db) : gmap bytes Value :=
  filter (λ kv : bytes * Value, is_expired kv.2 t = false) (map_ d).

(** The index of volatile keys is exactly the set of keys with a deadline. *)
Definition index_ok (d : Db) : Prop :=
  ∀ k, k ∈ volatile_keys_ d ↔ ∃ v, map_ d !! k = Some v ∧ has_expiry v = true.

(** Keys that are indexed exist, and keys with a deadline are indexed: what
    survives even when a deadline is set to the [kNoExpiry] value. *)
Definition index_weak (d : Db) : Prop :=
  (∀ k, k ∈ volatile_keys_ d → is_Some (map_ d !! k)) ∧
  (∀ k v, map_ d !! k = Some v → has_expiry v = true → k ∈ volatile_keys_ d).

Implicit Types (d : Db) (w : World) (k key : bytes).

(** ** The view *)
Lemma view_lookup t d k :
  view t d !! k = v ← map_ d !! k; if is_expired v t then None else Some v.
Proof.
  unfold view. rewrite map_lookup_filter. destruct (map_ d !! k) as [v|]; [|done]. simpl.
  case_guard as H; simpl in *; [by rewrite H|]. by destruct (is_expired v t).
Qed.

Lemma is_expired_mono v t t' : t ≤ t' → is_expired v t = true → is_expired v t' = true.
Proof. unfold is_expired. destruct (has_expiry v); simpl; [lia|done]. Qed.

Lemma view_delete t d k : view t (map_erase k d) = delete k (view t d).
Proof.
  apply map_eq. intros k'. rewrite view_lookup, lookup_delete, view_lookup. simpl.
  rewrite lookup_delete. by case_decide.
Qed.

Lemma view_assign t d k v :
  is_expired v t = false → view t (assign k v d) = <[k := v]> (view t d).
Proof.
  intros Hv. apply map_eq. intros k'. rewrite view_lookup, lookup_insert, view_lookup. simpl.
  rewrite lookup_insert. case_decide; simpl; [by rewrite Hv|done].
Qed.

Lemma view_volatile t d s : view t (set_volatile s d) = view t d.
Proof. done. Qed.

Lemma view_reclaim t d k v :
  map_ d !! k = Some v → is_expired v t = true → view t (reclaim k d) = view t d.
Proof.
  intros Hk Hv. change (view t (map_erase k d) = view t d). rewrite view_delete.
  apply delete_id. rewrite view_lookup, Hk. simpl. by rewrite Hv.
Qed.

Lemma view_size t d : (base.size (view t d) ≤ size d)%nat.
Proof. apply map_subseteq_size, map_filter_subseteq. Qed.

(** ** One operation at a time

    [reads_le t t' n n'] : the clock readings numbered from [n] to [n' - 1]
    all returned at most [t]. *)
Definition reads_le (time : nat → Z) (t : Z) (n n' : nat) : Prop :=
  ∀ i, (n ≤ i < n')%nat → time i ≤ t.

Lemma index_ok_weak d : index_ok d → index_weak d.
Proof. intros H. split; [intros k Hk%H; naive_solver|]. intros k v Hk Hv. apply H. eauto. Qed.

Lemma index_ok_reclaim k d : index_ok d → index_ok (reclaim k d).
Proof.
  intros H k'. simpl. rewrite elem_of_difference, elem_of_singleton, (H k'), lookup_delete.
  case_decide; split.
  - by intros [_ []].
  - by intros (? & ? & _).
  - by intros [? _].
  - intros; split; [done|congruence].
Qed.

Lemma index_ok_erase k d : index_ok d → index_ok (volatile_erase k (map_erase k d)).
Proof. apply (index_ok_reclaim k d). Qed.

Lemma index_ok_set k v d :
  index_ok d →
  index_ok (if has_expiry v then volatile_insert k (assign k v d) else volatile_erase k (assign k v d)).
Proof.
  intros H k'. destruct (has_expiry v) eqn:E; simpl;
    rewrite lookup_insert;
    [rewrite elem_of_union|rewrite elem_of_difference]; rewrite elem_of_singleton, (H k');
    case_decide; subst; split.
  - eauto.
  - intros _; by right.
  - by intros [? | ->].
  - by left.
  - by intros [_ []].
  - intros (? & [= <-] & ?). congruence.
  - by intros [? _].
  - intros; split; [done|congruence].
Qed.

Lemma index_weak_remove k d : index_weak d → index_weak (volatile_erase k (map_erase k d)).
Proof.
  intros [H1 H2]. split; simpl.
  - intros k'. rewrite elem_of_difference, elem_of_singleton. intros [Hk Hne].
    rewrite lookup_delete_ne by done. auto.
  - intros k' v. rewrite lookup_delete. case_decide; [done|]. set_solver.
Qed.

Lemma index_weak_set k v d :
  index_weak d →
  index_weak (volatile_insert k (assign k v d)) ∧
  (has_expiry v = false → index_weak (volatile_erase k (assign k v d))).
Proof.
  intros [H1 H2]. split; [|intros Hv]; (split; simpl; [intros k' Hk'|intros k' v' Hk' Hv']).
  - rewrite lookup_insert. case_decide; [done|]. set_solver.
  - rewrite lookup_insert in Hk'. case_decide; set_solver.
  - rewrite lookup_insert. case_decide; [done|]. set_solver.
  - rewrite lookup_insert in Hk'. case_decide; [simplify_eq; congruence|]. set_solver.
Qed.

Section Lemmas.
Context (time : nat → Z).

(** [lookup]: what it returns, what it leaves in the tables, and how many times
    it read the clock. *)
Lemma lookup_cases key w :
  let now := time (reads w) in
  match map_ (the_db w) !! key with
  | None => lookup time key w = (None, w)
  | Some v =>
      lookup time key w =
        if is_expired v now then (None, mkWorld (reclaim key (the_db w)) (S (reads w)))
        else (Some v, mkWorld (the_db w) (S (reads w)))
  end.
Proof.
  unfold lookup. rewrite bind_run. simpl.
  destruct (map_ (the_db w) !! key) as [v|]; [|done].
  rewrite bind_run. simpl. by destruct (is_expired v (time (reads w))).
Qed.

(** [lookup] answers from the view at the time it reads, and hides nothing that
    is alive then or later. *)
Lemma lookup_spec key w :
  let now := time (reads w) in
  let r := lookup time key w in
  r.1 = view now (the_db w) !! key ∧
  (∀ t, now ≤ t → view t (the_db r.2) = view t (the_db w)) ∧
  (index_ok (the_db w) → index_ok (the_db r.2)) ∧
  (index_weak (the_db w) → index_weak (the_db r.2)) ∧
  (reads w ≤ reads r.2 ≤ S (reads w))%nat ∧
  match r.1 with
  | Some v => the_db r.2 = the_db w ∧ map_ (the_db w) !! key = Some v
  | None => map_ (the_db r.2) !! key = None
  end.
Proof.
  intros now r. unfold r. pose proof (lookup_cases key w) as H. fold now in H. simpl in H.
  rewrite view_lookup. destruct (map_ (the_db w) !! key) as [v|] eqn:Ek; rewrite H; simpl.
  2: by split_and!; auto.
  destruct (is_expired v now) eqn:Ev; simpl; split_and!; auto using index_ok_reclaim.
  - intros t Ht. apply (view_reclaim t _ _ v); [done|]. by eapply is_expired_mono.
  - intros Hw. apply (index_weak_remove key _ Hw).
  - apply lookup_delete_eq.
Qed.

(** Storing [v] at [key], as an observer at time [t] sees it. *)
Definition put (t : Z) key (v : Value) (kv : gmap bytes Value) : gmap bytes Value :=
  if is_expired v t then delete key kv else <[key := v]> kv.

Lemma view_put t d k v : view t (assign k v d) = put t k v (view t d).
Proof.
  unfold put. destruct (is_expired v t) eqn:E; [|by apply view_assign].
  apply map_eq. intros k'. rewrite view_lookup, lookup_delete, view_lookup. simpl.
  rewrite lookup_insert. case_decide; simpl; [by rewrite E|done].
Qed.

Lemma view_set_string t key s e d : view t (set_string key s e d) = put t key (mkValue TString s e) (view t d).
Proof. unfold set_string. rewrite <-view_put. by destruct (e =? kNoExpiry). Qed.

Lemma index_ok_set_string key s e d : index_ok d → index_ok (set_string key s e d).
Proof.
  intros H. pose proof (index_ok_set key (mkValue TString s e) d H) as Hs.
  unfold set_string. unfold has_expiry in Hs; simpl in Hs. by destruct (e =? kNoExpiry).
Qed.

Lemma index_weak_set_string key s e d : index_weak d → index_weak (set_string key s e d).
Proof.
  intros H. destruct (index_weak_set key (mkValue TString s e) d H) as [H1 H2].
  unfold set_string. destruct (e =? kNoExpiry) eqn:E; [|done]. apply H2.
  unfold has_expiry; simpl. by rewrite E.
Qed.

Lemma set_string_lookup key s e d : map_ (set_string key s e d) !! key = Some (mkValue TString s e).
Proof. unfold set_string. destruct (e =? kNoExpiry); simpl; apply lookup_insert_eq. Qed.

Lemma erase_spec key w :
  let now := time (reads w) in
  let r := erase time key w in
  r.1 = bool_decide (is_Some (view now (the_db w) !! key)) ∧
  (∀ t, now ≤ t → view t (the_db r.2) = delete key (view t (the_db w))) ∧
  (index_ok (the_db w) → index_ok (the_db r.2)) ∧
  (index_weak (the_db w) → index_weak (the_db r.2)) ∧
  (reads w ≤ reads r.2 ≤ S (reads w))%nat.
Proof.
  intros now r. unfold r, erase. rewrite bind_run.
  destruct (lookup_spec key w) as (Hr & Hv & Hi & Hwk & Hn & Hc). fold now in Hr, Hv.
  destruct (lookup time key w) as [[v|] w1]; simpl in *; rewrite <-Hr.
  - split_and!; auto; try lia.
    + intros t Ht. rewrite <-Hv by done. apply (view_delete t (the_db w1) key).
    + intros H. by apply (index_ok_erase key), Hi.
    + intros H. by apply (index_weak_remove key), Hwk.
  - split_and!; auto; try lia. intros t Ht. rewrite Hv by done. symmetry. apply delete_id.
    rewrite <-Hv by done. by rewrite view_lookup, Hc.
Qed.

Definition with_deadline (e : Z) (v : Value) : Value := mkValue (type v) (data v) e.

Lemma set_expire_at_spec key e w :
  let now := time (reads w) in
  let r := set_expire_at time key e w in
  r.1 = bool_decide (is_Some (view now (the_db w) !! key)) ∧
  (∀ t, now ≤ t →
     view t (the_db r.2) = match view now (the_db w) !! key with
                           | Some v => put t key (with_deadline e v) (view t (the_db w))
                           | None => view t (the_db w)
                           end) ∧
  (e ≠ kNoExpiry → index_ok (the_db w) → index_ok (the_db r.2)) ∧
  (index_weak (the_db w) → index_weak (the_db r.2)) ∧
  (reads w ≤ reads r.2 ≤ S (reads w))%nat.
Proof.
  intros now r. unfold r, set_expire_at. rewrite bind_run.
  destruct (lookup_spec key w) as (Hr & Hv & Hi & Hwk & Hn & Hc). fold now in Hr, Hv.
  destruct (lookup time key w) as [[v|] w1]; simpl in *; rewrite <-Hr.
  - split_and!; auto; try lia.
    + intros t Ht. rewrite <-Hv by done. apply (view_put t (the_db w1) key).
    + intros He H%Hi. pose proof (index_ok_set key (with_deadline e v) _ H) as Hs.
      unfold has_expiry in Hs; simpl in Hs. by rewrite (proj2 (Z.eqb_neq e kNoExpiry) He) in Hs.
    + intros H%Hwk. by apply (index_weak_set key (with_deadline e v)).
  - split_and!; auto; lia.
Qed.

Lemma persist_spec key w :
  let now := time (reads w) in
  let r := persist time key w in
  r.1 = from_option has_expiry false (view now (the_db w) !! key) ∧
  (∀ t, now ≤ t →
     view t (the_db r.2) = match view now (the_db w) !! key with
                           | Some v => if has_expiry v
                                       then <[key := with_deadline kNoExpiry v]> (view t (the_db w))
                                       else view t (the_db w)
                           | None => view t (the_db w)
                           end) ∧
  (index_ok (the_db w) → index_ok (the_db r.2)) ∧
  (index_weak (the_db w) → index_weak (the_db r.2)) ∧
  (reads w ≤ reads r.2 ≤ S (reads w))%nat.
Proof.
  intros now r. unfold r, persist. rewrite bind_run.
  destruct (lookup_spec key w) as (Hr & Hv & Hi & Hwk & Hn & Hc). fold now in Hr, Hv.
  destruct (lookup time key w) as [[v|] w1]; simpl in *; rewrite <-Hr; simpl.
  - destruct (has_expiry v) eqn:Ev; simpl; split_and!; auto; try lia.
    + intros t Ht. rewrite <-Hv by done.
      apply (view_put t (the_db w1) key (with_deadline kNoExpiry v)).
    + intros H%Hi. apply (index_ok_set key (with_deadline kNoExpiry v) _ H).
    + intros H%Hwk. by apply (index_weak_set key (with_deadline kNoExpiry v) _ H).
  - split_and!; auto; lia.
Qed.

Lemma pttl_spec key w :
  let now := time (reads w) in
  let r := pttl time key w in
  match view now (the_db w) !! key with
  | None => r.1 = kNoKey
  | Some v => if has_expiry v
              then r.1 = Z.max 0 (s64 (expire_at_ms v - time (S (reads w))))
              else r.1 = kNoTtl
  end ∧
  (∀ t, now ≤ t → view t (the_db r.2) = view t (the_db w)) ∧
  (index_ok (the_db w) → index_ok (the_db r.2)) ∧
  (index_weak (the_db w) → index_weak (the_db r.2)) ∧
  (reads w ≤ reads r.2 ≤ S (S (reads w)))%nat.
Proof.
  intros now r. unfold r, pttl. rewrite bind_run.
  destruct (lookup_spec key w) as (Hr & Hv & Hi & Hwk & Hn & Hc). fold now in Hr, Hv.
  pose proof (lookup_cases key w) as Hl.
  destruct (lookup time key w) as [[v|] w1]; simpl in *; rewrite <-Hr; simpl.
  - destruct Hc as [Hdb Hk]. rewrite Hk in Hl.
    destruct (is_expired v (time (reads w))); simplify_eq/=.
    destruct (has_expiry v) eqn:Ev; simpl; split_and!; auto; try lia.
    destruct (Z.ltb_spec 0 (s64 (expire_at_ms v - time (S (reads w))))); lia.
  - split_and!; auto; lia.
Qed.
End Lemmas.
End Db.
