(* ===== verification/Expire.v ===== *)
(** * The active expiry cycle

    [Db::active_expire_cycle] of [src/db/db.cpp].  A round samples the index of
    volatile keys by walking the buckets of an [std::unordered_set] from a
    random one.  How the standard library distributes the keys over buckets is
    unspecified: [layout n s] is the bucket array of the set [s] during the
    round that makes the [n]-th clock reading, and the only assumption on it
    is that the buckets together hold the elements of [s] once each.  The
    random generator is [std::minstd_rand], computed exactly. *)
From S2P Require Import Prelude Keyspace.
Import Db.

Definition kMaxRounds : nat := 16.

Definition kContinueIfExpiredNumerator : nat := 1.

Definition kContinueIfExpiredDenominator : nat := 4.

(** [vit == map_.end() || vit->second.is_expired(now)]. *)
Definition dead (now : Z) (m : gmap bytes Value) (key : bytes) : bool :=
  match m !! key with
  | None => true
  | Some v => is_expired v now
  end.

(** The inner [for] over one bucket: keys sampled so far and keys doomed so
    far. *)
Fixpoint scan_bucket (sample_size : nat) (now : Z) (m : gmap bytes Value)
    (keys : list bytes) (acc : nat * list bytes) : nat * list bytes :=
  match keys with
  | [] => acc
  | key :: keys' =>
      let '(sampled, doomed) := acc in
      if (sampled <? sample_size)%nat then
        scan_bucket sample_size now m keys'
          (S sampled, if dead now m key then doomed ++ [key] else doomed)
      else acc
  end.

(** The walk over the buckets; [fuel] is [bucket_count - scanned]. *)
Fixpoint walk (fuel : nat) (sample_size : nat) (now : Z) (m : gmap bytes Value)
    (buckets : list (list bytes)) (bucket : nat) (acc : nat * list bytes) : nat * list bytes :=
  match fuel with
  | O => acc
  | S fuel' =>
      if (acc.1 <? sample_size)%nat then
        walk fuel' sample_size now m buckets ((bucket + 1) mod length buckets)
          (scan_bucket sample_size now m (nth bucket buckets []) acc)
      else acc
  end.

Definition set_rng (x : Z) (d : Db) : Db :=
  mkDb (map_ d) (volatile_keys_ d) x (doomed_ d) (expired_count_ d).

Definition set_doomed (l : list bytes) (d : Db) : Db :=
  mkDb (map_ d) (volatile_keys_ d) (rng_ d) l (expired_count_ d).

(** [for (key : doomed_) reclaim(key)]. *)
Definition reclaim_all (keys : list bytes) (d : Db) : Db := foldl (λ d key, reclaim key d) d keys.

Section Cycle.
Context (time : nat → Z) (layout : nat → gset bytes → list (list bytes)).

(** One sample: the number of keys looked at, and the doomed ones. *)
Definition sample (sample_size : nat) : ST World (nat * list bytes) :=
  w ← get;
  now ← now_ms time;
  let d := the_db w in
  let buckets := layout (reads w) (volatile_keys_ d) in
  let r := minstd_next (rng_ d) in
  let bucket := Z.to_nat (r `mod` Z.of_nat (length buckets)) in
  let acc := walk (length buckets) sample_size now (map_ d) buckets bucket (0%nat, []) in
  _ ← update (λ d, set_doomed acc.2 (set_rng r d));
  mret acc.

Fixpoint rounds (fuel : nat) (sample_size : nat) (reclaimed : nat) : ST World nat :=
  match fuel with
  | O => mret reclaimed
  | S fuel' =>
      w ← get;
      if bool_decide (volatile_keys_ (the_db w) = ∅) then mret reclaimed
      else
        '(sampled, doomed) ← sample sample_size;
        _ ← update (reclaim_all doomed);
        let reclaimed := (reclaimed + length doomed)%nat in
        if (sampled =? 0)%nat then mret reclaimed
        else if (length doomed * kContinueIfExpiredDenominator
                 <=? sampled * kContinueIfExpiredNumerator)%nat then mret reclaimed
        else rounds fuel' sample_size reclaimed
  end.

Definition active_expire_cycle (sample_size : nat) : ST World nat :=
  if (sample_size =? 0)%nat then mret 0%nat else rounds kMaxRounds sample_size 0.
End Cycle.

(** ** The walk samples a prefix of the keys, in bucket order *)
Lemma scan_bucket_spec size now m keys sampled doomed :
  scan_bucket size now m keys (sampled, doomed) =
    ((sampled + length (take (size - sampled) keys))%nat,
     doomed ++ filter (λ k, dead now m k = true) (take (size - sampled) keys)).
Proof.
  revert sampled doomed. induction keys as [|k keys IH]; intros sampled doomed; simpl.
  { by rewrite take_nil, app_nil_r, Nat.add_0_r. }
  destruct (sampled <? size)%nat eqn:E; last first.
  { replace (size - sampled)%nat with 0%nat by lia. by rewrite app_nil_r, Nat.add_0_r. }
  rewrite IH. replace (size - sampled)%nat with (S (size - S sampled)) by lia. simpl.
  f_equal; [lia|]. rewrite filter_cons.
  destruct (dead now m k); case_decide; try done. by rewrite <-(assoc_L (++)).
Qed.

(** The keys the walk would see with an unbounded sample. *)
Fixpoint visit (fuel : nat) (buckets : list (list bytes)) (bucket : nat) : list bytes :=
  match fuel with
  | O => []
  | S fuel' => nth bucket buckets [] ++ visit fuel' buckets ((bucket + 1) mod length buckets)
  end.

Lemma walk_spec fuel size now m buckets bucket sampled doomed :
  walk fuel size now m buckets bucket (sampled, doomed) =
  scan_bucket size now m (visit fuel buckets bucket) (sampled, doomed).
Proof.
  revert bucket sampled doomed. induction fuel as [|fuel IH]; intros bucket sampled doomed; [done|].
  simpl. rewrite (scan_bucket_spec _ _ _ (_ ++ _)).
  destruct (sampled <? size)%nat eqn:E; last first.
  { replace (size - sampled)%nat with 0%nat by lia. by rewrite app_nil_r, Nat.add_0_r. }
  rewrite (scan_bucket_spec _ _ _ (nth _ _ _)), IH, scan_bucket_spec.
  set (a := nth bucket buckets []). rewrite take_app, length_app, filter_app, length_take.
  rewrite <-(assoc_L (++)).
  replace (size - (sampled + min (size - sampled) (length a)))%nat
    with (size - sampled - length a)%nat by lia.
  f_equal. lia.
Qed.

Lemma visit_app f g buckets b :
  (b < length buckets)%nat →
  visit (f + g) buckets b = visit f buckets b ++ visit g buckets ((b + f) mod length buckets).
Proof.
  revert b. induction f as [|f IH]; intros b Hb; simpl.
  { by rewrite Nat.add_0_r, Nat.mod_small. }
  rewrite IH by (apply Nat.mod_upper_bound; lia). rewrite <-(assoc_L (++)). do 3 f_equal.
  rewrite Nat.Div0.add_mod_idemp_l. f_equal. lia.
Qed.

Lemma visit_straight f buckets b :
  (b + f ≤ length buckets)%nat → visit f buckets b = concat (take f (drop b buckets)).
Proof.
  revert b. induction f as [|f IH]; intros b Hb; [done|]. simpl.
  destruct (lookup_lt_is_Some_2 buckets b) as [x Hx]; [lia|].
  rewrite (drop_S _ _ _ Hx), (nth_lookup_Some _ _ _ _ Hx). simpl. f_equal.
  destruct (decide (b + 1 = length buckets)%nat) as [He|Hne].
  - replace f with 0%nat by lia. done.
  - rewrite Nat.mod_small, IH by lia. by replace (b + 1)%nat with (S b) by lia.
Qed.

(** One full turn visits every bucket exactly once. *)
Lemma visit_all buckets b :
  (b < length buckets)%nat →
  visit (length buckets) buckets b = concat (drop b buckets ++ take b buckets).
Proof.
  intros Hb. replace (length buckets) with ((length buckets - b) + b)%nat at 1 by lia.
  rewrite visit_app by done. replace (b + (length buckets - b))%nat with (length buckets) by lia.
  rewrite Nat.Div0.mod_same, !visit_straight by lia. rewrite drop_0, concat_app.
  rewrite (take_ge (drop b buckets)) by (rewrite length_drop; lia). done.
Qed.

Lemma visit_perm buckets b :
  (b < length buckets)%nat → visit (length buckets) buckets b ≡ₚ concat buckets.
Proof.
  intros Hb. rewrite visit_all by done. rewrite <-(take_drop b buckets) at 3.
  rewrite !concat_app. apply Permutation_app_comm.
Qed.

(** ** Reclaiming the doomed keys *)
Lemma reclaim_all_map keys d k :
  map_ (reclaim_all keys d) !! k = if decide (k ∈ keys) then None else map_ d !! k.
Proof.
  revert d. induction keys as [|key keys IH]; intros d; [done|]. simpl. rewrite IH. simpl.
  destruct (decide (k ∈ keys)) as [Hk|Hk].
  - rewrite decide_True by set_solver. done.
  - destruct (decide (k = key)) as [->|Hne].
    + rewrite decide_True by set_solver. apply lookup_delete_eq.
    + rewrite decide_False by set_solver. by rewrite lookup_delete_ne.
Qed.

Lemma reclaim_all_volatile keys d :
  volatile_keys_ (reclaim_all keys d) = volatile_keys_ d ∖ list_to_set keys.
Proof.
  revert d. induction keys as [|key keys IH]; intros d; simpl; [set_solver|].
  rewrite IH. simpl. set_solver.
Qed.

Lemma reclaim_all_index_ok keys d : index_ok d → index_ok (reclaim_all keys d).
Proof. revert d. induction keys as [|k keys IH]; intros d H; [done|]. by apply IH, index_ok_reclaim. Qed.

Lemma reclaim_all_index_weak keys d : index_weak d → index_weak (reclaim_all keys d).
Proof.
  revert d. induction keys as [|k keys IH]; intros d H; [done|].
  by apply IH, (index_weak_remove k d).
Qed.

Lemma reclaim_all_view t keys d :
  (∀ k v, k ∈ keys → map_ d !! k = Some v → is_expired v t = true) →
  view t (reclaim_all keys d) = view t d.
Proof.
  intros Hk. apply map_eq. intros k. rewrite !view_lookup, reclaim_all_map.
  case_decide as Hin; [|done]. destruct (map_ d !! k) as [v|] eqn:E; [|done]. simpl.
  by rewrite (Hk k v).
Qed.

Lemma reclaim_all_size keys d :
  NoDup keys → (∀ k, k ∈ keys → is_Some (map_ d !! k)) →
  (size (reclaim_all keys d) + length keys = size d)%nat.
Proof.
  intros Hnd. revert d. induction Hnd as [|k keys Hk Hnd IH]; intros d Hd; simpl; [lia|].
  destruct (Hd k) as [v Hv]; [set_solver|].
  assert (size d = S (size (reclaim k d))) as ->.
  { unfold size. simpl. rewrite map_size_delete_Some by done.
    assert (base.size (map_ d) ≠ 0%nat); [|lia].
    intros H0%map_size_empty_inv. rewrite H0 in Hv. done. }
  rewrite <-(IH (reclaim k d)); [lia|]. intros k' Hk'. simpl.
  rewrite lookup_delete_ne by (intros ->; done). apply Hd. set_solver.
Qed.

Lemma reclaim_all_volatile_size keys d :
  NoDup keys → (∀ k, k ∈ keys → k ∈ volatile_keys_ d) →
  (volatile_size (reclaim_all keys d) + length keys = volatile_size d)%nat.
Proof.
  intros Hnd Hk. unfold volatile_size. rewrite reclaim_all_volatile.
  rewrite size_difference by (intros k; rewrite elem_of_list_to_set; apply Hk).
  rewrite size_list_to_set by done.
  assert (length keys ≤ base.size (volatile_keys_ d))%nat; [|lia].
  rewrite <-(size_list_to_set (C:=gset bytes) keys) by done. apply subseteq_size.
  intros k. rewrite elem_of_list_to_set. apply Hk.
Qed.

(** ** One round *)
Section Rounds.
Context (time : nat → Z) (layout : nat → gset bytes → list (list bytes)).

Definition layout_ok : Prop := ∀ n s, concat (layout n s) ≡ₚ elements s.

Context (Hlayout : layout_ok).

Lemma layout_nonempty n s : s ≠ ∅ → layout n s ≠ [].
Proof.
  intros Hs Hl. pose proof (Hlayout n s) as H. rewrite Hl in H. simpl in H.
  symmetry in H. apply Permutation_nil_r, elements_empty_inv in H. set_solver.
Qed.

(** The sample is a prefix of an enumeration of the index; the doomed keys are
    its dead ones. *)
Lemma sample_spec size w :
  volatile_keys_ (the_db w) ≠ ∅ →
  ∃ order r, order ≡ₚ elements (volatile_keys_ (the_db w)) ∧
    let keys := take size order in
    let doomed := filter (λ k, dead (time (reads w)) (map_ (the_db w)) k = true) keys in
    sample time layout size w =
      ((length keys, doomed), mkWorld (set_doomed doomed (set_rng r (the_db w))) (S (reads w))).
Proof.
  intros Hne. unfold sample.
  set (d := the_db w). set (buckets := layout (reads w) (volatile_keys_ d)).
  set (r := minstd_next (rng_ d)).
  set (bucket := Z.to_nat (r `mod` Z.of_nat (length buckets))).
  assert (bucket < length buckets)%nat as Hb.
  { pose proof (layout_nonempty (reads w) _ Hne) as Hl. fold d buckets in Hl.
    assert (0 < Z.of_nat (length buckets)) by (destruct buckets; [done|simpl; lia]).
    pose proof (Z.mod_pos_bound r (Z.of_nat (length buckets))). unfold bucket. lia. }
  exists (visit (length buckets) buckets bucket), r. split.
  { rewrite visit_perm by done. apply Hlayout. }
  rewrite bind_run. simpl. rewrite bind_run. simpl. rewrite bind_run. simpl.
  fold d buckets r bucket. rewrite walk_spec, scan_bucket_spec. simpl.
  by rewrite Nat.sub_0_r.
Qed.

Lemma round_keys size order w doomed :
  order ≡ₚ elements (volatile_keys_ (the_db w)) →
  doomed = filter (λ k, dead (time (reads w)) (map_ (the_db w)) k = true) (take size order) →
  NoDup doomed ∧ (length doomed ≤ size)%nat ∧
  (length (take size order) = min size (volatile_size (the_db w)))%nat ∧
  (∀ k, k ∈ doomed → k ∈ volatile_keys_ (the_db w) ∧
        dead (time (reads w)) (map_ (the_db w)) k = true).
Proof.
  intros Ho ->. split_and!.
  - apply NoDup_filter. eapply sublist_NoDup; [|apply sublist_take].
    rewrite Ho. apply NoDup_elements.
  - etrans; [apply length_filter|]. rewrite length_take. lia.
  - rewrite length_take. f_equal. by rewrite Ho.
  - intros k. rewrite list_elem_of_filter. intros [Hd Hk]. split; [|done].
    rewrite <-elem_of_elements, <-Ho. rewrite <-(take_drop size order), elem_of_app. by left.
Qed.

(** The general facts of a run: whatever the clock does. *)
Record run_ok (fuel size r : nat) (w : World) (r' : nat) (w' : World) : Prop := {
  run_ok_index : index_ok (the_db w) → index_ok (the_db w');
  run_ok_weak : index_weak (the_db w) → index_weak (the_db w');
  run_ok_view t : reads_le time t (reads w) (reads w') → view t (the_db w') = view t (the_db w);
  run_ok_reads : (reads w ≤ reads w' ≤ reads w + fuel)%nat;
  run_ok_bound : (r ≤ r' ≤ r + fuel * size)%nat;
  run_ok_size : index_weak (the_db w) → (r' + Db.size (the_db w') = r + Db.size (the_db w))%nat;
  run_ok_volatile : (r' + volatile_size (the_db w') = r + volatile_size (the_db w))%nat;
  run_ok_sub k v : map_ (the_db w') !! k = Some v → map_ (the_db w) !! k = Some v;
}.

Lemma run_ok_refl fuel size r w : run_ok fuel size r w r w.
Proof. split; auto; lia. Qed.

Lemma run_ok_trans f g size r w r1 w1 r2 w2 :
  run_ok f size r w r1 w1 → run_ok g size r1 w1 r2 w2 → run_ok (f + g) size r w r2 w2.
Proof.
  intros [H1 H2 H3 H4 H5 H6 H7 H8] [K1 K2 K3 K4 K5 K6 K7 K8]. split; auto; try nia.
  intros t Ht. rewrite K3, H3; [done|..]; intros i Hi; apply Ht; lia.
Qed.

Lemma run_ok_le f g size r w r1 w1 : (f ≤ g)%nat → run_ok f size r w r1 w1 → run_ok g size r w r1 w1.
Proof. intros Hfg H. replace g with (f + (g - f))%nat by lia. eapply run_ok_trans; [done|apply run_ok_refl]. Qed.

(** One round of sampling and reclaiming. *)
Lemma round_ok size r w order rng doomed :
  order ≡ₚ elements (volatile_keys_ (the_db w)) →
  doomed = filter (λ k, dead (time (reads w)) (map_ (the_db w)) k = true) (take size order) →
  run_ok 1 size r w (r + length doomed)
    (mkWorld (reclaim_all doomed (set_doomed doomed (set_rng rng (the_db w)))) (S (reads w))).
Proof.
  intros Ho Hd. destruct (round_keys size order w doomed Ho Hd) as (Hnd & Hlen & _ & Hk).
  split; simpl; try lia.
  - intros H. by apply reclaim_all_index_ok.
  - intros H. by apply reclaim_all_index_weak.
  - intros t Ht. rewrite reclaim_all_view; [done|]. intros k v [_ Hdead]%Hk Hv. simpl in Hv.
    unfold dead in Hdead. rewrite Hv in Hdead.
    apply (is_expired_mono _ (time (reads w))); [apply Ht; lia|done].
  - intros [Hw _].
    pose proof (reclaim_all_size doomed (set_doomed doomed (set_rng rng (the_db w))) Hnd) as H.
    unfold Db.size in *. simpl in *. rewrite <-H; [lia|]. intros k [Hv _]%Hk. by apply Hw.
  - pose proof (reclaim_all_volatile_size doomed (set_doomed doomed (set_rng rng (the_db w))) Hnd) as H.
    unfold volatile_size in *. simpl in *. rewrite <-H; [lia|]. intros k Hin. by apply Hk.
  - intros k v. rewrite reclaim_all_map. simpl. by case_decide.
Qed.

(** Unfolding one round of the loop. *)
Lemma rounds_step fuel size r w :
  volatile_keys_ (the_db w) ≠ ∅ →
  ∃ order rng, order ≡ₚ elements (volatile_keys_ (the_db w)) ∧
    let keys := take size order in
    let doomed := filter (λ k, dead (time (reads w)) (map_ (the_db w)) k = true) keys in
    let w' := mkWorld (reclaim_all doomed (set_doomed doomed (set_rng rng (the_db w)))) (S (reads w)) in
    rounds time layout (S fuel) size r w =
      if (length keys =? 0)%nat || (length doomed * 4 <=? length keys)%nat
      then ((r + length doomed)%nat, w')
      else rounds time layout fuel size (r + length doomed) w'.
Proof.
  intros Hne. destruct (sample_spec size w Hne) as (order & rng & Ho & Hs).
  exists order, rng. split; [done|]. simpl. rewrite bind_run. simpl.
  rewrite bool_decide_eq_false_2 by done. rewrite bind_run, Hs. simpl. rewrite bind_run. simpl.
  unfold kContinueIfExpiredNumerator, kContinueIfExpiredDenominator. rewrite Nat.mul_1_r.
  destruct (length (take size order) =? 0)%nat; [done|]. by destruct (_ <=? _)%nat.
Qed.

Lemma rounds_empty fuel size r w :
  volatile_keys_ (the_db w) = ∅ → rounds time layout fuel size r w = (r, w).
Proof.
  intros He. destruct fuel as [|fuel]; [done|]. simpl. rewrite bind_run. simpl.
  by rewrite bool_decide_eq_true_2.
Qed.

Lemma rounds_ok fuel size r w :
  let res := rounds time layout fuel size r w in run_ok fuel size r w res.1 res.2.
Proof.
  revert r w. induction fuel as [|fuel IH]; intros r w; [apply run_ok_refl|].
  destruct (decide (volatile_keys_ (the_db w) = ∅)) as [He|Hne].
  { rewrite rounds_empty by done. apply run_ok_refl. }
  destruct (rounds_step fuel size r w Hne) as (order & rng & Ho & ->).
  pose proof (round_ok size r w order rng _ Ho eq_refl) as Hround.
  destruct (_ || _); [by apply (run_ok_le 1); [lia|]|].
  eapply (run_ok_trans 1); [apply Hround|apply IH].
Qed.

Lemma active_expire_cycle_ok size w :
  let res := active_expire_cycle time layout size w in run_ok 16 size 0 w res.1 res.2.
Proof.
  unfold active_expire_cycle. destruct (size =? 0)%nat; [apply run_ok_refl|apply rounds_ok].
Qed.

(** ** A mass expiry *)
Definition all_dead (w : World) : Prop :=
  ∀ k i, k ∈ volatile_keys_ (the_db w) → (reads w ≤ i)%nat →
         dead (time i) (map_ (the_db w)) k = true.

Lemma filter_all {A} (f : A → bool) (l : list A) :
  (∀ x, x ∈ l → f x = true) → filter (λ x, f x = true) l = l.
Proof.
  induction l as [|x l IH]; intros H; [done|].
  rewrite filter_cons_True by (apply H; set_solver). f_equal. apply IH. set_solver.
Qed.

Lemma rounds_all_dead fuel size r w :
  (0 < size)%nat → all_dead w →
  (rounds time layout fuel size r w).1 = (r + min (fuel * size) (volatile_size (the_db w)))%nat.
Proof.
  intros Hsize. revert r w. induction fuel as [|fuel IH]; intros r w Hd; [simpl; lia|].
  destruct (decide (volatile_keys_ (the_db w) = ∅)) as [He|Hne].
  { rewrite rounds_empty by done. unfold volatile_size. rewrite He, size_empty. simpl. lia. }
  destruct (rounds_step fuel size r w Hne) as (order & rng & Ho & ->).
  destruct (round_keys size order w _ Ho eq_refl) as (Hnd & _ & Hlen & Hk).
  assert (∀ k, k ∈ take size order → dead (time (reads w)) (map_ (the_db w)) k = true) as Hall.
  { intros k Hin. apply Hd; [|lia]. rewrite <-elem_of_elements, <-Ho.
    rewrite <-(take_drop size order), elem_of_app. by left. }
  rewrite (filter_all _ _ Hall) in *. set (keys := take size order) in *.
  assert (volatile_size (the_db w) ≠ 0%nat) as Hv.
  { unfold volatile_size. intros H%size_empty_inv. set_solver. }
  replace (length keys =? 0)%nat with false by lia.
  replace (length keys * 4 <=? length keys)%nat with false by lia. simpl orb. cbv iota.
  pose proof (reclaim_all_volatile_size keys (set_doomed keys (set_rng rng (the_db w))) Hnd
    (λ k H, proj1 (Hk k H))) as Hsz.
  rewrite IH.
  - unfold volatile_size in *. simpl in *. lia.
  - intros k i. simpl. rewrite reclaim_all_volatile, elem_of_difference. simpl.
    intros [Hin _] Hi. unfold dead. rewrite reclaim_all_map. case_decide; [done|].
    apply (Hd k i); [done|lia].
Qed.

(** ** A sample as large as the index misses nothing *)
Lemma rounds_complete fuel size r w k v :
  (volatile_size (the_db w) ≤ size)%nat → index_weak (the_db w) →
  map_ (the_db (rounds time layout (S fuel) size r w).2) !! k = Some v →
  is_expired v (time (reads w)) = false.
Proof.
  intros Hsize [_ Hidx] Hk.
  destruct (decide (volatile_keys_ (the_db w) = ∅)) as [He|Hne].
  { rewrite rounds_empty in Hk by done. unfold is_expired. destruct (has_expiry v) eqn:E; [|done].
    specialize (Hidx k v Hk E). set_solver. }
  destruct (rounds_step fuel size r w Hne) as (order & rng & Ho & Hstep). rewrite Hstep in Hk.
  set (doomed := filter _ _) in Hk. set (w1 := mkWorld _ _) in Hk.
  assert (map_ (the_db w1) !! k = Some v) as Hk1.
  { destruct (_ || _) in Hk; [done|].
    eapply run_ok_sub; [apply (rounds_ok fuel size (r + length doomed) w1)|done]. }
  simpl in Hk1. rewrite reclaim_all_map in Hk1. case_decide as Hin; [done|]. simpl in Hk1.
  destruct (is_expired v (time (reads w))) eqn:E; [|done]. destruct Hin.
  apply list_elem_of_filter. split; [unfold dead; by rewrite Hk1|].
  rewrite take_ge by (rewrite Ho; exact Hsize). rewrite Ho, elem_of_elements.
  apply (Hidx k v Hk1). unfold is_expired in E. by destruct (has_expiry v).
Qed.
End Rounds.
