(* ===== verification/Commands.v ===== *)
(** * The command layer

    [src/cmd/]: the command table and its dispatcher, and every handler.  A
    handler is a computation over [CommandContext]: the argument vector, the
    output buffer (any [ByteQueue]), the keyspace with its clock, and the
    close flag.  [argv[i]] past the end is undefined behaviour in the source;
    here it sets the ghost flag [oob], and the lemmas show it stays false. *)
From S2P Require Import Prelude Buffer Digits Parser Writer Keyspace.

(** ** Error strings and deadlines (commands.h) *)
Module err.
Definition kNotInteger : bytes := $"ERR value is not an integer or out of range".

Definition kSyntax : bytes := $"ERR syntax error".

Definition kWrongType : bytes :=
  $"WRONGTYPE Operation against a key holding the wrong kind of value".
End err.

(** Division truncates towards zero, as in C++. *)
Definition ttl_to_deadline (amount unit_ms now : Z) : option Z :=
  if (Z.quot INT64_MAX unit_ms <? amount) || (amount <? Z.quot INT64_MIN unit_ms) then None
  else
    let delta := s64 (amount * unit_ms) in
    if (0 <? delta) && (s64 (INT64_MAX - delta) <? now) then None
    else if (delta <? 0) && (now <? s64 (INT64_MIN - delta)) then None
    else Some (s64 (now + delta)).

(** ** Lowercasing (table.cpp) *)
Definition lower_byte (c : byte) : byte :=
  if (code "A" <=? code c) && (code c <=? code "Z") then chr (code c - code "A" + code "a") else c.

Definition to_lower_ascii (s : bytes) : bytes := lower_byte <$> s.

(** ** The table (table.h, table.cpp)

    A handler pointer is one of these tags; [run_handler] below is the call. *)
Inductive CommandHandler :=
  | cmd_ping | cmd_echo | cmd_quit
  | cmd_set | cmd_get | cmd_incr | cmd_decr
  | cmd_del | cmd_exists | cmd_type | cmd_expire | cmd_ttl | cmd_persist
  | cmd_dbsize | cmd_flushall | cmd_command.

Record Command := mkCommand { name : bytes; handler : CommandHandler; arity : Z }.

Abbreviation CommandTable := (gmap bytes Command).

Definition add (n : bytes) (h : CommandHandler) (a : Z) (t : CommandTable) : CommandTable :=
  <[n := mkCommand n h a]> t.

Definition register_connection_commands (t : CommandTable) : CommandTable :=
  add $"quit" cmd_quit 1 (add $"echo" cmd_echo 2 (add $"ping" cmd_ping (-1) t)).

Definition register_string_commands (t : CommandTable) : CommandTable :=
  add $"decr" cmd_decr 2 (add $"incr" cmd_incr 2 (add $"get" cmd_get 2 (add $"set" cmd_set (-3) t))).

Definition register_keyspace_commands (t : CommandTable) : CommandTable :=
  add $"persist" cmd_persist 2 (add $"ttl" cmd_ttl 2 (add $"expire" cmd_expire 3
    (add $"type" cmd_type 2 (add $"exists" cmd_exists (-2) (add $"del" cmd_del (-2) t))))).

Definition register_server_commands (t : CommandTable) : CommandTable :=
  add $"command" cmd_command (-1) (add $"flushall" cmd_flushall (-1) (add $"dbsize" cmd_dbsize 1 t)).

(** The constructor. *)
Definition instance : CommandTable :=
  register_server_commands (register_keyspace_commands
    (register_string_commands (register_connection_commands ∅))).

Definition table_size (t : CommandTable) : nat := size t.

Definition find (n : bytes) : option Command := instance !! to_lower_ascii n.

(** ** The context *)
Record CommandContext (B : Type) := mkCtx {
  argv : list bytes;
  out : B;
  world : Db.World;
  close_after_reply : bool;
  oob : bool;
}.
Arguments mkCtx {B}.
Arguments argv {B}.
Arguments out {B}.
Arguments world {B}.
Arguments close_after_reply {B}.
Arguments oob {B}.

(** [CommandContext ctx{argv_, c.out, db_}]. *)
Definition new_ctx {B} (argv : list bytes) (out : B) (w : Db.World) : CommandContext B :=
  mkCtx argv out w false false.

(** The parsed options of SET. *)
Record SetOptions := mkSetOptions {
  nx : bool;
  xx : bool;
  has_ttl : bool;
  unit_ms : Z;
  amount : Z;
}.

Definition kSetExpireError : bytes := $"ERR invalid expire time in 'set' command".

(** The option loop of [cmd_set] over [argv[3..]]: the error message, or the
    options. *)
Fixpoint set_options (opts : list bytes) (o : SetOptions) : bytes + SetOptions :=
  match opts with
  | [] => inr o
  | a :: rest =>
      let opt := to_lower_ascii a in
      if bool_decide (opt = $"nx") && negb (xx o) && negb (nx o) then
        set_options rest (mkSetOptions true (xx o) (has_ttl o) (unit_ms o) (amount o))
      else if bool_decide (opt = $"xx") && negb (nx o) && negb (xx o) then
        set_options rest (mkSetOptions (nx o) true (has_ttl o) (unit_ms o) (amount o))
      else
        match rest with
        | value :: rest' =>
            if (bool_decide (opt = $"ex") || bool_decide (opt = $"px")) && negb (has_ttl o) then
              match string_to_int64 value with
              | None => inl err.kNotInteger
              | Some amount =>
                  if amount <=? 0 then inl kSetExpireError
                  else
                    let unit_ms := if bool_decide (opt = $"ex") then 1000 else 1 in
                    set_options rest' (mkSetOptions (nx o) (xx o) true unit_ms amount)
              end
            else inl err.kSyntax
        | [] => inl err.kSyntax
        end
  end.

(** ** Handlers *)
Section Handlers.
Context {B : Type} `{!ByteQueue B} (time : nat → Z).

Abbreviation Cmd := (ST (CommandContext B)).

(** [ctx.argv[i]]. *)
Definition arg (i : nat) : Cmd bytes := λ c,
  match argv c !! i with
  | Some a => (a, c)
  | None => ([], mkCtx (argv c) (out c) (world c) (close_after_reply c) true)
  end.

Definition argc : Cmd nat := λ c, (length (argv c), c).

(** Appending a reply to [ctx.out]. *)
Definition say (f : B → B) : Cmd unit :=
  modify (λ c, mkCtx (argv c) (f (out c)) (world c) (close_after_reply c) (oob c)).

(** A call on [ctx.db]. *)
Definition with_world (w : Db.World) (c : CommandContext B) : CommandContext B :=
  mkCtx (argv c) (out c) w (close_after_reply c) (oob c).

Definition db {A} (m : ST Db.World A) : Cmd A := λ c,
  let '(a, w) := m (world c) in (a, with_world w c).

Definition set_close : Cmd unit :=
  modify (λ c, mkCtx (argv c) (out c) (world c) true (oob c)).

(** *** connection.cpp *)
Definition do_ping : Cmd unit :=
  n ← argc;
  if (n =? 1)%nat then say (reply.simple_cstr $"PONG")
  else if (n =? 2)%nat then a ← arg 1; say (reply.bulk a)
  else say (reply.error $"ERR wrong number of arguments for 'ping' command").

Definition do_echo : Cmd unit := a ← arg 1; say (reply.bulk a).

Definition do_quit : Cmd unit := _ ← say reply.ok; set_close.

(** *** string.cpp *)
Definition do_set : Cmd unit :=
  c ← get;
  key ← arg 1;
  match set_options (drop 3 (argv c)) (mkSetOptions false false false 0 0) with
  | inl msg => say (reply.error msg)
  | inr o =>
      v ← db (Db.lookup time key);
      let exists_ := bool_decide (is_Some v) in
      if (nx o && exists_) || (xx o && negb exists_) then say reply.null_bulk
      else
        deadline ← (if has_ttl o
                    then now ← db (Db.now_ms time); mret (ttl_to_deadline (amount o) (unit_ms o) now)
                    else mret (Some kNoExpiry));
        match deadline with
        | None => say (reply.error kSetExpireError)
        | Some deadline =>
            s ← arg 2;
            _ ← db (Db.update (Db.set_string key s deadline));
            say reply.ok
        end
  end.

Definition do_get : Cmd unit :=
  key ← arg 1;
  v ← db (Db.lookup time key);
  match v with
  | None => say reply.null_bulk
  | Some v =>
      if bool_decide (type v ≠ TString) then say (reply.error err.kWrongType)
      else say (reply.bulk (data v))
  end.

Definition incr_by (delta : Z) : Cmd unit :=
  key ← arg 1;
  v ← db (Db.lookup time key);
  match v with
  | None =>
      _ ← db (Db.update (Db.set_string key (std_to_string delta) kNoExpiry));
      say (reply.integer delta)
  | Some v =>
      if bool_decide (type v ≠ TString) then say (reply.error err.kWrongType)
      else
        match string_to_int64 (data v) with
        | None => say (reply.error err.kNotInteger)
        | Some cur =>
            if (if 0 <? delta then s64 (INT64_MAX - delta) <? cur else cur <? s64 (INT64_MIN - delta))
            then say (reply.error $"ERR increment or decrement would overflow")
            else
              let cur := s64 (cur + delta) in
              _ ← db (Db.update (Db.assign key (mkValue (type v) (std_to_string cur) (expire_at_ms v))));
              say (reply.integer cur)
        end
  end.

(** *** keyspace.cpp

    The counting loops over [argv[1..]]. *)
Fixpoint del_loop (keys : list bytes) (deleted : Z) : Cmd Z :=
  match keys with
  | [] => mret deleted
  | key :: keys' =>
      ok ← db (Db.erase time key);
      del_loop keys' (if ok : bool then s64 (deleted + 1) else deleted)
  end.

Definition do_del : Cmd unit :=
  c ← get;
  deleted ← del_loop (drop 1 (argv c)) 0;
  say (reply.integer deleted).

Fixpoint exists_loop (keys : list bytes) (found : Z) : Cmd Z :=
  match keys with
  | [] => mret found
  | key :: keys' =>
      v ← db (Db.lookup time key);
      exists_loop keys' (if bool_decide (is_Some v) then s64 (found + 1) else found)
  end.

Definition do_exists : Cmd unit :=
  c ← get;
  found ← exists_loop (drop 1 (argv c)) 0;
  say (reply.integer found).

Definition do_type : Cmd unit :=
  key ← arg 1;
  v ← db (Db.lookup time key);
  say (reply.simple_cstr (match v with None => $"none" | Some v => type_name (type v) end)).

Definition do_expire : Cmd unit :=
  a ← arg 2;
  match string_to_int64 a with
  | None => say (reply.error err.kNotInteger)
  | Some seconds =>
      key ← arg 1;
      v ← db (Db.lookup time key);
      match v with
      | None => say (reply.integer 0)
      | Some _ =>
          if seconds <=? 0 then
            _ ← db (Db.erase time key);
            say (reply.integer 1)
          else
            now ← db (Db.now_ms time);
            match ttl_to_deadline seconds 1000 now with
            | None => say (reply.error $"ERR invalid expire time in 'expire' command")
            | Some deadline =>
                _ ← db (Db.set_expire_at time key deadline);
                say (reply.integer 1)
            end
      end
  end.

Definition do_ttl : Cmd unit :=
  key ← arg 1;
  ms ← db (Db.pttl time key);
  if ms <? 0 then say (reply.integer ms)
  else say (reply.integer (Z.quot (s64 (ms + 500)) 1000)).

Definition do_persist : Cmd unit :=
  key ← arg 1;
  ok ← db (Db.persist time key);
  say (reply.integer (if ok : bool then 1 else 0)).

(** *** server.cpp *)
Definition do_dbsize : Cmd unit :=
  c ← get;
  say (reply.integer (s64 (Z.of_nat (Db.size (Db.the_db (world c)))))).

Definition do_flushall : Cmd unit :=
  n ← argc;
  let run := _ ← db (Db.update Db.clear); say reply.ok in
  if (2 <? n)%nat then say (reply.error err.kSyntax)
  else if (n =? 2)%nat then
    a ← arg 1;
    let opt := to_lower_ascii a in
    if bool_decide (opt ≠ $"async") && bool_decide (opt ≠ $"sync")
    then say (reply.error err.kSyntax)
    else run
  else run.

Definition do_command : Cmd unit :=
  n ← argc;
  let stub := say (reply.array_header 0) in
  if (2 <=? n)%nat then
    a ← arg 1;
    if bool_decide (to_lower_ascii a = $"count")
    then say (reply.integer (s64 (Z.of_nat (table_size instance))))
    else stub
  else stub.

Definition run_handler (h : CommandHandler) : Cmd unit :=
  match h with
  | cmd_ping => do_ping | cmd_echo => do_echo | cmd_quit => do_quit
  | cmd_set => do_set | cmd_get => do_get
  | cmd_incr => incr_by 1 | cmd_decr => incr_by (-1)
  | cmd_del => do_del | cmd_exists => do_exists | cmd_type => do_type
  | cmd_expire => do_expire | cmd_ttl => do_ttl | cmd_persist => do_persist
  | cmd_dbsize => do_dbsize | cmd_flushall => do_flushall | cmd_command => do_command
  end.

(** ** Dispatch (table.cpp) *)
Definition unknown_command (argv : list bytes) : bytes :=
  $"ERR unknown command '" ++ nth 0 argv [] ++ $"', with args beginning with: " ++
  concat ((λ a, $"'" ++ take 32 a ++ $"', ") <$> take 3 (drop 1 argv)).

Definition wrong_arity (n : bytes) : bytes :=
  $"ERR wrong number of arguments for '" ++ n ++ $"' command".

Definition arity_ok (arity argc : Z) : bool :=
  if 0 <=? arity then argc =? arity else - arity <=? argc.

Definition dispatch : Cmd unit :=
  n ← arg 0;
  c ← get;
  match find n with
  | None => say (reply.error (unknown_command (argv c)))
  | Some cmd =>
      if negb (arity_ok (arity cmd) (s32 (Z.of_nat (length (argv c)))))
      then say (reply.error (wrong_arity (name cmd)))
      else run_handler (handler cmd)
  end.
End Handlers.

(** ** Lemmas on deadlines *)
Lemma quot_max_lt a u : 0 < u → Z.quot INT64_MAX u < a ↔ INT64_MAX < a * u.
Proof.
  intros Hu. assert (0 ≤ INT64_MAX) as Hm by (mach; lia).
  rewrite Z.quot_div_nonneg by lia.
  pose proof (Z.div_mod INT64_MAX u ltac:(lia)). pose proof (Z.mod_pos_bound INT64_MAX u Hu).
  split; intros; nia.
Qed.

Lemma quot_min_lt a u : 0 < u → a < Z.quot INT64_MIN u ↔ a * u < INT64_MIN.
Proof.
  intros Hu. unfold INT64_MIN. rewrite Z.quot_opp_l by lia.
  assert (0 ≤ 2 ^ 63) as Hm by lia. remember (2 ^ 63) as m eqn:Em. clear Em.
  rewrite Z.quot_div_nonneg by lia.
  pose proof (Z.div_mod m u ltac:(lia)). pose proof (Z.mod_pos_bound m u Hu).
  split; intros; nia.
Qed.

Lemma ttl_to_deadline_Some a u now d :
  0 < u → in_s64 now →
  ttl_to_deadline a u now = Some d ↔ in_s64 (a * u) ∧ in_s64 (now + a * u) ∧ d = now + a * u.
Proof.
  intros Hu Hnow. unfold ttl_to_deadline.
  destruct (Z.ltb_spec (Z.quot INT64_MAX u) a) as [H1|H1].
  { apply quot_max_lt in H1; [|done]. simpl. split; [done|]. mach. lia. }
  destruct (Z.ltb_spec a (Z.quot INT64_MIN u)) as [H2|H2].
  { apply quot_min_lt in H2; [|done]. simpl. split; [done|]. mach. lia. }
  simpl. assert (¬ INT64_MAX < a * u) by (rewrite <-quot_max_lt; lia).
  assert (¬ a * u < INT64_MIN) by (rewrite <-quot_min_lt; lia).
  rewrite (s64_small (a * u)) by (mach; lia). cbv zeta.
  remember (a * u) as delta eqn:Ed. clear Ed H1 H2.
  destruct (0 <? delta) eqn:E1; simpl.
  { rewrite s64_small by (mach; lia).
    destruct (Z.ltb_spec (INT64_MAX - delta) now).
    { split; [done|]. mach. lia. }
    replace (delta <? 0) with false by lia. simpl. rewrite s64_small by (mach; lia).
    split; [intros [= <-]|intros (_ & _ & ->)]; [|done]. mach. lia. }
  destruct (delta <? 0) eqn:E2; simpl.
  { rewrite s64_small by (mach; lia). destruct (Z.ltb_spec now (INT64_MIN - delta)).
    { split; [done|]. mach. lia. }
    rewrite s64_small by (mach; lia).
    split; [intros [= <-]|intros (_ & _ & ->)]; [|done]. mach. lia. }
  rewrite s64_small by (mach; lia).
  split; [intros [= <-]|intros (_ & _ & ->)]; [|done]. mach. lia.
Qed.

(** For a lifetime, from a clock past the epoch: the deadline is exact, or the
    call is refused. *)
Lemma ttl_to_deadline_positive a u now :
  0 < u → 0 < a → 0 ≤ now ≤ INT64_MAX →
  ttl_to_deadline a u now = if INT64_MAX <? now + a * u then None else Some (now + a * u).
Proof.
  intros Hu Ha Hnow. assert (0 < a * u) by nia.
  destruct (Z.ltb_spec INT64_MAX (now + a * u)).
  - destruct (ttl_to_deadline a u now) as [d|] eqn:E; [|done].
    apply ttl_to_deadline_Some in E; mach; lia.
  - apply ttl_to_deadline_Some; mach; lia.
Qed.

(** ** Lemmas on the table *)
Lemma instance_size : size instance = 16%nat.
Proof. vm_compute. reflexivity. Qed.

Lemma instance_lookup c :
  instance !! c =
    if decide (c = $"ping") then Some (mkCommand $"ping" cmd_ping (-1))
    else if decide (c = $"echo") then Some (mkCommand $"echo" cmd_echo 2)
    else if decide (c = $"quit") then Some (mkCommand $"quit" cmd_quit 1)
    else if decide (c = $"set") then Some (mkCommand $"set" cmd_set (-3))
    else if decide (c = $"get") then Some (mkCommand $"get" cmd_get 2)
    else if decide (c = $"incr") then Some (mkCommand $"incr" cmd_incr 2)
    else if decide (c = $"decr") then Some (mkCommand $"decr" cmd_decr 2)
    else if decide (c = $"del") then Some (mkCommand $"del" cmd_del (-2))
    else if decide (c = $"exists") then Some (mkCommand $"exists" cmd_exists (-2))
    else if decide (c = $"type") then Some (mkCommand $"type" cmd_type 2)
    else if decide (c = $"expire") then Some (mkCommand $"expire" cmd_expire 3)
    else if decide (c = $"ttl") then Some (mkCommand $"ttl" cmd_ttl 2)
    else if decide (c = $"persist") then Some (mkCommand $"persist" cmd_persist 2)
    else if decide (c = $"dbsize") then Some (mkCommand $"dbsize" cmd_dbsize 1)
    else if decide (c = $"flushall") then Some (mkCommand $"flushall" cmd_flushall (-1))
    else if decide (c = $"command") then Some (mkCommand $"command" cmd_command (-1))
    else None.
Proof.
  repeat (case_decide; [subst; by vm_compute|]).
  unfold instance, register_server_commands, register_keyspace_commands, register_string_commands,
    register_connection_commands, add.
  by rewrite !lookup_insert_ne by congruence.
Qed.

#[global] Opaque instance.
