(* ===== verification/Options.v ===== *)
(** * The options of SET

    [set_options] is the loop of [cmd_set]; this file gives its grammar.  An
    option list spells a list of [SetOpt]; it is accepted when it holds at most
    one condition and at most one positive lifetime, in any order and case, and
    its meaning does not depend on the order. *)
From S2P Require Import Prelude Buffer Digits Commands.

#[local] Arguments lit : simpl never.

Inductive SetOpt := NX | XX | EX (seconds : Z) | PX (ms : Z).

(** The words that spell a list of options. *)
Inductive spells : list bytes → list SetOpt → Prop :=
  | spells_nil : spells [] []
  | spells_nx a rest l :
      to_lower_ascii a = $"nx" → spells rest l → spells (a :: rest) (NX :: l)
  | spells_xx a rest l :
      to_lower_ascii a = $"xx" → spells rest l → spells (a :: rest) (XX :: l)
  | spells_ex a v n rest l :
      to_lower_ascii a = $"ex" → string_to_int64 v = Some n →
      spells rest l → spells (a :: v :: rest) (EX n :: l)
  | spells_px a v n rest l :
      to_lower_ascii a = $"px" → string_to_int64 v = Some n →
      spells rest l → spells (a :: v :: rest) (PX n :: l).

Definition is_condition (x : SetOpt) : Prop := match x with NX | XX => True | _ => False end.

Definition is_lifetime (x : SetOpt) : Prop := match x with EX _ | PX _ => True | _ => False end.

#[export] Instance is_condition_dec x : Decision (is_condition x).
Proof. destruct x; apply _. Defined.

#[export] Instance is_lifetime_dec x : Decision (is_lifetime x).
Proof. destruct x; apply _. Defined.

Definition condition_part (l : list SetOpt) : option (bool * bool) :=
  match filter is_condition l with
  | [] => Some (false, false)
  | [NX] => Some (true, false)
  | [XX] => Some (false, true)
  | _ => None
  end.

Definition lifetime_part (l : list SetOpt) : option (bool * Z * Z) :=
  match filter is_lifetime l with
  | [] => Some (false, 0, 0)
  | [EX n] => if 0 <? n then Some (true, 1000, n) else None
  | [PX n] => if 0 <? n then Some (true, 1, n) else None
  | _ => None
  end.

(** What a list of options means, if it means anything. *)
Definition meaning (l : list SetOpt) : option SetOptions :=
  '(n, x) ← condition_part l;
  '(h, u, a) ← lifetime_part l;
  Some (mkSetOptions n x h u a).

Definition no_options : SetOptions := mkSetOptions false false false 0 0.

(** One option on top of the options so far. *)
Definition add_option (x : SetOpt) (o : SetOptions) : option SetOptions :=
  match x with
  | NX => if nx o || xx o then None else Some (mkSetOptions true (xx o) (has_ttl o) (unit_ms o) (amount o))
  | XX => if nx o || xx o then None else Some (mkSetOptions (nx o) true (has_ttl o) (unit_ms o) (amount o))
  | EX n => if has_ttl o || (n <=? 0) then None else Some (mkSetOptions (nx o) (xx o) true 1000 n)
  | PX n => if has_ttl o || (n <=? 0) then None else Some (mkSetOptions (nx o) (xx o) true 1 n)
  end.

Definition add_options (l : list SetOpt) (o : option SetOptions) : option SetOptions :=
  foldl (λ o x, o ≫= add_option x) o l.

Lemma add_options_None l : add_options l None = None.
Proof. induction l; done. Qed.

(** ** The loop accepts exactly the spellings that add up *)
Lemma set_options_sound opts o o' :
  set_options opts o = inr o' → ∃ l, spells opts l ∧ add_options l (Some o) = Some o'.
Proof.
  remember (length opts) as n eqn:Hn. revert opts o Hn.
  induction (lt_wf n) as [n _ IH]. intros opts o Hn H.
  destruct opts as [|a rest]; [simplify_eq/=; by exists []; eauto using spells|]. simpl in Hn, H.
  destruct (bool_decide (to_lower_ascii a = $"nx") && negb (xx o) && negb (nx o)) eqn:E1.
  { destruct (IH (length rest) ltac:(lia) rest _ eq_refl H) as (l & Hl & Ha).
    rewrite !andb_true_iff, bool_decide_eq_true, !negb_true_iff in E1. destruct E1 as [[E1 Ex] En].
    exists (NX :: l). split; [by constructor|]. unfold add_options. simpl.
    assert (nx o || xx o = false) as -> by (by rewrite En, Ex). exact Ha. }
  destruct (bool_decide (to_lower_ascii a = $"xx") && negb (nx o) && negb (xx o)) eqn:E2.
  { destruct (IH (length rest) ltac:(lia) rest _ eq_refl H) as (l & Hl & Ha).
    rewrite !andb_true_iff, bool_decide_eq_true, !negb_true_iff in E2. destruct E2 as [[E2 En] Ex].
    exists (XX :: l). split; [by constructor|]. unfold add_options. simpl.
    assert (nx o || xx o = false) as -> by (by rewrite En, Ex). exact Ha. }
  destruct rest as [|v rest]; [done|].
  destruct ((bool_decide (to_lower_ascii a = $"ex") || bool_decide (to_lower_ascii a = $"px")) &&
            negb (has_ttl o)) eqn:E3; [|done].
  rewrite andb_true_iff, orb_true_iff, !bool_decide_eq_true, negb_true_iff in E3. destruct E3 as [E3 Eh].
  destruct (string_to_int64 v) as [z|] eqn:Ez; [|done].
  destruct (z <=? 0) eqn:Epos; [done|].
  destruct (IH (length rest) ltac:(simpl in *; lia) rest _ eq_refl H) as (l & Hl & Ha).
  destruct E3 as [E3|E3].
  - exists (EX z :: l). split; [by constructor|]. unfold add_options. simpl.
    rewrite Eh, Epos. simpl. by rewrite E3 in Ha.
  - exists (PX z :: l). split; [by constructor|]. unfold add_options. simpl.
    rewrite Eh, Epos. simpl. by rewrite E3 in Ha.
Qed.

Lemma set_options_complete opts l o o' :
  spells opts l → add_options l (Some o) = Some o' → set_options opts o = inr o'.
Proof.
  intros Hs. revert o. unfold add_options.
  induction Hs as [|a rest l E _ IH|a rest l E _ IH|a v n rest l E Ev _ IH|a v n rest l E Ev _ IH];
    intros o Ho; simpl in Ho.
  - by simplify_eq.
  - destruct (nx o) eqn:En, (xx o) eqn:Ex; simpl in Ho;
      try by (change (add_options l None = Some o') in Ho; rewrite add_options_None in Ho).
    simpl. rewrite E, En, Ex. simpl. rewrite <-(IH _ Ho). by rewrite ?Ex.
  - destruct (nx o) eqn:En, (xx o) eqn:Ex; simpl in Ho;
      try by (change (add_options l None = Some o') in Ho; rewrite add_options_None in Ho).
    simpl. rewrite E, En, Ex. simpl. rewrite <-(IH _ Ho). by rewrite ?En.
  - destruct (has_ttl o) eqn:Eh, (n <=? 0) eqn:Epos; simpl in Ho;
      try by (change (add_options l None = Some o') in Ho; rewrite add_options_None in Ho).
    simpl. rewrite E, Ev, Eh, Epos. simpl. by apply IH.
  - destruct (has_ttl o) eqn:Eh, (n <=? 0) eqn:Epos; simpl in Ho;
      try by (change (add_options l None = Some o') in Ho; rewrite add_options_None in Ho).
    simpl. rewrite E, Ev, Eh, Epos. simpl. by apply IH.
Qed.

Lemma meaning_snoc l x : meaning (l ++ [x]) = meaning l ≫= add_option x.
Proof.
  unfold meaning, condition_part, lifetime_part. rewrite !filter_app.
  destruct x as [| |n|n]; simpl; rewrite !app_nil_r;
    destruct (filter is_condition l) as [|[] [|]]; simpl; try done;
    destruct (filter is_lifetime l) as [|[| |m|m] [|]]; simpl; try done;
    try (destruct (0 <? m) eqn:?; simpl; try done);
    destruct (Z.leb_spec n 0), (Z.ltb_spec 0 n); simpl; try done; lia.
Qed.

Lemma add_options_meaning l : add_options l (Some no_options) = meaning l.
Proof.
  induction l as [|x l IH] using rev_ind; [done|].
  rewrite meaning_snoc, <-IH. unfold add_options. by rewrite foldl_app.
Qed.

Lemma meaning_perm l l' : l ≡ₚ l' → meaning l = meaning l'.
Proof.
  intros Hp. unfold meaning, condition_part, lifetime_part.
  assert (Hc : filter is_condition l ≡ₚ filter is_condition l') by by rewrite Hp.
  assert (Ht : filter is_lifetime l ≡ₚ filter is_lifetime l') by by rewrite Hp.
  assert (short : ∀ s s' : list SetOpt, s ≡ₚ s' → s = s' ∨ (2 ≤ length s ∧ 2 ≤ length s')%nat).
  { intros s s' H. pose proof (Permutation_length H) as Hl. destruct s as [|x [|y s]].
    - left. by apply Permutation_nil_l in H.
    - left. by apply Permutation_singleton_l in H.
    - right. simpl in *. lia. }
  destruct (short _ _ Hc) as [-> | [H1 H2]].
  - destruct (short _ _ Ht) as [-> | [H1 H2]]; [done|].
    destruct (filter is_lifetime l) as [|[] [|]], (filter is_lifetime l') as [|[] [|]]; simpl in *; done || lia.
  - destruct (filter is_condition l) as [|[] [|]], (filter is_condition l') as [|[] [|]]; simpl in *; done || lia.
Qed.

Lemma set_options_iff opts o :
  set_options opts no_options = inr o ↔ ∃ l, spells opts l ∧ meaning l = Some o.
Proof.
  split.
  - intros (l & Hl & Ha)%set_options_sound. exists l. by rewrite <-add_options_meaning.
  - intros (l & Hl & Hm). eapply set_options_complete; [done|]. by rewrite add_options_meaning.
Qed.

(** Words spell at most one list of options. *)
Lemma spells_unique opts l l' : spells opts l → spells opts l' → l = l'.
Proof.
  intros H. revert l'.
  induction H as [|a rest l E _ IH|a rest l E _ IH|a v n rest l E Ev _ IH|a v n rest l E Ev _ IH];
    intros l' H'; inversion H'; subst; try congruence; try (f_equal; auto; congruence).
  all: by rewrite E in *.
Qed.

(** ** What the rest of the command layer uses *)
Record options_ok (o : SetOptions) : Prop := {
  options_ok_cond : nx o && xx o = false;
  options_ok_ttl : has_ttl o = true → 0 < amount o ∧ (unit_ms o = 1000 ∨ unit_ms o = 1);
}.

Lemma meaning_ok l o : meaning l = Some o → options_ok o.
Proof.
  unfold meaning, condition_part, lifetime_part.
  destruct (filter is_condition l) as [|[] [|]]; simpl; try done;
    destruct (filter is_lifetime l) as [|[| |m|m] [|]]; simpl; try done;
    try (destruct (Z.ltb_spec 0 m); [|done]); intros [= <-]; split; simpl; (done || lia || auto).
Qed.

Lemma set_options_error opts o msg : set_options opts o = inl msg → CR ∉ msg.
Proof.
  remember (length opts) as n eqn:Hn. revert opts o Hn.
  induction (lt_wf n) as [n _ IH]. intros opts o Hn H.
  destruct opts as [|a rest]; [done|]. simpl in Hn, H.
  destruct (bool_decide (to_lower_ascii a = $"nx") && negb (xx o) && negb (nx o)).
  { eapply (IH (length rest)); [lia|done|exact H]. }
  destruct (bool_decide (to_lower_ascii a = $"xx") && negb (nx o) && negb (xx o)).
  { eapply (IH (length rest)); [lia|done|exact H]. }
  destruct rest as [|v rest]; [simplify_eq; no_cr|].
  destruct (_ && negb (has_ttl o)) in H; [|simplify_eq; no_cr].
  destruct (string_to_int64 v) as [z|]; [|simplify_eq; no_cr].
  destruct (z <=? 0); [simplify_eq; no_cr|].
  eapply (IH (length rest)); [simpl in *; lia|done|exact H].
Qed.
