(* ===== verification/Spec.v ===== *)
(** * What the commands promise

    The abstract specification of the command layer, after the command table
    of the README.  [KV] is the keyspace a client sees: no expired entry, no
    index, no lazy deletion.  [request] reads an argument vector, [exec] runs
    one request at one instant.  Nothing here mentions [Db] or a handler. *)
From S2P Require Import Prelude Digits Writer Commands Options.

(** ** The keyspace a client sees *)
Record Entry := mkEntry { val : bytes; deadline : option Z }.

#[export] Instance Entry_eq_dec : EqDecision Entry.
Proof. solve_decision. Defined.

Abbreviation KV := (gmap bytes Entry).

Definition alive (t : Z) (e : Entry) : Prop :=
  match deadline e with None => True | Some d => t < d end.

#[export] Instance alive_dec t e : Decision (alive t e).
Proof. unfold alive. destruct (deadline e); apply _. Defined.

(** The passage of time: entries whose deadline has come are gone. *)
Definition forget (t : Z) (kv : KV) : KV := filter (λ p : bytes * Entry, alive t p.2) kv.

(** ** Requests *)
Inductive Condition := Always | IfAbsent | IfPresent.

Inductive Request :=
  | Ping (message : option bytes)
  | Echo (message : bytes)
  | Quit
  | SetKey (key value : bytes) (cond : Condition) (ttl_ms : option Z)
  | GetKey (key : bytes)
  | AddKey (key : bytes) (delta : Z)
  | DelKeys (keys : list bytes)
  | ExistsKeys (keys : list bytes)
  | TypeOf (key : bytes)
  | ExpireKey (key : bytes) (seconds : Z)
  | TtlOf (key : bytes)
  | PersistKey (key : bytes)
  | DbSize
  | FlushAll
  | CommandCount
  | CommandDocs.

Definition refused (c : Condition) (present : bool) : bool :=
  match c with Always => false | IfAbsent => present | IfPresent => negb present end.

(** The condition and the lifetime in milliseconds that SET's options ask for. *)
Definition condition_of (o : SetOptions) : Condition :=
  if nx o then IfAbsent else if xx o then IfPresent else Always.

Definition ttl_of (o : SetOptions) : option Z :=
  if has_ttl o then Some (amount o * unit_ms o) else None.

(** Reading an argument vector: the error message, or the request. *)
Definition request (argv : list bytes) : bytes + Request :=
  match argv with
  | [] => inl []
  | cmd :: args =>
      let c := to_lower_ascii cmd in
      let arity := inl (wrong_arity c) in
      if decide (c = $"ping") then
        match args with [] => inr (Ping None) | [m] => inr (Ping (Some m)) | _ => arity end
      else if decide (c = $"echo") then
        match args with [m] => inr (Echo m) | _ => arity end
      else if decide (c = $"quit") then
        match args with [] => inr Quit | _ => arity end
      else if decide (c = $"set") then
        match args with
        | k :: v :: opts =>
            match set_options opts no_options with
            | inl msg => inl msg
            | inr o => inr (SetKey k v (condition_of o) (ttl_of o))
            end
        | _ => arity
        end
      else if decide (c = $"get") then
        match args with [k] => inr (GetKey k) | _ => arity end
      else if decide (c = $"incr") then
        match args with [k] => inr (AddKey k 1) | _ => arity end
      else if decide (c = $"decr") then
        match args with [k] => inr (AddKey k (-1)) | _ => arity end
      else if decide (c = $"del") then
        match args with [] => arity | _ => inr (DelKeys args) end
      else if decide (c = $"exists") then
        match args with [] => arity | _ => inr (ExistsKeys args) end
      else if decide (c = $"type") then
        match args with [k] => inr (TypeOf k) | _ => arity end
      else if decide (c = $"expire") then
        match args with
        | [k; n] => match string_to_int64 n with
                    | None => inl err.kNotInteger
                    | Some n => inr (ExpireKey k n)
                    end
        | _ => arity
        end
      else if decide (c = $"ttl") then
        match args with [k] => inr (TtlOf k) | _ => arity end
      else if decide (c = $"persist") then
        match args with [k] => inr (PersistKey k) | _ => arity end
      else if decide (c = $"dbsize") then
        match args with [] => inr DbSize | _ => arity end
      else if decide (c = $"flushall") then
        match args with
        | [] => inr FlushAll
        | [o] => if decide (to_lower_ascii o = $"async" ∨ to_lower_ascii o = $"sync")
                 then inr FlushAll else inl err.kSyntax
        | _ => inl err.kSyntax
        end
      else if decide (c = $"command") then
        match args with
        | o :: _ => if decide (to_lower_ascii o = $"count") then inr CommandCount else inr CommandDocs
        | [] => inr CommandDocs
        end
      else inl (unknown_command argv)
  end.

(** ** Execution at the instant [now]

    [entries] is the number DBSIZE reports: the one observation that may count
    entries already dead. *)
Definition store_until (e : bytes) (k v : bytes) (ttl_ms : Z) (now : Z) (kv : KV) (yes : Reply) :
    Reply * KV :=
  if INT64_MAX <? now + ttl_ms then (RError e, kv)
  else (yes, <[k := mkEntry v (Some (now + ttl_ms))]> kv).

Definition kExpireError : bytes := $"ERR invalid expire time in 'expire' command".

Definition kOverflow : bytes := $"ERR increment or decrement would overflow".

Definition exec (now : Z) (entries : Z) (r : Request) (kv : KV) : Reply * KV :=
  match r with
  | Ping None => (RSimple $"PONG", kv)
  | Ping (Some m) | Echo m => (RBulk m, kv)
  | Quit => (RSimple $"OK", kv)
  | SetKey k v cond ttl =>
      if refused cond (bool_decide (is_Some (kv !! k))) then (RNull, kv)
      else match ttl with
           | None => (RSimple $"OK", <[k := mkEntry v None]> kv)
           | Some ms => store_until kSetExpireError k v ms now kv (RSimple $"OK")
           end
  | GetKey k => (from_option (RBulk ∘ val) RNull (kv !! k), kv)
  | AddKey k delta =>
      match kv !! k with
      | None => (RInteger delta, <[k := mkEntry (std_to_string delta) None]> kv)
      | Some e =>
          match string_to_int64 (val e) with
          | None => (RError err.kNotInteger, kv)
          | Some n =>
              if (n + delta <? INT64_MIN) || (INT64_MAX <? n + delta) then (RError kOverflow, kv)
              else (RInteger (n + delta), <[k := mkEntry (std_to_string (n + delta)) (deadline e)]> kv)
          end
      end
  | DelKeys ks =>
      let present : gset bytes := dom kv ∩ list_to_set ks in
      (RInteger (Z.of_nat (size present)), filter (λ p : bytes * Entry, p.1 ∉ ks) kv)
  | ExistsKeys ks => (RInteger (Z.of_nat (length (filter (λ k, is_Some (kv !! k)) ks))), kv)
  | TypeOf k => (RSimple (if kv !! k is Some _ then $"string" else $"none"), kv)
  | ExpireKey k s =>
      match kv !! k with
      | None => (RInteger 0, kv)
      | Some e =>
          if s <=? 0 then (RInteger 1, delete k kv)
          else store_until kExpireError k (val e) (s * 1000) now kv (RInteger 1)
      end
  | TtlOf k =>
      (RInteger (match kv !! k with
                 | None => -2
                 | Some e => match deadline e with None => -1 | Some d => (d - now + 500) / 1000 end
                 end), kv)
  | PersistKey k =>
      match kv !! k with
      | Some (mkEntry v (Some _)) => (RInteger 1, <[k := mkEntry v None]> kv)
      | _ => (RInteger 0, kv)
      end
  | DbSize => (RInteger entries, kv)
  | FlushAll => (RSimple $"OK", ∅)
  | CommandCount => (RInteger 16, kv)
  | CommandDocs => (RArray 0, kv)
  end.

(** One call: a malformed one is answered with its error and changes nothing. *)
Definition respond (now : Z) (entries : Z) (argv : list bytes) (kv : KV) : Reply * KV :=
  match request argv with
  | inl msg => (RError msg, kv)
  | inr r => exec now entries r kv
  end.

Definition closes (argv : list bytes) : bool :=
  match request argv with inr Quit => true | _ => false end.
