(* ===== verification/Refine.v ===== *)
(** * The keyspace a client sees

    [kv_of t d] abstracts the store [d] to the keyspace of [Spec.v] at the time
    [t].  The lemmas restate every operation of [Db] in those terms, with the
    bookkeeping a handler's proof needs ([progress]): how many times the clock
    was read, how many entries were added, and that the store stays well
    formed. *)
From S2P Require Import Prelude Buffer Digits Writer Keyspace Commands Spec.
Import Db (the_db, reads, mkWorld, map_, view, index_ok).

(** ** The abstraction *)
Definition entry_of (v : Value) : Entry :=
  mkEntry (data v) (if has_expiry v then Some (expire_at_ms v) else None).

Definition kv_of (t : Z) (d : Db.Db) : KV := entry_of <$> view t d.

(** Deadlines fit, and so do the lengths of the strings. *)
Definition value_ok (v : Value) : Prop :=
  0 ≤ expire_at_ms v ≤ INT64_MAX ∧ Z.of_nat (length (data v)) ≤ INT64_MAX.

Definition store_ok (d : Db.Db) : Prop :=
  index_ok d ∧ map_Forall (λ _, value_ok) (map_ d).

(** A clock of this era: later than the first half second of 1970 and within
    range. *)
Definition clock_ok (time : nat → Z) : Prop := ∀ i, 500 ≤ time i ≤ INT64_MAX.

Definition frozen (time : nat → Z) (now : Z) (n k : nat) : Prop :=
  ∀ i, (n ≤ i < n + k)%nat → time i = now.

(** ** The visible keyspace *)
Lemma kv_lookup t d k : kv_of t d !! k = entry_of <$> view t d !! k.
Proof. apply lookup_fmap. Qed.

Lemma alive_entry_of t v : alive t (entry_of v) ↔ is_expired v t = false.
Proof.
  unfold alive, is_expired. simpl. destruct (has_expiry v); simpl; [|done].
  split; lia.
Qed.

Lemma kv_put t d k v :
  is_expired v t = false → kv_of t (Db.assign k v d) = <[k := entry_of v]> (kv_of t d).
Proof. intros H. unfold kv_of. by rewrite Db.view_assign, fmap_insert. Qed.

Lemma kv_set_string t d k s e :
  e = kNoExpiry ∨ t < e →
  kv_of t (Db.set_string k s e d) =
    <[k := mkEntry s (if e =? kNoExpiry then None else Some e)]> (kv_of t d).
Proof.
  intros H. set (v := mkValue TString s e).
  assert (is_expired v t = false) as Hv.
  { unfold is_expired, has_expiry. simpl. unfold kNoExpiry in *. lia. }
  unfold kv_of. rewrite Db.view_set_string. unfold Db.put. fold v. rewrite Hv, fmap_insert.
  do 2 f_equal. unfold entry_of, has_expiry. simpl. by destruct (e =? kNoExpiry).
Qed.

Lemma kv_size t d : (size (kv_of t d) ≤ Db.size d)%nat.
Proof. unfold kv_of. rewrite map_size_fmap. apply Db.view_size. Qed.

Lemma view_later t t' d :
  t ≤ t' → view t' d = filter (λ p : bytes * Value, is_expired p.2 t' = false) (view t d).
Proof.
  intros Ht. apply map_eq. intros k. rewrite map_lookup_filter, !Db.view_lookup.
  destruct (map_ d !! k) as [v|]; [|done]. simpl.
  destruct (is_expired v t) eqn:E; simpl.
  - by rewrite (Db.is_expired_mono v t t').
  - case_guard as H; simpl in *; [by rewrite H|]. by destruct (is_expired v t').
Qed.

(** As time passes, a client sees entries disappear at their deadlines. *)
Lemma kv_later t t' d : t ≤ t' → kv_of t' d = forget t' (kv_of t d).
Proof.
  intros Ht. unfold kv_of, forget. rewrite (view_later t t') by done.
  apply map_eq. intros k. rewrite lookup_fmap, !map_lookup_filter, lookup_fmap.
  destruct (view t d !! k) as [v|]; [|done]. simpl.
  pose proof (alive_entry_of t' v) as Ha.
  repeat case_guard; simpl in *; try done; exfalso; tauto.
Qed.

Lemma kv_view_eq t d d' : view t d' = view t d → kv_of t d' = kv_of t d.
Proof. unfold kv_of. by intros ->. Qed.

(** ** Well-formed stores *)
Lemma value_ok_set k v d : map_Forall (λ _, value_ok) (map_ d) → value_ok v →
  map_Forall (λ _, value_ok) (map_ (Db.assign k v d)).
Proof. intros. by apply map_Forall_insert_2. Qed.

Lemma value_ok_sub d d' :
  map_ d' ⊆ map_ d → map_Forall (λ _, value_ok) (map_ d) → map_Forall (λ _, value_ok) (map_ d').
Proof. intros Hs H k v Hk. apply (H k v). by eapply lookup_weaken. Qed.

Lemma store_ok_set_string k s e d :
  store_ok d → 0 ≤ e ≤ INT64_MAX → Z.of_nat (length s) ≤ INT64_MAX →
  store_ok (Db.set_string k s e d).
Proof.
  intros [Hi Hv] He Hs. split; [by apply Db.index_ok_set_string|].
  pose proof (value_ok_set k (mkValue TString s e) d Hv). unfold Db.set_string.
  by destruct (e =? kNoExpiry); apply H.
Qed.

Lemma size_set_string k s e d : (Db.size (Db.set_string k s e d) ≤ S (Db.size d))%nat.
Proof.
  assert (size (<[k:=mkValue TString s e]> (map_ d)) ≤ S (size (map_ d)))%nat.
  { rewrite map_size_insert. destruct (map_ d !! k); simpl; lia. }
  unfold Db.set_string. by destruct (e =? kNoExpiry).
Qed.

(** ** The keyspace operations, as a client sees them *)
Lemma frozen_sub time now n k n' k' :
  frozen time now n k → (n ≤ n')%nat → (n' + k' ≤ n + k)%nat → frozen time now n' k'.
Proof. intros H H1 H2 i Hi. apply H. lia. Qed.

(** [w'] is reachable from [w] by one operation that reads the clock at most [n]
    times and adds at most [m] entries. *)
Record progress (n m : nat) (w w' : Db.World) : Prop := {
  progress_reads : (reads w ≤ reads w' ≤ reads w + n)%nat;
  progress_size : (Db.size (the_db w') ≤ m + Db.size (the_db w))%nat;
  progress_ok : store_ok (the_db w) → store_ok (the_db w');
}.

Lemma progress_refl n m w : progress n m w w.
Proof. split; [lia|lia|done]. Qed.

Lemma progress_trans n m n' m' w w1 w2 :
  progress n m w w1 → progress n' m' w1 w2 → progress (n + n') (m + m') w w2.
Proof. intros [] []. split; [lia|lia|auto]. Qed.

Lemma progress_le n m n' m' w w' :
  progress n m w w' → (n ≤ n')%nat → (m ≤ m')%nat → progress n' m' w w'.
Proof. intros [] ? ?. split; [lia|lia|auto]. Qed.

Section Ops.
Context (time : nat → Z).

Lemma now_frozen now w n : frozen time now (reads w) n → n ≠ 0%nat → time (reads w) = now.
Proof. intros H Hn. apply H. lia. Qed.

Lemma lookup_kv key w :
  let r := Db.lookup time key w in
  progress 1 0 w r.2 ∧
  (∀ now, frozen time now (reads w) 1 →
     kv_of now (the_db r.2) = kv_of now (the_db w) ∧ entry_of <$> r.1 = kv_of now (the_db w) !! key) ∧
  (∀ v, r.1 = Some v → the_db r.2 = the_db w ∧ reads r.2 = S (reads w) ∧ map_ (the_db w) !! key = Some v).
Proof.
  intros r. pose proof (Db.lookup_spec time key w) as (Hr & Hview & Hi & _ & Hreads & Hm).
  fold r in Hr, Hview, Hi, Hreads, Hm. split_and!.
  - pose proof (Db.lookup_cases time key w) as Hc.
    unfold r. destruct (map_ (the_db w) !! key) as [v|] eqn:Ek; simpl in Hc; rewrite Hc.
    2: apply progress_refl.
    destruct (is_expired v (time (reads w))); [|split; simpl; [lia|lia|done]].
    split; simpl; [lia| |].
    + unfold Db.size. simpl. rewrite map_size_delete, Ek. simpl. lia.
    + intros [Hok Hv]. split; [by apply Db.index_ok_reclaim|].
      apply (value_ok_sub (the_db w)); [apply delete_subseteq|done].
  - intros now Hf. pose proof (now_frozen now w _ Hf) as Hnow. rewrite Hnow in Hr, Hview by done.
    split; [apply kv_view_eq, Hview; lia|]. by rewrite kv_lookup, Hr.
  - intros v Hv. rewrite Hv in Hm. destruct Hm as [Hd Hk]. split_and!; [done| |done].
    pose proof (Db.lookup_cases time key w) as Hc. rewrite Hk in Hc. simpl in Hc.
    unfold r in *. rewrite Hc in *. by destruct (is_expired v (time (reads w))).
Qed.

(** Removing, storing and retiming one entry. *)
Lemma progress_remove key w :
  progress 0 0 w (Db.set_db (Db.volatile_erase key (Db.map_erase key (the_db w))) w).
Proof.
  split; simpl; [lia| |].
  - unfold Db.size. simpl. apply map_subseteq_size, delete_subseteq.
  - intros [Hi Hv]. split; [by apply Db.index_ok_erase|].
    apply (value_ok_sub (the_db w)); [apply delete_subseteq|done].
Qed.

Lemma progress_set_string key s e w :
  0 ≤ e ≤ INT64_MAX → Z.of_nat (length s) ≤ INT64_MAX →
  progress 0 1 w (Db.set_db (Db.set_string key s e (the_db w)) w).
Proof.
  intros He Hs. split; simpl; [lia|apply size_set_string|].
  intros H. by apply store_ok_set_string.
Qed.

Lemma index_ok_overwrite key v v' d :
  map_ d !! key = Some v → has_expiry v' = has_expiry v → index_ok d →
  index_ok (Db.assign key v' d).
Proof.
  intros Hk Hv Hi k. simpl. rewrite (Hi k), lookup_insert. case_decide; [subst|done].
  rewrite Hk. split; intros (x & [= <-] & Hx); eexists; (split; [done|congruence]).
Qed.

(** Overwriting an entry in place: the index follows the deadline. *)
Lemma progress_replace key v v' (d : Db.Db) w :
  map_ (the_db w) !! key = Some v → (value_ok v → value_ok v') →
  map_ d = <[key := v']> (map_ (the_db w)) → (index_ok (the_db w) → index_ok d) →
  progress 0 0 w (Db.set_db d w).
Proof.
  intros Hk Hv Hm Hi. split; simpl; [lia| |].
  - unfold Db.size. rewrite Hm, map_size_insert, Hk. simpl. lia.
  - intros [H1 H2]. split; [by apply Hi|]. rewrite Hm.
    apply map_Forall_insert_2; [by apply Hv, (H2 key)|done].
Qed.

Lemma erase_kv key w :
  let r := Db.erase time key w in
  progress 1 0 w r.2 ∧
  (∀ now, frozen time now (reads w) 1 →
     kv_of now (the_db r.2) = delete key (kv_of now (the_db w)) ∧
     r.1 = bool_decide (is_Some (kv_of now (the_db w) !! key))).
Proof.
  intros r. split.
  - unfold r, Db.erase. rewrite bind_run. destruct (lookup_kv key w) as (Hp & _ & _).
    destruct (Db.lookup time key w) as [[v|] w1]; [|done].
    apply (progress_trans 1 0 0 0 _ _ _ Hp). exact (progress_remove key w1).
  - intros now Hf. destruct (Db.erase_spec time key w) as (Hr & Hview & _).
    fold r in Hr, Hview. rewrite (now_frozen now w _ Hf) in Hr, Hview by done. split.
    + unfold kv_of. by rewrite Hview, fmap_delete by lia.
    + rewrite Hr, kv_lookup. apply bool_decide_ext. by rewrite fmap_is_Some.
Qed.

Lemma set_expire_at_kv key e w :
  0 < e ≤ INT64_MAX →
  let r := Db.set_expire_at time key e w in
  progress 1 0 w r.2 ∧
  (∀ now, frozen time now (reads w) 1 → now < e →
     kv_of now (the_db r.2) = match kv_of now (the_db w) !! key with
                              | Some en => <[key := mkEntry (val en) (Some e)]> (kv_of now (the_db w))
                              | None => kv_of now (the_db w)
                              end).
Proof.
  intros He r. split.
  - destruct (lookup_kv key w) as (Hp & _ & Hs). unfold r, Db.set_expire_at. rewrite bind_run.
    destruct (Db.lookup time key w) as [[v|] w1]; [|done].
    destruct (Hs v eq_refl) as (Hd & _ & Hk). simpl in Hd. rewrite <-Hd in Hk.
    apply (progress_trans 1 0 0 0 _ _ _ Hp).
    apply (progress_replace key v (Db.with_deadline e v)
             (Db.volatile_insert key (Db.assign key (Db.with_deadline e v) (the_db w1))) w1);
      [done| |done|].
    + unfold value_ok. simpl. intros [_ Hl]. split; [lia|done].
    + intros Hi. pose proof (Db.index_ok_set key (Db.with_deadline e v) _ Hi) as H.
      unfold has_expiry in H. simpl in H. by rewrite (proj2 (Z.eqb_neq e kNoExpiry)) in H by (unfold kNoExpiry; lia).
  - intros now Hf Hlt. destruct (Db.set_expire_at_spec time key e w) as (_ & Hview & _).
    fold r in Hview. rewrite (now_frozen now w _ Hf) in Hview by done.
    unfold kv_of at 1. rewrite Hview, kv_lookup by lia. unfold kv_of.
    destruct (view now (the_db w) !! key) as [v|]; [|done]. simpl. unfold Db.put.
    assert (Hx : is_expired (Db.with_deadline e v) now = false).
    { unfold is_expired. simpl. lia. }
    rewrite Hx, fmap_insert. do 2 f_equal. unfold entry_of, has_expiry. simpl.
    by rewrite (proj2 (Z.eqb_neq e kNoExpiry)) by (unfold kNoExpiry; lia).
Qed.

Lemma persist_kv key w :
  let r := Db.persist time key w in
  progress 1 0 w r.2 ∧
  (∀ now, frozen time now (reads w) 1 →
     (RInteger (if r.1 then 1 else 0), kv_of now (the_db r.2)) =
       exec now 0 (PersistKey key) (kv_of now (the_db w))).
Proof.
  intros r. split.
  - destruct (lookup_kv key w) as (Hp & _ & Hs). unfold r, Db.persist. rewrite bind_run.
    destruct (Db.lookup time key w) as [[v|] w1]; [|done].
    destruct (Hs v eq_refl) as (Hd & _ & Hk). simpl in Hd. rewrite <-Hd in Hk.
    simpl. destruct (has_expiry v); simpl; [|done].
    apply (progress_trans 1 0 0 0 _ _ _ Hp).
    apply (progress_replace key v (Db.with_deadline kNoExpiry v)
             (Db.volatile_erase key (Db.assign key (Db.with_deadline kNoExpiry v) (the_db w1))) w1);
      [done| |done|].
    + unfold value_ok. simpl. intros [_ Hl]. split; [|done]. unfold kNoExpiry. mach. lia.
    + intros Hi. exact (Db.index_ok_set key (Db.with_deadline kNoExpiry v) _ Hi).
  - intros now Hf. destruct (Db.persist_spec time key w) as (Hr & Hview & _).
    fold r in Hr, Hview. rewrite (now_frozen now w _ Hf) in Hr, Hview by done.
    unfold exec. rewrite Hr, kv_lookup. unfold kv_of at 1. rewrite Hview by lia. unfold kv_of.
    destruct (view now (the_db w) !! key) as [v|]; [|done]. simpl. unfold entry_of at 2.
    destruct (has_expiry v); [|done]. by rewrite fmap_insert.
Qed.

(** What TTL replies, from [pttl]'s milliseconds. *)
Definition ttl_reply (ms : Z) : Z := if ms <? 0 then ms else Z.quot (s64 (ms + 500)) 1000.

Lemma pttl_kv key w :
  clock_ok time → store_ok (the_db w) →
  let r := Db.pttl time key w in
  progress 2 0 w r.2 ∧ in_s64 (ttl_reply r.1) ∧
  (∀ now, frozen time now (reads w) 2 →
     (RInteger (ttl_reply r.1), kv_of now (the_db r.2)) =
       exec now 0 (TtlOf key) (kv_of now (the_db w))).
Proof.
  intros Hc [_ Hok] r. destruct (Db.pttl_spec time key w) as (Hr & Hview & _).
  destruct (lookup_kv key w) as (Hp & _ & Hs). fold r in Hr, Hview.
  assert (Hbound : ∀ v, view (time (reads w)) (the_db w) !! key = Some v →
            0 ≤ expire_at_ms v ≤ INT64_MAX ∧ is_expired v (time (reads w)) = false).
  { intros v. rewrite Db.view_lookup, bind_Some. intros (v' & Hk & Hv).
    destruct (is_expired v' _) eqn:E; simplify_eq. split; [apply (Hok _ _ Hk)|done]. }
  pose proof (Hc (S (reads w))) as Hnow. split_and!.
  - unfold r, Db.pttl. rewrite bind_run. destruct (Db.lookup time key w) as [[v|] w1].
    2: by apply (progress_le 1 0); [|lia|lia].
    simpl. destruct (has_expiry v); simpl; [|by apply (progress_le 1 0); [|lia|lia]].
    apply (progress_trans 1 0 1 0 _ _ _ Hp). split; simpl; [lia|lia|done].
  - destruct (view (time (reads w)) (the_db w) !! key) as [v|] eqn:Ek; [|by rewrite Hr].
    destruct (has_expiry v); rewrite Hr; [|done]. destruct (Hbound v eq_refl) as [Hb _].
    unfold ttl_reply. rewrite s64_small by (mach; lia).
    replace (_ <? 0) with false by lia. rewrite s64_small by (mach; lia).
    rewrite Z.quot_div_nonneg by lia. mach. lia.
  - intros now Hf. rewrite (now_frozen now w _ Hf) in * by done.
    assert (time (S (reads w)) = now) as Hn by (apply Hf; lia). rewrite Hn in *.
    unfold exec. rewrite kv_lookup. f_equal; [f_equal|apply kv_view_eq, Hview; lia].
    destruct (view now (the_db w) !! key) as [v|] eqn:Ek; [|by rewrite Hr].
    destruct (Hbound v eq_refl) as [Hb He]. unfold is_expired in He. simpl.
    destruct (has_expiry v); rewrite Hr; [|done]. simpl in He.
    unfold ttl_reply. rewrite s64_small by (mach; lia).
    replace (_ <? 0) with false by lia. rewrite s64_small by (mach; lia).
    rewrite Z.quot_div_nonneg by lia. f_equal. lia.
Qed.
End Ops.
