(* ===== verification/Handlers.v ===== *)
(** * The handlers implement the specification

    [serves m c n close f] says that the handler [m], started in the context
    [c], reads the clock at most [n] times, adds at most one entry, appends
    exactly one reply, which RESP2 can carry, and leaves [argv] within its
    bounds; and that when the clock stands still while it runs, the reply and
    the keyspace a client sees afterwards are the ones [f] says. *)
From S2P Require Import Prelude Buffer Digits Parser Writer Keyspace Commands Options Spec Refine.
Import Db (the_db, reads, mkWorld, map_, view, index_ok).

(** ** Counting the keys of DEL *)
Lemma del_count (k : bytes) (ks : list bytes) (kv : KV) :
  size (dom kv ∩ list_to_set (k :: ks) : gset bytes) =
    ((if bool_decide (is_Some (kv !! k)) then 1 else 0) +
     size (dom (delete k kv) ∩ list_to_set ks : gset bytes))%nat.
Proof.
  case_bool_decide as Hk.
  - rewrite <-(size_singleton k : size (({[k]} : gset bytes)) = 1%nat), <-size_union by set_solver.
    f_equal. apply set_eq. intros x. rewrite dom_delete. apply elem_of_dom in Hk.
    destruct (decide (x = k)); set_solver.
  - simpl. f_equal. apply set_eq. intros x. rewrite dom_delete.
    rewrite <-elem_of_dom in Hk. destruct (decide (x = k)); set_solver.
Qed.

Lemma del_filter (k : bytes) (ks : list bytes) (kv : KV) :
  filter (λ p : bytes * Entry, p.1 ∉ k :: ks) kv =
    filter (λ p : bytes * Entry, p.1 ∉ ks) (delete k kv).
Proof.
  apply map_eq. intros x. rewrite !map_lookup_filter, lookup_delete.
  destruct (kv !! x); case_decide; simpl; try done; repeat case_guard; set_solver.
Qed.

Section Handlers.
Context {B : Type} `{!ByteQueue B} `{!ByteQueueLaws B} (time : nat → Z) (Hclock : clock_ok time).

Abbreviation Cmd := (ST (CommandContext B)).

Implicit Types (c : CommandContext B) (w : Db.World).

(** ** Running a handler *)
Lemma run_arg {A} i a (f : bytes → Cmd A) c : argv c !! i = Some a → (arg i ≫= f) c = f a c.
Proof. intros H. rewrite bind_run. unfold arg. by rewrite H. Qed.

Lemma run_argc {A} (f : nat → Cmd A) c : (argc ≫= f) c = f (length (argv c)) c.
Proof. done. Qed.

Lemma run_get {A} (f : CommandContext B → Cmd A) c : (get ≫= f) c = f c c.
Proof. done. Qed.

Lemma run_db {X A} (m : ST Db.World X) (f : X → Cmd A) c :
  (db m ≫= f) c = f (m (world c)).1 (with_world (m (world c)).2 c).
Proof. rewrite bind_run. unfold db. by destruct (m (world c)). Qed.

(** ** What a handler's run amounts to *)
Definition serves (m : Cmd unit) c (n : nat) (close : bool) (f : Z → KV → Reply * KV) : Prop :=
  ∃ g r w',
    m c = (tt, mkCtx (argv c) (g (out c)) w' (close_after_reply c || close) (oob c)) ∧
    encodes g r ∧ sendable r ∧ progress n 1 (world c) w' ∧
    ∀ now, frozen time now (reads (world c)) n →
      f now (kv_of now (the_db (world c))) = (r, kv_of now (the_db w')).

(** A handler that replies once the store has moved to [w']. *)
Lemma serves_after m c n k l w' g r f :
  m c = say g (with_world w' c) → encodes g r → sendable r →
  progress k l (world c) w' → (k ≤ n)%nat → (l ≤ 1)%nat →
  (∀ now, frozen time now (reads (world c)) n →
     f now (kv_of now (the_db (world c))) = (r, kv_of now (the_db w'))) →
  serves m c n false f.
Proof.
  intros Hm Hg Hr Hp Hn Hk Hf. exists g, r, w'. split_and!; [|done|done|by eapply progress_le|done].
  rewrite Hm, orb_false_r. done.
Qed.

(** A handler that only replies. *)
Lemma serves_say m c n g r f :
  m c = say g c → encodes g r → sendable r → (∀ now kv, f now kv = (r, kv)) →
  serves m c n false f.
Proof.
  intros Hm Hg Hr Hf.
  apply (serves_after m c n 0 0 (world c) g r f); [by rewrite Hm; destruct c|done|done|
    apply progress_refl|lia|lia|by intros].
Qed.

Ltac run := repeat first
  [ rewrite run_argc | rewrite run_get | rewrite run_db | erewrite run_arg by (match goal with H : argv _ = _ |- _ => by rewrite H end) ].

Definition arg_ok (a : bytes) : Prop := Z.of_nat (length a) ≤ INT64_MAX.

Lemma serves_error m c n msg :
  m c = say (reply.error msg) c → CR ∉ msg → serves m c n false (λ _ kv, (RError msg, kv)).
Proof. intros Hm Hmsg. by apply (serves_say _ _ _ _ _ _ Hm (error_encodes msg)). Qed.

(** *** connection.cpp *)
Lemma do_ping_serves c n cmd :
  argv c = [cmd] → serves do_ping c n false (λ _ kv, (RSimple $"PONG", kv)).
Proof.
  intros Hargv. apply (serves_say _ _ _ (reply.simple_cstr $"PONG") (RSimple $"PONG")); [|..|done].
  - unfold do_ping. run. by rewrite Hargv.
  - apply simple_cstr_encodes. no_cr.
  - simpl. no_cr.
Qed.

Lemma do_ping_message_serves c n cmd m :
  argv c = [cmd; m] → arg_ok m → serves do_ping c n false (λ _ kv, (RBulk m, kv)).
Proof.
  intros Hargv Hm. apply (serves_say _ _ _ (reply.bulk m) (RBulk m)); [|by apply bulk_encodes|done|done].
  unfold do_ping. run. rewrite Hargv. simpl. by run.
Qed.

Lemma do_ping_arity_serves c n cmd a b l :
  argv c = cmd :: a :: b :: l →
  serves do_ping c n false (λ _ kv, (RError (wrong_arity $"ping"), kv)).
Proof.
  intros Hargv. apply serves_error; [|no_cr]. unfold do_ping. run. by rewrite Hargv.
Qed.

Lemma do_echo_serves c n cmd m :
  argv c = [cmd; m] → arg_ok m → serves do_echo c n false (λ _ kv, (RBulk m, kv)).
Proof.
  intros Hargv Hm. apply (serves_say _ _ _ (reply.bulk m) (RBulk m)); [|by apply bulk_encodes|done|done].
  unfold do_echo. by run.
Qed.

Lemma do_quit_serves c n : serves do_quit c n true (λ _ kv, (RSimple $"OK", kv)).
Proof.
  exists reply.ok, (RSimple $"OK"), (world c).
  split_and!; [|apply ok_encodes|simpl; no_cr|apply progress_refl|by intros].
  unfold do_quit. rewrite bind_run. simpl. by rewrite orb_true_r.
Qed.

(** *** string.cpp: GET, INCR, DECR *)
Lemma do_get_serves c cmd key :
  argv c = [cmd; key] → store_ok (the_db (world c)) →
  serves (do_get time) c 1 false (λ now kv, exec now 0 (GetKey key) kv).
Proof.
  intros Hargv [_ Hok]. destruct (lookup_kv time key (world c)) as (Hp & Hkv & Hs).
  pose (v := (Db.lookup time key (world c)).1).
  apply (serves_after _ _ _ 1 0 (Db.lookup time key (world c)).2
           (match v with Some v => reply.bulk (data v) | None => reply.null_bulk end)
           (from_option (RBulk ∘ data) RNull v)); [..|done|lia|lia|].
  - unfold do_get. run. fold v. by destruct v as [[[] ? ?]|].
  - destruct v as [v'|] eqn:E; [|apply null_bulk_encodes]. apply bulk_encodes.
    apply (Hok key), (Hs v' E).
  - destruct v as [v'|] eqn:E; [|done]. apply (Hok key), (Hs v' E).
  - intros now Hf. destruct (Hkv now Hf) as [-> He]. simpl. rewrite <-He. fold v. by destruct v.
Qed.

Lemma fits_int64 n : in_s64 n → Z.of_nat (length (std_to_string n)) ≤ INT64_MAX.
Proof.
  intros Hn. rewrite <-format_int_std_to_string by done.
  pose proof (format_int_length n Hn). mach. lia.
Qed.

Lemma incr_overflow delta n :
  delta = 1 ∨ delta = -1 → in_s64 n →
  (if 0 <? delta then s64 (INT64_MAX - delta) <? n else n <? s64 (INT64_MIN - delta)) =
    ((n + delta <? INT64_MIN) || (INT64_MAX <? n + delta)).
Proof.
  intros [-> | ->] Hn.
  - change (0 <? 1) with true. cbv iota. rewrite s64_small by (mach; lia). mach. lia.
  - change (0 <? -1) with false. cbv iota. rewrite s64_small by (mach; lia). mach. lia.
Qed.

(** INCR on a key that holds an entry. *)
Lemma incr_present c cmd key delta s e w1 :
  delta = 1 ∨ delta = -1 → argv c = [cmd; key] → store_ok (the_db (world c)) →
  Db.lookup time key (world c) = (Some (mkValue TString s e), w1) →
  serves (incr_by time delta) c 1 false (λ now kv, exec now 0 (AddKey key delta) kv).
Proof.
  intros Hd Hargv Hok E. assert (in_s64 delta) as Hd64 by (mach; lia).
  destruct (lookup_kv time key (world c)) as (Hp & Hkv & Hs). rewrite E in *. simpl in *.
  destruct (Hs _ eq_refl) as (Hdb & _ & Hk).
  assert (kv_entry : ∀ now, frozen time now (reads (world c)) 1 →
    kv_of now (the_db (world c)) !! key = Some (entry_of (mkValue TString s e)) ∧
    is_expired (mkValue TString s e) now = false).
  { intros now Hf. destruct (Hkv now Hf) as [_ He]. split; [by symmetry|].
    rewrite kv_lookup, Db.view_lookup, Hk in He. simpl in He. by destruct (is_expired _ now). }
  destruct (string_to_int64 s) as [n|] eqn:En.
  2: { apply (serves_after _ _ _ 1 0 w1 (reply.error err.kNotInteger) (RError err.kNotInteger));
         [|apply error_encodes|simpl; no_cr|done|lia|lia|].
       - unfold incr_by. run. rewrite E. simpl. by rewrite En.
       - intros now Hf. destruct (kv_entry now Hf) as [He _]. simpl. rewrite He. simpl.
         rewrite En. by destruct (Hkv now Hf) as [-> _]. }
  pose proof (string_to_int64_range s n En) as Hn. pose proof (incr_overflow delta n Hd Hn) as Ho.
  destruct ((n + delta <? INT64_MIN) || (INT64_MAX <? n + delta)) eqn:Eo.
  { apply (serves_after _ _ _ 1 0 w1 (reply.error kOverflow) (RError kOverflow));
      [|apply error_encodes|simpl; no_cr|done|lia|lia|].
    - unfold incr_by. run. rewrite E. simpl. by rewrite En, Ho.
    - intros now Hf. destruct (kv_entry now Hf) as [He _]. simpl. rewrite He. simpl.
      rewrite En, Eo. by destruct (Hkv now Hf) as [-> _]. }
  assert (in_s64 (n + delta)) as Hn' by (mach; lia).
  pose (v' := mkValue TString (std_to_string (n + delta)) e).
  apply (serves_after _ _ _ (1 + 0) (0 + 0) (Db.set_db (Db.assign key v' (the_db w1)) w1)
           (reply.integer (n + delta)) (RInteger (n + delta)));
    [|by apply integer_encodes|done| |lia|lia|].
  - unfold incr_by. run. rewrite E. simpl. rewrite En, Ho, s64_small by done. by run.
  - apply (progress_trans 1 0 0 0 _ _ _ Hp). rewrite <-Hdb in Hk.
    apply (progress_replace key (mkValue TString s e) v' _ w1); [done| |done|].
    + intros [He _]. split; [done|by apply fits_int64].
    + intros Hi. by apply (index_ok_overwrite key (mkValue TString s e)).
  - intros now Hf. destruct (kv_entry now Hf) as [He Hx]. simpl. rewrite He. simpl.
    rewrite En, Eo, kv_put by exact Hx. by destruct (Hkv now Hf) as [-> _].
Qed.

(** INCR on a key that holds none counts from zero. *)
Lemma incr_absent c cmd key delta w1 :
  delta = 1 ∨ delta = -1 → argv c = [cmd; key] → Db.lookup time key (world c) = (None, w1) →
  serves (incr_by time delta) c 1 false (λ now kv, exec now 0 (AddKey key delta) kv).
Proof.
  intros Hd Hargv E. assert (in_s64 delta) as Hd64 by (mach; lia).
  destruct (lookup_kv time key (world c)) as (Hp & Hkv & _). rewrite E in *. simpl in *.
  apply (serves_after _ _ _ (1 + 0) (0 + 1)
           (Db.set_db (Db.set_string key (std_to_string delta) kNoExpiry (the_db w1)) w1)
           (reply.integer delta) (RInteger delta));
    [|by apply integer_encodes|done| |lia|lia|].
  - unfold incr_by. run. rewrite E. simpl. by run.
  - apply (progress_trans 1 0 0 1 _ _ _ Hp), progress_set_string;
      [unfold kNoExpiry; mach; lia|by apply fits_int64].
  - intros now Hf. destruct (Hkv now Hf) as [Hsame He]. simpl. rewrite <-He. simpl.
    rewrite kv_set_string by (by left). by rewrite Hsame.
Qed.

Lemma incr_by_serves c cmd key delta :
  delta = 1 ∨ delta = -1 → argv c = [cmd; key] → store_ok (the_db (world c)) →
  serves (incr_by time delta) c 1 false (λ now kv, exec now 0 (AddKey key delta) kv).
Proof.
  intros Hd Hargv Hok. destruct (Db.lookup time key (world c)) as [[[[] s e]|] w1] eqn:E.
  - by eapply incr_present.
  - by eapply incr_absent.
Qed.

(** *** keyspace.cpp *)
Lemma del_loop_run (ks : list bytes) n c :
  0 ≤ n → n + Z.of_nat (length ks) ≤ INT64_MAX →
  ∃ n' w', del_loop time ks n c = (n', with_world w' c) ∧
    progress (length ks) 0 (world c) w' ∧ n ≤ n' ≤ n + Z.of_nat (length ks) ∧
    ∀ now, frozen time now (reads (world c)) (length ks) →
      let kv := kv_of now (the_db (world c)) in
      n' = n + Z.of_nat (size (dom kv ∩ list_to_set ks : gset bytes)) ∧
      kv_of now (the_db w') = filter (λ p : bytes * Entry, p.1 ∉ ks) kv.
Proof.
  revert n c. induction ks as [|k ks IH]; intros n c Hn Hb; simpl in *.
  - exists n, (world c). split_and!; [by destruct c|apply progress_refl|lia|lia|].
    intros now _. rewrite (intersection_empty_r_L (dom _)), size_empty. split; [lia|].
    symmetry. apply map_filter_id. set_solver.
  - rewrite run_db. destruct (erase_kv time k (world c)) as [Hp Hkv].
    destruct (Db.erase time k (world c)) as [ok w1]; simpl in *.
    rewrite s64_small by (mach; lia). set (n1 := if ok then n + 1 else n).
    destruct (IH n1 (with_world w1 c)) as (n' & w' & Hrun & Hp' & Hb' & Hkv');
      [destruct ok; lia..|]. simpl in *.
    exists n', w'. split_and!; [exact Hrun|exact (progress_trans 1 0 _ 0 _ _ _ Hp Hp')|destruct ok; lia..|].
    intros now Hf. destruct (Hkv now) as [Hk1 Hok]; [eapply frozen_sub; [done|lia..]|].
    destruct (Hkv' now) as [Hn' Hk']; [eapply frozen_sub; [done|destruct Hp; lia..]|].
    rewrite Hk1 in Hn', Hk'. rewrite Hk', del_filter. split; [|done].
    change (n' = n + Z.of_nat (size (dom (kv_of now (the_db (world c))) ∩ list_to_set (k :: ks) : gset bytes))).
    rewrite Hn', del_count, <-Hok. unfold n1. destruct ok; lia.
Qed.

Lemma do_del_serves c cmd keys :
  argv c = cmd :: keys → Z.of_nat (length keys) ≤ INT64_MAX →
  serves (do_del time) c (length keys) false (λ now kv, exec now 0 (DelKeys keys) kv).
Proof.
  intros Hargv Hl. destruct (del_loop_run keys 0 c) as (n & w' & Hrun & Hp & Hb & Hkv); [lia|lia|].
  apply (serves_after _ _ _ (length keys) 0 w' (reply.integer n) (RInteger n));
    [|apply integer_encodes; mach; lia|simpl; mach; lia|done|lia|lia|].
  - unfold do_del. run. rewrite bind_run, Hargv. simpl. by rewrite drop_0, Hrun.
  - intros now Hf. destruct (Hkv now Hf) as [-> ->]. done.
Qed.

Lemma exists_loop_run (ks : list bytes) n c :
  0 ≤ n → n + Z.of_nat (length ks) ≤ INT64_MAX →
  ∃ n' w', exists_loop time ks n c = (n', with_world w' c) ∧
    progress (length ks) 0 (world c) w' ∧ n ≤ n' ≤ n + Z.of_nat (length ks) ∧
    ∀ now, frozen time now (reads (world c)) (length ks) →
      let kv := kv_of now (the_db (world c)) in
      n' = n + Z.of_nat (length (filter (λ k, is_Some (kv !! k)) ks)) ∧
      kv_of now (the_db w') = kv.
Proof.
  revert n c. induction ks as [|k ks IH]; intros n c Hn Hb; simpl in *.
  - exists n, (world c). split_and!; [by destruct c|apply progress_refl|lia|lia|].
    intros now _. split; [lia|done].
  - rewrite run_db. destruct (lookup_kv time k (world c)) as (Hp & Hkv & _).
    destruct (Db.lookup time k (world c)) as [v w1]; simpl in *.
    rewrite s64_small by (mach; lia). set (n1 := if bool_decide (is_Some v) then n + 1 else n).
    destruct (IH n1 (with_world w1 c)) as (n' & w' & Hrun & Hp' & Hb' & Hkv');
      [unfold n1; destruct (bool_decide _); lia..|]. simpl in *.
    exists n', w'. split_and!; [exact Hrun|exact (progress_trans 1 0 _ 0 _ _ _ Hp Hp')|
      unfold n1 in *; destruct (bool_decide _); lia..|].
    intros now Hf. destruct (Hkv now) as [Hk1 Hok]; [eapply frozen_sub; [done|lia..]|].
    destruct (Hkv' now) as [Hn' Hk']; [eapply frozen_sub; [done|destruct Hp; lia..]|].
    rewrite Hk1 in Hn', Hk'. split; [|done]. rewrite Hn', filter_cons, <-Hok.
    unfold n1. destruct v; simpl; lia.
Qed.

Lemma do_exists_serves c cmd keys :
  argv c = cmd :: keys → Z.of_nat (length keys) ≤ INT64_MAX →
  serves (do_exists time) c (length keys) false (λ now kv, exec now 0 (ExistsKeys keys) kv).
Proof.
  intros Hargv Hl. destruct (exists_loop_run keys 0 c) as (n & w' & Hrun & Hp & Hb & Hkv); [lia|lia|].
  apply (serves_after _ _ _ (length keys) 0 w' (reply.integer n) (RInteger n));
    [|apply integer_encodes; mach; lia|simpl; mach; lia|done|lia|lia|].
  - unfold do_exists. run. rewrite bind_run, Hargv. simpl. by rewrite drop_0, Hrun.
  - intros now Hf. destruct (Hkv now Hf) as [-> ->]. done.
Qed.

Lemma do_type_serves c cmd key :
  argv c = [cmd; key] → serves (do_type time) c 1 false (λ now kv, exec now 0 (TypeOf key) kv).
Proof.
  intros Hargv. destruct (lookup_kv time key (world c)) as (Hp & Hkv & _).
  destruct (Db.lookup time key (world c)) as [v w1] eqn:E; simpl in *.
  set (s := match v with Some _ => $"string" | None => $"none" end).
  apply (serves_after _ _ _ 1 0 w1 (reply.simple_cstr s) (RSimple s)); [..|done|lia|lia|].
  - unfold do_type. run. rewrite E. simpl. by destruct v as [[[] ? ?]|].
  - apply simple_cstr_encodes. destruct v; no_cr.
  - destruct v; simpl; no_cr.
  - intros now Hf. destruct (Hkv now Hf) as [-> He]. simpl. rewrite <-He. by destruct v.
Qed.

Lemma do_ttl_serves c cmd key :
  argv c = [cmd; key] → store_ok (the_db (world c)) →
  serves (do_ttl time) c 2 false (λ now kv, exec now 0 (TtlOf key) kv).
Proof.
  intros Hargv Hok. destruct (pttl_kv time key (world c) Hclock Hok) as (Hp & Hr & Hkv).
  destruct (Db.pttl time key (world c)) as [ms w1] eqn:E; simpl in *.
  apply (serves_after _ _ _ 2 0 w1 (reply.integer (ttl_reply ms)) (RInteger (ttl_reply ms)));
    [|by apply integer_encodes|done|done|lia|lia|by intros; rewrite Hkv].
  unfold do_ttl. run. rewrite E. simpl. unfold ttl_reply. by destruct (ms <? 0).
Qed.

Lemma do_persist_serves c cmd key :
  argv c = [cmd; key] → serves (do_persist time) c 1 false (λ now kv, exec now 0 (PersistKey key) kv).
Proof.
  intros Hargv. destruct (persist_kv time key (world c)) as (Hp & Hkv).
  destruct (Db.persist time key (world c)) as [ok w1] eqn:E; simpl in *.
  apply (serves_after _ _ _ 1 0 w1 (reply.integer (if ok then 1 else 0)) (RInteger (if ok then 1 else 0)));
    [|apply integer_encodes; by destruct ok|by destruct ok|done|lia|lia|].
  - unfold do_persist. run. by rewrite E.
  - intros now Hf. by rewrite <-Hkv.
Qed.

(** What EXPIRE does to a key that [lookup] has found. *)
Lemma do_expire_found_run c cmd key a s v w1 :
  argv c = [cmd; key; a] → string_to_int64 a = Some s → 0 < s →
  Db.lookup time key (world c) = (Some v, w1) →
  let now := time (reads w1) in
  let w2 := mkWorld (the_db w1) (S (reads w1)) in
  do_expire time c =
    if INT64_MAX <? now + s * 1000 then say (reply.error kExpireError) (with_world w2 c)
    else say (reply.integer 1) (with_world (Db.set_expire_at time key (now + s * 1000) w2).2 c).
Proof.
  intros Hargv Ha Hs E now w2. pose proof (Hclock (reads w1)) as Hnow. fold now in Hnow.
  unfold do_expire. run. rewrite Ha. run. rewrite E. simpl.
  replace (s <=? 0) with false by lia. run. simpl. fold now.
  rewrite ttl_to_deadline_positive by lia. destruct (INT64_MAX <? _); [done|]. by run.
Qed.

Lemma do_expire_found_serves c cmd key a s v w1 :
  argv c = [cmd; key; a] → string_to_int64 a = Some s → 0 < s →
  Db.lookup time key (world c) = (Some v, w1) →
  serves (do_expire time) c 3 false (λ now kv, exec now 0 (ExpireKey key s) kv).
Proof.
  intros Hargv Ha Hs E. destruct (lookup_kv time key (world c)) as (Hp & Hkv & Hv).
  pose proof (do_expire_found_run c cmd key a s v w1 Hargv Ha Hs E) as Hrun. cbv zeta in Hrun.
  rewrite E in Hp, Hkv, Hv. simpl in *. destruct (Hv v eq_refl) as (Hdb & Hrd & _).
  set (now1 := time (reads w1)) in *. pose proof (Hclock (reads w1)) as Hnow. fold now1 in Hnow.
  set (w2 := mkWorld (the_db w1) (S (reads w1))) in *.
  assert (progress 2 0 (world c) w2) as Hp2.
  { apply (progress_trans 1 0 1 0 _ w1 _ Hp). split; simpl; [lia|lia|done]. }
  assert (Hnow1 : ∀ now, frozen time now (reads (world c)) 3 → now1 = now) by (intros now Hf; apply Hf; lia).
  assert (Hsame : ∀ now, frozen time now (reads (world c)) 3 →
    kv_of now (the_db w1) = kv_of now (the_db (world c)) ∧
    Some (entry_of v) = kv_of now (the_db (world c)) !! key).
  { intros now Hf. apply Hkv. eapply frozen_sub; [done|lia..]. }
  destruct (Z.ltb_spec INT64_MAX (now1 + s * 1000)) as [Ho|Ho].
  - apply (serves_after _ _ _ 2 0 w2 (reply.error kExpireError) (RError kExpireError));
      [done|apply error_encodes|simpl; no_cr|done|lia|lia|].
    intros now Hf. destruct (Hsame now Hf) as [Hkv1 He]. rewrite (Hnow1 now Hf) in *.
    unfold exec, store_until. rewrite <-He. replace (s <=? 0) with false by lia.
    replace (INT64_MAX <? _) with true by lia. simpl. by rewrite Hkv1.
  - destruct (set_expire_at_kv time key (now1 + s * 1000) w2) as [Hp3 Hkv3]; [lia|].
    apply (serves_after _ _ _ (2 + 1) (0 + 0) (Db.set_expire_at time key (now1 + s * 1000) w2).2
             (reply.integer 1) (RInteger 1));
      [done|by apply integer_encodes|done|by eapply progress_trans|lia|lia|].
    intros now Hf. destruct (Hsame now Hf) as [Hkv1 He]. rewrite (Hnow1 now Hf) in *.
    rewrite (Hkv3 now); [|simpl; eapply frozen_sub; [done|lia..]|lia].
    unfold exec, store_until. change (the_db w2) with (the_db w1). rewrite Hkv1, <-He.
    replace (s <=? 0) with false by lia. by replace (INT64_MAX <? _) with false by lia.
Qed.

Lemma do_expire_serves c cmd key a s :
  argv c = [cmd; key; a] → string_to_int64 a = Some s →
  serves (do_expire time) c 3 false (λ now kv, exec now 0 (ExpireKey key s) kv).
Proof.
  intros Hargv Ha. destruct (Db.lookup time key (world c)) as [[v|] w1] eqn:E.
  - destruct (Z.leb_spec s 0) as [Hs|Hs]; [|by eapply do_expire_found_serves].
    destruct (lookup_kv time key (world c)) as (Hp & Hkv & _). rewrite E in Hp, Hkv. simpl in *.
    destruct (erase_kv time key w1) as [Hp2 Hkv2].
    apply (serves_after _ _ _ (1 + 1) (0 + 0) (Db.erase time key w1).2 (reply.integer 1) (RInteger 1));
      [|by apply integer_encodes|done|by eapply progress_trans|lia|lia|].
    + unfold do_expire. run. rewrite Ha. run. rewrite E. simpl.
      replace (s <=? 0) with true by lia. by run.
    + intros now Hf. destruct (Hkv now) as [Hk1 He]; [eapply frozen_sub; [done|lia..]|].
      destruct (Hkv2 now) as [Hk2 _]; [eapply frozen_sub; [done|destruct Hp; lia..]|].
      simpl. rewrite <-He. simpl. replace (s <=? 0) with true by lia. by rewrite Hk2, Hk1.
  - destruct (lookup_kv time key (world c)) as (Hp & Hkv & _). rewrite E in Hp, Hkv. simpl in *.
    apply (serves_after _ _ _ 1 0 w1 (reply.integer 0) (RInteger 0));
      [|by apply integer_encodes|done|done|lia|lia|].
    + unfold do_expire. run. rewrite Ha. run. by rewrite E.
    + intros now Hf. destruct (Hkv now) as [Hk1 He]; [eapply frozen_sub; [done|lia..]|].
      simpl. rewrite <-He. simpl. by rewrite Hk1.
Qed.

Lemma do_expire_syntax_serves c n cmd key a :
  argv c = [cmd; key; a] → string_to_int64 a = None →
  serves (do_expire time) c n false (λ _ kv, (RError err.kNotInteger, kv)).
Proof.
  intros Hargv Ha. apply serves_error; [|no_cr].
  unfold do_expire. run. by rewrite Ha.
Qed.

(** *** server.cpp *)
Lemma do_dbsize_serves c n :
  let entries := s64 (Z.of_nat (Db.size (the_db (world c)))) in
  serves do_dbsize c n false (λ now kv, exec now entries DbSize kv).
Proof.
  intros entries. pose proof (s64_range (Z.of_nat (Db.size (the_db (world c))))).
  by apply (serves_say _ _ _ (reply.integer entries) (RInteger entries)); [|apply integer_encodes|..].
Qed.

Lemma do_flushall_serves c n cmd args :
  argv c = cmd :: args →
  (args = [] ∨ ∃ o, args = [o] ∧ (to_lower_ascii o = $"async" ∨ to_lower_ascii o = $"sync")) →
  serves do_flushall c n false (λ now kv, exec now 0 FlushAll kv).
Proof.
  intros Hargv Hargs.
  apply (serves_after _ _ _ 0 0 (Db.set_db (Db.clear (the_db (world c))) (world c)) reply.ok (RSimple $"OK"));
    [|apply ok_encodes|simpl; no_cr| |lia|lia|].
  - unfold do_flushall. run. destruct Hargs as [-> | (o & -> & Ho)]; rewrite Hargv; simpl; [by run|].
    run. rewrite !(bool_decide_not (_ = _)). rewrite <-negb_orb, <-bool_decide_or.
    rewrite bool_decide_eq_true_2 by done. simpl. by run.
  - split; simpl; [lia|unfold Db.size; simpl; rewrite map_size_empty; lia|].
    intros _. split; [|by apply map_Forall_empty]. intros k. simpl. split; [set_solver|].
    intros (v & Hv & _). by rewrite lookup_empty in Hv.
  - done.
Qed.

Lemma do_flushall_syntax_serves c n cmd args :
  argv c = cmd :: args → args ≠ [] →
  (∀ o, args = [o] → to_lower_ascii o ≠ $"async" ∧ to_lower_ascii o ≠ $"sync") →
  serves do_flushall c n false (λ _ kv, (RError err.kSyntax, kv)).
Proof.
  intros Hargv Hne Ho. apply serves_error; [|no_cr]. unfold do_flushall. run. rewrite Hargv.
  destruct args as [|o [|b l]]; [done| |done]. simpl. run.
  destruct (Ho o eq_refl) as [H1 H2]. by rewrite !bool_decide_eq_true_2.
Qed.

Lemma do_command_count_serves c n cmd o l :
  argv c = cmd :: o :: l → to_lower_ascii o = $"count" →
  serves do_command c n false (λ now kv, exec now 0 CommandCount kv).
Proof.
  intros Hargv Ho. eapply (serves_say _ _ _ (reply.integer 16)); [|by apply integer_encodes|done|done].
  unfold do_command. run. rewrite Hargv. simpl. run. rewrite bool_decide_eq_true_2 by done.
  unfold table_size. by rewrite instance_size.
Qed.

Lemma do_command_docs_serves c n cmd l :
  argv c = cmd :: l → (∀ o, head l = Some o → to_lower_ascii o ≠ $"count") →
  serves do_command c n false (λ now kv, exec now 0 CommandDocs kv).
Proof.
  intros Hargv Ho. eapply (serves_say _ _ _ (reply.array_header 0)); [|by apply array_header_encodes|done|done].
  unfold do_command. run. rewrite Hargv. destruct l as [|o l]; [done|]. simpl. run.
  by rewrite bool_decide_eq_false_2 by (by apply Ho).
Qed.

(** *** string.cpp: SET *)
Lemma do_set_syntax_serves c n cmd key value opts msg :
  argv c = cmd :: key :: value :: opts → set_options opts no_options = inl msg →
  serves (do_set time) c n false (λ _ kv, (RError msg, kv)).
Proof.
  intros Hargv Hopts. apply serves_error; [|by eapply set_options_error].
  unfold do_set. run. rewrite Hargv. simpl. unfold no_options in Hopts. by rewrite drop_0, Hopts.
Qed.

Lemma refused_cond o b : options_ok o → (nx o && b) || (xx o && negb b) = refused (condition_of o) b.
Proof.
  intros [Ho _]. unfold condition_of. destruct (nx o), (xx o); simpl in *; try done.
  - apply orb_false_r.
Qed.

(** The end of SET, once the condition holds: the store of the value. *)
Definition set_store (now : Z) (key value : bytes) (ttl : option Z) w : Reply * Db.World :=
  match ttl with
  | None => (RSimple $"OK", Db.set_db (Db.set_string key value kNoExpiry (the_db w)) w)
  | Some ms =>
      let w := mkWorld (the_db w) (S (reads w)) in
      if INT64_MAX <? now + ms then (RError kSetExpireError, w)
      else (RSimple $"OK", Db.set_db (Db.set_string key value (now + ms) (the_db w)) w)
  end.

(** How often that reads the clock. *)
Definition ttl_reads (o : SetOptions) : nat := if ttl_of o is Some _ then 1 else 0.

Lemma do_set_run c cmd key value opts o :
  argv c = cmd :: key :: value :: opts → set_options opts no_options = inr o → options_ok o →
  let '(v, w1) := Db.lookup time key (world c) in
  let '(r, w2) := set_store (time (reads w1)) key value (ttl_of o) w1 in
  do_set time c =
    if refused (condition_of o) (bool_decide (is_Some v)) then say reply.null_bulk (with_world w1 c)
    else say (match r with RError m => reply.error m | _ => reply.ok end) (with_world w2 c).
Proof.
  intros Hargv Hopts Hok. destruct (Db.lookup time key (world c)) as [v w1] eqn:E.
  destruct (set_store _ _ _ _ w1) as [r w2] eqn:Es. unfold do_set. run. rewrite Hargv.
  change (set_options (drop 3 _) _) with (set_options opts no_options). rewrite Hopts. run. rewrite E. simpl.
  rewrite refused_cond by done. destruct (refused _ _); [done|]. unfold set_store, ttl_of in Es.
  destruct (has_ttl o) eqn:Eh.
  - destruct (options_ok_ttl o Hok Eh) as [Ha Hu]. pose proof (Hclock (reads w1)).
    rewrite bind_run, run_db. simpl. rewrite ttl_to_deadline_positive by lia.
    destruct (INT64_MAX <? _); simplify_eq; [done|].
    erewrite run_arg by (simpl; by rewrite Hargv). by run.
  - simplify_eq. rewrite bind_run. simpl. erewrite run_arg by (simpl; by rewrite Hargv). by run.
Qed.

Lemma set_store_ok key value o w r w2 :
  options_ok o → arg_ok value → set_store (time (reads w)) key value (ttl_of o) w = (r, w2) →
  sendable r ∧ encodes (match r with RError m => reply.error m | _ => reply.ok end : B → B) r ∧
  progress (ttl_reads o) 1 w w2 ∧
  ∀ t kv, ttl_of o = None ∨ t = time (reads w) → kv_of t (the_db w) = kv →
    (r, kv_of t (the_db w2)) =
    match ttl_of o with
    | None => (RSimple $"OK", <[key := mkEntry value None]> kv)
    | Some ms => store_until kSetExpireError key value ms t kv (RSimple $"OK")
    end.
Proof.
  intros Hok Hv Hs. pose proof (Hclock (reads w)) as Hnow. unfold set_store, ttl_reads, ttl_of in *.
  set (now := time (reads w)) in *. destruct (has_ttl o) eqn:Eh.
  - destruct (options_ok_ttl o Hok Eh) as [Ha Hu].
    set (w1 := mkWorld (the_db w) (S (reads w))) in *. unfold store_until.
    assert (progress 1 0 w w1) as Hp by (split; simpl; [lia|lia|done]).
    assert (0 < amount o * unit_ms o) by lia.
    destruct (Z.ltb_spec INT64_MAX (now + amount o * unit_ms o)); simplify_eq.
    + split_and!; [simpl; no_cr|apply error_encodes|by apply (progress_le 1 0); [|lia|lia]|].
      intros t kv [?|Et] <-; [done|]. subst t. by replace (INT64_MAX <? _) with true by lia.
    + split_and!; [simpl; no_cr|apply ok_encodes| |].
      * apply (progress_trans 1 0 0 1 _ w1); [done|]. apply progress_set_string; [lia|done].
      * intros t kv [?|Et] <-; [done|]. subst t. replace (INT64_MAX <? _) with false by lia.
        simpl. rewrite kv_set_string by lia. replace (_ =? kNoExpiry) with false; [done|].
        unfold kNoExpiry. lia.
  - simplify_eq. split_and!; [simpl; no_cr|apply ok_encodes| |].
    + apply progress_set_string; [unfold kNoExpiry; mach; lia|done].
    + intros t kv _ <-. simpl. rewrite kv_set_string by (by left). done.
Qed.

Lemma do_set_serves c cmd key value opts o :
  argv c = cmd :: key :: value :: opts → set_options opts no_options = inr o → arg_ok value →
  serves (do_set time) c (1 + ttl_reads o) false (λ now kv, exec now 0 (SetKey key value (condition_of o) (ttl_of o)) kv).
Proof.
  intros Hargv Hopts Hv.
  assert (options_ok o) as Hok by (apply set_options_iff in Hopts as (l & _ & Hl); by eapply meaning_ok).
  pose proof (do_set_run c cmd key value opts o Hargv Hopts Hok) as Hrun.
  destruct (lookup_kv time key (world c)) as (Hp & Hkv & _).
  destruct (Db.lookup time key (world c)) as [v w1]. simpl in Hp, Hkv.
  destruct (set_store _ _ _ _ w1) as [r w2] eqn:Es.
  destruct (set_store_ok key value o w1 r w2 Hok Hv Es) as (Hr & He & Hp2 & Hkv2).
  assert (Hcond : ∀ now, frozen time now (reads (world c)) (1 + ttl_reads o) →
    bool_decide (is_Some v) = bool_decide (is_Some (kv_of now (the_db (world c)) !! key))).
  { intros now Hf. destruct (Hkv now) as [_ <-]; [eapply frozen_sub; [done|lia..]|].
    apply bool_decide_ext. by rewrite fmap_is_Some. }
  destruct (refused (condition_of o) (bool_decide (is_Some v))) eqn:Er.
  - apply (serves_after _ _ _ 1 0 w1 reply.null_bulk RNull);
      [done|apply null_bulk_encodes|done|done|lia|lia|].
    intros now Hf. simpl. rewrite <-(Hcond now Hf), Er.
    destruct (Hkv now) as [-> _]; [eapply frozen_sub; [done|lia..]|done].
  - apply (serves_after _ _ _ (1 + ttl_reads o) (0 + 1) w2 _ r _ Hrun He Hr);
      [by eapply progress_trans|lia|lia|].
    intros now Hf. simpl. rewrite <-(Hcond now Hf), Er.
    destruct (Hkv now) as [Hk1 _]; [eapply frozen_sub; [done|lia..]|].
    symmetry. apply Hkv2; [|done]. destruct (ttl_of o) eqn:Et; [right|by left].
    symmetry. apply Hf. unfold ttl_reads. rewrite Et. destruct Hp; lia.
Qed.
End Handlers.
