(* ===== verification/Dispatch.v ===== *)
(** * Dispatch implements the specification

    [dispatch_serves] puts the handlers' lemmas together: whatever argument
    vector the parser hands over, [CommandTable::dispatch] answers as
    [Spec.respond] says.  The unknown-command error is treated apart, because
    it echoes bytes of the client that RESP2 cannot carry in an error line. *)
From S2P Require Import Prelude Buffer Digits Parser Writer Keyspace Commands Options Spec Refine.
From S2P Require Import Handlers.
Import Db (the_db, reads, mkWorld, map_, view, index_ok).

(** What the parser guarantees of an argument vector (see [call_ok]). *)
Definition args_ok (args : list bytes) : Prop :=
  args ≠ [] ∧ Forall arg_ok args ∧ Z.of_nat (length args) < 2 ^ 31.

(** The unknown-command error is one line. *)
Definition echo_safe (args : list bytes) : Prop :=
  find (nth 0 args []) = None → CR ∉ unknown_command args.

(** How often a call reads the clock, at most. *)
Definition clock_reads (args : list bytes) : nat :=
  match request args with
  | inl _ => 0
  | inr r =>
      match r with
      | GetKey _ | AddKey _ _ | TypeOf _ | PersistKey _ | SetKey _ _ _ None => 1
      | SetKey _ _ _ (Some _) | TtlOf _ => 2
      | ExpireKey _ _ => 3
      | DelKeys ks | ExistsKeys ks => length ks
      | _ => 0
      end
  end.

Section Dispatch.
Context {B : Type} `{!ByteQueue B} `{!ByteQueueLaws B} (time : nat → Z) (Hclock : clock_ok time).

Implicit Types (c : CommandContext B).

Lemma dispatch_run c a0 args :
  argv c = a0 :: args → Z.of_nat (length (a0 :: args)) < 2 ^ 31 →
  dispatch time c =
    match find a0 with
    | None => say (reply.error (unknown_command (a0 :: args))) c
    | Some cmd =>
        if arity_ok (arity cmd) (Z.of_nat (length (a0 :: args))) then run_handler time (handler cmd) c
        else say (reply.error (wrong_arity (name cmd))) c
    end.
Proof.
  intros Hargv Hlen. unfold dispatch. erewrite run_arg by (by rewrite Hargv). rewrite run_get, Hargv.
  rewrite s32_small by lia. destruct (find a0) as [cmd|]; [|done]. by destruct (arity_ok _ _).
Qed.

Lemma serves_eq (m m' : ST (CommandContext B) unit) c n n' b f f' :
  serves time m' c n' b f' → m c = m' c → (n' ≤ n)%nat → (∀ now kv, f now kv = f' now kv) →
  serves time m c n b f.
Proof.
  intros (g & r & w' & Hm & Hg & Hr & Hp & Hf) He Hn Hff. exists g, r, w'.
  split_and!; [by rewrite He|done|done|by apply (progress_le n' 1); [|lia|lia]|].
  intros now Hfr. rewrite Hff. apply Hf. eapply frozen_sub; [done|lia..].
Qed.

Lemma dispatch_handler c a0 args nm h ar n n' b f f' :
  argv c = a0 :: args → Z.of_nat (length (a0 :: args)) < 2 ^ 31 →
  instance !! to_lower_ascii a0 = Some (mkCommand nm h ar) →
  arity_ok ar (Z.of_nat (length (a0 :: args))) = true →
  serves time (run_handler time h) c n' b f' → (n' ≤ n)%nat → (∀ now kv, f now kv = f' now kv) →
  serves time (dispatch time) c n b f.
Proof.
  intros Hargv Hlen Hfind Har Hs Hn Hf. eapply serves_eq; [exact Hs| |done|done].
  rewrite (dispatch_run c a0 args) by done. unfold find. rewrite Hfind. cbn [arity handler name]. by rewrite Har.
Qed.

Lemma dispatch_arity c a0 args nm h ar n :
  argv c = a0 :: args → Z.of_nat (length (a0 :: args)) < 2 ^ 31 →
  instance !! to_lower_ascii a0 = Some (mkCommand nm h ar) →
  arity_ok ar (Z.of_nat (length (a0 :: args))) = false → CR ∉ wrong_arity nm →
  serves time (dispatch time) c n false (λ _ kv, (RError (wrong_arity nm), kv)).
Proof.
  intros Hargv Hlen Hfind Har Hcr.
  eapply (serves_eq (dispatch time) (say (reply.error (wrong_arity nm))) c n n);
    [by apply serves_error| |done|done].
  rewrite (dispatch_run c a0 args) by done. unfold find. rewrite Hfind. cbn [arity handler name]. by rewrite Har.
Qed.

(** The command is known and the number of arguments is right, or wrong. *)
Ltac table := rewrite instance_lookup;
  match goal with H : to_lower_ascii _ = _ |- _ => rewrite H; reflexivity end.

Ltac arity_check :=
  unfold arity_ok;
  match goal with |- context [0 <=? ?a] =>
    let b := eval compute in (0 <=? a) in change (0 <=? a) with b; cbv iota; cbn [length]; lia
  end.

Ltac accept lemma :=
  eapply dispatch_handler;
    [eassumption|eassumption|table|arity_check|simpl; eapply lemma; eassumption|
     first [reflexivity|simpl; lia|unfold ttl_reads; simpl; case_match; lia]|reflexivity].

Ltac refuse :=
  eapply dispatch_arity;
    [eassumption|eassumption|table|arity_check|no_cr].

(** What is to be shown of a call. *)
Definition answered c : Prop :=
  serves time (dispatch time) c (clock_reads (argv c)) (closes (argv c))
    (λ now kv, respond now (s64 (Z.of_nat (Db.size (the_db (world c))))) (argv c) kv).

(** A call whose name is known, taken apart. *)
Ltac open_call :=
  intros Hargv [_ [Hargs Hlen]] Hok Hname; unfold answered; rewrite Hargv in *;
  apply Forall_cons in Hargs as [_ Hargs]; unfold clock_reads, closes, respond, request.

Lemma connection_answered c a0 args :
  argv c = a0 :: args → args_ok (argv c) → store_ok (the_db (world c)) →
  to_lower_ascii a0 ∈ [$"ping"; $"echo"; $"quit"] → answered c.
Proof.
  open_call. rewrite !elem_of_cons, elem_of_nil in Hname. destruct Hname as [Hl|[Hl|[Hl|[]]]]; rewrite Hl.
  - destruct args as [|m [|b l]]; [accept @do_ping_serves| |accept @do_ping_arity_serves].
    rewrite Forall_singleton in Hargs. accept @do_ping_message_serves.
  - destruct args as [|m [|b l]]; [refuse| |refuse].
    rewrite Forall_singleton in Hargs. accept @do_echo_serves.
  - destruct args as [|m l]; [accept @do_quit_serves|refuse].
Qed.

Lemma string_answered c a0 args :
  argv c = a0 :: args → args_ok (argv c) → store_ok (the_db (world c)) →
  to_lower_ascii a0 ∈ [$"set"; $"get"; $"incr"; $"decr"] → answered c.
Proof.
  open_call. rewrite !elem_of_cons, elem_of_nil in Hname. destruct Hname as [Hl|[Hl|[Hl|[Hl|[]]]]]; rewrite Hl.
  - destruct args as [|k [|v opts]]; [refuse|refuse|].
    apply Forall_cons in Hargs as [_ Hargs]. apply Forall_cons in Hargs as [Hv _].
    destruct (set_options opts no_options) as [msg|o] eqn:Ho;
      [accept @do_set_syntax_serves|accept @do_set_serves].
  - destruct args as [|k [|b l]]; [refuse|accept @do_get_serves|refuse].
  - destruct args as [|k [|b l]]; [refuse| |refuse].
    assert (1 = 1 ∨ 1 = -1) by lia. accept @incr_by_serves.
  - destruct args as [|k [|b l]]; [refuse| |refuse].
    assert (-1 = 1 ∨ -1 = -1) by lia. accept @incr_by_serves.
Qed.

Lemma keyspace_answered c a0 args :
  argv c = a0 :: args → args_ok (argv c) → store_ok (the_db (world c)) →
  to_lower_ascii a0 ∈ [$"del"; $"exists"; $"type"; $"expire"; $"ttl"; $"persist"] → answered c.
Proof.
  open_call. rewrite !elem_of_cons, elem_of_nil in Hname.
  destruct Hname as [Hl|[Hl|[Hl|[Hl|[Hl|[Hl|[]]]]]]]; rewrite Hl.
  - destruct args as [|k l]; [refuse|].
    assert (Z.of_nat (length (k :: l)) ≤ INT64_MAX) by (simpl in *; mach; lia). accept @do_del_serves.
  - destruct args as [|k l]; [refuse|].
    assert (Z.of_nat (length (k :: l)) ≤ INT64_MAX) by (simpl in *; mach; lia). accept @do_exists_serves.
  - destruct args as [|k [|b l]]; [refuse|accept @do_type_serves|refuse].
  - destruct args as [|k [|a [|b l]]]; [refuse|refuse| |refuse].
    destruct (string_to_int64 a) as [s|] eqn:Es; [accept @do_expire_serves|accept @do_expire_syntax_serves].
  - destruct args as [|k [|b l]]; [refuse|accept @do_ttl_serves|refuse].
  - destruct args as [|k [|b l]]; [refuse|accept @do_persist_serves|refuse].
Qed.

(** ASYNC or SYNC, the only arguments FLUSHALL takes, and COUNT for COMMAND. *)
Definition flush_mode (args : list bytes) : Prop :=
  args = [] ∨ ∃ o, args = [o] ∧ (to_lower_ascii o = $"async" ∨ to_lower_ascii o = $"sync").

Lemma server_answered c a0 args :
  argv c = a0 :: args → args_ok (argv c) → store_ok (the_db (world c)) →
  to_lower_ascii a0 ∈ [$"dbsize"; $"flushall"; $"command"] → answered c.
Proof.
  open_call. rewrite !elem_of_cons, elem_of_nil in Hname. destruct Hname as [Hl|[Hl|[Hl|[]]]]; rewrite Hl.
  - destruct args as [|k l]; [accept @do_dbsize_serves|refuse].
  - destruct args as [|o [|b l]].
    + assert (flush_mode []) by (by left). accept @do_flushall_serves.
    + destruct (decide (to_lower_ascii o = $"async" ∨ to_lower_ascii o = $"sync")) as [Ho|Ho].
      * assert (flush_mode [o]) by (right; eauto). accept @do_flushall_serves.
      * assert ([o] ≠ []) by done.
        assert (∀ o', [o] = [o'] → to_lower_ascii o' ≠ $"async" ∧ to_lower_ascii o' ≠ $"sync")
          by (intros ? [= <-]; tauto).
        accept @do_flushall_syntax_serves.
    + assert (o :: b :: l ≠ []) by done.
      assert (∀ o', o :: b :: l = [o'] → to_lower_ascii o' ≠ $"async" ∧ to_lower_ascii o' ≠ $"sync") by done.
      accept @do_flushall_syntax_serves.
  - destruct args as [|o l].
    + assert (∀ o : bytes, head [] = Some o → to_lower_ascii o ≠ $"count") by done.
      accept @do_command_docs_serves.
    + destruct (decide (to_lower_ascii o = $"count")) as [Ho|Ho]; [accept @do_command_count_serves|].
      assert (∀ o', head (o :: l) = Some o' → to_lower_ascii o' ≠ $"count") by (by intros ? [= <-]).
      accept @do_command_docs_serves.
Qed.

Definition names : list bytes :=
  [$"ping"; $"echo"; $"quit"] ++ [$"set"; $"get"; $"incr"; $"decr"] ++
  [$"del"; $"exists"; $"type"; $"expire"; $"ttl"; $"persist"] ++ [$"dbsize"; $"flushall"; $"command"].

Lemma unknown_request a0 args :
  to_lower_ascii a0 ∉ names → find a0 = None ∧ closes (a0 :: args) = false ∧ clock_reads (a0 :: args) = 0%nat ∧
  ∀ now n kv, respond now n (a0 :: args) kv = (RError (unknown_command (a0 :: args)), kv).
Proof.
  unfold names. rewrite !elem_of_app, !elem_of_cons, !elem_of_nil. intros Hn.
  unfold find, closes, clock_reads, respond, request. rewrite instance_lookup.
  repeat (rewrite decide_False by tauto). done.
Qed.

Lemma dispatch_serves c :
  args_ok (argv c) → echo_safe (argv c) → store_ok (the_db (world c)) → answered c.
Proof.
  intros Hargs Hecho Hok. destruct (argv c) as [|a0 args] eqn:Hargv; [by destruct Hargs|]. rewrite <-Hargv in Hargs.
  destruct (decide (to_lower_ascii a0 ∈ names)) as [Hin|Hn].
  { unfold names in Hin. rewrite !elem_of_app in Hin. destruct Hin as [?|[?|[?|?]]].
    - by eapply connection_answered.
    - by eapply string_answered.
    - by eapply keyspace_answered.
    - by eapply server_answered. }
  destruct (unknown_request a0 args Hn) as (Hfind & Hcl & Hrd & Hr). unfold answered. rewrite Hargv, Hcl, Hrd in *.
  eapply (serves_eq (dispatch time) (say (reply.error (unknown_command (a0 :: args)))) c _ 0);
    [apply serves_error; [done|by apply Hecho]| |lia|by intros; rewrite Hr].
  rewrite (dispatch_run c a0 args) by (done || apply Hargs). by rewrite Hfind.
Qed.

Lemma known_echo_safe a0 args : to_lower_ascii a0 ∈ names → echo_safe (a0 :: args).
Proof.
  unfold names. rewrite !elem_of_app, !elem_of_cons, !elem_of_nil. intros Hn Hf. unfold find in Hf. simpl in Hf.
  rewrite instance_lookup in Hf. exfalso. repeat (case_decide; [done|]). naive_solver.
Qed.

(** Without a condition on the clock or on the bytes echoed: one reply. *)
Lemma dispatch_answers c :
  args_ok (argv c) → store_ok (the_db (world c)) →
  ∃ g r w',
    dispatch time c = (tt, mkCtx (argv c) (g (out c)) w' (close_after_reply c || closes (argv c)) (oob c)) ∧
    encodes g r ∧ progress (clock_reads (argv c)) 1 (world c) w' ∧
    (echo_safe (argv c) → sendable r) ∧
    ∀ now, frozen time now (reads (world c)) (clock_reads (argv c)) →
      respond now (s64 (Z.of_nat (Db.size (the_db (world c))))) (argv c) (kv_of now (the_db (world c))) =
        (r, kv_of now (the_db w')).
Proof.
  intros Hargs Hok. destruct (argv c) as [|a0 args] eqn:Hargv; [by destruct Hargs|].
  destruct (decide (to_lower_ascii a0 ∈ names)) as [Hin|Hn].
  - destruct (dispatch_serves c) as (g & r & w' & Hm & Hg & Hr & Hp & Hf);
      [by rewrite Hargv|rewrite Hargv; by apply known_echo_safe|done|].
    rewrite Hargv in *. by exists g, r, w'.
  - destruct (unknown_request a0 args Hn) as (Hfind & Hcl & Hrd & Hr).
    exists (reply.error (unknown_command (a0 :: args))), (RError (unknown_command (a0 :: args))), (world c).
    split_and!; [|apply error_encodes|apply progress_refl|by intros He; apply He|by intros].
    rewrite (dispatch_run c a0 args), Hfind, Hcl by (done || apply Hargs). destruct c; simpl in *; subst.
    by rewrite orb_false_r.
Qed.
End Dispatch.
