(* ===== verification/Linear.v ===== *)
(** * Calls under a clock that moves

    [Dispatch.v] says what a call does when the clock stands still while it
    runs.  A real clock ticks: a handler that reads it twice may see two
    times.  Here the clock only does not go back, and most calls still take
    effect at one instant between their start and their end ([one_instant]):
    all that read the clock once, and TTL, SET with a lifetime, and EXPIRE with
    one that has passed.  The others are DEL and EXISTS of several keys, which
    look at each key at its own time; SET XX with a lifetime, whose key may die
    between the check and the reading that gives the deadline; and EXPIRE, which
    looks its key up twice.  [Spread.v] says what these do. *)
From S2P Require Import Prelude Buffer Digits Parser Writer Keyspace Commands Options Spec Refine.
From S2P Require Import Handlers Dispatch.
Import Db (the_db, reads, mkWorld, map_, view, index_ok).

Definition monotone (time : nat → Z) : Prop := ∀ i j, (i ≤ j)%nat → time i ≤ time j.

(** One instant explains the call, whatever the clock does. *)
Definition one_instant (args : list bytes) : bool :=
  match request args with
  | inr (DelKeys ks) | inr (ExistsKeys ks) => (length ks <=? 1)%nat
  | inr (SetKey _ _ IfPresent (Some _)) => false
  | inr (ExpireKey _ s) => s <=? 0
  | _ => true
  end.

(** Either that, or the clock stands still during the call. *)
Definition calm (time : nat → Z) (args : list bytes) (w : Db.World) : Prop :=
  one_instant args = true ∨ frozen time (time (reads w)) (reads w) (clock_reads args).

Lemma frozen_once time w n : (n ≤ 1)%nat → frozen time (time (reads w)) (reads w) n.
Proof. intros Hn i Hi. f_equal. lia. Qed.

(** Which words make these requests. *)
Ltac requested := unfold request; repeat (case_decide; [repeat case_match; naive_solver|]); naive_solver.

Section Linear.
Context {B : Type} `{!ByteQueue B} `{!ByteQueueLaws B} (time : nat → Z).
Context (Hclock : clock_ok time) (Hmono : monotone time).

Abbreviation Cmd := (ST (CommandContext B)).

Implicit Types (c : CommandContext B) (w : Db.World).

(** As [serves], but at some instant between the start and the end. *)
Definition instant (m : Cmd unit) c (n : nat) (close : bool) (f : Z → KV → Reply * KV) : Prop :=
  ∃ g r w' now,
    m c = (tt, mkCtx (argv c) (g (out c)) w' (close_after_reply c || close) (oob c)) ∧
    encodes g r ∧ sendable r ∧ progress n 1 (world c) w' ∧
    time (reads (world c)) ≤ now ≤ time (reads w') ∧
    f now (kv_of now (the_db (world c))) = (r, kv_of now (the_db w')).

Lemma serves_instant m c n b f :
  serves time m c n b f → frozen time (time (reads (world c))) (reads (world c)) n → instant m c n b f.
Proof.
  intros (g & r & w' & Hm & Hg & Hr & Hp & Hf) Hfr. exists g, r, w', (time (reads (world c))).
  split_and!; [done|done|done|done|done|apply Hmono; destruct Hp; lia|by apply Hf].
Qed.

(** A handler that replies once the store has moved to [w'], at [now]. *)
Lemma instant_after m c n k l w' g r f now :
  m c = say g (with_world w' c) → encodes g r → sendable r →
  progress k l (world c) w' → (k ≤ n)%nat → (l ≤ 1)%nat →
  time (reads (world c)) ≤ now ≤ time (reads w') →
  f now (kv_of now (the_db (world c))) = (r, kv_of now (the_db w')) →
  instant m c n false f.
Proof.
  intros Hm Hg Hr Hp Hn Hl Hnow Hf. exists g, r, w', now.
  split_and!; [|done|done|by eapply progress_le|lia|lia|done]. rewrite Hm, orb_false_r. done.
Qed.

Ltac run := repeat first
  [ rewrite run_argc | rewrite run_get | rewrite run_db | erewrite run_arg by (match goal with H : argv _ = _ |- _ => by rewrite H end) ].

(** *** Looking up, at the time of the reading and later *)
Lemma lookup_now key w :
  let now := time (reads w) in
  let r := Db.lookup time key w in
  entry_of <$> r.1 = kv_of now (the_db w) !! key ∧
  (∀ t, now ≤ t → kv_of t (the_db r.2) = kv_of t (the_db w)) ∧
  (r.1 = None → ∀ t, now ≤ t → kv_of t (the_db w) !! key = None).
Proof.
  intros now r. destruct (Db.lookup_spec time key w) as (Hr & Hview & _ & _ & _ & Hm).
  fold r now in Hr, Hview, Hm. split_and!.
  - by rewrite kv_lookup, Hr.
  - intros t Ht. by apply kv_view_eq, Hview.
  - intros Hn t Ht. rewrite Hn in Hm. rewrite kv_lookup, <-Hview by done.
    by rewrite Db.view_lookup, Hm.
Qed.

Lemma erase_removes key w : map_ (the_db (Db.erase time key w).2) = delete key (map_ (the_db w)).
Proof.
  unfold Db.erase. rewrite bind_run. pose proof (Db.lookup_cases time key w) as H. cbv zeta in H.
  destruct (map_ (the_db w) !! key) as [v|] eqn:E; rewrite H; [|by rewrite delete_id].
  by destruct (is_expired v _).
Qed.

(** *** TTL *)
Lemma pttl_run key w v :
  map_ (the_db w) !! key = Some v → is_expired v (time (reads w)) = false → has_expiry v = true →
  let left := s64 (expire_at_ms v - time (S (reads w))) in
  Db.pttl time key w = (if 0 <? left then left else 0, mkWorld (the_db w) (S (S (reads w)))).
Proof.
  intros Hk Hx Hv. unfold Db.pttl. rewrite bind_run. pose proof (Db.lookup_cases time key w) as H. cbv zeta in H.
  rewrite Hk, Hx in H. rewrite H. cbn [fst snd]. by rewrite Hv.
Qed.

(** Of a key that dies in between, the instant is the last before it does. *)
Lemma pttl_now key w :
  store_ok (the_db w) → let r := Db.pttl time key w in
  ∃ now, time (reads w) ≤ now ≤ time (reads r.2) ∧
    exec now 0 (TtlOf key) (kv_of now (the_db w)) = (RInteger (ttl_reply r.1), kv_of now (the_db r.2)).
Proof.
  intros Hok. cbv zeta. destruct (Db.pttl_spec time key w) as (Hr & Hview & _ & _ & Hrd).
  set (t1 := time (reads w)) in *. destruct (view t1 (the_db w) !! key) as [v|] eqn:Ev; [destruct (has_expiry v) eqn:Hx|].
  2,3: exists t1; split; [split; [done|apply Hmono; lia]|]; unfold exec; rewrite kv_lookup, Ev, Hr;
    rewrite (kv_view_eq t1 (the_db w) (the_db (Db.pttl time key w).2)) by (by apply Hview);
    simpl; rewrite ?Hx; done.
  assert (map_ (the_db w) !! key = Some v ∧ is_expired v t1 = false) as [Hk Ha].
  { rewrite Db.view_lookup in Ev. destruct (map_ (the_db w) !! key) as [v'|]; [|done]. simpl in Ev.
    destruct (is_expired v' t1) eqn:?; by simplify_eq. }
  rewrite (pttl_run key w v Hk Ha Hx). cbn [fst snd the_db reads].
  set (t2 := time (S (reads w))). assert (t1 ≤ t2 ≤ time (S (S (reads w)))) as Ht by (split; apply Hmono; lia).
  destruct (proj2 Hok key v Hk) as [He _]. assert (500 ≤ t2 ≤ INT64_MAX) by apply Hclock. assert (500 ≤ t1) by apply Hclock.
  unfold is_expired in Ha. rewrite Hx in Ha. simpl in Ha.
  rewrite s64_small by (mach; lia).
  assert (∀ t, t1 ≤ t < expire_at_ms v →
    exec t 0 (TtlOf key) (kv_of t (the_db w)) = (RInteger ((expire_at_ms v - t + 500) / 1000), kv_of t (the_db w))) as Hexec.
  { intros t Hlt. unfold exec. rewrite kv_lookup, Db.view_lookup, Hk. simpl. unfold is_expired. rewrite Hx. simpl.
    replace (_ <=? t) with false by lia. simpl. by rewrite Hx. }
  destruct (Z.ltb_spec 0 (expire_at_ms v - t2)) as [Hl|Hl].
  - exists t2. split; [lia|]. rewrite Hexec by lia. unfold ttl_reply. replace (_ <? 0) with false by lia.
    rewrite s64_small by (mach; lia). by rewrite Z.quot_div_nonneg by lia.
  - exists (expire_at_ms v - 1). split; [lia|]. rewrite Hexec by lia.
    by replace (expire_at_ms v - (expire_at_ms v - 1) + 500) with 501 by lia.
Qed.

Lemma do_ttl_instant c cmd key :
  argv c = [cmd; key] → store_ok (the_db (world c)) →
  instant (do_ttl time) c 2 false (λ now kv, exec now 0 (TtlOf key) kv).
Proof.
  intros Hargv Hok. destruct (pttl_kv time key (world c) Hclock Hok) as (Hp & Hr & _).
  destruct (pttl_now key (world c) Hok) as (now & Hnow & Hf).
  destruct (Db.pttl time key (world c)) as [ms w1] eqn:E; simpl in *.
  apply (instant_after _ _ _ 2 0 w1 (reply.integer (ttl_reply ms)) (RInteger (ttl_reply ms)) _ now);
    [|by apply integer_encodes|done|done|lia|lia|done|done].
  unfold do_ttl. run. rewrite E. simpl. unfold ttl_reply. by destruct (ms <? 0).
Qed.

(** *** EXPIRE with a lifetime that has passed: a deletion *)
Lemma do_expire_past_instant c cmd key a s :
  argv c = [cmd; key; a] → string_to_int64 a = Some s → s ≤ 0 →
  instant (do_expire time) c 3 false (λ now kv, exec now 0 (ExpireKey key s) kv).
Proof.
  intros Hargv Ha Hs. destruct (lookup_now key (world c)) as (He & Hkv & _).
  destruct (lookup_kv time key (world c)) as (Hp & _ & Hv).
  destruct (Db.lookup time key (world c)) as [[v|] w1] eqn:E; simpl in *.
  - destruct (erase_kv time key w1) as [Hp2 _]. destruct (Hv v eq_refl) as (Hdb & _ & _).
    assert (progress 2 0 (world c) (Db.erase time key w1).2) as Hp12 by exact (progress_trans 1 0 1 0 _ _ _ Hp Hp2).
    apply (instant_after _ _ _ 2 0 (Db.erase time key w1).2 (reply.integer 1) (RInteger 1) _ (time (reads (world c))));
      [|by apply integer_encodes|done|done|lia|lia|split; [done|apply Hmono; destruct Hp12; lia]|].
    + unfold do_expire. run. rewrite Ha. run. rewrite E. simpl. replace (s <=? 0) with true by lia. by run.
    + unfold exec. rewrite <-He. simpl. replace (s <=? 0) with true by lia. f_equal.
      rewrite <-Hdb. unfold kv_of. rewrite <-fmap_delete, <-Db.view_delete. f_equal.
      apply map_eq. intros k. by rewrite !Db.view_lookup, erase_removes.
  - apply (instant_after _ _ _ 1 0 w1 (reply.integer 0) (RInteger 0) _ (time (reads (world c))));
      [|by apply integer_encodes|done|done|lia|lia|split; [done|apply Hmono; destruct Hp; lia]|].
    + unfold do_expire. run. rewrite Ha. run. by rewrite E.
    + unfold exec. rewrite <-He. simpl. by rewrite Hkv.
Qed.

(** *** SET, unless it is XX with a lifetime *)
Lemma do_set_instant c cmd key value opts o :
  argv c = cmd :: key :: value :: opts → set_options opts no_options = inr o → arg_ok value →
  condition_of o ≠ IfPresent →
  instant (do_set time) c (1 + ttl_reads o) false
    (λ now kv, exec now 0 (SetKey key value (condition_of o) (ttl_of o)) kv).
Proof.
  intros Hargv Hopts Hv Hxx.
  assert (options_ok o) as Hok by (apply set_options_iff in Hopts as (l & _ & Hl); by eapply meaning_ok).
  pose proof (do_set_run time Hclock c cmd key value opts o Hargv Hopts Hok) as Hrun.
  destruct (lookup_now key (world c)) as (He & Hkv & Hnone). destruct (lookup_kv time key (world c)) as (Hp & _ & _).
  destruct (Db.lookup time key (world c)) as [v w1]. simpl in Hp, Hkv, He, Hnone.
  destruct (set_store _ _ _ _ w1) as [r w2] eqn:Es.
  destruct (set_store_ok time Hclock key value o w1 r w2 Hok Hv Es) as (Hr & Henc & Hp2 & Hkv2).
  assert (bool_decide (is_Some v) = bool_decide (is_Some (kv_of (time (reads (world c))) (the_db (world c)) !! key))) as Hcond.
  { rewrite <-He. apply bool_decide_ext. by rewrite fmap_is_Some. }
  set (t1 := time (reads (world c))) in *. set (t2 := time (reads w1)) in *.
  assert (t1 ≤ t2) as H12 by (apply Hmono; destruct Hp; lia).
  assert (t2 ≤ time (reads w2)) as H23 by (apply Hmono; destruct Hp2; lia).
  destruct (refused (condition_of o) (bool_decide (is_Some v))) eqn:Er.
  - apply (instant_after _ _ _ 1 0 w1 reply.null_bulk RNull _ t1); [done|apply null_bulk_encodes|done|done|lia|lia|lia|].
    simpl. by rewrite <-Hcond, Er, Hkv.
  - apply (instant_after _ _ _ (1 + ttl_reads o) (0 + 1) w2 _ r _ t2 Hrun Henc Hr); [by eapply progress_trans|lia|lia|lia|].
    simpl. assert (refused (condition_of o) (bool_decide (is_Some (kv_of t2 (the_db (world c)) !! key))) = false) as ->.
    { destruct (condition_of o); [done| |done]. simpl in *. destruct v as [v|]; [done|]. by rewrite Hnone. }
    symmetry. apply Hkv2; [by right|by apply Hkv].
Qed.

(** ** Dispatch *)
Lemma instant_eq (m m' : Cmd unit) c n b f f' :
  instant m' c n b f' → m c = m' c → (∀ now kv, f now kv = f' now kv) → instant m c n b f.
Proof.
  intros (g & r & w' & now & Hm & Hg & Hr & Hp & Hnow & Hf) He Hff. exists g, r, w', now.
  split_and!; [by rewrite He|done|done|done|lia|lia|by rewrite Hff].
Qed.

Lemma dispatch_known c a0 args cmd :
  argv c = a0 :: args → Z.of_nat (length (a0 :: args)) < 2 ^ 31 → find a0 = Some cmd →
  arity_ok (arity cmd) (Z.of_nat (length (a0 :: args))) = true →
  dispatch time c = run_handler time (handler cmd) c.
Proof. intros Hargv Hlen Hf Ha. by rewrite (dispatch_run time c a0 args), Hf, Ha. Qed.

Lemma request_ttl a0 args key :
  request (a0 :: args) = inr (TtlOf key) → to_lower_ascii a0 = $"ttl" ∧ args = [key].
Proof. requested. Qed.

Lemma request_expire a0 args key s :
  request (a0 :: args) = inr (ExpireKey key s) →
  to_lower_ascii a0 = $"expire" ∧ ∃ a, args = [key; a] ∧ string_to_int64 a = Some s.
Proof. requested. Qed.

Lemma request_set a0 args key value cond ttl :
  request (a0 :: args) = inr (SetKey key value cond ttl) →
  to_lower_ascii a0 = $"set" ∧ ∃ opts o, args = key :: value :: opts ∧
    set_options opts no_options = inr o ∧ cond = condition_of o ∧ ttl = ttl_of o.
Proof. requested. Qed.

Lemma dispatch_instant c :
  args_ok (argv c) → echo_safe (argv c) → store_ok (the_db (world c)) → calm time (argv c) (world c) →
  instant (dispatch time) c (clock_reads (argv c)) (closes (argv c))
    (λ now kv, respond now (s64 (Z.of_nat (Db.size (the_db (world c))))) (argv c) kv).
Proof.
  intros Hargs Hecho Hok Hcalm. pose proof (dispatch_serves time Hclock c Hargs Hecho Hok) as Hs.
  destruct Hcalm as [Hone|Hf]; [|by apply serves_instant].
  destruct (decide (clock_reads (argv c) ≤ 1)%nat) as [Hle|Hgt]; [by apply serves_instant, frozen_once|].
  clear Hs Hecho. destruct Hargs as (Hne & Hargs & Hlen). destruct (argv c) as [|a0 args] eqn:Hargv; [done|].
  unfold one_instant, clock_reads, closes, respond in *.
  destruct (request (a0 :: args)) as [msg|[]] eqn:Er; try (simpl in *; lia).
  - destruct ttl_ms as [ms|]; [|lia]. apply request_set in Er as (Hl & opts & o & -> & Ho & -> & Ht).
    rewrite !Forall_cons in Hargs. destruct Hargs as (_ & _ & Hv & _).
    eapply (instant_eq _ (do_set time)); [|eapply (dispatch_known _ _ _ (mkCommand $"set" cmd_set (-3))); [done|done| |]|].
    + assert (2 = 1 + ttl_reads o)%nat as -> by (unfold ttl_reads; by rewrite <-Ht).
      eapply do_set_instant; [done|done|done|]. intros Hc. by rewrite Hc in Hone.
    + unfold find. rewrite instance_lookup, Hl. reflexivity.
    + unfold arity_ok. simpl. lia.
    + intros. by rewrite Ht.
  - apply request_expire in Er as (Hl & a & -> & Ha). assert (seconds ≤ 0) by lia.
    eapply (instant_eq _ (do_expire time)); [by eapply do_expire_past_instant|eapply (dispatch_known _ _ _ (mkCommand $"expire" cmd_expire 3)); [done|done| |]|done].
    + unfold find. rewrite instance_lookup, Hl. reflexivity.
    + reflexivity.
  - apply request_ttl in Er as [Hl ->].
    eapply (instant_eq _ (do_ttl time)); [by eapply do_ttl_instant|eapply (dispatch_known _ _ _ (mkCommand $"ttl" cmd_ttl 2)); [done|done| |]|done].
    + unfold find. rewrite instance_lookup, Hl. reflexivity.
    + reflexivity.
Qed.
End Linear.
