(* ===== verification/Spread.v ===== *)
(** * Calls that take longer than an instant

    [Linear.v] shows that most calls take effect at one instant, whatever the
    clock does while they run.  This file says what the others do, so that every
    call has a specification under every clock that does not go back: DEL and
    EXISTS are as many calls as they have keys, each at its own instant; SET XX
    checks at one instant and stores at a later one; and EXPIRE checks at a
    first, computes the deadline at a second, and stores it at a third, if the
    key is still there, answering 1 in any case.  [takes lo hi] is the whole:
    what a call that runs from [lo] to [hi] may answer, and leave behind.  At a
    single instant it says no more than [respond] ([takes_collapses]). *)
From S2P Require Import Prelude Buffer Digits Parser Writer Keyspace Commands Options Spec Refine.
From S2P Require Import Handlers Dispatch Linear.
Import Db (the_db, reads, mkWorld, map_, view, index_ok).

(** ** The specification *)
Section Takes.
Context (hi : Z).

(** A request for several keys, key by key, with the sum of the answers. *)
Inductive one_by_one (f : bytes → Request) : Z → KV → list bytes → Z → KV → Prop :=
  | one_by_one_nil lo kv : one_by_one f lo kv [] 0 kv
  | one_by_one_cons lo now kv k ks m kv1 n kv2 :
      lo ≤ now ≤ hi → exec now 0 (f k) (forget now kv) = (RInteger m, kv1) →
      one_by_one f now kv1 ks n kv2 →
      one_by_one f lo kv (k :: ks) (m + n) kv2.

Definition retime (k : bytes) (d : Z) (kv : KV) : KV :=
  match kv !! k with Some e => <[k := mkEntry (val e) (Some d)]> kv | None => kv end.

Inductive takes (lo : Z) (entries : Z) (args : list bytes) (kv : KV) : Reply → KV → Prop :=
  | at_once now r kv' :
      lo ≤ now ≤ hi → respond now entries args (forget now kv) = (r, kv') →
      takes lo entries args kv r kv'
  | del_apart ks n kv' :
      request args = inr (DelKeys ks) → one_by_one (λ k, DelKeys [k]) lo kv ks n kv' →
      takes lo entries args kv (RInteger n) kv'
  | exists_apart ks n kv' :
      request args = inr (ExistsKeys ks) → one_by_one (λ k, ExistsKeys [k]) lo kv ks n kv' →
      takes lo entries args kv (RInteger n) kv'
  | set_apart k v ms t1 t2 r kv' :
      request args = inr (SetKey k v IfPresent (Some ms)) → lo ≤ t1 ≤ t2 → t2 ≤ hi →
      is_Some (forget t1 kv !! k) →
      store_until kSetExpireError k v ms t2 (forget t2 kv) (RSimple $"OK") = (r, kv') →
      takes lo entries args kv r kv'
  | expire_fails k s t1 t2 :
      request args = inr (ExpireKey k s) → 0 < s → lo ≤ t1 ≤ t2 → t2 ≤ hi →
      is_Some (forget t1 kv !! k) → INT64_MAX < t2 + s * 1000 →
      takes lo entries args kv (RError kExpireError) (forget t2 kv)
  | expire_apart k s t1 t2 t3 :
      request args = inr (ExpireKey k s) → 0 < s → lo ≤ t1 ≤ t2 → t2 ≤ t3 ≤ hi →
      is_Some (forget t1 kv !! k) → t2 + s * 1000 ≤ INT64_MAX →
      takes lo entries args kv (RInteger 1) (retime k (t2 + s * 1000) (forget t3 kv)).
End Takes.

(** ** What it says of a call at an instant *)
Lemma forget_forget t t' kv : t ≤ t' → forget t' (forget t kv) = forget t' kv.
Proof.
  intros Ht. unfold forget. apply map_eq. intros k. rewrite !map_lookup_filter.
  destruct (kv !! k) as [e|]; [|done]. simpl.
  assert (alive t' e → alive t e) by (unfold alive; destruct (deadline e); [lia|done]).
  repeat (case_guard; simpl); try done; tauto.
Qed.

Lemma exec_del_one now n k kv :
  exec now n (DelKeys [k]) kv = (RInteger (if bool_decide (is_Some (kv !! k)) then 1 else 0), delete k kv).
Proof.
  assert (∀ kv' : KV, filter (λ p : bytes * Entry, p.1 ∉ []) kv' = kv') as Hnil.
  { intros kv'. apply map_filter_id. set_solver. }
  unfold exec. rewrite del_count, del_filter, Hnil. simpl. rewrite (intersection_empty_r_L (dom _)), size_empty.
  do 2 f_equal. by destruct (bool_decide _).
Qed.

Lemma exec_exists_one now n k kv :
  exec now n (ExistsKeys [k]) kv = (RInteger (if bool_decide (is_Some (kv !! k)) then 1 else 0), kv).
Proof.
  unfold exec. rewrite filter_cons. do 2 f_equal. case_decide; [by rewrite bool_decide_eq_true_2|].
  by rewrite bool_decide_eq_false_2.
Qed.

Lemma forget_delete t k kv : forget t (delete k kv) = delete k (forget t kv).
Proof. apply map_filter_delete. Qed.

(** At one instant, one key after the other is all keys at once. *)
Lemma del_one_by_one lo hi kv ks n kv' :
  one_by_one hi (λ k, DelKeys [k]) lo kv ks n kv' → lo = hi → forget hi kv = kv →
  exec hi 0 (DelKeys ks) kv = (RInteger n, kv').
Proof.
  induction 1 as [lo kv|lo t kv k ks m kv1 n kv2 Ht He _ IH]; intros -> Hkv.
  - unfold exec. simpl. rewrite (intersection_empty_r_L (dom _)), size_empty. f_equal. apply map_filter_id. set_solver.
  - assert (t = hi) as -> by lia. rewrite Hkv, exec_del_one in He. injection He as <- <-.
    specialize (IH eq_refl ltac:(by rewrite forget_delete, Hkv)). unfold exec in *. injection IH as <- <-.
    rewrite del_filter, del_count. do 2 f_equal. destruct (bool_decide _); lia.
Qed.

Lemma exists_one_by_one lo hi kv ks n kv' :
  one_by_one hi (λ k, ExistsKeys [k]) lo kv ks n kv' → lo = hi → forget hi kv = kv →
  exec hi 0 (ExistsKeys ks) kv = (RInteger n, kv').
Proof.
  induction 1 as [lo kv|lo t kv k ks m kv1 n kv2 Ht He _ IH]; intros -> Hkv; [done|].
  assert (t = hi) as -> by lia. rewrite Hkv, exec_exists_one in He. injection He as <- <-.
  specialize (IH eq_refl Hkv). unfold exec in *. injection IH as <- <-.
  rewrite filter_cons. do 2 f_equal. case_decide as Hk; [rewrite bool_decide_eq_true_2 by done|
    rewrite bool_decide_eq_false_2 by done]; simpl; lia.
Qed.

(** A request for one key is one request. *)
Lemma one_key_once hi f lo kv ks n kv' :
  one_by_one hi f lo kv ks n kv' → (length ks = 1)%nat →
  ∃ k now, ks = [k] ∧ lo ≤ now ≤ hi ∧ exec now 0 (f k) (forget now kv) = (RInteger n, kv').
Proof.
  intros [|lo' now kv1 k ks' m kv2 p kv3 Hnow He Hks] Hl; [done|]. destruct ks'; [|done].
  inversion Hks; subst. exists k, now. by rewrite Z.add_0_r.
Qed.

Lemma request_keys args :
  (request args = inr (DelKeys []) → False) ∧ (request args = inr (ExistsKeys []) → False).
Proof. destruct args as [|c args]; [done|]. requested. Qed.

Lemma one_by_one_aged f hi kv ks n kv' :
  one_by_one hi f hi kv ks n kv' → ks ≠ [] → one_by_one hi f hi (forget hi kv) ks n kv'.
Proof.
  intros H Hne. inversion H as [|lo now kv1 k ks' m kv2 p kv3 Hnow He Hks]; subst; [done|].
  econstructor; [done| |done]. assert (now = hi) as -> by lia. by rewrite forget_forget.
Qed.

(** A call that one instant explains, or that starts and ends at the same one,
    does what [respond] says of it. *)
Lemma takes_collapses lo hi n args kv r kv' :
  takes hi lo n args kv r kv' → one_instant args = true ∨ lo = hi →
  ∃ now, lo ≤ now ≤ hi ∧ respond now n args (forget now kv) = (r, kv').
Proof.
  unfold one_instant. intros H Hone.
  destruct H as [now r kv' Hnow Hr|ks m kv' Hreq Hks|ks m kv' Hreq Hks|k v ms t1 t2 r kv' Hreq H1 H2 Hk Hst
    |k s t1 t2 Hreq Hs H1 H2 Hk Ho|k s t1 t2 t3 Hreq Hs H1 H2 Hk Ho]; [by exists now|..].
  all: try (rewrite Hreq in Hone; destruct Hone as [Hone|Hlh]).
  all: unfold respond; rewrite Hreq.
  - assert (length ks = 1)%nat as Hl by (destruct ks; [by destruct (proj1 (request_keys args))|simpl in *; lia]).
    destruct (one_key_once _ _ _ _ _ _ _ Hks Hl) as (k & now & -> & Hnow & He). by exists now.
  - subst hi. exists lo. split; [lia|]. apply (del_one_by_one lo lo); [|done|by apply forget_forget].
    apply one_by_one_aged; [done|]. intros ->. by apply (proj1 (request_keys args)).
  - assert (length ks = 1)%nat as Hl by (destruct ks; [by destruct (proj2 (request_keys args))|simpl in *; lia]).
    destruct (one_key_once _ _ _ _ _ _ _ Hks Hl) as (k & now & -> & Hnow & He). by exists now.
  - subst hi. exists lo. split; [lia|]. apply (exists_one_by_one lo lo); [|done|by apply forget_forget].
    apply one_by_one_aged; [done|]. intros ->. by apply (proj2 (request_keys args)).
  - done.
  - assert (t1 = hi ∧ t2 = hi) as [-> ->] by lia. exists hi. split; [lia|]. simpl. by rewrite bool_decide_eq_true_2.
  - lia.
  - assert (t1 = hi ∧ t2 = hi) as [-> ->] by lia. exists hi. split; [lia|]. destruct Hk as [e He].
    unfold exec, store_until. rewrite He. replace (s <=? 0) with false by lia. by replace (_ <? _) with true by lia.
  - lia.
  - assert (t1 = hi ∧ t2 = hi ∧ t3 = hi) as (-> & -> & ->) by lia. exists hi. split; [lia|]. destruct Hk as [e He].
    unfold exec, store_until, retime. rewrite He. replace (s <=? 0) with false by lia.
    by replace (_ <? _) with false by lia.
Qed.

(** ** The implementation *)

(** From the reading [reads w] on, the store looks like [kv] aged. *)
Definition looks_like (time : nat → Z) (kv : KV) (w : Db.World) : Prop :=
  ∀ t, time (reads w) ≤ t → kv_of t (the_db w) = forget t kv.

Section Spread.
Context {B : Type} `{!ByteQueue B} `{!ByteQueueLaws B} (time : nat → Z).
Context (Hclock : clock_ok time) (Hmono : monotone time).

Abbreviation Cmd := (ST (CommandContext B)).

Implicit Types (c : CommandContext B) (w : Db.World).

Lemma looks_like_now now kv w w' :
  now ≤ time (reads w') → kv_of now (the_db w') = kv → looks_like time kv w'.
Proof. intros Hnow <- t Ht. apply kv_later. lia. Qed.

Lemma looks_like_later kv w w' :
  looks_like time kv w → (reads w ≤ reads w')%nat →
  (∀ t, time (reads w) ≤ t → view t (the_db w') = view t (the_db w)) → looks_like time kv w'.
Proof.
  intros Hl Hr Hv t Ht. assert (time (reads w) ≤ t) by (etrans; [by apply Hmono|exact Ht]).
  rewrite (kv_view_eq t (the_db w)) by (by apply Hv). by apply Hl.
Qed.

(** *** One key at a time *)
Lemma erase_once k kv w :
  looks_like time kv w → let now := time (reads w) in let r := Db.erase time k w in
  now ≤ time (reads r.2) ∧
  exec now 0 (DelKeys [k]) (forget now kv) = (RInteger (if r.1 then 1 else 0), delete k (forget now kv)) ∧
  looks_like time (delete k (forget now kv)) r.2.
Proof.
  intros Hl now r. destruct (Db.erase_spec time k w) as (Hr & Hv & _ & _ & Hrd). fold now r in Hr, Hv, Hrd.
  assert (now ≤ time (reads r.2)) as Hnow by (apply Hmono; lia). split_and!; [done| |].
  - rewrite exec_del_one, Hr, <-Hl, kv_lookup by done. do 2 f_equal.
    by rewrite (bool_decide_ext _ _ (fmap_is_Some entry_of _)).
  - apply (looks_like_now now _ w r.2); [done|]. rewrite <-Hl by done. unfold kv_of.
    by rewrite Hv, fmap_delete by done.
Qed.

Lemma lookup_once k kv w :
  looks_like time kv w → let now := time (reads w) in let r := Db.lookup time k w in
  now ≤ time (reads r.2) ∧ entry_of <$> r.1 = forget now kv !! k ∧ looks_like time kv r.2.
Proof.
  intros Hl now r. destruct (Db.lookup_spec time k w) as (Hr & Hv & _ & _ & Hrd & _). fold now r in Hr, Hv, Hrd.
  split_and!; [apply Hmono; lia|by rewrite Hr, <-Hl, kv_lookup|].
  by apply (looks_like_later kv w); [|lia|].
Qed.

Lemma one_by_one_earlier hi f lo lo' kv ks n kv' :
  one_by_one hi f lo kv ks n kv' → lo' ≤ lo → one_by_one hi f lo' kv ks n kv'.
Proof. intros [|lo1 now kv1 k ks1 m kv2 p kv3 Hnow He Hks] Hlo; econstructor; [|done..]. lia. Qed.

Lemma del_loop_apart ks n c kv :
  looks_like time kv (world c) → 0 ≤ n → n + Z.of_nat (length ks) ≤ INT64_MAX →
  let r := del_loop time ks n c in
  time (reads (world c)) ≤ time (reads (world r.2)) ∧
  ∃ m kv', r.1 = n + m ∧ looks_like time kv' (world r.2) ∧
    one_by_one (time (reads (world r.2))) (λ k, DelKeys [k]) (time (reads (world c))) kv ks m kv'.
Proof.
  revert n c kv. induction ks as [|k ks IH]; intros n c kv Hl Hn Hb; simpl in Hb |- *.
  { split; [done|]. exists 0, kv. split_and!; [by rewrite Z.add_0_r|done|constructor]. }
  rewrite run_db. destruct (erase_once k kv (world c) Hl) as (Hnow & He & Hl').
  destruct (Db.erase time k (world c)) as [ok w1]. cbn [fst snd] in *.
  rewrite s64_small by (mach; lia). set (n1 := if ok then n + 1 else n).
  destruct (IH n1 (with_world w1 c) _ Hl') as (Hle & m & kv' & Hr & Hl2 & Hks); [destruct ok; lia..|].
  cbn [world with_world] in *. split; [lia|]. exists ((if ok then 1 else 0) + m), kv'.
  split_and!; [rewrite Hr; unfold n1; destruct ok; lia|done|].
  econstructor; [|exact He|eapply one_by_one_earlier; [exact Hks|done]]. lia.
Qed.

Lemma exists_loop_apart ks n c kv :
  looks_like time kv (world c) → 0 ≤ n → n + Z.of_nat (length ks) ≤ INT64_MAX →
  let r := exists_loop time ks n c in
  time (reads (world c)) ≤ time (reads (world r.2)) ∧
  ∃ m kv', r.1 = n + m ∧ looks_like time kv' (world r.2) ∧
    one_by_one (time (reads (world r.2))) (λ k, ExistsKeys [k]) (time (reads (world c))) kv ks m kv'.
Proof.
  revert n c kv. induction ks as [|k ks IH]; intros n c kv Hl Hn Hb; simpl in Hb |- *.
  { split; [done|]. exists 0, kv. split_and!; [by rewrite Z.add_0_r|done|constructor]. }
  rewrite run_db. destruct (lookup_once k kv (world c) Hl) as (Hnow & He & Hl').
  set (now := time (reads (world c))) in *.
  destruct (Db.lookup time k (world c)) as [v w1]. cbn [fst snd] in *.
  rewrite s64_small by (mach; lia). set (n1 := if bool_decide (is_Some v) then n + 1 else n).
  destruct (IH n1 (with_world w1 c) (forget now kv)) as (Hle & m & kv' & Hr & Hl2 & Hks).
  { intros t Ht. rewrite forget_forget by (cbn in Ht; lia). by apply Hl'. }
  1,2: unfold n1; destruct (bool_decide _); lia.
  cbn [world with_world] in *. split; [lia|]. exists ((if bool_decide (is_Some v) then 1 else 0) + m), kv'.
  split_and!; [rewrite Hr; unfold n1; destruct (bool_decide _); lia|done|].
  econstructor; [| |eapply one_by_one_earlier; [exact Hks|done]]; [lia|].
  rewrite exec_exists_one, <-He. by rewrite (bool_decide_ext _ _ (fmap_is_Some entry_of _)).
Qed.

(** *** Handlers *)
Definition entries_of (w : Db.World) : Z := s64 (Z.of_nat (Db.size (the_db w))).

(** As [serves] and [instant], but what the handler does is what [takes] says
    of its call, from its start to its end. *)
Definition spreads (m : Cmd unit) c (n : nat) (close : bool) : Prop :=
  ∃ g r w',
    m c = (tt, mkCtx (argv c) (g (out c)) w' (close_after_reply c || close) (oob c)) ∧
    encodes g r ∧ (echo_safe (argv c) → sendable r) ∧ progress n 1 (world c) w' ∧
    ∀ kv, looks_like time kv (world c) → ∃ kv',
      takes (time (reads w')) (time (reads (world c))) (entries_of (world c)) (argv c) kv r kv' ∧
      looks_like time kv' w'.

Lemma instant_spreads m c n b :
  instant time m c n b (λ now kv, respond now (entries_of (world c)) (argv c) kv) → spreads m c n b.
Proof.
  intros (g & r & w' & now & Hm & Hg & Hr & Hp & Hnow & Hf). exists g, r, w'. split_and!; [done..|].
  intros kv Hl. exists (kv_of now (the_db w')). rewrite (Hl now) in Hf by lia.
  split; [by apply (at_once _ _ _ _ _ now)|]. by apply (looks_like_now now _ w'); [lia|].
Qed.

(** A handler that replies once the store has moved to [w']. *)
Lemma spreads_after m c n k l w' g r :
  m c = say g (with_world w' c) → encodes g r → sendable r →
  progress k l (world c) w' → (k ≤ n)%nat → (l ≤ 1)%nat →
  (∀ kv, looks_like time kv (world c) → ∃ kv',
     takes (time (reads w')) (time (reads (world c))) (entries_of (world c)) (argv c) kv r kv' ∧
     looks_like time kv' w') →
  spreads m c n false.
Proof.
  intros Hm Hg Hr Hp Hn Hk Hf. exists g, r, w'. split_and!; [|done|done|by eapply progress_le|done].
  rewrite Hm, orb_false_r. done.
Qed.

Lemma spreads_eq (m m' : Cmd unit) c n b : spreads m' c n b → m c = m' c → spreads m c n b.
Proof. intros (g & r & w' & Hm & H) He. exists g, r, w'. by rewrite He. Qed.

Ltac run := repeat first
  [ rewrite run_argc | rewrite run_get | rewrite run_db | erewrite run_arg by (match goal with H : argv _ = _ |- _ => by rewrite H end) ].

Lemma do_del_spreads c cmd keys :
  argv c = cmd :: keys → request (argv c) = inr (DelKeys keys) → Z.of_nat (length keys) ≤ INT64_MAX →
  spreads (do_del time) c (length keys) false.
Proof.
  intros Hargv Hreq Hlen. destruct (del_loop_run time Hclock keys 0 c) as (n & w' & Hrun & Hp & Hb & _); [lia|lia|].
  apply (spreads_after _ _ _ (length keys) 0 w' (reply.integer n) (RInteger n));
    [|apply integer_encodes; mach; lia|simpl; mach; lia|done|lia|lia|].
  - unfold do_del. run. rewrite bind_run, Hargv. simpl. by rewrite drop_0, Hrun.
  - intros kv Hl. destruct (del_loop_apart keys 0 c kv Hl) as (_ & m & kv' & Hr & Hl' & Hks); [lia|lia|].
    rewrite Hrun in *. cbn [fst snd world with_world] in *. exists kv'. split; [|done].
    rewrite Hr, Z.add_0_l. by eapply del_apart.
Qed.

Lemma do_exists_spreads c cmd keys :
  argv c = cmd :: keys → request (argv c) = inr (ExistsKeys keys) → Z.of_nat (length keys) ≤ INT64_MAX →
  spreads (do_exists time) c (length keys) false.
Proof.
  intros Hargv Hreq Hlen. destruct (exists_loop_run time keys 0 c) as (n & w' & Hrun & Hp & Hb & _); [lia|lia|].
  apply (spreads_after _ _ _ (length keys) 0 w' (reply.integer n) (RInteger n));
    [|apply integer_encodes; mach; lia|simpl; mach; lia|done|lia|lia|].
  - unfold do_exists. run. rewrite bind_run, Hargv. simpl. by rewrite drop_0, Hrun.
  - intros kv Hl. destruct (exists_loop_apart keys 0 c kv Hl) as (_ & m & kv' & Hr & Hl' & Hks); [lia|lia|].
    rewrite Hrun in *. cbn [fst snd world with_world] in *. exists kv'. split; [|done].
    rewrite Hr, Z.add_0_l. by eapply exists_apart.
Qed.

(** SET XX with a lifetime. *)
Lemma do_set_xx_spreads c cmd key value opts o ms :
  argv c = cmd :: key :: value :: opts → set_options opts no_options = inr o → arg_ok value →
  request (argv c) = inr (SetKey key value IfPresent (Some ms)) → condition_of o = IfPresent → ttl_of o = Some ms →
  spreads (do_set time) c 2 false.
Proof.
  intros Hargv Hopts Hv Hreq Hxx Ht.
  assert (options_ok o) as Hok by (apply set_options_iff in Hopts as (l & _ & Hl); by eapply meaning_ok).
  pose proof (do_set_run time Hclock c cmd key value opts o Hargv Hopts Hok) as Hrun. rewrite Hxx in Hrun.
  destruct (lookup_kv time key (world c)) as (Hp & _ & _).
  pose proof (λ kv, lookup_once key kv (world c)) as Honce.
  destruct (Db.lookup time key (world c)) as [v w1]. cbn [fst snd] in *.
  destruct (set_store _ _ _ _ w1) as [r w2] eqn:Es.
  destruct (set_store_ok time Hclock key value o w1 r w2 Hok Hv Es) as (Hr & Henc & Hp2 & Hkv2).
  assert (ttl_reads o = 1%nat) as Hrd by (unfold ttl_reads; by rewrite Ht). rewrite Hrd in Hp2.
  destruct v as [v|]; cbn [refused negb] in Hrun.
  - apply (spreads_after _ _ _ (1 + 1) (0 + 1) w2 _ r Hrun Henc Hr); [by eapply progress_trans|lia|lia|].
    intros kv Hl. destruct (Honce kv Hl) as (Hnow & He & Hl1). cbn in He.
    assert (time (reads w1) ≤ time (reads w2)) as Hle by (apply Hmono; destruct Hp2; lia).
    specialize (Hkv2 (time (reads w1)) (forget (time (reads w1)) kv) ltac:(by right) ltac:(by apply Hl1)).
    rewrite Ht in Hkv2. exists (kv_of (time (reads w1)) (the_db w2)). split.
    + eapply (set_apart _ _ _ _ _ _ _ _ (time (reads (world c))) (time (reads w1))); [exact Hreq|done|done| |by symmetry].
      rewrite <-He. by eexists.
    + by apply (looks_like_now (time (reads w1)) _ w2).
  - apply (spreads_after _ _ _ 1 0 w1 reply.null_bulk RNull);
      [done|apply null_bulk_encodes|done|done|lia|lia|].
    intros kv Hl. destruct (Honce kv Hl) as (Hnow & He & Hl1). cbn in He.
    exists (forget (time (reads (world c))) kv). split.
    + apply (at_once _ _ _ _ _ (time (reads (world c)))); [done|]. unfold respond. rewrite Hreq. simpl. by rewrite <-He.
    + intros t Ht'. rewrite forget_forget by lia. by apply Hl1.
Qed.

(** EXPIRE with a lifetime to come, of a key that is there. *)
Lemma retime_once k d kv w :
  looks_like time kv w → 0 < d → let r := Db.set_expire_at time k d w in
  time (reads w) ≤ time (reads r.2) ∧ looks_like time (retime k d (forget (time (reads w)) kv)) r.2.
Proof.
  intros Hl Hd r. set (now := time (reads w)) in *.
  destruct (Db.set_expire_at_spec time k d w) as (_ & Hv & _ & _ & Hrd). fold now r in Hv, Hrd.
  assert (now ≤ time (reads r.2)) as Hnow by (apply Hmono; lia). split; [done|].
  intros t Ht. assert (now ≤ t) as Hnt by lia. specialize (Hv t Hnt).
  unfold retime. rewrite <-(Hl now), kv_lookup by done. unfold kv_of at 1. rewrite Hv.
  destruct (view now (the_db w) !! k) as [v|] eqn:Ev; simpl; [|by apply kv_later].
  unfold Db.put, forget.
  assert (filter (λ p : bytes * Entry, alive t p.2) (kv_of now (the_db w)) = entry_of <$> view t (the_db w)) as Hkv.
  { change (forget t (kv_of now (the_db w)) = kv_of t (the_db w)). by rewrite <-kv_later. }
  rewrite map_filter_insert, map_filter_delete, Hkv. unfold alive. simpl. unfold is_expired, has_expiry. simpl.
  rewrite (proj2 (Z.eqb_neq d kNoExpiry)) by (unfold kNoExpiry; lia). simpl.
  destruct (Z.leb_spec d t); case_decide; try lia; [by rewrite fmap_delete|].
  rewrite fmap_insert. do 2 f_equal. unfold entry_of, has_expiry. simpl.
  by rewrite (proj2 (Z.eqb_neq d kNoExpiry)) by (unfold kNoExpiry; lia).
Qed.

Lemma do_expire_spreads c cmd key a s :
  argv c = [cmd; key; a] → string_to_int64 a = Some s → 0 < s →
  request (argv c) = inr (ExpireKey key s) → spreads (do_expire time) c 3 false.
Proof.
  intros Hargv Ha Hs Hreq. destruct (lookup_kv time key (world c)) as (Hp & _ & _).
  pose proof (λ kv, lookup_once key kv (world c)) as Honce. cbv zeta in Honce.
  destruct (Db.lookup time key (world c)) as [[v|] w1] eqn:E; cbn [fst snd] in *.
  - pose proof (do_expire_found_run time Hclock c cmd key a s v w1 Hargv Ha Hs E) as Hrun. cbv zeta in Hrun.
    set (t2 := time (reads w1)) in *. set (w2 := mkWorld (the_db w1) (S (reads w1))) in *.
    assert (500 ≤ t2 ≤ INT64_MAX) as Ht2 by apply Hclock.
    assert (t2 ≤ time (reads w2)) as H23 by (apply Hmono; simpl; lia).
    assert (progress (1 + 1) 0 (world c) w2) as Hp2.
    { apply (progress_trans 1 0 1 0 _ w1 _ Hp). split; simpl; [lia|lia|done]. }
    destruct (Z.ltb_spec INT64_MAX (t2 + s * 1000)) as [Ho|Ho].
    + apply (spreads_after _ _ _ 2 0 w2 (reply.error kExpireError) (RError kExpireError));
        [done|apply error_encodes|simpl; no_cr|done|lia|lia|].
      intros kv Hl. destruct (Honce kv Hl) as (Hnow & He & Hl1). exists (forget t2 kv). split.
      * eapply (expire_fails _ _ _ _ _ _ _ (time (reads (world c))) t2); [exact Hreq|done|done|done| |done].
        rewrite <-He. by eexists.
      * apply (looks_like_now t2 _ w2); [done|]. by apply Hl1.
    + destruct (set_expire_at_kv time key (t2 + s * 1000) w2) as [Hp3 _]; [lia|].
      apply (spreads_after _ _ _ (2 + 1) (0 + 0) (Db.set_expire_at time key (t2 + s * 1000) w2).2
               (reply.integer 1) (RInteger 1));
        [done|by apply integer_encodes|done|by eapply progress_trans|lia|lia|].
      intros kv Hl. destruct (Honce kv Hl) as (Hnow & He & Hl1).
      assert (looks_like time kv w2) as Hl2 by (apply (looks_like_later kv w1); [done|simpl; lia|done]).
      destruct (retime_once key (t2 + s * 1000) kv w2 Hl2) as [H34 Hl3]; [lia|]. eexists. split; [|exact Hl3].
      eapply (expire_apart _ _ _ _ _ _ _ (time (reads (world c))) t2); [exact Hreq|done|done|done| |done].
      rewrite <-He. by eexists.
  - apply (spreads_after _ _ _ 1 0 w1 (reply.integer 0) (RInteger 0));
      [|by apply integer_encodes|done|done|lia|lia|].
    + unfold do_expire. run. rewrite Ha. run. by rewrite E.
    + intros kv Hl. destruct (Honce kv Hl) as (Hnow & He & Hl1). exists (forget (time (reads (world c))) kv). split.
      * apply (at_once _ _ _ _ _ (time (reads (world c)))); [done|]. unfold respond. rewrite Hreq. simpl. by rewrite <-He.
      * intros t Ht. rewrite forget_forget by lia. by apply Hl1.
Qed.

(** ** Dispatch *)
Lemma request_del a0 args ks :
  request (a0 :: args) = inr (DelKeys ks) → to_lower_ascii a0 = $"del" ∧ args = ks ∧ args ≠ [].
Proof. requested. Qed.

Lemma request_exists a0 args ks :
  request (a0 :: args) = inr (ExistsKeys ks) → to_lower_ascii a0 = $"exists" ∧ args = ks ∧ args ≠ [].
Proof. requested. Qed.

(** Whatever the parser hands over, and whatever the clock does, if only it
    does not go back. *)
Lemma dispatch_spreads c :
  args_ok (argv c) → store_ok (the_db (world c)) →
  spreads (dispatch time) c (clock_reads (argv c)) (closes (argv c)).
Proof.
  intros Hok Hst. destruct (argv c) as [|a0 args] eqn:Hargv; [by destruct Hok|].
  destruct (decide (to_lower_ascii a0 ∈ names)) as [Hin|Hn].
  2: { destruct (unknown_request a0 args Hn) as (Hfind & Hcl & Hrd & Hr). rewrite Hcl.
       exists (reply.error (unknown_command (a0 :: args))), (RError (unknown_command (a0 :: args))), (world c).
       rewrite Hargv. split_and!; [|apply error_encodes|intros He; by apply He|apply progress_refl|].
       - rewrite (dispatch_run time c a0 args), Hfind by (done || apply Hok). destruct c; simpl in *; subst.
         by rewrite orb_false_r.
       - intros kv Hl. exists (forget (time (reads (world c))) kv). split.
         + apply (at_once _ _ _ _ _ (time (reads (world c)))); [done|]. by rewrite Hr.
         + intros t Ht. rewrite forget_forget by done. by apply Hl. }
  destruct (one_instant (a0 :: args)) eqn:Hone.
  { rewrite <-Hargv. apply instant_spreads, dispatch_instant; [done|done| | |done|]; try by rewrite Hargv.
    - rewrite Hargv. by apply known_echo_safe.
    - left. by rewrite Hargv. }
  destruct Hok as (_ & Hargs & Hlen). unfold one_instant, clock_reads, closes in *.
  destruct (request (a0 :: args)) as [msg|[]] eqn:Er; try done.
  - destruct cond; try done. destruct ttl_ms as [ms|]; [|done].
    apply request_set in Er as Er'. destruct Er' as (Hl & opts & o & -> & Ho & Hc & Ht).
    rewrite !Forall_cons in Hargs. destruct Hargs as (_ & _ & Hv & _).
    eapply (spreads_eq _ (do_set time)).
    + eapply do_set_xx_spreads; [exact Hargv|exact Ho|done|by rewrite Hargv|done|done].
    + eapply (dispatch_known _ _ _ _ (mkCommand $"set" cmd_set (-3))); [done|done| |].
      * unfold find. by rewrite instance_lookup, Hl.
      * unfold arity_ok. simpl. lia.
  - apply request_del in Er as Er'. destruct Er' as (Hl & -> & Hne).
    eapply (spreads_eq _ (do_del time)).
    + eapply do_del_spreads; [exact Hargv|by rewrite Hargv|simpl in *; mach; lia].
    + eapply (dispatch_known _ _ _ _ (mkCommand $"del" cmd_del (-2))); [done|done| |].
      * unfold find. by rewrite instance_lookup, Hl.
      * unfold arity_ok. destruct keys; [done|]. simpl. lia.
  - apply request_exists in Er as Er'. destruct Er' as (Hl & -> & Hne).
    eapply (spreads_eq _ (do_exists time)).
    + eapply do_exists_spreads; [exact Hargv|by rewrite Hargv|simpl in *; mach; lia].
    + eapply (dispatch_known _ _ _ _ (mkCommand $"exists" cmd_exists (-2))); [done|done| |].
      * unfold find. by rewrite instance_lookup, Hl.
      * unfold arity_ok. destruct keys; [done|]. simpl. lia.
  - apply request_expire in Er as Er'. destruct Er' as (Hl & a & -> & Ha).
    eapply (spreads_eq _ (do_expire time)).
    + eapply do_expire_spreads; [exact Hargv|exact Ha|lia|by rewrite Hargv].
    + eapply (dispatch_known _ _ _ _ (mkCommand $"expire" cmd_expire 3)); [done|done| |done].
      unfold find. by rewrite instance_lookup, Hl.
Qed.
End Spread.
