(* ===== verification/Session.v ===== *)
(** * Sessions: commands, and expiry between them

    A history interleaves calls with active expiry cycles, as the event loop
    does.  [run_history] runs it on the implementation; [history_spec] says
    what a client may see: each reply is the specification's at its instant,
    and expiry cycles are invisible.  [history_over] says the same of calls that
    take their time: it holds of every history, whatever the clock does, if only
    it does not go back. *)
From S2P Require Import Prelude Buffer Digits Parser Writer Keyspace Expire Commands Options Spec.
From S2P Require Import Refine Handlers Dispatch Linear Spread.
Import Db (the_db, reads, mkWorld, map_, view, index_ok).

Inductive Event := Call (args : list bytes) | Tick (samples : nat).

(** ** What a client may see *)
Inductive history_spec : Z → KV → list Event → list Reply → Prop :=
  | history_nil t kv : history_spec t kv [] []
  | history_tick t kv n es rs : history_spec t kv es rs → history_spec t kv (Tick n :: es) rs
  | history_call t kv args now entries r kv' es rs :
      t ≤ now → Z.of_nat (size (forget now kv)) ≤ entries →
      respond now entries args (forget now kv) = (r, kv') →
      history_spec now kv' es rs →
      history_spec t kv (Call args :: es) (r :: rs).

(** The same, reading by reading of the clock: a call that finds [i] readings
    made and leaves [j] runs from [time i] to [time j], and makes no more of
    them than its kind does; the next one goes on from there, until [fin] have
    been made.  DBSIZE counts [m] entries: at least the live ones, and at most
    as many as there have been calls, [k] so far. *)
Inductive history_over (time : nat → Z) (fin : nat) : nat → nat → KV → list Event → list Reply → Prop :=
  | over_nil k kv : history_over time fin k fin kv [] []
  | over_tick k i j kv n es rs :
      (i ≤ j)%nat → history_over time fin k j kv es rs → history_over time fin k i kv (Tick n :: es) rs
  | over_call k i j kv args m r kv' es rs :
      (i ≤ j ≤ i + clock_reads args)%nat → (size (forget (time i) kv) ≤ m ≤ k)%nat →
      takes (time j) (time i) (s64 (Z.of_nat m)) args kv r kv' →
      history_over time fin (S k) j kv' es rs →
      history_over time fin k i kv (Call args :: es) (r :: rs).

Lemma history_over_later time fin k i kv es rs : history_over time fin k i kv es rs → (i ≤ fin)%nat.
Proof. induction 1; lia. Qed.

Lemma history_spec_earlier t t' kv es rs : history_spec t kv es rs → t' ≤ t → history_spec t' kv es rs.
Proof.
  induction 1 as [t kv|t kv n es rs _ IH|t kv args now entries r kv' es rs Ht Hn Hr Hh _]; intros Hle.
  - constructor.
  - constructor. by apply IH.
  - econstructor; [|done..]. lia.
Qed.

Lemma forget_size t t' kv : t ≤ t' → (size (forget t' kv) ≤ size (forget t kv))%nat.
Proof. intros Ht. rewrite <-(forget_forget t t') by done. apply map_subseteq_size, map_filter_subseteq. Qed.

(** Calls that one instant explains, and calls that no time passes during, make
    a history of instants. *)
Lemma history_over_collapses time fin k i kv es rs :
  monotone time → history_over time fin k i kv es rs → Z.of_nat k + Z.of_nat (length es) ≤ INT64_MAX →
  Forall (λ e, if e is Call args then one_instant args = true else True) es ∨ time i = time fin →
  history_spec (time i) kv es rs.
Proof.
  intros Hmono. induction 1 as [k kv|k i j kv n es rs Hij Hh IH|k i j kv args m r kv' es rs Hij Hm Htk Hh IH];
    intros Hn Hone; simpl in Hn; [constructor|..];
    pose proof (history_over_later _ _ _ _ _ _ _ Hh) as Hfin;
    assert (time i ≤ time j ≤ time fin) as Ht by (split; apply Hmono; lia);
    assert (Forall (λ e, if e is Call args then one_instant args = true else True) es ∨ time j = time fin) as Hone'
      by (destruct Hone as [Hone|]; [left; by apply Forall_cons in Hone as [_ ?]|right; lia]).
  - constructor. apply (history_spec_earlier (time j)); [|lia]. apply IH; [lia|done].
  - destruct (takes_collapses _ _ _ _ _ _ _ Htk) as (now & Hnow & Hr).
    { destruct Hone as [Hone|]; [left; by apply Forall_cons in Hone as [? _]|right; lia]. }
    assert (size (forget now kv) ≤ size (forget (time i) kv))%nat by (apply forget_size; lia).
    apply (history_call _ _ _ now (s64 (Z.of_nat m)) _ kv'); [lia|rewrite s64_small by (mach; lia); lia|done|].
    apply (history_spec_earlier (time j)); [|lia]. apply IH; [lia|done].
Qed.

Section Session.
Context {B : Type} `{!ByteQueue B} `{!ByteQueueLaws B}.
Context (time : nat → Z) (layout : nat → gset bytes → list (list bytes)).

(** ** The run *)
Definition run_event (e : Event) (s : B * Db.World) : B * Db.World :=
  match e with
  | Call args => let c := (dispatch time (new_ctx args s.1 s.2)).2 in (out c, world c)
  | Tick n => (s.1, (active_expire_cycle time layout n s.2).2)
  end.

Definition run_history (es : list Event) (s : B * Db.World) : B * Db.World :=
  foldl (λ s e, run_event e s) s es.

Context (Hclock : clock_ok time) (Hmono : monotone time) (Hlayout : layout_ok layout).

Lemma tick_ok n w kv :
  looks_like time kv w → store_ok (the_db w) →
  let w' := (active_expire_cycle time layout n w).2 in
  looks_like time kv w' ∧ store_ok (the_db w') ∧ (reads w ≤ reads w')%nat ∧
  (Db.size (the_db w') ≤ Db.size (the_db w))%nat.
Proof.
  intros Hl [Hi Hv] w'.
  pose proof (active_expire_cycle_ok time layout Hlayout n w) as Hrun. cbv zeta in Hrun.
  fold w' in Hrun. destruct Hrun as [Hidx _ Hview Hreads _ Hsize _ Hsub]. split_and!.
  - intros t Ht. rewrite (kv_view_eq t (the_db w)).
    + apply Hl. etrans; [apply Hmono|exact Ht]. lia.
    + apply Hview. intros i Hlt. etrans; [apply Hmono|exact Ht]. lia.
  - split; [by apply Hidx|]. intros k v Hk. by apply (Hv k), Hsub.
  - lia.
  - specialize (Hsize (Db.index_ok_weak _ Hi)). lia.
Qed.

Lemma call_event_ok args (o : B) w kv :
  bq_ok o → args_ok args → echo_safe args → calm time args w → looks_like time kv w → store_ok (the_db w) →
  ∃ now r kv' o' w', run_event (Call args) (o, w) = (o', w') ∧
    time (reads w) ≤ now ≤ time (reads w') ∧ bq_ok o' ∧ contents o' = contents o ++ wire r ∧ sendable r ∧
    respond now (s64 (Z.of_nat (Db.size (the_db w)))) args (forget now kv) = (r, kv') ∧
    looks_like time kv' w' ∧ store_ok (the_db w') ∧ (Db.size (the_db w') ≤ S (Db.size (the_db w)))%nat.
Proof.
  intros Ho Hargs Hecho Hf Hl Hok.
  destruct (dispatch_instant time Hclock Hmono (new_ctx args o w))
    as (g & r & w' & now & Hm & Hg & Hr & Hp & Hnow & Hkv); [done|done|done|done|]. simpl in *.
  destruct (Hg o Ho) as [Hbq Hc]. rewrite (Hl now) in Hkv by lia.
  exists now, r, (kv_of now (the_db w')), (g o), w'.
  split_and!; [by rewrite Hm|lia|lia|done|done|done|done| |by apply Hp|apply Hp].
  intros t Ht. apply kv_later. lia.
Qed.

(** The same of any call, under any clock that does not go back. *)
Lemma call_event_over args (o : B) w kv :
  bq_ok o → args_ok args → looks_like time kv w → store_ok (the_db w) →
  ∃ r kv' o' w', run_event (Call args) (o, w) = (o', w') ∧
    (reads w ≤ reads w' ≤ reads w + clock_reads args)%nat ∧ bq_ok o' ∧ contents o' = contents o ++ wire r ∧
    (echo_safe args → sendable r) ∧
    takes (time (reads w')) (time (reads w)) (entries_of w) args kv r kv' ∧
    looks_like time kv' w' ∧ store_ok (the_db w') ∧ (Db.size (the_db w') ≤ S (Db.size (the_db w)))%nat.
Proof.
  intros Ho Hargs Hl Hok.
  destruct (dispatch_spreads time Hclock Hmono (new_ctx args o w)) as (g & r & w' & Hm & Hg & Hr & Hp & Hs); [done|done|].
  destruct (Hs kv Hl) as (kv' & Ht & Hl'). destruct (Hg o Ho) as [Hbq Hc]. exists r, kv', (g o), w'.
  split_and!; [simpl; by rewrite Hm|destruct Hp; simpl in *; lia|destruct Hp; simpl in *; lia|done|done|done|done|done|by apply Hp|apply Hp].
Qed.

Lemma over_step fin k w args kv r kv' w' es rs :
  takes (time (reads w')) (time (reads w)) (entries_of w) args kv r kv' →
  looks_like time kv w → (Db.size (the_db w) ≤ k)%nat → (reads w ≤ reads w' ≤ reads w + clock_reads args)%nat →
  history_over time fin (S k) (reads w') kv' es rs → history_over time fin k (reads w) kv (Call args :: es) (r :: rs).
Proof.
  intros Htk Hl Hk Hrd Hh. eapply (over_call _ _ _ _ (reads w') _ _ (Db.size (the_db w))); [done| |exact Htk|done].
  split; [|done]. rewrite <-Hl by done. apply kv_size.
Qed.

(** The replies, and which of them RESP2 can carry. *)
Definition legible (cmds : list (list bytes)) (rs : list Reply) : Prop :=
  Forall2 (λ args r, echo_safe args → sendable r) cmds rs.

Lemma legible_sendable cmds rs : legible cmds rs → Forall echo_safe cmds → Forall sendable rs.
Proof.
  induction 1 as [|a r cmds rs Hr _ IH]; intros He; [constructor|]. apply Forall_cons in He as [? ?].
  constructor; auto.
Qed.

Lemma history_run_over cmds (o : B) w kv k :
  bq_ok o → Forall args_ok cmds → looks_like time kv w → store_ok (the_db w) → (Db.size (the_db w) ≤ k)%nat →
  let '(o', w') := run_history (Call <$> cmds) (o, w) in
  ∃ rs, contents o' = contents o ++ concat (wire <$> rs) ∧ bq_ok o' ∧ legible cmds rs ∧
    history_over time (reads w') k (reads w) kv (Call <$> cmds) rs.
Proof.
  intros Ho Hcmds. revert o w kv k Ho. induction Hcmds as [|args cmds Ha _ IH]; intros o w kv k Ho Hl Hok Hk.
  { exists []. split_and!; [by rewrite app_nil_r|done|constructor|by constructor]. }
  destruct (call_event_over args o w kv) as (r & kv' & o' & w' & Hrun & Hrd & Hbq & Hc & Hr & Htk & Hl' & Hok' & Hsz); [done..|].
  specialize (IH o' w' kv' (S k) Hbq Hl' Hok' ltac:(lia)).
  unfold run_history in *. rewrite fmap_cons. cbn [foldl]. rewrite Hrun.
  destruct (foldl _ (o', w') _) as [o2 w2]. destruct IH as (rs & Hrs & Hbq2 & Hleg & Hh). exists (r :: rs).
  split_and!; [by rewrite fmap_cons, concat_cons, Hrs, Hc, (assoc_L (++))|done|by constructor|].
  by eapply over_step.
Qed.
End Session.

