(* ===== verification/Kernel.v ===== *)
(** * The kernel, as the server sees it

    System calls are outside the program.  [Kernel] is an oracle: the answer
    to a call may depend on the whole history of calls and answers, so every
    behaviour of a kernel is some oracle.  [Action] is one call with its
    answer; the [Trace] of them is the program's observable behaviour.
    [kernel_ok] states what the manual pages promise and the code relies on. *)
From S2P Require Import Prelude.

Inductive errno := EAGAIN | EINTR | ECONNABORTED | EMFILE | ENFILE | EOTHER (n : Z).

#[export] Instance errno_eq_dec : EqDecision errno.
Proof. solve_decision. Defined.

(** A readiness report (poller.h). *)
Record PollEvent := mkPollEvent {
  ev_fd : Z;
  ev_readable : bool;
  ev_writable : bool;
  ev_error : bool;
}.

(** The socket options the program sets. *)
Inductive SockOpt := SO_REUSEADDR | TCP_NODELAY.

(** [fcntl]'s flag (Linux). *)
Definition O_NONBLOCK : Z := 2048.

(** One system call and its answer. *)
Inductive Action :=
  | ASocket (r : errno + Z)
  | ABind (fd : Z) (r : option errno)
  | AListen (fd : Z) (r : option errno)
  | ARead (fd : Z) (r : errno + bytes)
  | ASend (fd : Z) (p : bytes) (r : errno + nat)
  | AAccept (fd : Z) (r : errno + Z)
  | AClose (fd : Z)
  | AOpenNull (r : option Z)
  | AGetFl (fd : Z) (r : errno + Z)
  | ASetFl (fd flags : Z) (r : option errno)
  | ASetOpt (fd : Z) (opt : SockOpt) (ok : bool)
  | APollAdd (fd : Z) (want_write ok : bool)
  | APollMod (fd : Z) (want_write ok : bool)
  | APollDel (fd : Z) (ok : bool)
  | AWait (timeout_ms : Z) (r : option (list PollEvent))
  | AShutdown (r : bool).

Abbreviation Trace := (list Action).

(** The answers, given the history. *)
Class Kernel := {
  k_socket : Trace → errno + Z;
  k_bind : Trace → Z → bytes → Z → option errno;
  k_listen : Trace → Z → Z → option errno;
  k_read : Trace → Z → nat → errno + bytes;
  k_send : Trace → Z → bytes → errno + nat;
  k_accept : Trace → Z → errno + Z;
  k_open : Trace → option Z;
  k_getfl : Trace → Z → errno + Z;
  k_setfl : Trace → Z → Z → option errno;
  k_setopt : Trace → Z → SockOpt → bool;
  k_poll_add : Trace → Z → bool → bool;
  k_poll_mod : Trace → Z → bool → bool;
  k_poll_del : Trace → Z → bool;
  k_wait : Trace → Z → option (list PollEvent);
  k_shutdown : Trace → bool;
}.

(** What the poller watches after a history, and whether for writing too.  A
    call that failed changes nothing; closing a descriptor unregisters it. *)
Definition watch_step (a : Action) (w : gmap Z bool) : gmap Z bool :=
  match a with
  | APollAdd fd b true | APollMod fd b true => <[fd := b]> w
  | APollDel fd true | AClose fd => delete fd w
  | _ => w
  end.

Definition watched (t : Trace) : gmap Z bool := foldl (λ w a, watch_step a w) ∅ t.

(** The open descriptors after a history. *)
Definition open_step (a : Action) (o : gset Z) : gset Z :=
  match a with
  | ASocket (inr fd) | AAccept _ (inr fd) | AOpenNull (Some fd) => {[fd]} ∪ o
  | AClose fd => o ∖ {[fd]}
  | _ => o
  end.

Definition opened (t : Trace) : gset Z := foldl (λ o a, open_step a o) ∅ t.

(** The descriptors in non-blocking mode after a history: a new one is not. *)
Definition nonblock_step (a : Action) (n : gset Z) : gset Z :=
  match a with
  | ASetFl fd flags None => if Z.land flags O_NONBLOCK =? 0 then n ∖ {[fd]} else {[fd]} ∪ n
  | ASocket (inr fd) | AAccept _ (inr fd) | AOpenNull (Some fd) | AClose fd => n ∖ {[fd]}
  | _ => n
  end.

Definition nonblocking (t : Trace) : gset Z := foldl (λ n a, nonblock_step a n) ∅ t.

(** The descriptor a call would wait for, if it is in blocking mode. *)
Definition waits_on (a : Action) : option Z :=
  match a with ARead fd _ | ASend fd _ _ | AAccept fd _ => Some fd | _ => None end.

Definition is_wait (a : Action) : bool := match a with AWait _ _ => true | _ => false end.

(** What the caller of a system call owes it: a call that could wait is made on
    a descriptor in non-blocking mode, and a registration is made once, and
    changed or dropped only while it exists. *)
Definition proper (t : Trace) (a : Action) : Prop :=
  match a with
  | ARead fd _ | ASend fd _ _ | AAccept fd _ => fd ∈ nonblocking t
  | APollAdd fd _ _ => watched t !! fd = None
  | APollMod fd _ _ | APollDel fd _ => is_Some (watched t !! fd)
  | _ => True
  end.

Definition orderly (t : Trace) : Prop := ∀ t1 a t2, t = t1 ++ a :: t2 → proper t1 a.

(** The bytes handed to the kernel on [fd], in order: of a [send] that took [n]
    bytes, the first [n]. *)
Definition sent_by (fd : Z) (a : Action) : bytes :=
  match a with
  | ASend fd' p (inr n) => if fd' =? fd then take n p else []
  | _ => []
  end.

Definition sent (fd : Z) (t : Trace) : bytes := concat (sent_by fd <$> t).

Definition received_by (fd : Z) (a : Action) : bytes :=
  match a with
  | ARead fd' (inr p) => if fd' =? fd then p else []
  | _ => []
  end.

Definition received (fd : Z) (t : Trace) : bytes := concat (received_by fd <$> t).

Lemma sent_app fd t u : sent fd (t ++ u) = sent fd t ++ sent fd u.
Proof. unfold sent. by rewrite fmap_app, concat_app. Qed.

Lemma received_app fd t u : received fd (t ++ u) = received fd t ++ received fd u.
Proof. unfold received. by rewrite fmap_app, concat_app. Qed.

Lemma watched_snoc t a : watched (t ++ [a]) = watch_step a (watched t).
Proof. unfold watched. by rewrite foldl_app. Qed.

Lemma opened_snoc t a : opened (t ++ [a]) = open_step a (opened t).
Proof. unfold opened. by rewrite foldl_app. Qed.

Lemma nonblocking_snoc t a : nonblocking (t ++ [a]) = nonblock_step a (nonblocking t).
Proof. unfold nonblocking. by rewrite foldl_app. Qed.

Lemma orderly_nil : orderly [].
Proof. by intros [|? ?] ? ?. Qed.

Lemma orderly_snoc t a : orderly (t ++ [a]) ↔ orderly t ∧ proper t a.
Proof.
  split.
  - intros H. split; [|by apply (H t a [])]. intros t1 b t2 ->. apply (H t1 b (t2 ++ [a])).
    by rewrite <-(assoc_L (++)).
  - intros [H Ha] t1 b t2 E. destruct t2 as [|c t2 _] using rev_ind.
    + by apply app_inj_tail in E as [<- <-].
    + rewrite app_comm_cons, (assoc_L (++)) in E. apply app_inj_tail in E as [-> _]. by eapply H.
Qed.

(** [read] and [send] move at most what was asked; a signal interrupts a
    [send] at most [retries] times in a row; a new descriptor is a number not
    in use; changing or dropping a registration that exists succeeds. *)
Record kernel_ok `{!Kernel} (retries : nat) : Prop := {
  kernel_read t fd k p : k_read t fd k = inr p → (length p ≤ k)%nat;
  kernel_send t fd p k : k_send t fd p = inr k → (k ≤ length p)%nat;
  kernel_eintr t fd p :
    ∃ n, (n ≤ retries)%nat ∧ k_send (t ++ replicate n (ASend fd p (inl EINTR))) fd p ≠ inl EINTR;
  kernel_socket t r : k_socket t = inr r → 0 ≤ r ∧ r ∉ opened t;
  kernel_accept t fd r : k_accept t fd = inr r → 0 ≤ r ∧ r ∉ opened t;
  kernel_open t r : k_open t = Some r → 0 ≤ r ∧ r ∉ opened t;
  kernel_mod t fd w : is_Some (watched t !! fd) → k_poll_mod t fd w = true;
  kernel_del t fd : is_Some (watched t !! fd) → k_poll_del t fd = true;
}.
