(* ===== verification/Server.v ===== *)
(** * The server

    [src/net/server.h], [src/net/server.cpp], [src/net/conn.h] and
    [src/net/event_loop.cpp].  The state is the [Server] object with the event
    loop inside it; the methods are computations in the state monad over it.

    A [Conn&] is the descriptor of the connection, a key of [conns_].  Using
    one that has been erased is undefined behaviour in the source; here it sets
    the ghost flag [fault], and so does running out of fuel in the [send] loop.
    [ServerInv.v] shows that the flag is never set. *)
From S2P Require Import Prelude Buffer Digits Inline Parser Stream Writer Keyspace Expire Commands.
From S2P Require Import Kernel.

(** ** Connections (conn.h) *)
Record Conn (B : Type) := mkConn {
  in_ : B;
  out_ : B;
  parser : Parser;
  close_after_write : bool;
  write_armed : bool;
}.
Arguments mkConn {B}.
Arguments in_ {B}.
Arguments out_ {B}.
Arguments parser {B}.
Arguments close_after_write {B}.
Arguments write_armed {B}.

(** [new Conn]. *)
Definition new_conn {B} `{!ByteQueue B} : Conn B :=
  mkConn bq_empty bq_empty (new_parser default_limits) false false.

Definition set_in {B} (b : B) (c : Conn B) : Conn B :=
  mkConn b (out_ c) (parser c) (close_after_write c) (write_armed c).

Definition set_out {B} (b : B) (c : Conn B) : Conn B :=
  mkConn (in_ c) b (parser c) (close_after_write c) (write_armed c).

Definition set_armed {B} (a : bool) (c : Conn B) : Conn B :=
  mkConn (in_ c) (out_ c) (parser c) (close_after_write c) a.

(** ** Parsing and dispatching what has arrived

    The [for (;;)] of [process_input].  [LoopBreak] is a [break], [LoopLimit]
    the output limit. *)
Inductive LoopEnd := LoopBreak | LoopLimit.

Section InputLoop.
Context {B : Type} `{!ByteQueue B} (time : nat → Z) (max_output_buffer : Z).

Fixpoint input_loop (fuel : nat) (c : Conn B) (w : Db.World) : option (Conn B * Db.World * LoopEnd) :=
  match fuel with
  | O => None
  | S fuel' =>
      match parse (parser c) (in_ c) with
      | (p, i, Incomplete) => Some (mkConn i (out_ c) p (close_after_write c) (write_armed c), w, LoopBreak)
      | (p, i, Error perr) =>
          Some (mkConn i (reply.error ($"ERR " ++ perr) (out_ c)) p true (write_armed c), w, LoopBreak)
      | (p, i, Complete argv) =>
          if bool_decide (argv = []) then
            input_loop fuel' (mkConn i (out_ c) p (close_after_write c) (write_armed c)) w
          else
            let ctx := (dispatch time (new_ctx argv (out_ c) w)).2 in
            if close_after_reply ctx then
              Some (mkConn i (out ctx) p true (write_armed c), world ctx, LoopBreak)
            else
              let c' := mkConn i (out ctx) p (close_after_write c) (write_armed c) in
              if max_output_buffer <? Z.of_nat (readable (out ctx))
              then Some (c', world ctx, LoopLimit)
              else input_loop fuel' c' (world ctx)
      end
  end.

(** Each complete command consumes a byte. *)
Definition process_loop (c : Conn B) (w : Db.World) : Conn B * Db.World * LoopEnd :=
  default (c, w, LoopBreak) (input_loop (S (readable (in_ c))) c w).
End InputLoop.

(** ** The server object *)
Record ServerConfig := mkServerConfig {
  bind_addr : bytes;
  port : Z;
  backlog : Z;
  max_output_buffer : Z;
  tick_interval_ms : Z;
  active_expire_samples : nat;
}.

Definition default_config : ServerConfig :=
  mkServerConfig $"127.0.0.1" 6380 511 (64 * 1024 * 1024) 100 20.

(** The two callbacks the server registers. *)
Inductive IoCallback := ListenerCallback | ConnCallback.

(** A [std::unique_ptr<IoCallback>]: the callback, and when the object was
    allocated, which tells objects apart. *)
Record Registration := mkRegistration { callback : IoCallback; since : nat }.

Record Server := mkServer {
  cfg_ : ServerConfig;
  handlers_ : gmap Z Registration;
  retired_ : list Registration;
  running_ : bool;
  tick_ : bool;
  tick_interval_ms_ : Z;
  db_ : Db.World;
  listen_fd_ : Z;
  spare_fd_ : Z;
  listener_paused_ : bool;
  conns_ : gmap Z (Conn Buffer.Buffer);
  trace : Trace;
  fault : bool;
}.

Definition set_handlers (h : gmap Z Registration) (r : list Registration) (s : Server) : Server :=
  mkServer (cfg_ s) h r (running_ s) (tick_ s) (tick_interval_ms_ s) (db_ s) (listen_fd_ s)
    (spare_fd_ s) (listener_paused_ s) (conns_ s) (trace s) (fault s).

Definition set_running (b : bool) (s : Server) : Server :=
  mkServer (cfg_ s) (handlers_ s) (retired_ s) b (tick_ s) (tick_interval_ms_ s) (db_ s) (listen_fd_ s) (spare_fd_ s)
    (listener_paused_ s) (conns_ s) (trace s) (fault s).

Definition set_world (w : Db.World) (s : Server) : Server :=
  mkServer (cfg_ s) (handlers_ s) (retired_ s) (running_ s) (tick_ s) (tick_interval_ms_ s) w (listen_fd_ s) (spare_fd_ s)
    (listener_paused_ s) (conns_ s) (trace s) (fault s).

Definition set_spare (fd : Z) (s : Server) : Server :=
  mkServer (cfg_ s) (handlers_ s) (retired_ s) (running_ s) (tick_ s) (tick_interval_ms_ s) (db_ s) (listen_fd_ s) fd
    (listener_paused_ s) (conns_ s) (trace s) (fault s).

Definition set_paused (b : bool) (s : Server) : Server :=
  mkServer (cfg_ s) (handlers_ s) (retired_ s) (running_ s) (tick_ s) (tick_interval_ms_ s) (db_ s) (listen_fd_ s) (spare_fd_ s)
    b (conns_ s) (trace s) (fault s).

Definition set_conns (m : gmap Z (Conn Buffer.Buffer)) (s : Server) : Server :=
  mkServer (cfg_ s) (handlers_ s) (retired_ s) (running_ s) (tick_ s) (tick_interval_ms_ s) (db_ s) (listen_fd_ s) (spare_fd_ s)
    (listener_paused_ s) m (trace s) (fault s).

Definition set_listen (fd : Z) (s : Server) : Server :=
  mkServer (cfg_ s) (handlers_ s) (retired_ s) (running_ s) (tick_ s) (tick_interval_ms_ s) (db_ s) fd (spare_fd_ s)
    (listener_paused_ s) (conns_ s) (trace s) (fault s).

Definition record (a : Action) (s : Server) : Server :=
  mkServer (cfg_ s) (handlers_ s) (retired_ s) (running_ s) (tick_ s) (tick_interval_ms_ s) (db_ s) (listen_fd_ s) (spare_fd_ s)
    (listener_paused_ s) (conns_ s) (trace s ++ [a]) (fault s).

(** [EventLoop::set_tick_interval_ms], then [set_tick]. *)
Definition set_timer (ms : Z) (s : Server) : Server :=
  mkServer (cfg_ s) (handlers_ s) (retired_ s) (running_ s) true ms (db_ s) (listen_fd_ s) (spare_fd_ s)
    (listener_paused_ s) (conns_ s) (trace s) (fault s).

(** [Server(config)]: a fresh keyspace, nothing open. *)
Definition new_server (cfg : ServerConfig) (random_device : Z) : Server :=
  mkServer cfg ∅ [] false false 100 (Db.mkWorld (Db.new_db random_device) 0) (-1) (-1) false ∅ [] false.

(** [connection_count], and the loop's [registered_count]. *)
Definition connection_count (s : Server) : nat := size (conns_ s).

Definition registered_count (s : Server) : nat := size (handlers_ s).

Definition set_fault (s : Server) : Server :=
  mkServer (cfg_ s) (handlers_ s) (retired_ s) (running_ s) (tick_ s) (tick_interval_ms_ s) (db_ s) (listen_fd_ s) (spare_fd_ s)
    (listener_paused_ s) (conns_ s) (trace s) true.

Abbreviation M := (ST Server).

Definition kReadChunk : nat := 16 * 1024.

Definition kMaxAcceptsPerEvent : nat := 1000.

Section Methods.
Context `{!Kernel} (time : nat → Z) (layout : nat → gset bytes → list (list bytes)) (retries : nat).

(** ** System calls *)
Definition sys {A} (f : Trace → A) (act : A → Action) : M A := λ s,
  let r := f (trace s) in (r, record (act r) s).

Definition sys_socket : M (errno + Z) := sys k_socket ASocket.

Definition sys_bind (fd : Z) (addr : bytes) (port : Z) : M (option errno) :=
  sys (λ t, k_bind t fd addr port) (ABind fd).

Definition sys_listen (fd backlog : Z) : M (option errno) := sys (λ t, k_listen t fd backlog) (AListen fd).

Definition sys_read (fd : Z) (n : nat) : M (errno + bytes) := sys (λ t, k_read t fd n) (ARead fd).

Definition sys_send (fd : Z) (p : bytes) : M (errno + nat) := sys (λ t, k_send t fd p) (ASend fd p).

Definition sys_accept (fd : Z) : M (errno + Z) := sys (λ t, k_accept t fd) (AAccept fd).

Definition sys_close (fd : Z) : M unit := sys (λ _, tt) (λ _, AClose fd).

Definition sys_open_null : M (option Z) := sys k_open AOpenNull.

Definition sys_getfl (fd : Z) : M (errno + Z) := sys (λ t, k_getfl t fd) (AGetFl fd).

Definition sys_setfl (fd flags : Z) : M (option errno) := sys (λ t, k_setfl t fd flags) (ASetFl fd flags).

Definition sys_setopt (fd : Z) (opt : SockOpt) : M bool := sys (λ t, k_setopt t fd opt) (ASetOpt fd opt).

Definition sys_poll_add (fd : Z) (w : bool) : M bool := sys (λ t, k_poll_add t fd w) (APollAdd fd w).

Definition sys_poll_mod (fd : Z) (w : bool) : M bool := sys (λ t, k_poll_mod t fd w) (APollMod fd w).

Definition sys_poll_del (fd : Z) : M bool := sys (λ t, k_poll_del t fd) (APollDel fd).

Definition sys_wait (timeout_ms : Z) : M (option (list PollEvent)) :=
  sys (λ t, k_wait t timeout_ms) (AWait timeout_ms).

Definition sys_shutdown : M bool := sys k_shutdown AShutdown.

(** ** Socket helpers (socket.cpp)

    [None] is success. *)
Definition set_nonblocking (fd : Z) : M (option errno) :=
  r ← sys_getfl fd;
  match r with
  | inl e => mret (Some e)
  | inr flags => sys_setfl fd (Z.lor flags O_NONBLOCK)
  end.

Definition set_tcp_nodelay (fd : Z) : M bool := sys_setopt fd TCP_NODELAY.

(** On Linux there is nothing to do. *)
Definition suppress_sigpipe (fd : Z) : M bool := mret true.

(** ** The event loop's registrations (event_loop.cpp) *)
Definition loop_add (fd : Z) (want_write : bool) (cb : IoCallback) : M bool :=
  ok ← sys_poll_add fd want_write;
  if ok : bool then
    _ ← modify (λ s,
      set_handlers (<[fd := mkRegistration cb (length (trace s))]> (handlers_ s)) (retired_ s) s);
    mret true
  else mret false.

Definition loop_set_write_interest (fd : Z) (want_write : bool) : M bool := sys_poll_mod fd want_write.

Definition loop_remove (fd : Z) : M unit :=
  s ← get;
  match handlers_ s !! fd with
  | None => mret tt
  | Some r =>
      _ ← sys_poll_del fd;
      modify (λ s, set_handlers (delete fd (handlers_ s)) (retired_ s ++ [r]) s)
  end.

(** ** Connections through their references *)
Definition the_conn (fd : Z) : M (Conn Buffer.Buffer) := λ s,
  match conns_ s !! fd with
  | Some c => (c, s)
  | None => (new_conn, set_fault s)
  end.

Definition put_conn (fd : Z) (c : Conn Buffer.Buffer) : M unit := λ s,
  match conns_ s !! fd with
  | Some _ => (tt, set_conns (<[fd := c]> (conns_ s)) s)
  | None => (tt, set_fault s)
  end.

(** ** Descriptors in reserve *)
Definition reopen_spare_fd : M bool :=
  s ← get;
  if 0 <=? spare_fd_ s then mret true
  else
    r ← sys_open_null;
    let fd := default (-1) r in
    _ ← modify (set_spare fd); mret (0 <=? fd).

Definition pause_listener : M unit :=
  s ← get;
  if listener_paused_ s then mret tt
  else _ ← loop_remove (listen_fd_ s); modify (set_paused true).

Definition resume_listener : M unit :=
  s ← get;
  if negb (listener_paused_ s) then mret tt
  else
    ok ← reopen_spare_fd;
    if negb ok then mret tt
    else
      added ← loop_add (listen_fd_ s) false ListenerCallback;
      if negb added then mret tt else modify (set_paused false).

Definition shed_connection : M unit :=
  s ← get;
  reopened ←
    (if 0 <=? spare_fd_ s then
       _ ← sys_close (spare_fd_ s);
       _ ← modify (set_spare (-1));
       r ← sys_accept (listen_fd_ s);
       _ ← (match r with inr fd => sys_close fd | inl _ => mret tt end);
       reopen_spare_fd
     else mret false);
  if reopened : bool then mret tt else pause_listener.

(** ** Connections *)
Definition close_conn (fd : Z) : M unit :=
  _ ← loop_remove fd;
  _ ← sys_close fd;
  _ ← modify (λ s, set_conns (delete fd (conns_ s)) s);
  resume_listener.

Definition add_connection (fd : Z) : M unit :=
  r ← set_nonblocking fd;
  match r with
  | Some _ => sys_close fd
  | None =>
      _ ← set_tcp_nodelay fd;
      _ ← suppress_sigpipe fd;
      added ← loop_add fd false ConnCallback;
      if negb added then sys_close fd
      else modify (λ s, set_conns (<[fd := new_conn]> (conns_ s)) s)
  end.

(** The [while (!c.out.empty())] loop: [true] when the loop ends, [false] when
    it closed the connection. *)
Fixpoint flush_loop (fuel : nat) (fd : Z) : M bool :=
  c ← the_conn fd;
  if (Buffer.readable (out_ c) =? 0)%nat then mret true
  else
    match fuel with
    | O => _ ← modify set_fault; mret true
    | S fuel' =>
        r ← sys_send fd (Buffer.to_string (out_ c));
        match r with
        | inr (S _ as n) =>
            _ ← put_conn fd (set_out (Buffer.consume n (out_ c)) c); flush_loop fuel' fd
        | inl EINTR => flush_loop fuel' fd
        | inl EAGAIN => mret true
        | _ => _ ← close_conn fd; mret false
        end
    end.

Definition flush_output (fd : Z) : M bool :=
  c ← the_conn fd;
  alive ← flush_loop (Buffer.readable (out_ c) * S retries) fd;
  if negb alive then mret false
  else
    c ← the_conn fd;
    if (Buffer.readable (out_ c) =? 0)%nat then
      if close_after_write c then _ ← close_conn fd; mret false
      else if write_armed c then
        _ ← loop_set_write_interest fd false;
        _ ← put_conn fd (set_armed false c); mret true
      else mret true
    else if negb (write_armed c) then
      _ ← loop_set_write_interest fd true;
      _ ← put_conn fd (set_armed true c); mret true
    else mret true.

Definition process_input (fd : Z) : M bool :=
  c ← the_conn fd;
  s ← get;
  let '(c', w, e) := process_loop time (max_output_buffer (cfg_ s)) c (db_ s) in
  _ ← put_conn fd c';
  _ ← modify (set_world w);
  match e with
  | LoopLimit => _ ← close_conn fd; mret false
  | LoopBreak => flush_output fd
  end.

Definition handle_read (fd : Z) : M bool :=
  c ← the_conn fd;
  let c := set_in (Buffer.ensure_writable kReadChunk (in_ c)) c in
  _ ← put_conn fd c;
  r ← sys_read fd kReadChunk;
  match r with
  | inr [] => _ ← close_conn fd; mret false
  | inl EAGAIN | inl EINTR => mret true
  | inl _ => _ ← close_conn fd; mret false
  | inr p =>
      _ ← put_conn fd (set_in (Buffer.commit (length p) (Buffer.store p (in_ c))) c);
      process_input fd
  end.

Definition on_conn_event (fd : Z) (readable writable : bool) : M unit :=
  s ← get;
  match conns_ s !! fd with
  | None => mret tt
  | Some _ =>
      ok ← (if readable then handle_read fd else mret true);
      if negb ok then mret tt
      else
        c ← the_conn fd;
        ok ← (if writable && negb (Buffer.empty (out_ c)) then flush_output fd else mret true);
        if negb ok then mret tt
        else
          c ← the_conn fd;
          if close_after_write c && Buffer.empty (out_ c) then close_conn fd else mret tt
  end.

(** The [for] loop of [on_listener_readable], [n] iterations left. *)
Fixpoint accept_loop (n : nat) : M unit :=
  match n with
  | O => mret tt
  | S n' =>
      s ← get;
      r ← sys_accept (listen_fd_ s);
      match r with
      | inr fd => _ ← add_connection fd; accept_loop n'
      | inl EAGAIN => mret tt
      | inl EINTR => accept_loop n'
      | inl ECONNABORTED => accept_loop n'
      | inl EMFILE | inl ENFILE => shed_connection
      | inl (EOTHER _) => mret tt
      end
  end.

Definition on_listener_readable : M unit := accept_loop kMaxAcceptsPerEvent.

(** ** The loop *)
Definition on_tick : M unit :=
  s ← get;
  let '(_, w) := active_expire_cycle time layout (active_expire_samples (cfg_ s)) (db_ s) in
  _ ← modify (set_world w);
  stop ← sys_shutdown;
  if stop : bool then modify (set_running false) else mret tt.

Definition dispatch_event (ev : PollEvent) : M unit :=
  s ← get;
  match callback <$> handlers_ s !! ev_fd ev with
  | None => mret tt
  | Some ListenerCallback => if ev_readable ev then on_listener_readable else mret tt
  | Some ConnCallback => on_conn_event (ev_fd ev) (ev_readable ev) (ev_writable ev)
  end.

Fixpoint dispatch_events (evs : list PollEvent) : M unit :=
  match evs with
  | [] => mret tt
  | ev :: evs' => _ ← dispatch_event ev; dispatch_events evs'
  end.

(** [if (tick_) tick_();]. *)
Definition tick : M unit := s ← get; if tick_ s then on_tick else mret tt.

(** One iteration of the loop; [false] when it breaks. *)
Definition iterate : M bool :=
  s ← get;
  r ← sys_wait (tick_interval_ms_ s);
  match r with
  | None => mret false
  | Some evs =>
      _ ← dispatch_events evs;
      _ ← tick;
      _ ← modify (λ s, set_handlers (handlers_ s) [] s);
      mret true
  end.

(** [while (running_)], at most [n] iterations of it. *)
Fixpoint run_loop (n : nat) : M unit :=
  match n with
  | O => mret tt
  | S n' =>
      s ← get;
      if running_ s then
        ok ← iterate;
        if ok : bool then run_loop n' else modify (set_running false)
      else mret tt
  end.

Definition run (n : nat) : M unit := _ ← modify (set_running true); run_loop n.

(** ** Starting and stopping

    [sock::listen_on] (socket.cpp): the message, or the listening descriptor.
    [strerror] and [inet_pton] are the C library's. *)
Context (strerror : errno → bytes) (inet_pton : bytes → bool) (poller_valid : bool) (backend_name : bytes).

Definition errno_str (what : bytes) (e : errno) : bytes := what ++ $": " ++ strerror e.

Definition listen_on (bind_addr : bytes) (port backlog : Z) : M (bytes + Z) :=
  r ← sys_socket;
  match r with
  | inl e => mret (inl (errno_str $"socket" e))
  | inr fd =>
      _ ← sys_setopt fd SO_REUSEADDR;
      if negb (inet_pton bind_addr) then
        _ ← sys_close fd; mret (inl ($"invalid bind address: " ++ bind_addr))
      else
        r ← sys_bind fd bind_addr port;
        match r with
        | Some e => _ ← sys_close fd; mret (inl (errno_str $"bind" e))
        | None =>
            r ← sys_listen fd backlog;
            match r with
            | Some e => _ ← sys_close fd; mret (inl (errno_str $"listen" e))
            | None =>
                r ← set_nonblocking fd;
                match r with
                | Some e => _ ← sys_close fd; mret (inl (errno_str $"fcntl(O_NONBLOCK)" e))
                | None => mret (inr fd)
                end
            end
        end
  end.

(** [None] is success, [Some err] the failure and its explanation. *)
Definition start : M (option bytes) :=
  if negb poller_valid then mret (Some ($"failed to create " ++ backend_name))
  else
    s ← get;
    r ← listen_on (bind_addr (cfg_ s)) (port (cfg_ s)) (backlog (cfg_ s));
    match r with
    | inl err => _ ← modify (set_listen (-1)); mret (Some err)
    | inr fd =>
        _ ← modify (set_listen fd);
        _ ← reopen_spare_fd;
        _ ← modify (set_timer (tick_interval_ms (cfg_ s)));
        added ← loop_add fd false ListenerCallback;
        if negb added then mret (Some $"failed to register the listener with the poller")
        else mret None
    end.

Fixpoint close_all (fds : list Z) : M unit :=
  match fds with
  | [] => mret tt
  | fd :: fds' => _ ← sys_close fd; close_all fds'
  end.

(** [~Server]. *)
Definition destroy : M unit :=
  s ← get;
  _ ← close_all (map_to_list (conns_ s)).*1;
  _ ← modify (set_conns ∅);
  _ ← (if 0 <=? listen_fd_ s then sys_close (listen_fd_ s) else mret tt);
  if 0 <=? spare_fd_ s then sys_close (spare_fd_ s) else mret tt.
End Methods.
