(* ===== verification/Input.v ===== *)
(** * From received bytes to replies

    [process_loop], the parse-and-dispatch loop of [process_input], against the
    protocol and the command specifications: it runs the commands that [drain]
    yields, in order, and its output is the wire form of their replies. *)
From S2P Require Import Prelude Buffer Digits Inline Parser Stream Writer Keyspace Expire Commands.
From S2P Require Import Options Spec Refine Handlers Dispatch Linear Session Kernel Server.
Import Db (the_db, reads, mkWorld).

(** A call as the event loop makes it; a blank line or an empty array is none. *)
Definition calls_of (cmds : list (list bytes)) : list Event := Call <$> filter (λ a, a ≠ []) cmds.

Section Input.
Context {B : Type} `{!ByteQueue B} `{!ByteQueueLaws B} (time : nat → Z) (Hclock : clock_ok time) (limit : Z).

Implicit Types (c : Conn B) (w : Db.World).

Lemma parse_contents p (b : B) p' b' st :
  bq_ok b → parse p b = (p', b', st) → bq_ok b' ∧ parse p (contents b) = (p', contents b', st).
Proof.
  intros Hb H. destruct (parse_sim p b Hb) as (H1 & H2 & H3 & H4). rewrite H in *. simpl in *.
  split; [done|]. destruct (parse p (contents b)) as [[p2 b2] st2]. simpl in *. by subst.
Qed.

(** What the loop relies on and keeps. *)
Record conn_pre c : Prop := {
  pre_in : bq_ok (in_ c);
  pre_out : bq_ok (out_ c);
  pre_parser : parser_ok (parser c);
  pre_limits : limits_ (parser c) = default_limits;
}.

Lemma new_conn_pre : conn_pre new_conn.
Proof. split; simpl; [apply bq_empty_ok|apply bq_empty_ok|apply new_parser_ok|done]. unfold limits_ok. simpl. mach. lia. Qed.

(** The parser never hands over more than the command layer expects. *)
Lemma call_args_ok p s p' s' argv :
  parser_ok p → limits_ p = default_limits → parse p s = (p', s', Complete argv) → argv ≠ [] →
  args_ok argv ∧ parser_ok p' ∧ limits_ p' = default_limits ∧ (length s' < length s)%nat.
Proof.
  intros Hp Hl H Hne. pose proof (parse_ok p s Hp) as Hok. rewrite H in Hok.
  destruct Hok as (Hp' & Hl' & _ & Hlt & Hn & Hf). rewrite Hl in *.
  change (Z.max (max_multibulk_args default_limits) (max_inline_len default_limits)) with 1048576 in Hn.
  change (Z.max (max_bulk_len default_limits) (max_inline_len default_limits)) with 536870912 in Hf.
  split_and!; try done. split_and!; [done| |lia].
  eapply Forall_impl; [exact Hf|]. intros a Ha. unfold arg_ok. mach. lia.
Qed.

(** The loop always ends, and keeps everything in order. *)
Lemma input_loop_total fuel c w :
  conn_pre c → store_ok (the_db w) → (length (contents (in_ c)) < fuel)%nat →
  ∃ c' w' e, input_loop time limit fuel c w = Some (c', w', e) ∧
    conn_pre c' ∧ store_ok (the_db w') ∧ write_armed c' = write_armed c ∧
    (∃ x, contents (out_ c') = contents (out_ c) ++ x) ∧
    (close_after_write c = true → close_after_write c' = true).
Proof.
  revert c w. induction fuel as [|fuel IH]; intros c w [Hi Ho Hp Hl] Hok Hf; [lia|]. simpl.
  destruct (parse (parser c) (in_ c)) as [[p i] st] eqn:E.
  destruct (parse_contents _ _ _ _ _ Hi E) as [Hi' E'].
  pose proof (parse_ok (parser c) (contents (in_ c)) Hp) as Hcall. rewrite E' in Hcall.
  destruct Hcall as (Hp' & Hl' & Hst). rewrite Hl in Hl'. destruct st as [|argv|perr].
  - eexists _, _, _. split; [done|]. split_and!; [by split|done|done| |done].
    exists []. by rewrite app_nil_r.
  - destruct Hst as (_ & Hlt & _). case_bool_decide as Hne.
    + destruct (IH (mkConn i (out_ c) p (close_after_write c) (write_armed c)) w)
        as (c' & w' & e & Hrun & Hres); [by split|done|simpl; lia|]. eauto 10.
    + destruct (call_args_ok _ _ _ _ _ Hp Hl E' Hne) as (Hargs & _).
      destruct (dispatch_answers time Hclock (new_ctx argv (out_ c) w)) as (g & r & w1 & Hm & Hg & Hpr & _);
        [done|done|]. simpl in Hm, Hpr. destruct (Hg _ Ho) as [Hgo Hgc].
      rewrite Hm. simpl. destruct (closes argv).
      { eexists _, _, _. split; [done|]. split_and!; [by split|by apply Hpr|done|by eexists|done]. }
      destruct (limit <? _).
      { eexists _, _, _. split; [done|]. split_and!; [by split|by apply Hpr|done|by eexists|done]. }
      destruct (IH (mkConn i (g (out_ c)) p (close_after_write c) (write_armed c)) w1)
        as (c' & w' & e & Hrun & Hpre & Hok' & Ha & [x Hx] & Hc); [by split|by apply Hpr|simpl; lia|].
      exists c', w', e. split_and!; try done. exists (wire r ++ x). by rewrite Hx, (assoc_L (++)), <-Hgc.
  - destruct (error_encodes ($"ERR " ++ perr) (out_ c) Ho) as [Hgo Hgc].
    eexists _, _, _. split; [done|]. split_and!; [by split|done|done|by eexists|done].
Qed.

Lemma input_loop_mono f1 f2 c w r :
  input_loop time limit f1 c w = Some r → (f1 ≤ f2)%nat → input_loop time limit f2 c w = Some r.
Proof.
  revert f2 c w. induction f1 as [|f1 IH]; intros [|f2] c w H Hf; [done|done|lia|]. simpl in *.
  destruct (parse (parser c) (in_ c)) as [[p i] [|argv|perr]]; [done| |done].
  case_bool_decide; [apply IH; [done|lia]|]. destruct (close_after_reply _); [done|].
  destruct (limit <? _); [done|]. apply IH; [done|lia].
Qed.

Lemma input_loop_process c w :
  conn_pre c → store_ok (the_db w) →
  input_loop time limit (S (readable (in_ c))) c w = Some (process_loop time limit c w).
Proof.
  intros Hc Hok. unfold process_loop.
  destruct (input_loop_total (S (readable (in_ c))) c w) as (c' & w' & e & H & _); [done|done| |by rewrite H].
  rewrite readable_contents by apply Hc. lia.
Qed.

Lemma process_loop_ok c w :
  conn_pre c → store_ok (the_db w) →
  let '(c', w', _) := process_loop time limit c w in
  conn_pre c' ∧ store_ok (the_db w') ∧ write_armed c' = write_armed c ∧
  (∃ x, contents (out_ c') = contents (out_ c) ++ x) ∧
  (close_after_write c = true → close_after_write c' = true).
Proof.
  intros Hc Hok. pose proof (input_loop_process c w Hc Hok) as H.
  destruct (input_loop_total (S (readable (in_ c))) c w) as (c' & w' & e & H' & Hres); [done|done| |].
  { rewrite readable_contents by apply Hc. lia. }
  rewrite H' in H. injection H as <-. done.
Qed.

(** ** What the loop computes *)
Context (layout : nat → gset bytes → list (list bytes)).

Lemma run_history_extends es (o : B) w :
  bq_ok o → store_ok (the_db w) → Forall (λ e, if e is Call args then args_ok args else False) es →
  (∃ x, contents (run_history time layout es (o, w)).1 = contents o ++ x) ∧
  bq_ok (run_history time layout es (o, w)).1 ∧ store_ok (the_db (run_history time layout es (o, w)).2).
Proof.
  intros Ho Hok Hes. revert o w Ho Hok. induction Hes as [|[args|n] es He _ IH]; intros o w Ho Hok.
  - split_and!; [|done|done]. exists []. by rewrite app_nil_r.
  - destruct (dispatch_answers time Hclock (new_ctx args o w)) as (g & r & w' & Hm & Hg & Hp & _);
      [done|done|]. simpl in Hm, Hp. destruct (Hg o Ho) as [Hgo Hgc].
    destruct (IH (g o) w' Hgo) as [[x Hx] Hrest]; [by apply Hp|].
    unfold run_history in *. cbn [foldl run_event fst snd]. rewrite Hm. cbn [snd out world].
    split; [|done]. exists (wire r ++ x). by rewrite Hx, Hgc, (assoc_L (++)).
  - done.
Qed.

Lemma calls_of_nonempty argv cmds : argv ≠ [] → calls_of (argv :: cmds) = Call argv :: calls_of cmds.
Proof. intros H. unfold calls_of. by rewrite filter_cons_True. Qed.

Definition loop_result c w cmds p' s' (e : option bytes) (r : Conn B * Db.World * LoopEnd) : Prop :=
  let '(c', w', _) := r in
  let '(o1, w1) := run_history time layout (calls_of cmds) (out_ c, w) in
  w' = w1 ∧ parser c' = p' ∧ contents (in_ c') = s' ∧
  match e with
  | None => out_ c' = o1 ∧ close_after_write c' = close_after_write c
  | Some m => out_ c' = reply.error ($"ERR " ++ m) o1 ∧ close_after_write c' = true
  end.

Lemma input_loop_run fuel c w cmds p' s' e r :
  conn_pre c → store_ok (the_db w) →
  drain_all (parser c) (contents (in_ c)) = (cmds, p', s', e) →
  Forall (λ a, closes a = false) cmds →
  input_loop time limit fuel c w = Some r → r.2 = LoopBreak → loop_result c w cmds p' s' e r.
Proof.
  revert c w cmds. induction fuel as [|fuel IH]; intros c w cmds [Hi Ho Hp Hl] Hok Hd Hcl Hrun Hend; [done|].
  simpl in Hrun. destruct (parse (parser c) (in_ c)) as [[p i] st] eqn:E.
  destruct (parse_contents _ _ _ _ _ Hi E) as [Hi' E']. rewrite drain_all_step, E' in Hd by done.
  destruct st as [|argv|perr]; [by simplify_eq/=| |by simplify_eq/=].
  destruct (drain_all p (contents i)) as [[[cmds' p1] s1] e1] eqn:Ed. simplify_eq/=.
  rewrite Forall_cons in Hcl. destruct Hcl as [Hcl Hcls].
  pose proof (parse_ok (parser c) (contents (in_ c)) Hp) as Hcall. rewrite E' in Hcall.
  destruct Hcall as (Hp' & Hl' & _). rewrite Hl in Hl'. case_bool_decide as Hne.
  - subst argv. refine (IH (mkConn i (out_ c) p (close_after_write c) (write_armed c)) w cmds' _ _ Ed _ Hrun _);
      [by split|done|done|done].
  - destruct (call_args_ok _ _ _ _ _ Hp Hl E' Hne) as (Hargs & _).
    destruct (dispatch_answers time Hclock (new_ctx argv (out_ c) w)) as (g & r1 & w1 & Hm & Hg & Hpr & _);
      [done|done|]. simpl in Hm, Hpr. destruct (Hg _ Ho) as [Hgo Hgc].
    rewrite Hcl in Hm. rewrite Hm in Hrun. simpl in Hrun.
    destruct (limit <? _); [by simplify_eq/=|].
    pose proof (IH (mkConn i (g (out_ c)) p (close_after_write c) (write_armed c)) w1 cmds') as Hres.
    specialize (Hres ltac:(by split) ltac:(by apply Hpr) Ed Hcls Hrun Hend).
    unfold loop_result in *. destruct r as [[c' w'] ?]. rewrite calls_of_nonempty by done.
    unfold run_history in *. cbn [foldl run_event fst snd]. rewrite Hm. cbn [snd out world].
    exact Hres.
Qed.

Lemma calls_of_app cmds cmds' : calls_of (cmds ++ cmds') = calls_of cmds ++ calls_of cmds'.
Proof. unfold calls_of. by rewrite filter_app, fmap_app. Qed.

Lemma drain_args p s cmds p' s' e :
  parser_ok p → limits_ p = default_limits → drain_all p s = (cmds, p', s', e) →
  Forall (λ e, if e is Call args then args_ok args else False) (calls_of cmds).
Proof.
  intros Hp. revert cmds. revert p s Hp.
  refine (drain_ind (λ p s, ∀ cmds, limits_ p = default_limits → drain_all p s = (cmds, p', s', e) →
    Forall (λ e, if e is Call args then args_ok args else False) (calls_of cmds)) _).
  intros p s Hp IH cmds Hl Hd. rewrite drain_all_step in Hd by done.
  destruct (parse p s) as [[p1 s1] [|argv|perr]] eqn:E; [by simplify_eq/=| |by simplify_eq/=].
  destruct (drain_all p1 s1) as [[[cmds' p2] s2] e2] eqn:Ed. simplify_eq/=.
  pose proof (parse_ok p s Hp) as Hcall. rewrite E in Hcall. destruct Hcall as (Hp1 & Hl1 & _).
  assert (Forall (λ e, if e is Call args then args_ok args else False) (calls_of cmds')) as Hrest.
  { eapply IH; [done|done|congruence|done]. }
  destruct (decide (argv = [])) as [->|Hne]; [done|]. rewrite calls_of_nonempty by done.
  constructor; [|done]. by apply (call_args_ok p s p1 s1 argv).
Qed.

Lemma drain_limits p s cmds p' s' e :
  parser_ok p → limits_ p = default_limits → drain_all p s = (cmds, p', s', e) → limits_ p' = default_limits.
Proof.
  intros Hp. revert cmds. revert p s Hp.
  refine (drain_ind (λ p s, ∀ cmds, limits_ p = default_limits → drain_all p s = (cmds, p', s', e) →
    limits_ p' = default_limits) _).
  intros p s Hp IH cmds Hl Hd. rewrite drain_all_step in Hd by done.
  pose proof (parse_ok p s Hp) as Hcall.
  destruct (parse p s) as [[p1 s1] [|argv|perr]] eqn:E; destruct Hcall as (Hp1 & Hl1 & _); simplify_eq/=;
    [congruence| |congruence].
  destruct (drain_all p1 s1) as [[[cmds' p2] s2] e2] eqn:Ed. simplify_eq/=.
  eapply IH; [done|done|congruence|done].
Qed.

Lemma feed_args p s chunks cmds p' s' e :
  parser_ok p → limits_ p = default_limits → feed p s chunks = (cmds, p', s', e) →
  Forall (λ e, if e is Call args then args_ok args else False) (calls_of cmds).
Proof.
  revert p s cmds. induction chunks as [|x chunks IH]; intros p s cmds Hp Hl H; simpl in H.
  { by simplify_eq/=. }
  destruct (drain_all p (s ++ x)) as [[[cmds1 p1] s1] [m|]] eqn:Ed.
  { simplify_eq/=. by eapply drain_args. }
  destruct (feed p1 s1 chunks) as [[[cmds2 p2] s2] e2] eqn:Ef. simplify_eq/=.
  rewrite calls_of_app. apply Forall_app. split; [by eapply drain_args|].
  eapply IH; [by eapply drain_all_spec|by eapply drain_limits|done].
Qed.

(** The limit strikes only when the replies exceed it. *)
Lemma input_loop_limit fuel c w cmds p' s' e c' w' :
  conn_pre c → store_ok (the_db w) →
  drain_all (parser c) (contents (in_ c)) = (cmds, p', s', e) →
  Forall (λ a, closes a = false) cmds →
  input_loop time limit fuel c w = Some (c', w', LoopLimit) →
  limit < Z.of_nat (length (contents (run_history time layout (calls_of cmds) (out_ c, w)).1)).
Proof.
  revert c w cmds. induction fuel as [|fuel IH]; intros c w cmds [Hi Ho Hp Hl] Hok Hd Hcl Hrun; [done|].
  simpl in Hrun. destruct (parse (parser c) (in_ c)) as [[p i] st] eqn:E.
  destruct (parse_contents _ _ _ _ _ Hi E) as [Hi' E']. rewrite drain_all_step, E' in Hd by done.
  destruct st as [|argv|perr]; [by simplify_eq/=| |by simplify_eq/=].
  destruct (drain_all p (contents i)) as [[[cmds' p1] s1] e1] eqn:Ed. simplify_eq/=.
  rewrite Forall_cons in Hcl. destruct Hcl as [Hcl Hcls].
  pose proof (parse_ok (parser c) (contents (in_ c)) Hp) as Hcall. rewrite E' in Hcall.
  destruct Hcall as (Hp' & Hl' & _). rewrite Hl in Hl'. case_bool_decide as Hne.
  - subst argv. by refine (IH (mkConn i (out_ c) p (close_after_write c) (write_armed c)) w cmds' _ _ Ed _ Hrun).
  - destruct (call_args_ok _ _ _ _ _ Hp Hl E' Hne) as (Hargs & _).
    destruct (dispatch_answers time Hclock (new_ctx argv (out_ c) w)) as (g & r1 & w1 & Hm & Hg & Hpr & _);
      [done|done|]. simpl in Hm, Hpr. destruct (Hg _ Ho) as [Hgo Hgc].
    rewrite Hcl in Hm. rewrite Hm in Hrun. simpl in Hrun. rewrite calls_of_nonempty by done.
    unfold run_history in *. cbn [foldl run_event fst snd]. rewrite Hm. cbn [snd out world].
    destruct (limit <? _) eqn:Elim.
    + injection Hrun as <- <-. destruct (run_history_extends (calls_of cmds') (g (out_ c)) w1) as [[x Hx] _];
        [done|by apply Hpr|by eapply drain_args|]. unfold run_history in Hx.
      rewrite Hx, length_app. rewrite readable_contents in Elim by done. lia.
    + refine (IH (mkConn i (g (out_ c)) p (close_after_write c) (write_armed c)) w1 cmds' _ _ Ed Hcls Hrun);
        [by split|by apply Hpr].
Qed.

Lemma process_loop_run c w cmds p' s' e :
  conn_pre c → store_ok (the_db w) →
  drain_all (parser c) (contents (in_ c)) = (cmds, p', s', e) →
  Forall (λ a, closes a = false) cmds →
  Z.of_nat (length (contents (run_history time layout (calls_of cmds) (out_ c, w)).1)) ≤ limit →
  (process_loop time limit c w).2 = LoopBreak ∧ loop_result c w cmds p' s' e (process_loop time limit c w).
Proof.
  intros Hc Hok Hd Hcl Hlim. pose proof (input_loop_process c w Hc Hok) as Hrun.
  destruct (process_loop time limit c w) as [[c' w'] [|]] eqn:E.
  - split; [done|]. by eapply input_loop_run.
  - pose proof (input_loop_limit _ _ _ _ _ _ _ _ _ Hc Hok Hd Hcl Hrun). lia.
Qed.

(** ** A connection over its life: one chunk per read *)
Fixpoint serve (chunks : list bytes) c w : Conn B * Db.World * LoopEnd :=
  match chunks with
  | [] => (c, w, LoopBreak)
  | x :: chunks' =>
      match process_loop time limit (set_in (append x (in_ c)) c) w with
      | (c', w', LoopBreak) => serve chunks' c' w'
      | r => r
      end
  end.

Lemma run_history_app es es' (s : B * Db.World) :
  run_history time layout (es ++ es') s = run_history time layout es' (run_history time layout es s).
Proof. apply foldl_app. Qed.

Lemma serve_run chunks c w cmds p' s' :
  conn_pre c → store_ok (the_db w) →
  feed (parser c) (contents (in_ c)) chunks = (cmds, p', s', None) →
  Forall (λ a, closes a = false) cmds →
  Z.of_nat (length (contents (run_history time layout (calls_of cmds) (out_ c, w)).1)) ≤ limit →
  let '(c', w', e) := serve chunks c w in
  let '(o1, w1) := run_history time layout (calls_of cmds) (out_ c, w) in
  e = LoopBreak ∧ w' = w1 ∧ parser c' = p' ∧ contents (in_ c') = s' ∧ out_ c' = o1.
Proof.
  revert c w cmds. induction chunks as [|x chunks IH]; intros c w cmds Hc Hok Hf Hcl Hlim; simpl in *.
  { by simplify_eq/=. }
  destruct (drain_all (parser c) (contents (in_ c) ++ x)) as [[[cmds1 p1] s1] [m|]] eqn:Ed; [done|].
  destruct (feed p1 s1 chunks) as [[[cmds2 p2] s2] e2] eqn:Ef. simplify_eq/=.
  apply Forall_app in Hcl as [Hcl1 Hcl2]. rewrite calls_of_app, run_history_app in *.
  set (c1 := set_in (append x (in_ c)) c).
  assert (conn_pre c1) as Hc1 by (destruct Hc; split; simpl; auto using bq_append_ok).
  assert (contents (in_ c1) = contents (in_ c) ++ x) as Hin by (apply contents_append, Hc).
  rewrite <-Hin in Ed.
  destruct (run_history_extends (calls_of cmds1) (out_ c) w) as (_ & Ho1 & Hok1);
    [apply Hc|done|by eapply drain_args; [apply Hc1|apply Hc1|]|].
  destruct (run_history time layout (calls_of cmds1) (out_ c, w)) as [o1 w1] eqn:E1. simpl in Ho1, Hok1.
  assert (parser_ok p1 ∧ limits_ p1 = default_limits) as [Hp1 Hl1].
  { split; [by eapply drain_all_spec; [|exact Ed]; apply Hc1|]. by eapply drain_limits; [..|exact Ed]; apply Hc1. }
  assert (Forall (λ e, if e is Call args then args_ok args else False) (calls_of cmds2)) as Hargs2.
  { by eapply feed_args. }
  destruct (run_history_extends (calls_of cmds2) o1 w1 Ho1 Hok1 Hargs2) as [[y Hy] _].
  destruct (process_loop_run c1 w cmds1 p1 s1 None Hc1 Hok Ed Hcl1) as [Hend Hres].
  { change (out_ c1) with (out_ c). rewrite E1. rewrite Hy, length_app in Hlim. simpl. lia. }
  pose proof (process_loop_ok c1 w Hc1 Hok) as Hkeep.
  destruct (process_loop time limit c1 w) as [[c2 w2] e2]. simpl in Hend. subst e2.
  unfold loop_result in Hres. change (out_ c1) with (out_ c) in Hres. rewrite E1 in Hres.
  destruct Hres as (-> & Hp & Hs & Ho & _). destruct Hkeep as (Hc2 & _).
  rewrite <-Ho in *. apply IH; [done|done|by rewrite Hp, Hs|done|done].
Qed.
End Input.
