(* ===== verification/Serial.v ===== *)
(** * One server, many clients: the serial view

    A [Log] is the sequence of what the server's single thread does to the
    keyspace: a call of some connection, an expiry cycle, or the refusal of a
    malformed stream.  [run_log] replays it one entry at a time against one
    keyspace and says what each connection is owed.  [dispatch_uniform] shows
    that the reply to a call does not depend on what is already queued, and
    [input_loop_log] that the parse-and-dispatch loop is such a log. *)
From S2P Require Import Prelude Buffer Digits Inline Parser Stream Writer Keyspace Expire Commands.
From S2P Require Import Options Spec Refine Handlers Dispatch Linear Spread Session Kernel Server Input.
Import Db (the_db, reads, mkWorld).

(** ** The replies do not depend on the output buffer *)
Section Uniform.
Context {B : Type} `{!ByteQueue B} `{!ByteQueueLaws B} (time : nat → Z).

Abbreviation Cmd := (ST (CommandContext B)).

(** [g] appends the bytes [y]. *)
Definition appends (g : B → B) (y : bytes) : Prop :=
  ∀ o, bq_ok o → bq_ok (g o) ∧ contents (g o) = contents o ++ y.

(** All that [m] does with the output is to append bytes, and these do not
    depend on the output; nor does anything else. *)
Definition uniform {A} (m : Cmd A) : Prop := ∀ a w cl ob, ∃ x g y w' cl' ob',
  appends g y ∧ ∀ o, m (mkCtx a o w cl ob) = (x, mkCtx a (g o) w' cl' ob').

Lemma appends_id : appends id [].
Proof. intros o Ho. by rewrite app_nil_r. Qed.

Lemma appends_compose g1 y1 g2 y2 : appends g1 y1 → appends g2 y2 → appends (g2 ∘ g1) (y1 ++ y2).
Proof.
  intros H1 H2 o Ho. destruct (H1 o Ho) as [Ho1 E1]. destruct (H2 _ Ho1) as [Ho2 E2].
  split; [done|]. simpl. by rewrite E2, E1, (assoc_L (++)).
Qed.

Lemma appends_append p : appends (append p) p.
Proof. intros o Ho. split; [by apply bq_append_ok|by apply contents_append]. Qed.

Lemma appends_ensure n : appends (ensure_writable n) [].
Proof. intros o Ho. split; [by apply bq_ensure_ok|]. by rewrite contents_ensure, app_nil_r. Qed.

Lemma uniform_ret {A} (x : A) : uniform (mret x).
Proof. intros a w cl ob. exists x, id, [], w, cl, ob. split; [apply appends_id|done]. Qed.

Lemma uniform_bind {A C} (m : Cmd A) (f : A → Cmd C) :
  uniform m → (∀ x, uniform (f x)) → uniform (m ≫= f).
Proof.
  intros Hm Hf a w cl ob. destruct (Hm a w cl ob) as (x & g & y & w1 & cl1 & ob1 & Hg & E).
  destruct (Hf x a w1 cl1 ob1) as (x2 & g2 & y2 & w2 & cl2 & ob2 & Hg2 & E2).
  exists x2, (g2 ∘ g), (y ++ y2), w2, cl2, ob2. split; [by apply appends_compose|].
  intros o. rewrite bind_run, E. cbn [fst snd]. by rewrite E2.
Qed.

(** A handler that looks at the context, but not at the output. *)
Lemma uniform_get {A} (f : CommandContext B → Cmd A) :
  (∀ c c', argv c = argv c' → world c = world c' → f c = f c') → (∀ c, uniform (f c)) →
  uniform (get ≫= f).
Proof.
  intros Hc Hf a w cl ob.
  destruct (Hf (mkCtx a bq_empty w cl ob) a w cl ob) as (x & g & y & w' & cl' & ob' & Hg & E).
  exists x, g, y, w', cl', ob'. split; [done|]. intros o. rewrite bind_run. cbn [fst snd get].
  rewrite <-E. by rewrite (Hc _ (mkCtx a bq_empty w cl ob)).
Qed.

Lemma uniform_argc : uniform argc.
Proof. intros a w cl ob. exists (length a), id, [], w, cl, ob. split; [apply appends_id|done]. Qed.

Lemma uniform_arg i : uniform (arg i).
Proof.
  intros a w cl ob. unfold arg. simpl. destruct (a !! i) as [x|].
  - exists x, id, [], w, cl, ob. split; [apply appends_id|done].
  - exists [], id, [], w, cl, true. split; [apply appends_id|done].
Qed.

Lemma uniform_say g y : appends g y → uniform (say g).
Proof. intros Hg a w cl ob. by exists tt, g, y, w, cl, ob. Qed.

Lemma uniform_db {A} (m : ST Db.World A) : uniform (db m).
Proof.
  intros a w cl ob. unfold db. simpl. destruct (m w) as [x w'].
  exists x, id, [], w', cl, ob. split; [apply appends_id|done].
Qed.

Lemma uniform_close : uniform set_close.
Proof. intros a w cl ob. exists tt, id, [], w, true, ob. split; [apply appends_id|done]. Qed.

(** The encoders append constants. *)
Ltac constant :=
  eexists; repeat (eapply appends_compose; [apply appends_append || apply appends_ensure|]);
  apply appends_append.

Lemma say_simple_cstr s : uniform (say (reply.simple_cstr s)).
Proof.
  assert (∃ y, appends (append CRLF ∘ append (take (default (length s) (memchr zero s)) s) ∘ append ["+"%char]
    ∘ ensure_writable (default (length s) (memchr zero s) + 3)) y) as [y Hy] by constant.
  by apply (uniform_say _ y).
Qed.

Lemma say_error s : uniform (say (reply.error s)).
Proof.
  assert (∃ y, appends (append CRLF ∘ append s ∘ append ["-"%char] ∘ ensure_writable (length s + 3)) y)
    as [y Hy] by constant.
  by apply (uniform_say _ y).
Qed.

Lemma say_integer n : uniform (say (reply.integer n)).
Proof.
  assert (∃ y, appends (append (format_int n ++ CRLF) ∘ append [":"%char]) y) as [y Hy] by constant.
  by apply (uniform_say _ y).
Qed.

Lemma say_array n : uniform (say (reply.array_header n)).
Proof.
  assert (∃ y, appends (append (format_int n ++ CRLF) ∘ append ["*"%char]) y) as [y Hy] by constant.
  by apply (uniform_say _ y).
Qed.

Lemma say_bulk d : uniform (say (reply.bulk d)).
Proof.
  assert (∃ y, appends (append CRLF ∘ append d ∘ append (format_int (s64 (Z.of_nat (length d))) ++ CRLF)
    ∘ append ["$"%char] ∘ ensure_writable (length d + 32)) y) as [y Hy] by constant.
  by apply (uniform_say _ y).
Qed.

Lemma say_null : uniform (say reply.null_bulk).
Proof. eapply uniform_say, appends_append. Qed.

Lemma say_ok : uniform (say reply.ok).
Proof. eapply uniform_say, appends_append. Qed.

#[local] Hint Resolve uniform_ret uniform_argc uniform_arg uniform_db uniform_close say_simple_cstr say_error
  say_integer say_array say_bulk say_null say_ok : uniform.

(** One step of the analysis of a handler. *)
Ltac uniformly := repeat
  match goal with
  | |- ∀ _, _ => intros ?
  | |- uniform (get ≫= _) => apply uniform_get; [by intros [] [] ?%eq_sym ?%eq_sym; simplify_eq/=|]
  | |- uniform (_ ≫= _) => apply uniform_bind
  | |- uniform (let _ := _ in _) => cbv zeta
  | |- uniform (if ?b then _ else _) => destruct b
  | |- uniform (match ?x with _ => _ end) => destruct x
  | |- uniform _ => solve [auto with uniform]
  end.

Lemma del_loop_uniform keys n : uniform (del_loop time keys n).
Proof. revert n. induction keys as [|k keys IH]; intros n; simpl; uniformly; apply IH. Qed.

Lemma exists_loop_uniform keys n : uniform (exists_loop time keys n).
Proof. revert n. induction keys as [|k keys IH]; intros n; simpl; uniformly; apply IH. Qed.

#[local] Hint Resolve del_loop_uniform exists_loop_uniform : uniform.

Lemma run_handler_uniform h : uniform (run_handler time h).
Proof.
  destruct h; simpl; unfold do_ping, do_echo, do_quit, do_set, do_get, incr_by, do_del, do_exists, do_type,
    do_expire, do_ttl, do_persist, do_dbsize, do_flushall, do_command; uniformly.
Qed.

#[local] Hint Resolve run_handler_uniform : uniform.

Lemma dispatch_uniform : uniform (dispatch time).
Proof. unfold dispatch. uniformly. Qed.
End Uniform.

(** ** What a connection has said

    What the parser makes of it: calls, and complaints. *)
Abbreviation Line := (list bytes + bytes)%type.

Definition yields (st : ParseStatus) : list Line :=
  match st with Incomplete => [] | Complete a => if decide (a = []) then [] else [inl a] | Error msg => [inr msg] end.

(** The lines [ls] have been taken, one after the other, off the reads [cs];
    what is left is the bytes [s], and the parser is at [p].  That goes on
    after a complaint, too: the parser starts afresh where it stopped. *)
Inductive said : Parser → bytes → list bytes → list Line → Prop :=
  | said_nothing : said (new_parser default_limits) [] [] []
  | said_more p s cs ls x : said p s cs ls → said p (s ++ x) (cs ++ [x]) ls
  | said_turn p s cs ls p' s' st :
      said p s cs ls → parse p s = (p', s', st) → said p' s' cs (ls ++ yields st).

(** ** Logs

    A connection is named by its descriptor and the moment it was accepted. *)
Abbreviation Id := (Z * nat)%type.

Inductive LogEntry :=
  | SCall (id : Id) (args : list bytes)
  | SRefuse (id : Id) (msg : bytes)
  | STick (samples : nat).

Section Log.
Context (time : nat → Z) (layout : nat → gset bytes → list (list bytes)).

(** The answer to a call: the bytes of the reply, and the keyspace after. *)
Definition answer (args : list bytes) (w : Db.World) : bytes * Db.World :=
  let c := (dispatch time (new_ctx args Buffer.empty_buffer w)).2 in (contents (out c), world c).

Definition refusal (msg : bytes) : bytes := wire (RError ($"ERR " ++ msg)).

(** One entry: what it owes to whom, and the keyspace after. *)
Definition run_entry (e : LogEntry) (w : Db.World) : list (Id * bytes) * Db.World :=
  match e with
  | SCall id args => let '(r, w') := answer args w in ([(id, r)], w')
  | SRefuse id msg => ([(id, refusal msg)], w)
  | STick n => ([], (active_expire_cycle time layout n w).2)
  end.

Fixpoint run_log (log : list LogEntry) (w : Db.World) : list (Id * bytes) * Db.World :=
  match log with
  | [] => ([], w)
  | e :: log' =>
      let '(o1, w1) := run_entry e w in
      let '(o2, w2) := run_log log' w1 in
      (o1 ++ o2, w2)
  end.

(** What is owed to [id], and what it asked for. *)
Definition owed (id : Id) (outs : list (Id * bytes)) : bytes := concat (filter (λ p, p.1 = id) outs).*2.

Definition asked_by (id : Id) (e : LogEntry) : option (list bytes) :=
  match e with SCall id' args => if decide (id' = id) then Some args else None | _ => None end.

Definition asked (id : Id) (log : list LogEntry) : list (list bytes) := omap (asked_by id) log.

(** All that was taken from [id]. *)
Definition line_of (id : Id) (e : LogEntry) : option Line :=
  match e with
  | SCall id' args => if decide (id' = id) then Some (inl args) else None
  | SRefuse id' msg => if decide (id' = id) then Some (inr msg) else None
  | STick _ => None
  end.

Definition lines (id : Id) (log : list LogEntry) : list Line := omap (line_of id) log.

Definition about_id (P : Id → Prop) (e : LogEntry) : Prop :=
  match e with SCall id _ | SRefuse id _ => P id | STick _ => True end.

(** No refusal of [id]. *)
Definition polite (id : Id) (e : LogEntry) : Prop := if e is SRefuse id' _ then id' ≠ id else True.

Definition about_args (P : list bytes → Prop) (e : LogEntry) : Prop := if e is SCall _ args then P args else True.

(** *** Lemmas on logs *)
Lemma run_log_app l1 l2 w :
  run_log (l1 ++ l2) w =
    ((run_log l1 w).1 ++ (run_log l2 (run_log l1 w).2).1, (run_log l2 (run_log l1 w).2).2).
Proof.
  revert w. induction l1 as [|e l1 IH]; intros w; simpl; [by destruct (run_log l2 w)|].
  destruct (run_entry e w) as [o1 w1]. rewrite IH. destruct (run_log l1 w1) as [o2 w2]. simpl.
  by rewrite (assoc_L (++)).
Qed.

Lemma run_log_call id args log w :
  run_log (SCall id args :: log) w =
    ((id, (answer args w).1) :: (run_log log (answer args w).2).1, (run_log log (answer args w).2).2).
Proof. cbn [run_log run_entry]. destruct (answer args w) as [y w1]. cbn [fst snd]. by destruct (run_log log w1). Qed.

Lemma owed_own id y outs : owed id ((id, y) :: outs) = y ++ owed id outs.
Proof. unfold owed. by rewrite filter_cons_True. Qed.

Lemma owed_app id o1 o2 : owed id (o1 ++ o2) = owed id o1 ++ owed id o2.
Proof. unfold owed. by rewrite filter_app, fmap_app, concat_app. Qed.

Lemma owed_none id log w : Forall (about_id (λ i, i ≠ id)) log → owed id (run_log log w).1 = [].
Proof.
  intros Hl. revert w. induction Hl as [|e log He _ IH]; intros w; [done|]. simpl.
  destruct (run_entry e w) as [o1 w1] eqn:E1. specialize (IH w1). destruct (run_log log w1) as [o2 w2].
  simpl in *. rewrite owed_app, IH, app_nil_r. destruct e as [i args|i msg|n]; simpl in E1, He.
  - destruct (answer args w). injection E1 as <- <-. unfold owed. by rewrite filter_cons_False.
  - injection E1 as <- <-. unfold owed. by rewrite filter_cons_False.
  - by injection E1 as <- <-.
Qed.

Lemma asked_app id l1 l2 : asked id (l1 ++ l2) = asked id l1 ++ asked id l2.
Proof. unfold asked. apply list.omap_app. Qed.

Lemma asked_none id log : Forall (about_id (λ i, i ≠ id)) log → asked id log = [].
Proof.
  unfold asked. induction 1 as [|e log He _ IH]; [done|]. csimpl. rewrite IH.
  destruct e as [i args|i msg|n]; simpl in *; [by rewrite decide_False|done..].
Qed.

Lemma lines_app id l1 l2 : lines id (l1 ++ l2) = lines id l1 ++ lines id l2.
Proof. unfold lines. apply list.omap_app. Qed.

Lemma lines_none id log : Forall (about_id (λ i, i ≠ id)) log → lines id log = [].
Proof.
  unfold lines. induction 1 as [|e log He _ IH]; [done|]. csimpl. rewrite IH.
  destruct e as [i args|i msg|n]; simpl in *; [by rewrite decide_False..|done].
Qed.

Lemma polite_other id log : Forall (about_id (λ i, i ≠ id)) log → Forall (polite id) log.
Proof. intros H. eapply Forall_impl; [exact H|]. by intros []. Qed.

(** *** Calls, on a connection's own buffer *)
Context (Hclock : clock_ok time).

Lemma dispatch_answer args w (o : Buffer.Buffer) :
  bq_ok o → args_ok args → store_ok (the_db w) →
  ∃ o', (dispatch time (new_ctx args o w)).2 = mkCtx args o' (answer args w).2 (closes args) false ∧
    bq_ok o' ∧ contents o' = contents o ++ (answer args w).1 ∧ store_ok (the_db (answer args w).2).
Proof.
  intros Ho Hargs Hok.
  destruct (dispatch_uniform (B := Buffer.Buffer) time args w false false) as (x & g & y & w' & cl & ob & Hg & E).
  destruct (dispatch_answers time Hclock (new_ctx args Buffer.empty_buffer w)) as (g1 & r & w1 & Hm & _ & Hp & _);
    [done|done|]. simpl in Hm, Hp. unfold answer, new_ctx in *. rewrite E in Hm. injection Hm as -> _ -> -> ->.
  rewrite !E. cbn [snd out world]. exists (g o). destruct (Hg o Ho) as [H1 H2].
  destruct (Hg Buffer.empty_buffer) as [_ He]; [unfold bq_ok; simpl; unfold Buffer.ok; simpl; lia|].
  split_and!; [done|done| |by apply Hp]. rewrite H2. f_equal.
  change (contents Buffer.empty_buffer) with (@nil byte) in He. by rewrite He.
Qed.

(** ** The parse-and-dispatch loop is a log *)

(** From [c] to [c1], the lines [ls] are taken off the input. *)
Definition turn (c c1 : Conn Buffer.Buffer) (ls : list Line) : Prop :=
  ∀ cs ls0, said (parser c) (contents (in_ c)) cs ls0 → said (parser c1) (contents (in_ c1)) cs (ls0 ++ ls).

Lemma turn_parse (c c1 : Conn Buffer.Buffer) st :
  parse (parser c) (contents (in_ c)) = (parser c1, contents (in_ c1), st) → turn c c1 (yields st).
Proof. intros E cs ls H. by eapply said_turn. Qed.

Lemma turn_call (c c1 : Conn Buffer.Buffer) args :
  parse (parser c) (contents (in_ c)) = (parser c1, contents (in_ c1), Complete args) → args ≠ [] → turn c c1 [inl args].
Proof. intros E Hne. apply turn_parse in E. simpl in E. by rewrite decide_False in E. Qed.

Lemma turn_trans c c1 c2 l1 l2 : turn c c1 l1 → turn c1 c2 l2 → turn c c2 (l1 ++ l2).
Proof. intros H1 H2 cs ls Hs. rewrite (assoc_L (++)). by apply H2, H1. Qed.

Lemma lines_own id args log : lines id (SCall id args :: log) = inl args :: lines id log.
Proof. unfold lines. csimpl. by rewrite decide_True. Qed.

Lemma lines_refusal id msg : lines id [SRefuse id msg] = [inr msg].
Proof. unfold lines. csimpl. by rewrite decide_True. Qed.

Lemma asked_own id args log : asked id (SCall id args :: log) = args :: asked id log.
Proof. unfold asked. csimpl. by rewrite decide_True. Qed.

Definition loop_log (id : Id) (c : Conn Buffer.Buffer) (w : Db.World) (r : Conn Buffer.Buffer * Db.World * LoopEnd)
    (log : list LogEntry) : Prop :=
  let '(c', w', e) := r in
  (run_log log w).2 = w' ∧ contents (out_ c') = contents (out_ c) ++ owed id (run_log log w).1 ∧
  Forall (about_id (λ i, i = id)) log ∧ Forall (about_args args_ok) log ∧
  turn c c' (lines id log) ∧
  (e = LoopBreak → close_after_write c' = false → ∃ cmds,
     drain_all (parser c) (contents (in_ c)) = (cmds, parser c', contents (in_ c'), None) ∧
     filter (λ a, a ≠ []) cmds = asked id log ∧ Forall (λ a, closes a = false) cmds ∧ Forall (polite id) log).

Lemma closes_nil : closes [] = false.
Proof. done. Qed.

Lemma loop_log_call id c w args log r (c1 : Conn Buffer.Buffer) :
  contents (out_ c1) = contents (out_ c) ++ (answer args w).1 →
  loop_log id c1 (answer args w).2 r log → turn c c1 [inl args] →
  (∀ cmds s p, drain_all (parser c1) (contents (in_ c1)) = (cmds, p, s, None) →
     drain_all (parser c) (contents (in_ c)) = (args :: cmds, p, s, None)) →
  args_ok args → closes args = false →
  loop_log id c w r (SCall id args :: log).
Proof.
  intros Hout Hlog Hturn Hd Ha Hcl. destruct r as [[c' w'] e]. destruct Hlog as (H1 & H2 & H3 & H5 & H6 & H4).
  assert (args ≠ []) as Hne by apply Ha.
  unfold loop_log. rewrite run_log_call, asked_own, lines_own. cbn [fst snd]. split_and!; [done| |by constructor|by constructor| |].
  - by rewrite owed_own, H2, Hout, <-(assoc_L (++)).
  - by eapply (turn_trans _ _ _ [_]).
  - intros He Hc. destruct (H4 He Hc) as (cmds & Hdr & Hf & Hfa & Hpo). exists (args :: cmds).
    split_and!; [by apply Hd| |by constructor|by constructor].
    by rewrite filter_cons_True, Hf by done.
Qed.

(** The loop ends with this call. *)
Lemma loop_log_last id c w args (c1 : Conn Buffer.Buffer) e :
  contents (out_ c1) = contents (out_ c) ++ (answer args w).1 → turn c c1 [inl args] →
  close_after_write c1 = true ∨ e = LoopLimit → args_ok args →
  loop_log id c w (c1, (answer args w).2, e) [SCall id args].
Proof.
  intros Hout Hturn He Ha. unfold loop_log. rewrite run_log_call, lines_own. cbn [fst snd run_log].
  split_and!; [done| |by repeat constructor|by constructor|done|intros -> Hc; destruct He; congruence].
  rewrite owed_own, Hout. by rewrite app_nil_r.
Qed.

Lemma input_loop_log limit fuel id c w r :
  conn_pre c → store_ok (the_db w) → input_loop time limit fuel c w = Some r → ∃ log, loop_log id c w r log.
Proof.
  revert c w. induction fuel as [|fuel IH]; intros c w [Hi Ho Hp Hl] Hok Hrun; [done|].
  cbn [input_loop] in Hrun. destruct (parse (parser c) (in_ c)) as [[p i] st] eqn:E.
  destruct (parse_contents _ _ _ _ _ Hi E) as [Hi' E'].
  pose proof (parse_ok (parser c) (contents (in_ c)) Hp) as Hcall. rewrite E' in Hcall.
  destruct Hcall as (Hp' & Hl' & _). rewrite Hl in Hl'.
  pose proof (drain_all_step (parser c) (contents (in_ c)) Hp) as Hd. rewrite E' in Hd.
  destruct st as [|argv|perr].
  - injection Hrun as <-. exists []. split_and!; [done|by rewrite app_nil_r|done|done| |].
    + by apply (turn_parse _ (mkConn i (out_ c) p false false) Incomplete).
    + intros _ _. exists []. by rewrite Hd.
  - case_bool_decide as Hne.
    + subst argv. set (c1 := mkConn i (out_ c) p (close_after_write c) (write_armed c)) in *.
      destruct (IH c1 w) as (log & Hlog); [by split|done|done|].
      exists log. destruct r as [[c' w'] e]. destruct Hlog as (H1 & H2 & H3 & H5 & H6 & H4).
      split_and!; [done|done|done|done| |].
      * eapply (turn_trans _ _ _ []); [by apply (turn_parse c c1 (Complete []))|done].
      * intros He Hc. destruct (H4 He Hc) as (cmds & Hdr & Hf & Hfa & Hpo).
        exists ([] :: cmds). unfold c1 in Hdr. cbn [in_ parser] in Hdr. rewrite Hd, Hdr. split_and!; [done| |by constructor|done].
        by rewrite filter_cons_False by (intros ?; done).
    + destruct (call_args_ok _ _ _ _ _ Hp Hl E' Hne) as (Hargs & _).
      destruct (dispatch_answer argv w (out_ c) Ho Hargs Hok) as (o' & Hm & Hoo & Hc & Hok').
      assert (∀ cl, turn c (mkConn i o' p cl (write_armed c)) [inl argv]) as Hturn by (intros cl; by apply turn_call).
      rewrite Hm in Hrun. cbn [close_after_reply out world] in Hrun. destruct (closes argv) eqn:Ecl.
      { injection Hrun as <-. exists [SCall id argv]. apply loop_log_last; [done|done|by left|done]. }
      destruct (limit <? _).
      { injection Hrun as <-. exists [SCall id argv]. apply loop_log_last; [done|done|by right|done]. }
      destruct (IH (mkConn i o' p (close_after_write c) (write_armed c)) (answer argv w).2) as (log & Hlog);
        [by split|done|done|]. exists (SCall id argv :: log).
      eapply loop_log_call; [|exact Hlog|done| |done|done]; [exact Hc|].
      intros cmds s q Hdr. cbn [in_ parser] in Hdr. by rewrite Hd, Hdr.
  - injection Hrun as <-. exists [SRefuse id perr]. destruct (error_encodes ($"ERR " ++ perr) (out_ c) Ho) as [_ Hc].
    split_and!; [done| |by repeat constructor|by repeat constructor| |done].
    + cbn [run_log run_entry app fst]. rewrite owed_own. etrans; [exact Hc|]. by rewrite app_nil_r.
    + rewrite lines_refusal. by apply (turn_parse _ (mkConn i (out_ c) p false false) (Error perr)).
Qed.

Lemma process_loop_log limit id c w :
  conn_pre c → store_ok (the_db w) → ∃ log, loop_log id c w (process_loop time limit c w) log.
Proof. intros Hc Hok. eapply input_loop_log; [done|done|]. by apply input_loop_process. Qed.
(** ** The serial view speaks the specification *)
Definition event_of (e : LogEntry) : option Event :=
  match e with SCall _ args => Some (Call args) | STick n => Some (Tick n) | SRefuse _ _ => None end.

Definition events (log : list LogEntry) : list Event := omap event_of log.

(** What the clients are told when the replies are [rs]. *)
Fixpoint told (log : list LogEntry) (rs : list Reply) : list (Id * bytes) :=
  match log, rs with
  | SCall id _ :: log', r :: rs' => (id, wire r) :: told log' rs'
  | SRefuse id msg :: log', _ => (id, refusal msg) :: told log' rs
  | STick _ :: log', _ => told log' rs
  | _, _ => []
  end.

(** The replies among [rs] that are for [id]. *)
Fixpoint replies_to (id : Id) (log : list LogEntry) (rs : list Reply) : list Reply :=
  match log, rs with
  | SCall id' _ :: log', r :: rs' => (if decide (id' = id) then [r] else []) ++ replies_to id log' rs'
  | SCall _ _ :: _, [] | [], _ => []
  | _ :: log', _ => replies_to id log' rs
  end.

Lemma owed_told id log rs :
  Forall (polite id) log → owed id (told log rs) = concat (wire <$> replies_to id log rs).
Proof.
  intros Hl. revert rs. induction Hl as [|e log He _ IH]; intros rs; [done|].
  destruct e as [i args|i msg|n]; simpl in *; [|by unfold owed; rewrite filter_cons_False; [apply IH|]|apply IH].
  destruct rs as [|r rs]; [done|]. case_decide; subst; [by rewrite owed_own, IH|].
  unfold owed. rewrite filter_cons_False by done. apply IH.
Qed.

(** One for each of its calls. *)
Lemma replies_to_length id log t kv rs :
  history_spec t kv (events log) rs → length (replies_to id log rs) = length (asked id log).
Proof.
  revert t kv rs. induction log as [|[i args|i msg|n] log IH]; intros t kv rs H; [done|..]; unfold events, asked in *; csimpl in *.
  - inversion H; subst. simpl. case_decide; simpl; by erewrite IH.
  - by eapply IH.
  - inversion H; subst. by eapply IH.
Qed.

Lemma replies_to_sendable id log rs : Forall sendable rs → Forall sendable (replies_to id log rs).
Proof.
  revert rs. induction log as [|[i args|i msg|n] log IH]; intros rs H; simpl; [done| |by apply IH..].
  destruct H as [|r rs Hr H]; [done|]. apply Forall_app. split; [case_decide; by repeat constructor|by apply IH].
Qed.

(** Each call that needs it has a clock that stands still. *)
Fixpoint steady_log (log : list LogEntry) (w : Db.World) : Prop :=
  match log with
  | [] => True
  | e :: log' =>
      (if e is SCall _ args then calm time args w else True) ∧
      steady_log log' (run_entry e w).2
  end.

Context (Hmono : monotone time) (Hlayout : layout_ok layout).

Lemma log_spec log w kv t :
  Forall (about_args (λ a, args_ok a ∧ echo_safe a)) log → steady_log log w →
  looks_like time kv w → store_ok (the_db w) →
  Z.of_nat (Db.size (the_db w)) + Z.of_nat (length log) ≤ INT64_MAX → t ≤ time (reads w) →
  ∃ rs, history_spec t kv (events log) rs ∧ (run_log log w).1 = told log rs ∧ Forall sendable rs.
Proof.
  intros Hargs. revert w kv t.
  induction Hargs as [|e log He _ IH]; intros w kv t Hst Hl Hok Hsize Ht.
  { exists []. split_and!; [constructor|done|done]. }
  destruct Hst as [Hf Hst]. simpl length in Hsize. destruct e as [id args|id msg|n].
  - destruct He as [Ha He]. rewrite run_log_call. cbn [fst].
    destruct (call_event_ok time layout Hclock Hmono args Buffer.empty_buffer w kv)
      as (now & r & kv' & o' & w' & Hrun & Hnow & Hbq & Hc & Hr & Hspec & Hl' & Hok' & Hsz);
      [by split|done|done|done|done|done|].
    assert (answer args w = (wire r, w')) as Ea.
    { unfold answer. unfold run_event in Hrun. cbn [fst snd] in Hrun. injection Hrun as Ho Hw.
      rewrite Ho, Hw, Hc. done. }
    cbn [run_entry] in Hst. rewrite Ea in Hst |- *. cbn [fst snd] in *.
    destruct (IH w' kv' now) as (rs & Hh & Ho & Hs); [done|done|done|lia|lia|].
    exists (r :: rs). split_and!; [|by cbn [told]; rewrite Ho|by constructor].
    unfold events. csimpl. eapply (history_call _ _ _ now); [lia| |exact Hspec|exact Hh].
    rewrite <-Hl, s64_small by (lia || (mach; lia)). pose proof (kv_size now (the_db w)). lia.
  - destruct (IH w kv t) as (rs & Hh & Ho & Hs); [done|done|done|lia|done|].
    exists rs. split_and!; [done| |done]. cbn [run_log run_entry told]. destruct (run_log log w) as [o2 w2].
    simpl in *. by rewrite Ho.
  - destruct (tick_ok time layout Hmono Hlayout n w kv Hl Hok) as (Hl' & Hok' & Hrd & Hsz).
    destruct (IH (active_expire_cycle time layout n w).2 kv t) as (rs & Hh & Ho & Hs); [done|done|done|lia| |].
    { etrans; [exact Ht|]. by apply Hmono. }
    exists rs. split_and!; [by constructor| |done]. cbn [run_log run_entry told].
    destruct (run_log log _) as [o2 w2]. simpl in *. by rewrite Ho.
Qed.

(** *** Without a condition on the calls or the clock *)
Definition calls (log : list LogEntry) : list (list bytes) := omap (λ e, if e is SCall _ args then Some args else None) log.

Lemma log_over log w kv k :
  Forall (about_args args_ok) log → looks_like time kv w → store_ok (the_db w) → (Db.size (the_db w) ≤ k)%nat →
  ∃ rs, history_over time (reads (run_log log w).2) k (reads w) kv (events log) rs ∧
    (run_log log w).1 = told log rs ∧ legible (calls log) rs.
Proof.
  intros Hargs. revert w kv k. induction Hargs as [|e log He _ IH]; intros w kv k Hl Hok Hk.
  { exists []. split_and!; [by constructor|done|constructor]. }
  destruct e as [id args|id msg|n].
  - rewrite run_log_call. cbn [fst snd].
    destruct (call_event_over time layout Hclock Hmono args Buffer.empty_buffer w kv)
      as (r & kv' & o' & w' & Hrun & Hrd & Hbq & Hc & Hr & Htk & Hl' & Hok' & Hsz); [by split|done|done|done|].
    assert (answer args w = (wire r, w')) as Ea.
    { unfold answer. unfold run_event in Hrun. cbn [fst snd] in Hrun. injection Hrun as Ho Hw.
      rewrite Ho, Hw, Hc. done. }
    rewrite Ea. cbn [fst snd].
    destruct (IH w' kv' (S k)) as (rs & Hh & Ho & Hs); [done|done|lia|].
    exists (r :: rs). split_and!; [|by cbn [told]; rewrite Ho|by constructor]. by eapply over_step.
  - destruct (IH w kv k) as (rs & Hh & Ho & Hs); [done..|].
    exists rs. cbn [run_log run_entry told]. destruct (run_log log w) as [o2 w2].
    cbn [fst snd] in *. split_and!; [done|by rewrite Ho|done].
  - destruct (tick_ok time layout Hmono Hlayout n w kv Hl Hok) as (Hl' & Hok' & Hrd & Hsz).
    destruct (IH (active_expire_cycle time layout n w).2 kv k) as (rs & Hh & Ho & Hs); [done|done|lia|].
    exists rs. cbn [run_log run_entry told]. destruct (run_log log _) as [o2 w2].
    cbn [fst snd] in *. split_and!; [by eapply over_tick|by rewrite Ho|done].
Qed.

Lemma replies_to_legible id log rs :
  legible (calls log) rs → legible (asked id log) (replies_to id log rs).
Proof.
  revert rs. induction log as [|[i args|i msg|n] log IH]; intros rs H; unfold legible, calls, asked in *; csimpl in *;
    [constructor| |by apply IH..].
  inversion H as [|? r ? rs' Hr Hrs]; subst. case_decide; simpl; [constructor; [done|]|]; by apply IH.
Qed.
End Log.
