(* ===== verification/ServerInv.v ===== *)
(** * The server's invariant

    [inv f X s]: no use after erase and no loop cut short; every connection is
    registered and every registration is a connection's or the listener's; the
    poller watches for writability exactly the connections that have output
    pending; the open descriptors are the connections, the listener, the
    spare one and [X]; every system call so far was [proper].  [f] is the
    connection being served, whose output may be ahead of its registration. *)
From S2P Require Import Prelude Buffer Digits Inline Parser Stream Writer Keyspace Expire Commands.
From S2P Require Import Options Spec Refine Handlers Dispatch Linear Session Kernel Server Input.
Import Db (the_db, reads, mkWorld).

Abbreviation BConn := (Conn Buffer.Buffer).

(** ** Statement *)
Definition pending (c : BConn) : bool := negb (Buffer.readable (out_ c) =? 0)%nat.

(** Between events: write readiness is armed exactly when output is pending,
    and a connection about to close has output pending. *)
Definition settled (c : BConn) : Prop :=
  write_armed c = pending c ∧ (close_after_write c = true → pending c = true).

Definition spare_set (s : Server) : gset Z := if 0 <=? spare_fd_ s then {[spare_fd_ s]} else ∅.

(** [O] is the disjoint union of the connections [D], the listener [l], the
    spare [S] and the loose descriptors [X]. *)
Definition fds_ok (D S X O : gset Z) (l : Z) : Prop :=
  O = D ∪ {[l]} ∪ S ∪ X ∧ l ∉ D ∪ S ∪ X ∧ S ## D ∪ X ∧ X ## D.

Record inv (f : option Z) (X : gset Z) (s : Server) : Prop := {
  inv_fault : fault s = false;
  inv_listen_pos : 0 ≤ listen_fd_ s;
  inv_store : store_ok (the_db (db_ s));
  inv_pre fd c : conns_ s !! fd = Some c → conn_pre c;
  inv_settled fd c : conns_ s !! fd = Some c → f ≠ Some fd → settled c;
  inv_handlers : callback <$> handlers_ s =
    let m := (λ _, ConnCallback) <$> conns_ s in
    if listener_paused_ s then m else <[listen_fd_ s := ListenerCallback]> m;
  inv_watched : watched (trace s) =
    let m := write_armed <$> conns_ s in
    if listener_paused_ s then m else <[listen_fd_ s := false]> m;
  inv_fds : fds_ok (dom (conns_ s)) (spare_set s) X (opened (trace s)) (listen_fd_ s);
  inv_nonblock : dom (conns_ s) ∪ {[listen_fd_ s]} ⊆ nonblocking (trace s);
  inv_orderly : orderly (trace s);
}.

(** The callback objects that exist: registered, or retired and not yet freed. *)
Definition owns (s : Server) (r : Registration) : Prop :=
  (∃ fd, handlers_ s !! fd = Some r) ∨ r ∈ retired_ s.

(** What every method leaves alone. *)
Record frame (s s' : Server) : Prop := {
  frame_cfg : cfg_ s' = cfg_ s;
  frame_listen : listen_fd_ s' = listen_fd_ s;
  frame_running : running_ s' = running_ s;
  frame_timer : tick_ s' = tick_ s ∧ tick_interval_ms_ s' = tick_interval_ms_ s;
  frame_owned r : owns s r → owns s' r;
}.

#[export] Instance frame_preorder : PreOrder frame.
Proof. split; [done|]. intros s s' s'' [] []. split; [congruence..|intuition congruence|eauto]. Qed.

(** ** Descriptors *)
Section Fds.
Context (D S X O : gset Z) (l fd : Z).

Lemma fds_close : fds_ok D S ({[fd]} ∪ X) O l → fd ∉ X → fds_ok D S X (O ∖ {[fd]}) l.
Proof. intros (-> & H1 & H2 & H3) H. split_and!; set_solver. Qed.

Lemma fds_accept : fds_ok D S X O l → fd ∉ O → fds_ok D S ({[fd]} ∪ X) ({[fd]} ∪ O) l.
Proof. intros (-> & H1 & H2 & H3) H. split_and!; set_solver. Qed.

Lemma fds_reserve : fds_ok D ∅ X O l → fd ∉ O → fds_ok D {[fd]} X ({[fd]} ∪ O) l.
Proof. intros (-> & H1 & H2 & H3) H. split_and!; set_solver. Qed.

Lemma fds_spend : fds_ok D {[fd]} X O l → fds_ok D ∅ X (O ∖ {[fd]}) l.
Proof. intros (-> & H1 & H2 & H3). split_and!; set_solver. Qed.

Lemma fds_adopt : fds_ok D S ({[fd]} ∪ X) O l → fd ∉ X → fds_ok ({[fd]} ∪ D) S X O l.
Proof. intros (-> & H1 & H2 & H3) H. split_and!; set_solver. Qed.

Lemma fds_drop : fds_ok D S X O l → fd ∈ D → fds_ok (D ∖ {[fd]}) S X (O ∖ {[fd]}) l.
Proof.
  intros (-> & H1 & H2 & H3) H. split_and!; [|set_solver..].
  apply set_eq. intros x. destruct (decide (x = fd)) as [->|]; set_solver.
Qed.
End Fds.

(** ** Recording one action *)
Abbreviation neutral a :=
  ((∀ w, watch_step a w = w) ∧ (∀ o, open_step a o = o) ∧ (∀ n, nonblock_step a n = n)).

(** The call is [proper]: what it would wait on is a connection or the
    listener. *)
Definition in_order (s : Server) (a : Action) : Prop :=
  match a with
  | ARead fd _ | ASend fd _ _ | AAccept fd _ => fd ∈ dom (conns_ s) ∪ {[listen_fd_ s]}
  | _ => proper (trace s) a
  end.

Lemma in_order_conn s a fd c : waits_on a = Some fd → conns_ s !! fd = Some c → in_order s a.
Proof.
  intros Ha Hc. assert (fd ∈ dom (conns_ s) ∪ {[listen_fd_ s]}) as Hd.
  { rewrite elem_of_union, elem_of_dom. left. by eexists. }
  destruct a; simpl in *; congruence.
Qed.

Lemma in_order_listen s a : waits_on a = Some (listen_fd_ s) → in_order s a.
Proof.
  intros Ha. assert (listen_fd_ s ∈ dom (conns_ s) ∪ {[listen_fd_ s]}) as Hd by set_solver.
  destruct a; simpl in *; congruence.
Qed.

Lemma orderly_record f X s a : inv f X s → in_order s a → orderly (trace s ++ [a]).
Proof.
  intros Hi Ha. apply orderly_snoc. split; [apply Hi|].
  destruct a; simpl in *; try done; by apply (inv_nonblock _ _ _ Hi).
Qed.

Lemma inv_record f X s a : neutral a → in_order s a → inv f X s → inv f X (record a s).
Proof.
  intros (Hw & Ho & Hn) Ha Hi. pose proof (orderly_record _ _ _ _ Hi Ha). destruct Hi. split; simpl; try done.
  - by rewrite watched_snoc, Hw.
  - by rewrite opened_snoc, Ho.
  - by rewrite nonblocking_snoc, Hn.
Qed.

(** What the poller watches is a connection or the listener, hence open. *)
Lemma inv_unwatched f X s fd :
  inv f X s → fd ∉ dom (conns_ s) → listener_paused_ s = true ∨ fd ≠ listen_fd_ s → watched (trace s) !! fd = None.
Proof.
  intros [] Hfd Hl. rewrite inv_watched0. simpl. apply not_elem_of_dom_1 in Hfd.
  destruct (listener_paused_ s); [by rewrite lookup_fmap, Hfd|].
  destruct Hl as [?|Hl]; [done|]. by rewrite lookup_insert_ne, lookup_fmap, Hfd.
Qed.

(** Closing a descriptor that nothing refers to. *)
Lemma inv_close f X s fd :
  inv f ({[fd]} ∪ X) s → fd ∉ X → inv f X (record (AClose fd) s).
Proof.
  intros Hi Hfd. pose proof (inv_fds _ _ _ Hi) as Hf.
  assert (watched (trace s) !! fd = None) as Hw.
  { destruct Hf as (_ & H1 & H2 & H3). apply (inv_unwatched f _ _ _ Hi); [|right]; set_solver. }
  destruct Hi. split; simpl; try done.
  - by rewrite watched_snoc; simpl; rewrite delete_id.
  - rewrite opened_snoc. by apply fds_close.
  - rewrite nonblocking_snoc. simpl. destruct Hf as (_ & H1 & H2 & H3). set_solver.
  - by apply orderly_snoc.
Qed.

(** A new descriptor. *)
Lemma inv_accept f X s fd :
  inv f X s → fd ∉ opened (trace s) → inv f ({[fd]} ∪ X) (record (AAccept (listen_fd_ s) (inr fd)) s).
Proof.
  intros Hi Hfd. pose proof (orderly_record _ _ _ _ Hi (in_order_listen s (AAccept _ (inr fd)) eq_refl)).
  destruct Hi. split; simpl; try done.
  - by rewrite watched_snoc.
  - rewrite opened_snoc. by apply fds_accept.
  - rewrite nonblocking_snoc. simpl. destruct inv_fds0 as (He & _). set_solver.
Qed.

(** Switching a descriptor to non-blocking mode. *)
Lemma land_nonblock flags : (Z.land (Z.lor flags O_NONBLOCK) O_NONBLOCK =? 0) = false.
Proof.
  apply Z.eqb_neq. intros H. assert (Z.testbit (Z.land (Z.lor flags O_NONBLOCK) O_NONBLOCK) 11 = true) as Hb.
  { rewrite Z.land_spec, Z.lor_spec. unfold O_NONBLOCK. by rewrite orb_true_r. }
  by rewrite H in Hb.
Qed.

Lemma inv_setfl f X s fd flags :
  inv f X s → inv f X (record (ASetFl fd (Z.lor flags O_NONBLOCK) None) s) ∧
  fd ∈ nonblocking (trace s ++ [ASetFl fd (Z.lor flags O_NONBLOCK) None]).
Proof.
  intros Hi. assert (∀ n, nonblock_step (ASetFl fd (Z.lor flags O_NONBLOCK) None) n = {[fd]} ∪ n) as Hn.
  { intros n. cbn [nonblock_step]. by rewrite land_nonblock. }
  split; [|rewrite nonblocking_snoc, Hn; set_solver].
  destruct Hi. split; simpl; try done.
  - by rewrite watched_snoc.
  - by rewrite opened_snoc.
  - rewrite nonblocking_snoc, Hn. set_solver.
  - by apply orderly_snoc.
Qed.

Lemma inv_spend f X s :
  inv f X s → 0 ≤ spare_fd_ s → inv f X (set_spare (-1) (record (AClose (spare_fd_ s)) s)).
Proof.
  intros Hi Hs. pose proof (inv_fds _ _ _ Hi) as Hf. unfold spare_set in Hf.
  replace (0 <=? spare_fd_ s) with true in Hf by lia.
  assert (watched (trace s) !! spare_fd_ s = None) as Hw.
  { destruct Hf as (_ & H1 & H2 & H3). apply (inv_unwatched f _ _ _ Hi); [|right]; set_solver. }
  destruct Hi. split; simpl; try done.
  - by rewrite watched_snoc; simpl; rewrite delete_id.
  - rewrite opened_snoc. unfold spare_set. simpl. by apply fds_spend.
  - rewrite nonblocking_snoc. simpl. destruct Hf as (_ & H1 & H2 & H3). set_solver.
  - by apply orderly_snoc.
Qed.

Section Reserve.
Context {KE : Kernel} (retries : nat) (HK : kernel_ok retries).

(** *** Reserving a descriptor *)
Lemma reopen_spare_ok f X s :
  inv f X s →
  let r := reopen_spare_fd s in
  inv f X r.2 ∧ frame s r.2 ∧ conns_ r.2 = conns_ s ∧ db_ r.2 = db_ s ∧
  listener_paused_ r.2 = listener_paused_ s ∧ r.1 = (0 <=? spare_fd_ r.2).
Proof.
  intros Hi. unfold reopen_spare_fd. rewrite bind_run. simpl.
  destruct (0 <=? spare_fd_ s) eqn:Es; [by split_and!|].
  rewrite !bind_run. simpl. set (r := k_open (trace s)).
  split_and!; try done.
  pose proof (inv_fds _ _ _ Hi) as Hf. unfold spare_set in Hf. rewrite Es in Hf.
  destruct Hi. split; simpl; try done.
  - by rewrite watched_snoc; destruct r.
  - rewrite opened_snoc. unfold spare_set. simpl. destruct r as [fd|] eqn:Er; simpl; [|done].
    destruct (kernel_open retries HK (trace s) fd Er) as [Hpos Hfresh].
    replace (0 <=? fd) with true by lia. by apply fds_reserve.
  - rewrite nonblocking_snoc. simpl. destruct r as [fd|] eqn:Er; [|done].
    destruct (kernel_open retries HK (trace s) fd Er) as [_ Hfresh]. destruct Hf as (He & _). set_solver.
  - by apply orderly_snoc.
Qed.

(** *** Watching the listener, or not *)
Definition unregistered (fd : Z) (r : Registration) (s : Server) : Server :=
  set_handlers (delete fd (handlers_ s)) (retired_ s ++ [r]) (record (APollDel fd true) s).

Lemma loop_remove_registered fd r s :
  handlers_ s !! fd = Some r → is_Some (watched (trace s) !! fd) →
  loop_remove fd s = (tt, unregistered fd r s).
Proof.
  intros Hh Hw. unfold loop_remove. rewrite bind_run. simpl. rewrite Hh, bind_run. simpl.
  by rewrite (kernel_del retries HK).
Qed.

(** A callback that is unregistered is not freed. *)
Lemma unregistered_owned fd r s x : handlers_ s !! fd = Some r → owns s x → owns (unregistered fd r s) x.
Proof.
  intros Hr [[fd' Hx]|Hx]; unfold owns; simpl; rewrite elem_of_app, list_elem_of_singleton; [|by auto].
  destruct (decide (fd = fd')) as [<-|Hne]; [|left; exists fd'; by rewrite lookup_delete_ne].
  right. right. congruence.
Qed.

Lemma handler_of s fd cb : (callback <$> handlers_ s) !! fd = Some cb →
  ∃ r, handlers_ s !! fd = Some r ∧ callback r = cb.
Proof. rewrite lookup_fmap, fmap_Some. intros (r & ? & ->). by exists r. Qed.

Lemma pause_listener_ok f X s :
  inv f X s →
  let s' := (pause_listener s).2 in
  inv f X s' ∧ frame s s' ∧ conns_ s' = conns_ s ∧ db_ s' = db_ s ∧ listener_paused_ s' = true.
Proof.
  intros Hi. unfold pause_listener. rewrite bind_run. simpl.
  destruct (listener_paused_ s) eqn:Ep; [by split_and!|].
  pose proof (inv_handlers _ _ _ Hi) as Hh. pose proof (inv_watched _ _ _ Hi) as Hw.
  rewrite Ep in Hh, Hw. simpl in Hh, Hw.
  assert (listen_fd_ s ∉ dom (conns_ s)) as Hl by (destruct (inv_fds _ _ _ Hi); set_solver).
  destruct (handler_of s (listen_fd_ s) ListenerCallback) as (r & Hr & _); [rewrite Hh; apply lookup_insert_eq|].
  assert (is_Some (watched (trace s) !! listen_fd_ s)) as Hl' by (rewrite Hw, lookup_insert_eq; by eexists).
  rewrite bind_run, (loop_remove_registered _ r) by done.
  simpl. split_and!; try done; [|split; [done..|by intros x; apply unregistered_owned]].
  pose proof (orderly_record _ _ _ (APollDel (listen_fd_ s) true) Hi Hl') as Hst.
  destruct Hi. split; simpl; try done.
  - rewrite fmap_delete, Hh. rewrite delete_insert_id; [done|]. rewrite lookup_fmap.
    by rewrite (not_elem_of_dom_1 _ _ Hl).
  - rewrite watched_snoc, Hw. simpl. rewrite delete_insert_id; [done|]. rewrite lookup_fmap.
    by rewrite (not_elem_of_dom_1 _ _ Hl).
  - rewrite opened_snoc. done.
  - by rewrite nonblocking_snoc.
Qed.

(** Registering what is not registered frees nothing. *)
Definition registered (fd : Z) (w : bool) (cb : IoCallback) (s : Server) : Server :=
  let s1 := record (APollAdd fd w true) s in
  set_handlers (<[fd := mkRegistration cb (length (trace s1))]> (handlers_ s)) (retired_ s) s1.

Lemma loop_add_run fd w cb s :
  loop_add fd w cb s =
    if k_poll_add (trace s) fd w then (true, registered fd w cb s)
    else (false, record (APollAdd fd w false) s).
Proof.
  unfold loop_add. rewrite bind_run. unfold sys_poll_add, sys. cbn [fst snd].
  by destruct (k_poll_add (trace s) fd w).
Qed.

Lemma registered_owned fd w cb s x : handlers_ s !! fd = None → owns s x → owns (registered fd w cb s) x.
Proof.
  intros Hr [[fd' Hx]|Hx]; unfold owns; simpl; [|by right].
  left. exists fd'. rewrite lookup_insert_ne; [done|]. congruence.
Qed.

Lemma no_handler f X s fd :
  inv f X s → fd ∉ dom (conns_ s) → listener_paused_ s = true ∨ fd ≠ listen_fd_ s → handlers_ s !! fd = None.
Proof.
  intros Hi Hc Hl. assert ((callback <$> handlers_ s) !! fd = None) as Hn.
  { rewrite (inv_handlers _ _ _ Hi). simpl. apply not_elem_of_dom_1 in Hc.
    destruct (listener_paused_ s); [by rewrite lookup_fmap, Hc|].
    destruct Hl as [?|Hl]; [done|]. by rewrite lookup_insert_ne, lookup_fmap, Hc. }
  rewrite lookup_fmap in Hn. by destruct (handlers_ s !! fd).
Qed.

Lemma resume_listener_ok f X s :
  inv f X s →
  let s' := (resume_listener s).2 in
  inv f X s' ∧ frame s s' ∧ conns_ s' = conns_ s ∧ db_ s' = db_ s.
Proof.
  intros Hi. unfold resume_listener. rewrite bind_run. simpl.
  destruct (listener_paused_ s) eqn:Ep; simpl; [|by split_and!].
  destruct (reopen_spare_ok f X s Hi) as (Hi1 & Hf1 & Hc1 & Hd1 & Hp1 & Hr).
  rewrite bind_run. destruct (reopen_spare_fd s) as [ok s1]. simpl in *.
  rewrite Ep in Hp1. destruct ok; simpl; [|by split_and!].
  assert (listen_fd_ s1 ∉ dom (conns_ s1)) as Hl by (destruct (inv_fds _ _ _ Hi1); set_solver).
  assert (handlers_ s1 !! listen_fd_ s1 = None) as Hnh by (eapply no_handler; [exact Hi1|done|by left]).
  assert (∀ b, in_order s1 (APollAdd (listen_fd_ s1) false b)) as Hin.
  { intros b. apply (inv_unwatched _ _ _ _ Hi1 Hl). by left. }
  pose proof (orderly_record _ _ _ _ Hi1 (Hin true)) as Hst.
  rewrite <-(frame_listen _ _ Hf1). rewrite bind_run, loop_add_run.
  destruct (k_poll_add (trace s1) (listen_fd_ s1) false); cbn [fst snd negb modify mret ST_ret].
  - split_and!; try done.
    + destruct Hi1. rewrite Hp1 in *. split; simpl; try done.
      * by rewrite fmap_insert, inv_handlers0.
      * rewrite watched_snoc. simpl. by rewrite inv_watched0.
      * by rewrite opened_snoc.
      * by rewrite nonblocking_snoc.
    + destruct Hf1. split; [done..|]. intros x Hx. by apply registered_owned, frame_owned0.
  - split_and!; try done; [|by destruct Hf1; split]. by apply inv_record.
Qed.

Lemma resume_listener_resumes s :
  (∀ t, is_Some (k_open t)) → (∀ t fd, k_poll_add t fd false = true) →
  listener_paused_ (resume_listener s).2 = false.
Proof.
  intros Hopen Hadd. unfold resume_listener. rewrite bind_run. cbn [fst snd get].
  destruct (listener_paused_ s) eqn:Ep; [|done]. cbn [negb]. rewrite bind_run.
  assert ((reopen_spare_fd s).1 = true) as Hok.
  { unfold reopen_spare_fd. rewrite bind_run. cbn [fst snd get].
    destruct (0 <=? spare_fd_ s); [done|]. rewrite bind_run. cbn [fst snd sys_open_null sys].
    destruct (Hopen (trace s)) as [fd Hfd]. rewrite Hfd.
    destruct (kernel_open retries HK _ _ Hfd) as [Hpos _]. rewrite bind_run. simpl. lia. }
  destruct (reopen_spare_fd s) as [ok s1]. cbn [fst snd] in *. subst ok. cbn [negb].
  rewrite bind_run, loop_add_run. by rewrite Hadd.
Qed.

Lemma shed_connection_ok f X s :
  inv f X s →
  let s' := (shed_connection s).2 in
  inv f X s' ∧ frame s s' ∧ conns_ s' = conns_ s ∧ db_ s' = db_ s ∧
  (0 ≤ spare_fd_ s' ∨ listener_paused_ s' = true).
Proof.
  intros Hi. unfold shed_connection. rewrite bind_run. simpl. rewrite bind_run.
  set (m := if 0 <=? spare_fd_ s then _ else _).
  assert (∀ b s1, m s = (b, s1) → inv f X s1 ∧ frame s s1 ∧ conns_ s1 = conns_ s ∧ db_ s1 = db_ s ∧
    (b = true → 0 ≤ spare_fd_ s1)) as Hm.
  { intros b s1. unfold m. destruct (Z.leb_spec 0 (spare_fd_ s)) as [Hs|Hs]; [|by intros [= <- <-]].
    rewrite !bind_run. simpl. set (s2 := set_spare (-1) (record (AClose (spare_fd_ s)) s)).
    assert (inv f X s2) as Hi2 by by apply inv_spend.
    change (listen_fd_ s) with (listen_fd_ s2).
    change (trace s ++ [AClose (spare_fd_ s)]) with (trace s2).
    set (s3 := (match k_accept (trace s2) (listen_fd_ s2) with
                | inr fd => sys_close fd | inl _ => mret tt end
                (record (AAccept (listen_fd_ s2) (k_accept (trace s2) (listen_fd_ s2))) s2)).2).
    assert (inv f X s3 ∧ frame s s3 ∧ conns_ s3 = conns_ s ∧ db_ s3 = db_ s) as (Hi3 & Hf3 & Hc3 & Hd3).
    { unfold s3. destruct (k_accept (trace s2) (listen_fd_ s2)) as [e|fd] eqn:Ea; simpl.
      - split_and!; try done. apply inv_record; [done|by apply in_order_listen|done].
      - split_and!; try done. destruct (kernel_accept retries HK _ _ _ Ea) as [_ Hfr].
        apply inv_close; [by apply (inv_accept _ _ s2)|]. pose proof (inv_fds _ _ _ Hi2) as (He & _).
        set_solver. }
    destruct (reopen_spare_ok f X s3 Hi3) as (Hi4 & Hf4 & Hc4 & Hd4 & _ & Hr). intros Heq.
    fold s3 in Heq. rewrite Heq in *. simpl in *. split_and!; [done| |congruence|congruence|lia].
    by transitivity s3. }
  destruct (m s) as [b s1] eqn:E. destruct (Hm b s1 eq_refl) as (Hi1 & Hf1 & Hc1 & Hd1 & Hr1).
  destruct b; simpl; [by split_and!; auto|].
  destruct (pause_listener_ok f X s1 Hi1) as (Hi2 & Hf2 & Hc2 & Hd2 & Hp2).
  split_and!; [done|by transitivity s1|congruence|congruence|by right].
Qed.

(** *** A connection's registration *)
Lemma inv_conn f X s fd c :
  inv f X s → conns_ s !! fd = Some c →
  fd ≠ listen_fd_ s ∧ (∃ r, handlers_ s !! fd = Some r ∧ callback r = ConnCallback) ∧
  watched (trace s) !! fd = Some (write_armed c).
Proof.
  intros [] Hc. assert (fd ∈ dom (conns_ s)) as Hd by (apply elem_of_dom; by eexists).
  destruct inv_fds0 as (_ & Hl & _). assert (fd ≠ listen_fd_ s) as Hne by set_solver.
  split_and!; [done| |].
  - apply handler_of. rewrite inv_handlers0. simpl.
    destruct (listener_paused_ s); rewrite ?lookup_insert_ne by done; by rewrite lookup_fmap, Hc.
  - rewrite inv_watched0. simpl.
    destruct (listener_paused_ s); rewrite ?lookup_insert_ne by done; by rewrite lookup_fmap, Hc.
Qed.

Lemma inv_focus f X s : inv None X s → inv f X s.
Proof. intros []. split; try done. intros fd c Hc _. by apply (inv_settled0 fd c Hc). Qed.

Lemma inv_unfocus fd X s :
  inv (Some fd) X s → (∀ c, conns_ s !! fd = Some c → settled c) → inv None X s.
Proof.
  intros [] Hs. split; try done. intros fd' c Hc _. destruct (decide (fd = fd')) as [->|Hne].
  - by apply Hs.
  - apply (inv_settled0 fd' c Hc). congruence.
Qed.

Lemma close_conn_ok f X s fd c :
  inv f X s → conns_ s !! fd = Some c → f = None ∨ f = Some fd →
  let s' := (close_conn fd s).2 in
  inv None X s' ∧ frame s s' ∧ conns_ s' = delete fd (conns_ s) ∧ db_ s' = db_ s.
Proof.
  intros Hi Hc Hf. destruct (inv_conn f X s fd c Hi Hc) as (Hl & (r & Hh & _) & Hw).
  unfold close_conn. rewrite bind_run, (loop_remove_registered _ r) by eauto.
  rewrite !bind_run. cbn [fst snd sys_close sys modify].
  set (s1 := set_conns _ _). assert (inv None X s1) as Hi1.
  { assert (fd ∈ dom (conns_ s)) as Hd by (apply elem_of_dom; by eexists).
    destruct Hi. split; simpl; try done.
    - intros fd' c' [_ H]%lookup_delete_Some. eauto.
    - intros fd' c' [Hne H]%lookup_delete_Some _. apply (inv_settled0 fd' c' H).
      destruct Hf as [->| ->]; congruence.
    - rewrite fmap_delete, inv_handlers0, fmap_delete. simpl. destruct (listener_paused_ s); [done|].
      by rewrite delete_insert_ne.
    - rewrite !watched_snoc. simpl. rewrite inv_watched0, delete_delete_eq, fmap_delete. simpl.
      destruct (listener_paused_ s); [done|]. by rewrite delete_insert_ne.
    - rewrite !opened_snoc, dom_delete_L. simpl. by apply fds_drop.
    - rewrite !nonblocking_snoc, dom_delete_L. simpl. set_solver.
    - rewrite !orderly_snoc. simpl. split_and!; [done|by eexists|done]. }
  destruct (resume_listener_ok None X s1 Hi1) as (Hi2 & Hf2 & Hc2 & Hd2).
  split_and!; [done| |by rewrite Hc2|by rewrite Hd2]. transitivity s1; [|done].
  split; [done..|]. intros x. by apply (unregistered_owned fd r s x).
Qed.

Lemma set_nonblocking_ok f X s fd :
  inv f X s →
  let r := set_nonblocking fd s in
  inv f X r.2 ∧ frame s r.2 ∧ conns_ r.2 = conns_ s ∧ db_ r.2 = db_ s ∧
  (r.1 = None → fd ∈ nonblocking (trace r.2)).
Proof.
  intros Hi. unfold set_nonblocking. rewrite bind_run. unfold sys_getfl, sys. cbn [fst snd].
  set (g := k_getfl (trace s) fd). set (s1 := record (AGetFl fd g) s).
  assert (inv f X s1) as Hi1 by by apply inv_record.
  destruct g as [e|flags]; [by split_and!|]. unfold sys_setfl, sys. cbn [fst snd].
  destruct (k_setfl (trace s1) fd _) as [e|].
  - split_and!; try done. by apply inv_record.
  - destruct (inv_setfl f X s1 fd flags Hi1). by split_and!.
Qed.

(** The new connection takes over its descriptor. *)
Lemma inv_adopt X s fd :
  inv None ({[fd]} ∪ X) s → fd ∉ X → fd ∈ nonblocking (trace s) →
  let s1 := registered fd false ConnCallback s in
  inv None X (set_conns (<[fd := new_conn]> (conns_ s1)) s1) ∧ handlers_ s !! fd = None.
Proof.
  intros Hi HX Hnb s1. pose proof (inv_fds _ _ _ Hi) as (_ & Hl & Hsp & Hx).
  assert (fd ∉ dom (conns_ s)) as Hfd by set_solver. assert (fd ≠ listen_fd_ s) as Hne by set_solver.
  pose proof (inv_unwatched _ _ _ _ Hi Hfd (or_intror Hne)) as Hw.
  pose proof (orderly_record _ _ _ (APollAdd fd false true) Hi Hw) as Hst.
  split; [|by apply (no_handler _ _ _ _ Hi); [|right]]. apply not_elem_of_dom in Hfd.
  destruct Hi. split; simpl; try done.
  - intros fd' c. rewrite lookup_insert. case_decide; [intros [= <-]; apply new_conn_pre|eauto].
  - intros fd' c. rewrite lookup_insert. case_decide; [by intros [= <-]|eauto].
  - rewrite fmap_insert, inv_handlers0, fmap_insert. destruct (listener_paused_ s); [done|].
    by rewrite insert_insert_ne.
  - rewrite watched_snoc. simpl. rewrite inv_watched0, fmap_insert. simpl.
    destruct (listener_paused_ s); [done|]. by rewrite insert_insert_ne.
  - rewrite opened_snoc, dom_insert_L. simpl. by apply fds_adopt.
  - rewrite nonblocking_snoc, dom_insert_L. simpl. set_solver.
Qed.

Lemma add_connection_ok s fd :
  inv None {[fd]} s →
  let s' := (add_connection fd s).2 in
  inv None ∅ s' ∧ frame s s' ∧ db_ s' = db_ s ∧
  (conns_ s' = conns_ s ∨ conns_ s' = <[fd := new_conn]> (conns_ s)).
Proof.
  intros Hi. rewrite <-(union_empty_r_L {[fd]}) in Hi. unfold add_connection. rewrite bind_run.
  destruct (set_nonblocking_ok _ _ s fd Hi) as (Hi1 & Hf1 & Hc1 & Hd1 & Hnb).
  destruct (set_nonblocking fd s) as [r s1]. cbn [fst snd] in *.
  assert (∀ s', inv None ({[fd]} ∪ ∅) s' → frame s s' → conns_ s' = conns_ s → db_ s' = db_ s →
    let s'' := record (AClose fd) s' in
    inv None ∅ s'' ∧ frame s s'' ∧ db_ s'' = db_ s ∧
    (conns_ s'' = conns_ s ∨ conns_ s'' = <[fd := new_conn]> (conns_ s))) as Hclose.
  { intros s' Hi' Hf' Hc' Hd'. split_and!; [by apply inv_close; [|set_solver]| |done|by left].
    etrans; [exact Hf'|by split]. }
  destruct r as [e|]; [by apply Hclose|]. specialize (Hnb eq_refl).
  unfold set_tcp_nodelay, suppress_sigpipe, sys_setopt, sys. rewrite !bind_run. cbn [fst snd mret ST_ret].
  set (s2 := record _ s1). assert (inv None ({[fd]} ∪ ∅) s2) as Hi2 by by apply inv_record.
  assert (frame s s2) as Hf2 by (etrans; [exact Hf1|by split]).
  rewrite loop_add_run. destruct (k_poll_add (trace s2) fd false); cbn [fst snd negb].
  2: { pose proof (inv_fds _ _ _ Hi2) as (_ & Hl & Hsp & Hx).
       apply (Hclose (record (APollAdd fd false false) s2)); [| |done|done].
       { apply inv_record; [done|apply (inv_unwatched _ _ _ _ Hi2); [|right]; set_solver|done]. }
       etrans; [exact Hf2|by split]. }
  destruct (inv_adopt ∅ s2 fd Hi2) as [Hi3 Hnh]; [set_solver| |].
  { unfold s2. cbn [trace record]. by rewrite nonblocking_snoc. }
  split_and!; [done| |done|right; by rewrite <-Hc1].
  etrans; [exact Hf2|]. split; [done..|]. intros x. by apply (registered_owned fd false ConnCallback s2).
Qed.

(** *** Writing through a connection reference *)
Lemma the_conn_run s fd c : conns_ s !! fd = Some c → the_conn fd s = (c, s).
Proof. intros H. unfold the_conn. by rewrite H. Qed.

Lemma put_conn_run s fd c c' :
  conns_ s !! fd = Some c → put_conn fd c' s = (tt, set_conns (<[fd := c']> (conns_ s)) s).
Proof. intros H. unfold put_conn. by rewrite H. Qed.

Lemma inv_put X s fd c c' :
  inv (Some fd) X s → conns_ s !! fd = Some c → conn_pre c' → write_armed c' = write_armed c →
  inv (Some fd) X (set_conns (<[fd := c']> (conns_ s)) s).
Proof.
  intros [] Hc Hp Ha. split; simpl; try done.
  - intros fd' c1. rewrite lookup_insert. case_decide; [by intros [= <-]|eauto].
  - intros fd' c1. rewrite lookup_insert. case_decide; [by subst|eauto].
  - rewrite inv_handlers0, fmap_insert. rewrite (insert_id (_ <$> conns_ s)); [done|]. by rewrite lookup_fmap, Hc.
  - rewrite inv_watched0, fmap_insert, Ha. rewrite (insert_id (_ <$> _)); [done|]. by rewrite lookup_fmap, Hc.
  - rewrite dom_insert_lookup_L; [done|]. by eexists.
  - rewrite dom_insert_lookup_L; [done|]. by eexists.
Qed.

(** *** Sending *)
Lemma flush_loop_done fuel fd s c :
  conns_ s !! fd = Some c → pending c = false → flush_loop fuel fd s = (true, s).
Proof.
  intros Hc Hp. unfold pending in Hp. apply negb_false_iff in Hp.
  destruct fuel; simpl; rewrite bind_run, (the_conn_run _ _ _ Hc); simpl; by rewrite Hp.
Qed.

Lemma flush_loop_step fuel fd s c :
  conns_ s !! fd = Some c → pending c = true →
  let p := Buffer.to_string (out_ c) in
  let r := k_send (trace s) fd p in
  let s1 := record (ASend fd p r) s in
  flush_loop (S fuel) fd s =
    match r with
    | inr (S _ as n) =>
        flush_loop fuel fd
          (set_conns (<[fd := set_out (Buffer.consume n (out_ c)) c]> (conns_ s)) s1)
    | inl EINTR => flush_loop fuel fd s1
    | inl EAGAIN => (true, s1)
    | _ => (false, (close_conn fd s1).2)
    end.
Proof.
  intros Hc Hp p r s1. unfold pending in Hp. apply negb_true_iff in Hp. simpl.
  rewrite bind_run, (the_conn_run _ _ _ Hc). simpl. rewrite Hp, bind_run. simpl. fold p r.
  destruct r as [[]|[|n]]; try done; [by rewrite bind_run..|].
  rewrite bind_run, (put_conn_run _ _ c) by done. done.
Qed.

(** What the loop guarantees when it leaves the connection open: it sent a
    prefix of the output, in order, and kept the rest. *)
Record flushed (fd : Z) (c : BConn) (s s' : Server) : Prop := {
  flushed_conn : ∃ o, conns_ s' = <[fd := set_out o c]> (conns_ s) ∧ Buffer.ok o ∧
    sent fd (trace s') ++ Buffer.to_string o = sent fd (trace s) ++ Buffer.to_string (out_ c);
  flushed_frame : frame s s';
  flushed_db : db_ s' = db_ s;
}.

Definition closed (fd : Z) (X : gset Z) (s s' : Server) : Prop :=
  inv None X s' ∧ frame s s' ∧ conns_ s' = delete fd (conns_ s) ∧ db_ s' = db_ s.

Lemma sent_nothing fd t a : sent_by fd a = [] → sent fd (t ++ [a]) = sent fd t.
Proof. intros H. rewrite sent_app. unfold sent at 2. simpl. by rewrite H, !app_nil_r. Qed.

Lemma set_out_id (c : BConn) : set_out (out_ c) c = c.
Proof. by destruct c. Qed.

Definition flush_result (fd : Z) (X : gset Z) (c : BConn) (s : Server) (r : bool * Server) : Prop :=
  if r.1 then inv (Some fd) X r.2 ∧ flushed fd c s r.2 else closed fd X s r.2.

Lemma flushed_refl fd c s : conns_ s !! fd = Some c → Buffer.ok (out_ c) → flushed fd c s s.
Proof. intros Hc Ho. split; [|done|done]. exists (out_ c). by rewrite set_out_id, insert_id. Qed.

(** A [send] that fails for good, or takes nothing. *)
Lemma flush_fails X fd s c a :
  inv (Some fd) X s → conns_ s !! fd = Some c → neutral a → in_order s a →
  closed fd X s (close_conn fd (record a s)).2.
Proof.
  intros Hi Hc Hn Ha. assert (inv (Some fd) X (record a s)) as Hi1 by by apply inv_record.
  destruct (close_conn_ok (Some fd) X _ fd c Hi1 Hc ltac:(by right)) as (? & ? & ? & ?).
  split_and!; try done. etrans; [|done]. by split.
Qed.

(** A [send] that is interrupted, before the rest of the loop. *)
Lemma flush_interrupted X fd s c e r :
  flush_result fd X c (record (ASend fd (Buffer.to_string (out_ c)) (inl e)) s) r → flush_result fd X c s r.
Proof.
  set (s1 := record _ s). assert (sent fd (trace s1) = sent fd (trace s)) as Hsent by by apply sent_nothing.
  assert (frame s s1) as Hfr by by split. unfold flush_result. destruct r as [[] s2]; cbn [fst snd].
  - intros [? [Ho Hf Hd]]. split; [done|]. split; [by rewrite Hsent in Ho|by etrans; [|exact Hf]|done].
  - intros (? & Hf & ? & ?). split_and!; try done. by etrans; [|exact Hf].
Qed.

(** A [send] that takes [n] bytes, before the rest of the loop. *)
Definition after_send (fd : Z) (c : BConn) (n : nat) (s : Server) : Server :=
  set_conns (<[fd := set_out (Buffer.consume n (out_ c)) c]> (conns_ s))
    (record (ASend fd (Buffer.to_string (out_ c)) (inr n)) s).

Lemma flush_sent X fd s c n r :
  conns_ s !! fd = Some c → Buffer.ok (out_ c) →
  flush_result fd X (set_out (Buffer.consume n (out_ c)) c) (after_send fd c n s) r → flush_result fd X c s r.
Proof.
  intros Hc Hout. destruct (Buffer.consume_spec n (out_ c) Hout) as [_ Hs1].
  assert (frame s (after_send fd c n s)) as Hfr by by split.
  unfold flush_result. destruct r as [[] s3]; cbn [fst snd].
  - intros [Hi3 [(o & Ho & Hoo & Hsent) Hf3 Hd3]]. split; [done|]. split; [|by etrans; [|exact Hf3]|done].
    exists o. split_and!; [by rewrite Ho; simpl; rewrite insert_insert_eq|done|].
    rewrite Hsent. simpl. rewrite sent_app, Hs1, <-(assoc_L (++)). f_equal.
    unfold sent. simpl. rewrite Z.eqb_refl, app_nil_r. apply take_drop.
  - intros (? & Hf3 & Hc3 & ?). split_and!; try done; [by etrans; [|exact Hf3]|].
    rewrite Hc3. simpl. by rewrite delete_insert_eq.
Qed.

(** The bytes left, times the interruptions each [send] may meet, bound the
    turns; [k] is how often the [send] under way has been interrupted. *)
Lemma flush_loop_ok fuel X fd s c t0 k :
  inv (Some fd) X s → conns_ s !! fd = Some c →
  let p := Buffer.to_string (out_ c) in
  trace s = t0 ++ replicate k (ASend fd p (inl EINTR)) →
  (∀ j, (j < k)%nat → k_send (t0 ++ replicate j (ASend fd p (inl EINTR))) fd p = inl EINTR) →
  (Buffer.readable (out_ c) * S retries ≤ fuel + k)%nat →
  flush_result fd X c s (flush_loop fuel fd s).
Proof.
  revert s c t0 k. induction fuel as [|fuel IH]; intros s c t0 k Hi Hc p Ht Hk Hfuel;
    destruct (inv_pre _ _ _ Hi _ _ Hc) as [Hin Hout Hpar Hlim];
    (destruct (pending c) eqn:Hp;
      [|rewrite (flush_loop_done _ _ _ c) by done; split; [done|by apply flushed_refl]]);
    (assert (k ≤ retries)%nat as Hkr by
      (destruct (kernel_eintr retries HK t0 fd p) as (m & Hm & Hne);
       destruct (decide (k ≤ m)%nat); [lia|]; destruct Hne; apply Hk; lia)).
  { unfold pending in Hp. apply negb_true_iff, Nat.eqb_neq in Hp. nia. }
  assert (∀ r, in_order s (ASend fd p r)) as Hw by (intros r; by eapply in_order_conn).
  rewrite (flush_loop_step _ _ _ c) by done. fold p. destruct (k_send (trace s) fd p) as [e|n] eqn:Es.
  - assert (inv (Some fd) X (record (ASend fd p (inl e)) s)) as Hi1 by by apply inv_record.
    destruct e; try by apply (flush_fails X fd s c).
    + eapply flush_interrupted. split; [done|by apply flushed_refl].
    + eapply flush_interrupted, (IH _ c t0 (S k)); [done|done|..|lia].
      * change (trace s ++ [ASend fd p (inl EINTR)] = t0 ++ replicate (S k) (ASend fd p (inl EINTR))).
        by rewrite replicate_S_end, (assoc_L (++)), <-Ht.
      * intros j Hj. fold p. destruct (decide (j = k)) as [->|]; [by rewrite <-Ht|apply Hk; lia].
  - pose proof (kernel_send retries HK _ _ _ _ Es) as Hn.
    destruct n as [|n]; [by apply (flush_fails X fd s c)|]. apply (flush_sent X fd s c (S n)); [done|done|].
    destruct (Buffer.consume_spec (S n) (out_ c) Hout) as [Hok1 Hs1].
    apply (IH (after_send fd c (S n) s) _ (trace (after_send fd c (S n) s)) 0%nat).
    + apply (inv_put X (record (ASend fd p (inr (S n))) s) fd c); [by apply inv_record|done| |done]. by split.
    + apply lookup_insert_eq.
    + by rewrite app_nil_r.
    + lia.
    + assert (Buffer.readable (Buffer.consume (S n) (out_ c)) + S n = Buffer.readable (out_ c))%nat; [|simpl; nia].
      rewrite <-!Buffer.length_to_string by done. rewrite Hs1, length_drop. unfold p in Hn. lia.
Qed.

(** *** Arming and disarming write readiness *)
Definition armed_state (fd : Z) (w : bool) (c : BConn) (s : Server) : Server :=
  set_conns (<[fd := set_armed w c]> (conns_ s)) (record (APollMod fd w true) s).

Lemma set_interest_run X s fd c w (m : ST Server bool) :
  inv (Some fd) X s → conns_ s !! fd = Some c →
  (_ ← loop_set_write_interest fd w; _ ← put_conn fd (set_armed w c); m) s = m (armed_state fd w c s).
Proof.
  intros Hi Hc. destruct (inv_conn _ _ _ _ _ Hi Hc) as (_ & _ & Hw).
  unfold loop_set_write_interest. rewrite bind_run. simpl. rewrite (kernel_mod retries HK) by by eexists.
  rewrite bind_run, (put_conn_run _ _ c) by done. done.
Qed.

Lemma inv_armed X s fd c w :
  inv (Some fd) X s → conns_ s !! fd = Some c → inv (Some fd) X (armed_state fd w c s).
Proof.
  intros Hi Hc. destruct (inv_conn _ _ _ _ _ Hi Hc) as (Hl & _ & Hw). destruct Hi. split; simpl; try done.
  - intros fd' c1. rewrite lookup_insert. case_decide; [|eauto].
    intros [= <-]. by destruct (inv_pre0 fd c Hc).
  - intros fd' c1. rewrite lookup_insert. case_decide; [by subst|eauto].
  - rewrite inv_handlers0, fmap_insert. rewrite (insert_id (_ <$> conns_ s)); [done|]. by rewrite lookup_fmap, Hc.
  - rewrite watched_snoc. simpl. rewrite inv_watched0, fmap_insert. simpl.
    destruct (listener_paused_ s); [done|]. by rewrite insert_insert_ne.
  - rewrite opened_snoc, dom_insert_lookup_L; [done|]. by eexists.
  - rewrite nonblocking_snoc, dom_insert_lookup_L; [done|]. by eexists.
  - apply orderly_snoc. split; [done|]. by eexists.
Qed.

(** *** [flush_output] *)
Record drained (fd : Z) (c : BConn) (s s' : Server) : Prop := {
  drained_conn : ∃ c', conns_ s' = <[fd := c']> (conns_ s) ∧ in_ c' = in_ c ∧ parser c' = parser c ∧
    close_after_write c' = close_after_write c ∧
    sent fd (trace s') ++ Buffer.to_string (out_ c') = sent fd (trace s) ++ Buffer.to_string (out_ c);
  drained_frame : frame s s';
  drained_db : db_ s' = db_ s;
}.

Lemma inv_settle X s fd c : inv (Some fd) X s → conns_ s !! fd = Some c → settled c → inv None X s.
Proof. intros Hi Hc Hs. apply (inv_unfocus fd); [done|]. intros c' Hc'. by simplify_eq. Qed.

Lemma flush_output_ok X fd s c :
  inv (Some fd) X s → conns_ s !! fd = Some c →
  let r := flush_output retries fd s in
  if r.1 then inv None X r.2 ∧ drained fd c s r.2 else closed fd X s r.2.
Proof.
  intros Hi Hc. unfold flush_output. rewrite bind_run, (the_conn_run _ _ _ Hc). cbn [fst snd].
  rewrite bind_run.
  pose proof (flush_loop_ok (Buffer.readable (out_ c) * S retries) X fd s c (trace s) 0 Hi Hc) as Hf.
  specialize (Hf ltac:(by rewrite app_nil_r) ltac:(lia) ltac:(lia)). unfold flush_result in Hf.
  destruct (flush_loop _ fd s) as [[] s1]; cbn [fst snd] in *; [|done].
  destruct Hf as [Hi1 [(o & Ho & Hok & Hsent) Hf1 Hd1]]. cbn [negb].
  set (c1 := set_out o c) in *. assert (conns_ s1 !! fd = Some c1) as Hc1 by (rewrite Ho; apply lookup_insert_eq).
  rewrite bind_run, (the_conn_run _ _ _ Hc1). cbn [fst snd].
  assert (∀ w, inv (Some fd) X (armed_state fd w c1 s1) → settled (set_armed w c1) →
    inv None X (armed_state fd w c1 s1) ∧ drained fd c s (armed_state fd w c1 s1)) as Harm.
  { intros w Hi2 Hs. split; [by apply (inv_settle _ _ fd (set_armed w c1)); [|apply lookup_insert_eq|]|].
    split; [|by etrans; [exact Hf1|split]|done]. exists (set_armed w c1). split_and!; try done.
    - simpl. by rewrite Ho, insert_insert_eq.
    - simpl. by rewrite sent_nothing. }
  assert (settled c1 → inv None X s1 ∧ drained fd c s s1) as Hstay.
  { intros Hs. split; [by eapply inv_settle|]. split; [|done|done]. by exists c1. }
  destruct (Buffer.readable (out_ c1) =? 0)%nat eqn:Er; destruct (write_armed c1) eqn:Ew; cbn [negb].
  - destruct (close_after_write c1) eqn:Ecl.
    + destruct (close_conn_ok (Some fd) X s1 fd c1 Hi1 Hc1) as (? & ? & Hcs & Hds); [by right|].
      rewrite bind_run. cbn [fst snd mret ST_ret].
      split_and!; [done|by etrans|by rewrite Hcs, Ho, delete_insert_eq|by etrans].
    + rewrite (set_interest_run X) by done. apply Harm; [by apply inv_armed|].
      split; unfold pending; simpl in *; [by rewrite Er|congruence].
  - destruct (close_after_write c1) eqn:Ecl.
    + destruct (close_conn_ok (Some fd) X s1 fd c1 Hi1 Hc1) as (? & ? & Hcs & Hds); [by right|].
      rewrite bind_run. cbn [fst snd mret ST_ret].
      split_and!; [done|by etrans|by rewrite Hcs, Ho, delete_insert_eq|by etrans].
    + apply Hstay. split; unfold pending; rewrite ?Er; [done|congruence].
  - apply Hstay. split; unfold pending; rewrite ?Er; done.
  - rewrite (set_interest_run X) by done. apply Harm; [by apply inv_armed|].
    split; unfold pending; simpl in *; by rewrite Er.
Qed.

(** *** Serving one connection *)
Context (time : nat → Z) (Hclock : clock_ok time).

(** The other connections are untouched; this one is alive, or gone. *)
Record served (X : gset Z) (fd : Z) (s : Server) (alive : bool) (s' : Server) : Prop := {
  served_inv : inv None X s';
  served_frame : frame s s';
  served_others fd' : fd' ≠ fd → conns_ s' !! fd' = conns_ s !! fd';
  served_alive : if alive then is_Some (conns_ s' !! fd) else conns_ s' !! fd = None;
}.

Lemma closed_served X fd s s' : closed fd X s s' → served X fd s false s'.
Proof.
  intros (Hi & Hf & Hc & _). split; [done|done| |by rewrite Hc, lookup_delete_eq].
  intros fd' Hne. by rewrite Hc, lookup_delete_ne.
Qed.

Lemma drained_served X fd c s s' : inv None X s' → drained fd c s s' → served X fd s true s'.
Proof.
  intros Hi [(c' & Hc & _) Hf _]. split; [done|done| |rewrite Hc, lookup_insert_eq; by eexists].
  intros fd' Hne. by rewrite Hc, lookup_insert_ne.
Qed.

Lemma served_trans X fd s s1 s2 b :
  frame s s1 → (∀ fd', fd' ≠ fd → conns_ s1 !! fd' = conns_ s !! fd') →
  served X fd s1 b s2 → served X fd s b s2.
Proof.
  intros Hf Ho [Hi Hf2 Ho2 Ha]. split; [done|by etrans| |done].
  intros fd' Hne. by rewrite Ho2, Ho.
Qed.

Lemma flush_output_served X fd s c :
  inv (Some fd) X s → conns_ s !! fd = Some c →
  let r := flush_output retries fd s in served X fd s r.1 r.2.
Proof.
  intros Hi Hc. pose proof (flush_output_ok X fd s c Hi Hc) as H.
  destruct (flush_output retries fd s) as [[] s']; simpl in *.
  - destruct H. by eapply drained_served.
  - by apply closed_served.
Qed.

Lemma close_served X fd f s c :
  inv f X s → conns_ s !! fd = Some c → f = None ∨ f = Some fd →
  served X fd s false (close_conn fd s).2.
Proof.
  intros Hi Hc Hf. apply closed_served.
  by destruct (close_conn_ok f X s fd c Hi Hc Hf) as (? & ? & ? & ?).
Qed.

Lemma inv_world f X w s : store_ok (the_db w) → inv f X s → inv f X (set_world w s).
Proof. intros Hw []. by split. Qed.

Lemma process_input_run fd s c :
  conns_ s !! fd = Some c →
  process_input time retries fd s =
    let '(c', w, e) := process_loop time (max_output_buffer (cfg_ s)) c (db_ s) in
    let s1 := set_world w (set_conns (<[fd := c']> (conns_ s)) s) in
    match e with
    | LoopLimit => (false, (close_conn fd s1).2)
    | LoopBreak => flush_output retries fd s1
    end.
Proof.
  intros Hc. unfold process_input. rewrite bind_run, (the_conn_run _ _ _ Hc). cbn [fst snd].
  rewrite bind_run. cbn [fst snd get].
  destruct (process_loop time _ c _) as [[c' w] e]. rewrite bind_run, (put_conn_run _ _ c) by done.
  cbn [fst snd]. rewrite bind_run. cbn [fst snd modify]. destruct e; [done|]. by rewrite bind_run.
Qed.

Lemma process_input_served X fd s c :
  inv (Some fd) X s → conns_ s !! fd = Some c →
  let r := process_input time retries fd s in served X fd s r.1 r.2.
Proof.
  intros Hi Hc. rewrite (process_input_run fd s c Hc).
  pose proof (process_loop_ok time Hclock (max_output_buffer (cfg_ s)) c (db_ s)
    (inv_pre _ _ _ Hi _ _ Hc) (inv_store _ _ _ Hi)) as Hp.
  destruct (process_loop time _ c _) as [[c' w] e]. destruct Hp as (Hpre & Hok & Ha & _).
  set (s1 := set_world w _). assert (inv (Some fd) X s1) as Hi1.
  { apply inv_world; [done|]. by apply (inv_put X s fd c). }
  assert (conns_ s1 !! fd = Some c') as Hc1 by apply lookup_insert_eq.
  cbv zeta. apply (served_trans _ _ _ s1); [by split|intros ? ?; by apply lookup_insert_ne|].
  destruct e; cbn [fst snd]; [by eapply flush_output_served|].
  eapply close_served; [exact Hi1|exact Hc1|by right].
Qed.

(** *** Reading *)
Definition reading_conn (c : BConn) : BConn := set_in (Buffer.ensure_writable kReadChunk (in_ c)) c.

Definition received_conn (p : bytes) (c : BConn) : BConn :=
  set_in (Buffer.commit (length p) (Buffer.store p (in_ (reading_conn c)))) (reading_conn c).

Lemma received_conn_spec p c :
  conn_pre c → (length p ≤ kReadChunk)%nat →
  conn_pre (reading_conn c) ∧ conn_pre (received_conn p c) ∧
  contents (in_ (reading_conn c)) = contents (in_ c) ∧
  contents (in_ (received_conn p c)) = contents (in_ c) ++ p.
Proof.
  intros [Hi Ho Hp Hl] Hlen.
  destruct (Buffer.ensure_writable_spec kReadChunk (in_ c) Hi) as (Hok & Hs & Hw).
  destruct (Buffer.store_commit_spec p _ Hok) as (Hok' & Hs'); [lia|].
  split_and!; [by split|by split|done|]. simpl. by rewrite Hs', Hs.
Qed.

Lemma handle_read_run fd s c :
  conns_ s !! fd = Some c →
  let s1 := set_conns (<[fd := reading_conn c]> (conns_ s)) s in
  let r := k_read (trace s) fd kReadChunk in
  let s2 := record (ARead fd r) s1 in
  handle_read time retries fd s =
    match r with
    | inr [] => (false, (close_conn fd s2).2)
    | inl EAGAIN | inl EINTR => (true, s2)
    | inl _ => (false, (close_conn fd s2).2)
    | inr p => process_input time retries fd (set_conns (<[fd := received_conn p c]> (conns_ s2)) s2)
    end.
Proof.
  intros Hc s1 r s2. unfold handle_read. rewrite bind_run, (the_conn_run _ _ _ Hc). cbn [fst snd].
  cbv zeta. fold (reading_conn c). rewrite bind_run, (put_conn_run _ _ c) by done. cbn [fst snd].
  rewrite bind_run. unfold sys_read, sys. cbn [fst snd]. fold s1. change (trace s1) with (trace s).
  fold r s2. destruct r as [[]|[|b p]]; try done; try by rewrite bind_run.
  rewrite bind_run, (put_conn_run _ _ (reading_conn c)) by apply lookup_insert_eq. done.
Qed.

Lemma inv_reading X s fd c r :
  inv None X s → conns_ s !! fd = Some c →
  inv (Some fd) X (record (ARead fd r) (set_conns (<[fd := reading_conn c]> (conns_ s)) s)).
Proof.
  intros Hi Hc. apply inv_record; [done|eapply in_order_conn; [done|apply lookup_insert_eq]|].
  apply (inv_put X s fd c); [by apply inv_focus|done| |done].
  by destruct (received_conn_spec [] c (inv_pre _ _ _ Hi _ _ Hc)) as (? & _); [simpl; lia|].
Qed.

Lemma handle_read_served X fd s c :
  inv None X s → conns_ s !! fd = Some c →
  let r := handle_read time retries fd s in served X fd s r.1 r.2.
Proof.
  intros Hi Hc. rewrite (handle_read_run fd s c Hc). set (s1 := set_conns _ s).
  set (r := k_read (trace s) fd kReadChunk). set (s2 := record _ s1). cbv zeta.
  assert (∀ p, r = inr p → (length p ≤ kReadChunk)%nat) as Hlen by (intros p Hr; by eapply kernel_read).
  pose proof (inv_pre _ _ _ Hi _ _ Hc) as Hpre.
  assert (inv (Some fd) X s2) as Hi2 by by apply inv_reading.
  assert (conns_ s2 !! fd = Some (reading_conn c)) as Hc2 by apply lookup_insert_eq.
  assert (settled c) as Hset by by apply (inv_settled _ _ _ Hi fd).
  assert (∀ b s', served X fd s2 b s' → served X fd s b s') as Hfrom.
  { intros b s'. apply served_trans; [by split|]. intros fd' Hne. by apply lookup_insert_ne. }
  assert (served X fd s2 true s2) as Hstay.
  { split; [|done|done|by eexists]. by apply (inv_settle _ _ fd (reading_conn c)). }
  destruct r as [[]|[|b p]] eqn:Er; apply Hfrom; cbn [fst snd];
    try exact Hstay; try (eapply close_served; [exact Hi2|exact Hc2|by right]).
  destruct (received_conn_spec (b :: p) c Hpre) as (_ & Hrc & _); [by apply Hlen|].
  set (s3 := set_conns _ s2). assert (inv (Some fd) X s3) as Hi3.
  { apply (inv_put X s2 fd (reading_conn c)); [done|done|done|done]. }
  apply (served_trans _ _ _ s3); [by split|intros ? ?; by apply lookup_insert_ne|].
  eapply process_input_served; [exact Hi3|apply lookup_insert_eq].
Qed.

(** *** One readiness report *)
Lemma on_conn_event_ok X fd r w s :
  inv None X s →
  let s' := (on_conn_event time retries fd r w s).2 in
  inv None X s' ∧ frame s s' ∧ (∀ fd', fd' ≠ fd → conns_ s' !! fd' = conns_ s !! fd').
Proof.
  intros Hi. unfold on_conn_event. rewrite bind_run. cbn [fst snd get].
  destruct (conns_ s !! fd) as [c|] eqn:Hc; [|done].
  assert (∀ b s', served X fd s b s' → inv None X s' ∧ frame s s' ∧
    (∀ fd', fd' ≠ fd → conns_ s' !! fd' = conns_ s !! fd')) as Hend by by intros b s' [].
  rewrite bind_run. set (m1 := if r then _ else _).
  assert (served X fd s (m1 s).1 (m1 s).2) as Hm1.
  { unfold m1. destruct r; [by eapply handle_read_served|]. split; try done. by eexists. }
  destruct (m1 s) as [[] s1]; cbn [fst snd negb] in *; [|by eapply Hend].
  destruct Hm1 as [Hi1 Hf1 Ho1 [c1 Hc1]].
  rewrite bind_run, (the_conn_run _ _ _ Hc1). cbn [fst snd]. rewrite bind_run.
  set (m2 := if w && _ then _ else _).
  assert (served X fd s1 (m2 s1).1 (m2 s1).2) as Hm2.
  { unfold m2. destruct (w && _); [eapply flush_output_served; [by apply inv_focus|done]|].
    split; try done. by eexists. }
  apply (served_trans X fd s) in Hm2; [|done|done].
  destruct (m2 s1) as [[] s2]; cbn [fst snd negb] in *; [|by eapply Hend].
  destruct Hm2 as [Hi2 Hf2 Ho2 [c2 Hc2]]. rewrite bind_run, (the_conn_run _ _ _ Hc2). cbn [fst snd].
  destruct (close_after_write c2 && _); [|by split_and!].
  apply (Hend false), (served_trans X fd s s2); [done|done|]. by eapply close_served; [| |left].
Qed.

(** *** The listener *)
Lemma accept_loop_ok n s :
  inv None ∅ s →
  let s' := (accept_loop n s).2 in inv None ∅ s' ∧ frame s s' ∧ db_ s' = db_ s.
Proof.
  revert s. induction n as [|n IH]; intros s Hi; [done|]. simpl accept_loop.
  rewrite bind_run. cbn [fst snd get]. rewrite bind_run. unfold sys_accept, sys. cbn [fst snd].
  set (r := k_accept (trace s) (listen_fd_ s)). set (s1 := record _ s).
  destruct r as [e|fd] eqn:Er.
  - assert (inv None ∅ s1) as Hi1 by (apply inv_record; [done|by apply in_order_listen|done]).
    assert (∀ s', inv None ∅ s' ∧ frame s1 s' ∧ db_ s' = db_ s1 →
      inv None ∅ s' ∧ frame s s' ∧ db_ s' = db_ s) as Hfrom.
    { intros s' (? & ? & ?). split_and!; [done|by etrans; [|done]; split|done]. }
    destruct (shed_connection_ok None ∅ s1 Hi1) as (? & ? & _ & ? & _).
    destruct e; apply Hfrom; by (apply IH || split_and!).
  - destruct (kernel_accept retries HK _ _ _ Er) as [_ Hfr].
    assert (inv None {[fd]} s1) as Hi1.
    { rewrite <-(union_empty_r_L {[fd]}). by apply inv_accept. }
    rewrite bind_run. destruct (add_connection_ok s1 fd Hi1) as (Hi2 & Hf2 & Hd2 & _).
    destruct (IH _ Hi2) as (Hi3 & Hf3 & Hd3).
    split_and!; [done| |by rewrite Hd3, Hd2]. etrans; [|exact Hf3]. etrans; [|exact Hf2]. by split.
Qed.

(** *** The tick *)
Context (layout : nat → gset bytes → list (list bytes)) (Hlayout : layout_ok layout).

Lemma tick_store n w :
  store_ok (the_db w) → store_ok (the_db (active_expire_cycle time layout n w).2).
Proof.
  intros [Hi Hv]. pose proof (active_expire_cycle_ok time layout Hlayout n w) as Hrun. cbv zeta in Hrun.
  destruct Hrun as [Hidx _ _ _ _ _ _ Hsub]. split; [by apply Hidx|].
  intros k v Hk. by apply (Hv k), Hsub.
Qed.

Lemma inv_ext f X s s' :
  inv f X s → fault s' = fault s → db_ s' = db_ s → conns_ s' = conns_ s → handlers_ s' = handlers_ s →
  trace s' = trace s → listen_fd_ s' = listen_fd_ s → spare_fd_ s' = spare_fd_ s →
  listener_paused_ s' = listener_paused_ s → inv f X s'.
Proof.
  intros [] H1 H2 H3 H4 H5 H6 H7 H8.
  split; unfold spare_set; rewrite ?H1, ?H2, ?H3, ?H4, ?H5, ?H6, ?H7, ?H8; try done; eauto.
Qed.

Lemma on_tick_run s :
  let b := k_shutdown (trace s) in
  let s' := record (AShutdown b)
    (set_world (active_expire_cycle time layout (active_expire_samples (cfg_ s)) (db_ s)).2 s) in
  on_tick time layout s = (tt, if b then set_running false s' else s').
Proof.
  cbv zeta. unfold on_tick. rewrite bind_run. cbn [fst snd get].
  destruct (active_expire_cycle time layout _ _) as [n w]. rewrite bind_run. cbn [fst snd modify].
  rewrite bind_run. unfold sys_shutdown, sys. cbn [fst snd].
  change (trace (set_world w s)) with (trace s). by destruct (k_shutdown (trace s)).
Qed.

Lemma on_tick_ok f X s :
  inv f X s →
  let s' := (on_tick time layout s).2 in
  inv f X s' ∧ conns_ s' = conns_ s ∧
  (k_shutdown (trace s) = true → running_ s' = false) ∧
  (k_shutdown (trace s) = false → running_ s' = running_ s).
Proof.
  intros Hi. rewrite on_tick_run. cbn [snd].
  pose proof (tick_store (active_expire_samples (cfg_ s)) (db_ s) (inv_store _ _ _ Hi)) as Hok.
  set (s1 := record _ _). assert (inv f X s1) as Hi1.
  { apply inv_record; [done|done|]. by apply inv_world. }
  destruct (k_shutdown (trace s)); split_and!; try done. by eapply inv_ext.
Qed.

Lemma tick_run s : tick time layout s = if tick_ s then on_tick time layout s else (tt, s).
Proof. unfold tick. rewrite bind_run. cbn [fst snd get]. by destruct (tick_ s). Qed.

Lemma tick_inv f X s : inv f X s → inv f X (tick time layout s).2.
Proof. intros Hi. rewrite tick_run. destruct (tick_ s); [|done]. by destruct (on_tick_ok f X s Hi). Qed.

(** *** The loop *)
Lemma dispatch_event_ok ev s :
  inv None ∅ s → let s' := (dispatch_event time retries ev s).2 in inv None ∅ s' ∧ frame s s'.
Proof.
  intros Hi. unfold dispatch_event. rewrite bind_run. cbn [fst snd get].
  destruct (callback <$> handlers_ s !! ev_fd ev) as [[|]|]; [|..|done].
  - destruct (ev_readable ev); [|done]. by destruct (accept_loop_ok kMaxAcceptsPerEvent s Hi) as (? & ? & _).
  - by destruct (on_conn_event_ok ∅ (ev_fd ev) (ev_readable ev) (ev_writable ev) s Hi) as (? & ? & _).
Qed.

Lemma dispatch_events_ok evs s :
  inv None ∅ s → let s' := (dispatch_events time retries evs s).2 in inv None ∅ s' ∧ frame s s'.
Proof.
  revert s. induction evs as [|ev evs IH]; intros s Hi; [done|]. simpl dispatch_events.
  rewrite bind_run. destruct (dispatch_event_ok ev s Hi) as [Hi1 Hf1].
  destruct (IH _ Hi1) as [Hi2 Hf2]. split; [done|by etrans].
Qed.

Lemma iterate_ok s :
  inv None ∅ s → inv None ∅ (iterate time layout retries s).2.
Proof.
  intros Hi. unfold iterate. rewrite bind_run. cbn [fst snd get].
  rewrite bind_run. unfold sys_wait, sys. cbn [fst snd].
  set (s1 := record _ s). assert (inv None ∅ s1) as Hi1 by by apply inv_record.
  destruct (k_wait (trace s) _) as [evs|]; [|done].
  rewrite bind_run. destruct (dispatch_events_ok evs s1 Hi1) as [Hi2 _].
  rewrite bind_run. pose proof (tick_inv None ∅ _ Hi2) as Hi3.
  rewrite bind_run. cbn [fst snd modify]. by eapply inv_ext.
Qed.

Lemma run_loop_ok n s : inv None ∅ s → inv None ∅ (run_loop time layout retries n s).2.
Proof.
  revert s. induction n as [|n IH]; intros s Hi; [done|]. simpl run_loop.
  rewrite bind_run. cbn [fst snd get]. destruct (running_ s); [|done].
  rewrite bind_run. pose proof (iterate_ok s Hi) as Hi1.
  destruct (iterate time layout retries s) as [[] s1]; cbn [fst snd] in *; [by apply IH|].
  by eapply inv_ext.
Qed.

(** *** A paused listener with nobody connected *)
Lemma dispatch_events_deaf evs s :
  handlers_ s = ∅ → dispatch_events time retries evs s = (tt, s).
Proof.
  intros Hh. induction evs as [|ev evs IH]; [done|]. simpl dispatch_events. rewrite bind_run.
  assert (dispatch_event time retries ev s = (tt, s)) as ->; [|exact IH].
  unfold dispatch_event. rewrite bind_run. cbn [fst snd get]. by rewrite Hh, lookup_empty.
Qed.

Definition deaf (s : Server) : Prop := listener_paused_ s = true ∧ conns_ s = ∅ ∧ handlers_ s = ∅.

Lemma iterate_deaf s :
  deaf s → let s' := (iterate time layout retries s).2 in
  deaf s' ∧ ∃ t, trace s' = trace s ++ t ∧ ∀ l r, AAccept l r ∉ t.
Proof.
  intros (Hp & Hc & Hh). unfold iterate. rewrite bind_run. cbn [fst snd get].
  rewrite bind_run. unfold sys_wait, sys. cbn [fst snd].
  set (s1 := record _ s). destruct (k_wait (trace s) _) as [evs|] eqn:Ew.
  2: { split; [done|]. exists [AWait (tick_interval_ms_ s) None]. split; [by unfold s1; rewrite ?Ew|set_solver]. }
  rewrite bind_run, dispatch_events_deaf by done. cbn [fst snd].
  rewrite bind_run, tick_run. change (tick_ s1) with (tick_ s). destruct (tick_ s).
  2: { split; [done|]. eexists [_]. split; [by unfold s1; rewrite ?Ew|set_solver]. }
  rewrite on_tick_run. cbn [fst snd]. rewrite bind_run. cbn [fst snd modify mret ST_ret].
  set (b := k_shutdown _). split; [by destruct b|].
  exists [AWait (tick_interval_ms_ s) (Some evs); AShutdown b]. split; [|set_solver].
  destruct b; cbn; by rewrite <-(assoc_L (++)).
Qed.

Lemma run_loop_deaf n s :
  deaf s → let s' := (run_loop time layout retries n s).2 in
  deaf s' ∧ ∃ t, trace s' = trace s ++ t ∧ ∀ l r, AAccept l r ∉ t.
Proof.
  revert s. induction n as [|n IH]; intros s Hd.
  { split; [done|]. exists []. split; [by rewrite app_nil_r|set_solver]. }
  simpl run_loop. rewrite bind_run. cbn [fst snd get]. destruct (running_ s).
  2: { split; [done|]. exists []. split; [by rewrite app_nil_r|set_solver]. }
  rewrite bind_run. destruct (iterate_deaf s Hd) as [Hd1 (t & Ht & Hna)].
  destruct (iterate time layout retries s) as [[] s1]; cbn [fst snd] in *.
  - destruct (IH s1 Hd1) as [Hd2 (t2 & Ht2 & Hna2)]. split; [done|].
    exists (t ++ t2). rewrite Ht2, Ht, (assoc_L (++)). split; [done|].
    intros l r. rewrite elem_of_app. intros [?|?]; [by eapply Hna|by eapply Hna2].
  - split; [done|]. by exists t.
Qed.
End Reserve.

(** *** The state [start] leaves: listening, registered, no connection *)
Record started (s : Server) : Prop := {
  started_fault : fault s = false;
  started_listen : 0 ≤ listen_fd_ s;
  started_db : ∃ seed, db_ s = mkWorld (Db.new_db seed) 0;
  started_conns : conns_ s = ∅;
  started_paused : listener_paused_ s = false;
  started_timer : tick_ s = true ∧ tick_interval_ms_ s = tick_interval_ms (cfg_ s);
  started_handlers : callback <$> handlers_ s = {[listen_fd_ s := ListenerCallback]};
  started_watched : watched (trace s) = {[listen_fd_ s := false]};
  started_opened : opened (trace s) = {[listen_fd_ s]} ∪ spare_set s;
  started_spare : listen_fd_ s ∉ spare_set s;
  started_nonblock : listen_fd_ s ∈ nonblocking (trace s);
  started_orderly : orderly (trace s);
  started_quiet : Forall (λ a, waits_on a = None ∧ is_wait a = false) (trace s);
}.

Lemma new_db_ok seed : store_ok (Db.new_db seed).
Proof.
  split; [|by apply map_Forall_empty]. intros k. simpl. split; [set_solver|].
  intros (v & Hv & _). by rewrite lookup_empty in Hv.
Qed.

Lemma started_inv s : started s → inv None ∅ s.
Proof.
  intros []. destruct started_db0 as [seed Hdb]. split.
  - done.
  - done.
  - rewrite Hdb. apply new_db_ok.
  - intros fd c. by rewrite started_conns0, lookup_empty.
  - intros fd c. by rewrite started_conns0, lookup_empty.
  - by rewrite started_handlers0, started_paused0, started_conns0, fmap_empty.
  - by rewrite started_watched0, started_paused0, started_conns0, fmap_empty.
  - rewrite started_opened0, started_conns0. split_and!; set_solver.
  - rewrite started_conns0. set_solver.
  - done.
Qed.

Definition extend (t : Trace) (s : Server) : Server :=
  mkServer (cfg_ s) (handlers_ s) (retired_ s) (running_ s) (tick_ s) (tick_interval_ms_ s) (db_ s) (listen_fd_ s) (spare_fd_ s)
    (listener_paused_ s) (conns_ s) (trace s ++ t) (fault s).

(** *** [~Server] *)
Section Destroy.
Context {KE : Kernel}.

Lemma close_all_ok fds s :
  (close_all fds s).2 = extend (AClose <$> fds) s ∧
  opened (trace s ++ (AClose <$> fds)) = opened (trace s) ∖ list_to_set fds.
Proof.
  revert s. induction fds as [|fd fds IH]; intros s; simpl.
  { rewrite app_nil_r. split; [by destruct s; unfold extend; simpl; rewrite app_nil_r|set_solver]. }
  rewrite bind_run. cbn [fst snd sys_close sys]. destruct (IH (record (AClose fd) s)) as [H1 H2].
  simpl in H2. rewrite <-(assoc_L (++)) in H2. simpl in H2. split.
  - unfold sys_close, sys. cbn [fst snd]. rewrite H1. unfold extend, record. simpl. by rewrite <-(assoc_L (++)).
  - etrans; [exact H2|]. rewrite opened_snoc. simpl. set_solver.
Qed.

Definition listen_set (s : Server) : gset Z := if 0 <=? listen_fd_ s then {[listen_fd_ s]} else ∅.

(** The destructor closes what the members name. *)
Lemma destroy_closes s :
  opened (trace s) ⊆ dom (conns_ s) ∪ listen_set s ∪ spare_set s → opened (trace (destroy s).2) = ∅.
Proof.
  intros Ho. unfold destroy. rewrite bind_run. cbn [fst snd get]. rewrite bind_run.
  destruct (close_all_ok (map_to_list (conns_ s)).*1 s) as [H1 H2].
  destruct (close_all _ s) as [[] s1]. simpl in H1. subst s1. rewrite bind_run. cbn [fst snd modify].
  set (t1 := trace s ++ (AClose <$> (map_to_list (conns_ s)).*1)) in *.
  assert (dom (conns_ s) = list_to_set (map_to_list (conns_ s)).*1) as Hd.
  { apply set_eq. intros x. rewrite elem_of_dom, elem_of_list_to_set, list_elem_of_fmap. split.
    - intros [c Hc]. exists (x, c). by rewrite elem_of_map_to_list.
    - intros ([y c] & -> & Hc%elem_of_map_to_list). by eexists. }
  rewrite <-Hd in H2. unfold spare_set, listen_set in Ho. rewrite bind_run.
  destruct (0 <=? listen_fd_ s), (0 <=? spare_fd_ s); cbn [fst snd sys_close sys mret ST_ret];
    simpl trace; fold t1; rewrite ?opened_snoc, H2; simpl; set_solver.
Qed.

Lemma destroy_ok s : inv None ∅ s → opened (trace (destroy s).2) = ∅.
Proof.
  intros Hi. apply destroy_closes. pose proof (inv_fds _ _ _ Hi) as (-> & _). unfold listen_set.
  replace (0 <=? listen_fd_ s) with true by (pose proof (inv_listen_pos _ _ _ Hi); lia). set_solver.
Qed.
End Destroy.

(** *** [start] *)
Section Start.
Context {KE : Kernel} (retries : nat) (HK : kernel_ok retries).
Context (strerror : errno → bytes) (inet_pton : bytes → bool) (poller_valid : bool) (backend_name : bytes).

Lemma opened_app t u : opened (t ++ u) = foldl (λ o a, open_step a o) (opened t) u.
Proof. apply foldl_app. Qed.

Lemma watched_app t u : watched (t ++ u) = foldl (λ w a, watch_step a w) (watched t) u.
Proof. apply foldl_app. Qed.

(** A call that waits for nothing and is no concern of the poller's. *)
Definition quiet (a : Action) : Prop := waits_on a = None ∧ is_wait a = false ∧ ∀ t, proper t a.

(** The effect of [listen_on]. *)
Record listened (s : Server) (r : (bytes + Z) * Server) (t : Trace) : Prop := {
  listened_run : r.2 = extend t s;
  listened_watched : watched (trace s) = ∅ → watched (trace s ++ t) = ∅;
  listened_quiet : Forall quiet t;
  listened_result :
    match r.1 with
    | inl _ => opened (trace s ++ t) = opened (trace s)
    | inr fd => 0 ≤ fd ∧ fd ∉ opened (trace s) ∧ opened (trace s ++ t) = {[fd]} ∪ opened (trace s) ∧
                fd ∈ nonblocking (trace s ++ t)
    end;
}.

Lemma orderly_quiet t u : orderly t → Forall quiet u → orderly (t ++ u).
Proof.
  intros Ht. induction u as [|a u IH] using rev_ind; [by rewrite app_nil_r|].
  rewrite Forall_app, Forall_singleton. intros [Hu (_ & _ & Ha)]. rewrite (assoc_L (++)). apply orderly_snoc. auto.
Qed.

(** A call of [listen_on] that fails after [u], and closes the socket. *)
Lemma listen_fails fd u msg s s1 :
  s1 = extend (ASocket (inr fd) :: u) s → 0 ≤ fd → fd ∉ opened (trace s) → Forall quiet u →
  (∀ w, foldl (λ w a, watch_step a w) w u = w) → (∀ o, foldl (λ o a, open_step a o) o u = o) →
  listened s (inl msg, record (AClose fd) s1) (ASocket (inr fd) :: u ++ [AClose fd]).
Proof.
  intros -> Hpos Hfr Hu Hw Ho.
  assert (({[fd]} ∪ opened (trace s)) ∖ {[fd]} = opened (trace s)) as Hback.
  { apply set_eq. intros x. destruct (decide (x = fd)) as [->|]; set_solver. }
  split; cbn [fst snd].
  - unfold record, extend. simpl. by rewrite <-(assoc_L (++)).
  - intros Hw0. rewrite watched_app. simpl. by rewrite foldl_app, Hw, Hw0.
  - constructor; [done|]. apply Forall_app. by repeat constructor.
  - rewrite opened_app. simpl. by rewrite foldl_app, Ho.
Qed.

Ltac same_extension := unfold extend, record; simpl; by rewrite <-?(assoc_L (++)).

Ltac listen_failed fd u :=
  rewrite bind_run; cbn [fst snd sys_close sys mret ST_ret]; exists (ASocket (inr fd) :: u ++ [AClose fd]);
  apply listen_fails; [same_extension|done|done|by repeat constructor|done|done].

(** A failed [listen_on] leaves nothing open; a successful one, the listener. *)
Lemma listen_on_ok addr p b s :
  ∃ t, listened s (listen_on strerror inet_pton addr p b s) t.
Proof.
  unfold listen_on. rewrite bind_run. unfold sys_socket, sys. cbn [fst snd].
  destruct (k_socket (trace s)) as [e|fd] eqn:Es.
  { exists [ASocket (inl e)]. split; cbn [fst snd]; rewrite ?opened_app, ?watched_app; try done. by repeat constructor. }
  destruct (kernel_socket retries HK _ _ Es) as [Hpos Hfr].
  rewrite bind_run. unfold sys_setopt, sys. cbn [fst snd]. set (o := ASetOpt fd _ _).
  destruct (inet_pton addr); cbn [negb]; [|listen_failed fd [o]].
  rewrite bind_run. unfold sys_bind, sys. cbn [fst snd].
  destruct (k_bind _ fd addr p) as [e|]; [listen_failed fd [o; ABind fd (Some e)]|].
  rewrite bind_run. unfold sys_listen, sys. cbn [fst snd].
  destruct (k_listen _ fd b) as [e|]; [listen_failed fd [o; ABind fd None; AListen fd (Some e)]|].
  rewrite bind_run. unfold set_nonblocking. rewrite bind_run. unfold sys_getfl, sys. cbn [fst snd].
  destruct (k_getfl _ fd) as [e|flags].
  { cbn [fst snd mret ST_ret].
    listen_failed fd [o; ABind fd None; AListen fd None; AGetFl fd (inl e)]. }
  unfold sys_setfl, sys. cbn [fst snd]. set (fl := Z.lor flags O_NONBLOCK).
  destruct (k_setfl _ fd fl) as [e|].
  { listen_failed fd [o; ABind fd None; AListen fd None; AGetFl fd (inr flags); ASetFl fd fl (Some e)]. }
  exists [ASocket (inr fd); o; ABind fd None; AListen fd None; AGetFl fd (inr flags); ASetFl fd fl None].
  split; cbn [fst snd mret ST_ret].
  - same_extension.
  - by rewrite watched_app.
  - by repeat constructor.
  - rewrite opened_app. split_and!; [done|done|done|].
    unfold nonblocking. rewrite foldl_app. cbn [foldl nonblock_step o]. unfold fl. rewrite land_nonblock. set_solver.
Qed.

(** The state between [reopen_spare_fd] and the registration. *)
Definition reserved (fd : Z) (s1 : Server) : Server :=
  let s2 := set_listen fd s1 in
  set_timer (tick_interval_ms (cfg_ s1))
    (set_spare (default (-1) (k_open (trace s2))) (record (AOpenNull (k_open (trace s2))) s2)).

Lemma reserved_ok fd s1 :
  opened (trace s1) = {[fd]} →
  let s3 := reserved fd s1 in opened (trace s3) = {[fd]} ∪ spare_set s3 ∧ fd ∉ spare_set s3.
Proof.
  intros Ho. simpl. rewrite opened_snoc, Ho. unfold spare_set. simpl.
  destruct (k_open (trace s1)) as [sp|] eqn:Er; simpl; [|set_solver].
  destruct (kernel_open retries HK _ _ Er) as [Hsp0 Hspf]. replace (0 <=? sp) with true by lia. set_solver.
Qed.

Lemma start_run cfg seed :
  let s0 := new_server cfg seed in
  start strerror inet_pton poller_valid backend_name s0 =
    if negb poller_valid then (Some ($"failed to create " ++ backend_name), s0)
    else match listen_on strerror inet_pton (bind_addr cfg) (port cfg) (backlog cfg) s0 with
         | (inl err, s1) => (Some err, set_listen (-1) s1)
         | (inr fd, s1) =>
             let s3 := reserved fd s1 in
             if k_poll_add (trace s3) fd false then (None, registered fd false ListenerCallback s3)
             else (Some $"failed to register the listener with the poller", record (APollAdd fd false false) s3)
         end.
Proof.
  cbv zeta. unfold start. destruct poller_valid; cbn [negb]; [|done]. rewrite bind_run. cbn [fst snd get].
  rewrite bind_run. set (s0 := new_server cfg seed). change (cfg_ s0) with cfg.
  destruct (listen_on_ok (bind_addr cfg) (port cfg) (backlog cfg) s0) as (t & [Hs _ _ _]).
  destruct (listen_on _ _ _ _ _ s0) as [[msg|fd] s1]; cbn [fst snd] in *; [by rewrite bind_run|].
  rewrite bind_run. cbn [fst snd modify]. rewrite bind_run.
  assert (reopen_spare_fd (set_listen fd s1) = (0 <=? spare_fd_ (reserved fd s1), set_spare
    (default (-1) (k_open (trace s1))) (record (AOpenNull (k_open (trace s1))) (set_listen fd s1)))) as -> by by subst s1.
  cbn [fst snd]. rewrite bind_run. cbn [fst snd modify].
  replace (set_timer _ _) with (reserved fd s1) by by subst s1. rewrite bind_run, loop_add_run. by destruct (k_poll_add _ fd false).
Qed.

(** A failed start leaves open only what the destructor closes. *)
Lemma start_failed cfg seed err :
  let r := start strerror inet_pton poller_valid backend_name (new_server cfg seed) in
  r.1 = Some err → opened (trace r.2) ⊆ dom (conns_ r.2) ∪ listen_set r.2 ∪ spare_set r.2 ∧ fault r.2 = false.
Proof.
  cbv zeta. rewrite start_run. destruct poller_valid; cbn [negb]; [|by set_solver].
  set (s0 := new_server cfg seed).
  destruct (listen_on_ok (bind_addr cfg) (port cfg) (backlog cfg) s0) as (t & [Hs _ _ Ho]).
  destruct (listen_on _ _ _ _ _ s0) as [[msg|fd] s1]; cbn [fst snd] in *.
  { intros _. subst s1. split; [|done]. cbn [trace set_listen extend]. rewrite Ho. set_solver. }
  destruct Ho as (Hpos & _ & Ho & _). change (opened (trace s0)) with (∅ : gset Z) in Ho.
  rewrite union_empty_r_L in Ho. destruct (reserved_ok fd s1) as [Hr _]; [by subst s1|].
  destruct (k_poll_add (trace (reserved fd s1)) fd false); [done|]. intros _. cbn [fst snd].
  split; [|by subst s1]. cbn [trace record]. rewrite opened_snoc. cbn [open_step]. rewrite Hr.
  change (listen_set (record _ _)) with (if 0 <=? fd then {[fd]} else ∅ : gset Z).
  replace (0 <=? fd) with true by lia. change (spare_set (record _ ?s)) with (spare_set s). set_solver.
Qed.

Lemma start_ok cfg seed :
  let r := start strerror inet_pton poller_valid backend_name (new_server cfg seed) in
  r.1 = None → started r.2 ∧ cfg_ r.2 = cfg.
Proof.
  cbv zeta. rewrite start_run. destruct poller_valid; cbn [negb]; [|done]. set (s0 := new_server cfg seed).
  destruct (listen_on_ok (bind_addr cfg) (port cfg) (backlog cfg) s0) as (t & [Hs Hw Hq Ho]).
  destruct (listen_on _ _ _ _ _ s0) as [[msg|fd] s1]; cbn [fst snd] in *; [done|].
  destruct Ho as (Hpos & _ & Ho & Hnb). change (opened (trace s0)) with (∅ : gset Z) in Ho.
  specialize (Hw eq_refl). simpl in Ho, Hw, Hnb. rewrite union_empty_r_L in Ho.
  destruct (reserved_ok fd s1) as [Ho3 Hns]; [by subst s1|].
  set (s3 := reserved fd s1) in *. set (r := k_open (trace s1)).
  destruct (k_poll_add (trace s3) fd false) eqn:Ea; [|done].
  cbn [fst snd]. intros _. split; [|by subst s1].
  assert (trace s3 = t ++ [AOpenNull r]) as Ht3 by by subst s1.
  assert (watched (trace s3) = ∅) as Hw3 by by rewrite Ht3, watched_snoc, Hw; destruct r.
  split; simpl.
  - by subst s1.
  - done.
  - exists seed. by subst s1.
  - by subst s1.
  - by subst s1.
  - by subst s1.
  - subst s1. simpl. by rewrite fmap_insert, fmap_empty.
  - change (watched (trace s3 ++ [APollAdd fd false true]) = {[fd := false]}).
    by rewrite watched_snoc, Hw3.
  - change (opened (trace s3 ++ [APollAdd fd false true]) = {[fd]} ∪ spare_set s3).
    by rewrite opened_snoc, Ho3.
  - exact Hns.
  - change (fd ∈ nonblocking (trace s3 ++ [APollAdd fd false true])).
    rewrite nonblocking_snoc, Ht3, nonblocking_snoc. simpl. unfold r.
    destruct (k_open (trace s1)) as [sp|] eqn:Er; [|done].
    destruct (kernel_open retries HK _ _ Er) as [_ Hspf]. assert (trace s1 = t) as Ht2 by by subst s1.
    rewrite Ht2, Ho in Hspf. set_solver.
  - change (orderly (trace s3 ++ [APollAdd fd false true])). apply orderly_snoc.
    split; [|change (watched (trace s3) !! fd = None); by rewrite Hw3].
    rewrite Ht3. apply orderly_snoc. split; [|done]. by apply (orderly_quiet []); [apply orderly_nil|].
  - change (Forall (λ a, waits_on a = None ∧ is_wait a = false) (trace s3 ++ [APollAdd fd false true])).
    rewrite Ht3, !Forall_app. split_and!; [|by repeat constructor..]. eapply Forall_impl; [exact Hq|]. by intros a (? & ? & _).
Qed.

End Start.

(** *** Reachable states *)
Section Reach.
Context {KE : Kernel} (retries : nat) (HK : kernel_ok retries).
Context (time : nat → Z) (Hclock : clock_ok time).
Context (layout : nat → gset bytes → list (list bytes)) (Hlayout : layout_ok layout).

Lemma run_inv n s : started s → inv None ∅ (run time layout retries n s).2.
Proof.
  intros Hs. unfold run. rewrite bind_run. apply run_loop_ok; [done|done|done|]. cbn [snd modify].
  by eapply inv_ext; [by apply started_inv|..].
Qed.
End Reach.
