(* ===== verification/Events.v ===== *)
(** * Events and the callbacks they run

    What [EventLoop::run] (src/net/event_loop.cpp) must get right between
    [wait] and the end of an iteration: the callback object it calls stays
    allocated until no call can be inside it, and a report is never handed to a
    connection that did not exist when the report was made.  Both follow from
    what each method of the server does to the registrations, shown here for
    all of them by relations closed under sequencing. *)
From S2P Require Import Prelude Buffer Digits Inline Parser Stream Writer Keyspace Expire Commands.
From S2P Require Import Options Spec Refine Handlers Dispatch Linear Session Kernel Server Input ServerInv.

(** ** Relations every method keeps

    It is enough that a relation is kept by system calls, by the loop's
    registrations, by the wait with the loop's own interval, and by steps that
    only touch other members. *)
Definition timer (s : Server) : bool * Z := (tick_ s, tick_interval_ms_ s).

Definition steady (s s' : Server) : Prop :=
  trace s' = trace s ∧ timer s' = timer s ∧ ∀ r, owns s' r → owns s r.

Class Stable {KE : Kernel} (R : Server → Server → Prop) := {
  #[global] stable_preorder :: PreOrder R;
  stable_steady s s' : steady s s' → R s s';
  stable_sys {A} (f : Trace → A) act : (∀ x, is_wait (act x) = false) → respects R (sys f act);
  stable_wait s : R s (sys_wait (tick_interval_ms_ s) s).2;
  stable_add fd w cb : respects R (loop_add fd w cb);
  stable_remove fd : respects R (loop_remove fd);
}.

Section Steady.
Context {KE : Kernel} (R : Server → Server → Prop) `{!Stable R}.

Lemma stable_get : respects R get.
Proof. apply respects_get, _. Qed.

Lemma stable_the_conn fd : respects R (the_conn fd).
Proof. intros s. apply stable_steady. unfold the_conn. by destruct (conns_ s !! fd); split_and!. Qed.

Lemma stable_put_conn fd c : respects R (put_conn fd c).
Proof. intros s. apply stable_steady. unfold put_conn. by destruct (conns_ s !! fd); split_and!. Qed.

Lemma stable_modify f : (∀ s, steady s (f s)) → respects R (modify f).
Proof. intros Hf s. apply stable_steady, Hf. Qed.

Lemma stable_waiting {A} (k : option (list PollEvent) → M A) :
  (∀ r, respects R (k r)) → respects R (s ← get; r ← sys_wait (tick_interval_ms_ s); k r).
Proof.
  intros Hk s. rewrite bind_run. cbn [fst snd get]. rewrite bind_run. etrans; [apply stable_wait|apply Hk].
Qed.
End Steady.

#[export] Hint Extern 1 (respects _ get) => apply stable_get; apply _ : methods.
#[export] Hint Extern 1 (respects _ (the_conn _)) => apply stable_the_conn; apply _ : methods.
#[export] Hint Extern 1 (respects _ (put_conn _ _)) => apply stable_put_conn; apply _ : methods.
#[export] Hint Extern 1 (respects _ (loop_add _ _ _)) => apply stable_add : methods.
#[export] Hint Extern 1 (respects _ (loop_remove _)) => apply stable_remove : methods.
#[export] Hint Extern 1 (respects _ (modify _)) => apply stable_modify; [apply _|intros ?; by repeat split] : methods.
#[export] Hint Extern 1 (respects _ (sys _ _)) => apply stable_sys; done : methods.

(** System calls are opaque to [auto]. *)
#[export] Hint Extern 2 (respects _ _) =>
  progress unfold sys_read, sys_send, sys_accept, sys_close, sys_open_null, sys_getfl, sys_setfl, sys_setopt,
    sys_socket, sys_bind, sys_listen, sys_poll_mod, sys_shutdown, loop_set_write_interest;
    apply stable_sys; done : methods.

Section StableMethods.
Context {KE : Kernel} (R : Server → Server → Prop) `{!Stable R}.
Context (time : nat → Z) (layout : nat → gset bytes → list (list bytes)) (retries : nat).

Lemma stable_reopen : respects R reopen_spare_fd.
Proof. unfold reopen_spare_fd. method. Qed.

Lemma stable_pause : respects R pause_listener.
Proof. unfold pause_listener. method. Qed.

#[local] Hint Resolve stable_reopen stable_pause : methods.

Lemma stable_resume : respects R resume_listener.
Proof. unfold resume_listener. method. Qed.

#[local] Hint Resolve stable_resume : methods.

Lemma stable_shed : respects R shed_connection.
Proof. unfold shed_connection. method. Qed.

Lemma stable_close fd : respects R (close_conn fd).
Proof. unfold close_conn. method. Qed.

Lemma stable_add_connection fd : respects R (add_connection fd).
Proof. unfold add_connection, set_nonblocking, set_tcp_nodelay, suppress_sigpipe. method. Qed.

#[local] Hint Resolve stable_shed stable_close stable_add_connection : methods.

Lemma stable_flush_loop fuel fd : respects R (flush_loop fuel fd).
Proof. induction fuel as [|fuel IH]; simpl; method; apply IH. Qed.

#[local] Hint Resolve stable_flush_loop : methods.

Lemma stable_flush_output fd : respects R (flush_output retries fd).
Proof. unfold flush_output. method. Qed.

#[local] Hint Resolve stable_flush_output : methods.

Lemma stable_process_input fd : respects R (process_input time retries fd).
Proof. unfold process_input. method. Qed.

#[local] Hint Resolve stable_process_input : methods.

Lemma stable_handle_read fd : respects R (handle_read time retries fd).
Proof. unfold handle_read. method. Qed.

#[local] Hint Resolve stable_handle_read : methods.

Lemma stable_conn_event fd r w : respects R (on_conn_event time retries fd r w).
Proof. unfold on_conn_event. method. Qed.

Lemma stable_accept_loop n : respects R (accept_loop n).
Proof. induction n as [|n IH]; simpl; method; apply IH. Qed.

#[local] Hint Resolve stable_conn_event stable_accept_loop : methods.

Lemma stable_dispatch_event ev : respects R (dispatch_event time retries ev).
Proof. unfold dispatch_event, on_listener_readable. method. Qed.

#[local] Hint Resolve stable_dispatch_event : methods.

Lemma stable_dispatch_events evs : respects R (dispatch_events time retries evs).
Proof. induction evs as [|ev evs IH]; simpl; method. Qed.

Lemma stable_on_tick : respects R (on_tick time layout).
Proof. unfold on_tick. method. Qed.

#[local] Hint Resolve stable_on_tick : methods.

Lemma stable_tick : respects R (tick time layout).
Proof. unfold tick. method. Qed.

#[local] Hint Resolve stable_dispatch_events stable_tick : methods.

Lemma stable_iterate : respects R (iterate time layout retries).
Proof.
  unfold iterate. apply stable_waiting; [done|]. method.
  apply stable_modify; [done|]. intros s'. split_and!; [done..|].
  intros r [?|Hr]; [by left|by apply not_elem_of_nil in Hr].
Qed.

#[local] Hint Resolve stable_iterate : methods.

Lemma stable_run_loop n : respects R (run_loop time layout retries n).
Proof. induction n as [|n IH]; simpl; method. Qed.

#[local] Hint Resolve stable_run_loop : methods.

Lemma stable_run n : respects R (run time layout retries n).
Proof. unfold run. method. Qed.

Lemma stable_close_all fds : respects R (close_all fds).
Proof. induction fds as [|fd fds IH]; simpl; method. Qed.

#[local] Hint Resolve stable_close_all : methods.

Lemma stable_destroy : respects R destroy.
Proof. unfold destroy. method. Qed.

Lemma stable_listen_on strerror inet_pton addr p n : respects R (listen_on strerror inet_pton addr p n).
Proof. unfold listen_on, set_nonblocking. method. Qed.
End StableMethods.

(** ** Objects allocated later are told apart *)
Definition later (s s' : Server) : Prop :=
  (length (trace s) ≤ length (trace s'))%nat ∧
  ∀ r, owns s' r → owns s r ∨ (length (trace s) < since r ≤ length (trace s'))%nat.

#[export] Instance later_preorder : PreOrder later.
Proof.
  split; [by split; auto|]. intros s s1 s2 [Hl1 H1] [Hl2 H2]. split; [lia|].
  intros r [Hr|?]%H2; [|right; lia]. destruct (H1 r Hr) as [?|?]; [by left|right; lia].
Qed.

Section Later.
Context {KE : Kernel}.

Lemma later_add fd w cb : respects later (loop_add fd w cb).
Proof.
  intros s. rewrite loop_add_run. destruct (k_poll_add (trace s) fd w); cbn [snd].
  - split; [simpl; rewrite length_app; lia|]. intros r [[fd' Hr]|Hr]; [|by left; right].
    simpl in Hr. rewrite lookup_insert in Hr. case_decide; [|left; left; by eexists].
    right. injection Hr as <-. simpl. rewrite length_app. simpl. lia.
  - split; [simpl; rewrite length_app; lia|by left].
Qed.

Lemma later_remove fd : respects later (loop_remove fd).
Proof.
  intros s. unfold loop_remove. rewrite bind_run. cbn [fst snd get].
  destruct (handlers_ s !! fd) as [r|] eqn:Hr; [|reflexivity].
  rewrite bind_run. split; [simpl; rewrite length_app; lia|]. intros x [[fd' Hx]|Hx]; left; simpl in Hx.
  - apply lookup_delete_Some in Hx as [_ Hx]. left. by eexists.
  - apply elem_of_app in Hx as [Hx|Hx%list_elem_of_singleton]; [by right|left]. subst. by eexists.
Qed.

#[export] Instance later_stable : Stable later.
Proof.
  split; [apply _|..|apply later_add|apply later_remove].
  - intros s s' (Ht & _ & Ho). split; [by rewrite Ht|]. intros r Hr. left. by apply Ho.
  - intros A f act _ s. split; [simpl; rewrite length_app; lia|by left].
  - intros s. split; [simpl; rewrite length_app; lia|by left].
Qed.

Lemma later_start strerror inet_pton valid backend : respects later (start strerror inet_pton valid backend).
Proof.
  unfold start. method; try (apply (stable_listen_on later)); try (apply (stable_reopen later)).
  intros s'. by split; [|left].
Qed.
End Later.

(** ** The trace grows, and every wait has the loop's interval *)
Definition waits_for (ms : Z) (a : Action) : Prop := match a with AWait t _ => t = ms | _ => True end.

Definition timed (s s' : Server) : Prop :=
  timer s' = timer s ∧
  ∃ u, trace s' = trace s ++ u ∧ Forall (waits_for (tick_interval_ms_ s)) u.

#[export] Instance timed_preorder : PreOrder timed.
Proof.
  split.
  - intros s. split; [done|]. exists []. by rewrite app_nil_r.
  - intros s s1 s2 [E1 (u1 & H1 & F1)] [E2 (u2 & H2 & F2)]. split; [congruence|].
    exists (u1 ++ u2). rewrite H2, H1, (assoc_L (++)). split; [done|]. injection E1 as _ E1. rewrite E1 in F2. by apply Forall_app.
Qed.

Section Timed.
Context {KE : Kernel}.

Lemma timed_tick s s' : timed s s' → tick_ s' = tick_ s ∧ tick_interval_ms_ s' = tick_interval_ms_ s.
Proof. by intros [[= -> ->] _]. Qed.

Lemma timed_record a s : waits_for (tick_interval_ms_ s) a → timed s (record a s).
Proof. intros Ha. split; [done|]. exists [a]. by repeat constructor. Qed.

#[export] Instance timed_stable : Stable timed.
Proof.
  split; [apply _|..].
  - intros s s' (Ht & Hi & _). split; [done|]. exists []. by rewrite app_nil_r.
  - intros A f act Ha s. apply timed_record. specialize (Ha (f (trace s))). by destruct (act _).
  - intros s. by apply timed_record.
  - intros fd w cb s. rewrite loop_add_run.
    destruct (k_poll_add (trace s) fd w); cbn [snd]; [|by apply timed_record].
    by apply (timed_record (APollAdd fd w true)).
  - intros fd s. unfold loop_remove. rewrite bind_run. cbn [fst snd get].
    destruct (handlers_ s !! fd); [|reflexivity]. rewrite bind_run. by apply (timed_record (APollDel fd _)).
Qed.
End Timed.

(** Nothing the server owns is younger than its history. *)
Lemma later_bounded cfg seed s r : later (new_server cfg seed) s → owns s r → (since r ≤ length (trace s))%nat.
Proof.
  intros [_ Hl] Hr. destruct (Hl r Hr) as [[[fd H]|H]|H]; [..|lia]; simpl in H.
  - by rewrite lookup_empty in H.
  - by apply not_elem_of_nil in H.
Qed.

(** ** A connection that is not served is left alone

    Nothing is read from it or sent to it either. *)
Definition silent_on (fd : Z) (a : Action) : Prop :=
  match a with ARead fd' _ | ASend fd' _ _ => fd' ≠ fd | AWait _ _ => False | _ => True end.

Definition spares (fd : Z) (s s' : Server) : Prop :=
  fd ≠ listen_fd_ s →
  listen_fd_ s' = listen_fd_ s ∧ handlers_ s' !! fd = handlers_ s !! fd ∧ conns_ s' !! fd = conns_ s !! fd ∧
  ∃ u, trace s' = trace s ++ u ∧ Forall (silent_on fd) u.

#[export] Instance spares_preorder fd : PreOrder (spares fd).
Proof.
  split; [intros s _; split_and!; [done..|]; exists []; by rewrite app_nil_r|].
  intros s s1 s2 H1 H2 Hl. destruct (H1 Hl) as (E1 & E2 & E3 & u & Eu & Hu).
  rewrite <-E1 in Hl. destruct (H2 Hl) as (F1 & F2 & F3 & v & Fv & Hv). split_and!; [congruence..|].
  exists (u ++ v). rewrite Fv, Eu, (assoc_L (++)). split; [done|by apply Forall_app].
Qed.

Section Spares.
Context {KE : Kernel} (fd : Z).

Lemma spares_get {A} (f : Server → M A) :
  (∀ s, fd ≠ listen_fd_ s → respects (spares fd) (f s)) → respects (spares fd) (get ≫= f).
Proof. intros Hf s Hl. rewrite bind_run. by apply Hf. Qed.

Lemma spares_sys {A} (f : Trace → A) act : (∀ r, silent_on fd (act r)) → respects (spares fd) (sys f act).
Proof. intros Ha s _. split_and!; [done..|]. eexists [_]. split; [done|]. repeat constructor. apply Ha. Qed.

Lemma spares_modify f :
  (∀ s, listen_fd_ (f s) = listen_fd_ s ∧ handlers_ (f s) = handlers_ s ∧ conns_ (f s) !! fd = conns_ s !! fd ∧
     trace (f s) = trace s) →
  respects (spares fd) (modify f).
Proof.
  intros Hf s _. destruct (Hf s) as (E1 & E2 & E3 & E4). split_and!; simpl; [congruence..|]. exists [].
  by rewrite app_nil_r.
Qed.

(** A change of state that is no call. *)
Lemma spares_same s s' :
  listen_fd_ s' = listen_fd_ s → handlers_ s' !! fd = handlers_ s !! fd → conns_ s' !! fd = conns_ s !! fd →
  trace s' = trace s → spares fd s s'.
Proof. intros E1 E2 E3 E4 _. split_and!; [done..|]. exists []. by rewrite app_nil_r. Qed.

Lemma spares_erase fd' : fd' ≠ fd → respects (spares fd) (modify (λ s, set_conns (delete fd' (conns_ s)) s)).
Proof. intros Hne. apply spares_modify. intros s. split_and!; [done|done| |done]. by apply lookup_delete_ne. Qed.

Lemma spares_insert fd' c : fd' ≠ fd → respects (spares fd) (modify (λ s, set_conns (<[fd' := c]> (conns_ s)) s)).
Proof. intros Hne. apply spares_modify. intros s. split_and!; [done|done| |done]. by apply lookup_insert_ne. Qed.

Lemma spares_the_conn fd' : respects (spares fd) (the_conn fd').
Proof. intros s. unfold the_conn. by destruct (conns_ s !! fd'); apply spares_same. Qed.

Lemma spares_put_conn fd' c : fd' ≠ fd → respects (spares fd) (put_conn fd' c).
Proof.
  intros Hne s. unfold put_conn. destruct (conns_ s !! fd'); apply spares_same; try done. by apply lookup_insert_ne.
Qed.

Lemma spares_add fd' w cb : fd' ≠ fd → respects (spares fd) (loop_add fd' w cb).
Proof.
  intros Hne. unfold loop_add. apply respects_bind; [apply _|apply spares_sys; by intros|].
  intros [|]; [|apply respects_ret, _]. apply respects_bind; [apply _| |intros; apply respects_ret, _].
  intros s. apply spares_same; [done| |done|done]. by apply lookup_insert_ne.
Qed.

Lemma spares_remove fd' : fd' ≠ fd → respects (spares fd) (loop_remove fd').
Proof.
  intros Hne. unfold loop_remove. apply respects_bind; [apply _|apply respects_get, _|].
  intros s. destruct (handlers_ s !! fd'); [|apply respects_ret, _].
  apply respects_bind; [apply _|apply spares_sys; by intros|]. intros _ s'.
  apply spares_same; [done| |done|done]. by apply lookup_delete_ne.
Qed.
End Spares.

#[export] Hint Resolve spares_the_conn : methods.
#[export] Hint Extern 1 (respects (spares _) get) => apply respects_get; apply _ : methods.
#[export] Hint Extern 1 (respects (spares _) (put_conn _ _)) => apply spares_put_conn; congruence : methods.
#[export] Hint Extern 1 (respects (spares _) (loop_add _ _ _)) => apply spares_add; congruence : methods.
#[export] Hint Extern 1 (respects (spares _) (loop_remove _)) => apply spares_remove; congruence : methods.
#[export] Hint Extern 1 (respects (spares _) (modify _)) =>
  first [apply spares_erase; congruence|apply spares_insert; congruence|apply spares_modify; intros ?; by split_and!] : methods.
#[export] Hint Extern 2 (respects (spares _) _) =>
  progress unfold sys_read, sys_send, sys_accept, sys_close, sys_open_null, sys_getfl, sys_setfl, sys_setopt,
    sys_poll_mod, sys_wait, sys_shutdown, loop_set_write_interest; apply spares_sys; intros ?; first [done|simpl; congruence] : methods.

(** As [method], keeping what [get] says of the listener. *)
Ltac spare_method := repeat
  match goal with
  | |- respects (spares _) (get ≫= _) => apply spares_get; intros ? ?
  | |- respects _ _ => progress method
  end.

Section SparesMethods.
Context {KE : Kernel} (time : nat → Z) (retries : nat) (fd fd' : Z) (Hne : fd' ≠ fd).

Lemma spares_reopen : respects (spares fd) reopen_spare_fd.
Proof. unfold reopen_spare_fd. spare_method. Qed.

Lemma spares_pause : respects (spares fd) pause_listener.
Proof. unfold pause_listener. spare_method. Qed.

#[local] Hint Resolve spares_reopen spares_pause : methods.

Lemma spares_resume : respects (spares fd) resume_listener.
Proof. unfold resume_listener. spare_method. Qed.

#[local] Hint Resolve spares_resume : methods.

Lemma spares_shed : respects (spares fd) shed_connection.
Proof. unfold shed_connection. spare_method. Qed.

Lemma spares_close : respects (spares fd) (close_conn fd').
Proof. unfold close_conn. spare_method. Qed.

Lemma spares_add_connection : respects (spares fd) (add_connection fd').
Proof. unfold add_connection, set_nonblocking, set_tcp_nodelay, suppress_sigpipe. spare_method. Qed.

#[local] Hint Resolve spares_close : methods.

Lemma spares_flush_loop fuel : respects (spares fd) (flush_loop fuel fd').
Proof. induction fuel as [|fuel IH]; simpl; spare_method; apply IH. Qed.

#[local] Hint Resolve spares_flush_loop : methods.

Lemma spares_flush_output : respects (spares fd) (flush_output retries fd').
Proof. unfold flush_output. spare_method. Qed.

#[local] Hint Resolve spares_flush_output : methods.

Lemma spares_process_input : respects (spares fd) (process_input time retries fd').
Proof. unfold process_input. spare_method. Qed.

#[local] Hint Resolve spares_process_input : methods.

Lemma spares_handle_read : respects (spares fd) (handle_read time retries fd').
Proof. unfold handle_read. spare_method. Qed.

#[local] Hint Resolve spares_handle_read : methods.

Lemma spares_conn_event r w : respects (spares fd) (on_conn_event time retries fd' r w).
Proof. unfold on_conn_event. spare_method. Qed.
End SparesMethods.

(** ** One report, one batch *)
Section Batch.
Context {KE : Kernel} (retries : nat) (HK : kernel_ok retries) (time : nat → Z) (Hclock : clock_ok time).

Definition untouched (fd : Z) (s s' : Server) : Prop :=
  handlers_ s' !! fd = handlers_ s !! fd ∧ conns_ s' !! fd = conns_ s !! fd ∧
  ∃ u, trace s' = trace s ++ u ∧ Forall (silent_on fd) u.

#[export] Instance untouched_preorder fd : PreOrder (untouched fd).
Proof.
  split; [intros s; split_and!; [done..|]; exists []; by rewrite app_nil_r|].
  intros s s1 s2 (E2 & E3 & u & Eu & Hu) (F2 & F3 & v & Fv & Hv). split_and!; [congruence..|].
  exists (u ++ v). rewrite Fv, Eu, (assoc_L (++)). split; [done|by apply Forall_app].
Qed.

Lemma untouched_record fd s a : silent_on fd a → untouched fd s (record a s).
Proof. intros Ha. split_and!; [done..|]. exists [a]. split; [done|by repeat constructor]. Qed.

Lemma spares_untouched fd s s' : fd ≠ listen_fd_ s → spares fd s s' → untouched fd s s'.
Proof. intros Hl H. by destruct (H Hl) as (_ & ? & ? & ?). Qed.

Lemma accept_loop_untouched n s fd :
  inv None ∅ s → fd ∈ dom (conns_ s) → untouched fd s (accept_loop n s).2.
Proof.
  revert s. induction n as [|n IH]; intros s Hi Hfd; [reflexivity|]. simpl accept_loop.
  pose proof (inv_fds _ _ _ Hi) as (Ho & Hl & _). assert (fd ≠ listen_fd_ s) as Hne by set_solver.
  rewrite bind_run. cbn [fst snd get]. rewrite bind_run. unfold sys_accept, sys. cbn [fst snd].
  set (r := k_accept (trace s) (listen_fd_ s)). set (s1 := record _ s).
  assert (untouched fd s s1) as H01 by by apply untouched_record. destruct r as [e|fd'] eqn:Er.
  - assert (inv None ∅ s1) as Hi1 by (apply inv_record; [done|by apply in_order_listen|done]).
    pose proof (spares_untouched fd s1 _ Hne (spares_shed fd s1)) as H12.
    destruct e; try exact H01; try (by etrans); by etrans; [|apply (IH s1)].
  - destruct (kernel_accept retries HK _ _ _ Er) as [_ Hfr].
    assert (inv None {[fd']} s1) as Hi1.
    { rewrite <-(union_empty_r_L {[fd']}). by apply inv_accept. }
    assert (fd' ≠ fd) as Hd by set_solver.
    rewrite bind_run. destruct (add_connection_ok retries HK s1 fd' Hi1) as (Hi2 & _).
    pose proof (spares_untouched fd s1 _ Hne (spares_add_connection fd fd' Hd s1)) as H12.
    etrans; [exact H01|]. etrans; [exact H12|]. apply IH; [done|].
    destruct H12 as (_ & H2 & _). apply elem_of_dom. rewrite H2. by apply elem_of_dom.
Qed.

Lemma dispatch_event_untouched ev s fd :
  inv None ∅ s → fd ∈ dom (conns_ s) → fd ≠ ev_fd ev → untouched fd s (dispatch_event time retries ev s).2.
Proof.
  intros Hi Hfd Hne. pose proof (inv_fds _ _ _ Hi) as (_ & Hl & _).
  unfold dispatch_event. rewrite bind_run. cbn [fst snd get].
  destruct (callback <$> handlers_ s !! ev_fd ev) as [[|]|]; [|..|reflexivity].
  - destruct (ev_readable ev); [|reflexivity]. by apply accept_loop_untouched.
  - apply spares_untouched; [set_solver|]. by apply spares_conn_event.
Qed.

Lemma dispatch_events_untouched evs s fd :
  inv None ∅ s → fd ∈ dom (conns_ s) → fd ∉ ev_fd <$> evs → untouched fd s (dispatch_events time retries evs s).2.
Proof.
  revert s. induction evs as [|ev evs IH]; intros s Hi Hfd Hni; [reflexivity|]. simpl dispatch_events.
  rewrite fmap_cons, not_elem_of_cons in Hni. destruct Hni as [Hne Hni]. rewrite bind_run.
  destruct (dispatch_event_ok retries HK time Hclock ev s Hi) as [Hi1 _].
  pose proof (dispatch_event_untouched ev s fd Hi Hfd Hne) as H1. etrans; [exact H1|]. apply IH; [done| |done].
  destruct H1 as (_ & H2 & _). apply elem_of_dom. rewrite H2. by apply elem_of_dom.
Qed.
End Batch.

(** ** Stopping *)
Section Stopping.
Context {KE : Kernel} (retries : nat) (HK : kernel_ok retries) (time : nat → Z) (Hclock : clock_ok time).
Context (layout : nat → gset bytes → list (list bytes)) (Hlayout : layout_ok layout).

(** From [s] on, the shutdown check answers yes. *)
Definition flag_up (s : Server) : Prop := ∀ u, k_shutdown (trace s ++ u) = true.

Lemma timed_flag_up s s' : timed s s' → flag_up s → flag_up s'.
Proof. intros [_ (u & Hu & _)] Hs v. rewrite Hu, <-(assoc_L (++)). apply Hs. Qed.

Lemma run_loop_stopped n s : running_ s = false → run_loop time layout retries n s = (tt, s).
Proof. destruct n; [done|]. intros H. simpl run_loop. rewrite bind_run. cbn [fst snd get]. by rewrite H. Qed.

(** Stopping for a while changes nothing. *)
Lemma run_loop_add m n s :
  run_loop time layout retries (m + n) s = run_loop time layout retries n (run_loop time layout retries m s).2.
Proof.
  revert s. induction m as [|m IH]; intros s; [done|]. simpl run_loop. rewrite !bind_run. cbn [fst snd get].
  destruct (running_ s) eqn:Er; [|by rewrite run_loop_stopped]. rewrite !bind_run.
  destruct (iterate time layout retries s) as [[] s1]; cbn [fst snd]; [apply IH|]. by rewrite run_loop_stopped.
Qed.

Lemma iterate_stops s :
  inv None ∅ s → tick_ s = true → flag_up s →
  let r := iterate time layout retries s in r.1 = true → running_ r.2 = false.
Proof.
  intros Hi Ht Hstop. unfold iterate. rewrite bind_run. cbn [fst snd get].
  rewrite bind_run. unfold sys_wait, sys. cbn [fst snd].
  set (s1 := record _ s). assert (inv None ∅ s1) as Hi1 by by apply inv_record.
  assert (flag_up s1) as Hs1 by (eapply timed_flag_up; [by apply timed_record|done]).
  destruct (k_wait (trace s) _) as [evs|]; [|done].
  rewrite bind_run. destruct (dispatch_events_ok retries HK time Hclock evs s1 Hi1) as [Hi2 Hf2].
  pose proof (timed_flag_up _ _ (stable_dispatch_events timed time retries evs s1) Hs1) as Hs2.
  rewrite bind_run, tick_run. destruct (frame_timer _ _ Hf2) as [-> _]. change (tick_ s1) with (tick_ s). rewrite Ht.
  destruct (on_tick_ok time layout Hlayout None ∅ _ Hi2) as (_ & _ & Hs & _).
  rewrite bind_run. cbn [fst snd modify mret ST_ret]. intros _. apply Hs.
  specialize (Hs2 []). by rewrite app_nil_r in Hs2.
Qed.

(** Without a reason to stop it goes on. *)
Lemma iterate_goes_on s :
  inv None ∅ s →
  let r := iterate time layout retries s in
  (r.1 = false → ∃ ms, AWait ms None ∈ trace r.2) ∧
  (r.1 = true → running_ r.2 = running_ s ∨ ∃ t, t `prefix_of` trace r.2 ∧ k_shutdown t = true).
Proof.
  intros Hi. unfold iterate. rewrite bind_run. cbn [fst snd get]. rewrite bind_run. unfold sys_wait, sys. cbn [fst snd].
  set (s1 := record _ s). assert (inv None ∅ s1) as Hi1 by by apply inv_record.
  destruct (k_wait (trace s) _) as [evs|] eqn:Ew.
  2: { split; [|done]. intros _. exists (tick_interval_ms_ s). cbn [fst snd mret ST_ret s1 trace record]. set_solver. }
  rewrite bind_run. destruct (dispatch_events_ok retries HK time Hclock evs s1 Hi1) as [Hi2 Hf2].
  set (s2 := (dispatch_events time retries evs s1).2) in *.
  rewrite bind_run, tick_run. pose proof (on_tick_ok time layout Hlayout None ∅ s2 Hi2) as (_ & _ & _ & Hr).
  pose proof (frame_running _ _ Hf2) as Hr2.
  rewrite bind_run. cbn [fst snd modify mret ST_ret running_ set_handlers trace]. split; [done|intros _].
  destruct (tick_ s2); [|by left]. destruct (k_shutdown (trace s2)) eqn:Ek; [right|left; by rewrite Hr].
  exists (trace s2). split; [|done]. rewrite on_tick_run. cbn [snd]. rewrite Ek. by eexists.
Qed.

Lemma run_loop_reason n s :
  inv None ∅ s → running_ s = true →
  let s' := (run_loop time layout retries n s).2 in
  running_ s' = false → (∃ t, t `prefix_of` trace s' ∧ k_shutdown t = true) ∨ ∃ ms, AWait ms None ∈ trace s'.
Proof.
  revert s. induction n as [|n IH]; intros s Hi Hr; [by simpl; rewrite Hr|]. simpl run_loop.
  rewrite bind_run. cbn [fst snd get]. rewrite Hr, bind_run.
  destruct (iterate_goes_on s Hi) as [Hfail Hgo]. pose proof (iterate_ok retries HK time Hclock layout Hlayout s Hi) as Hi1.
  destruct (iterate time layout retries s) as [[] s1]; cbn [fst snd] in *; [|by right; apply Hfail].
  destruct (running_ s1) eqn:Er1; [by apply IH|]. intros _. destruct (Hgo eq_refl) as [Hsame|Hstop]; [congruence|].
  left. by rewrite run_loop_stopped.
Qed.

Lemma run_loop_stops n s :
  inv None ∅ s → tick_ s = true → flag_up s →
  let s' := (run_loop time layout retries (S n) s).2 in
  running_ s' = false ∧ s' = (run_loop time layout retries 1 s).2.
Proof.
  intros Hi Ht Hstop. simpl run_loop. rewrite !bind_run. cbn [fst snd get].
  destruct (running_ s) eqn:Er; [|done]. rewrite !bind_run.
  pose proof (iterate_stops s Hi Ht Hstop) as H.
  destruct (iterate time layout retries s) as [[] s1]; cbn [fst snd] in *; [|done].
  specialize (H eq_refl). by rewrite run_loop_stopped.
Qed.
End Stopping.
