(* ===== verification/ServerSerial.v ===== *)
(** * The server runs a log

    At every moment the keyspace is what some [Log] makes of the first one, and
    what each connection has been sent, with what is pending, is what that log
    owes it; the calls in the log are the ones its bytes parse to.  The pieces:
    a connection's [session] of the trace, what each method of the server emits,
    and the preservation of [serial_ok] by each of them. *)
From S2P Require Import Prelude Buffer Digits Inline Parser Stream Writer Keyspace Expire Commands.
From S2P Require Import Options Spec Refine Handlers Dispatch Linear Spread Session Kernel Server Input Serial.
From S2P Require Import ServerInv.
Import Db (the_db, reads, mkWorld).

(** ** A connection's part of the trace *)
Definition session_step (fd : Z) (acc : Trace) (a : Action) : Trace :=
  match a with
  | AAccept _ (inr fd') => if fd' =? fd then [] else acc ++ [a]
  | _ => acc ++ [a]
  end.

(** What happened since [fd] was last accepted, and when that was. *)
Definition session (fd : Z) (t : Trace) : Trace := foldl (session_step fd) [] t.

Definition born (fd : Z) (t : Trace) : nat := length t - length (session fd t).

Definition chunk_of (fd : Z) (a : Action) : option bytes :=
  match a with ARead fd' (inr p) => if fd' =? fd then Some p else None | _ => None end.

(** What was read from [fd], read by read. *)
Definition chunks (fd : Z) (t : Trace) : list bytes := omap (chunk_of fd) t.

Lemma chunks_received fd t : concat (chunks fd t) = received fd t.
Proof.
  unfold chunks, received. induction t as [|a t IH]; [done|]. csimpl. rewrite <-IH.
  destruct a as [| | |fd' [e|p]| | | | | | | | | | | |]; try done. simpl. by destruct (fd' =? fd).
Qed.

(** Actions that do not accept, read or write [fd]. *)
Definition other (fd : Z) (a : Action) : Prop :=
  match a with
  | AAccept _ (inr fd') | ASend fd' _ _ | ARead fd' _ => fd' ≠ fd
  | _ => True
  end.

Definition stays (fd : Z) (a : Action) : Prop := if a is AAccept _ (inr fd') then fd' ≠ fd else True.

Lemma other_stays fd a : other fd a → stays fd a.
Proof. by destruct a as [| | | | |? []| | | | | | | | | |]. Qed.

Lemma session_app fd t u :
  Forall (stays fd) u → session fd (t ++ u) = session fd t ++ u ∧ born fd (t ++ u) = born fd t.
Proof.
  intros Hu. assert (session fd (t ++ u) = session fd t ++ u) as E.
  { unfold session. rewrite foldl_app. generalize (foldl (session_step fd) [] t).
    induction Hu as [|a u Ha _ IH]; intros l; [by rewrite app_nil_r|]. simpl. rewrite IH.
    assert (session_step fd l a = l ++ [a]) as ->; [|by rewrite <-(assoc_L (++))].
    destruct a as [| | | | |? []| | | | | | | | | |]; try done. simpl in *. by replace (_ =? fd) with false by lia. }
  split; [done|]. unfold born. rewrite E, !length_app. lia.
Qed.

Lemma session_born fd t l : session fd (t ++ [AAccept l (inr fd)]) = [] ∧ born fd (t ++ [AAccept l (inr fd)]) = S (length t).
Proof.
  assert (session fd (t ++ [AAccept l (inr fd)]) = []) as E.
  { unfold session. rewrite foldl_app. simpl. by rewrite Z.eqb_refl. }
  split; [done|]. unfold born. rewrite E, length_app. simpl. lia.
Qed.

Lemma born_le fd t : (born fd t ≤ length t)%nat.
Proof. unfold born. lia. Qed.

Lemma chunks_app fd t u : chunks fd (t ++ u) = chunks fd t ++ chunks fd u.
Proof. unfold chunks. apply list.omap_app. Qed.

Lemma sent_cons fd a u : sent fd (a :: u) = sent_by fd a ++ sent fd u.
Proof. done. Qed.

Lemma sent_other fd u : Forall (other fd) u → sent fd u = [].
Proof.
  induction 1 as [|a u Ha _ IH]; [done|]. rewrite sent_cons, IH, app_nil_r.
  destruct a as [| | | |fd' p []| | | | | | | | | | |]; try done. simpl in *. by replace (_ =? fd) with false by lia.
Qed.

Lemma chunks_other fd u : Forall (other fd) u → chunks fd u = [].
Proof.
  unfold chunks. induction 1 as [|a u Ha _ IH]; [done|]. csimpl. rewrite IH.
  destruct a as [| | |fd' []| | | | | | | | | | | |]; try done. simpl in *. by replace (_ =? fd) with false by lia.
Qed.

(** ** What a method emits *)
Definition emits {A} (P : Action → Prop) (m : M A) : Prop :=
  ∀ s, ∃ u, trace (m s).2 = trace s ++ u ∧ Forall P u.

(** Neither input nor output, and no new connection. *)
Definition silent (a : Action) : Prop :=
  match a with AAccept _ (inr _) | ASend _ _ _ | ARead _ _ => False | _ => True end.

(** No output. *)
Definition no_send (a : Action) : Prop := if a is ASend _ _ _ then False else True.

Lemma silent_no_send a : silent a → no_send a.
Proof. by destruct a. Qed.

Lemma no_send_sent fd a : no_send a → sent_by fd a = [].
Proof. by destruct a. Qed.

(** Output to [fd] only. *)
Definition writes (fd : Z) (a : Action) : Prop :=
  match a with AAccept _ (inr _) | ARead _ _ => False | ASend fd' _ _ => fd' = fd | _ => True end.

Lemma silent_other fd a : silent a → other fd a.
Proof. by destruct a as [| | | | |? []| | | | | | | | | |]. Qed.

Lemma silent_writes fd a : silent a → writes fd a.
Proof. by destruct a as [| | | | |? []| | | | | | | | | |]. Qed.

Lemma writes_other fd fd' a : fd' ≠ fd → writes fd a → other fd' a.
Proof. intros H. destruct a as [| | | |? ? ?|? []| | | | | | | | | |]; simpl; intros ?; simplify_eq; done. Qed.

Lemma writes_stays fd fd' a : writes fd a → stays fd' a.
Proof. by destruct a as [| | | | |? []| | | | | | | | | |]. Qed.

Lemma writes_chunks fd fd' u : Forall (writes fd) u → chunks fd' u = [].
Proof.
  unfold chunks. induction 1 as [|a u Ha _ IH]; [done|]. csimpl. rewrite IH.
  by destruct a as [| | |? []| | | | | | | | | | | |].
Qed.

Section Emits.
Context (P : Action → Prop).

Lemma emits_ret {A} (x : A) : emits P (mret x).
Proof. intros s. exists []. by rewrite app_nil_r. Qed.

Lemma emits_get : emits P get.
Proof. intros s. exists []. by rewrite app_nil_r. Qed.

Lemma emits_modify f : (∀ s, trace (f s) = trace s) → emits P (modify f).
Proof. intros Hf s. exists []. rewrite app_nil_r. split; [apply Hf|done]. Qed.

Lemma emits_bind {A C} (m : M A) (f : A → M C) : emits P m → (∀ x, emits P (f x)) → emits P (m ≫= f).
Proof.
  intros Hm Hf s. destruct (Hm s) as (u & E & Hu). rewrite bind_run.
  destruct (m s) as [x s1]. simpl in *. destruct (Hf x s1) as (u2 & E2 & Hu2).
  exists (u ++ u2). rewrite E2, E, (assoc_L (++)). split; [done|]. by apply Forall_app.
Qed.

Lemma emits_sys {A} (f : Trace → A) act : (∀ r, P (act r)) → emits P (sys f act).
Proof. intros Ha s. exists [act (f (trace s))]. split; [done|]. by repeat constructor. Qed.

Lemma emits_the_conn fd : emits P (the_conn fd).
Proof. intros s. exists []. rewrite app_nil_r. split; [|done]. unfold the_conn. by destruct (conns_ s !! fd). Qed.

Lemma emits_put_conn fd c : emits P (put_conn fd c).
Proof. intros s. exists []. rewrite app_nil_r. split; [|done]. unfold put_conn. by destruct (conns_ s !! fd). Qed.

Lemma emits_weaken {A} (Q : Action → Prop) (m : M A) : (∀ a, P a → Q a) → emits P m → emits Q m.
Proof. intros HPQ Hm s. destruct (Hm s) as (u & E & Hu). exists u. split; [done|]. by eapply Forall_impl. Qed.
End Emits.

#[local] Hint Resolve emits_ret emits_get emits_the_conn emits_put_conn : emits.

Ltac emitted := repeat
  match goal with
  | |- ∀ _, _ => intros ?
  | |- emits _ (_ ≫= _) => apply emits_bind
  | |- emits _ (modify _) => apply emits_modify; done
  | |- emits _ (sys _ _) => apply emits_sys; done
  | |- emits _ (let _ := _ in _) => cbv zeta
  | |- emits _ (if ?b then _ else _) => destruct b
  | |- emits _ (match ?x with _ => _ end) => destruct x
  | |- emits _ _ => solve [auto with emits]
  | |- emits _ _ => progress unfold loop_remove, loop_add, reopen_spare_fd, resume_listener, pause_listener,
      loop_set_write_interest, sys_poll_del, sys_poll_add, sys_poll_mod, sys_close, sys_open_null,
      set_nonblocking, set_tcp_nodelay, suppress_sigpipe, sys_getfl, sys_setfl, sys_setopt, sys_send
  end.

Section Silent.
Context {KE : Kernel}.

Lemma reopen_silent : emits silent reopen_spare_fd.
Proof. emitted. Qed.

Lemma pause_silent : emits silent pause_listener.
Proof. emitted. Qed.

Lemma close_conn_silent fd : emits silent (close_conn fd).
Proof. unfold close_conn. emitted. Qed.

Lemma add_connection_silent fd : emits silent (add_connection fd).
Proof. unfold add_connection. emitted. Qed.

Lemma close_conn_writes fd fd' : emits (writes fd) (close_conn fd').
Proof. eapply emits_weaken; [|apply close_conn_silent]. apply silent_writes. Qed.

#[local] Hint Resolve close_conn_writes : emits.

Lemma flush_loop_writes fuel fd : emits (writes fd) (flush_loop fuel fd).
Proof. induction fuel as [|fuel IH]; simpl; emitted; apply IH. Qed.

#[local] Hint Resolve flush_loop_writes : emits.

Lemma flush_output_writes retries fd : emits (writes fd) (flush_output retries fd).
Proof. unfold flush_output. emitted. Qed.

(** Even when it gives up, [flush_output] has sent only bytes that were
    pending, in order. *)
Lemma silent_sent fd u : Forall silent u → sent fd u = [].
Proof. intros Hu. apply sent_other. eapply Forall_impl; [exact Hu|]. intros a. apply silent_other. Qed.

Lemma flush_loop_sends fuel fd s c :
  conns_ s !! fd = Some c → Buffer.ok (out_ c) →
  ∃ u, trace (flush_loop fuel fd s).2 = trace s ++ u ∧ sent fd u `prefix_of` Buffer.to_string (out_ c).
Proof.
  revert s c. induction fuel as [|fuel IH]; intros s c Hc Ho;
    (destruct (pending c) eqn:Hp;
      [|rewrite (flush_loop_done _ _ _ c) by done; exists []; rewrite app_nil_r; split; [done|apply prefix_nil]]).
  { simpl flush_loop. rewrite bind_run, (the_conn_run _ _ _ Hc). unfold pending in Hp. apply negb_true_iff in Hp.
    cbn [fst snd]. rewrite Hp. exists []. rewrite app_nil_r. split; [done|apply prefix_nil]. }
  rewrite (flush_loop_step _ _ _ c) by done. set (p := Buffer.to_string (out_ c)).
  set (r := k_send (trace s) fd p). set (s1 := record _ s).
  assert (∃ u, trace (close_conn fd s1).2 = trace s1 ++ u ∧ Forall silent u) as (u & Hu & Hsil) by apply close_conn_silent.
  assert (∀ s', trace s' = trace s1 ++ u → sent_by fd (ASend fd p r) = [] →
    ∃ u, trace s' = trace s ++ u ∧ sent fd u `prefix_of` p) as Hend.
  { intros s' -> Hn. exists (ASend fd p r :: u). rewrite sent_cons, Hn, silent_sent by done.
    split; [by unfold s1; simpl; rewrite <-(assoc_L (++))|apply prefix_nil]. }
  destruct r as [e|n] eqn:Er.
  - destruct e; try by apply Hend.
    + exists [ASend fd p (inl EAGAIN)]. split; [done|apply prefix_nil].
    + destruct (IH s1 c Hc Ho) as (u2 & -> & Hs2). exists (ASend fd p (inl EINTR) :: u2).
      split; [by unfold s1; simpl; rewrite <-(assoc_L (++))|by rewrite sent_cons].
  - destruct n as [|n]; [apply Hend; [done|]; simpl; by destruct (fd =? fd)|]. destruct (Buffer.consume_spec (S n) (out_ c) Ho) as [Hok Hs].
    destruct (IH (after_send fd c (S n) s) (set_out (Buffer.consume (S n) (out_ c)) c)) as (u2 & Hu2 & Hs2);
      [apply lookup_insert_eq|done|].
    exists (ASend fd p (inr (S n)) :: u2).
    split; [etrans; [exact Hu2|]; unfold after_send; simpl; by rewrite <-(assoc_L (++))|].
    rewrite sent_cons. cbn [sent_by out_ set_out] in *. rewrite Z.eqb_refl.
    rewrite Hs in Hs2. apply (prefix_app (take (S n) p)) in Hs2. by rewrite take_drop in Hs2.
Qed.

Lemma flush_output_sends retries fd s c :
  conns_ s !! fd = Some c → Buffer.ok (out_ c) →
  ∃ u, trace (flush_output retries fd s).2 = trace s ++ u ∧ Forall (writes fd) u ∧
    sent fd u `prefix_of` contents (out_ c).
Proof.
  intros Hc Ho. destruct (flush_output_writes retries fd s) as (u & Hu & Hw). exists u. split_and!; [done|done|].
  revert Hu. unfold flush_output. rewrite bind_run, (the_conn_run _ _ _ Hc). cbn [fst snd]. rewrite bind_run.
  destruct (flush_loop_sends (Buffer.readable (out_ c) * S retries) fd s c Hc Ho) as (u1 & Hu1 & Hs1).
  destruct (flush_loop _ fd s) as [alive s1]. cbn [fst snd] in *.
  match goal with |- trace (?m s1).2 = _ → _ => assert (emits silent m) as Hm end.
  { assert (∀ fd', emits silent (close_conn fd')) as Hcl by apply close_conn_silent. emitted; apply Hcl. }
  destruct (Hm s1) as (u2 & -> & Hs2). rewrite Hu1, <-(assoc_L (++)). intros <-%app_inv_head.
  by rewrite sent_app, (silent_sent fd u2), app_nil_r.
Qed.
End Silent.

(** ** The state of the server, as a log explains it *)
Definition id_of (fd : Z) (t : Trace) : Id := (fd, born fd t).

Section Stories.
Context {KE : Kernel} (retries : nat) (HK : kernel_ok retries).
Context (time : nat → Z) (Hclock : clock_ok time).
Context (layout : nat → gset bytes → list (list bytes)) (Hlayout : layout_ok layout).
Context (w0 : Db.World).

Abbreviation outs log := (run_log time layout log w0).1.

(** Sent and pending, the connection has what it is owed. *)
Definition paid (log : list LogEntry) (t : Trace) (fd : Z) (c : BConn) : Prop :=
  sent fd (session fd t) ++ contents (out_ c) = owed (id_of fd t) (outs log).

(** Its calls are those that its bytes parse to; [rest] is unparsed. *)
Definition heard (log : list LogEntry) (t : Trace) (fd : Z) (p : Parser) (rest : bytes) (cs : list bytes) : Prop :=
  ∃ cmds, feed (new_parser default_limits) [] cs = (cmds, p, rest, None) ∧
    filter (λ a, a ≠ []) cmds = asked (id_of fd t) log ∧ Forall (λ a, closes a = false) cmds ∧
    Forall (polite (id_of fd t)) log.

(** All of its calls, and what it was refused for, have been read from it,
    whether or not it is closing. *)
Definition told_us (log : list LogEntry) (t : Trace) (fd : Z) (c : BConn) : Prop :=
  said (parser c) (contents (in_ c)) (chunks fd (session fd t)) (lines (id_of fd t) log).

Definition story (log : list LogEntry) (t : Trace) (fd : Z) (c : BConn) : Prop :=
  paid log t fd c ∧ told_us log t fd c ∧
  (close_after_write c = false → heard log t fd (parser c) (contents (in_ c)) (chunks fd (session fd t))).

(** No session was ever sent a byte it was not owed, whatever became of it. *)
Definition past (log : list LogEntry) (t : Trace) : Prop :=
  ∀ t1 fd, t1 `prefix_of` t → sent fd (session fd t1) `prefix_of` owed (id_of fd t1) (outs log).

(** The log holds nothing of [i] but what was read from the session of that name. *)
Definition read_from (log : list LogEntry) (t : Trace) (i : Id) : Prop :=
  lines i log = [] ∨ ∃ t1 fd p rest, t1 `prefix_of` t ∧ i = id_of fd t1 ∧
    said p rest (chunks fd (session fd t1)) (lines i log).

(** [f] is the connection being served, whose story is told apart. *)
Record serial_ok (f : option Z) (log : list LogEntry) (s : Server) : Prop := {
  so_world : (run_log time layout log w0).2 = db_ s;
  so_ids : Forall (about_id (λ i, (i.2 ≤ length (trace s))%nat)) log;
  so_args : Forall (about_args args_ok) log;
  so_conns fd c : conns_ s !! fd = Some c → f ≠ Some fd → story log (trace s) fd c;
  so_past : past log (trace s);
  so_read i : read_from log (trace s) i;
}.

Lemma read_from_later log t u i : read_from log t i → read_from log (t ++ u) i.
Proof.
  intros [?|(t1 & fd & p & rest & Ht1 & Hi & Hs)]; [by left|right]. exists t1, fd, p, rest.
  split_and!; [by apply prefix_app_r|done|done].
Qed.

(** *** The past *)
Lemma prefix_snoc_inv {A} (l t : list A) a : l `prefix_of` t ++ [a] → l `prefix_of` t ∨ l = t ++ [a].
Proof.
  intros [k Hk]. destruct k as [|b k _] using rev_ind; [right; by rewrite app_nil_r in Hk|].
  left. exists k. rewrite (assoc_L (++)) in Hk. by apply app_inj_tail in Hk as [-> _].
Qed.

Lemma past_snoc log t a :
  past log t → (∀ fd, sent fd (session fd (t ++ [a])) `prefix_of` owed (id_of fd (t ++ [a])) (outs log)) →
  past log (t ++ [a]).
Proof. intros Ht Ha t1 fd [?| ->]%prefix_snoc_inv; [by apply Ht|done]. Qed.

Lemma past_now log t fd : past log t → sent fd (session fd t) `prefix_of` owed (id_of fd t) (outs log).
Proof. intros Ht. by apply Ht. Qed.

(** One action whose output to [fd], if any, is within what is owed. *)
Lemma session_sent log t fd a :
  past log t → (stays fd a → sent_by fd a ≠ [] →
    sent fd (session fd t) ++ sent_by fd a `prefix_of` owed (id_of fd t) (outs log)) →
  sent fd (session fd (t ++ [a])) `prefix_of` owed (id_of fd (t ++ [a])) (outs log).
Proof.
  intros Ht Ha. assert (stays fd a ∨ ∃ l, a = AAccept l (inr fd)) as [Hst|[l ->]].
  { destruct a as [| | | | |l [e|fd']| | | | | | | | | |]; simpl; try by left.
    destruct (decide (fd' = fd)) as [->|]; [right; by eexists|by left]. }
  - destruct (session_app fd t [a]) as [Hs Hb]; [by repeat constructor|].
    unfold id_of. rewrite Hs, Hb, sent_app. unfold sent at 2. simpl. rewrite app_nil_r.
    destruct (decide (sent_by fd a = [])) as [->|Hne]; [rewrite app_nil_r; by apply past_now|by apply Ha].
  - destruct (session_born fd t l) as [-> _]. apply prefix_nil.
Qed.

Lemma past_quiet log t u : Forall no_send u → past log t → past log (t ++ u).
Proof.
  intros Hu. revert t. induction Hu as [|a u Ha _ IH]; intros t Ht; [by rewrite app_nil_r|].
  rewrite cons_middle, (assoc_L (++)). apply IH, past_snoc; [done|]. intros fd. apply session_sent; [done|].
  intros _ []. by apply no_send_sent.
Qed.

Lemma past_writes log t fd u :
  Forall (writes fd) u → past log t →
  sent fd (session fd t) ++ sent fd u `prefix_of` owed (id_of fd t) (outs log) → past log (t ++ u).
Proof.
  intros Hu Ht. induction u as [|a u IH] using rev_ind; intros Hp; [by rewrite app_nil_r|].
  apply Forall_app in Hu as [Hu Ha]. rewrite Forall_singleton in Ha.
  rewrite sent_app, (assoc_L (++)) in Hp. rewrite (assoc_L (++)).
  assert (past log (t ++ u)) as Htu by (apply IH; [done|]; etrans; [by eapply prefix_app_r|exact Hp]).
  apply past_snoc; [done|]. intros fd'. apply session_sent; [done|]. intros _ Hne.
  assert (fd' = fd) as ->.
  { destruct (decide (fd' = fd)) as [|Hd]; [done|]. destruct Hne.
    destruct a as [| | | |f p [e|n]| | | | | | | | | | |]; try done. simpl in *. subst f.
    by replace (fd =? fd') with false by lia. }
  destruct (session_app fd t u) as [Hs Hb]; [eapply Forall_impl; [exact Hu|]; intros b; apply writes_stays|].
  unfold id_of. rewrite Hs, Hb, sent_app. unfold sent at 3 in Hp. simpl in Hp. by rewrite app_nil_r in Hp.
Qed.

Lemma past_extend log log' t : past log t → past (log ++ log') t.
Proof.
  intros Ht t1 fd H1. rewrite run_log_app. cbn [fst]. rewrite owed_app. etrans; [by apply Ht|]. by eexists.
Qed.

Lemma story_other log t u fd c : Forall (other fd) u → story log t fd c → story log (t ++ u) fd c.
Proof.
  intros Hu [Hp Hh]. destruct (session_app fd t u) as [Hs Hb].
  { eapply Forall_impl; [exact Hu|]. intros a. apply other_stays. }
  unfold story, paid, told_us, heard, id_of in *.
  by rewrite Hs, Hb, sent_app, chunks_app, (sent_other fd u), (chunks_other fd u), !app_nil_r.
Qed.

Lemma ids_mono log m n :
  (m ≤ n)%nat → Forall (about_id (λ i, (i.2 ≤ m)%nat)) log → Forall (about_id (λ i, (i.2 ≤ n)%nat)) log.
Proof. intros Hle H. eapply Forall_impl; [exact H|]. intros [?|?|?]; simpl; lia. Qed.

(** Nothing happens to the connections that stay. *)
Lemma serial_keep f f' log s s' u :
  serial_ok f log s → db_ s' = db_ s → trace s' = trace s ++ u → (past log (trace s) → past log (trace s ++ u)) →
  (∀ fd c, conns_ s' !! fd = Some c → f' ≠ Some fd →
     conns_ s !! fd = Some c ∧ f ≠ Some fd ∧ Forall (other fd) u) →
  serial_ok f' log s'.
Proof.
  intros [Hw Hi Ha Hc Hp Hrf] Hd Ht Hpast Hk. split.
  - by rewrite Hd.
  - eapply ids_mono; [|exact Hi]. rewrite Ht, length_app. lia.
  - done.
  - intros fd c Hfd Hf. destruct (Hk fd c Hfd Hf) as (H1 & H2 & H3). rewrite Ht. apply story_other; [done|].
    by apply Hc.
  - rewrite Ht. by apply Hpast.
  - intros i. rewrite Ht. by apply read_from_later.
Qed.

Lemma past_silent log t u : Forall silent u → past log t → past log (t ++ u).
Proof. intros Hu. apply past_quiet. eapply Forall_impl; [exact Hu|]. apply silent_no_send. Qed.

Lemma serial_silent {A} (m : M A) f log s :
  emits silent m → serial_ok f log s → db_ (m s).2 = db_ s → conns_ (m s).2 = conns_ s →
  serial_ok f log (m s).2.
Proof.
  intros Hm Hs Hd Hc. destruct (Hm s) as (u & Ht & Hu). eapply serial_keep; [exact Hs|done|done|by apply past_silent|].
  intros fd c Hfd Hf. rewrite Hc in Hfd. split_and!; [done|done|]. eapply Forall_impl; [exact Hu|].
  intros a. apply silent_other.
Qed.

(** *** Closing *)
Lemma close_conn_serial f X log s fd c :
  inv f X s → conns_ s !! fd = Some c → f = None ∨ f = Some fd → serial_ok f log s →
  serial_ok None log (close_conn fd s).2.
Proof.
  intros Hi Hc Hf Hs. destruct (close_conn_ok retries HK f X s fd c Hi Hc Hf) as (_ & _ & Hcs & Hd).
  destruct (close_conn_silent fd s) as (u & Ht & Hu). eapply serial_keep; [exact Hs|done|done|by apply past_silent|].
  intros fd' c'. rewrite Hcs, lookup_delete_Some. intros [Hne Hfd] _. split_and!; [done| |].
  - destruct Hf as [->| ->]; congruence.
  - eapply Forall_impl; [exact Hu|]. intros a. apply silent_other.
Qed.

(** *** Writing *)
Lemma flush_output_serial X log s fd c :
  inv (Some fd) X s → conns_ s !! fd = Some c → serial_ok None log s →
  serial_ok None log (flush_output retries fd s).2.
Proof.
  intros Hi Hc Hs. pose proof (flush_output_ok retries HK X fd s c Hi Hc) as Hf. cbv zeta in Hf.
  destruct (flush_output_sends retries fd s c Hc) as (u & Ht & Hu & Hsu); [by apply (inv_pre _ _ _ Hi fd c)|].
  assert (past log (trace s ++ u)) as Hpast.
  { apply (past_writes log (trace s) fd u Hu (so_past _ _ _ Hs)).
    destruct (so_conns _ _ _ Hs fd c Hc) as [<- _]; [done|]. by apply prefix_app. }
  destruct (flush_output retries fd s) as [[] s']; cbn [fst snd] in *.
  - destruct Hf as [_ [(c' & Hcs & Hin & Hp & Hcl & Hsent) _ Hd]].
    destruct (session_app fd (trace s) u) as [Hse Hb].
    { eapply Forall_impl; [exact Hu|]. intros a. apply writes_stays. }
    destruct (so_conns _ _ _ Hs fd c Hc) as [Hpaid Hheard]; [done|]. split.
    + rewrite Hd. apply Hs.
    + eapply ids_mono; [|apply Hs]. rewrite Ht, length_app. lia.
    + apply Hs.
    + intros fd' c1. rewrite Hcs, lookup_insert. case_decide as Hfd; [subst fd'; intros [= <-] _|intros H1 _].
      * unfold story, paid, told_us, heard, id_of in *. rewrite Ht, Hse, Hb, Hin, Hp, Hcl.
        rewrite sent_app, chunks_app, (writes_chunks fd fd u), app_nil_r by done. split; [|done].
        rewrite <-Hpaid, <-(assoc_L (++)). f_equal.
        rewrite Ht, sent_app, <-(assoc_L (++)) in Hsent. by apply app_inv_head in Hsent.
      * rewrite Ht. apply story_other; [|by apply Hs]. eapply Forall_impl; [exact Hu|].
        intros a. by apply writes_other.
    + by rewrite Ht.
    + intros i. rewrite Ht. apply read_from_later, Hs.
  - destruct Hf as (_ & _ & Hcs & Hd). eapply serial_keep; [exact Hs|done|done|done|].
    intros fd' c'. rewrite Hcs, lookup_delete_Some. intros [Hne Hfd] _. split_and!; [done|done|].
    eapply Forall_impl; [exact Hu|]. intros a. by apply writes_other.
Qed.

(** *** Parsing and dispatching *)
Lemma story_extend log log' t fd c :
  Forall (about_id (λ i, i ≠ id_of fd t)) log' → story log t fd c → story (log ++ log') t fd c.
Proof.
  intros Hl (Hp & Ht & Hh). split_and!.
  - unfold paid in *. rewrite run_log_app. cbn [fst]. by rewrite owed_app, (owed_none _ _ _ log'), app_nil_r.
  - unfold told_us in *. by rewrite lines_app, (lines_none _ log'), app_nil_r.
  - intros Hc. destruct (Hh Hc) as (cmds & Hf & Ha & Hcl & Hpo). exists cmds.
    rewrite asked_app, (asked_none _ log'), app_nil_r by done. split_and!; [done..|].
    apply Forall_app. split; [done|by apply polite_other].
Qed.

Lemma about_id_impl (P Q : Id → Prop) log : (∀ i, P i → Q i) → Forall (about_id P) log → Forall (about_id Q) log.
Proof. intros HPQ H. eapply Forall_impl; [exact H|]. intros [?|?|?]; simpl; auto. Qed.

(** Calls of [fd] change nothing in the others' stories. *)
Lemma serial_extend log log' fd c' w s :
  serial_ok (Some fd) log s → Forall (about_id (λ i, i = id_of fd (trace s))) log' →
  Forall (about_args args_ok) log' → (run_log time layout log' (db_ s)).2 = w →
  told_us (log ++ log') (trace s) fd c' →
  serial_ok (Some fd) (log ++ log') (set_world w (set_conns (<[fd := c']> (conns_ s)) s)).
Proof.
  intros [Hw Hi Ha Hc Hp Hrf] Hl Hal Hrun Htold. split; simpl; [| | | |by apply past_extend|].
  - by rewrite run_log_app, Hw.
  - apply Forall_app. split; [done|]. eapply about_id_impl; [|exact Hl]. intros i ->. apply born_le.
  - by apply Forall_app.
  - intros fd' c1. rewrite lookup_insert. case_decide as Hfd; [congruence|]. intros H1 _.
    apply story_extend; [|by apply Hc; [|congruence]]. eapply about_id_impl; [|exact Hl].
    intros i -> [= ? _]. done.
  - intros i. destruct (decide (i = id_of fd (trace s))) as [->|Hne]; [right; by eexists _, fd, _, _|].
    specialize (Hrf i). unfold read_from in *. rewrite lines_app, (lines_none i log'), app_nil_r; [done|].
    eapply about_id_impl; [|exact Hl]. by intros j ->.
Qed.

Lemma feed_snoc p s cs x cmds p' s' :
  feed p s cs = (cmds, p', s', None) →
  feed p s (cs ++ [x]) =
    let '(cmds2, p2, s2, e) := drain_all p' (s' ++ x) in (cmds ++ cmds2, p2, s2, e).
Proof.
  revert p s cmds. induction cs as [|y cs IH]; intros p s cmds H; simpl in *.
  - injection H as <- <- <-. destruct (drain_all p (s ++ x)) as [[[cmds2 p2] s2] [m|]]; [done|].
    by rewrite app_nil_r.
  - destruct (drain_all p (s ++ y)) as [[[cmds1 p1] s1] [m|]]; [done|].
    destruct (feed p1 s1 cs) as [[[cmds2 p2] s2] e] eqn:Ef. injection H as <- <- <- ->.
    rewrite (IH _ _ _ Ef). destruct (drain_all p2 (s2 ++ x)) as [[[cmds3 p3] s3] e3].
    by rewrite (assoc_L (++)).
Qed.

Lemma process_input_serial X log fd s c :
  inv (Some fd) X s → conns_ s !! fd = Some c → serial_ok (Some fd) log s → paid log (trace s) fd c →
  told_us log (trace s) fd c →
  (close_after_write c = false → ∃ cs x rest, chunks fd (session fd (trace s)) = cs ++ [x] ∧
     heard log (trace s) fd (parser c) rest cs ∧ contents (in_ c) = rest ++ x) →
  ∃ log', serial_ok None (log ++ log') (process_input time retries fd s).2.
Proof.
  intros Hi Hc Hs Hp Htold Hh. rewrite (process_input_run retries time fd s c Hc).
  pose proof (inv_pre _ _ _ Hi _ _ Hc) as Hpre. pose proof (inv_store _ _ _ Hi) as Hok.
  pose proof (process_loop_ok time Hclock (max_output_buffer (cfg_ s)) c (db_ s) Hpre Hok) as Hloop.
  destruct (process_loop_log time layout Hclock (max_output_buffer (cfg_ s)) (id_of fd (trace s)) c (db_ s)
    Hpre Hok) as (log' & Hlog).
  destruct (process_loop time _ c _) as [[c' w] e]. destruct Hloop as (Hpre' & Hok' & Ha & _ & Hcl).
  destruct Hlog as (Hw & Hout & Hids & Hargs & Hturn & Hheard). exists log'.
  assert (told_us (log ++ log') (trace s) fd c') as Htold' by (unfold told_us; rewrite lines_app; by apply Hturn). cbv zeta. set (s1 := set_world w _).
  assert (inv (Some fd) X s1) as Hi1 by (apply inv_world; [done|]; by apply (inv_put X s fd c)).
  assert (conns_ s1 !! fd = Some c') as Hc1 by apply lookup_insert_eq.
  assert (serial_ok (Some fd) (log ++ log') s1) as Hs1 by by apply serial_extend.
  destruct e; [|by eapply close_conn_serial; [exact Hi1|exact Hc1|right|]].
  eapply flush_output_serial; [exact Hi1|exact Hc1|]. destruct Hs1 as [Hw1 Hid1 Ha1 Hcs1 Hp1 Hrf1].
  split; [done|done|done| |done|done].
  intros fd' c1 Hfd' _. destruct (decide (fd = fd')) as [<-|Hne]; [|apply Hcs1; [done|congruence]].
  rewrite Hfd' in Hc1. injection Hc1 as ->. change (trace s1) with (trace s). split; [|split; [done|]].
  - unfold paid in *. rewrite run_log_app. cbn [fst]. rewrite owed_app, (so_world _ _ _ Hs), <-Hp, Hout.
    by rewrite (assoc_L (++)).
  - intros Hclose. destruct (close_after_write c) eqn:Ecl; [by rewrite Hcl in Hclose|].
    destruct (Hh eq_refl) as (cs & x & rest & Hch & (cmds & Hfeed & Hasked & Hfa & Hpo) & Hin).
    destruct (Hheard eq_refl Hclose) as (cmds2 & Hdr & Hasked2 & Hfa2 & Hpo2). rewrite Hch.
    exists (cmds ++ cmds2). rewrite (feed_snoc _ _ _ _ _ _ _ Hfeed), <-Hin, Hdr.
    split_and!; [done| |by apply Forall_app|by apply Forall_app]. by rewrite filter_app, Hasked, Hasked2, asked_app.
Qed.

(** *** Reading *)
Lemma handle_read_serial X log fd s c :
  inv None X s → conns_ s !! fd = Some c → serial_ok None log s →
  ∃ log', serial_ok None (log ++ log') (handle_read time retries fd s).2.
Proof.
  intros Hi Hc Hs. rewrite (handle_read_run retries time fd s c Hc). set (s1 := set_conns _ s).
  set (r := k_read (trace s) fd kReadChunk). set (s2 := record _ s1). cbv zeta.
  assert (∀ p, r = inr p → (length p ≤ kReadChunk)%nat) as Hlen by (intros p Hr; by eapply kernel_read).
  pose proof (inv_pre _ _ _ Hi _ _ Hc) as Hpre.
  destruct (received_conn_spec [] c Hpre) as (_ & _ & Hrin & _); [simpl; lia|].
  assert (inv (Some fd) X s2) as Hi2 by by apply inv_reading.
  assert (conns_ s2 !! fd = Some (reading_conn c)) as Hc2 by apply lookup_insert_eq.
  destruct (so_conns _ _ _ Hs fd c Hc) as (Hpaid & Htold & Hheard); [done|].
  assert (serial_ok (Some fd) log s2) as Hs2.
  { apply (serial_keep None (Some fd) log s s2 [ARead fd r]); [done|done|done|by apply past_quiet; repeat constructor|].
    intros fd' c'.
    cbn. rewrite lookup_insert. case_decide as Hfd; [congruence|]. intros H1 _. split_and!; [done|done|].
    by repeat constructor. }
  destruct (session_app fd (trace s) [ARead fd r]) as [Hse Hb]; [by repeat constructor|].
  assert (trace s2 = trace s ++ [ARead fd r]) as Ht2 by done.
  assert (paid log (trace s2) fd (reading_conn c)) as Hpaid2.
  { unfold paid, id_of in *. rewrite Ht2, Hse, Hb, sent_app. by rewrite app_nil_r. }
  assert ((∃ e, r = inl e) → serial_ok None log s2) as Hstay.
  { intros [e He]. destruct Hs2 as [Hw Hid Ha Hcs Hp Hrf]. split; [done|done|done| |done|done]. intros fd' c1 Hfd' _.
    destruct (decide (fd = fd')) as [<-|Hne]; [|apply Hcs; [done|congruence]].
    rewrite Hc2 in Hfd'. injection Hfd' as <-. split; [done|].
    unfold told_us, heard, id_of in *. rewrite Ht2, Hse, Hb, chunks_app, Hrin, He. simpl. rewrite app_nil_r.
    by split. }
  assert (∃ log', serial_ok None (log ++ log') (close_conn fd s2).2) as Hclosed.
  { exists []. rewrite app_nil_r. by eapply close_conn_serial; [exact Hi2|exact Hc2|right|]. }
  assert ((∃ e, r = inl e) → ∃ log', serial_ok None (log ++ log') s2) as Hstays.
  { intros He. exists []. rewrite app_nil_r. by apply Hstay. }
  destruct r as [[]|[|b p]] eqn:Er; cbn [snd]; eauto. clear Hstays Hclosed.
  destruct (received_conn_spec (b :: p) c Hpre) as (_ & Hrc & _ & Hin); [by apply Hlen|].
  set (s3 := set_conns _ s2).
  assert (chunks fd [ARead fd (inr (b :: p))] = [b :: p]) as Hnew by (unfold chunks; csimpl; by rewrite Z.eqb_refl).
  assert (inv (Some fd) X s3) as Hi3 by by apply (inv_put X s2 fd (reading_conn c)).
  eapply process_input_serial; [exact Hi3|apply lookup_insert_eq| |exact Hpaid2| |].
  - apply (serial_keep (Some fd) (Some fd) log s2 s3 []); [done|done|by rewrite app_nil_r|by rewrite app_nil_r|].
    intros fd' c'. cbn. rewrite lookup_insert. case_decide; [congruence|]. by intros H1 H2.
  - unfold told_us, id_of in *. change (trace s3) with (trace s2). rewrite Ht2, Hse, Hb, chunks_app, Hnew, Hin.
    by apply said_more.
  - intros Hclose. exists (chunks fd (session fd (trace s))), (b :: p), (contents (in_ c)).
    change (trace s3) with (trace s2). rewrite Ht2, Hse, chunks_app. split_and!; [| |done].
    + by rewrite Hnew.
    + unfold heard, id_of in *. rewrite Hb. by apply Hheard.
Qed.
(** *** One readiness report *)
Lemma on_conn_event_serial X log fd rd wr s :
  inv None X s → serial_ok None log s →
  ∃ log', serial_ok None (log ++ log') (on_conn_event time retries fd rd wr s).2.
Proof.
  intros Hi Hs. assert (∃ log', serial_ok None (log ++ log') s) as Hsame by (exists []; by rewrite app_nil_r).
  unfold on_conn_event. rewrite bind_run. cbn [fst snd get].
  destruct (conns_ s !! fd) as [c|] eqn:Hc; [|done]. rewrite bind_run. set (m1 := if rd then _ else _).
  assert (served X fd s (m1 s).1 (m1 s).2 ∧ ∃ log', serial_ok None (log ++ log') (m1 s).2) as [Hm1 [log1 Hs1]].
  { unfold m1. destruct rd; [split; [by eapply handle_read_served|by eapply handle_read_serial]|].
    split; [|done]. split; try done. by eexists. }
  destruct (m1 s) as [[] s1]; cbn [fst snd negb] in *; [|by exists log1].
  destruct Hm1 as [Hi1 _ _ [c1 Hc1]]. rewrite bind_run, (the_conn_run _ _ _ Hc1). cbn [fst snd]. rewrite bind_run.
  set (m2 := if wr && _ then _ else _).
  assert (served X fd s1 (m2 s1).1 (m2 s1).2 ∧ serial_ok None (log ++ log1) (m2 s1).2) as [Hm2 Hs2].
  { unfold m2. destruct (wr && _).
    - split; [eapply flush_output_served|eapply flush_output_serial]; try done; by apply inv_focus.
    - split; [|done]. split; try done. by eexists. }
  exists log1. destruct (m2 s1) as [[] s2]; cbn [fst snd negb] in *; [|done].
  destruct Hm2 as [Hi2 _ _ [c2 Hc2]]. rewrite bind_run, (the_conn_run _ _ _ Hc2). cbn [fst snd].
  destruct (close_after_write c2 && _); [|done].
  eapply close_conn_serial; [exact Hi2|exact Hc2|by left|done].
Qed.

(** *** The listener *)
Lemma live_open X s fd : inv None X s → fd ∈ dom (conns_ s) → fd ∈ opened (trace s).
Proof. intros Hi Hfd. destruct (inv_fds _ _ _ Hi) as [-> _]. set_solver. Qed.

(** An answer of [accept] concerns no live connection. *)
Lemma accept_other X s l fd :
  inv None X s → fd ∈ dom (conns_ s) → other fd (AAccept l (k_accept (trace s) l)).
Proof.
  intros Hi Hfd. simpl. destruct (k_accept (trace s) l) as [e|fd'] eqn:E; [done|].
  destruct (kernel_accept retries HK _ _ _ E) as [_ Hfr]. intros ->. by apply Hfr, (live_open X).
Qed.

Lemma shed_trace s :
  inv None ∅ s → ∃ u, trace (shed_connection s).2 = trace s ++ u ∧ Forall no_send u ∧
    ∀ fd, fd ∈ dom (conns_ s) → Forall (other fd) u.
Proof.
  intros Hi. unfold shed_connection. rewrite bind_run. cbn [fst snd get]. rewrite bind_run.
  set (m := if 0 <=? spare_fd_ s then _ else _).
  assert (∃ u, trace (m s).2 = trace s ++ u ∧ Forall no_send u ∧
    ∀ fd, fd ∈ dom (conns_ s) → Forall (other fd) u) as (u & Hu & Hnu & Hou).
  { unfold m. destruct (Z.leb_spec 0 (spare_fd_ s)) as [Hsp|_]; [|exists []; by rewrite app_nil_r].
    set (s2 := set_spare (-1) (record (AClose (spare_fd_ s)) s)).
    assert (inv None ∅ s2) as Hi2 by by apply inv_spend.
    rewrite bind_run. cbn [fst snd sys_close sys]. rewrite bind_run. cbn [fst snd modify]. fold s2.
    rewrite bind_run. unfold sys_accept at 1 2, sys at 1 2. cbn [fst snd].
    set (r := k_accept (trace s2) (listen_fd_ s)).
    match goal with |- context [trace (?m _).2] => assert (emits silent m) as Hm by (destruct r; emitted) end.
    destruct (Hm (record (AAccept (listen_fd_ s) r) s2)) as (u & Hu & Hsu).
    exists ([AClose (spare_fd_ s); AAccept (listen_fd_ s) r] ++ u). rewrite Hu. split_and!.
    - cbn. by rewrite <-!(assoc_L (++)).
    - apply Forall_app. split; [by repeat constructor|]. eapply Forall_impl; [exact Hsu|]. apply silent_no_send.
    - intros fd Hfd. apply Forall_app. split.
      + repeat constructor. by apply (accept_other ∅ s2).
      + eapply Forall_impl; [exact Hsu|]. intros a. apply silent_other. }
  destruct (m s) as [b s1]. cbn [fst snd] in *.
  assert (emits silent (if b then mret tt else pause_listener : M unit)) as Hp.
  { destruct b; [apply emits_ret|apply pause_silent]. }
  destruct (Hp s1) as (u2 & Hu2 & Hs2). exists (u ++ u2). rewrite Hu2, Hu, (assoc_L (++)). split_and!; [done| |].
  { apply Forall_app. split; [done|]. eapply Forall_impl; [exact Hs2|]. apply silent_no_send. }
  intros fd Hfd. apply Forall_app. split; [by apply Hou|]. eapply Forall_impl; [exact Hs2|].
  intros a. apply silent_other.
Qed.

Lemma serial_around log s s' u :
  serial_ok None log s → db_ s' = db_ s → conns_ s' = conns_ s → trace s' = trace s ++ u → Forall no_send u →
  (∀ fd, fd ∈ dom (conns_ s) → Forall (other fd) u) → serial_ok None log s'.
Proof.
  intros Hs Hd Hc Ht Hn Hu. eapply serial_keep; [exact Hs|done|exact Ht|by apply past_quiet|].
  intros fd c Hfd _. rewrite Hc in Hfd. split_and!; [done|done|]. apply Hu, elem_of_dom. by eexists.
Qed.

(** A new connection is owed nothing. *)
Lemma new_story log t l fd u :
  Forall (about_id (λ i, (i.2 ≤ length t)%nat)) log → Forall silent u →
  story log ((t ++ [AAccept l (inr fd)]) ++ u) fd new_conn.
Proof.
  intros Hids Hu. destruct (session_born fd t l) as [Hs Hb].
  destruct (session_app fd (t ++ [AAccept l (inr fd)]) u) as [Hs' Hb'].
  { eapply Forall_impl; [exact Hu|]. intros a Ha. by apply other_stays, silent_other. }
  rewrite Hs in Hs'. rewrite Hb in Hb'.
  assert (Forall (other fd) u) as Ho by (eapply Forall_impl; [exact Hu|]; intros a; apply silent_other).
  assert (Forall (about_id (λ i, i ≠ (fd, S (length t)))) log) as Hne.
  { eapply about_id_impl; [|exact Hids]. simpl. intros i Hi ->. simpl in Hi. lia. }
  unfold story, paid, told_us, heard, id_of. rewrite Hs', Hb'. cbn [app]. rewrite (sent_other fd u), (chunks_other fd u) by done.
  split; [by rewrite owed_none|]. split; [rewrite lines_none by done; constructor|]. intros _. exists []. rewrite asked_none by done.
  split_and!; [done..|by apply polite_other].
Qed.

Lemma add_connection_serial log s l fd :
  inv None {[fd]} (record (AAccept l (inr fd)) s) → fd ∉ dom (conns_ s) → serial_ok None log s →
  serial_ok None log (add_connection fd (record (AAccept l (inr fd)) s)).2.
Proof.
  intros Hi Hfd Hs. set (s1 := record _ s) in *.
  destruct (add_connection_ok retries HK s1 fd Hi) as (_ & _ & Hd & Hcs).
  destruct (add_connection_silent fd s1) as (u & Ht & Hu).
  assert (∀ fd', fd' ≠ fd → Forall (other fd') ([AAccept l (inr fd)] ++ u)) as Ho.
  { intros fd' Hne. apply Forall_app. split; [by repeat constructor|].
    eapply Forall_impl; [exact Hu|]. intros a. apply silent_other. }
  change (trace s1) with (trace s ++ [AAccept l (inr fd)]) in Ht. change (conns_ s1) with (conns_ s) in Hcs.
  split.
  - rewrite Hd. apply Hs.
  - eapply ids_mono; [|apply Hs]. rewrite Ht, !length_app. lia.
  - apply Hs.
  - intros fd' c Hfd' _. rewrite Ht. destruct (decide (fd' = fd)) as [->|Hne].
    + destruct Hcs as [Hcs|Hcs]; rewrite Hcs in Hfd'.
      * destruct Hfd. apply elem_of_dom. by eexists.
      * rewrite lookup_insert_eq in Hfd'. injection Hfd' as <-. apply new_story; [apply Hs|done].
    + rewrite <-(assoc_L (++)). apply story_other; [by apply Ho|]. apply Hs; [|done].
      destruct Hcs as [Hcs|Hcs]; rewrite Hcs in Hfd'; [done|]. by rewrite lookup_insert_ne in Hfd'.
  - rewrite Ht. apply past_silent; [done|]. apply past_quiet; [by repeat constructor|apply Hs].
  - intros i. rewrite Ht, <-(assoc_L (++)). apply read_from_later, Hs.
Qed.

Lemma accept_loop_serial n log s :
  inv None ∅ s → serial_ok None log s → serial_ok None log (accept_loop n s).2.
Proof.
  revert s. induction n as [|n IH]; intros s Hi Hs; [done|]. simpl accept_loop.
  rewrite bind_run. cbn [fst snd get]. rewrite bind_run. unfold sys_accept, sys. cbn [fst snd].
  pose proof (accept_other ∅ s (listen_fd_ s)) as Hother.
  set (r := k_accept (trace s) (listen_fd_ s)) in *. set (s1 := record _ s). destruct r as [e|fd] eqn:Er.
  - assert (inv None ∅ s1) as Hi1 by (apply inv_record; [done|by apply in_order_listen|done]).
    assert (serial_ok None log s1) as Hs1.
    { eapply (serial_around log s s1 [_]); [done|done|done|done|by repeat constructor|]. intros fd Hfd. by repeat constructor. }
    destruct (shed_connection_ok retries HK None ∅ s1 Hi1) as (_ & _ & Hc & Hd & _).
    destruct (shed_trace s1 Hi1) as (u & Hu & Hn & Ho).
    destruct e; try done; try by apply IH. all: by eapply (serial_around log s1).
  - destruct (kernel_accept retries HK _ _ _ Er) as [_ Hfr].
    assert (inv None {[fd]} s1) as Hi1.
    { rewrite <-(union_empty_r_L {[fd]}). by apply inv_accept. }
    rewrite bind_run. destruct (add_connection_ok retries HK s1 fd Hi1) as (Hi2 & _).
    apply IH; [done|]. apply add_connection_serial; [done| |done].
    intros Hin. by apply Hfr, (live_open ∅).
Qed.
(** *** The tick and the loop *)
Lemma serial_ext log s s' :
  serial_ok None log s → db_ s' = db_ s → conns_ s' = conns_ s → trace s' = trace s → serial_ok None log s'.
Proof.
  intros Hs Hd Hc Ht. apply (serial_around log s s' []); [done|done|done|by rewrite app_nil_r|done|].
  intros fd _. constructor.
Qed.

Lemma on_tick_serial log s :
  serial_ok None log s →
  ∃ log', serial_ok None (log ++ log') (on_tick time layout s).2.
Proof.
  intros Hs. exists [STick (active_expire_samples (cfg_ s))]. rewrite on_tick_run. cbn [snd].
  set (b := k_shutdown (trace s)). set (w := (active_expire_cycle _ _ _ _).2).
  assert (serial_ok None (log ++ [STick (active_expire_samples (cfg_ s))]) (set_world w s)) as Hs1.
  { destruct Hs as [Hw Hi Ha Hc Hp Hrf]. split; [| | | |by apply past_extend|].
    - rewrite run_log_app, Hw. cbn. by destruct (active_expire_cycle _ _ _ _).
    - apply Forall_app. split; [done|by repeat constructor].
    - apply Forall_app. split; [done|by repeat constructor].
    - intros fd c Hfd Hf. apply story_extend; [by repeat constructor|by apply Hc].
    - intros i. specialize (Hrf i). unfold read_from in *. by rewrite lines_app, (lines_none i [_]), app_nil_r by repeat constructor. }
  assert (serial_ok None (log ++ [STick (active_expire_samples (cfg_ s))]) (record (AShutdown b) (set_world w s)))
    as Hs2.
  { eapply serial_around; [exact Hs1|done|done|done|by repeat constructor|]. intros fd _. by repeat constructor. }
  destruct b; [|done]. by eapply serial_ext.
Qed.

Lemma tick_serial log s :
  serial_ok None log s → ∃ log', serial_ok None (log ++ log') (tick time layout s).2.
Proof.
  intros Hs. rewrite tick_run. destruct (tick_ s); [by apply on_tick_serial|]. exists []. by rewrite app_nil_r.
Qed.

Lemma dispatch_event_serial ev log s :
  inv None ∅ s → serial_ok None log s →
  ∃ log', serial_ok None (log ++ log') (dispatch_event time retries ev s).2.
Proof.
  intros Hi Hs. assert (∃ log', serial_ok None (log ++ log') s) as Hsame by (exists []; by rewrite app_nil_r).
  unfold dispatch_event. rewrite bind_run. cbn [fst snd get].
  destruct (callback <$> handlers_ s !! ev_fd ev) as [[|]|]; [|by eapply on_conn_event_serial|done].
  destruct (ev_readable ev); [|done]. exists []. rewrite app_nil_r. by apply accept_loop_serial.
Qed.

Lemma dispatch_events_serial evs log s :
  inv None ∅ s → serial_ok None log s →
  ∃ log', serial_ok None (log ++ log') (dispatch_events time retries evs s).2.
Proof.
  revert log s. induction evs as [|ev evs IH]; intros log s Hi Hs; [exists []; by rewrite app_nil_r|].
  simpl dispatch_events. rewrite bind_run. destruct (dispatch_event_serial ev log s Hi Hs) as [log1 Hs1].
  destruct (dispatch_event_ok retries HK time Hclock ev s Hi) as [Hi1 _].
  destruct (IH _ _ Hi1 Hs1) as [log2 Hs2]. exists (log1 ++ log2). by rewrite (assoc_L (++)).
Qed.

Lemma iterate_serial log s :
  inv None ∅ s → serial_ok None log s →
  ∃ log', serial_ok None (log ++ log') (iterate time layout retries s).2.
Proof.
  intros Hi Hs. unfold iterate. rewrite bind_run. cbn [fst snd get].
  rewrite bind_run. unfold sys_wait, sys. cbn [fst snd].
  set (s1 := record _ s). assert (inv None ∅ s1) as Hi1 by by apply inv_record.
  assert (serial_ok None log s1) as Hs1.
  { eapply serial_around; [exact Hs|done|done|done|by repeat constructor|]. intros fd _. by repeat constructor. }
  destruct (k_wait (trace s) _) as [evs|]; [|exists []; by rewrite app_nil_r].
  rewrite bind_run. destruct (dispatch_events_serial evs log s1 Hi1 Hs1) as [log1 Hs2].
  rewrite bind_run. destruct (tick_serial _ _ Hs2) as [log2 Hs3].
  rewrite bind_run. cbn [fst snd modify]. exists (log1 ++ log2). rewrite (assoc_L (++)).
  by eapply serial_ext.
Qed.

Lemma run_loop_serial n log s :
  inv None ∅ s → serial_ok None log s →
  ∃ log', serial_ok None (log ++ log') (run_loop time layout retries n s).2.
Proof.
  revert log s. induction n as [|n IH]; intros log s Hi Hs; [exists []; by rewrite app_nil_r|].
  simpl run_loop. rewrite bind_run. cbn [fst snd get].
  destruct (running_ s); [|exists []; by rewrite app_nil_r].
  rewrite bind_run. destruct (iterate_serial log s Hi Hs) as [log1 Hs1].
  pose proof (iterate_ok retries HK time Hclock layout Hlayout s Hi) as Hi1.
  destruct (iterate time layout retries s) as [[] s1]; cbn [fst snd] in *.
  - destruct (IH _ _ Hi1 Hs1) as [log2 Hs2]. exists (log1 ++ log2). by rewrite (assoc_L (++)).
  - exists log1. by eapply serial_ext.
Qed.

Lemma run_serial n s :
  started s → db_ s = w0 → ∃ log, serial_ok None log (run time layout retries n s).2.
Proof.
  intros Hs Hw. unfold run. rewrite bind_run. cbn [snd modify].
  assert (serial_ok None [] (set_running true s)) as Hs0.
  { split; [by symmetry|constructor|constructor| | |by left].
    - intros fd c. simpl. by rewrite (started_conns _ Hs), lookup_empty.
    - apply (past_quiet [] []).
      + eapply Forall_impl; [exact (started_quiet _ Hs)|]. by intros [] [? _].
      + intros t1 fd ->%prefix_nil_inv. apply prefix_nil. }
  destruct (run_loop_serial n [] (set_running true s)) as [log Hlog]; [|done|by exists log].
  by eapply inv_ext; [by apply started_inv|..].
Qed.
End Stories.
