(* ===== verification/Conns.v ===== *)
(** * What every connection keeps

    A property of one connection and its descriptor that holds of a new
    connection, and that reading from the connection and writing to it keep,
    holds of every connection in any reachable state. *)
From S2P Require Import Prelude Buffer Digits Inline Parser Stream Writer Keyspace Expire Commands.
From S2P Require Import Options Spec Refine Handlers Dispatch Linear Session Kernel Server Input ServerInv.

(** The connection [fd], if it is still there, has [P]. *)
Definition leaves (P : Z → BConn → Prop) (fd : Z) (s : Server) : Prop :=
  ∀ c, conns_ s !! fd = Some c → P fd c.

Definition every (P : Z → BConn → Prop) (s : Server) : Prop := ∀ fd, leaves P fd s.

Section Kept.
Context {KE : Kernel} (retries : nat) (HK : kernel_ok retries) (time : nat → Z) (Hclock : clock_ok time).
Context (cfg : ServerConfig) (P : Z → BConn → Prop).
Context (Hnew : ∀ fd, P fd new_conn).
Context (Hread : ∀ s fd c, inv None ∅ s → cfg_ s = cfg → conns_ s !! fd = Some c → P fd c →
  leaves P fd (handle_read time retries fd s).2).
Context (Hflush : ∀ s fd c, inv (Some fd) ∅ s → conns_ s !! fd = Some c → P fd c →
  leaves P fd (flush_output retries fd s).2).

Lemma on_conn_event_every fd r w s :
  inv None ∅ s → cfg_ s = cfg → every P s → every P (on_conn_event time retries fd r w s).2.
Proof.
  intros Hi Hcfg Hm. destruct (on_conn_event_ok retries HK time Hclock ∅ fd r w s Hi) as (_ & _ & Ho).
  cut (leaves P fd (on_conn_event time retries fd r w s).2).
  { intros Hl fd' c' Hc'. destruct (decide (fd' = fd)) as [->|Hne]; [by apply Hl|].
    rewrite Ho in Hc' by done. by eapply Hm. }
  clear Ho. unfold on_conn_event. rewrite bind_run. cbn [fst snd get].
  destruct (conns_ s !! fd) as [c|] eqn:Hc; [|intros c'; cbn; by rewrite Hc]. rewrite bind_run. set (m1 := if r then _ else _).
  assert (leaves P fd (m1 s).2 ∧ served ∅ fd s (m1 s).1 (m1 s).2) as [Hb1 Hm1].
  { unfold m1. destruct r; (split; [|try by eapply handle_read_served]).
    - eapply Hread; [done|done|done|by eapply Hm].
    - intros c' Hc'. by eapply Hm.
    - split; try done. by eexists. }
  destruct (m1 s) as [[] s1]; cbn [fst snd negb] in *; [|done]. destruct Hm1 as [Hi1 _ _ [c1 Hc1]].
  rewrite bind_run, (the_conn_run _ _ _ Hc1). cbn [fst snd]. rewrite bind_run. set (m2 := if w && _ then _ else _).
  assert (leaves P fd (m2 s1).2 ∧ served ∅ fd s1 (m2 s1).1 (m2 s1).2) as [Hb2 Hm2].
  { unfold m2. destruct (w && _); split; try done.
    - eapply Hflush; [by apply inv_focus|done|by apply Hb1].
    - eapply flush_output_served; [done|by apply inv_focus|done].
    - split; try done. by eexists. }
  destruct (m2 s1) as [[] s2]; cbn [fst snd negb] in *; [|done]. destruct Hm2 as [Hi2 _ _ [c2 Hc2]].
  rewrite bind_run, (the_conn_run _ _ _ Hc2). cbn [fst snd]. destruct (close_after_write c2 && _); [|done].
  destruct (close_conn_ok retries HK None ∅ s2 fd c2 Hi2 Hc2) as (_ & _ & E & _); [by left|].
  intros c'. by rewrite E, lookup_delete_eq.
Qed.

Lemma every_same s s' : conns_ s' = conns_ s → every P s → every P s'.
Proof. intros Hc Hm fd c. rewrite Hc. apply Hm. Qed.

Lemma accept_loop_every n s : inv None ∅ s → every P s → every P (accept_loop n s).2.
Proof.
  revert s. induction n as [|n IH]; intros s Hi Hm; [done|]. simpl accept_loop.
  rewrite bind_run. cbn [fst snd get]. rewrite bind_run. unfold sys_accept, sys. cbn [fst snd].
  set (r := k_accept (trace s) (listen_fd_ s)). set (s1 := record _ s). destruct r as [e|fd] eqn:Er.
  - assert (inv None ∅ s1) as Hi1 by (apply inv_record; [done|by apply in_order_listen|done]).
    destruct (shed_connection_ok retries HK None ∅ s1 Hi1) as (_ & _ & Hc & _).
    assert (every P (shed_connection s1).2) as Hm1 by by apply (every_same s1).
    destruct e; first [exact Hm1|exact Hm|by apply IH].
  - destruct (kernel_accept retries HK _ _ _ Er) as [_ Hfr].
    assert (inv None {[fd]} s1) as Hi1 by (rewrite <-(union_empty_r_L {[fd]}); by apply inv_accept).
    rewrite bind_run. destruct (add_connection_ok retries HK s1 fd Hi1) as (Hi2 & _ & _ & Hc2).
    apply IH; [done|]. intros fd' c. destruct Hc2 as [->| ->]; [by apply Hm|].
    rewrite lookup_insert. case_decide; [|by apply Hm]. subst. intros [= <-]. apply Hnew.
Qed.

Lemma dispatch_events_every evs s :
  inv None ∅ s → cfg_ s = cfg → every P s → every P (dispatch_events time retries evs s).2.
Proof.
  revert s. induction evs as [|ev evs IH]; intros s Hi Hcfg Hm; [done|]. simpl dispatch_events. rewrite bind_run.
  destruct (dispatch_event_ok retries HK time Hclock ev s Hi) as [Hi1 Hf1].
  apply IH; [done|by rewrite (frame_cfg _ _ Hf1)|]. clear Hi1 Hf1. unfold dispatch_event. rewrite bind_run. cbn [fst snd get].
  destruct (callback <$> handlers_ s !! ev_fd ev) as [[|]|]; [|by apply on_conn_event_every|done].
  destruct (ev_readable ev); [|done]. by apply accept_loop_every.
Qed.

Context (layout : nat → gset bytes → list (list bytes)) (Hlayout : layout_ok layout).

Lemma tick_same s : conns_ (tick time layout s).2 = conns_ s ∧ cfg_ (tick time layout s).2 = cfg_ s.
Proof.
  rewrite tick_run. destruct (tick_ s); [|done]. rewrite on_tick_run. cbn [snd]. by destruct (k_shutdown (trace s)).
Qed.

Lemma iterate_every s :
  inv None ∅ s → cfg_ s = cfg → every P s →
  let s' := (iterate time layout retries s).2 in every P s' ∧ cfg_ s' = cfg.
Proof.
  intros Hi Hcfg Hm. unfold iterate. rewrite bind_run. cbn [fst snd get].
  rewrite bind_run. unfold sys_wait, sys. cbn [fst snd].
  set (s1 := record _ s). assert (inv None ∅ s1) as Hi1 by by apply inv_record.
  destruct (k_wait (trace s) _) as [evs|]; [|done]. rewrite bind_run.
  pose proof (dispatch_events_every evs s1 Hi1 Hcfg Hm) as Hm2.
  destruct (dispatch_events_ok retries HK time Hclock evs s1 Hi1) as [_ Hf2].
  rewrite bind_run. destruct (tick_same (dispatch_events time retries evs s1).2) as [Hc3 Hcfg3].
  rewrite bind_run. cbn [fst snd modify mret ST_ret]. split; [by apply (every_same _ _ Hc3 Hm2)|].
  simpl. by rewrite Hcfg3, (frame_cfg _ _ Hf2).
Qed.

Lemma run_loop_every n s :
  inv None ∅ s → cfg_ s = cfg → every P s →
  let s' := (run_loop time layout retries n s).2 in every P s' ∧ cfg_ s' = cfg.
Proof.
  revert s. induction n as [|n IH]; intros s Hi Hcfg Hm; [done|]. simpl run_loop.
  rewrite bind_run. cbn [fst snd get]. destruct (running_ s); [|done]. rewrite bind_run.
  pose proof (iterate_ok retries HK time Hclock layout Hlayout s Hi) as Hi1.
  destruct (iterate_every s Hi Hcfg Hm) as [Hm1 Hcfg1].
  destruct (iterate time layout retries s) as [[] s1]; cbn [fst snd] in *; [by apply IH|done].
Qed.

Lemma run_every n s :
  started s → cfg_ s = cfg → let s' := (run time layout retries n s).2 in every P s' ∧ cfg_ s' = cfg.
Proof.
  intros Hs Hcfg. unfold run. rewrite bind_run. cbn [snd modify]. apply (run_loop_every n (set_running true s)).
  - by eapply inv_ext; [by apply started_inv|..].
  - done.
  - intros fd c. simpl. by rewrite (started_conns _ Hs), lookup_empty.
Qed.
End Kept.
