(* ===== verification/Memory.v ===== *)
(** * What a connection may hold in memory

    Between events a connection that is not closing holds a bounded amount: the
    bytes it has received and not yet parsed are at most one argument, or one
    line, short of what the parser waits for; the replies waiting to be sent
    are within [max_output_buffer]; and the storage of its input buffer exceeds
    its contents by one read and one growth step at most. *)
From S2P Require Import Prelude Buffer Digits Inline Parser Stream Writer Keyspace Expire Commands.
From S2P Require Import Options Spec Refine Handlers Dispatch Linear Session Kernel Server Input ServerInv Events Conns.
Import Db (the_db, reads, mkWorld).

(** ** The parser never waits with more than it can use *)
Definition max_waiting (l : ProtocolLimits) : Z :=
  Z.max 64 (Z.max (max_inline_len l) (max_bulk_len l + 1)).

Lemma step_waits p (s s' : bytes) p' :
  parser_ok p → max_bulk_len (limits_ p) ≤ INT64_MAX - 2 →
  step p s = Return p' s' Incomplete → Z.of_nat (length s') ≤ max_waiting (limits_ p).
Proof.
  intros (Hl & _ & Hst & _) Hmax. unfold step, step_start, max_waiting. destruct (state_ p) eqn:E.
  - destruct (Nat.eqb_spec (readable s) 0) as [H0|H0].
    { intros [= _ <-]. change (readable s) with (length s) in H0. lia. }
    case_bool_decide.
    + unfold step_multibulk. destruct (find_crlf _).
      { destruct (string_to_int64 _); [|done]. by repeat case_match. }
      destruct (Nat.ltb_spec 64 (readable s)) as [H1|H1]; [done|]. intros [= _ <-].
      change (readable s) with (length s) in H1. lia.
    + unfold step_inline. destruct (memchr _ _); [by repeat case_match|].
      destruct (Z.ltb_spec (max_inline_len (limits_ p)) (Z.of_nat (readable s))) as [H1|H1]; [done|].
      intros [= _ <-]. change (readable s) with (length s) in H1. lia.
  - unfold step_arg_len. destruct (find_crlf _); [by repeat case_match|].
    destruct (Nat.ltb_spec 64 (readable s)) as [H1|H1]; [done|]. intros [= _ <-].
    change (readable s) with (length s) in H1. lia.
  - unfold step_arg_data. rewrite (u64_small (arg_len_ p)), u64_small by (mach; lia).
    destruct (Z.ltb_spec (Z.of_nat (readable s)) (arg_len_ p + 2)) as [H1|H1]; [|by repeat case_match].
    intros [= _ <-]. change (readable s) with (length s) in H1. lia.
Qed.

Lemma parse_waits p (s s' : bytes) p' :
  parser_ok p → max_bulk_len (limits_ p) ≤ INT64_MAX - 2 →
  parse p s = (p', s', Incomplete) → Z.of_nat (length s') ≤ max_waiting (limits_ p).
Proof.
  intros Hp. revert p s Hp. refine (parse_ind (λ p s, _ → parse p s = _ → _) _).
  intros p s Hp IH Hmax. rewrite parse_step by done. pose proof (step_ok p s Hp) as Hok.
  destruct (step p s) as [p1 s1 st|p1 s1] eqn:Es.
  - intros [= -> -> ->]. by eapply step_waits.
  - destruct Hok as (Hp1 & Hl & _). intros Hr. rewrite <-Hl. eapply IH; [done|done|by rewrite Hl|done].
Qed.

(** The parser only consumes: whatever [consume] keeps, it keeps. *)
Section Consumes.
Context {B : Type} `{!ByteQueue B} (R : B → B → Prop) `{!PreOrder R} (HR : ∀ n b, R b (consume n b)).

Definition turn_buffer (t : Turn B) : B := match t with Return _ b _ | Again _ b => b end.

Lemma step_consumes p (b : B) : R b (turn_buffer (step p b)).
Proof.
  assert (∀ n, R b (consume n b)) as Hc by auto. assert (R b b) as Hr by reflexivity.
  unfold step, step_start, step_multibulk, step_inline, step_arg_len, step_arg_data, fail.
  repeat case_match; first [apply Hc|apply Hr].
Qed.

Lemma parse_consumes p (b : B) : R b (parse p b).1.2.
Proof.
  unfold parse. generalize (S (readable b)). intros fuel.
  assert (∀ r, parse_loop fuel p b = Some r → R b r.1.2) as H.
  { revert p b. induction fuel as [|fuel IH]; intros p b r; [done|]. simpl.
    pose proof (step_consumes p b) as Hs. destruct (step p b) as [p1 b1 st|p1 b1]; [by intros [= <-]|].
    intros Hr. etrans; [exact Hs|by eapply IH]. }
  destruct (parse_loop fuel p b) as [r|]; [by apply H|]. simpl. reflexivity.
Qed.

Lemma process_loop_consumes time limit c w :
  R (in_ c) (in_ (process_loop time limit c w).1.1).
Proof.
  unfold process_loop. generalize (S (readable (in_ c))). intros fuel.
  assert (∀ r, input_loop time limit fuel c w = Some r → R (in_ c) (in_ r.1.1)) as H.
  { revert c w. induction fuel as [|fuel IH]; intros c w r; [done|]. simpl.
    pose proof (parse_consumes (parser c) (in_ c)) as Hp.
    destruct (parse (parser c) (in_ c)) as [[p i] st]. cbn [fst snd] in Hp.
    assert (∀ c', in_ c' = i → ∀ w', input_loop time limit fuel c' w' = Some r → R (in_ c) (in_ r.1.1)) as Hgo.
    { intros c' <- w' Hr. etrans; [exact Hp|by eapply IH]. }
    destruct st as [|argv|perr]; [by intros [= <-]| |by intros [= <-]].
    case_bool_decide; [by apply Hgo|]. destruct (close_after_reply _); [by intros [= <-]|].
    destruct (_ <? _); [by intros [= <-]|]. by apply Hgo. }
  destruct (input_loop time limit fuel c w) as [r|]; [by apply H|]. simpl. reflexivity.
Qed.
End Consumes.

(** ** What the loop leaves *)
Section Loop.
Context {B : Type} `{!ByteQueue B} `{!ByteQueueLaws B} (time : nat → Z) (Hclock : clock_ok time) (limit : Z).

Lemma input_loop_leaves fuel (c c' : Conn B) w w' :
  conn_pre c → store_ok (the_db w) → Z.of_nat (length (contents (out_ c))) ≤ limit →
  input_loop time limit fuel c w = Some (c', w', LoopBreak) → close_after_write c' = false →
  Z.of_nat (length (contents (in_ c'))) ≤ max_waiting default_limits ∧ Z.of_nat (length (contents (out_ c'))) ≤ limit.
Proof.
  revert c w. induction fuel as [|fuel IH]; intros c w [Hi Ho Hp Hl] Hok Hout Hrun Hcl; [done|]. simpl in Hrun.
  destruct (parse (parser c) (in_ c)) as [[p i] st] eqn:E.
  destruct (parse_contents _ _ _ _ _ Hi E) as [Hi' E'].
  pose proof (parse_ok (parser c) (contents (in_ c)) Hp) as Hcall. rewrite E' in Hcall.
  destruct Hcall as (Hp' & Hl' & _). rewrite Hl in Hl'. destruct st as [|argv|perr]; [|..|by simplify_eq/=].
  - simplify_eq/=. split; [|done]. rewrite <-Hl. eapply parse_waits; [done|by rewrite Hl|done].
  - case_bool_decide as Hne.
    { refine (IH (mkConn i (out_ c) p (close_after_write c) (write_armed c)) w _ _ _ Hrun Hcl); [by split|done|done]. }
    destruct (call_args_ok _ _ _ _ _ Hp Hl E' Hne) as (Hargs & _).
    destruct (dispatch_answers time Hclock (new_ctx argv (out_ c) w)) as (g & r & w1 & Hm & Hg & Hpr & _);
      [done|done|]. simpl in Hm, Hpr. destruct (Hg _ Ho) as [Hgo Hgc]. rewrite Hm in Hrun. simpl in Hrun.
    destruct (closes argv); [by simplify_eq/=|].
    destruct (Z.ltb_spec limit (Z.of_nat (readable (g (out_ c))))) as [Hlim|Hlim]; [by simplify_eq/=|].
    rewrite readable_contents in Hlim by done.
    refine (IH (mkConn i (g (out_ c)) p (close_after_write c) (write_armed c)) w1 _ _ _ Hrun Hcl);
      [by split|by apply Hpr|done].
Qed.
End Loop.

(** ** Storage *)
Lemma ensure_writable_capacity n b :
  Buffer.ok b →
  Z.of_nat (Buffer.capacity (Buffer.ensure_writable n b)) ≤
    Z.max (Z.of_nat (Buffer.capacity b)) (Z.of_nat (Buffer.readable b) + Z.of_nat n + Buffer.kDoublingLimit).
Proof.
  intros Hb. destruct (Buffer.compact_spec b Hb) as (_ & _ & _ & Hw & Hc). unfold Buffer.ensure_writable.
  destruct (n <=? Buffer.writable b)%nat; [lia|].
  destruct (n <=? Buffer.read_pos_ b + Buffer.writable b)%nat; [rewrite Hc; lia|].
  unfold Buffer.capacity in *. cbn [Buffer.data_]. rewrite length_app, length_replicate, Hw, Hc.
  set (want := Z.of_nat (Buffer.readable b) + Z.of_nat n).
  pose proof (Buffer.grow_bound (Buffer.grow_fuel want) want
    (Z.max (Z.of_nat (length (Buffer.data_ b))) Buffer.kInitialSize)) as H.
  unfold Buffer.kInitialSize, Buffer.kDoublingLimit in *. lia.
Qed.

Lemma store_capacity p b :
  (length p ≤ Buffer.writable b)%nat → Buffer.ok b →
  Buffer.capacity (Buffer.commit (length p) (Buffer.store p b)) = Buffer.capacity b.
Proof. unfold Buffer.ok, Buffer.writable, Buffer.capacity. intros Hp Hb. simpl. apply Buffer.length_write_at. lia. Qed.

Lemma process_loop_capacity time limit (c : BConn) w :
  Buffer.capacity (in_ (process_loop time limit c w).1.1) = Buffer.capacity (in_ c).
Proof.
  set (R := λ b b', Buffer.capacity b' = Buffer.capacity b).
  assert (PreOrder R) as HR by (split; [done|]; intros b b1 b2; unfold R; congruence).
  apply (process_loop_consumes R). intros n b. unfold R. simpl. unfold Buffer.consume. by destruct (_ <=? _)%nat.
Qed.

(** ** The bound *)
Definition max_storage : Z := max_waiting default_limits + Z.of_nat kReadChunk + Buffer.kDoublingLimit.

Record modest (limit : Z) (c : BConn) : Prop := {
  modest_in : Z.of_nat (Buffer.readable (in_ c)) ≤ max_waiting default_limits;
  modest_out : Z.of_nat (Buffer.readable (out_ c)) ≤ limit;
  modest_storage : Z.of_nat (Buffer.capacity (in_ c)) ≤ max_storage;
}.

Definition bounded (limit : Z) (c : BConn) : Prop := close_after_write c = false → modest limit c.

Definition memory_ok (s : Server) : Prop :=
  ∀ fd c, conns_ s !! fd = Some c → bounded (max_output_buffer (cfg_ s)) c.

Lemma new_conn_bounded limit : 0 ≤ limit → bounded limit new_conn.
Proof.
  intros Hl _. unfold max_storage, max_waiting, Buffer.kDoublingLimit. by split; simpl; try lia.
Qed.

Section Steps.
Context {KE : Kernel} (retries : nat) (HK : kernel_ok retries) (time : nat → Z) (Hclock : clock_ok time).

(** The connection [fd], if it is still there, is bounded. *)
Definition left_bounded (limit : Z) (fd : Z) (s' : Server) : Prop :=
  ∀ c', conns_ s' !! fd = Some c' → bounded limit c'.

Lemma flush_output_bounded X fd s c limit :
  inv (Some fd) X s → conns_ s !! fd = Some c → bounded limit c →
  left_bounded limit fd (flush_output retries fd s).2.
Proof.
  intros Hi Hc Hb c' Hc'. pose proof (flush_output_ok retries HK X fd s c Hi Hc) as H.
  pose proof (stable_flush_output timed retries fd s) as [_ (u & Hu & _)].
  destruct (flush_output retries fd s) as [[] s']; cbn [fst snd] in *.
  2: { destruct H as (_ & _ & E & _). by rewrite E, lookup_delete_eq in Hc'. }
  destruct H as [Hi' [(c1 & E & Hin & _ & Hcl & Hsent) _ _]].
  rewrite E, lookup_insert_eq in Hc'. injection Hc' as <-. intros Hfalse. rewrite Hcl in Hfalse.
  destruct (Hb Hfalse) as [H1 H2 H3]. split; [by rewrite Hin| |by rewrite Hin].
  assert (Buffer.ok (out_ c1)) as Hok1.
  { assert (conns_ s' !! fd = Some c1) as Hc1 by (rewrite E; apply lookup_insert_eq). apply (inv_pre _ _ _ Hi' _ _ Hc1). }
  assert (Buffer.ok (out_ c)) as Hok by apply (inv_pre _ _ _ Hi _ _ Hc).
  rewrite Hu, sent_app in Hsent. apply (f_equal length) in Hsent. rewrite !length_app in Hsent.
  rewrite !Buffer.length_to_string in Hsent by done. lia.
Qed.

Lemma process_input_bounded X fd s c :
  inv (Some fd) X s → conns_ s !! fd = Some c → 0 ≤ max_output_buffer (cfg_ s) →
  (close_after_write c = false → Z.of_nat (Buffer.readable (out_ c)) ≤ max_output_buffer (cfg_ s) ∧
     Z.of_nat (Buffer.capacity (in_ c)) ≤ max_storage) →
  left_bounded (max_output_buffer (cfg_ s)) fd (process_input time retries fd s).2.
Proof.
  intros Hi Hc Hpos Hb. rewrite (process_input_run retries time fd s c Hc).
  pose proof (inv_pre _ _ _ Hi _ _ Hc) as Hpre. pose proof (inv_store _ _ _ Hi) as Hst.
  pose proof (process_loop_ok time Hclock (max_output_buffer (cfg_ s)) c (db_ s) Hpre Hst) as Hp.
  pose proof (input_loop_process time Hclock (max_output_buffer (cfg_ s)) c (db_ s) Hpre Hst) as Hrun.
  pose proof (process_loop_capacity time (max_output_buffer (cfg_ s)) c (db_ s)) as Hcap.
  destruct (process_loop time _ c _) as [[c' w] e]. destruct Hp as (Hpre' & Hok & Ha & _ & Hcl).
  set (s1 := set_world w _). assert (inv (Some fd) X s1) as Hi1.
  { apply inv_world; [done|]. by apply (inv_put X s fd c). }
  assert (conns_ s1 !! fd = Some c') as Hc1 by apply lookup_insert_eq. cbv zeta. destruct e; cbn [snd].
  2: { destruct (close_conn_ok retries HK _ X s1 fd c' Hi1 Hc1) as (_ & _ & E & _); [by right|].
       intros c2. by rewrite E, lookup_delete_eq. }
  eapply flush_output_bounded; [done|done|]. intros Hfalse.
  assert (close_after_write c = false) as Hfalse0 by (destruct (close_after_write c); [by rewrite Hcl in Hfalse|done]).
  destruct (Hb Hfalse0) as [Hout Hstor].
  assert (Z.of_nat (length (contents (out_ c))) ≤ max_output_buffer (cfg_ s)) as Hout'.
  { rewrite <-readable_contents by apply Hpre. exact Hout. }
  destruct (input_loop_leaves time Hclock _ _ _ _ _ _ Hpre Hst Hout' Hrun Hfalse) as [H1 H2].
  rewrite <-readable_contents in H1, H2 by apply Hpre'. cbn [fst] in Hcap. split; [done|done|by rewrite Hcap].
Qed.

Lemma handle_read_bounded X fd s c :
  inv None X s → conns_ s !! fd = Some c → 0 ≤ max_output_buffer (cfg_ s) →
  bounded (max_output_buffer (cfg_ s)) c →
  left_bounded (max_output_buffer (cfg_ s)) fd (handle_read time retries fd s).2.
Proof.
  intros Hi Hc Hpos Hb. rewrite (handle_read_run retries time fd s c Hc). set (s1 := set_conns _ s).
  set (r := k_read (trace s) fd kReadChunk). set (s2 := record _ s1). cbv zeta.
  assert (∀ p, r = inr p → (length p ≤ kReadChunk)%nat) as Hlen by (intros p Hr; by eapply kernel_read).
  pose proof (inv_pre _ _ _ Hi _ _ Hc) as Hpre.
  assert (inv (Some fd) X s2) as Hi2 by by apply inv_reading.
  assert (conns_ s2 !! fd = Some (reading_conn c)) as Hc2 by apply lookup_insert_eq.
  destruct (received_conn_spec [] c Hpre) as (Hpr & _ & Hrc & _); [simpl; lia|].
  assert (Buffer.readable (in_ (reading_conn c)) = Buffer.readable (in_ c)) as Hsame.
  { change Buffer.readable with (@readable Buffer.Buffer _).
    rewrite !readable_contents by (apply Hpr || apply Hpre). by rewrite Hrc. }
  assert (bounded (max_output_buffer (cfg_ s)) (reading_conn c)) as Hb2.
  { intros Hf. destruct (Hb Hf) as [H1 H2 H3]. split; [by rewrite Hsame|done|].
    pose proof (ensure_writable_capacity kReadChunk (in_ c) (pre_in _ Hpre)) as Hcap.
    unfold max_storage in *. simpl. lia. }
  assert (left_bounded (max_output_buffer (cfg_ s)) fd s2) as Hstay by (intros c'; rewrite Hc2; by intros [= <-]).
  assert (left_bounded (max_output_buffer (cfg_ s)) fd (close_conn fd s2).2) as Hclose.
  { destruct (close_conn_ok retries HK _ X s2 fd _ Hi2 Hc2) as (_ & _ & E & _); [by right|].
    intros c'. by rewrite E, lookup_delete_eq. }
  destruct r as [[]|[|b p]] eqn:Er; cbn [snd]; try exact Hstay; try exact Hclose.
  destruct (received_conn_spec (b :: p) c Hpre) as (_ & Hrp & _ & _); [by apply Hlen|].
  set (s3 := set_conns _ s2). assert (inv (Some fd) X s3) as Hi3 by by apply (inv_put X s2 fd (reading_conn c)).
  change (cfg_ s) with (cfg_ s3). eapply (process_input_bounded X fd s3); [done|apply lookup_insert_eq|done|].
  intros Hf. destruct (Hb2 Hf) as [_ H2 H3]. split; [exact H2|]. unfold received_conn. cbn [in_ set_in].
  rewrite store_capacity; [exact H3| |apply Hpr].
  destruct (Buffer.ensure_writable_spec kReadChunk (in_ c) (pre_in _ Hpre)) as (_ & _ & Hw).
  specialize (Hlen _ eq_refl). cbn [in_ reading_conn set_in]. lia.
Qed.

Context (layout : nat → gset bytes → list (list bytes)) (Hlayout : layout_ok layout).

Lemma run_memory n s :
  started s → 0 ≤ max_output_buffer (cfg_ s) →
  let s' := (run time layout retries n s).2 in memory_ok s' ∧ cfg_ s' = cfg_ s.
Proof.
  intros Hs Hpos. set (P := λ (_ : Z), bounded (max_output_buffer (cfg_ s))).
  destruct (run_every retries HK time Hclock (cfg_ s) P) with (layout := layout) (n := n) (s := s) as [Hm Hcfg];
    [..|done|done|done|].
  - intros fd. by apply new_conn_bounded.
  - intros s1 fd c Hi Hcfg Hc Hb. rewrite <-Hcfg in Hpos. unfold P in *. rewrite <-Hcfg in *.
    by apply (handle_read_bounded ∅ fd s1 c).
  - intros s1 fd c Hi Hc Hb. by eapply flush_output_bounded.
  - split; [|done]. intros fd c Hc. rewrite Hcfg. by apply (Hm fd c).
Qed.
End Steps.
