(* ===== verification/Work.v ===== *)
(** * How much one iteration does

    The limits of [src/net/server.cpp] that keep one client from holding the
    thread: one [read] of [kReadChunk] bytes per report, and at most
    [kMaxAcceptsPerEvent] accepts.  [spent] adds up a weight over the calls of a
    method: how many reads of a connection, how many bytes, how many accepts. *)
From S2P Require Import Prelude Buffer Digits Inline Parser Stream Writer Keyspace Expire Commands.
From S2P Require Import Options Spec Refine Handlers Dispatch Linear Session Kernel Server Input ServerInv Events.

Abbreviation Weight := (Action → nat).

Definition tally (f : Weight) (t : Trace) : nat := sum_list_with f t.

Definition reads_from (fd : Z) : Weight := λ a, if a is ARead x _ then if x =? fd then 1%nat else 0%nat else 0%nat.

Definition bytes_from (fd : Z) : Weight := λ a, length (received_by fd a).

Definition accepting : Weight := λ a, if a is AAccept _ _ then 1%nat else 0%nat.

Lemma tally_bytes fd t : tally (bytes_from fd) t = length (received fd t).
Proof.
  unfold tally, received. induction t as [|a t IH]; [done|]. simpl. by rewrite length_app, IH.
Qed.

(** From [s] to [s'], calls of weight [n] at most. *)
Definition spent (f : Weight) (n : nat) (s s' : Server) : Prop :=
  ∃ u, trace s' = trace s ++ u ∧ (tally f u ≤ n)%nat.

Lemma spent_same f n s s' : trace s' = trace s → spent f n s s'.
Proof. intros E. exists []. rewrite app_nil_r. split; [done|simpl; lia]. Qed.

Lemma spent_trans f m n s s1 s2 : spent f m s s1 → spent f n s1 s2 → spent f (m + n) s s2.
Proof.
  intros (u & E1 & H1) (v & E2 & H2). exists (u ++ v). unfold tally in *.
  rewrite E2, E1, (assoc_L (++)), sum_list_with_app. split; [done|lia].
Qed.

Lemma spent_weaken f m n s s' : (m ≤ n)%nat → spent f m s s' → spent f n s s'.
Proof. intros Hmn (u & E & H). exists u. split; [done|lia]. Qed.

Lemma spent_record f n a s : (f a ≤ n)%nat → spent f n s (record a s).
Proof. intros H. exists [a]. split; [done|]. unfold tally. simpl. lia. Qed.

(** Costs add up along a computation. *)
Definition costs (f : Weight) (n : nat) {A} (m : M A) : Prop := respects (spent f n) m.

Lemma costs_bind f n m {A C} (x : M A) (k : A → M C) :
  costs f n x → (∀ a, costs f m (k a)) → costs f (n + m) (x ≫= k).
Proof. intros Hx Hk s. rewrite bind_run. eapply spent_trans; [apply Hx|apply Hk]. Qed.

Lemma costs_weaken f m n {A} (x : M A) : (m ≤ n)%nat → costs f m x → costs f n x.
Proof. intros Hmn Hx s. by eapply spent_weaken. Qed.

Lemma listener_callback f X s fd :
  inv f X s → callback <$> handlers_ s !! fd = Some ListenerCallback → fd = listen_fd_ s.
Proof.
  intros Hi Hcb. rewrite <-lookup_fmap, (inv_handlers _ _ _ Hi) in Hcb.
  assert (((λ _, ConnCallback) <$> conns_ s) !! fd ≠ Some ListenerCallback) as Hno.
  { rewrite lookup_fmap. by destruct (conns_ s !! fd). }
  destruct (listener_paused_ s); [done|]. rewrite lookup_insert in Hcb. by case_decide.
Qed.

(** ** Methods that cost nothing *)
#[local] Instance spent_preorder f : PreOrder (spent f 0).
Proof. split; [intros s; by apply spent_same|]. intros s s1 s2. apply (spent_trans f 0 0). Qed.

Section Free.
Context {KE : Kernel} (f : Weight) (retries : nat) (time : nat → Z).
Context (layout : nat → gset bytes → list (list bytes)).

(** Only reads and accepts have a weight. *)
Context (Hf : ∀ a, f a ≠ 0%nat → waits_on a ≠ None ∧ ∀ fd p r, a ≠ ASend fd p r).

Lemma weightless a : waits_on a = None ∨ (∃ fd p r, a = ASend fd p r) → (f a ≤ 0)%nat.
Proof. intros H. destruct (f a) eqn:E; [lia|]. destruct (Hf a) as [H1 H2]; [by rewrite E|]. naive_solver. Qed.

Lemma free_sys {A} (k : Trace → A) act : (∀ x, (f (act x) ≤ 0)%nat) → respects (spent f 0) (sys k act).
Proof. intros H s. apply spent_record, H. Qed.

Lemma free_add fd w cb : respects (spent f 0) (loop_add fd w cb).
Proof.
  intros s. rewrite loop_add_run.
  destruct (k_poll_add (trace s) fd w); cbn [snd]; [|apply spent_record, weightless; by left].
  apply (spent_record f 0 (APollAdd fd w true)), weightless. by left.
Qed.

Lemma free_remove fd : respects (spent f 0) (loop_remove fd).
Proof.
  intros s. unfold loop_remove. rewrite bind_run. cbn [fst snd get]. destruct (handlers_ s !! fd); [|reflexivity].
  rewrite bind_run. apply (spent_record f 0 (APollDel fd (k_poll_del (trace s) fd))), weightless. by left.
Qed.

Lemma free_the_conn fd : respects (spent f 0) (the_conn fd).
Proof. intros s. apply spent_same. unfold the_conn. by destruct (conns_ s !! fd). Qed.

Lemma free_put_conn fd c : respects (spent f 0) (put_conn fd c).
Proof. intros s. apply spent_same. unfold put_conn. by destruct (conns_ s !! fd). Qed.

Lemma free_modify g : (∀ s, trace (g s) = trace s) → respects (spent f 0) (modify g).
Proof. intros H s. apply spent_same, H. Qed.

#[local] Hint Resolve free_add free_remove free_the_conn free_put_conn : methods.
#[local] Hint Extern 1 (respects (spent _ 0) get) => apply respects_get; apply _ : methods.
#[local] Hint Extern 1 (respects (spent _ 0) (modify _)) => apply free_modify; by intros ? : methods.
#[local] Hint Extern 2 (respects (spent _ 0) _) =>
  progress unfold sys_send, sys_close, sys_open_null, sys_getfl, sys_setfl, sys_setopt, sys_poll_mod, sys_shutdown,
    loop_set_write_interest; apply free_sys; intros ?; apply weightless; by eauto 6 : methods.

Lemma free_reopen : respects (spent f 0) reopen_spare_fd.
Proof. unfold reopen_spare_fd. method. Qed.

Lemma free_pause : respects (spent f 0) pause_listener.
Proof. unfold pause_listener. method. Qed.

#[local] Hint Resolve free_reopen free_pause : methods.

Lemma free_resume : respects (spent f 0) resume_listener.
Proof. unfold resume_listener. method. Qed.

#[local] Hint Resolve free_resume : methods.

Lemma free_close fd : respects (spent f 0) (close_conn fd).
Proof. unfold close_conn. method. Qed.

Lemma free_add_connection fd : respects (spent f 0) (add_connection fd).
Proof. unfold add_connection, set_nonblocking, set_tcp_nodelay, suppress_sigpipe. method. Qed.

#[local] Hint Resolve free_close : methods.

Lemma free_flush_loop fuel fd : respects (spent f 0) (flush_loop fuel fd).
Proof. induction fuel as [|fuel IH]; simpl; method. Qed.

#[local] Hint Resolve free_flush_loop : methods.

Lemma free_flush_output fd : respects (spent f 0) (flush_output retries fd).
Proof. unfold flush_output. method. Qed.

#[local] Hint Resolve free_flush_output : methods.

Lemma free_process_input fd : respects (spent f 0) (process_input time retries fd).
Proof. unfold process_input. method. Qed.

Lemma free_tick : respects (spent f 0) (tick time layout).
Proof. unfold tick, on_tick. method. Qed.

#[local] Hint Resolve free_add_connection free_process_input : methods.

(** ** Methods that read or accept *)
Context (g : Z → nat) (a : nat).
Context (Hread : ∀ t fd, (f (ARead fd (k_read t fd kReadChunk)) ≤ g fd)%nat).
Context (Hacc : ∀ t l, (f (AAccept l (k_accept t l)) ≤ a)%nat).

Lemma cost_read fd : costs f (g fd) (handle_read time retries fd).
Proof.
  unfold handle_read. apply (costs_bind f 0); [apply free_the_conn|]. intros c. cbv zeta.
  apply (costs_bind f 0); [apply free_put_conn|]. intros _.
  apply (costs_weaken f (g fd + 0)); [lia|]. apply costs_bind; [intros s; apply spent_record, Hread|].
  unfold costs. method.
Qed.

Lemma cost_conn_event fd r w : costs f (g fd) (on_conn_event time retries fd r w).
Proof.
  unfold on_conn_event. apply (costs_bind f 0); [intros s; by apply spent_same|]. intros s.
  destruct (conns_ s !! fd); [|intros s'; by apply spent_same].
  apply (costs_weaken f (g fd + 0)); [lia|]. apply costs_bind; [|unfold costs; method].
  destruct r; [apply cost_read|intros s'; by apply spent_same].
Qed.

Lemma cost_accept l : costs f a (sys_accept l).
Proof. intros s. apply spent_record, Hacc. Qed.

Lemma cost_shed : costs f a shed_connection.
Proof.
  unfold shed_connection. apply (costs_bind f 0); [apply respects_get, _|]. intros s.
  apply (costs_weaken f (a + 0)); [lia|]. apply costs_bind; [|unfold costs; method].
  destruct (0 <=? spare_fd_ s); [|intros s'; by apply spent_same].
  apply (costs_bind f 0); [unfold costs; method|]. intros _. apply (costs_bind f 0); [unfold costs; method|]. intros _.
  apply (costs_weaken f (a + 0)); [lia|]. apply costs_bind; [apply cost_accept|]. unfold costs. method.
Qed.

Lemma cost_accept_loop n : costs f (n * a + a) (accept_loop n).
Proof.
  induction n as [|n IH]; cbn [accept_loop]; [intros s; by apply spent_same|].
  apply (costs_bind f 0 (S n * a + a)); [apply respects_get, _|]. intros s.
  apply (costs_weaken f (a + (n * a + a))); [cbn [Nat.mul]; lia|]. apply costs_bind; [apply cost_accept|].
  assert (costs f (n * a + a) (mret tt : M unit)) as Hret by (intros s'; by apply spent_same).
  assert (costs f (n * a + a) shed_connection) as Hshed by (apply (costs_weaken f a); [lia|apply cost_shed]).
  intros [[]|fd]; [exact Hret|exact IH|exact IH|exact Hshed|exact Hshed|exact Hret|].
  apply (costs_bind f 0); [apply free_add_connection|done].
Qed.

(** ** A batch *)
Definition cost_of (l : Z) (ev : PollEvent) : nat :=
  if ev_fd ev =? l then kMaxAcceptsPerEvent * a + a else g (ev_fd ev).

Context (HK : kernel_ok retries) (Hclock : clock_ok time).

Lemma cost_dispatch ev s :
  inv None ∅ s → spent f (cost_of (listen_fd_ s) ev) s (dispatch_event time retries ev s).2.
Proof.
  intros Hi. unfold dispatch_event. rewrite bind_run. cbn [fst snd get].
  destruct (callback <$> handlers_ s !! ev_fd ev) as [[|]|] eqn:Hcb; [..|by apply spent_same].
  - unfold cost_of. rewrite (listener_callback _ _ _ _ Hi Hcb), Z.eqb_refl.
    destruct (ev_readable ev); [|by apply spent_same]. apply cost_accept_loop.
  - unfold cost_of. destruct (Z.eqb_spec (ev_fd ev) (listen_fd_ s)) as [E|E]; [|apply cost_conn_event].
    unfold on_conn_event. rewrite bind_run. cbn [fst snd get].
    destruct (conns_ s !! ev_fd ev) as [c|] eqn:Hc; [|by apply spent_same].
    by destruct (inv_conn retries HK _ _ _ _ _ Hi Hc) as [? _].
Qed.

Lemma cost_dispatch_events evs s :
  inv None ∅ s → spent f (sum_list_with (cost_of (listen_fd_ s)) evs) s (dispatch_events time retries evs s).2.
Proof.
  revert s. induction evs as [|ev evs IH]; intros s Hi; [by apply spent_same|]. simpl. rewrite bind_run.
  destruct (dispatch_event_ok retries HK time Hclock ev s Hi) as [Hi1 Hf1].
  eapply spent_trans; [by apply cost_dispatch|]. rewrite <-(frame_listen _ _ Hf1). by apply IH.
Qed.

Lemma cost_iterate s :
  inv None ∅ s →
  let r := k_wait (trace s) (tick_interval_ms_ s) in
  ∃ u, trace (iterate time layout retries s).2 = trace s ++ AWait (tick_interval_ms_ s) r :: u ∧
    (tally f u ≤ sum_list_with (cost_of (listen_fd_ s)) (default [] r))%nat.
Proof.
  intros Hi r. unfold iterate. rewrite bind_run. cbn [fst snd get]. rewrite bind_run. unfold sys_wait, sys. cbn [fst snd].
  fold r. set (s1 := record _ s). assert (inv None ∅ s1) as Hi1 by by apply inv_record.
  destruct r as [evs|]; [|by exists []]. rewrite bind_run.
  destruct (cost_dispatch_events evs s1 Hi1) as (u & Eu & Hu).
  rewrite bind_run. destruct (free_tick (dispatch_events time retries evs s1).2) as (v & Ev & Hv).
  rewrite bind_run. cbn [fst snd modify mret ST_ret trace set_handlers]. exists (u ++ v). split.
  - rewrite Ev, Eu. unfold s1. simpl. by rewrite <-!(assoc_L (++)).
  - unfold tally in *. rewrite sum_list_with_app. simpl in *. lia.
Qed.
End Free.

(** ** Three weights *)
Definition reports (fd : Z) (evs : list PollEvent) : nat := length (filter (λ ev, ev_fd ev = fd) evs).

Lemma sum_reports (h : PollEvent → nat) fd n evs :
  (∀ ev, (h ev ≤ if (ev_fd ev =? fd)%Z then n else 0)%nat) → (sum_list_with h evs ≤ n * reports fd evs)%nat.
Proof.
  intros H. unfold reports. induction evs as [|ev evs IH]; [simpl; lia|]. simpl sum_list_with. rewrite filter_cons.
  specialize (H ev). destruct (Z.eqb_spec (ev_fd ev) fd); case_decide; try done; simpl length; lia.
Qed.

Lemma reports_once fd evs : NoDup (ev_fd <$> evs) → (reports fd evs ≤ 1)%nat.
Proof.
  unfold reports. induction evs as [|ev evs IH]; [simpl; lia|]. rewrite fmap_cons. intros [Hev Hnd]%NoDup_cons.
  rewrite filter_cons. case_decide as E; [|by apply IH].
  destruct (filter _ evs) as [|e es] eqn:Hf; [done|]. exfalso. apply Hev.
  assert (ev_fd e = fd ∧ e ∈ evs) as [He Hin]
    by (apply (list_elem_of_filter (λ ev, ev_fd ev = fd)); rewrite Hf; left).
  rewrite E, <-He. by apply list_elem_of_fmap_2.
Qed.

Section Fair.
Context {KE : Kernel} (retries : nat) (HK : kernel_ok retries) (time : nat → Z) (Hclock : clock_ok time).
Context (layout : nat → gset bytes → list (list bytes)).

Lemma iterate_fair s fd :
  inv None ∅ s → fd ≠ listen_fd_ s →
  let r := k_wait (trace s) (tick_interval_ms_ s) in
  ∃ u, trace (iterate time layout retries s).2 = trace s ++ AWait (tick_interval_ms_ s) r :: u ∧
    (tally (reads_from fd) u ≤ reports fd (default [] r))%nat ∧
    (length (received fd u) ≤ kReadChunk * reports fd (default [] r))%nat ∧
    (tally accepting u ≤ (kMaxAcceptsPerEvent + 1) * reports (listen_fd_ s) (default [] r))%nat.
Proof.
  intros Hi Hfd r.
  destruct (cost_iterate (reads_from fd) retries time layout ltac:(by intros []) (λ x, if x =? fd then 1%nat else 0%nat) 0
    ltac:(done) ltac:(done) HK Hclock s Hi) as (u & Eu & Hr).
  destruct (cost_iterate (bytes_from fd) retries time layout ltac:(by intros [])
    (λ x, if x =? fd then kReadChunk else 0%nat) 0) with (s := s) as (u2 & Eu2 & Hb); [|done..|].
  { intros t x. unfold bytes_from, received_by. destruct (k_read t x kReadChunk) as [e|p] eqn:E; [simpl; lia|].
    destruct (x =? fd); [by eapply kernel_read|simpl; lia]. }
  destruct (cost_iterate accepting retries time layout ltac:(by intros []) (λ _, 0%nat) 1
    ltac:(done) ltac:(done) HK Hclock s Hi) as (u3 & Eu3 & Ha).
  rewrite Eu in Eu2, Eu3. apply app_inv_head in Eu2 as [= <-]. apply app_inv_head in Eu3 as [= <-].
  exists u. rewrite tally_bytes in Hb. split_and!; [done|..].
  - etrans; [exact Hr|]. rewrite <-(Nat.mul_1_l (reports _ _)). apply sum_reports. intros ev. unfold cost_of.
    repeat case_match; lia.
  - etrans; [exact Hb|]. apply sum_reports. intros ev. unfold cost_of. repeat case_match; lia.
  - etrans; [exact Ha|]. apply sum_reports. intros ev. unfold cost_of. repeat case_match; lia.
Qed.
End Fair.
