(* ===== verification/Prompt.v ===== *)
(** * A client that keeps up

    If the kernel always has room for what is sent to a descriptor, nothing is
    ever pending for it between events: [flush_output]
    ([src/net/server.cpp]) is called whenever a reply was queued, and does not
    leave before the buffer is empty. *)
From S2P Require Import Prelude Buffer Digits Inline Parser Stream Writer Keyspace Expire Commands.
From S2P Require Import Options Spec Refine Handlers Dispatch Linear Session Kernel Server Input ServerInv Conns.

Section Prompt.
Context {KE : Kernel} (retries : nat) (HK : kernel_ok retries) (time : nat → Z) (Hclock : clock_ok time).
Context (fd : Z) (Hpeer : ∀ t p, k_send t fd p ≠ inl EAGAIN).

Definition dry (x : Z) (c : BConn) : Prop := x = fd → pending c = false.

Lemma gone_dry X x f s c :
  inv f X s → conns_ s !! x = Some c → f = None ∨ f = Some x → leaves dry x (close_conn x s).2.
Proof.
  intros Hi Hc Hf. destruct (close_conn_ok retries HK f X s x c Hi Hc Hf) as (_ & _ & E & _).
  intros c'. by rewrite E, lookup_delete_eq.
Qed.

(** The loop ends by closing, by emptying the buffer, or by running out. *)
Lemma flush_loop_drains fuel s c :
  conns_ s !! fd = Some c → let r := flush_loop fuel fd s in
  r.1 = true → fault r.2 = false → ∃ c', conns_ r.2 !! fd = Some c' ∧ pending c' = false.
Proof.
  revert s c. induction fuel as [|fuel IH]; intros s c Hc; cbv zeta;
    (destruct (pending c) eqn:Hp; [|rewrite (flush_loop_done _ _ _ c) by done; intros; by exists c]).
  - unfold pending in Hp. apply negb_true_iff in Hp. simpl. rewrite bind_run, (the_conn_run _ _ _ Hc). cbn [fst snd].
    by rewrite Hp.
  - rewrite (flush_loop_step _ _ _ c) by done. specialize (Hpeer (trace s) (Buffer.to_string (out_ c))).
    destruct (k_send _ fd _) as [[]|[|n]]; try done; [by apply (IH (record _ s) c)|].
    eapply IH. apply lookup_insert_eq.
Qed.

Lemma flush_output_dry X s c :
  inv (Some fd) X s → conns_ s !! fd = Some c → leaves dry fd (flush_output retries fd s).2.
Proof.
  intros Hi Hc. unfold flush_output. rewrite bind_run, (the_conn_run _ _ _ Hc). cbn [fst snd]. rewrite bind_run.
  pose proof (flush_loop_ok retries HK (Buffer.readable (out_ c) * S retries) X fd s c (trace s) 0 Hi Hc) as Hf.
  specialize (Hf ltac:(by rewrite app_nil_r) ltac:(lia) ltac:(lia)). unfold flush_result in Hf.
  pose proof (flush_loop_drains (Buffer.readable (out_ c) * S retries) s c Hc) as Hdry.
  destruct (flush_loop _ fd s) as [[] s1]; cbn [fst snd negb] in *.
  2: { destruct Hf as (_ & _ & E & _). intros c'. cbn [snd mret ST_ret]. by rewrite E, lookup_delete_eq. }
  destruct Hf as [Hi1 _]. destruct (Hdry eq_refl (inv_fault _ _ _ Hi1)) as (c1 & Hc1 & Hp).
  assert (leaves dry fd s1) as Hs1 by (intros c'; rewrite Hc1; intros [= <-] _; exact Hp).
  rewrite bind_run, (the_conn_run _ _ _ Hc1). cbn [fst snd]. pose proof Hp as Hz. unfold pending in Hz.
  apply negb_false_iff in Hz. rewrite Hz. destruct (close_after_write c1).
  { rewrite bind_run. by eapply gone_dry; [| |right]. }
  destruct (write_armed c1); [|done]. rewrite (set_interest_run retries HK X) by done.
  intros c'. cbn [snd mret ST_ret conns_ armed_state set_conns]. rewrite lookup_insert_eq. by intros [= <-] _.
Qed.

Lemma flush_output_keeps s x c :
  inv (Some x) ∅ s → conns_ s !! x = Some c → dry x c → leaves dry x (flush_output retries x s).2.
Proof.
  intros Hi Hc _. destruct (decide (x = fd)) as [->|Hne]; [by eapply flush_output_dry|intros c' _ Hx; by destruct Hne].
Qed.

Lemma process_input_dry X s c :
  inv (Some fd) X s → conns_ s !! fd = Some c → leaves dry fd (process_input time retries fd s).2.
Proof.
  intros Hi Hc. rewrite (process_input_run retries time fd s c Hc).
  pose proof (process_loop_ok time Hclock (max_output_buffer (cfg_ s)) c (db_ s)
    (inv_pre _ _ _ Hi _ _ Hc) (inv_store _ _ _ Hi)) as Hp.
  destruct (process_loop time _ c _) as [[c' w] e]. destruct Hp as (Hpre & Hok & Ha & _). cbv zeta.
  set (s1 := set_world w _). assert (inv (Some fd) X s1) as Hi1.
  { apply inv_world; [done|]. by apply (inv_put X s fd c). }
  assert (conns_ s1 !! fd = Some c') as Hc1 by apply lookup_insert_eq.
  destruct e; cbn [snd]; [by eapply flush_output_dry|]. eapply gone_dry; [done|done|by right].
Qed.

Lemma handle_read_keeps s x c :
  inv None ∅ s → conns_ s !! x = Some c → dry x c → leaves dry x (handle_read time retries x s).2.
Proof.
  intros Hi Hc Hd. destruct (decide (x = fd)) as [->|Hne]; [|intros c' _ Hx; by destruct Hne].
  rewrite (handle_read_run retries time fd s c Hc). set (r := k_read (trace s) fd kReadChunk). cbv zeta.
  set (s2 := record _ _). assert (conns_ s2 !! fd = Some (reading_conn c)) as Hc2 by apply lookup_insert_eq.
  assert (inv (Some fd) ∅ s2) as Hi2 by by apply inv_reading.
  assert (leaves dry fd s2) as Hstay by (intros c'; rewrite Hc2; intros [= <-]; exact Hd).
  assert (leaves dry fd (close_conn fd s2).2) as Hclose by by eapply gone_dry; [| |right].
  destruct r as [[]|[|b p]] eqn:Er; cbn [snd]; try exact Hstay; try exact Hclose.
  set (s3 := set_conns _ s2). eapply (process_input_dry ∅); [|apply lookup_insert_eq].
  destruct (received_conn_spec (b :: p) c) as (_ & Hpr & _ & _); [apply (inv_pre _ _ _ Hi _ _ Hc)|by eapply kernel_read|].
  by apply (inv_put ∅ s2 fd (reading_conn c)).
Qed.

Lemma run_dry layout n s :
  layout_ok layout → started s →
  ∀ c, conns_ (run time layout retries n s).2 !! fd = Some c → Buffer.readable (out_ c) = 0%nat.
Proof.
  intros Hlayout Hs c Hc.
  destruct (run_every retries HK time Hclock (cfg_ s) dry) with (layout := layout) (n := n) (s := s) as [Hm _];
    [|by intros; eapply handle_read_keeps|apply flush_output_keeps|done|done|done|].
  - by intros x _.
  - specialize (Hm fd c Hc eq_refl). unfold pending in Hm. by apply negb_false_iff, Nat.eqb_eq in Hm.
Qed.
End Prompt.
