(* ===== verification/Drain.v ===== *)
(** * A client that reads

    As long as the peer of a connection reads what is sent to it and sends
    nothing, every iteration of the loop sends a part of what is pending,
    whatever the other clients do, until nothing is left; and then the
    connection is closed if it was to be, and otherwise no longer watched for
    writing.  The methods are [flush_output] and [on_conn_event]
    ([src/net/server.cpp]). *)
From S2P Require Import Prelude Buffer Digits Inline Parser Stream Writer Keyspace Expire Commands.
From S2P Require Import Options Spec Refine Handlers Dispatch Linear Session Kernel Server Input Serial.
From S2P Require Import ServerInv Events ServerSerial Conns.

(** Since the last wait nothing was read from [fd] or sent to it. *)
Definition rested (fd : Z) (t : Trace) : Prop :=
  ∃ t0 a u, t = t0 ++ a :: u ∧ is_wait a = true ∧ Forall (silent_on fd) u.

(** The peer reads, and does not write: from [s] on, no [send] to it fails for
    good, and the first one after each wait takes something; while [fd] is
    watched for writing, every wait reports it ready for that alone; and nobody
    asks the server to stop. *)
Record patient_peer {KE : Kernel} (fd : Z) (s : Server) : Prop := {
  peer_send u p : p ≠ [] →
    match k_send (trace s ++ u) fd p with inr k => k ≠ 0%nat | inl e => e = EAGAIN ∨ e = EINTR end;
  peer_room u p : p ≠ [] → rested fd (trace s ++ u) → ∃ k, k_send (trace s ++ u) fd p = inr (S k);
  peer_reported u ms : watched (trace s ++ u) !! fd = Some true → ∃ evs e,
    k_wait (trace s ++ u) ms = Some evs ∧ NoDup (ev_fd <$> evs) ∧ mkPollEvent fd false true e ∈ evs;
  peer_running u : k_shutdown (trace s ++ u) = false;
}.

Section Drain.
Context {KE : Kernel} (retries : nat) (HK : kernel_ok retries) (time : nat → Z) (Hclock : clock_ok time).
Context (layout : nat → gset bytes → list (list bytes)) (Hlayout : layout_ok layout) (fd : Z).

Lemma patient_later s s' : (∃ u, trace s' = trace s ++ u) → patient_peer fd s → patient_peer fd s'.
Proof.
  intros [u Hu] [H1 H2 H3 H4]. split; intros v; rewrite Hu, <-(assoc_L (++)); [apply H1|apply H2|apply H3|apply H4].
Qed.

Lemma timed_extends s s' : timed s s' → ∃ u, trace s' = trace s ++ u.
Proof. intros [_ (u & Hu & _)]. by exists u. Qed.

Lemma silent_on_sent u : Forall (silent_on fd) u → sent fd u = [].
Proof.
  unfold sent. induction 1 as [|a u Ha _ IH]; [done|]. csimpl. rewrite IH, app_nil_r.
  destruct a as [| | | |fd' p [e|k]| | | | | | | | | | |]; try done. simpl in *.
  by destruct (Z.eqb_spec fd' fd).
Qed.

(** What one step does for the connection: it sends a part of what was pending
    and keeps the rest, or sends it all and closes. *)
Definition kept (c : BConn) (u : Trace) (s' : Server) : Prop := ∃ c', conns_ s' !! fd = Some c' ∧
  sent fd u ++ contents (out_ c') = contents (out_ c) ∧ in_ c' = in_ c ∧ parser c' = parser c ∧
  close_after_write c' = close_after_write c.

Definition finished (c : BConn) (u : Trace) : Prop :=
  close_after_write c = true ∧ AClose fd ∈ u ∧ contents (out_ c) `prefix_of` sent fd u.

Definition advanced (c : BConn) (s s' : Server) : Prop := ∃ u, trace s' = trace s ++ u ∧
  (kept c u s' ∧ sent fd u ≠ [] ∨ finished c u).

Lemma finished_app c u v : finished c u → finished c (u ++ v).
Proof.
  intros (H1 & H2 & H3). split_and!; [done|set_solver|]. rewrite sent_app. etrans; [exact H3|by apply prefix_app_r].
Qed.

(** *** The send loop *)
Lemma flush_loop_alive fuel s c :
  patient_peer fd s → conns_ s !! fd = Some c → Buffer.ok (out_ c) → (flush_loop fuel fd s).1 = true.
Proof.
  revert s c. induction fuel as [|fuel IH]; intros s c Hp Hc Ho;
    (destruct (pending c) eqn:Epd; [|by rewrite (flush_loop_done _ _ _ c)]).
  { simpl. rewrite bind_run, (the_conn_run _ _ _ Hc). cbn [fst snd]. unfold pending in Epd. apply negb_true_iff in Epd.
    by rewrite Epd. }
  rewrite (flush_loop_step _ _ _ c) by done. set (p := Buffer.to_string (out_ c)).
  assert (p ≠ []) as Hne.
  { unfold pending in Epd. apply negb_true_iff, Nat.eqb_neq in Epd. intros E. rewrite <-(Buffer.length_to_string (out_ c)) in Epd by done.
    fold p in Epd. by rewrite E in Epd. }
  pose proof (peer_send fd s Hp [] p Hne) as Hs. rewrite app_nil_r in Hs.
  destruct (k_send (trace s) fd p) as [e|[|k]]; [destruct Hs as [->| ->]|done|]; [done|..].
  - apply (IH (record _ s) c); [|done|done]. eapply patient_later; [|done]. by eexists.
  - eapply IH; [|apply lookup_insert_eq|].
    + eapply patient_later; [|done]. by eexists.
    + simpl. by apply Buffer.consume_spec.
Qed.

(** After a wait, at least one byte goes. *)
Lemma flush_loop_first fuel s c :
  patient_peer fd s → rested fd (trace s) → conns_ s !! fd = Some c → Buffer.ok (out_ c) → pending c = true →
  ∃ u, trace (flush_loop (S fuel) fd s).2 = trace s ++ u ∧ sent fd u ≠ [].
Proof.
  intros Hp Hr Hc Ho Epd. rewrite (flush_loop_step _ _ _ c) by done. set (p := Buffer.to_string (out_ c)).
  assert (p ≠ []) as Hne.
  { unfold pending in Epd. apply negb_true_iff, Nat.eqb_neq in Epd. intros E. rewrite <-(Buffer.length_to_string (out_ c)) in Epd by done.
    fold p in Epd. by rewrite E in Epd. }
  destruct (peer_room fd s Hp [] p Hne) as [k Hk]; [by rewrite app_nil_r|]. rewrite app_nil_r in Hk. rewrite Hk.
  set (s1 := set_conns _ _). destruct (timed_extends _ _ (stable_flush_loop timed fuel fd s1)) as [v Hv].
  exists (ASend fd p (inr (S k)) :: v). split; [by rewrite Hv; simpl; rewrite <-(assoc_L (++))|].
  unfold sent. csimpl. rewrite Z.eqb_refl. destruct p; done.
Qed.

Lemma close_conn_closes s : ∃ u, trace (close_conn fd s).2 = trace s ++ u ∧ AClose fd ∈ u ∧ sent fd u = [].
Proof.
  destruct (close_conn_silent fd s) as (u & Hu & Hs). exists u. split_and!; [done| |by apply silent_sent].
  revert Hu. unfold close_conn. rewrite bind_run.
  destruct (timed_extends _ _ (stable_remove (R := timed) fd s)) as [v1 Hv1]. set (s1 := (loop_remove fd s).2) in *.
  rewrite bind_run. unfold sys_close at 1, sys at 1. cbn [fst snd]. rewrite bind_run. cbn [fst snd modify].
  set (s2 := set_conns _ _). destruct (timed_extends _ _ (stable_resume timed s2)) as [v2 Hv2].
  rewrite Hv2. unfold s2. cbn [trace record set_conns]. rewrite Hv1, <-!(assoc_L (++)). intros E%app_inv_head. rewrite <-E. set_solver.
Qed.

Lemma flush_output_advances X s c :
  inv (Some fd) X s → patient_peer fd s → rested fd (trace s) → conns_ s !! fd = Some c → pending c = true →
  let r := flush_output retries fd s in
  advanced c s r.2 ∧ if r.1 then is_Some (conns_ r.2 !! fd) else True.
Proof.
  intros Hi Hp Hr Hc Epd. pose proof (inv_pre _ _ _ Hi _ _ Hc) as Hpre. pose proof (pre_out _ Hpre) as Hok.
  cbv zeta. unfold flush_output. rewrite bind_run, (the_conn_run _ _ _ Hc). cbn [fst snd]. rewrite bind_run.
  pose proof Epd as Hne. unfold pending in Hne. destruct (Buffer.readable (out_ c)) as [|m] eqn:Er; [done|].
  set (fuel := (S m * S retries)%nat). assert (fuel = S (retries + m * S retries)) as Hf by done.
  pose proof (flush_loop_ok retries HK fuel X fd s c (trace s) 0 Hi Hc) as Hres.
  specialize (Hres ltac:(by rewrite app_nil_r) ltac:(lia) ltac:(rewrite Er; unfold fuel; lia)). unfold flush_result in Hres.
  pose proof (flush_loop_alive fuel s c Hp Hc Hok) as Halive.
  destruct (flush_loop_first (retries + m * S retries) s c Hp Hr Hc Hok Epd) as (u & Hu & Hsome). rewrite <-Hf in Hu.
  destruct (flush_loop fuel fd s) as [[] s1]; [|done]. cbn [fst snd] in *. clear Halive.
  destruct Hres as [Hi1 [(o & Ho & Hoo & Hsent) _ _]]. rewrite Hu, sent_app, <-(assoc_L (++)) in Hsent. apply app_inv_head in Hsent.
  set (c1 := set_out o c) in *. assert (conns_ s1 !! fd = Some c1) as Hc1 by (rewrite Ho; apply lookup_insert_eq).
  cbn [negb]. rewrite bind_run, (the_conn_run _ _ _ Hc1). cbn [fst snd].
  assert (∀ c2 s2 v, trace s2 = trace s1 ++ v → sent fd v = [] → conns_ s2 !! fd = Some c2 → out_ c2 = o →
    in_ c2 = in_ c → parser c2 = parser c → close_after_write c2 = close_after_write c → advanced c s s2) as Hkeep.
  { intros c2 s2 v Hv Hsv Hc2 E1 E2 E3 E4. exists (u ++ v). rewrite Hv, Hu, (assoc_L (++)). split; [done|]. left.
    assert (sent fd (u ++ v) = sent fd u) as -> by (by rewrite sent_app, Hsv, app_nil_r). split; [|done].
    exists c2. split_and!; [done| |done|done|done]. rewrite sent_app, Hsv, app_nil_r, E1. exact Hsent. }
  assert (∀ w, advanced c s (armed_state fd w c1 s1) ∧ is_Some (conns_ (armed_state fd w c1 s1) !! fd)) as Harm.
  { intros w. assert (conns_ (armed_state fd w c1 s1) !! fd = Some (set_armed w c1)) as E by apply lookup_insert_eq.
    split; [|by eexists]. by apply (Hkeep (set_armed w c1) _ [APollMod fd w true]). }
  assert (advanced c s s1 ∧ is_Some (conns_ s1 !! fd)) as Hstay.
  { split; [|by eexists]. apply (Hkeep c1 _ []); try done. by rewrite app_nil_r. }
  destruct (Buffer.readable (out_ c1) =? 0)%nat eqn:E0.
  - destruct (close_after_write c1) eqn:Ecl.
    + rewrite bind_run. cbn [fst snd mret ST_ret]. split; [|done].
      destruct (close_conn_closes s1) as (v & Hv & Hin & Hsv). exists (u ++ v). rewrite Hv, Hu, (assoc_L (++)).
      split; [done|]. right. split_and!; [done|set_solver|]. rewrite sent_app, Hsv, app_nil_r.
      assert (Buffer.to_string o = []) as Eo.
      { apply nil_length_inv. rewrite Buffer.length_to_string by done. by apply Nat.eqb_eq. }
      rewrite Eo, app_nil_r in Hsent. by rewrite Hsent.
    + destruct (write_armed c1); [|exact Hstay]. rewrite (set_interest_run retries HK X) by done. apply Harm.
  - destruct (write_armed c1); cbn [negb]; [exact Hstay|]. rewrite (set_interest_run retries HK X) by done. apply Harm.
Qed.
(** *** The report, the batch, the iteration *)
Lemma conn_event_advances s c :
  inv None ∅ s → patient_peer fd s → rested fd (trace s) → conns_ s !! fd = Some c → pending c = true →
  advanced c s (on_conn_event time retries fd false true s).2.
Proof.
  intros Hi Hp Hr Hc Epd. unfold on_conn_event. rewrite bind_run. cbn [fst snd get]. rewrite Hc, bind_run.
  cbn [fst snd mret ST_ret negb]. rewrite bind_run, (the_conn_run _ _ _ Hc). cbn [fst snd].
  assert (negb (Buffer.empty (out_ c)) = true) as -> by exact Epd. cbn [andb]. rewrite bind_run.
  assert (inv (Some fd) ∅ s) as Hif by by apply inv_focus.
  pose proof (flush_output_ok retries HK ∅ fd s c Hif Hc) as Hok.
  destruct (flush_output_advances ∅ s c Hif Hp Hr Hc Epd) as [Ha Hs].
  destruct (flush_output retries fd s) as [[] s1]; cbn [fst snd negb] in *; [|exact Ha].
  destruct Hs as [c1 Hc1]. destruct Hok as [Hi1 _]. rewrite bind_run, (the_conn_run _ _ _ Hc1). cbn [fst snd].
  destruct (inv_settled _ _ _ Hi1 fd c1 Hc1 ltac:(done)) as [_ Hcl]. unfold pending in Hcl.
  destruct (close_after_write c1) eqn:E; [|exact Ha]. unfold Buffer.empty. specialize (Hcl eq_refl).
  apply negb_true_iff in Hcl. rewrite Hcl. exact Ha.
Qed.

Lemma untouched_extends s s' : untouched fd s s' → ∃ u, trace s' = trace s ++ u.
Proof. intros (_ & _ & u & Hu & _). by exists u. Qed.

Lemma advanced_before c s s1 s2 :
  untouched fd s s1 → advanced c s1 s2 → advanced c s s2.
Proof.
  intros (_ & _ & u & Hu & Hs) (v & Hv & Ha). exists (u ++ v). rewrite Hv, Hu, (assoc_L (++)). split; [done|].
  unfold kept, finished in *. rewrite sent_app, silent_on_sent by done. cbn [app].
  destruct Ha as [Ha|(H1 & H2 & H3)]; [by left|right]. split_and!; [done|set_solver|done].
Qed.

(** What comes after leaves it as it is, unless it is closed. *)
Lemma advanced_after c s s1 s2 :
  advanced c s s1 → (∃ u, trace s2 = trace s1 ++ u) → (is_Some (conns_ s1 !! fd) → untouched fd s1 s2) →
  advanced c s s2.
Proof.
  intros (u & Hu & Ha) [w Hw] Hun. destruct Ha as [[(c1 & Hc1 & Hs1 & Hrest) Hne]|Hf].
  - destruct (Hun ltac:(by eexists)) as (_ & Hc & v & Hv & Hsv). exists (u ++ v). rewrite Hv, Hu, (assoc_L (++)).
    split; [done|left]. assert (sent fd (u ++ v) = sent fd u) as E by by rewrite sent_app, (silent_on_sent v), app_nil_r.
    unfold kept. rewrite E. split; [|done]. exists c1. by rewrite Hc.
  - exists (u ++ w). rewrite Hw, Hu, (assoc_L (++)). split; [done|right]. by apply finished_app.
Qed.

Lemma dispatch_events_cons ev evs s :
  (dispatch_events time retries (ev :: evs) s).2 =
    (dispatch_events time retries evs (dispatch_event time retries ev s).2).2.
Proof. simpl dispatch_events. by rewrite bind_run. Qed.

Lemma dispatch_events_app l1 l2 s :
  (dispatch_events time retries (l1 ++ l2) s).2 =
    (dispatch_events time retries l2 (dispatch_events time retries l1 s).2).2.
Proof. revert s. induction l1 as [|ev l1 IH]; intros s; [done|]. rewrite <-app_comm_cons, !dispatch_events_cons. apply IH. Qed.

Lemma batch_advances evs e s c :
  inv None ∅ s → patient_peer fd s → rested fd (trace s) → conns_ s !! fd = Some c → pending c = true →
  NoDup (ev_fd <$> evs) → mkPollEvent fd false true e ∈ evs →
  advanced c s (dispatch_events time retries evs s).2.
Proof.
  intros Hi Hp Hr Hc Epd Hnd Hin. apply list_elem_of_split in Hin as (l1 & l2 & ->).
  rewrite fmap_app, fmap_cons in Hnd. apply NoDup_app in Hnd as (_ & Hd & Hnd). apply NoDup_cons in Hnd as [Hn2 _].
  cbn [ev_fd] in *. assert (fd ∉ ev_fd <$> l1) as Hn1 by (intros Hin; apply (Hd _ Hin); by left).
  rewrite dispatch_events_app, dispatch_events_cons.
  assert (fd ∈ dom (conns_ s)) as Hfd by (apply elem_of_dom; by eexists).
  pose proof (dispatch_events_untouched retries HK time Hclock l1 s fd Hi Hfd Hn1) as H1.
  destruct (dispatch_events_ok retries HK time Hclock l1 s Hi) as [Hi1 _].
  set (s1 := (dispatch_events time retries l1 s).2) in *.
  assert (conns_ s1 !! fd = Some c) as Hc1 by (destruct H1 as (_ & -> & _); done).
  apply (advanced_before c s s1); [done|].
  assert (advanced c s1 (dispatch_event time retries (mkPollEvent fd false true e) s1).2) as H2.
  { unfold dispatch_event. rewrite bind_run. cbn [fst snd get ev_fd ev_readable ev_writable].
    destruct (inv_conn retries HK _ _ _ _ _ Hi1 Hc1) as (_ & (r & Hr1 & Hcb) & _). rewrite Hr1.
    cbn [fmap option_fmap option_map]. rewrite Hcb. apply conn_event_advances; [done| | |done|done].
    - eapply patient_later; [|done]. by apply untouched_extends.
    - destruct H1 as (_ & _ & v & Hv & Hsv), Hr as (t0 & a & u & Ht & Ha & Hu). exists t0, a, (u ++ v).
      rewrite Hv, Ht, <-(assoc_L (++)). split_and!; [done|done|by apply Forall_app]. }
  destruct (dispatch_event_ok retries HK time Hclock (mkPollEvent fd false true e) s1 Hi1) as [Hi2 _].
  eapply advanced_after; [exact H2| |].
  - exact (timed_extends _ _ (stable_dispatch_events timed time retries l2 _)).
  - intros [c2 Hc2]. apply dispatch_events_untouched; [done|done|done| |done]. apply elem_of_dom. by eexists.
Qed.

Lemma tick_untouched s : untouched fd s (tick time layout s).2.
Proof.
  rewrite tick_run. destruct (tick_ s); [|reflexivity]. rewrite on_tick_run.
  destruct (k_shutdown (trace s)); (split_and!; [done|done|]; eexists [_]; split; [done|by repeat constructor]).
Qed.

Lemma iterate_advances s c :
  inv None ∅ s → running_ s = true → patient_peer fd s → conns_ s !! fd = Some c → pending c = true →
  let r := iterate time layout retries s in r.1 = true ∧ running_ r.2 = true ∧ advanced c s r.2.
Proof.
  intros Hi Hrun Hp Hc Epd. destruct (inv_settled _ _ _ Hi fd c Hc ltac:(done)) as [Harm _].
  destruct (inv_conn retries HK _ _ _ _ _ Hi Hc) as (_ & _ & Hw). rewrite Harm, Epd in Hw.
  destruct (peer_reported fd s Hp [] (tick_interval_ms_ s)) as (evs & e & Hwait & Hnd & Hin); [by rewrite app_nil_r|].
  rewrite app_nil_r in Hwait. unfold iterate. rewrite bind_run. cbn [fst snd get].
  rewrite bind_run. unfold sys_wait, sys. cbn [fst snd]. rewrite Hwait. set (s1 := record _ s).
  assert (inv None ∅ s1) as Hi1 by by apply inv_record.
  assert (patient_peer fd s1) as Hp1 by (eapply patient_later; [by eexists|done]). rewrite bind_run.
  destruct (dispatch_events_ok retries HK time Hclock evs s1 Hi1) as [Hi2 Hf2].
  assert (advanced c s1 (dispatch_events time retries evs s1).2) as Ha.
  { eapply batch_advances; try done. eexists (trace s), _, []. by split_and!. }
  pose proof (timed_extends _ _ (stable_dispatch_events timed time retries evs s1)) as Hext2.
  set (s2 := (dispatch_events time retries evs s1).2) in *.
  pose proof (peer_running fd s2 (patient_later _ _ Hext2 Hp1) []) as Hflag. rewrite app_nil_r in Hflag.
  rewrite bind_run, bind_run. cbn [fst snd modify mret ST_ret]. split_and!; [done| |].
  - cbn [running_ set_handlers]. rewrite tick_run.
    assert (running_ s2 = true) as Hr2 by (etrans; [apply (frame_running _ _ Hf2)|exact Hrun]).
    destruct (tick_ s2); [|done].
    destruct (on_tick_ok time layout Hlayout None ∅ s2 Hi2) as (_ & _ & _ & Hr). by rewrite Hr.
  - assert (advanced c s1 (tick time layout s2).2) as (u & Hu & Hau).
    { eapply advanced_after; [exact Ha|by apply untouched_extends, tick_untouched|intros _; apply tick_untouched]. }
    eexists (_ :: u). cbn [trace set_handlers]. rewrite Hu. unfold s1. cbn [trace record].
    rewrite <-(assoc_L (++)). split; [done|]. unfold kept, finished in *. cbn [conns_ set_handlers].
    destruct Hau as [Hk|(H1 & H2 & H3)]; [by left|right]. split_and!; [done|set_solver|done].
Qed.

(** *** To the end *)
Lemma advanced_trans c s c1 s1 s2 u v :
  trace s1 = trace s ++ u → kept c u s1 → conns_ s1 !! fd = Some c1 →
  trace s2 = trace s1 ++ v → kept c1 v s2 ∨ finished c1 v →
  trace s2 = trace s ++ u ++ v ∧ (kept c (u ++ v) s2 ∨ finished c (u ++ v)).
Proof.
  intros Hu (c1' & Hc1' & Hs1 & Hi1 & Hp1 & Hcl1) Hc1 Hv Hk. rewrite Hc1 in Hc1'. injection Hc1' as <-.
  split; [by rewrite Hv, Hu, <-(assoc_L (++))|]. destruct Hk as [(c2 & Hc2 & Hs2 & Hi2 & Hp2 & Hcl2)|(H1 & H2 & H3)].
  - left. exists c2. rewrite sent_app, <-(assoc_L (++)), Hs2. split_and!; [done|done|congruence..].
  - right. split_and!; [congruence|set_solver|]. rewrite <-Hs1, sent_app. by apply prefix_app.
Qed.

Lemma run_loop_drains b s c :
  inv None ∅ s → running_ s = true → patient_peer fd s → conns_ s !! fd = Some c → (Buffer.readable (out_ c) ≤ b)%nat →
  ∃ k u, (k ≤ b)%nat ∧ let s' := (run_loop time layout retries k s).2 in trace s' = trace s ++ u ∧
    (kept c u s' ∧ (∀ c', conns_ s' !! fd = Some c' → pending c' = false) ∨ finished c u).
Proof.
  revert s c. induction b as [|b IH]; intros s c Hi Hrun Hp Hc Hb.
  all: destruct (pending c) eqn:Epd;
    [|exists 0%nat, []; split; [lia|]; split; [by rewrite app_nil_r|left; split;
      [by exists c|intros c'; cbn; rewrite Hc; by intros [= <-]]]].
  { unfold pending in Epd. destruct (Buffer.readable (out_ c)); [done|lia]. }
  destruct (iterate_advances s c Hi Hrun Hp Hc Epd) as (H1 & H2 & u & Hu & Ha).
  pose proof (iterate_ok retries HK time Hclock layout Hlayout s Hi) as Hi1.
  assert (∀ k, (run_loop time layout retries (S k) s).2 = (run_loop time layout retries k (iterate time layout retries s).2).2) as Hstep.
  { intros k. simpl run_loop. rewrite bind_run. cbn [fst snd get]. rewrite Hrun, bind_run. by rewrite H1. }
  set (s1 := (iterate time layout retries s).2) in *.
  destruct Ha as [[Hk Hne]|Hf]; [|exists 1%nat, u; split; [lia|]; cbv zeta; rewrite Hstep; split; [exact Hu|by right]].
  pose proof Hk as (c1 & Hc1 & Hs1 & _).
  destruct (IH s1 c1 Hi1 H2) as (k & v & Hk1 & Hv & Hr); [|done| |].
  - eapply patient_later; [|done]. by exists u.
  - apply (f_equal length) in Hs1. rewrite length_app in Hs1.
    assert (length (sent fd u) ≠ 0)%nat by (intros E; by apply Hne, nil_length_inv).
    change Buffer.readable with (@readable Buffer.Buffer _) in *.
    rewrite !readable_contents in * by (apply (inv_pre _ _ _ Hi _ _ Hc) || apply (inv_pre _ _ _ Hi1 _ _ Hc1)). lia.
  - exists (S k), (u ++ v). split; [lia|]. cbv zeta. rewrite Hstep.
    destruct (advanced_trans c s c1 s1 _ u v Hu Hk Hc1 Hv) as [E Hend].
    { destruct Hr as [[? _]|?]; [by left|by right]. }
    split; [exact E|]. destruct Hend as [Hend|?]; [|by right]. destruct Hr as [[_ Hr]|Hr]; [by left|right].
    destruct Hk as (c1' & Hc1' & Hs1' & _ & _ & Hcl). rewrite Hc1 in Hc1'. injection Hc1' as <-.
    destruct Hr as (F1 & F2 & F3). split_and!; [congruence|set_solver|]. rewrite <-Hs1', sent_app. by apply prefix_app.
Qed.
End Drain.
