(* ===== verification/Poller.v ===== *)
(** * The readiness pollers

    [src/net/poller_epoll.cpp] and [src/net/poller_kqueue.cpp]: how each
    backend turns the kernel's reports into [PollEvent]s, and how its event
    buffer grows.  The kernel's answer is an argument. *)
From S2P Require Import Prelude Kernel.

(** ** Both backends *)
Definition kInitialEventCapacity : nat := 64.

Definition kMaxEventCapacity : nat := 4096.

(** The end of [wait]: a full buffer is doubled, up to the limit. *)
Definition grow_events (n capacity : nat) : nat :=
  if (n =? capacity)%nat && (capacity <? kMaxEventCapacity)%nat then capacity * 2 else capacity.

(** ** epoll *)
Module Epoll.
Definition EPOLLIN : Z := 1.

Definition EPOLLOUT : Z := 4.

Definition EPOLLERR : Z := 8.

Definition EPOLLHUP : Z := 16.

Definition EPOLLRDHUP : Z := 8192.

Record epoll_event := mkEpollEvent { events : Z; data_fd : Z }.

Definition interest_mask (want_write : bool) : Z :=
  let m := Z.lor EPOLLIN EPOLLRDHUP in
  if want_write then Z.lor m EPOLLOUT else m.

Definition to_event (e : epoll_event) : PollEvent :=
  let readable := negb (Z.land (events e) (Z.lor EPOLLIN EPOLLRDHUP) =? 0) in
  let writable := negb (Z.land (events e) EPOLLOUT =? 0) in
  let error := negb (Z.land (events e) (Z.lor EPOLLERR EPOLLHUP) =? 0) in
  mkPollEvent (data_fd e) (if error then true else readable) writable error.

(** [wait]: the events, or [None] for the result -1; and the new capacity. *)
Definition wait (answer : errno + list epoll_event) (capacity : nat) : option (list PollEvent) * nat :=
  match answer with
  | inl e => (if bool_decide (e = EINTR) then Some [] else None, capacity)
  | inr es => (Some (to_event <$> es), grow_events (length es) capacity)
  end.

(** The object: the descriptor [epoll_create1] gave, -1 for none, and the size
    of the event buffer.  The close-on-exec flag is left out: nothing is ever
    executed. *)
Record Impl := mkImpl { epfd : Z; capacity : nat }.

Definition new_poller (epoll_create1 : Z) : Impl := mkImpl epoll_create1 kInitialEventCapacity.

Definition valid (i : Impl) : bool := 0 <=? epfd i.

(** What the destructor closes. *)
Definition closes (i : Impl) : list Z := if 0 <=? epfd i then [epfd i] else [].

Definition backend_name : bytes := $"epoll".

Definition poll (answer : errno + list epoll_event) (i : Impl) : option (list PollEvent) * Impl :=
  let '(r, n) := wait answer (capacity i) in (r, mkImpl (epfd i) n).
End Epoll.

(** ** kqueue *)
Module Kqueue.
Definition EV_ERROR : Z := 16384.

Definition EV_EOF : Z := 32768.

Inductive Filter := EVFILT_READ | EVFILT_WRITE | EVFILT_OTHER (n : Z).

#[global] Instance Filter_eq_dec : EqDecision Filter.
Proof. solve_decision. Defined.

Record kevent := mkKevent { ident : Z; filter_ : Filter; flags : Z }.

(** [impl_->slot]: the index in [out] of the event of each descriptor, or -1. *)
Definition resize (slot : list Z) (n : nat) : list Z := slot ++ replicate (n - length slot) (-1).

(** What one report adds to the event of its descriptor. *)
Definition merge (e : kevent) (pe : PollEvent) : PollEvent :=
  let error := if negb (Z.land (flags e) EV_ERROR =? 0) then true else ev_error pe in
  let eof := negb (Z.land (flags e) EV_EOF =? 0) in
  let error := if eof then true else error in
  let readable := if eof then true else ev_readable pe in
  let readable := if bool_decide (filter_ e = EVFILT_READ) then true else readable in
  let writable := if bool_decide (filter_ e = EVFILT_WRITE) then true else ev_writable pe in
  mkPollEvent (ev_fd pe) (if error then true else readable) writable error.

(** One turn of the coalescing loop. *)
Definition coalesce_one (e : kevent) (acc : list Z * list PollEvent) : list Z * list PollEvent :=
  let '(slot, out) := acc in
  let fd := ident e in
  if fd <? 0 then acc
  else
    let slot := if Z.of_nat (length slot) <=? fd then resize slot (Z.to_nat fd + 1) else slot in
    let idx := default (-1) (slot !! Z.to_nat fd) in
    let '(idx, slot, out) :=
      if idx <? 0
      then (Z.of_nat (length out), <[Z.to_nat fd := Z.of_nat (length out)]> slot,
            out ++ [mkPollEvent fd false false false])
      else (idx, slot, out) in
    (slot, alter (merge e) (Z.to_nat idx) out).

Definition coalesce (es : list kevent) (acc : list Z * list PollEvent) : list Z * list PollEvent :=
  foldl (λ acc e, coalesce_one e acc) acc es.

(** [for (pe : out) slot[pe.fd] = -1]. *)
Definition clear_slots (out : list PollEvent) (slot : list Z) : list Z :=
  foldl (λ slot pe, <[Z.to_nat (ev_fd pe) := -1]> slot) slot out.

Definition wait (answer : errno + list kevent) (capacity : nat) (slot : list Z) :
    option (list PollEvent) * nat * list Z :=
  match answer with
  | inl e => (if bool_decide (e = EINTR) then Some [] else None, capacity, slot)
  | inr es =>
      let '(slot, out) := coalesce es (slot, []) in
      (Some out, grow_events (length es) capacity, clear_slots out slot)
  end.

(** The timespec of a timeout. *)
Definition timespec (timeout_ms : Z) : option (Z * Z) :=
  if 0 <=? timeout_ms then Some (Z.quot timeout_ms 1000, Z.rem timeout_ms 1000 * 1000000) else None.

(** The object, with its slot table. *)
Record Impl := mkImpl { kq : Z; capacity : nat; slots : list Z }.

Definition new_poller (kqueue : Z) : Impl := mkImpl kqueue kInitialEventCapacity [].

Definition valid (i : Impl) : bool := 0 <=? kq i.

Definition closes (i : Impl) : list Z := if 0 <=? kq i then [kq i] else [].

Definition backend_name : bytes := $"kqueue".

Definition poll (answer : errno + list kevent) (i : Impl) : option (list PollEvent) * Impl :=
  let '(r, n, slot) := wait answer (capacity i) (slots i) in (r, mkImpl (kq i) n slot).
End Kqueue.

(** A sequence of waits on one object. *)
Section Polls.
Context {A I : Type} (poll : A → I → option (list PollEvent) * I).

Fixpoint polls (answers : list A) (i : I) : list (option (list PollEvent)) * I :=
  match answers with
  | [] => ([], i)
  | a :: answers' =>
      let '(r, i1) := poll a i in
      let '(rs, i2) := polls answers' i1 in (r :: rs, i2)
  end.

(** What is true of each answer's result, and of the object throughout. *)
Lemma polls_ok (P : A → option (list PollEvent) → Prop) (J : I → Prop) answers i :
  (∀ a i, J i → P a (poll a i).1 ∧ J (poll a i).2) →
  J i → Forall2 P answers (polls answers i).1 ∧ J (polls answers i).2.
Proof.
  intros Hstep. revert i. induction answers as [|a answers IH]; intros i Hi; simpl; [by split; [constructor|]|].
  destruct (Hstep a i Hi) as [H1 H2]. destruct (poll a i) as [r i1].
  destruct (IH i1 H2) as [H3 H4]. destruct (polls answers i1) as [rs i2]. split; [by constructor|done].
Qed.
End Polls.

(** ** What a batch of reports says about a descriptor *)
Definition about (fd : Z) (es : list Kqueue.kevent) : list Kqueue.kevent :=
  filter (λ e, Kqueue.ident e = fd) es.

Definition says_error (e : Kqueue.kevent) : bool :=
  negb (Z.land (Kqueue.flags e) Kqueue.EV_ERROR =? 0) || negb (Z.land (Kqueue.flags e) Kqueue.EV_EOF =? 0).

Definition summary (fd : Z) (es : list Kqueue.kevent) : PollEvent :=
  mkPollEvent fd
    (existsb (λ e, bool_decide (Kqueue.filter_ e = Kqueue.EVFILT_READ) || says_error e) (about fd es))
    (existsb (λ e, bool_decide (Kqueue.filter_ e = Kqueue.EVFILT_WRITE)) (about fd es))
    (existsb says_error (about fd es)).

Lemma grow_events_bound n capacity :
  (capacity ≤ kMaxEventCapacity)%nat → (∃ k, capacity = kInitialEventCapacity * 2 ^ k)%nat →
  (capacity ≤ grow_events n capacity ≤ kMaxEventCapacity)%nat ∧
  (∃ k, grow_events n capacity = kInitialEventCapacity * 2 ^ k)%nat.
Proof.
  intros Hc [k Hk]. unfold grow_events.
  destruct ((n =? capacity)%nat && (capacity <? kMaxEventCapacity)%nat) eqn:E; [|split; [lia|by exists k]].
  split.
  - split; [lia|]. unfold kMaxEventCapacity, kInitialEventCapacity in *.
    assert (k < 6)%nat as Hk6.
    { destruct (decide (k < 6)%nat) as [|Hge]; [done|].
      pose proof (Nat.pow_le_mono_r 2 6 k ltac:(lia) ltac:(lia)). change (2 ^ 6)%nat with 64%nat in *. lia. }
    pose proof (Nat.pow_le_mono_r 2 k 5 ltac:(lia) ltac:(lia)). change (2 ^ 5)%nat with 32%nat in *. lia.
  - exists (S k). rewrite Hk. simpl. lia.
Qed.

(** ** The coalescing loop computes the summaries *)
Lemma existsb_mono {A} (p q : A → bool) (l : list A) :
  (∀ x, p x = true → q x = true) → existsb p l = true → existsb q l = true.
Proof. intros Hpq. rewrite !existsb_exists. intros (x & Hx & Hp). eauto. Qed.

Lemma summary_snoc fd es e :
  summary fd (es ++ [e]) =
    if decide (Kqueue.ident e = fd) then Kqueue.merge e (summary fd es) else summary fd es.
Proof.
  unfold summary, about. rewrite filter_app, filter_cons, filter_nil. case_decide as Hfd.
  2: by rewrite app_nil_r.
  rewrite !existsb_app. simpl. rewrite !orb_false_r. unfold Kqueue.merge. simpl.
  set (l := filter _ es). set (rd := existsb (λ e, _ || says_error e) l).
  assert (existsb says_error l = true → rd = true) as Hrd.
  { apply existsb_mono. intros x ->. apply orb_true_r. }
  set (er := existsb says_error l) in *. set (wr := existsb _ l).
  assert (says_error e = negb (Z.land (Kqueue.flags e) Kqueue.EV_ERROR =? 0)
                         || negb (Z.land (Kqueue.flags e) Kqueue.EV_EOF =? 0)) as -> by done.
  clearbody er rd wr. destruct er, rd; try (by specialize (Hrd eq_refl)); destruct wr;
    repeat case_bool_decide;
    destruct (Z.land (Kqueue.flags e) Kqueue.EV_ERROR =? 0), (Z.land (Kqueue.flags e) Kqueue.EV_EOF =? 0); done.
Qed.

(** The state of the loop after the reports [es]. *)
Record coalesced (es : list Kqueue.kevent) (slot : list Z) (out : list PollEvent) : Prop := {
  co_nodup : NoDup (ev_fd <$> out);
  co_in fd : fd ∈ ev_fd <$> out ↔ 0 ≤ fd ∧ about fd es ≠ [];
  co_event pe : pe ∈ out → pe = summary (ev_fd pe) es;
  co_slot fd : 0 ≤ fd →
    match slot !! Z.to_nat fd with
    | Some i => if i <? 0 then fd ∉ ev_fd <$> out else ev_fd <$> out !! Z.to_nat i = Some fd
    | None => fd ∉ ev_fd <$> out
    end;
}.

Definition clean (slot : list Z) : Prop := Forall (λ i, i = -1) slot.

Lemma coalesced_nil slot : clean slot → coalesced [] slot [].
Proof.
  intros Hs. split; simpl; [constructor|set_solver|set_solver|].
  intros fd Hfd. destruct (slot !! Z.to_nat fd) as [i|] eqn:E; [|set_solver].
  rewrite (Forall_lookup_1 _ _ _ _ Hs E). set_solver.
Qed.

Lemma resize_lookup slot fd i :
  0 ≤ fd → Kqueue.resize slot (Z.to_nat fd + 1) !! i =
    match slot !! i with Some x => Some x
    | None => if (i <=? Z.to_nat fd)%nat then Some (-1) else None end.
Proof.
  intros Hfd. unfold Kqueue.resize. destruct (slot !! i) as [x|] eqn:E; [by apply lookup_app_l_Some|].
  apply lookup_ge_None in E. rewrite lookup_app_r by done.
  destruct (Nat.leb_spec i (Z.to_nat fd)).
  - apply lookup_replicate_2. lia.
  - apply lookup_replicate_None. lia.
Qed.

Lemma about_snoc fd es e :
  about fd (es ++ [e]) ≠ [] ↔ about fd es ≠ [] ∨ Kqueue.ident e = fd.
Proof.
  unfold about. rewrite filter_app, filter_cons, filter_nil. case_decide as He.
  - split; [by right|]. intros _ H. by apply app_eq_nil in H as [_ [=]].
  - rewrite app_nil_r. tauto.
Qed.

Lemma fds_alter e (i : nat) (out : list PollEvent) : ev_fd <$> alter (Kqueue.merge e) i out = ev_fd <$> out.
Proof.
  apply list_eq. intros j. rewrite !list_lookup_fmap. destruct (decide (i = j)) as [->|Hne].
  - rewrite list_lookup_alter_eq. by destruct (out !! j).
  - by rewrite list_lookup_alter_ne.
Qed.

(** Events are the summaries up to date for every descriptor but [fd]'s,
    which [merge] brings up to date. *)
Lemma merge_event es e (out : list PollEvent) (i : nat) pe :
  NoDup (ev_fd <$> out) → (∀ pe, pe ∈ out → pe = summary (ev_fd pe) es) →
  out !! i = Some pe → ev_fd pe = Kqueue.ident e →
  ∀ pe', pe' ∈ alter (Kqueue.merge e) i out → pe' = summary (ev_fd pe') (es ++ [e]).
Proof.
  intros Hnd Hev Hi Hfd pe' [j Hj]%list_elem_of_lookup. rewrite summary_snoc.
  destruct (decide (i = j)) as [<-|Hne].
  - rewrite list_lookup_alter_eq, Hi in Hj. simplify_eq/=. rewrite decide_True by done.
    f_equal. rewrite Hfd. rewrite <-Hfd. apply Hev. by apply list_elem_of_lookup_2 in Hi.
  - rewrite list_lookup_alter_ne in Hj by done. rewrite decide_False.
    + apply Hev. by apply list_elem_of_lookup_2 in Hj.
    + intros He. apply Hne. apply (NoDup_lookup _ i j (ev_fd pe) Hnd); rewrite list_lookup_fmap.
      * by rewrite Hi.
      * rewrite Hj. simpl. congruence.
Qed.

Definition slot_ok (out : list PollEvent) (slot : list Z) : Prop :=
  ∀ fd, 0 ≤ fd →
    match slot !! Z.to_nat fd with
    | Some i => if i <? 0 then fd ∉ ev_fd <$> out else ev_fd <$> out !! Z.to_nat i = Some fd
    | None => fd ∉ ev_fd <$> out
    end.

Lemma slot_ok_resize out slot fd :
  0 ≤ fd → slot_ok out slot → slot_ok out (Kqueue.resize slot (Z.to_nat fd + 1)).
Proof.
  intros Hfd Hs f Hf. specialize (Hs f Hf). rewrite resize_lookup by done.
  destruct (slot !! Z.to_nat f) as [i|]; [done|]. by destruct (_ <=? _)%nat.
Qed.

(** The two cases of a turn: the first report of a descriptor, or a later one. *)
Lemma coalesce_first es e slot out :
  coalesced es slot out → 0 ≤ Kqueue.ident e → Kqueue.ident e ∉ ev_fd <$> out →
  (Z.to_nat (Kqueue.ident e) < length slot)%nat →
  coalesced (es ++ [e]) (<[Z.to_nat (Kqueue.ident e) := Z.of_nat (length out)]> slot)
    (alter (Kqueue.merge e) (length out) (out ++ [mkPollEvent (Kqueue.ident e) false false false])).
Proof.
  intros [Hnd Hin Hev Hslot] Hpos Hni Hlen. set (fd := Kqueue.ident e) in *.
  assert (about fd es = []) as Ha.
  { destruct (decide (about fd es = [])) as [|Hne]; [done|]. destruct Hni. by apply Hin. }
  assert (mkPollEvent fd false false false = summary fd es) as Hb by (unfold summary; by rewrite Ha).
  assert (NoDup (ev_fd <$> out ++ [mkPollEvent fd false false false])) as Hnd'.
  { rewrite fmap_app. apply NoDup_app. split_and!; [done|set_solver|apply NoDup_singleton]. }
  split.
  - by rewrite fds_alter.
  - intros f. rewrite fds_alter, about_snoc, fmap_app, elem_of_app, Hin. simpl.
    rewrite list_elem_of_singleton. fold fd. naive_solver lia.
  - eapply (merge_event es _ _ _ (mkPollEvent fd false false false)); [done| | |done].
    + intros pe. rewrite elem_of_app, list_elem_of_singleton. intros [?| ->]; [by apply Hev|done].
    + by rewrite lookup_app_r, Nat.sub_diag.
  - intros f Hf. rewrite fds_alter. destruct (decide (f = fd)) as [->|Hne].
    + rewrite list_lookup_insert_eq by done. replace (_ <? 0) with false by lia.
      rewrite <-list_lookup_fmap, fds_alter, fmap_app, Nat2Z.id.
      rewrite lookup_app_r, length_fmap, Nat.sub_diag; [done|by rewrite length_fmap].
    + rewrite list_lookup_insert_ne by lia. specialize (Hslot f Hf). rewrite fmap_app.
      destruct (slot !! Z.to_nat f) as [i|]; [|set_solver].
      destruct (i <? 0); [set_solver|]. rewrite <-list_lookup_fmap, fds_alter, fmap_app.
      rewrite <-list_lookup_fmap in Hslot. by apply lookup_app_l_Some.
Qed.

Lemma coalesce_again es e slot out i :
  coalesced es slot out → 0 ≤ Kqueue.ident e → 0 ≤ i →
  ev_fd <$> out !! Z.to_nat i = Some (Kqueue.ident e) →
  coalesced (es ++ [e]) slot (alter (Kqueue.merge e) (Z.to_nat i) out).
Proof.
  intros [Hnd Hin Hev Hslot] Hpos Hi Hout.
  destruct (out !! Z.to_nat i) as [pe|] eqn:Epe; [|done]. injection Hout as Hfd.
  assert (ev_fd pe ∈ ev_fd <$> out) as Hpe by (apply list_elem_of_fmap_2; by eapply list_elem_of_lookup_2).
  split.
  - by rewrite fds_alter.
  - intros f. rewrite fds_alter, about_snoc, Hin. split; [tauto|]. intros [? [?|He]]; [done|].
    apply Hin. by rewrite <-He, <-Hfd.
  - by eapply merge_event.
  - intros f Hf. rewrite fds_alter. specialize (Hslot f Hf).
    destruct (slot !! Z.to_nat f) as [j|]; [|done]. destruct (j <? 0); [done|].
    by rewrite <-list_lookup_fmap, fds_alter, list_lookup_fmap.
Qed.

Lemma coalesce_one_ok es e slot out :
  coalesced es slot out →
  let '(slot', out') := Kqueue.coalesce_one e (slot, out) in coalesced (es ++ [e]) slot' out'.
Proof.
  intros Hc. unfold Kqueue.coalesce_one.
  destruct (Z.ltb_spec (Kqueue.ident e) 0) as [Hneg|Hpos].
  { destruct Hc as [Hnd Hin Hev Hslot]. split; [done| | |done].
    - intros fd. rewrite Hin, about_snoc. split; [tauto|]. intros [? [?|?]]; [tauto|lia].
    - intros pe Hpe. rewrite summary_snoc, decide_False; [by apply Hev|].
      assert (ev_fd pe ∈ ev_fd <$> out) as [? _]%Hin by by apply list_elem_of_fmap_2. lia. }
  set (fd := Kqueue.ident e) in *. set (slot1 := if _ <=? _ then _ else _).
  assert (coalesced es slot1 out ∧ (Z.to_nat fd < length slot1)%nat) as [Hc1 Hlen].
  { unfold slot1. destruct (Z.leb_spec (Z.of_nat (length slot)) fd); [|split; [done|lia]]. split.
    - destruct Hc. split; try done. by apply (slot_ok_resize out slot fd).
    - unfold Kqueue.resize. rewrite length_app, length_replicate. lia. }
  clearbody slot1. clear Hc. destruct (lookup_lt_is_Some_2 slot1 _ Hlen) as [i Hi]. rewrite Hi. simpl.
  pose proof (co_slot _ _ _ Hc1 fd Hpos) as Hs. rewrite Hi in Hs.
  destruct (Z.ltb_spec i 0) as [Hi0|Hi0]; simpl.
  - rewrite Nat2Z.id. by apply coalesce_first.
  - by apply coalesce_again.
Qed.

Lemma coalesce_ok slot es :
  clean slot → let '(slot', out) := Kqueue.coalesce es (slot, []) in coalesced es slot' out.
Proof.
  intros Hs. induction es as [|e es IH] using rev_ind; [by apply coalesced_nil|].
  unfold Kqueue.coalesce in *. rewrite foldl_snoc. destruct (foldl _ _ es) as [slot' out].
  by apply (coalesce_one_ok es e slot' out).
Qed.

(** The slots are clean again for the next call. *)
Lemma coalesce_slots slot es :
  Forall (λ i, -1 ≤ i) slot → ∀ out, Forall (λ i, -1 ≤ i) (Kqueue.coalesce es (slot, out)).1.
Proof.
  revert slot. induction es as [|e es IH]; intros slot Hs out; [done|].
  unfold Kqueue.coalesce in *. simpl. destruct (_ <? 0); [by apply IH|].
  set (slot1 := if _ <=? _ then _ else _). assert (Forall (λ i, -1 ≤ i) slot1) as Hs1.
  { unfold slot1. destruct (_ <=? _); [|done]. apply Forall_app. split; [done|].
    apply Forall_replicate. lia. }
  destruct (default (-1) (slot1 !! _) <? 0); apply IH; [|done].
  apply Forall_insert; [done|lia].
Qed.

Lemma clear_slots_lookup out slot n i :
  Forall (λ pe, 0 ≤ ev_fd pe) out → Kqueue.clear_slots out slot !! n = Some i →
  i = -1 ∨ (slot !! n = Some i ∧ Z.of_nat n ∉ ev_fd <$> out).
Proof.
  intros Hout. revert slot. unfold Kqueue.clear_slots.
  induction Hout as [|pe out Hpe _ IH]; intros slot Hi; simpl in *; [right; set_solver|].
  destruct (IH _ Hi) as [->|[H1 H2]]; [by left|].
  apply list_lookup_insert_Some in H1 as [(? & ? & _)|[Hne H1]]; [left; congruence|].
  right. split; [done|]. rewrite not_elem_of_cons. split; [lia|done].
Qed.

Lemma clear_slots_clean es slot out :
  coalesced es slot out → Forall (λ i, -1 ≤ i) slot → clean (Kqueue.clear_slots out slot).
Proof.
  intros Hc Hs. apply Forall_lookup. intros n i Hi.
  assert (Forall (λ pe, 0 ≤ ev_fd pe) out) as Hout.
  { apply Forall_forall. intros pe Hpe.
    assert (ev_fd pe ∈ ev_fd <$> out) as Hin by by apply list_elem_of_fmap_2.
    by apply (co_in _ _ _ Hc) in Hin as [? _]. }
  destruct (clear_slots_lookup out slot n i Hout Hi) as [->|[H1 H2]]; [done|].
  pose proof (co_slot _ _ _ Hc (Z.of_nat n) ltac:(lia)) as Hslot. rewrite Nat2Z.id, H1 in Hslot.
  pose proof (Forall_lookup_1 _ _ _ _ Hs H1) as Hge. simpl in Hge.
  destruct (Z.ltb_spec i 0); [lia|]. destruct H2.
  rewrite <-list_lookup_fmap in Hslot. by eapply list_elem_of_lookup_2.
Qed.

(** [wait] on kqueue: one event per descriptor, the summary of its reports. *)
Lemma kqueue_wait_ok es capacity slot :
  clean slot →
  ∃ out capacity' slot', Kqueue.wait (inr es) capacity slot = (Some out, capacity', slot') ∧
    clean slot' ∧ NoDup (ev_fd <$> out) ∧
    (∀ fd, fd ∈ ev_fd <$> out ↔ 0 ≤ fd ∧ about fd es ≠ []) ∧
    (∀ pe, pe ∈ out → pe = summary (ev_fd pe) es).
Proof.
  intros Hs. unfold Kqueue.wait. pose proof (coalesce_ok slot es Hs) as Hc.
  pose proof (coalesce_slots slot es) as Hsl. specialize (Hsl ltac:(eapply Forall_impl; [exact Hs|]; simpl; lia) []).
  destruct (Kqueue.coalesce es (slot, [])) as [slot' out]. eexists _, _, _. split; [done|].
  split; [by eapply clear_slots_clean|]. by destruct Hc.
Qed.

(** ** Over the life of a poller *)
Definition capacity_ok (n : nat) : Prop :=
  (n ≤ kMaxEventCapacity)%nat ∧ ∃ k, (n = kInitialEventCapacity * 2 ^ k)%nat.

Lemma initial_capacity_ok : capacity_ok kInitialEventCapacity.
Proof. split; [unfold kInitialEventCapacity, kMaxEventCapacity; lia|by exists 0%nat]. Qed.

Lemma grow_events_ok n capacity : capacity_ok capacity → capacity_ok (grow_events n capacity).
Proof. intros [H1 H2]. destruct (grow_events_bound n capacity H1 H2) as [[_ ?] ?]. by split. Qed.

(** An interrupted wait is no event, any other error is reported. *)
Definition failed_wait (e : errno) : option (list PollEvent) := if bool_decide (e = EINTR) then Some [] else None.

(** What the reports [es] come out as: one event per descriptor. *)
Definition merged (es : list Kqueue.kevent) (out : list PollEvent) : Prop :=
  NoDup (ev_fd <$> out) ∧ (∀ fd, fd ∈ ev_fd <$> out ↔ 0 ≤ fd ∧ about fd es ≠ []) ∧
  ∀ pe, pe ∈ out → pe = summary (ev_fd pe) es.

Definition kqueue_result (a : errno + list Kqueue.kevent) (r : option (list PollEvent)) : Prop :=
  match a with
  | inl e => r = failed_wait e
  | inr es => ∃ out, r = Some out ∧ merged es out
  end.

(** epoll's bits: 0 and 13 are EPOLLIN and EPOLLRDHUP, 2 is EPOLLOUT, 3 and 4
    are EPOLLERR and EPOLLHUP. *)
Definition translated (e : Epoll.epoll_event) (pe : PollEvent) : Prop :=
  let bit k := Z.testbit (Epoll.events e) k in
  ev_fd pe = Epoll.data_fd e ∧ ev_writable pe = bit 2 ∧ ev_error pe = bit 3 || bit 4 ∧
  ev_readable pe = bit 0 || bit 13 || ev_error pe.

Lemma land_pow2 x k : 0 ≤ k → negb (Z.land x (2 ^ k) =? 0) = Z.testbit x k.
Proof.
  intros Hk. destruct (Z.eqb_spec (Z.land x (2 ^ k)) 0) as [E|E]; simpl; symmetry.
  - apply (f_equal (λ z, Z.testbit z k)) in E. rewrite Z.land_spec, Z.pow2_bits_true, Z.bits_0, andb_true_r in E by done.
    done.
  - destruct (Z.testbit x k) eqn:Ex; [done|]. destruct E. apply Z.bits_inj'. intros n Hn.
    rewrite Z.land_spec, Z.pow2_bits_eqb, Z.bits_0 by done. destruct (Z.eqb_spec k n) as [<-|]; [by rewrite Ex|apply andb_false_r].
Qed.

Lemma land_two x j k : 0 ≤ j → 0 ≤ k → negb (Z.land x (Z.lor (2 ^ j) (2 ^ k)) =? 0) = Z.testbit x j || Z.testbit x k.
Proof.
  intros Hj Hk. rewrite Z.land_lor_distr_r, <-(land_pow2 x j), <-(land_pow2 x k), <-negb_andb by done. f_equal.
  apply Bool.eq_iff_eq_true. rewrite andb_true_iff, !Z.eqb_eq. apply Z.lor_eq_0_iff.
Qed.

Lemma to_event_translated e : translated e (Epoll.to_event e).
Proof.
  unfold translated, Epoll.to_event. cbn [ev_fd ev_writable ev_error ev_readable].
  pose proof (land_two (Epoll.events e) 0 13) as H1. pose proof (land_two (Epoll.events e) 3 4) as H2.
  pose proof (land_pow2 (Epoll.events e) 2) as H3.
  change (Z.lor Epoll.EPOLLIN Epoll.EPOLLRDHUP) with (Z.lor (2 ^ 0) (2 ^ 13)).
  change (Z.lor Epoll.EPOLLERR Epoll.EPOLLHUP) with (Z.lor (2 ^ 3) (2 ^ 4)). change Epoll.EPOLLOUT with (2 ^ 2).
  rewrite H1, H2, H3 by done. split_and!; [done..|]. destruct (_ || Z.testbit _ 4); [by rewrite orb_true_r|by rewrite orb_false_r].
Qed.

Definition epoll_result (a : errno + list Epoll.epoll_event) (r : option (list PollEvent)) : Prop :=
  match a with
  | inl e => r = failed_wait e
  | inr es => ∃ out, r = Some out ∧ Forall2 translated es out
  end.

(** What either backend makes of one answer of the kernel, if epoll_wait names
    a descriptor once, as it does when each is registered once. *)
Definition reported (evs : list PollEvent) : Prop :=
  (∃ es, kqueue_result (inr es) (Some evs)) ∨
  (∃ es, NoDup (Epoll.data_fd <$> es) ∧ epoll_result (inr es) (Some evs)).

Lemma translated_fds es out : Forall2 translated es out → ev_fd <$> out = Epoll.data_fd <$> es.
Proof. induction 1 as [|e pe es out H _ IH]; [done|]. rewrite !fmap_cons, IH. f_equal. apply H. Qed.

Lemma reported_nodup evs : reported evs → NoDup (ev_fd <$> evs).
Proof.
  intros [(es & out & [= <-] & Hm)|(es & Hnd & out & [= <-] & Ht)]; [apply Hm|].
  by rewrite (translated_fds _ _ Ht).
Qed.

Lemma kqueue_polls answers i :
  clean (Kqueue.slots i) → capacity_ok (Kqueue.capacity i) →
  let r := polls Kqueue.poll answers i in
  Forall2 kqueue_result answers r.1 ∧ clean (Kqueue.slots r.2) ∧ capacity_ok (Kqueue.capacity r.2) ∧
  Kqueue.kq r.2 = Kqueue.kq i.
Proof.
  intros Hs Hc. apply (polls_ok Kqueue.poll kqueue_result
    (λ j, clean (Kqueue.slots j) ∧ capacity_ok (Kqueue.capacity j) ∧ Kqueue.kq j = Kqueue.kq i)); [|done].
  clear. intros [e|es] j (Hs & Hc & Hq); unfold Kqueue.poll; [done|].
  destruct (kqueue_wait_ok es (Kqueue.capacity j) (Kqueue.slots j) Hs) as (out & n & slot & E & Hcl & Hm).
  assert (capacity_ok n) as Hn.
  { unfold Kqueue.wait in E. destruct (Kqueue.coalesce es _). injection E as _ <- _. by apply grow_events_ok. }
  rewrite E. split; [by exists out|done].
Qed.

Lemma epoll_polls answers i :
  capacity_ok (Epoll.capacity i) →
  let r := polls Epoll.poll answers i in
  Forall2 epoll_result answers r.1 ∧ capacity_ok (Epoll.capacity r.2) ∧ Epoll.epfd r.2 = Epoll.epfd i.
Proof.
  intros Hc. apply (polls_ok Epoll.poll epoll_result
    (λ j, capacity_ok (Epoll.capacity j) ∧ Epoll.epfd j = Epoll.epfd i)); [|done].
  clear. intros [e|es] j (Hc & Hq); [done|]. split; [|split; [by apply grow_events_ok|done]].
  exists (Epoll.to_event <$> es). split; [done|]. apply Forall2_fmap_r, Forall_Forall2_diag, Forall_forall.
  intros e _. apply to_event_translated.
Qed.
