(* ===== verification/Backends.v ===== *)
(** * What a poller keeps registered

    [Poller::add], [set_write_interest] and [del] of
    [src/net/poller_epoll.cpp] and [src/net/poller_kqueue.cpp].  The class
    [PollerLaws] is the contract of [src/net/poller.h]: a table of watched
    descriptors, with or without write readiness.  Both backends implement it,
    on any kernel that does what [epoll_ctl(2)] and [kevent(2)] document; and
    on any poller with these laws the registration table of [Kernel] is the
    poller's own, and the calls [kernel_ok] relies on succeed. *)
From S2P Require Import Prelude Kernel Poller.

(** ** The contract (poller.h)

    [table k fd] is [None] when [fd] is not watched, [Some w] when it is, for
    writing too if [w].  [poll_ok D k]: outside [D] registrations are whole; a
    call that failed may leave half of one behind, until the descriptor is
    closed. *)
Class Poller (K : Type) := {
  poll_add : Z → bool → K → bool * K;
  poll_set_write_interest : Z → bool → K → bool * K;
  poll_del : Z → K → bool * K;
  poll_closed : Z → K → K;
  table : K → Z → option bool;
  poll_ok : gset Z → K → Prop;
}.

Definition same_but {A} (fd : Z) (f g : Z → A) : Prop := ∀ fd', fd' ≠ fd → f fd' = g fd'.

Class PollerLaws (K : Type) `{!Poller K} := {
  add_law D fd w k : poll_ok D k →
    let '(ok, k') := poll_add fd w k in
    same_but fd (table k') (table k) ∧
    if ok : bool then poll_ok (D ∖ {[fd]}) k' ∧ table k' fd = Some w else poll_ok ({[fd]} ∪ D) k';
  set_law D fd w k : poll_ok D k → fd ∉ D → is_Some (table k fd) →
    let '(ok, k') := poll_set_write_interest fd w k in
    ok = true ∧ poll_ok D k' ∧ table k' fd = Some w ∧ same_but fd (table k') (table k);
  del_law D fd k : poll_ok D k → fd ∉ D → is_Some (table k fd) →
    let '(ok, k') := poll_del fd k in
    ok = true ∧ poll_ok D k' ∧ table k' fd = None ∧ same_but fd (table k') (table k);
  closed_law D fd k : poll_ok D k →
    let k' := poll_closed fd k in
    poll_ok (D ∖ {[fd]}) k' ∧ table k' fd = None ∧ same_but fd (table k') (table k);
}.

(** ** epoll *)
Module EpollCtl.
Inductive Op := EPOLL_CTL_ADD | EPOLL_CTL_MOD | EPOLL_CTL_DEL.

(** The kernel's interest list, as [epoll_ctl(2)] documents it: adding what is
    there and changing what is not fail, a failed call changes nothing, and
    closing a descriptor removes it. *)
Record EpollKernel := {
  ep : Type;
  epoll_ctl : Op → Z → Z → ep → bool * ep;
  ep_close : Z → ep → ep;
  interest : ep → Z → option Z;
  ctl_fail op fd m k k' : epoll_ctl op fd m k = (false, k') → ∀ fd', interest k' fd' = interest k fd';
  ctl_add fd m k k' : epoll_ctl EPOLL_CTL_ADD fd m k = (true, k') → interest k' fd = Some m;
  ctl_mod fd m k : is_Some (interest k fd) →
    (epoll_ctl EPOLL_CTL_MOD fd m k).1 = true ∧ interest (epoll_ctl EPOLL_CTL_MOD fd m k).2 fd = Some m;
  ctl_del fd m k : is_Some (interest k fd) →
    (epoll_ctl EPOLL_CTL_DEL fd m k).1 = true ∧ interest (epoll_ctl EPOLL_CTL_DEL fd m k).2 fd = None;
  ctl_other op fd m k : same_but fd (interest (epoll_ctl op fd m k).2) (interest k);
  close_ep fd k : interest (ep_close fd k) fd = None ∧ same_but fd (interest (ep_close fd k)) (interest k);
}.

Section Epoll.
Context (E : EpollKernel).

Definition add (fd : Z) (want_write : bool) (k : ep E) : bool * ep E :=
  epoll_ctl E EPOLL_CTL_ADD fd (Epoll.interest_mask want_write) k.

Definition set_write_interest (fd : Z) (want_write : bool) (k : ep E) : bool * ep E :=
  epoll_ctl E EPOLL_CTL_MOD fd (Epoll.interest_mask want_write) k.

Definition del (fd : Z) (k : ep E) : bool * ep E := epoll_ctl E EPOLL_CTL_DEL fd 0 k.

Definition wants_write (m : Z) : bool := negb (Z.land m Epoll.EPOLLOUT =? 0).

(** Read interest is always on: every mask is one of the two. *)
Definition masks_ok (k : ep E) : Prop :=
  ∀ fd m, interest E k fd = Some m → ∃ w, m = Epoll.interest_mask w.

#[global] Instance poller : Poller (ep E) := {|
  poll_add := add;
  poll_set_write_interest := set_write_interest;
  poll_del := del;
  poll_closed := ep_close E;
  table k fd := wants_write <$> interest E k fd;
  poll_ok _ := masks_ok;
|}.

Lemma table_mask fd w k : interest E k fd = Some (Epoll.interest_mask w) → table k fd = Some w.
Proof. intros H. simpl. rewrite H. by destruct w. Qed.

Lemma table_same fd k k' :
  same_but fd (interest E k') (interest E k) → same_but fd (table k') (table k).
Proof. intros H fd' Hne. simpl. by rewrite H. Qed.

Lemma masks_step fd k k' :
  masks_ok k → same_but fd (interest E k') (interest E k) →
  (∀ m, interest E k' fd = Some m → ∃ w, m = Epoll.interest_mask w) → masks_ok k'.
Proof.
  intros Hk Hs Hfd fd' m Hm. destruct (decide (fd' = fd)) as [->|Hne]; [by apply Hfd|].
  rewrite Hs in Hm by done. by eapply Hk.
Qed.

#[global] Instance poller_laws : PollerLaws (ep E).
Proof.
  split.
  - intros D fd w k Hk. simpl. unfold add. set (m := Epoll.interest_mask w).
    pose proof (ctl_other E EPOLL_CTL_ADD fd m k) as Ho.
    destruct (epoll_ctl E EPOLL_CTL_ADD fd m k) as [ok k'] eqn:Ek. simpl in Ho.
    split; [by apply table_same|]. destruct ok.
    + pose proof (ctl_add E _ _ _ _ Ek) as Hm. split; [|by apply table_mask].
      eapply masks_step; [done..|]. intros m' Hm'. rewrite Hm in Hm'. injection Hm' as <-. by exists w.
    + pose proof (ctl_fail E _ _ _ _ _ Ek) as Hf. intros fd' m'. rewrite Hf. apply Hk.
  - intros D fd w k Hk _ Hn. cbn [poll_set_write_interest poller]. unfold set_write_interest. set (m := Epoll.interest_mask w).
    pose proof (ctl_other E EPOLL_CTL_MOD fd m k) as Ho. apply fmap_is_Some in Hn.
    destruct (ctl_mod E fd m k Hn) as [Hok Hm].
    destruct (epoll_ctl E EPOLL_CTL_MOD fd m k) as [ok k']. cbn [fst snd] in *.
    split_and!; [done| |by apply table_mask|by apply table_same].
    eapply masks_step; [done..|]. intros m' Hm'. rewrite Hm in Hm'. injection Hm' as <-. by exists w.
  - intros D fd k Hk _ Hn. simpl in *. unfold del. pose proof (ctl_other E EPOLL_CTL_DEL fd 0 k) as Ho.
    apply fmap_is_Some in Hn. destruct (ctl_del E fd 0 k Hn) as [Hok Hm].
    destruct (epoll_ctl E EPOLL_CTL_DEL fd 0 k) as [ok k']. simpl in *. rewrite Hm.
    split_and!; [done| |done|by apply table_same]. eapply masks_step; [done..|]. by rewrite Hm.
  - intros D fd k Hk. simpl. destruct (close_ep E fd k) as [Hm Ho]. rewrite Hm.
    split_and!; [|done|by apply table_same]. eapply masks_step; [done..|]. by rewrite Hm.
Qed.
End Epoll.
End EpollCtl.

(** ** kqueue *)
Module Kevent.
Definition EV_ADD : Z := 1.

Definition EV_DELETE : Z := 2.

Definition EV_ENABLE : Z := 4.

Definition EV_DISABLE : Z := 8.

(** [EV_SET(&ch, fd, filter, flags, 0, 0, nullptr)]. *)
Record Change := EV_SET { ch_ident : Z; ch_filter : Kqueue.Filter; ch_flags : Z }.

Definition has (flag : Z) (c : Change) : bool := negb (Z.land (ch_flags c) flag =? 0).

Abbreviation Filters := (Z → Kqueue.Filter → option bool).

Definition at_change (c : Change) (fd : Z) (f : Kqueue.Filter) : Prop := fd = ch_ident c ∧ f = ch_filter c.

#[global] Instance at_change_dec c fd f : Decision (at_change c fd f).
Proof. unfold at_change. apply _. Defined.

(** What [kevent(2)] says a change does to its filter, [Some enabled] or
    [None]; the result is [None] when the change fails with ENOENT. *)
Definition change_entry (c : Change) (old : option bool) : option (option bool) :=
  if has EV_ADD c then Some (Some (negb (has EV_DISABLE c)))
  else
    match old with
    | None => None
    | Some _ =>
        if has EV_DELETE c then Some None
        else Some (Some (negb (has EV_DISABLE c)))
    end.

(** The kernel's filters: one change, which may also fail to add for lack of
    memory; a failed change changes nothing; closing removes both filters. *)
Record KqueueKernel := {
  kq : Type;
  kevent1 : Change → kq → bool * kq;
  kq_close : Z → kq → kq;
  filters : kq → Filters;
  kev_ok c k k' : kevent1 c k = (true, k') →
    change_entry c (filters k (ch_ident c) (ch_filter c)) = Some (filters k' (ch_ident c) (ch_filter c));
  kev_fail c k k' : kevent1 c k = (false, k') → ∀ fd f, filters k' fd f = filters k fd f;
  kev_must c k : has EV_ADD c = false → is_Some (filters k (ch_ident c) (ch_filter c)) → (kevent1 c k).1 = true;
  kev_other c k fd f : ¬ at_change c fd f → filters (kevent1 c k).2 fd f = filters k fd f;
  close_kq fd k : ∀ f, filters (kq_close fd k) fd f = None;
  close_other fd k : ∀ fd' f, fd' ≠ fd → filters (kq_close fd k) fd' f = filters k fd' f;
}.

Section Kqueue.
Context (Q : KqueueKernel).

(** [kevent(kq, changes, n, nullptr, 0, nullptr) == 0]: the changes in order,
    up to the first that fails. *)
Fixpoint kevent (changes : list Change) (k : kq Q) : bool * kq Q :=
  match changes with
  | [] => (true, k)
  | c :: changes' =>
      let '(ok, k') := kevent1 Q c k in
      if ok : bool then kevent changes' k' else (false, k')
  end.

Definition add (fd : Z) (want_write : bool) : kq Q → bool * kq Q :=
  kevent [EV_SET fd Kqueue.EVFILT_READ (Z.lor EV_ADD EV_ENABLE);
          EV_SET fd Kqueue.EVFILT_WRITE (Z.lor EV_ADD (if want_write then EV_ENABLE else EV_DISABLE))].

Definition set_write_interest (fd : Z) (want_write : bool) : kq Q → bool * kq Q :=
  kevent [EV_SET fd Kqueue.EVFILT_WRITE (if want_write then EV_ENABLE else EV_DISABLE)].

Definition del (fd : Z) : kq Q → bool * kq Q :=
  kevent [EV_SET fd Kqueue.EVFILT_READ EV_DELETE; EV_SET fd Kqueue.EVFILT_WRITE EV_DELETE].

(** A whole registration has both filters, the read filter enabled. *)
Definition whole (k : kq Q) (fd : Z) : Prop :=
  match filters Q k fd Kqueue.EVFILT_READ, filters Q k fd Kqueue.EVFILT_WRITE with
  | Some true, Some _ | None, None => True
  | _, _ => False
  end.

#[global] Instance poller : Poller (kq Q) := {|
  poll_add := add;
  poll_set_write_interest := set_write_interest;
  poll_del := del;
  poll_closed := kq_close Q;
  table k fd :=
    match filters Q k fd Kqueue.EVFILT_READ with
    | Some true => filters Q k fd Kqueue.EVFILT_WRITE
    | _ => None
    end;
  poll_ok D k := ∀ fd, fd ∉ D → whole k fd;
|}.

(** A change list about [fd] leaves the other descriptors' filters alone. *)
Lemma kevent_other fd changes k fd' f :
  Forall (λ c, ch_ident c = fd) changes → fd' ≠ fd → filters Q (kevent changes k).2 fd' f = filters Q k fd' f.
Proof.
  intros Hc Hne. revert k. induction Hc as [|c changes Hc _ IH]; intros k; [done|]. simpl.
  pose proof (kev_other Q c k fd' f) as Ho. destruct (kevent1 Q c k) as [[] k']; simpl in *.
  - rewrite IH. apply Ho. unfold at_change. naive_solver.
  - apply Ho. unfold at_change. naive_solver.
Qed.

(** What is left of the proof obligations: [fd]'s own two filters. *)
Lemma others_kept fd k k' :
  (∀ fd' f, fd' ≠ fd → filters Q k' fd' f = filters Q k fd' f) →
  same_but fd (table k') (table k) ∧
  (∀ D D', poll_ok D k → D ⊆ {[fd]} ∪ D' → (fd ∉ D' → whole k' fd) → poll_ok D' k').
Proof.
  intros Ho. split.
  - intros fd' Hne. simpl. by rewrite !Ho.
  - intros D D' Hk Hsub Hfd fd' Hd. destruct (decide (fd' = fd)) as [->|Hne]; [by apply Hfd|].
    specialize (Hk fd' ltac:(set_solver)). unfold whole in *. by rewrite !Ho.
Qed.

Lemma kevent1_result c k ok k' :
  kevent1 Q c k = (ok, k') →
  (∀ f, f ≠ ch_filter c → filters Q k' (ch_ident c) f = filters Q k (ch_ident c) f) ∧
  if ok then change_entry c (filters Q k (ch_ident c) (ch_filter c)) = Some (filters Q k' (ch_ident c) (ch_filter c))
  else ∀ f, filters Q k' (ch_ident c) f = filters Q k (ch_ident c) f.
Proof.
  intros E. split.
  - intros f Hf. pose proof (kev_other Q c k (ch_ident c) f) as Ho. rewrite E in Ho. apply Ho.
    intros [_ ?]. done.
  - destruct ok; [by apply kev_ok|]. intros f. by apply (kev_fail Q _ _ _ E).
Qed.

Lemma whole_registered k fd w :
  filters Q k fd Kqueue.EVFILT_READ = Some true → filters Q k fd Kqueue.EVFILT_WRITE = Some w →
  whole k fd ∧ table k fd = Some w.
Proof. intros Hr Hw. unfold whole. simpl. by rewrite Hr, Hw. Qed.

Lemma registered_whole k fd :
  whole k fd → is_Some (table k fd) →
  filters Q k fd Kqueue.EVFILT_READ = Some true ∧ is_Some (filters Q k fd Kqueue.EVFILT_WRITE).
Proof.
  unfold whole. simpl. destruct (filters Q k fd Kqueue.EVFILT_READ) as [[]|]; [|by intros _ []..].
  by destruct (filters Q k fd Kqueue.EVFILT_WRITE).
Qed.

Lemma add_ok D fd w k :
  poll_ok D k →
  let '(ok, k') := add fd w k in
  same_but fd (table k') (table k) ∧
  if ok : bool then poll_ok (D ∖ {[fd]}) k' ∧ table k' fd = Some w else poll_ok ({[fd]} ∪ D) k'.
Proof.
  intros Hk. unfold add. set (cs := [_; _]).
  pose proof (λ fd' f, kevent_other fd cs k fd' f ltac:(by repeat constructor)) as Ho.
  destruct (others_kept fd k (kevent cs k).2 Ho) as [Hs Hp]. unfold cs in Ho, Hs, Hp |- *. clear cs.
  cbn [kevent] in *. set (r := EV_SET fd Kqueue.EVFILT_READ _) in *. set (c := EV_SET fd Kqueue.EVFILT_WRITE _) in *.
  destruct (kevent1 Q r k) as [[] k1] eqn:E1; cbn [fst snd] in *.
  2: { split; [done|]. apply (Hp D); [done|set_solver..]. }
  destruct (kevent1 Q c k1) as [[] k2] eqn:E2; cbn [fst snd] in *.
  2: { split; [done|]. apply (Hp D); [done|set_solver..]. }
  split; [done|]. destruct (kevent1_result _ _ _ _ E1) as [_ Hr], (kevent1_result _ _ _ _ E2) as [Hkeep Hw].
  specialize (Hkeep Kqueue.EVFILT_READ). simpl in Hr, Hkeep, Hw. injection Hr as Hr. rewrite <-Hr in Hkeep.
  assert (filters Q k2 fd Kqueue.EVFILT_WRITE = Some w) as Hw' by (by destruct w; injection Hw as <-).
  destruct (whole_registered k2 fd w) as [H1 H2]; [by apply Hkeep|done|]. split; [|done].
  apply (Hp D); [done| |done]. intros x Hx. destruct (decide (x = fd)); set_solver.
Qed.

Lemma set_ok D fd w k :
  poll_ok D k → fd ∉ D → is_Some (table k fd) →
  let '(ok, k') := set_write_interest fd w k in
  ok = true ∧ poll_ok D k' ∧ table k' fd = Some w ∧ same_but fd (table k') (table k).
Proof.
  intros Hk Hd Ht. unfold set_write_interest. set (cs := [_]).
  pose proof (λ fd' f, kevent_other fd cs k fd' f ltac:(by repeat constructor)) as Ho.
  destruct (others_kept fd k (kevent cs k).2 Ho) as [Hs Hp]. unfold cs in Hs, Hp |- *. cbn [kevent] in *.
  set (c := EV_SET fd _ _) in *. destruct (registered_whole k fd (Hk fd Hd) Ht) as [Hr Hw].
  pose proof (kev_must Q c k ltac:(by destruct w) Hw) as Hm.
  destruct (kevent1 Q c k) as [ok k1] eqn:E1. simpl in Hm. subst ok. cbn [fst snd] in *.
  destruct (kevent1_result _ _ _ _ E1) as [Hkeep Hc]. specialize (Hkeep Kqueue.EVFILT_READ). simpl in Hkeep, Hc.
  assert (filters Q k1 fd Kqueue.EVFILT_WRITE = Some w) as Hw'.
  { destruct Hw as [b Hb]. rewrite Hb in Hc. by destruct w; injection Hc as <-. }
  destruct (whole_registered k1 fd w) as [H1 H2]; [by rewrite Hkeep|done|]. split_and!; [done|apply (Hp D); [done|set_solver|done]|done|done].
Qed.

Lemma del_ok D fd k :
  poll_ok D k → fd ∉ D → is_Some (table k fd) →
  let '(ok, k') := del fd k in
  ok = true ∧ poll_ok D k' ∧ table k' fd = None ∧ same_but fd (table k') (table k).
Proof.
  intros Hk Hd Ht. unfold del. set (cs := [_; _]).
  pose proof (λ fd' f, kevent_other fd cs k fd' f ltac:(by repeat constructor)) as Ho.
  destruct (others_kept fd k (kevent cs k).2 Ho) as [Hs Hp]. unfold cs in Hs, Hp |- *. cbn [kevent] in *.
  set (r := EV_SET fd Kqueue.EVFILT_READ _) in *. set (c := EV_SET fd Kqueue.EVFILT_WRITE _) in *.
  destruct (registered_whole k fd (Hk fd Hd) Ht) as [Hr [b Hw]].
  pose proof (kev_must Q r k eq_refl ltac:(by eexists)) as Hm1.
  destruct (kevent1 Q r k) as [ok k1] eqn:E1. simpl in Hm1. subst ok. cbn [fst snd] in *.
  destruct (kevent1_result _ _ _ _ E1) as [Hkeep1 Hc1]. specialize (Hkeep1 Kqueue.EVFILT_WRITE).
  simpl in Hkeep1, Hc1. rewrite Hr in Hc1. injection Hc1 as Hc1. specialize (Hkeep1 ltac:(done)). rewrite Hw in Hkeep1.
  pose proof (kev_must Q c k1 eq_refl ltac:(simpl; rewrite Hkeep1; by eexists)) as Hm2.
  destruct (kevent1 Q c k1) as [ok k2] eqn:E2. simpl in Hm2. subst ok. cbn [fst snd] in *.
  destruct (kevent1_result _ _ _ _ E2) as [Hkeep2 Hc2]. specialize (Hkeep2 Kqueue.EVFILT_READ).
  simpl in Hkeep2, Hc2. specialize (Hkeep2 ltac:(done)).
  rewrite Hkeep1 in Hc2. injection Hc2 as Hc2. rewrite <-Hc1 in Hkeep2.
  split_and!; [done|apply (Hp D); [done|set_solver|]; intros _; unfold whole; by rewrite <-Hc2, Hkeep2|simpl; by rewrite Hkeep2|done].
Qed.

#[global] Instance poller_laws : PollerLaws (kq Q).
Proof.
  split.
  - apply add_ok.
  - apply set_ok.
  - apply del_ok.
  - intros D fd k Hk. simpl.
    destruct (others_kept fd k (kq_close Q fd k) (λ fd' f, close_other Q fd k fd' f)) as [Hs _].
    split_and!; [|by rewrite close_kq|done]. intros fd' Hd. unfold whole.
    destruct (decide (fd' = fd)) as [->|Hne]; [by rewrite !close_kq|].
    rewrite !close_other by done. apply Hk. set_solver.
Qed.
End Kqueue.
End Kevent.

Lemma same_elsewhere (D F : gset Z) (fd x : Z) : D ∪ {[fd]} = F ∪ {[fd]} → x ≠ fd → x ∈ D ↔ x ∈ F.
Proof.
  intros H Hx. assert (x ∈ D ∪ {[fd]} ↔ x ∈ F ∪ {[fd]}) as E by by rewrite H.
  rewrite !elem_of_union, !elem_of_singleton in E. tauto.
Qed.

(** ** The registration table of [Kernel] is the poller's

    Calls on a poller, with [close(2)], as the event loop and the server make
    them; the actions they leave in the trace. *)
Inductive PollCall :=
  | PAdd (fd : Z) (want_write : bool)
  | PSet (fd : Z) (want_write : bool)
  | PDel (fd : Z)
  | PClose (fd : Z).

Section Table.
Context {K : Type} `{!Poller K}.

Definition poll_call (c : PollCall) (k : K) : Action * K :=
  match c with
  | PAdd fd w => let '(ok, k') := poll_add fd w k in (APollAdd fd w ok, k')
  | PSet fd w => let '(ok, k') := poll_set_write_interest fd w k in (APollMod fd w ok, k')
  | PDel fd => let '(ok, k') := poll_del fd k in (APollDel fd ok, k')
  | PClose fd => (AClose fd, poll_closed fd k)
  end.

Definition poll_calls (cs : list PollCall) (k : K) : Trace * K :=
  foldl (λ '(t, k) c, let '(a, k') := poll_call c k in (t ++ [a], k')) ([], k) cs.

(** Descriptors whose last registration failed, and that are still open. *)
Definition failed_step (a : Action) (D : gset Z) : gset Z :=
  match a with
  | APollAdd fd _ false => {[fd]} ∪ D
  | APollAdd fd _ true | AClose fd => D ∖ {[fd]}
  | _ => D
  end.

Definition failed (t : Trace) : gset Z := foldl (λ D a, failed_step a D) ∅ t.

(** The caller's part: it adds what is not watched, changes and removes what is. *)
Definition allowed (t : Trace) (c : PollCall) : Prop :=
  match c with
  | PAdd fd _ => watched t !! fd = None
  | PSet fd _ | PDel fd => is_Some (watched t !! fd)
  | PClose _ => True
  end.

Definition disciplined (cs : list PollCall) (k : K) : Prop :=
  ∀ cs1 c cs2, cs = cs1 ++ c :: cs2 → allowed (poll_calls cs1 k).1 c.

(** A call on a registered descriptor succeeded. *)
Definition never_refused (a : Action) : Prop :=
  match a with APollMod _ _ ok | APollDel _ ok => ok = true | _ => True end.

Record agrees (t : Trace) (k : K) : Prop := {
  agrees_ok : poll_ok (failed t) k;
  agrees_table fd : fd ∉ failed t → table k fd = watched t !! fd;
  agrees_failed fd : fd ∈ failed t → watched t !! fd = None;
}.

Lemma failed_snoc t a : failed (t ++ [a]) = failed_step a (failed t).
Proof. unfold failed. by rewrite foldl_app. Qed.

Lemma poll_calls_snoc cs c k :
  poll_calls (cs ++ [c]) k =
    let '(t, k1) := poll_calls cs k in let '(a, k2) := poll_call c k1 in (t ++ [a], k2).
Proof. unfold poll_calls. rewrite foldl_app. simpl. by destruct (foldl _ _ cs). Qed.

Context `{!PollerLaws K}.

Lemma agrees_watch t a k k' fd v D :
  watched (t ++ [a]) = partial_alter (λ _, v) fd (watched t) → failed (t ++ [a]) = D →
  D ∪ {[fd]} = failed t ∪ {[fd]} → (fd ∈ D → v = None) →
  agrees t k → poll_ok D k' → (fd ∉ D → table k' fd = v) → same_but fd (table k') (table k) →
  agrees (t ++ [a]) k'.
Proof.
  intros Hw Hf HD Hv [_ Ht Hn] Hok Hfd Hs. split; rewrite Hf; [done|..]; intros fd' Hd; rewrite Hw.
  - destruct (decide (fd' = fd)) as [->|Hne]; [by rewrite lookup_partial_alter_eq, Hfd|].
    rewrite lookup_partial_alter_ne, Hs by done. apply Ht. by rewrite <-(same_elsewhere D _ fd fd').
  - destruct (decide (fd' = fd)) as [->|Hne]; [by rewrite lookup_partial_alter_eq, Hv|].
    rewrite lookup_partial_alter_ne by done. apply Hn. by rewrite <-(same_elsewhere D _ fd fd').
Qed.

Lemma without_with (D : gset Z) (x : Z) : D ∖ {[x]} ∪ {[x]} = D ∪ {[x]}.
Proof. apply set_eq. intros y. destruct (decide (y = x)); set_solver. Qed.

Lemma poll_call_agrees t c k :
  agrees t k → allowed t c → let '(a, k') := poll_call c k in agrees (t ++ [a]) k' ∧ never_refused a.
Proof.
  intros Ha Hc. pose proof Ha as [Hok Ht Hn]. destruct c as [fd w|fd w|fd|fd]; simpl in *.
  - pose proof (add_law (failed t) fd w k Hok) as Hl.
    destruct (poll_add fd w k) as [[] k']; destruct Hl as [Hs Hl]; (split; [|done]).
    + destruct Hl as [Hok' Htab].
      apply (agrees_watch t _ k k' fd (Some w) (failed t ∖ {[fd]})); try done;
        [by rewrite watched_snoc|by rewrite failed_snoc|apply without_with|set_solver].
    + apply (agrees_watch t _ k k' fd None ({[fd]} ∪ failed t)); try done.
      * rewrite watched_snoc. simpl. pose proof (partial_alter_self (watched t) fd) as Hs'. by rewrite Hc in Hs'.
      * by rewrite failed_snoc.
      * set_solver.
      * set_solver.
  - assert (fd ∉ failed t) as Hd by (intros H; apply Hn in H; rewrite H in Hc; by destruct Hc).
    pose proof (set_law (failed t) fd w k Hok Hd) as Hl. rewrite Ht in Hl by done. specialize (Hl Hc).
    destruct (poll_set_write_interest fd w k) as [ok k']. destruct Hl as (-> & Hok' & Htab & Hs). split; [|done].
    apply (agrees_watch t _ k k' fd (Some w) (failed t)); try done; [by rewrite watched_snoc|by rewrite failed_snoc].
  - assert (fd ∉ failed t) as Hd by (intros H; apply Hn in H; rewrite H in Hc; by destruct Hc).
    pose proof (del_law (failed t) fd k Hok Hd) as Hl. rewrite Ht in Hl by done. specialize (Hl Hc).
    destruct (poll_del fd k) as [ok k']. destruct Hl as (-> & Hok' & Htab & Hs). split; [|done].
    apply (agrees_watch t _ k k' fd None (failed t)); try done; [by rewrite watched_snoc|by rewrite failed_snoc].
  - split; [|done]. destruct (closed_law (failed t) fd k Hok) as (Hok' & Htab & Hs).
    apply (agrees_watch t _ k _ fd None (failed t ∖ {[fd]})); try done; [by rewrite watched_snoc|by rewrite failed_snoc|apply without_with].
Qed.

Lemma poll_calls_agree cs k :
  poll_ok ∅ k → (∀ fd, table k fd = None) → disciplined cs k →
  agrees (poll_calls cs k).1 (poll_calls cs k).2 ∧ Forall never_refused (poll_calls cs k).1.
Proof.
  intros Hok Hempty. induction cs as [|c cs IH] using rev_ind; intros Hd.
  { split; [|done]. split; [done| |done]. intros fd _. by rewrite Hempty. }
  destruct IH as [Ha Hf].
  { intros cs1 c1 cs2 ->. apply (Hd cs1 c1 (cs2 ++ [c])). by rewrite <-(assoc_L (++)). }
  specialize (Hd cs c [] eq_refl). rewrite poll_calls_snoc. destruct (poll_calls cs k) as [t k1]. simpl in *.
  pose proof (poll_call_agrees t c k1 Ha Hd) as H. destruct (poll_call c k1) as [a k2]. destruct H as [H1 H2].
  split; [done|]. apply Forall_app. split; [done|by repeat constructor].
Qed.

(** *** A history of system calls, on a poller

    The poller's part of a history, the state it leaves the poller in, and
    that the poller gave the answers the history records. *)
Definition call_of (a : Action) : option PollCall :=
  match a with
  | APollAdd fd w _ => Some (PAdd fd w)
  | APollMod fd w _ => Some (PSet fd w)
  | APollDel fd _ => Some (PDel fd)
  | AClose fd => Some (PClose fd)
  | _ => None
  end.

Definition state_step (k : K) (a : Action) : K :=
  match call_of a with Some c => (poll_call c k).2 | None => k end.

Definition poll_state (t : Trace) (k : K) : K := foldl state_step k t.

Fixpoint answered (t : Trace) (k : K) : Prop :=
  match t with
  | [] => True
  | a :: t' => match call_of a with Some c => (poll_call c k).1 = a | None => True end ∧ answered t' (state_step k a)
  end.

Lemma answered_snoc t a k :
  answered (t ++ [a]) k →
  answered t k ∧ match call_of a with Some c => (poll_call c (poll_state t k)).1 = a | None => True end.
Proof.
  revert k. induction t as [|b t IH]; intros k; simpl; [by intros [? _]|]. intros [Hb H].
  apply IH in H as [? ?]. by split_and!.
Qed.

Lemma proper_allowed t a c : call_of a = Some c → proper t a → allowed t c.
Proof. destruct a; simpl; intros; by simplify_eq. Qed.

Lemma agrees_other t a k : call_of a = None → agrees t k → agrees (t ++ [a]) k.
Proof.
  intros Ha [H1 H2 H3]. assert (watched (t ++ [a]) = watched t ∧ failed (t ++ [a]) = failed t) as [Hw Hf].
  { rewrite watched_snoc, failed_snoc. by destruct a. }
  split; rewrite ?Hf, ?Hw; [done|..]; intros fd; [apply H2|apply H3].
Qed.

Lemma poll_state_agrees t k :
  poll_ok ∅ k → (∀ fd, table k fd = None) → orderly t → answered t k → agrees t (poll_state t k).
Proof.
  intros Hok Hempty. induction t as [|a t IH] using rev_ind; intros Ho Ha.
  { split; [done| |done]. intros fd _. by rewrite Hempty. }
  apply orderly_snoc in Ho as [Ho Hp]. apply answered_snoc in Ha as [Ha Hans]. specialize (IH Ho Ha).
  unfold poll_state. rewrite foldl_app. fold (poll_state t k). cbn [foldl]. unfold state_step.
  destruct (call_of a) as [c|] eqn:Ec; [|by apply agrees_other].
  pose proof (poll_call_agrees t c _ IH (proper_allowed _ _ _ Ec Hp)) as H.
  destruct (poll_call c (poll_state t k)) as [a' k']. simpl in *. subst a'. by destruct H.
Qed.
End Table.
