(* ===== verification/Main.v ===== *)
(** * The command line

    [parse_u64], [usage] and [parse_args] of [src/main.cpp].  [strtoull] is the C
    library's, base 10, after the C standard: optional white space, an optional
    sign, digits; a minus sign negates the result in [unsigned long long].
    Arguments are C strings, so they hold no NUL. *)
From S2P Require Import Prelude Digits Inline Buffer Kernel Server.

(** ** strtoull *)
Fixpoint take_digits (s : bytes) : bytes :=
  match s with
  | c :: s' => if (code "0" <=? code c) && (code c <=? code "9") then c :: take_digits s' else []
  | [] => []
  end.

(** The value, whether [errno] was set, and the rest of the string ([end]). *)
Definition strtoull (s : bytes) : Z * bool * bytes :=
  let s1 := skip_spaces s in
  let '(neg, s2) :=
    match s1 with
    | c :: s' => if c =b? "-" then (true, s') else if c =b? "+" then (false, s') else (false, s1)
    | [] => (false, s1)
    end in
  let ds := take_digits s2 in
  let rest := drop (length ds) s2 in
  if bool_decide (ds = []) then (0, false, s)
  else
    let v := dec_value ds in
    if UINT64_MAX <? v then (UINT64_MAX, true, rest)
    else (if neg then u64 (- v) else v, false, rest).

(** [parse_u64(s, max, out)]; [None] is [nullptr] for [s]. *)
Definition parse_u64 (s : option bytes) (max : Z) : option Z :=
  match s with
  | None | Some [] => None
  | Some s =>
      let '(v, error, rest) := strtoull s in
      if error || bool_decide (rest = s) || negb (bool_decide (rest = [])) || (max <? v) then None
      else Some v
  end.

(** ** parse_args

    The loop over [argv[1..]]; [take_number] consumes the value it reads. *)
Record Options := mkOptions { cfg : ServerConfig; verbose : bool }.

Definition set_cfg (f : ServerConfig → ServerConfig) (o : Options) : Options :=
  mkOptions (f (cfg o)) (verbose o).

Definition set_bind (a : bytes) (c : ServerConfig) : ServerConfig :=
  mkServerConfig a (port c) (backlog c) (max_output_buffer c) (tick_interval_ms c) (active_expire_samples c).

Definition set_port (n : Z) (c : ServerConfig) : ServerConfig :=
  mkServerConfig (bind_addr c) (n `mod` 2 ^ 16) (backlog c) (max_output_buffer c) (tick_interval_ms c)
    (active_expire_samples c).

Definition set_max_output (n : Z) (c : ServerConfig) : ServerConfig :=
  mkServerConfig (bind_addr c) (port c) (backlog c) n (tick_interval_ms c) (active_expire_samples c).

Definition set_samples (n : Z) (c : ServerConfig) : ServerConfig :=
  mkServerConfig (bind_addr c) (port c) (backlog c) (max_output_buffer c) (tick_interval_ms c) (Z.to_nat n).

Definition set_tick (n : Z) (c : ServerConfig) : ServerConfig :=
  mkServerConfig (bind_addr c) (port c) (backlog c) (max_output_buffer c) (s32 n) (active_expire_samples c).

Definition take_number (value : option bytes) (lo hi : Z) : option Z :=
  n ← parse_u64 value hi; if n <? lo then None else Some n.

(** Why [parse_args] returns false. *)
Inductive Refusal :=
  | Help
  | NeedsAddress
  | NeedsNumber (arg : bytes) (lo hi : Z) (value : option bytes)
  | UnknownArgument (arg : bytes).

Definition exit_code (r : Refusal) : Z := match r with Help => 0 | _ => 2 end.

Definition usage (argv0 : bytes) : bytes :=
  $"kvsd -- a RESP2-compatible key-value server" ++ [LF] ++ [LF] ++
  $"usage: " ++ argv0 ++ $" [options]" ++ [LF] ++ [LF] ++
  $"  --port <n>               port to listen on (default 6380; 0 lets the OS pick)" ++ [LF] ++
  $"  --bind <addr>            IPv4 address to bind (default 127.0.0.1)" ++ [LF] ++
  $"  --max-output-buffer <n>  bytes of pending replies per client before it is" ++ [LF] ++
  $"                           disconnected (default 67108864)" ++ [LF] ++
  $"  --expire-samples <n>     keys sampled per active expiry round (default 20)" ++ [LF] ++
  $"  --tick-interval <ms>     event loop tick period (default 100)" ++ [LF] ++
  $"  --verbose                log per-connection detail" ++ [LF] ++
  $"  --help                   this text" ++ [LF].

(** What it prints to standard output, and to standard error. *)
Definition printed (argv0 : bytes) (r : Refusal) : bytes * bytes :=
  match r with
  | Help => (usage argv0, [])
  | NeedsAddress => ([], $"kvsd: --bind expects an IPv4 address" ++ [LF])
  | NeedsNumber arg lo hi value =>
      ([], $"kvsd: " ++ arg ++ $" expects an integer in [" ++ std_to_string lo ++ $", " ++ std_to_string hi ++
           $"], got '" ++ default [] value ++ $"'" ++ [LF])
  | UnknownArgument arg => (usage argv0, $"kvsd: unknown argument '" ++ arg ++ $"'" ++ [LF] ++ [LF])
  end.

Fixpoint parse_args (args : list bytes) (o : Options) : Refusal + Options :=
  match args with
  | [] => inr o
  | arg :: rest =>
      let value := head rest in
      let number lo hi (f : Z → ServerConfig → ServerConfig) :=
        match take_number value lo hi, rest with
        | Some n, _ :: rest' => parse_args rest' (set_cfg (f n) o)
        | _, _ => inl (NeedsNumber arg lo hi value)
        end in
      if bool_decide (arg = $"--help") || bool_decide (arg = $"-h") then inl Help
      else if bool_decide (arg = $"--verbose") then parse_args rest (mkOptions (cfg o) true)
      else if bool_decide (arg = $"--bind") then
        match rest with
        | [] => inl NeedsAddress
        | a :: rest' => parse_args rest' (set_cfg (set_bind a) o)
        end
      else if bool_decide (arg = $"--port") then number 0 65535 set_port
      else if bool_decide (arg = $"--max-output-buffer") then number 1 (2 ^ 40) set_max_output
      else if bool_decide (arg = $"--expire-samples") then number 0 100000 set_samples
      else if bool_decide (arg = $"--tick-interval") then number 1 60000 set_tick
      else inl (UnknownArgument arg)
  end.

Definition main_options (args : list bytes) : Refusal + Options :=
  parse_args args (mkOptions default_config false).

(** ** Lemmas *)
Lemma strtoull_range s : let '(v, _, _) := strtoull s in in_u64 v.
Proof.
  unfold strtoull. destruct (match skip_spaces s with [] => _ | _ => _ end) as [neg s2].
  case_bool_decide; [mach; lia|].
  assert (Forall is_digit (take_digits s2)) as Hd.
  { clear. induction s2 as [|c s IH]; simpl; [done|].
    destruct (_ && _) eqn:E; constructor; [|done]. unfold is_digit. by rewrite E. }
  pose proof (dec_value_nonneg _ Hd). destruct (Z.ltb_spec UINT64_MAX (dec_value (take_digits s2))).
  - mach. lia.
  - destruct neg; [apply u64_range|]. mach. lia.
Qed.

Lemma parse_u64_bound s max v : parse_u64 s max = Some v → 0 ≤ v ≤ max.
Proof.
  destruct s as [[|c s]|]; [done| |done]. unfold parse_u64.
  pose proof (strtoull_range (c :: s)) as Hr. destruct (strtoull (c :: s)) as [[w e] rest].
  destruct (_ || _ || _ || _) eqn:E; [done|]. intros [= <-].
  apply orb_false_iff in E as [_ E]. mach. lia.
Qed.

Lemma take_number_bound s lo hi v : take_number s lo hi = Some v → lo ≤ v ≤ hi.
Proof.
  unfold take_number. destruct (parse_u64 s hi) as [n|] eqn:E; [|done]. simpl.
  destruct (Z.ltb_spec n lo); [done|]. intros [= <-]. pose proof (parse_u64_bound _ _ _ E). lia.
Qed.

(** The ranges main.cpp documents; the backlog has no option. *)
Record config_ok (c : ServerConfig) : Prop := {
  config_port : 0 ≤ port c ≤ 65535;
  config_output : 1 ≤ max_output_buffer c ≤ 2 ^ 40;
  config_samples : (Z.of_nat (active_expire_samples c) ≤ 100000);
  config_tick : 1 ≤ tick_interval_ms c ≤ 60000;
  config_backlog : backlog c = 511;
}.

Lemma parse_args_ok args o o' :
  config_ok (cfg o) → parse_args args o = inr o' → config_ok (cfg o').
Proof.
  remember (length args) as n eqn:Hn. revert args o Hn.
  induction (lt_wf n) as [n _ IH]. intros args o Hn Ho H.
  destruct args as [|arg rest]; [by simplify_eq/=|]. cbn [parse_args] in H.
  assert (Hnum : ∀ lo hi f, (∀ v c, lo ≤ v ≤ hi → config_ok c → config_ok (f v c)) →
    match take_number (head rest) lo hi, rest with
    | Some v, _ :: rest' => parse_args rest' (set_cfg (f v) o)
    | _, _ => inl (NeedsNumber arg lo hi (head rest))
    end = inr o' → config_ok (cfg o')).
  { intros lo hi f Hf Heq. destruct (take_number (head rest) lo hi) as [v|] eqn:Ev; [|done].
    destruct rest as [|x rest]; [done|]. apply (IH (length rest)) in Heq; [done|simpl in *; lia|done|].
    apply Hf; [by eapply take_number_bound|done]. }
  repeat (case_bool_decide; simpl orb in H; cbv iota in H; [try done|]); try done.
  - apply (IH (length rest)) in H; [done|simpl in *; lia|done|done].
  - destruct rest as [|a rest]; [done|]. apply (IH (length rest)) in H; [done|simpl in *; lia|done|].
    by destruct Ho.
  - refine (Hnum _ _ set_port _ H). intros v c Hv []. split; simpl; try done. by rewrite Z.mod_small by lia.
  - refine (Hnum _ _ set_max_output _ H). by intros v c Hv []; split.
  - refine (Hnum _ _ set_samples _ H). intros v c Hv []. split; simpl; try done. lia.
  - refine (Hnum _ _ set_tick _ H). intros v c Hv []. split; simpl; try done. by rewrite s32_small by lia.
Qed.

Lemma default_config_ok : config_ok default_config.
Proof. split; simpl; lia. Qed.

Lemma take_digits_all ds : Forall is_digit ds → take_digits ds = ds.
Proof.
  induction 1 as [|c ds Hc _ IH]; [done|]. simpl. unfold is_digit in Hc.
  destruct (_ && _); [by rewrite IH|done].
Qed.

(** A plain decimal is read exactly. *)
Lemma parse_u64_digits ds max :
  Forall is_digit ds → ds ≠ [] → 0 ≤ max ≤ UINT64_MAX →
  parse_u64 (Some ds) max = if max <? dec_value ds then None else Some (dec_value ds).
Proof.
  intros Hd Hne Hmax. destruct ds as [|c ds]; [done|]. unfold parse_u64, strtoull.
  pose proof (Forall_inv Hd) as Hc. rewrite is_digit_code in Hc.
  assert (∀ d, code d < 48 → c ≠ d) as Hne' by (intros d Hlt ->; lia).
  assert (skip_spaces (c :: ds) = c :: ds) as ->.
  { simpl. unfold is_space. rewrite byte_eqb_ne by (by apply Hne'). simpl.
    by replace (_ && _) with false by lia. }
  rewrite (byte_eqb_ne c "-"), (byte_eqb_ne c "+") by (by apply Hne').
  rewrite take_digits_all by done. rewrite drop_all.
  rewrite (bool_decide_eq_false_2 (c :: ds = [])) by done.
  destruct (Z.ltb_spec UINT64_MAX (dec_value (c :: ds))) as [Ho|Ho].
  - replace (max <? dec_value (c :: ds)) with true by lia. done.
  - rewrite (bool_decide_eq_false_2 ([] = c :: ds)), (bool_decide_eq_true_2 ([] = [])) by done. simpl. done.
Qed.

(** ** The command line that spells a configuration *)
Definition spell (c : ServerConfig) (v : bool) : list bytes :=
  (if v then [$"--verbose"] else []) ++
  [$"--bind"; bind_addr c; $"--port"; std_to_string (port c);
   $"--max-output-buffer"; std_to_string (max_output_buffer c);
   $"--expire-samples"; std_to_string (Z.of_nat (active_expire_samples c));
   $"--tick-interval"; std_to_string (tick_interval_ms c)].

Lemma to_string_digits n :
  0 ≤ n ≤ INT64_MAX →
  Forall is_digit (std_to_string n) ∧ std_to_string n ≠ [] ∧ dec_value (std_to_string n) = n.
Proof.
  intros Hn. assert (in_s64 n) as Hs by (mach; lia). rewrite <-format_int_std_to_string by done. unfold format_int.
  destruct (Z.eqb_spec n 0) as [->|Hne]; [by repeat constructor|].
  rewrite magnitude_abs by done. replace (n <? 0) with false by lia. rewrite app_nil_l, Z.abs_eq by lia.
  destruct (tmp_digits_spec 20 n) as [Hd Hv]; [mach; lia|].
  split_and!; [by apply Forall_rev|apply tmp_digits_nonempty; lia|done].
Qed.

Lemma take_number_to_string n lo hi :
  0 ≤ lo ≤ n → n ≤ hi ≤ INT64_MAX → take_number (Some (std_to_string n)) lo hi = Some n.
Proof.
  intros Hlo Hhi. destruct (to_string_digits n) as (Hd & Hne & Hv); [lia|].
  unfold take_number. rewrite parse_u64_digits, Hv by (done || (mach; lia)).
  replace (hi <? n) with false by lia. simpl. by replace (n <? lo) with false by lia.
Qed.

Ltac decide_names := repeat
  first [rewrite bool_decide_eq_true_2 by reflexivity|rewrite bool_decide_eq_false_2 by discriminate].

Lemma parse_number name f lo hi n rest o :
  (name, lo, hi, f) ∈ [($"--port", 0, 65535, set_port); ($"--max-output-buffer", 1, 2 ^ 40, set_max_output);
                       ($"--expire-samples", 0, 100000, set_samples); ($"--tick-interval", 1, 60000, set_tick)] →
  lo ≤ n ≤ hi → parse_args (name :: std_to_string n :: rest) o = parse_args rest (set_cfg (f n) o).
Proof.
  rewrite !elem_of_cons, elem_of_nil. intros Hin Hn.
  destruct Hin as [E|[E|[E|[E|[]]]]]; injection E as -> -> -> ->; cbn [parse_args head]; decide_names;
    cbn [orb]; by rewrite take_number_to_string by (mach; lia).
Qed.

Lemma main_options_spell c v :
  config_ok c → main_options (spell c v) = inr (mkOptions c v).
Proof.
  intros [Hp Hm Hs Ht Hb]. unfold main_options, spell.
  assert (∀ o, parse_args ([$"--bind"; bind_addr c; $"--port"; std_to_string (port c);
     $"--max-output-buffer"; std_to_string (max_output_buffer c);
     $"--expire-samples"; std_to_string (Z.of_nat (active_expire_samples c));
     $"--tick-interval"; std_to_string (tick_interval_ms c)]) (mkOptions default_config o) = inr (mkOptions c o)) as H.
  { intros o. change (parse_args ($"--bind" :: bind_addr c :: ?l) ?x) with (parse_args l (set_cfg (set_bind (bind_addr c)) x)).
    rewrite (parse_number _ set_port 0 65535) by (set_solver || lia).
    rewrite (parse_number _ set_max_output 1 (2 ^ 40)) by (set_solver || lia).
    rewrite (parse_number _ set_samples 0 100000) by (set_solver || lia).
    rewrite (parse_number _ set_tick 1 60000) by (set_solver || lia).
    destruct c as [a p b m t n]. cbn in *. subst b. do 2 f_equal.
    unfold set_cfg, set_tick, set_samples, set_max_output, set_port, set_bind, default_config. cbn.
    rewrite Z.mod_small, s32_small, Nat2Z.id by lia. done. }
  destruct v; [|apply H]. etrans; [|apply (H true)]. reflexivity.
Qed.
