(* ===== verification/Program.v ===== *)
(** * The program

    [main] of [src/main.cpp]: the command line, the server's life, the exit
    status.  [n] bounds the iterations of the event loop; a server still
    serving after them is [Serving].  The shutdown flag is the kernel's
    [k_shutdown]; [Signals.v] is about the handlers that raise it. *)
From S2P Require Import Prelude Buffer Digits Inline Parser Stream Writer Keyspace Expire Commands.
From S2P Require Import Options Spec Refine Handlers Dispatch Linear Session Kernel Server Input ServerInv Events Main.

Inductive Outcome :=
  | Refused (r : Refusal)
  | Exited (status : Z) (err : option bytes) (s : Server)
  | Serving (s : Server).

Definition status_of (o : Outcome) : option Z :=
  match o with
  | Refused r => Some (exit_code r)
  | Exited status _ _ => Some status
  | Serving _ => None
  end.

Section Program.
Context {KE : Kernel} (retries : nat) (time : nat → Z).
Context (layout : nat → gset bytes → list (list bytes)).
Context (strerror : errno → bytes) (inet_pton : bytes → bool) (poller_valid : bool) (backend : bytes).

(** The [Server] is a local of [main]: every return destroys it. *)
Definition main (args : list bytes) (random_device : Z) (n : nat) : Outcome :=
  match main_options args with
  | inl r => Refused r
  | inr o =>
      match start strerror inet_pton poller_valid backend (new_server (Main.cfg o) random_device) with
      | (Some err, s) => Exited 1 (Some err) (destroy s).2
      | (None, s) =>
          let s' := (run time layout retries n s).2 in
          if running_ s' then Serving s' else Exited 0 None (destroy s').2
      end
  end.

Context (HK : kernel_ok retries) (Hclock : clock_ok time) (Hlayout : layout_ok layout).

Lemma destroy_fault s : fault (destroy s).2 = fault s.
Proof.
  unfold destroy. rewrite bind_run. cbn [fst snd get]. rewrite bind_run.
  destruct (close_all_ok (map_to_list (conns_ s)).*1 s) as [H1 _].
  destruct (close_all _ s) as [[] s1]. simpl in H1. subst s1. rewrite bind_run. cbn [fst snd modify].
  rewrite bind_run. by destruct (0 <=? listen_fd_ s), (0 <=? spare_fd_ s).
Qed.

Lemma main_ok args seed n :
  match main args seed n with
  | Refused r => main_options args = inl r
  | Exited status err s =>
      opened (trace s) = ∅ ∧ fault s = false ∧ (status = 1 ∧ is_Some err ∨ status = 0 ∧ err = None)
  | Serving s => inv None ∅ s ∧ running_ s = true
  end.
Proof.
  unfold main. destruct (main_options args) as [r|o] eqn:Ho; [done|].
  pose proof (start_failed retries HK strerror inet_pton poller_valid backend (Main.cfg o) seed) as Hfail.
  pose proof (start_ok retries HK strerror inet_pton poller_valid backend (Main.cfg o) seed) as Hok.
  destruct (start _ _ _ _ _) as [[err|] s]; cbn [fst snd] in *.
  - destruct (Hfail err eq_refl) as [Hop Hf]. split_and!; [by apply destroy_closes|by rewrite destroy_fault|left].
    split; [done|by eexists].
  - destruct (Hok eq_refl) as [Hs _].
    pose proof (run_inv retries HK time Hclock layout Hlayout n s Hs) as Hi.
    destruct (running_ (run time layout retries n s).2) eqn:Er; [done|].
    split_and!; [by apply destroy_ok|rewrite destroy_fault; apply Hi|by right].
Qed.

(** With the shutdown flag up the server stops. *)
Lemma main_stops args seed n :
  (∀ t, k_shutdown t = true) → ∃ status, status_of (main args seed (S n)) = Some status.
Proof.
  intros Hstop. unfold main. destruct (main_options args) as [r|o]; [by eexists|].
  pose proof (start_ok retries HK strerror inet_pton poller_valid backend (Main.cfg o) seed) as Hok.
  destruct (start _ _ _ _ _) as [[err|] s]; [by eexists|]. cbn [fst snd] in *. destruct (Hok eq_refl) as [Hs _].
  unfold run. rewrite bind_run. cbn [snd modify].
  destruct (run_loop_stops retries HK time Hclock layout Hlayout n (set_running true s)) as [H1 _].
  { by eapply inv_ext; [by apply started_inv|..]. }
  { apply Hs. }
  { intros u. apply Hstop. }
  rewrite H1. by eexists.
Qed.
End Program.
