(* ===== verification/Signals.v ===== *)
(** * Signals

    [handle_signal], [g_shutdown] and [install_signal_handlers] of
    [src/main.cpp], the shutdown check, and the flags of [send]
    ([src/net/server.cpp]).  [Program.main] takes the shutdown flag from its
    kernel; here the flag is the program's, raised by its handler, and what is
    assumed is only which signals arrive, and when.  A signal that finds the
    default disposition kills the process. *)
From S2P Require Import Prelude Buffer Digits Inline Parser Stream Writer Keyspace Expire Commands.
From S2P Require Import Options Spec Refine Handlers Dispatch Linear Session Kernel Server Input ServerInv Events Main Program.

Inductive signal := SIGINT | SIGTERM | SIGPIPE.

#[export] Instance signal_eq_dec : EqDecision signal.
Proof. solve_decision. Defined.

(** A handler acts on the one variable the handlers share, a [sig_atomic_t]. *)
Inductive Disposition := SIG_DFL | SIG_IGN | Handler (h : Z → Z).

Record Process := mkProcess {
  disposition : signal → Disposition;
  g_shutdown : Z;
}.

Definition handle_signal : Z → Z := λ _, 1.

(** [sigaction], and [signal]. *)
Definition sigaction (sig : signal) (d : Disposition) (p : Process) : Process :=
  mkProcess (λ x, if bool_decide (x = sig) then d else disposition p x) (g_shutdown p).

Definition install_signal_handlers (p : Process) : Process :=
  sigaction SIGPIPE SIG_IGN (sigaction SIGTERM (Handler handle_signal) (sigaction SIGINT (Handler handle_signal) p)).

(** The default action of all three is to terminate. *)
Definition deliver (sig : signal) (p : Process) : option Process :=
  match disposition p sig with
  | SIG_DFL => None
  | SIG_IGN => Some p
  | Handler h => Some (mkProcess (disposition p) (h (g_shutdown p)))
  end.

Fixpoint deliver_all (sigs : list signal) (p : Process) : option Process :=
  match sigs with
  | [] => Some p
  | sig :: sigs' => p' ← deliver sig p; deliver_all sigs' p'
  end.

(** Linux: the flag, and the error of writing to a peer that is gone, which
    raises SIGPIPE unless the flag is given. *)
Definition MSG_NOSIGNAL : Z := 16384.

Definition EPIPE : errno := EOTHER 32.

Definition kSendFlags : Z := MSG_NOSIGNAL.

Definition raised_by (a : Action) : list signal :=
  match a with
  | ASend _ _ (inl e) => if bool_decide (e = EPIPE) && (Z.land kSendFlags MSG_NOSIGNAL =? 0) then [SIGPIPE] else []
  | _ => []
  end.

Section Signals.
Context {KE : Kernel}.

(** [arrivals i]: what is delivered between the [i]-th system call and the
    one before; [inherited]: the dispositions the process was started with. *)
Context (arrivals : nat → list signal) (inherited : signal → Disposition).

Fixpoint process_after (i : nat) (t : Trace) (p : Process) : option Process :=
  p ← deliver_all (arrivals i) p;
  match t with
  | [] => Some p
  | a :: t' => p ← deliver_all (raised_by a) p; process_after (S i) t' p
  end.

(** From the first system call of [Server::start] on. *)
Definition process (t : Trace) : option Process :=
  process_after 0 t (install_signal_handlers (mkProcess inherited 0)).

(** The shutdown check, [g_shutdown != 0]. *)
Definition shutdown_check (t : Trace) : bool :=
  match process t with Some p => negb (g_shutdown p =? 0) | None => false end.

Definition signalled : Kernel := {|
  k_socket := k_socket; k_bind := k_bind; k_listen := k_listen; k_read := k_read; k_send := k_send;
  k_accept := k_accept; k_open := k_open; k_getfl := k_getfl; k_setfl := k_setfl; k_setopt := k_setopt;
  k_poll_add := k_poll_add; k_poll_mod := k_poll_mod; k_poll_del := k_poll_del; k_wait := k_wait;
  k_shutdown := shutdown_check;
|}.

Lemma signalled_ok retries : @kernel_ok KE retries → @kernel_ok signalled retries.
Proof. by intros []. Qed.

(** ** What the flag means *)
Definition prepared (p : Process) : Prop :=
  disposition p SIGINT = Handler handle_signal ∧ disposition p SIGTERM = Handler handle_signal ∧
  disposition p SIGPIPE = SIG_IGN.

Definition asks_to_stop (sigs : list signal) : Prop := SIGINT ∈ sigs ∨ SIGTERM ∈ sigs.

#[local] Instance asks_to_stop_dec sigs : Decision (asks_to_stop sigs).
Proof. unfold asks_to_stop. apply _. Defined.

Lemma install_prepared p : prepared (install_signal_handlers p).
Proof. done. Qed.

Lemma asks_nil : ¬ asks_to_stop [].
Proof. by intros [H|H]; apply not_elem_of_nil in H. Qed.

Lemma asks_cons sig sigs : asks_to_stop (sig :: sigs) ↔ sig ≠ SIGPIPE ∨ asks_to_stop sigs.
Proof. unfold asks_to_stop. rewrite !elem_of_cons. destruct sig; naive_solver. Qed.

Lemma deliver_all_prepared sigs p :
  prepared p → ∃ p', deliver_all sigs p = Some p' ∧ prepared p' ∧
    g_shutdown p' = if decide (asks_to_stop sigs) then 1 else g_shutdown p.
Proof.
  revert p. induction sigs as [|sig sigs IH]; intros p Hp.
  { exists p. split_and!; [done|done|]. by rewrite decide_False by apply asks_nil. }
  assert (∃ p1, deliver sig p = Some p1 ∧ prepared p1 ∧
    g_shutdown p1 = if decide (sig = SIGPIPE) then g_shutdown p else 1) as (p1 & H1 & Hp1 & Hg1).
  { destruct Hp as (E1 & E2 & E3). unfold deliver. destruct sig; rewrite ?E1, ?E2, ?E3; by eexists. }
  destruct (IH p1 Hp1) as (p2 & H2 & Hp2 & Hg2). exists p2. simpl. rewrite H1. split_and!; [done|done|].
  rewrite Hg2, Hg1. pose proof (asks_cons sig sigs). repeat case_decide; naive_solver.
Qed.

Lemma raised_by_nothing a : raised_by a = [].
Proof. destruct a as [| | | |fd p [e|n]| | | | | | | | | | |]; simpl; by rewrite ?andb_false_r. Qed.

(** A signal that asks to stop arrived before one of the calls [i .. i + n]. *)
Definition stop_asked (i n : nat) : Prop := ∃ j, (i ≤ j ≤ i + n)%nat ∧ asks_to_stop (arrivals j).

Lemma stop_asked_S i n : stop_asked i (S n) ↔ asks_to_stop (arrivals i) ∨ stop_asked (S i) n.
Proof.
  split.
  - intros (j & Hj & Ha). destruct (decide (j = i)) as [->|]; [by left|]. right. exists j. split; [lia|done].
  - intros [Ha|(j & Hj & Ha)]; [exists i|exists j]; (split; [lia|done]).
Qed.

Lemma process_after_prepared t : ∀ i p, prepared p →
  ∃ p', process_after i t p = Some p' ∧ (g_shutdown p' ≠ 0 ↔ g_shutdown p ≠ 0 ∨ stop_asked i (length t)).
Proof.
  induction t as [|a t IH]; intros i p Hp; destruct (deliver_all_prepared (arrivals i) p Hp) as (p1 & H1 & Hp1 & Hg1).
  - exists p1. simpl. rewrite H1. split; [done|]. rewrite Hg1. split.
    + case_decide; [|by left]. intros _. right. exists i. split; [lia|done].
    + intros [Hg|(j & Hj & Ha)]; [case_decide; [done|exact Hg]|].
      replace j with i in Ha by (simpl in Hj; lia). by rewrite decide_True.
  - destruct (IH (S i) p1 Hp1) as (p2 & H2 & Hg2). exists p2. simpl. rewrite H1. simpl. rewrite raised_by_nothing.
    split; [done|]. rewrite Hg2, stop_asked_S, Hg1. case_decide; naive_solver.
Qed.

Lemma process_alive t : ∃ p, process t = Some p ∧ (g_shutdown p ≠ 0 ↔ stop_asked 0 (length t)).
Proof.
  destruct (process_after_prepared t 0 _ (install_prepared (mkProcess inherited 0))) as (p & H1 & H2).
  exists p. split; [done|]. rewrite H2. naive_solver.
Qed.

Lemma shutdown_check_spec t : shutdown_check t = true ↔ stop_asked 0 (length t).
Proof.
  destruct (process_alive t) as (p & Hp & Hg). unfold shutdown_check. rewrite Hp, <-Hg.
  by rewrite negb_true_iff, Z.eqb_neq.
Qed.
End Signals.

(** ** The program under signals *)
Section Life.
Context {KE : Kernel} (retries : nat) (time : nat → Z).
Context (layout : nat → gset bytes → list (list bytes)).
Context (strerror : errno → bytes) (inet_pton : bytes → bool) (poller_valid : bool) (backend : bytes).
Context (arrivals : nat → list signal) (inherited : signal → Disposition).

Definition calls_of (o : Outcome) : Trace :=
  match o with Refused _ => [] | Exited _ _ s | Serving s => trace s end.

(** [None]: killed by a signal. *)
Definition main_signalled (args : list bytes) (random_device : Z) (n : nat) : option Outcome :=
  let o := @main (signalled arrivals inherited) retries time layout strerror inet_pton poller_valid backend
             args random_device n in
  match o with
  | Refused _ => Some o
  | _ => _ ← process arrivals inherited (calls_of o); Some o
  end.

Lemma main_survives args seed n : ∃ o, main_signalled args seed n = Some o ∧
  o = @main (signalled arrivals inherited) retries time layout strerror inet_pton poller_valid backend args seed n.
Proof.
  unfold main_signalled. set (o := main _ _ _ _ _ _ _ _ _ _). exists o.
  destruct (process_alive arrivals inherited (calls_of o)) as (p & Hp & _). rewrite Hp. by destruct o.
Qed.
End Life.
