(* ===== verification/Types.v ===== *)
(** * Machine types

    Every number the program keeps stays within the C++ type it is declared
    with.  The ranges of deadlines are part of [store_ok], those of the parser
    of [parser_ok]; here are the generator of [std::minstd_rand], the counter
    of expired keys and the options.  [run_log] carries them from the
    keyspace's operations to any run of the server. *)
From S2P Require Import Prelude Digits Buffer Inline Parser Stream Writer Keyspace Expire Commands.
From S2P Require Import Options Spec Refine Handlers Dispatch Linear Session Kernel Server Input Serial.
From S2P Require Import ServerInv Events ServerSerial Memory Main.
Import Db (the_db, reads, mkWorld, map_).

(** ** The generator never reaches zero, where it would stay *)
Definition in_rng (x : Z) : Prop := 1 ≤ x ≤ 2147483646.

Lemma minstd_seed_range s : in_rng (Db.minstd_seed s).
Proof.
  unfold in_rng, Db.minstd_seed. pose proof (Z.mod_pos_bound s 2147483647).
  destruct (Z.eqb_spec (s `mod` 2147483647) 0); lia.
Qed.

Lemma minstd_next_range x : in_rng x → in_rng (Db.minstd_next x).
Proof.
  unfold in_rng, Db.minstd_next. intros Hx. pose proof (Z.mod_pos_bound (48271 * x) 2147483647).
  assert ((48271 * x) `mod` 2147483647 ≠ 0); [|lia]. intros H0.
  apply Z.mod_divide in H0; [|lia]. apply Z.gauss in H0; [|reflexivity].
  apply Z.divide_pos_le in H0; lia.
Qed.

(** ** The keyspace's counters *)
Definition counted (w : Db.World) : Prop :=
  in_rng (Db.rng_ (the_db w)) ∧ in_u64 (Db.expired_count_ (the_db w)).

Definition counts (w w' : Db.World) : Prop := counted w → counted w'.

#[export] Instance counts_preorder : PreOrder counts.
Proof. split; [by intros w Hw|]. intros w w1 w2 H1 H2 Hw. by apply H2, H1. Qed.

Lemma counts_update f :
  (∀ d, Db.rng_ (f d) = Db.rng_ d ∨ Db.rng_ (f d) = Db.minstd_next (Db.rng_ d)) →
  (∀ d, Db.expired_count_ (f d) = Db.expired_count_ d ∨ in_u64 (Db.expired_count_ (f d))) →
  respects counts (Db.update f).
Proof.
  intros Hr He w [H1 H2]. split; simpl.
  - destruct (Hr (the_db w)) as [-> | ->]; [done|by apply minstd_next_range].
  - destruct (He (the_db w)) as [-> | ?]; done.
Qed.

Lemma counts_reclaim_all keys : respects counts (Db.update (reclaim_all keys)).
Proof.
  induction keys as [|k keys IH]; intros w; [by intros ?|].
  etrans; [apply (counts_update (Db.reclaim k))|apply (IH (Db.update (Db.reclaim k) w).2)]; intros d; [by left|].
  right. apply u64_range.
Qed.

#[local] Hint Extern 1 (respects counts (Db.update (reclaim_all _))) => apply counts_reclaim_all : methods.
#[local] Hint Extern 2 (respects counts (Db.update _)) =>
  apply counts_update; intros ?; unfold Db.set_string; repeat case_match;
  solve [by left|by right|right; apply u64_range] : methods.
#[local] Hint Extern 1 (respects counts get) => apply respects_get; apply _ : methods.

Section Counters.
Context (time : nat → Z) (layout : nat → gset bytes → list (list bytes)).

Lemma counts_now : respects counts (Db.now_ms time).
Proof. by intros w ?. Qed.

#[local] Hint Resolve counts_now : methods.

Lemma counts_lookup k : respects counts (Db.lookup time k).
Proof. unfold Db.lookup. method. Qed.

#[local] Hint Resolve counts_lookup : methods.

Lemma counts_erase k : respects counts (Db.erase time k).
Proof. unfold Db.erase. method. Qed.

Lemma counts_set_expire_at k e : respects counts (Db.set_expire_at time k e).
Proof. unfold Db.set_expire_at. method. Qed.

Lemma counts_persist k : respects counts (Db.persist time k).
Proof. unfold Db.persist. method. Qed.

Lemma counts_pttl k : respects counts (Db.pttl time k).
Proof. unfold Db.pttl. method. Qed.

Lemma counts_sample n : respects counts (sample time layout n).
Proof. intros w [H1 H2]. split; [by apply minstd_next_range|exact H2]. Qed.

#[local] Hint Resolve counts_sample : methods.

Lemma counts_cycle n : respects counts (active_expire_cycle time layout n).
Proof.
  unfold active_expire_cycle. destruct (n =? 0)%nat; [method|]. generalize 0%nat.
  induction kMaxRounds as [|fuel IH]; intros r; simpl; method.
Qed.

#[local] Hint Resolve counts_erase counts_set_expire_at counts_persist counts_pttl : methods.

(** *** A handler touches the keyspace through [db] only *)
Context {B : Type} `{!ByteQueue B}.

Definition ctx_counts (c c' : CommandContext B) : Prop := counts (world c) (world c').

#[local] Instance ctx_counts_preorder : PreOrder ctx_counts.
Proof.
  split; [intros c; unfold ctx_counts; reflexivity|]. intros c c1 c2. unfold ctx_counts. intros H1 H2. by etrans.
Qed.

Lemma ctx_db {A} (m : ST Db.World A) : respects counts m → respects ctx_counts (db m).
Proof. intros Hm c. specialize (Hm (world c)). unfold db. by destruct (m (world c)). Qed.

Lemma ctx_same {A} (m : ST (CommandContext B) A) : (∀ c, world (m c).2 = world c) → respects ctx_counts m.
Proof. intros Hm c. unfold ctx_counts. by rewrite Hm. Qed.

#[local] Hint Extern 1 (respects ctx_counts (db _)) => apply ctx_db; auto with methods : methods.
#[local] Hint Extern 1 (respects ctx_counts get) => apply respects_get; apply _ : methods.
#[local] Hint Extern 2 (respects ctx_counts _) =>
  apply ctx_same; intros ?; unfold arg, argc, say, set_close; by repeat case_match : methods.

Lemma ctx_del_loop keys n : respects ctx_counts (del_loop time keys n).
Proof. revert n. induction keys as [|k keys IH]; intros n; simpl; method. Qed.

Lemma ctx_exists_loop keys n : respects ctx_counts (exists_loop time keys n).
Proof. revert n. induction keys as [|k keys IH]; intros n; simpl; method. Qed.

#[local] Hint Resolve ctx_del_loop ctx_exists_loop : methods.

Lemma ctx_handler h : respects ctx_counts (run_handler time h).
Proof.
  destruct h; cbn [run_handler]; unfold do_ping, do_echo, do_quit, do_set, do_get, incr_by, do_del, do_exists,
    do_type, do_expire, do_ttl, do_persist, do_dbsize, do_flushall, do_command; method.
Qed.

#[local] Hint Resolve ctx_handler : methods.

Lemma ctx_dispatch : respects ctx_counts (dispatch time).
Proof. unfold dispatch. method. Qed.
End Counters.

(** *** Any log *)
Lemma run_log_counts time layout log w : counts w (run_log time layout log w).2.
Proof.
  revert w. induction log as [|e log IH]; intros w; [reflexivity|]. simpl.
  assert (counts w (run_entry time layout e w).2) as He.
  { destruct e as [id args|id msg|n]; simpl.
    - apply (ctx_dispatch time (new_ctx args Buffer.empty_buffer w)).
    - reflexivity.
    - apply counts_cycle. }
  destruct (run_entry time layout e w) as [o1 w1]. specialize (IH w1). destruct (run_log time layout log w1) as [o2 w2].
  cbn [snd] in *. by etrans.
Qed.

(** ** Every number the server keeps, in its type

    Deadlines are [int64_t], the state of the generator and the counter of
    expired keys are unsigned, a buffer's cursors are [size_t] and in order, the
    parser's counters are [int64_t], -1 standing for none. *)
Record parser_typed (p : Parser) : Prop := {
  typed_remaining : 0 ≤ args_remaining_ p ≤ 1048576;
  typed_arg_len : -1 ≤ arg_len_ p ≤ 2 ^ 29;
  typed_args : Forall (λ a : bytes, Z.of_nat (length a) ≤ 2 ^ 29) (argv_ p);
}.

Record server_typed (s : Server) : Prop := {
  typed_values k v : map_ (the_db (db_ s)) !! k = Some v → value_ok v;
  typed_counters : counted (db_ s);
  typed_config : config_ok (cfg_ s);
  typed_timer : tick_interval_ms_ s = tick_interval_ms (cfg_ s);
  typed_listen : 0 ≤ listen_fd_ s;
  typed_conns fd c : conns_ s !! fd = Some c →
    (Buffer.ok (in_ c) ∧ Buffer.ok (out_ c)) ∧ parser_typed (parser c);
}.

Lemma parser_ok_typed p : parser_ok p → limits_ p = default_limits → parser_typed p.
Proof.
  intros (_ & Hargs & Hst & Hrem) Hl. rewrite Hl in *. simpl in *. split.
  - destruct (state_ p); [rewrite Hst; simpl; lia|..]; destruct Hrem; (done || lia).
  - destruct (state_ p); [rewrite Hst; simpl; lia|lia..].
  - done.
Qed.

Lemma run_typed {KE : Kernel} retries time layout n s :
  kernel_ok retries → clock_ok time → layout_ok layout → started s → config_ok (cfg_ s) →
  server_typed (run time layout retries n s).2.
Proof.
  intros HK Hclock Hlayout Hs Hcfg.
  destruct (run_serial retries HK time Hclock layout Hlayout (db_ s) n s Hs eq_refl) as [log [Hdb _ _ _ _]].
  pose proof (run_memory retries HK time Hclock layout Hlayout n s Hs) as Hmem.
  destruct Hmem as [_ Hsame]; [destruct Hcfg; lia|].
  destruct (timed_tick _ _ (stable_run timed time layout retries n s)) as [_ Htick].
  pose proof (run_inv retries HK time Hclock layout Hlayout n s Hs) as Hi.
  split.
  - intros k v Hk. destruct (inv_store _ _ _ Hi) as [_ Hv]. by apply (Hv k).
  - rewrite <-Hdb. apply run_log_counts. destruct (started_db _ Hs) as [seed ->].
    split; [apply minstd_seed_range|simpl; mach; lia].
  - by rewrite Hsame.
  - rewrite Hsame, Htick. apply Hs.
  - apply (inv_listen_pos _ _ _ Hi).
  - intros fd c Hc. destruct (inv_pre _ _ _ Hi fd c Hc) as [H1 H2 H3 H4].
    split; [by split|by apply parser_ok_typed].
Qed.
