(* ===== verification/Sockets.v ===== *)
(** * Socket addresses

    [local_port] and [peer_name] of [src/net/socket.cpp], and
    [Server::bound_port].  An address holds its port in network order, most
    significant byte first; [ntohs] and [htons] convert, which is a swap of the
    two bytes on a little-endian host.  [getsockname], [getpeername] and
    [inet_ntop] are parameters; [None] is failure. *)
From S2P Require Import Prelude Digits Inline Parser Keyspace Commands Buffer Kernel Server Main.

(** [sin_port] and [sin_addr], as stored. *)
Record sockaddr_in := mkSockaddr { sin_port : Z; sin_addr : Z }.

Definition swap16 (x : Z) : Z := Z.lor (Z.shiftl (Z.land x 255) 8) (Z.shiftr x 8).

Section Sockets.
Context (little_endian : bool) (getsockname getpeername : Z → option sockaddr_in) (inet_ntop : Z → option bytes).

Definition ntohs (x : Z) : Z := if little_endian then swap16 x else x.

Definition local_port (fd : Z) : Z :=
  match getsockname fd with None => 0 | Some addr => ntohs (sin_port addr) end.

Definition bound_port (s : Server) : Z := if listen_fd_ s <? 0 then 0 else local_port (listen_fd_ s).

Definition peer_name (fd : Z) : bytes :=
  match getpeername fd with
  | None => $"?"
  | Some addr =>
      match inet_ntop (sin_addr addr) with
      | None => $"?"
      | Some ip => ip ++ $":" ++ std_to_string (ntohs (sin_port addr))
      end
  end.

(** ** The two bytes change places *)
Lemma swap16_bytes x : 0 ≤ x < 2 ^ 16 → swap16 x = x `mod` 256 * 256 + x `div` 256.
Proof.
  intros Hx. unfold swap16. change 255 with (Z.ones 8). rewrite Z.land_ones, Z.shiftr_div_pow2 by lia.
  rewrite <-(Z.shiftl_mul_pow2 _ 8) by lia. change (2 ^ 8) with 256. set (lo := x `div` 256).
  assert (0 ≤ lo < 2 ^ 8) as Hlo by (split; [apply Z.div_pos; lia|apply Z.div_lt_upper_bound; lia]).
  assert (Z.land (Z.shiftl (x `mod` 256) 8) lo = 0) as H0.
  { apply Z.bits_inj_0. intros n. rewrite Z.land_spec. destruct (Z.ltb_spec n 8) as [Hn|Hn].
    - by rewrite Z.shiftl_spec_low.
    - rewrite (Z.bits_above_log2 lo), andb_false_r; [done|lia|].
      destruct (decide (lo = 0)) as [->|]; [simpl; lia|]. apply Z.log2_lt_pow2; [lia|].
      eapply Z.lt_le_trans; [apply Hlo|apply Z.pow_le_mono_r; lia]. }
  rewrite Z.add_nocarry_lxor by done. symmetry. by apply Z.lxor_lor.
Qed.

Lemma swap16_range x : 0 ≤ x < 2 ^ 16 → 0 ≤ swap16 x < 2 ^ 16.
Proof. intros Hx. rewrite swap16_bytes by done. Z.div_mod_to_equations. lia. Qed.

(** [htons] and [ntohs] are one function, and inverse to each other. *)
Lemma ntohs_ntohs x : 0 ≤ x < 2 ^ 16 → ntohs (ntohs x) = x.
Proof.
  intros Hx. unfold ntohs. destruct little_endian; [|done]. rewrite (swap16_bytes (swap16 x)) by by apply swap16_range.
  rewrite (swap16_bytes x) by done. Z.div_mod_to_equations. lia.
Qed.

(** The port a socket is bound to is read back as the number it was bound with. *)
Lemma bound_port_exact s p addr :
  0 ≤ listen_fd_ s → 0 ≤ p < 2 ^ 16 →
  getsockname (listen_fd_ s) = Some addr → sin_port addr = ntohs p → bound_port s = p.
Proof.
  intros Hl Hp Hg Ha. unfold bound_port, local_port. replace (listen_fd_ s <? 0) with false by lia.
  rewrite Hg, Ha. by apply ntohs_ntohs.
Qed.

Lemma ntohs_inj x y : 0 ≤ x < 2 ^ 16 → 0 ≤ y < 2 ^ 16 → ntohs x = ntohs y → x = y.
Proof. intros Hx Hy E. by rewrite <-(ntohs_ntohs x), E, ntohs_ntohs. Qed.

Lemma ntohs_range x : 0 ≤ x < 2 ^ 16 → 0 ≤ ntohs x < 2 ^ 16.
Proof. unfold ntohs. destruct little_endian; [apply swap16_range|done]. Qed.

Lemma to_string_inj n m : 0 ≤ n ≤ INT64_MAX → 0 ≤ m ≤ INT64_MAX → std_to_string n = std_to_string m → n = m.
Proof.
  intros Hn Hm E. destruct (to_string_digits n Hn) as (_ & _ & <-), (to_string_digits m Hm) as (_ & _ & <-).
  by rewrite E.
Qed.

(** What stands before the first separator is read back. *)
Lemma before_separator {A} (c : A) l1 l2 r1 r2 :
  c ∉ l1 → c ∉ l2 → l1 ++ c :: r1 = l2 ++ c :: r2 → l1 = l2 ∧ r1 = r2.
Proof.
  revert l2. induction l1 as [|a l1 IH]; intros [|b l2] H1 H2 E; simpl in E; simplify_eq.
  - done.
  - destruct H2. apply list_elem_of_here.
  - destruct H1. apply list_elem_of_here.
  - rewrite not_elem_of_cons in H1, H2. destruct H1 as [_ H1], H2 as [_ H2]. by destruct (IH l2 H1 H2) as [-> ->].
Qed.

(** Different peers have different names in the log, when the text of an
    address holds no colon and is of one address. *)
Lemma peer_name_inj fd fd' a b :
  (∀ x ip, inet_ntop x = Some ip → ":"%char ∉ ip) →
  (∀ x y, is_Some (inet_ntop x) → inet_ntop x = inet_ntop y → x = y) →
  getpeername fd = Some a → getpeername fd' = Some b → is_Some (inet_ntop (sin_addr a)) →
  is_Some (inet_ntop (sin_addr b)) → 0 ≤ sin_port a < 2 ^ 16 → 0 ≤ sin_port b < 2 ^ 16 →
  peer_name fd = peer_name fd' → a = b.
Proof.
  intros Hcolon Hinj Ha Hb [ip Hip] [ip' Hip'] Hpa Hpb. unfold peer_name. rewrite Ha, Hb, Hip, Hip'.
  intros E. apply (before_separator ":"%char) in E as [-> E]; [|by eapply Hcolon..].
  pose proof (ntohs_range _ Hpa). pose proof (ntohs_range _ Hpb). apply to_string_inj in E; [|mach; lia..].
  apply ntohs_inj in E; [|done..]. destruct a as [pa xa], b as [pb xb]. simpl in *. subst pb. f_equal.
  apply Hinj; [by eexists|]. by rewrite Hip, Hip'.
Qed.
End Sockets.
