(* ===== verification/Log.v ===== *)
(** * Logging

    [src/util/log.cpp].  A line is written when its level is at least the
    minimum; it carries a time stamp made in a 32-byte array.  [gettimeofday]
    and [localtime_r] are the C library's: their results are the arguments
    [tm] and [usec].  The text of a line, what [vfprintf] makes of the format,
    is an argument too. *)
From S2P Require Import Prelude Digits.

(** ** Levels (log.h) *)
Inductive Level := Debug | Info | Warn | Error.

Definition severity (l : Level) : Z := match l with Debug => 0 | Info => 1 | Warn => 2 | Error => 3 end.

Definition level_tag (l : Level) : bytes :=
  match l with Debug => $"DEBUG" | Info => $"INFO " | Warn => $"WARN " | Error => $"ERROR" end.

(** ** Time stamps *)
Record tm := mkTm { tm_year : Z; tm_mon : Z; tm_mday : Z; tm_hour : Z; tm_min : Z; tm_sec : Z }.

(** [%02d] and [%03d] of a number that is not negative. *)
Definition padded (width : nat) (n : Z) : bytes :=
  let s := std_to_string n in replicate (width - length s) "0"%char ++ s.

Definition date (t : tm) : bytes :=
  std_to_string (tm_year t + 1900) ++ $"-" ++ padded 2 (tm_mon t + 1) ++ $"-" ++ padded 2 (tm_mday t) ++ $" " ++
  padded 2 (tm_hour t) ++ $":" ++ padded 2 (tm_min t) ++ $":" ++ padded 2 (tm_sec t).

(** The characters of [strftime]'s array that its result counts: the text, if
    it fits with its NUL; otherwise the result is 0. *)
Definition strftime (size : nat) (t : tm) : bytes :=
  if (length (date t) + 1 <=? size)%nat then date t else [].

(** [snprintf] keeps what fits before the NUL. *)
Definition snprintf (size : nat) (s : bytes) : bytes := take (size - 1) s.

Definition kStampSize : nat := 32.

Definition stamp (t : tm) (usec : Z) : bytes :=
  let s := strftime kStampSize t in
  s ++ snprintf (kStampSize - length s) ($"." ++ padded 3 (Z.quot usec 1000)).

(** ** Lines *)
Record Logger := mkLogger { g_min_level : Level; stderr : list bytes }.

Definition set_min_level (l : Level) (g : Logger) : Logger := mkLogger l (stderr g).

Definition vwrite (level : Level) (text : bytes) (t : tm) (usec : Z) (g : Logger) : Logger :=
  if severity level <? severity (g_min_level g) then g
  else
    mkLogger (g_min_level g)
      (stderr g ++ [stamp t usec ++ $" " ++ level_tag level ++ $" " ++ text ++ [LF]]).

Definition debug := vwrite Debug.

Definition info := vwrite Info.

Definition warn := vwrite Warn.

Definition error := vwrite Error.

(** ** The stamp always fits *)

(** What [localtime_r] returns: fields in their ranges, the year an [int]; and
    [gettimeofday] returns microseconds. *)
Record tm_ok (t : tm) (usec : Z) : Prop := {
  tm_ok_year : 0 ≤ tm_year t + 1900 ≤ 2 ^ 31 - 1 + 1900;
  tm_ok_mon : 0 ≤ tm_mon t ≤ 11;
  tm_ok_mday : 1 ≤ tm_mday t ≤ 31;
  tm_ok_hour : 0 ≤ tm_hour t ≤ 23;
  tm_ok_min : 0 ≤ tm_min t ≤ 59;
  tm_ok_sec : 0 ≤ tm_sec t ≤ 60;
  tm_ok_usec : 0 ≤ usec < 1000000;
}.

Lemma to_string_length k n :
  in_s64 n → 0 ≤ n < 10 ^ Z.of_nat k → k ≠ 0%nat → (length (std_to_string n) ≤ k)%nat.
Proof.
  intros Hn Hk H0. rewrite <-format_int_std_to_string by done. unfold format_int.
  destruct (n =? 0); [simpl; lia|]. rewrite magnitude_abs by done. replace (n <? 0) with false by lia.
  rewrite app_nil_l, length_rev. apply tmp_digits_length. by rewrite Z.abs_eq by lia.
Qed.

Lemma padded_length k n : in_s64 n → 0 ≤ n < 10 ^ Z.of_nat k → k ≠ 0%nat → length (padded k n) = k.
Proof.
  intros Hn Hk H0. unfold padded. rewrite length_app, length_replicate.
  pose proof (to_string_length k n Hn Hk H0). lia.
Qed.

Lemma date_length t usec : tm_ok t usec → (length (date t) ≤ 25)%nat.
Proof.
  intros []. unfold date. rewrite !length_app, !padded_length by (mach; simpl; lia). simpl.
  pose proof (to_string_length 10 (tm_year t + 1900)) as H. cut (length (std_to_string (tm_year t + 1900)) ≤ 10)%nat; [lia|].
  apply H; [mach; lia|mach; simpl; lia|done].
Qed.

Lemma stamp_ok t usec :
  tm_ok t usec → stamp t usec = date t ++ $"." ++ padded 3 (Z.quot usec 1000).
Proof.
  intros Ht. pose proof (date_length t usec Ht) as Hd. unfold stamp, strftime, kStampSize.
  replace (length (date t) + 1 <=? 32)%nat with true by lia. simpl. f_equal. unfold snprintf.
  apply take_ge. simpl length. destruct Ht.
  assert (0 ≤ Z.quot usec 1000 < 1000).
  { split; [apply Z.quot_pos; lia|]. apply Z.quot_lt_upper_bound; lia. }
  rewrite padded_length by (mach; simpl; lia). lia.
Qed.
