(* ===== verification/CommandTheorems.v ===== *)
(** * Theorems on the command layer

    From the bytes a client sends to the bytes it gets back. *)
From S2P Require Import Prelude Buffer Digits Inline Parser Stream Writer Keyspace Expire Commands.
From S2P Require Import Options Spec Refine Handlers Dispatch Linear Spread Session Kernel Server Input.
Import Db (the_db, reads, mkWorld, map_).

(** ** Concrete inputs for the witnesses *)
Definition clock_1s : nat → Z := λ _, 1000.

Definition one_bucket : nat → gset bytes → list (list bytes) := λ _ s, [elements s].

Definition fresh_world : Db.World := mkWorld (Db.new_db 7) 0.

Definition set_k_1 : list bytes := [$"SET"; $"k"; $"1"; $"PX"; $"5000"].

Definition incr_k : list bytes := [$"incr"; $"k"].

Lemma clock_1s_ok : clock_ok clock_1s.
Proof. intros i. unfold clock_1s. mach. lia. Qed.

Lemma clock_1s_mono : monotone clock_1s.
Proof. intros i j _. done. Qed.

Lemma one_bucket_ok : layout_ok one_bucket.
Proof. intros n s. simpl. by rewrite app_nil_r. Qed.

Lemma fresh_store : store_ok (the_db fresh_world).
Proof.
  split; [|by apply map_Forall_empty]. intros k. simpl. split; [set_solver|].
  intros (v & Hv & _). by rewrite lookup_empty in Hv.
Qed.

Lemma fresh_looks_like time : looks_like time ∅ fresh_world.
Proof.
  intros t _. unfold kv_of, Db.view, forget. simpl. by rewrite !map_filter_empty, fmap_empty.
Qed.

Lemma frozen_1s n k : frozen clock_1s 1000 n k.
Proof. done. Qed.

(** A clock that ticks at every reading, for a second. *)
Definition ticking : nat → Z := λ n, Z.min (1000 + Z.of_nat n) 2000.

Lemma ticking_ok : clock_ok ticking.
Proof. intros i. unfold ticking. mach. lia. Qed.

Lemma ticking_mono : monotone ticking.
Proof. intros i j Hij. unfold ticking. lia. Qed.

Lemma known_safe args cmd : find (nth 0 args []) = Some cmd → echo_safe args.
Proof. unfold echo_safe. congruence. Qed.

(** ** Helpers *)
Definition call_fine (args : list bytes) : Prop := args ≠ [] ∧ echo_safe args ∧ closes args = false.

Lemma fits_args_ok args : fits default_limits args → args ≠ [] → args_ok args.
Proof.
  intros [Hn Hf] Hne. simpl in *. split_and!; [done| |lia].
  eapply Forall_impl; [exact Hf|]. simpl. intros a Ha. unfold arg_ok. mach. lia.
Qed.

Lemma default_limits_ok : limits_ok default_limits.
Proof. unfold limits_ok. simpl. mach. lia. Qed.

Lemma calls_of_all cmds : Forall (λ a, a ≠ []) cmds → calls_of cmds = Call <$> cmds.
Proof.
  induction 1 as [|a cmds Hne _ IH]; [done|]. rewrite calls_of_nonempty by done. by rewrite IH.
Qed.

(** C4: One connection end to end.  Take any list of calls within the protocol's
    limits, none of them QUIT, encode them as a client does, and deliver the
    bytes in any chunks to a new connection, under any clock that does not go
    back; and suppose that the replies fit the output limit.  Then the
    connection consumes every byte, and its output is the wire form of one
    reply per call, in order, which the README's semantics gives from the empty
    keyspace on, each call while it runs.  If no call is an unknown command
    whose error echoes a carriage return, a RESP2 client reads exactly these
    replies. *)
Theorem pipeline_end_to_end (time : nat → Z) (layout : nat → gset bytes → list (list bytes)) (limit seed : Z)
    (cmds : list (list bytes)) (chunks : list bytes) (Hclock : clock_ok time) (Hmono : monotone time)
    (Hfits : Forall (fits default_limits) cmds) (Hcalls : Forall (λ a, a ≠ [] ∧ closes a = false) cmds)
    (Hchunks : concat chunks = concat (encode <$> cmds))
    (Hlimit : Z.of_nat (length (contents (run_history time layout (Call <$> cmds)
                (Buffer.empty_buffer, mkWorld (Db.new_db seed) 0)).1)) ≤ limit) :
  let '(c, w, e) := serve time limit chunks (new_conn : Conn Buffer.Buffer) (mkWorld (Db.new_db seed) 0) in
  e = LoopBreak ∧ contents (in_ c) = [] ∧
  ∃ rs, history_over time (reads w) 0 0 ∅ (Call <$> cmds) rs ∧
    contents (out_ c) = concat (wire <$> rs) ∧ length rs = length cmds ∧
    (Forall echo_safe cmds → read_replies (length cmds) (contents (out_ c)) = Some (rs, [])).
Proof.
  set (w := mkWorld (Db.new_db seed) 0) in *. assert (store_ok (the_db w)) as Hok by apply fresh_store.
  assert (Forall args_ok cmds) as Hargs.
  { apply Forall_forall. intros a Ha. rewrite Forall_forall in Hfits, Hcalls.
    apply fits_args_ok; [by apply Hfits|by apply Hcalls]. }
  pose proof (history_run_over time layout Hclock Hmono cmds Buffer.empty_buffer w ∅ 0) as Hover.
  specialize (Hover ltac:(done) Hargs (fresh_looks_like time) Hok ltac:(done)).
  assert (feed (new_parser default_limits) [] chunks = (cmds, new_parser default_limits, [], None)) as Hfeed.
  { apply feed_expects; [apply default_limits_ok|done|apply new_parser_ok, default_limits_ok|done|].
    rewrite Hchunks. by apply expects_start. }
  pose proof (serve_run time Hclock limit layout chunks (new_conn : Conn Buffer.Buffer) w cmds) as Hrun.
  specialize (Hrun _ _ new_conn_pre Hok Hfeed).
  rewrite calls_of_all in Hrun by (eapply Forall_impl; [exact Hcalls|]; by intros a [? _]).
  change (out_ (new_conn : Conn Buffer.Buffer)) with Buffer.empty_buffer in Hrun.
  specialize (Hrun ltac:(eapply Forall_impl; [exact Hcalls|]; by intros a [_ ?]) Hlimit).
  destruct (serve time limit chunks new_conn w) as [[c w'] e].
  change (bq_empty : Buffer.Buffer) with Buffer.empty_buffer in Hrun.
  destruct (run_history time layout (Call <$> cmds) (Buffer.empty_buffer, w)) as [o1 w1].
  destruct Hrun as (-> & -> & _ & Hin & Ho). destruct Hover as (rs & Hout & _ & Hleg & Hh).
  change (contents Buffer.empty_buffer) with (@nil byte) in Hout. rewrite app_nil_l in Hout.
  pose proof (Forall2_length _ _ _ Hleg) as Hlen. rewrite <-Ho in Hout.
  split_and!; [done|done|]. exists rs. split_and!; [done|done|done|]. intros Hecho.
  rewrite Hout, Hlen, <-(app_nil_r (concat _)). by eapply read_replies_wire, legible_sendable.
Qed.

Definition two_calls : list (list bytes) := [set_k_1; incr_k].

Definition two_calls_bytes : bytes := concat (encode <$> two_calls).

Lemma two_calls_fit : Forall (fits default_limits) two_calls.
Proof. repeat constructor; simpl; lia. Qed.

Lemma two_calls_fine : Forall call_fine two_calls.
Proof.
  repeat constructor; (done || (eapply known_safe; vm_compute; reflexivity) || (vm_compute; reflexivity)).
Qed.

(** The calls tick the clock; the first deletes two keys, each at its time. *)
Definition three_calls : list (list bytes) := [[$"DEL"; $"a"; $"k"]; set_k_1; incr_k].

Definition three_calls_bytes : bytes := concat (encode <$> three_calls).

Lemma pipeline_end_to_end_witness :
  let '(c, w, e) := serve ticking 4096 [take 7 three_calls_bytes; drop 7 three_calls_bytes]
                      (new_conn : Conn Buffer.Buffer) fresh_world in
  e = LoopBreak ∧ contents (in_ c) = [] ∧
  ∃ rs, history_over ticking (reads w) 0 0 ∅ (Call <$> three_calls) rs ∧
    contents (out_ c) = concat (wire <$> rs) ∧ length rs = 3%nat ∧
    (Forall echo_safe three_calls → read_replies 3 (contents (out_ c)) = Some (rs, [])).
Proof.
  apply (pipeline_end_to_end ticking one_bucket 4096 7 three_calls
           [take 7 three_calls_bytes; drop 7 three_calls_bytes]).
  - apply ticking_ok.
  - apply ticking_mono.
  - repeat constructor; simpl; lia.
  - repeat constructor; done.
  - unfold concat. by rewrite app_nil_r, take_drop.
  - apply Z.leb_le. vm_compute. reflexivity.
Defined.

(** C6: One call.  Whatever argument vector the parser hands over, dispatch
    appends exactly one reply, keeps the store well formed, never indexes
    [argv] out of bounds and closes exactly on QUIT.  If the clock stands still
    during the call, the reply, and the keyspace a client sees afterwards, are
    the ones the README's semantics gives at that time.  If the clock moves, but
    not back, they are among those that [takes] allows of a call from its start
    to its end: the README's at one instant in between, but for DEL and EXISTS
    of several keys, SET XX with a lifetime, and EXPIRE, whose instants are
    several.  And the reply can be read by a RESP2 client, unless it is the
    error for an unknown command with a carriage return in it. *)
Theorem dispatch_refines (time : nat → Z) (c : CommandContext Buffer.Buffer)
    (Hclock : clock_ok time) (Hout : Buffer.ok (out c)) (Hargs : args_ok (argv c)) (Hok : store_ok (the_db (world c))) :
  let c' := (dispatch time c).2 in
  let d := the_db (world c) in
  let start := reads (world c) in
  let entries := s64 (Z.of_nat (Db.size d)) in
  Buffer.ok (out c') ∧ store_ok (the_db (world c')) ∧
  (start ≤ reads (world c') ≤ start + clock_reads (argv c))%nat ∧ oob c' = oob c ∧ close_after_reply c' = close_after_reply c || closes (argv c) ∧
  (∀ now, frozen time now start (clock_reads (argv c)) →
     let '(r, kv') := respond now entries (argv c) (kv_of now d) in
     Buffer.to_string (out c') = Buffer.to_string (out c) ++ wire r ∧ kv_of now (the_db (world c')) = kv' ∧
     (echo_safe (argv c) → sendable r)) ∧
  (monotone time → ∃ r kv',
     takes (time (reads (world c'))) (time start) entries (argv c) (kv_of (time start) d) r kv' ∧
     Buffer.to_string (out c') = Buffer.to_string (out c) ++ wire r ∧
     (∀ t, time (reads (world c')) ≤ t → kv_of t (the_db (world c')) = forget t kv') ∧
     (echo_safe (argv c) → sendable r)).
Proof.
  cbv zeta. destruct (dispatch_answers time Hclock c Hargs Hok) as (g & r & w' & Hm & Hg & Hp & Hr & Hkv).
  destruct (Hg (out c) Hout) as [H1 H2]. split_and!; [by rewrite Hm|rewrite Hm; by apply Hp|rewrite Hm; apply Hp..|by rewrite Hm|by rewrite Hm| |].
  - intros now Hnow. rewrite (Hkv now Hnow), Hm. by split_and!.
  - intros Hmono. destruct (dispatch_spreads time Hclock Hmono c Hargs Hok) as (g2 & r2 & w2 & Hm2 & Hg2 & Hr2 & _ & Hs).
    destruct (Hs (kv_of (time (reads (world c))) (the_db (world c)))) as (kv' & Ht & Hl).
    { intros t Ht. by apply kv_later. }
    destruct (Hg2 (out c) Hout) as [_ H3]. exists r2, kv'. rewrite Hm2. by split_and!.
Qed.

Definition fresh_call (args : list bytes) : CommandContext Buffer.Buffer :=
  new_ctx args Buffer.empty_buffer fresh_world.

Lemma dispatch_refines_witness :
  let c' := (dispatch clock_1s (fresh_call set_k_1)).2 in
  Buffer.ok (out c') ∧ store_ok (the_db (world c')) ∧ (0 ≤ reads (world c') ≤ 0 + 2)%nat ∧ oob c' = false ∧ close_after_reply c' = closes set_k_1 ∧
  (∀ now, frozen clock_1s now 0 (clock_reads set_k_1) →
     let '(r, kv') := respond now 0 set_k_1 (kv_of now (the_db fresh_world)) in
     Buffer.to_string (out c') = Buffer.to_string Buffer.empty_buffer ++ wire r ∧
     kv_of now (the_db (world c')) = kv' ∧ (echo_safe set_k_1 → sendable r)) ∧
  (monotone clock_1s → ∃ r kv',
     takes 1000 1000 0 set_k_1 (kv_of 1000 (the_db fresh_world)) r kv' ∧
     Buffer.to_string (out c') = Buffer.to_string Buffer.empty_buffer ++ wire r ∧
     (∀ t, 1000 ≤ t → kv_of t (the_db (world c')) = forget t kv') ∧
     (echo_safe set_k_1 → sendable r)).
Proof.
  apply (dispatch_refines clock_1s (fresh_call set_k_1)).
  - apply clock_1s_ok.
  - done.
  - apply fits_args_ok; [|done]. pose proof two_calls_fit as H. by apply Forall_inv in H.
  - apply fresh_store.
Defined.

(** C7: A call takes effect at one instant, even though the clock ticks while
    it runs.  If the clock does not go back, then for every call but the ones
    that [one_instant] excludes there is an instant between its start and its
    end at which the README's semantics gives exactly the reply that was
    appended, and turns the keyspace a client saw into the one it sees.  TTL of
    a key that dies between the two readings of the clock is such a call: it is
    answered as in the last millisecond of the key's life. *)
Theorem calls_take_one_instant (time : nat → Z) (c : CommandContext Buffer.Buffer)
    (Hclock : clock_ok time) (Hmono : monotone time) (Hout : Buffer.ok (out c)) (Hargs : args_ok (argv c))
    (Hecho : echo_safe (argv c)) (Hok : store_ok (the_db (world c))) (Hone : one_instant (argv c) = true) :
  let c' := (dispatch time c).2 in
  let d := the_db (world c) in
  ∃ now r, time (reads (world c)) ≤ now ≤ time (reads (world c')) ∧
    respond now (s64 (Z.of_nat (Db.size d))) (argv c) (kv_of now d) = (r, kv_of now (the_db (world c'))) ∧
    Buffer.to_string (out c') = Buffer.to_string (out c) ++ wire r ∧ sendable r.
Proof.
  destruct (dispatch_instant time Hclock Hmono c Hargs Hecho Hok) as (g & r & w' & now & Hm & Hg & Hr & _ & Hnow & Hf);
    [by left|]. cbv zeta. exists now, r. rewrite Hm. destruct (Hg (out c) Hout) as [_ H2]. split; [exact Hnow|by split_and!].
Qed.

(** A key that dies at the second reading of the clock. *)
Definition dying (deadline : Z) : Db.World :=
  mkWorld (Db.set_string $"k" $"v" deadline (Db.new_db 7)) 0.

Lemma dying_ok d : 0 ≤ d ≤ INT64_MAX → store_ok (the_db (dying d)).
Proof. intros Hd. apply store_ok_set_string; [apply fresh_store|done|simpl; mach; lia]. Qed.

Definition ttl_of_dying : CommandContext Buffer.Buffer := new_ctx [$"TTL"; $"k"] Buffer.empty_buffer (dying 1001).

Lemma calls_take_one_instant_witness :
  let c' := (dispatch ticking ttl_of_dying).2 in
  let d := the_db (dying 1001) in
  Buffer.to_string (out c') = $":0" ++ CRLF ∧
  ∃ now r, 1000 ≤ now ≤ ticking (reads (world c')) ∧
    respond now 1 [$"TTL"; $"k"] (kv_of now d) = (r, kv_of now (the_db (world c'))) ∧
    Buffer.to_string (out c') = Buffer.to_string Buffer.empty_buffer ++ wire r ∧ sendable r.
Proof.
  split; [vm_compute; reflexivity|].
  apply (calls_take_one_instant ticking ttl_of_dying).
  - apply ticking_ok.
  - apply ticking_mono.
  - unfold Buffer.ok. simpl. lia.
  - split_and!; [done| |simpl; lia]. repeat constructor; unfold arg_ok; simpl; mach; lia.
  - eapply known_safe. vm_compute. reflexivity.
  - apply dying_ok. mach. lia.
  - vm_compute. reflexivity.
Defined.

(** C40: EXPIRE may confirm a lifetime that it does not give.  It looks the key
    up, reads the clock for the new deadline, and then looks the key up again
    to store it, without regard to whether it is still there: a key whose old
    deadline comes in between is reclaimed by the second lookup, and the client
    is told 1.  No instant explains that: at none does the README's semantics
    answer 1 and leave the keyspace without the key. *)
Theorem expire_can_lose_key (time : nat → Z) (c : CommandContext Buffer.Buffer) (cmd key a : bytes) (s : Z) (v : Value)
    (Hout : Buffer.ok (out c)) (Hargv : argv c = [cmd; key; a]) (Hcmd : to_lower_ascii cmd = $"expire")
    (Ha : string_to_int64 a = Some s) (Hs : 0 < s)
    (Hclock : clock_ok time) (Hfits : time (S (reads (world c))) + s * 1000 ≤ INT64_MAX)
    (Hv : map_ (the_db (world c)) !! key = Some v) (Hexp : has_expiry v = true)
    (Hdies : time (reads (world c)) < expire_at_ms v ≤ time (S (S (reads (world c))))) :
  let c' := (dispatch time c).2 in
  Buffer.to_string (out c') = Buffer.to_string (out c) ++ $":1" ++ CRLF ∧
  map_ (the_db (world c')) !! key = None ∧
  ∀ now n, respond now n (argv c) (kv_of now (the_db (world c))) ≠
    (RInteger 1, kv_of now (the_db (world c'))).
Proof.
  pose proof (dispatch_known time c cmd [key; a] (mkCommand $"expire" cmd_expire 3) Hargv) as Hd.
  rewrite Hd; [|simpl; lia|unfold find; rewrite instance_lookup, Hcmd; reflexivity|reflexivity]. clear Hd.
  cbn [handler run_handler].
  assert ((do_expire time c).2 = (say (reply.integer 1)
    (with_world (mkWorld (Db.reclaim key (the_db (world c))) (S (S (S (reads (world c)))))) c)).2) as ->.
  { unfold do_expire. erewrite run_arg by (by rewrite Hargv). rewrite Ha. erewrite run_arg by (by rewrite Hargv).
    pose proof (Db.lookup_cases time key (world c)) as Hl. cbv zeta in Hl. rewrite Hv in Hl.
    unfold is_expired in Hl. rewrite Hexp in Hl. simpl in Hl. replace (_ <=? _) with false in Hl by lia.
    rewrite run_db, Hl. cbn [fst snd]. replace (s <=? 0) with false by lia. rewrite run_db. cbn [fst snd Db.now_ms world with_world].
    pose proof (Hclock (S (reads (world c)))). cbn [reads the_db]. rewrite ttl_to_deadline_positive by lia.
    replace (INT64_MAX <? _) with false by lia. rewrite run_db. unfold Db.set_expire_at. rewrite bind_run.
    cbn [world with_world]. set (w2 := mkWorld _ (S (S _))).
    pose proof (Db.lookup_cases time key w2) as Hl2. cbv zeta in Hl2. cbn [the_db reads w2] in Hl2. rewrite Hv in Hl2.
    unfold is_expired in Hl2. rewrite Hexp in Hl2. simpl in Hl2. replace (_ <=? _) with true in Hl2 by lia.
    by rewrite Hl2. }
  cbv zeta. simpl. destruct (integer_encodes 1 ltac:(done) (out c) Hout) as [_ Hw]. split_and!; [exact Hw|apply lookup_delete_eq|].
  intros now n. rewrite Hargv. unfold respond, request. rewrite Hcmd.
  repeat (rewrite decide_False by done). rewrite decide_True by done. rewrite Ha. unfold exec, store_until.
  destruct (kv_of now (the_db (world c)) !! key) as [e|]; [|done]. replace (s <=? 0) with false by lia.
  destruct (INT64_MAX <? _); [done|]. intros [= Hkv]. apply (f_equal (lookup key)) in Hkv.
  rewrite lookup_insert_eq, kv_lookup, Db.view_lookup in Hkv. simpl in Hkv. by rewrite lookup_delete_eq in Hkv.
Qed.

Definition expire_dying : CommandContext Buffer.Buffer :=
  new_ctx [$"EXPIRE"; $"k"; $"100"] Buffer.empty_buffer (dying 1002).

Lemma expire_can_lose_key_witness :
  let c' := (dispatch ticking expire_dying).2 in
  Buffer.to_string (out c') = Buffer.to_string Buffer.empty_buffer ++ $":1" ++ CRLF ∧
  map_ (the_db (world c')) !! $"k" = None ∧
  ∀ now n, respond now n [$"EXPIRE"; $"k"; $"100"] (kv_of now (the_db (dying 1002))) ≠
    (RInteger 1, kv_of now (the_db (world c'))).
Proof.
  apply (expire_can_lose_key ticking expire_dying $"EXPIRE" $"k" $"100" 100 (mkValue TString $"v" 1002)).
  - unfold Buffer.ok. simpl. lia.
  - reflexivity.
  - reflexivity.
  - vm_compute. reflexivity.
  - lia.
  - apply ticking_ok.
  - unfold ticking. simpl. mach. lia.
  - vm_compute. reflexivity.
  - reflexivity.
  - unfold ticking. simpl. lia.
Defined.

(** C31: Under any clock of this era, even one that jumps between two readings:
    a call appends exactly one reply, adds at most one entry, reads the clock
    no more than [clock_reads] says (not at all, or once per key, or two or
    three times), and keeps the store well formed. *)
Theorem dispatch_any_clock (time : nat → Z) (c : CommandContext Buffer.Buffer)
    (Hclock : clock_ok time) (Hout : Buffer.ok (out c)) (Hargs : args_ok (argv c))
    (Hok : store_ok (the_db (world c))) :
  let c' := (dispatch time c).2 in
  ∃ r, Buffer.ok (out c') ∧ Buffer.to_string (out c') = Buffer.to_string (out c) ++ wire r ∧
    (echo_safe (argv c) → sendable r) ∧ store_ok (the_db (world c')) ∧ oob c' = oob c ∧
    (Db.size (the_db (world c')) ≤ S (Db.size (the_db (world c))))%nat ∧
    (reads (world c) ≤ reads (world c') ≤ reads (world c) + clock_reads (argv c))%nat.
Proof.
  destruct (dispatch_answers time Hclock c Hargs Hok) as (g & r & w' & Hm & Hg & [Hrd Hsz Hst] & Hr & _).
  destruct (Hg (out c) Hout) as [H1 H2]. exists r. rewrite Hm. simpl. split_and!; try done; [by auto|lia..].
Qed.

Lemma dispatch_any_clock_witness :
  let time := λ n, if Nat.even n then 1000 else 2000 in
  let c' := (dispatch time (fresh_call [$"TTL"; $"k"])).2 in
  ∃ r, Buffer.ok (out c') ∧ Buffer.to_string (out c') = Buffer.to_string Buffer.empty_buffer ++ wire r ∧
    (echo_safe [$"TTL"; $"k"] → sendable r) ∧ store_ok (the_db (world c')) ∧ oob c' = false ∧
    (Db.size (the_db (world c')) ≤ S (Db.size (the_db fresh_world)))%nat ∧
    (0 ≤ reads (world c') ≤ 2)%nat.
Proof.
  apply (dispatch_any_clock (λ n, if Nat.even n then 1000 else 2000) (fresh_call [$"TTL"; $"k"])).
  - intros i. mach. destruct (Nat.even i); lia.
  - done.
  - split_and!; [done| |simpl; lia]. repeat constructor; unfold arg_ok; simpl; mach; lia.
  - apply fresh_store.
Defined.

(** C30: The options of SET.  The loop accepts a list of words exactly when they
    spell, in any case, options among NX, XX, EX n and PX n with at most one
    condition and at most one lifetime, that lifetime positive; and then its
    result is their meaning. *)
Theorem set_options_grammar (opts : list bytes) (o : SetOptions) :
  set_options opts no_options = inr o ↔ ∃ l, spells opts l ∧ meaning l = Some o.
Proof. apply set_options_iff. Qed.

(** The options of SET are order independent: two spellings of the same
    options, permuted, are both refused or both mean the same. *)
Theorem set_options_any_order (opts opts' : list bytes) (l l' : list SetOpt) (o : SetOptions)
    (Hopts : spells opts l) (Hopts' : spells opts' l') (Hperm : l ≡ₚ l')
    (Ho : set_options opts no_options = inr o) :
  set_options opts' no_options = inr o.
Proof.
  apply set_options_sound in Ho as (l0 & Hl0 & Hm). rewrite add_options_meaning in Hm.
  assert (l0 = l) as -> by by eapply spells_unique.
  apply set_options_iff. exists l'. by rewrite <-(meaning_perm l l').
Qed.

Lemma set_options_any_order_witness :
  set_options [$"PX"; $"5"; $"Nx"] no_options = inr (mkSetOptions true false true 1 5).
Proof.
  apply (set_options_any_order [$"NX"; $"px"; $"5"] [$"PX"; $"5"; $"Nx"] [NX; PX 5] [PX 5; NX]).
  - apply spells_nx; [done|]. apply spells_px; [done|done|constructor].
  - apply spells_px; [done|done|]. apply spells_nx; [done|constructor].
  - apply perm_swap.
  - vm_compute. reflexivity.
Defined.

(** A deadline is exact or refused: [ttl_to_deadline] never wraps, and
    refuses exactly when the product or the sum leaves the 64-bit range. *)
Theorem deadline_exact (a u now d : Z) (Hu : 0 < u) (Hnow : in_s64 now) :
  ttl_to_deadline a u now = Some d ↔ in_s64 (a * u) ∧ in_s64 (now + a * u) ∧ d = now + a * u.
Proof. by apply ttl_to_deadline_Some. Qed.

Lemma deadline_exact_witness :
  ttl_to_deadline 9223372036854775807 1000 1700000000000 = Some 5 ↔
  in_s64 (9223372036854775807 * 1000) ∧ in_s64 (1700000000000 + 9223372036854775807 * 1000) ∧
  5 = 1700000000000 + 9223372036854775807 * 1000.
Proof. apply (deadline_exact 9223372036854775807 1000 1700000000000 5); mach; lia. Defined.

(** The unknown-command error echoes the client's command name as it is, so
    a client can make one call answered by two replies: a name that holds CRLF
    ends the error line early, and what follows reads as a reply of its own. *)
Theorem unknown_command_injects (time : nat → Z) :
  let c := new_ctx [$"x" ++ CRLF ++ $":1" ++ CRLF ++ $"-"] ([] : bytes) fresh_world in
  let '(_, c') := dispatch time c in
  ∃ e1 e2, read_replies 3 (out c') = Some ([RError e1; RInteger 1; RError e2], []).
Proof. vm_compute. by eexists _, _. Qed.

(** The output limit cuts off only a client that exceeds it: when the
    parse-and-dispatch loop stops on the limit, the pending replies are more
    than [max_output_buffer] bytes. *)
Theorem output_limit_exact (time : nat → Z) (layout : nat → gset bytes → list (list bytes)) (limit : Z)
    (c c' : Conn Buffer.Buffer) (w w' : Db.World) (cmds : list (list bytes)) (p : Parser) (s : bytes)
    (e : option bytes)
    (Hclock : clock_ok time) (Hc : conn_pre c) (Hok : store_ok (the_db w))
    (Hd : drain_all (parser c) (contents (in_ c)) = (cmds, p, s, e))
    (Hcl : Forall (λ a, closes a = false) cmds)
    (Hrun : process_loop time limit c w = (c', w', LoopLimit)) :
  limit < Z.of_nat (length (contents (run_history time layout (calls_of cmds) (out_ c, w)).1)).
Proof.
  eapply (input_loop_limit time Hclock limit layout); [exact Hc|exact Hok|exact Hd|exact Hcl|].
  rewrite <-Hrun. by apply input_loop_process.
Qed.

Definition echo_conn : Conn Buffer.Buffer :=
  mkConn (Buffer.append (encode [$"ECHO"; $"hello"]) Buffer.empty_buffer) Buffer.empty_buffer
    (new_parser default_limits) false false.

Lemma output_limit_exact_witness :
  4 < Z.of_nat (length (contents (run_history clock_1s one_bucket (calls_of [[$"ECHO"; $"hello"]])
        (Buffer.empty_buffer, fresh_world)).1)).
Proof.
  apply (output_limit_exact clock_1s one_bucket 4 echo_conn
           (process_loop clock_1s 4 echo_conn fresh_world).1.1 fresh_world
           (process_loop clock_1s 4 echo_conn fresh_world).1.2 [[$"ECHO"; $"hello"]]
           (new_parser default_limits) [] None).
  - apply clock_1s_ok.
  - split; [apply Buffer.append_spec; unfold Buffer.ok; simpl; lia|unfold bq_ok; simpl; unfold Buffer.ok; simpl; lia| |done].
    apply new_parser_ok. unfold limits_ok. simpl. mach. lia.
  - apply fresh_store.
  - vm_compute. reflexivity.
  - repeat constructor.
  - vm_compute. reflexivity.
Defined.
