(* ===== verification/ProtocolTheorems.v ===== *)
(** * Theorems on the wire protocol

    The buffer, the RESP parser, the inline parser, the integer conversions
    and the reply encoders. *)
From S2P Require Import Prelude Digits Buffer Inline Parser Stream Writer.

(** ** Concrete inputs for the witnesses *)
Definition small : ProtocolLimits := {| max_multibulk_args := 8; max_bulk_len := 16; max_inline_len := 5 |}.

Definition ping_bytes : bytes := encode [$"PING"; $"hi"].

Lemma small_ok : limits_ok small.
Proof. unfold limits_ok, small. simpl. mach. lia. Qed.

Lemma ping_fits : fits small [$"PING"; $"hi"].
Proof. split; [simpl; lia|]. repeat constructor; simpl; lia. Qed.

(** C8: Pipelined commands survive any chunking.  Encode any list of commands
    within the limits, cut the bytes anywhere, feed the pieces to a new parser
    as they come: it hands over exactly those commands, in order, without an
    error, and ends empty and at rest. *)
Theorem feed_any_chunking (l : ProtocolLimits) (cmds : list (list bytes)) (chunks : list bytes)
    (Hl : limits_ok l) (Hfits : Forall (fits l) cmds)
    (Hchunks : concat chunks = concat (encode <$> cmds)) :
  feed (new_parser l) [] chunks = (cmds, new_parser l, [], None).
Proof.
  apply feed_expects; [done|done|by apply new_parser_ok|done|].
  rewrite Hchunks. by apply expects_start.
Qed.

Lemma feed_any_chunking_witness :
  feed (new_parser small) [] ((λ c, [c]) <$> ping_bytes) = ([[$"PING"; $"hi"]], new_parser small, [], None).
Proof.
  apply (feed_any_chunking small [[$"PING"; $"hi"]]); [apply small_ok| |vm_compute; reflexivity].
  constructor; [apply ping_fits|done].
Defined.

(** The parser resumes.  If it has seen [s] and is waiting, then giving it
    [x] is the same as if it had been given [s ++ x] at once; and what it hands
    over does not depend on the bytes after it. *)
Theorem parser_resumes (p : Parser) (s x : bytes) (Hp : parser_ok p) :
  match parse p s with
  | (p', s', Incomplete) => parse p (s ++ x) = parse p' (s' ++ x)
  | (p', s', Complete argv) => parse p (s ++ x) = (p', s' ++ x, Complete argv)
  | _ => True
  end.
Proof. by apply parse_app. Qed.

Lemma parser_resumes_witness :
  parse (new_parser small) ($"*2" ++ CRLF ++ $"$4") =
    (mkParser ArgLen 2 (-1) [] small, $"$4", Incomplete) ∧
  parse (new_parser small) (($"*2" ++ CRLF ++ $"$4") ++ CRLF ++ $"PING") =
    parse (mkParser ArgLen 2 (-1) [] small) ($"$4" ++ CRLF ++ $"PING").
Proof.
  split; [vm_compute; reflexivity|].
  exact (parser_resumes (new_parser small) ($"*2" ++ CRLF ++ $"$4") (CRLF ++ $"PING") (new_parser_ok _ small_ok)).
Defined.

(** The parser works on any buffer.  Run on the growable buffer it gives
    the same status and state as on the plain list of its bytes, and leaves
    the same bytes; the cursors and the storage do not show. *)
Theorem parser_buffer_refines (p : Parser) (b : Buffer.Buffer) (Hb : Buffer.ok b) :
  (parse p b).1.1 = (parse p (Buffer.to_string b)).1.1 ∧
  (parse p b).2 = (parse p (Buffer.to_string b)).2 ∧
  Buffer.ok (parse p b).1.2 ∧
  Buffer.to_string (parse p b).1.2 = (parse p (Buffer.to_string b)).1.2.
Proof. exact (parse_sim p b Hb). Qed.

Lemma parser_buffer_refines_witness :
  let b := Buffer.append ping_bytes Buffer.empty_buffer in
  (parse (new_parser small) b).1.1 = (parse (new_parser small) (Buffer.to_string b)).1.1 ∧
  (parse (new_parser small) b).2 = (parse (new_parser small) (Buffer.to_string b)).2 ∧
  Buffer.ok (parse (new_parser small) b).1.2 ∧
  Buffer.to_string (parse (new_parser small) b).1.2 = (parse (new_parser small) (Buffer.to_string b)).1.2.
Proof.
  apply (parser_buffer_refines (new_parser small) (Buffer.append ping_bytes Buffer.empty_buffer)).
  apply Buffer.append_spec. unfold Buffer.ok. simpl. lia.
Defined.

(** C26: The parser always answers, and within its limits.  For any bytes, the
    loop ends; the parser stays well formed; a call handed over consumed at
    least one byte and has at most the allowed number of arguments, each at
    most of the allowed length; an error resets the parser. *)
Theorem parser_total_and_bounded (p : Parser) (s : bytes) (Hp : parser_ok p) :
  parse_loop (S (length s)) p s = Some (parse p s) ∧ call_ok p s (parse p s).
Proof. split; [by apply parse_loop_parse|by apply parse_ok]. Qed.

Lemma parser_total_and_bounded_witness :
  let s := $"*1" ++ CRLF ++ $"$17" ++ CRLF in
  parse_loop (S (length s)) (new_parser small) s = Some (parse (new_parser small) s) ∧
  call_ok (new_parser small) s (parse (new_parser small) s).
Proof.
  exact (parser_total_and_bounded (new_parser small) ($"*1" ++ CRLF ++ $"$17" ++ CRLF) (new_parser_ok _ small_ok)).
Defined.

(** Chunk independence for any bytes that parse, inline commands included:
    if a stream arrives in chunks without an error, the parser hands over the
    same commands, and ends in the same state with the same bytes left, as if
    all had arrived at once. *)
Theorem chunks_do_not_matter (p p' : Parser) (s s' : bytes) (chunks : list bytes) (cmds : list (list bytes))
    (Hp : parser_ok p) (Hq : quiet p s) (Hf : feed p s chunks = (cmds, p', s', None)) :
  drain_all p (s ++ concat chunks) = (cmds, p', s', None).
Proof. by apply feed_drain. Qed.

Lemma chunks_do_not_matter_witness :
  drain_all (new_parser small) ([] ++ concat [$"a b"; CRLF ++ $"c"; CRLF]) =
    ([[$"a"; $"b"]; [$"c"]], new_parser small, [], None).
Proof.
  apply (chunks_do_not_matter (new_parser small) (new_parser small) [] []).
  - apply new_parser_ok, small_ok.
  - vm_compute. reflexivity.
  - vm_compute. reflexivity.
Defined.

(** The inline length check depends on how the bytes arrive.  A line of
    exactly [max_inline_len] plain bytes is a command when its CRLF arrives
    whole, and an error when the read ends between the CR and the LF. *)
Theorem inline_limit_depends_on_chunks (l : ProtocolLimits) (a : bytes)
    (Hl : limits_ok l) (Hlen : Z.of_nat (length a) = max_inline_len l) (Hne : a ≠ [])
    (Hplain : Forall plain a) (Hstar : head a ≠ Some "*"%char) :
  parse (new_parser l) (a ++ CRLF) = (new_parser l, [], Complete [a]) ∧
  (parse (new_parser l) (a ++ [CR])).2 = Error (fail_err $"too big inline request").
Proof.
  assert (LF ∉ a) as Hlf.
  { intros Hin. rewrite Forall_forall in Hplain. by specialize (Hplain LF Hin). }
  assert (∀ t : bytes, bool_decide ((a ++ t) !! 0%nat = Some "*"%char) = false) as Hs.
  { intros t. apply bool_decide_eq_false_2. destruct a as [|c a]; [done|]. simpl in *. congruence. }
  assert (∀ t : bytes, (length (a ++ t) =? 0)%nat = false) as Hz by (intros t; destruct a; [done|done]).
  split.
  - rewrite parse_step by by apply new_parser_ok.
    unfold step, step_start. simpl state_. cbv iota. change (readable (a ++ CRLF)) with (length (a ++ CRLF)).
    change (contents (a ++ CRLF)) with (a ++ CRLF). rewrite Hz, Hs.
    unfold step_inline. change (contents (a ++ CRLF)) with (a ++ CRLF).
    assert (memchr LF (a ++ CRLF) = Some (S (length a))) as ->.
    { rewrite memchr_app_r by done. simpl. by rewrite Nat.add_1_r. }
    cbv zeta. replace (S (length a) - 1)%nat with (length a) by lia.
    rewrite lookup_app_r, Nat.sub_diag by lia. rewrite bool_decide_eq_true_2 by done.
    simpl andb. cbv iota. replace (max_inline_len (limits_ (new_parser l)) <? Z.of_nat (length a)) with false
      by (simpl; lia).
    rewrite take_app_length, split_inline_plain_end by done.
    change (consume (S (length a) + 1) (a ++ CRLF)) with (drop (S (length a) + 1) (a ++ CRLF)).
    rewrite drop_ge; [done|]. rewrite length_app. simpl. lia.
  - rewrite parse_step by by apply new_parser_ok.
    unfold step, step_start. simpl state_. cbv iota. change (readable (a ++ [CR])) with (length (a ++ [CR])).
    change (contents (a ++ [CR])) with (a ++ [CR]). rewrite Hz, Hs.
    unfold step_inline. change (contents (a ++ [CR])) with (a ++ [CR]).
    assert (memchr LF (a ++ [CR]) = None) as ->.
    { apply memchr_None. rewrite elem_of_app, list_elem_of_singleton. by intros [?|?]. }
    change (readable (a ++ [CR])) with (length (a ++ [CR])). rewrite length_app. simpl length.
    replace (max_inline_len (limits_ (new_parser l)) <? Z.of_nat (length a + 1)) with true by (simpl; lia). done.
Qed.

Lemma inline_limit_depends_on_chunks_witness :
  parse (new_parser small) ($"hello" ++ CRLF) = (new_parser small, [], Complete [$"hello"]) ∧
  (parse (new_parser small) ($"hello" ++ [CR])).2 = Error (fail_err $"too big inline request").
Proof.
  apply (inline_limit_depends_on_chunks small $"hello"); [apply small_ok|done|done| |done].
  repeat constructor.
Defined.

(** C27: Replies can be told apart.  Take any sequence of calls of the encoders,
    [simple] (both overloads), [ok], [error], [integer], [bulk], [null_bulk] and
    [array_header], on arguments that RESP2 can carry.  What they append to an
    empty output buffer is read back by a RESP2 client as exactly the sequence
    of replies that was meant, and nothing is left. *)
Theorem replies_read_back (es : list Encoder) (o : Buffer.Buffer)
    (Ho : Buffer.ok o) (Hempty : Buffer.to_string o = []) (Hes : Forall writable es) :
  read_replies (length es) (Buffer.to_string (foldl (λ o e, write e o) o es)) = Some (meant <$> es, []).
Proof.
  assert (∀ o, Buffer.ok o → Buffer.to_string (foldl (λ o e, write e o) o es) =
    Buffer.to_string o ++ concat (wire <$> (meant <$> es))) as Hall.
  { clear -Hes. induction Hes as [|e es He _ IH]; intros o Ho; [by rewrite app_nil_r|].
    pose proof (write_encodes (B := Buffer.Buffer) e He) as Hw. destruct (Hw o Ho) as [H1 H2]. rewrite !fmap_cons, concat_cons. cbn [foldl].
    rewrite IH by done. rewrite (assoc_L (++)). f_equal. exact H2. }
  rewrite Hall, Hempty by done. rewrite app_nil_l, <-(app_nil_r (concat _)), <-(length_fmap meant es).
  apply read_replies_wire, Forall_fmap. eapply Forall_impl; [exact Hes|]. apply writable_sendable.
Qed.

Lemma replies_read_back_witness :
  read_replies 5 (Buffer.to_string (foldl (λ o e, write e o) Buffer.empty_buffer
    [Ok; Integer (-7); Bulk ($"a" ++ CRLF); Err $"ERR no"; SimpleCstr $"PONG"]))
  = Some ([RSimple $"OK"; RInteger (-7); RBulk ($"a" ++ CRLF); RError $"ERR no"; RSimple $"PONG"], []).
Proof.
  apply (replies_read_back [Ok; Integer (-7); Bulk ($"a" ++ CRLF); Err $"ERR no"; SimpleCstr $"PONG"] Buffer.empty_buffer).
  - unfold Buffer.ok. simpl. lia.
  - reflexivity.
  - repeat constructor; simpl; try (mach; lia); no_cr.
Defined.

(** Inline quoting is faithful: any arguments, with any bytes, written
    between double quotes with every byte as a hexadecimal escape, are read back
    as they were. *)
Theorem inline_quotes_round_trip (args : list bytes) : split_inline (quote_line args) = Some args.
Proof. apply split_inline_quote_line. Qed.

(** C32: [string_to_int64] accepts exactly the strings of at most twenty bytes
    that denote a 64-bit signed number in decimal, and returns that number; no
    other string, and no overflow. *)
Theorem string_to_int64_correct (s : bytes) (n : Z) :
  string_to_int64 s = Some n ↔ (length s ≤ 20)%nat ∧ denotes s n.
Proof. apply string_to_int64_denotes. Qed.

(** C33: [format_int] writes what [std::to_string] writes, in at most the twenty
    bytes its callers reserve, and [string_to_int64] reads it back, for every
    64-bit integer, the smallest included. *)
Theorem format_int_correct (n : Z) (Hn : in_s64 n) :
  format_int n = std_to_string n ∧ (length (format_int n) ≤ 20)%nat ∧
  string_to_int64 (format_int n) = Some n.
Proof.
  auto using format_int_std_to_string, format_int_length, string_to_int64_format_int.
Qed.

Lemma format_int_correct_witness :
  format_int INT64_MIN = std_to_string INT64_MIN ∧ (length (format_int INT64_MIN) ≤ 20)%nat ∧
  string_to_int64 (format_int INT64_MIN) = Some INT64_MIN.
Proof. apply (format_int_correct INT64_MIN). mach. lia. Defined.

(** The buffer is a queue of bytes: appending puts bytes at the end,
    consuming takes them from the front, making room keeps the contents and
    leaves the room asked for, and none of them breaks the cursors. *)
Theorem buffer_is_a_queue (b : Buffer.Buffer) (p : bytes) (n : nat) (Hb : Buffer.ok b) :
  (Buffer.ok (Buffer.append p b) ∧ Buffer.to_string (Buffer.append p b) = Buffer.to_string b ++ p) ∧
  (Buffer.ok (Buffer.consume n b) ∧ Buffer.to_string (Buffer.consume n b) = drop n (Buffer.to_string b)) ∧
  (Buffer.ok (Buffer.ensure_writable n b) ∧
   Buffer.to_string (Buffer.ensure_writable n b) = Buffer.to_string b ∧
   (n ≤ Buffer.writable (Buffer.ensure_writable n b))%nat).
Proof. split_and!; by (apply Buffer.append_spec || apply Buffer.consume_spec || apply Buffer.ensure_writable_spec). Qed.

Lemma buffer_is_a_queue_witness :
  let b := Buffer.consume 2 (Buffer.append $"abcd" Buffer.empty_buffer) in
  (Buffer.ok (Buffer.append $"ef" b) ∧
   Buffer.to_string (Buffer.append $"ef" b) = Buffer.to_string b ++ $"ef") ∧
  (Buffer.ok (Buffer.consume 1 b) ∧ Buffer.to_string (Buffer.consume 1 b) = drop 1 (Buffer.to_string b)) ∧
  (Buffer.ok (Buffer.ensure_writable 1 b) ∧
   Buffer.to_string (Buffer.ensure_writable 1 b) = Buffer.to_string b ∧
   (1 ≤ Buffer.writable (Buffer.ensure_writable 1 b))%nat).
Proof.
  apply (buffer_is_a_queue (Buffer.consume 2 (Buffer.append $"abcd" Buffer.empty_buffer)) $"ef" 1).
  apply Buffer.consume_spec, Buffer.append_spec. unfold Buffer.ok. simpl. lia.
Defined.

(** Growth is bounded: the growth loop reaches the wanted size, and ends
    below twice it and below it plus 16 MiB, unless the storage was already
    larger. *)
Theorem growth_bounded (want next : Z) (Hwant : 0 ≤ want) (Hnext : Buffer.kInitialSize ≤ next) :
  let size := Buffer.grow (Buffer.grow_fuel want) want next in
  want ≤ size ∧ next ≤ size ∧
  size ≤ Z.max next (Z.min (2 * want) (want + Buffer.kDoublingLimit)).
Proof.
  assert (0 ≤ next) by (unfold Buffer.kInitialSize in *; lia).
  split_and!; [by apply Buffer.grow_fuel_enough|by apply Buffer.grow_mono|by apply Buffer.grow_bound].
Qed.

Lemma growth_bounded_witness :
  let size := Buffer.grow (Buffer.grow_fuel 5000) 5000 1024 in
  5000 ≤ size ∧ 1024 ≤ size ∧ size ≤ Z.max 1024 (Z.min (2 * 5000) (5000 + Buffer.kDoublingLimit)).
Proof. apply (growth_bounded 5000 1024); unfold Buffer.kInitialSize; lia. Defined.
