(* ===== verification/KeyspaceTheorems.v ===== *)
(** * Theorems on the keyspace

    Lazy expiry, the index of volatile keys, active expiry. *)
From S2P Require Import Prelude Keyspace Expire.
Import Db.

(** ** Any sequence of operations

    Everything the command layer and the tick do to a [Db]; [OpReplace] is the
    write through a [Value*] that INCR makes. *)
Inductive Op :=
  | OpLookup (key : bytes)
  | OpErase (key : bytes)
  | OpSet (key s : bytes) (expire_at : Z)
  | OpExpireAt (key : bytes) (expire_at : Z)
  | OpPersist (key : bytes)
  | OpPttl (key : bytes)
  | OpReplace (key s : bytes)
  | OpCycle (samples : nat)
  | OpClear.

Definition replace_data (key s : bytes) (d : Db) : Db :=
  match map_ d !! key with
  | Some v => assign key (mkValue (type v) s (expire_at_ms v)) d
  | None => d
  end.

Definition run_op (time : nat → Z) (layout : nat → gset bytes → list (list bytes)) (o : Op) (w : World) : World :=
  match o with
  | OpLookup key => (lookup time key w).2
  | OpErase key => (erase time key w).2
  | OpSet key s e => set_db (set_string key s e (the_db w)) w
  | OpExpireAt key e => (set_expire_at time key e w).2
  | OpPersist key => (persist time key w).2
  | OpPttl key => (pttl time key w).2
  | OpReplace key s => set_db (replace_data key s (the_db w)) w
  | OpCycle n => (active_expire_cycle time layout n w).2
  | OpClear => set_db (clear (the_db w)) w
  end.

Definition op_ok (o : Op) : Prop := if o is OpExpireAt _ e then e ≠ kNoExpiry else True.

Definition tick_clock : nat → Z := λ n, 1000 + Z.of_nat n.

Definition one_list : nat → gset bytes → list (list bytes) := λ _ s, [elements s].

Lemma one_list_ok : layout_ok one_list.
Proof. intros n s. simpl. by rewrite app_nil_r. Qed.

Lemma empty_index_ok x l n : index_ok (mkDb ∅ ∅ x l n).
Proof.
  intros k. simpl. split; [set_solver|]. intros (v & Hv & _). by rewrite lookup_empty in Hv.
Qed.

Lemma replace_index_ok key s d : index_ok d → index_ok (replace_data key s d).
Proof.
  intros Hi. unfold replace_data. destruct (map_ d !! key) as [v|] eqn:Hk; [|done].
  intros k. simpl. rewrite (Hi k), lookup_insert. case_decide; [subst|done].
  rewrite Hk. split; intros (x & [= <-] & Hx); eexists; (split; [done|exact Hx]).
Qed.

(** C10: No expired key is ever observable, and hiding one is invisible.  A
    lookup answers what the live keyspace holds at the time it reads the clock;
    it may delete the entry it found dead, which changes the live keyspace at
    no later time. *)
Theorem lookup_never_stale (time : nat → Z) (key : bytes) (w : World) :
  let now := time (reads w) in
  let '(v, w') := lookup time key w in
  v = view now (the_db w) !! key ∧
  (∀ t, now ≤ t → view t (the_db w') = view t (the_db w)) ∧
  (v = None → map_ (the_db w') !! key = None).
Proof.
  destruct (lookup_spec time key w) as (H1 & H2 & _ & _ & _ & H3).
  destruct (lookup time key w) as [[v|] w']; simpl in *; split_and!; auto; done.
Qed.

(** C11: The index is exact.  After any sequence of operations from a new
    keyspace, under any clock, the index of volatile keys holds exactly the
    keys with a deadline, provided that [set_expire_at] is never given the
    deadline 0, the value that means there is none.  EXPIRE, the one command
    that calls it, gives it later ones; [expire_at_zero_breaks_index] shows that
    the condition is needed. *)
Theorem index_exact (time : nat → Z) (layout : nat → gset bytes → list (list bytes)) (seed : Z) (ops : list Op)
    (Hlayout : layout_ok layout) (Hops : Forall op_ok ops) :
  index_ok (the_db (foldl (λ w o, run_op time layout o w) (mkWorld (new_db seed) 0) ops)).
Proof.
  assert (index_ok (the_db (mkWorld (new_db seed) 0))) as Hw by apply empty_index_ok.
  revert Hw. generalize (mkWorld (new_db seed) 0). induction Hops as [|o ops Ho _ IH]; intros w Hw; [done|].
  apply IH. destruct o as [key|key|key s e|key e|key|key|key s|n|]; simpl.
  - by apply (lookup_spec time key w).
  - by apply (erase_spec time key w).
  - by apply index_ok_set_string.
  - by apply (set_expire_at_spec time key e w).
  - by apply (persist_spec time key w).
  - by apply (pttl_spec time key w).
  - by apply replace_index_ok.
  - by apply (run_ok_index _ _ _ _ _ _ _ (active_expire_cycle_ok time layout Hlayout n w)).
  - apply empty_index_ok.
Qed.

Lemma index_exact_witness :
  index_ok (the_db (foldl (λ w o, run_op tick_clock one_list o w) (mkWorld (new_db 3) 0)
    [OpSet $"a" $"1" 1001; OpSet $"b" $"2" 5000; OpReplace $"b" $"3"; OpExpireAt $"b" 6000; OpCycle 20])).
Proof.
  apply (index_exact tick_clock one_list 3
    [OpSet $"a" $"1" 1001; OpSet $"b" $"2" 5000; OpReplace $"b" $"3"; OpExpireAt $"b" 6000; OpCycle 20]).
  - apply one_list_ok.
  - repeat constructor. done.
Defined.

(** The condition on [set_expire_at] is needed: given the deadline 0, which
    means "no deadline", it indexes a key that has none. *)
Lemma expire_at_zero_breaks_index (time : nat → Z) (key : bytes) (v : Value) (w : World)
    (Hlive : view (time (reads w)) (the_db w) !! key = Some v) :
  ¬ index_ok (the_db (set_expire_at time key kNoExpiry w).2).
Proof.
  intros Hi. destruct (set_expire_at_spec time key kNoExpiry w) as (Hr & Hview & _).
  specialize (Hview (time (reads w)) ltac:(done)). rewrite Hlive in Hview.
  unfold set_expire_at in *. rewrite bind_run in *.
  destruct (lookup_spec time key w) as (Hl & _). rewrite Hlive in Hl.
  destruct (lookup time key w) as [v' w1]. simpl in Hl. subst v'. simpl in Hi.
  specialize (Hi key). simpl in Hi.
  destruct Hi as [(v' & Hv' & Hx) _]; [set_solver|].
  rewrite lookup_insert_eq in Hv'. by simplify_eq/=.
Qed.

Lemma expire_at_zero_breaks_index_witness :
  ¬ index_ok (the_db (set_expire_at tick_clock $"k" kNoExpiry
                        (mkWorld (set_string $"k" $"v" 0 (new_db 3)) 0)).2).
Proof.
  apply (expire_at_zero_breaks_index tick_clock $"k" (mkValue TString $"v" 0)). vm_compute. reflexivity.
Defined.

(** C29: What the other operations do to the live keyspace, from the reading of
    the clock on: [erase] deletes and reports whether the key was alive;
    [persist] removes a deadline and reports whether there was one;
    [set_expire_at] retimes a live key and leaves others; [set_string] stores. *)
Theorem operations_on_view (time : nat → Z) (key s : bytes) (e t : Z) (w : World)
    (Ht : time (reads w) ≤ t) :
  let live := view (time (reads w)) (the_db w) !! key in
  let kv := view t (the_db w) in
  (let '(b, w') := erase time key w in
   b = bool_decide (is_Some live) ∧ view t (the_db w') = delete key kv) ∧
  (let '(b, w') := persist time key w in
   b = from_option has_expiry false live ∧
   view t (the_db w') = if from_option has_expiry false live
                        then match live with
                             | Some v => <[key := mkValue (type v) (data v) kNoExpiry]> kv
                             | None => kv
                             end
                        else kv) ∧
  (let '(b, w') := set_expire_at time key e w in
   b = bool_decide (is_Some live) ∧
   view t (the_db w') = match live with
                        | Some v => put t key (mkValue (type v) (data v) e) kv
                        | None => kv
                        end) ∧
  view t (set_string key s e (the_db w)) = put t key (mkValue TString s e) kv.
Proof.
  cbv zeta. split_and!.
  - destruct (erase_spec time key w) as (H1 & H2 & _). destruct (erase time key w). by split; [|apply H2].
  - destruct (persist_spec time key w) as (H1 & H2 & _). destruct (persist time key w) as [b w'].
    split; [done|]. specialize (H2 t Ht). simpl in H2. rewrite H2.
    destruct (view _ _ !! key) as [v|]; [|done]. simpl. by destruct (has_expiry v).
  - destruct (set_expire_at_spec time key e w) as (H1 & H2 & _). destruct (set_expire_at time key e w).
    by split; [|apply H2].
  - apply view_set_string.
Qed.

Lemma operations_on_view_witness :
  let w := mkWorld (set_string $"k" $"v" 1500 (new_db 3)) 0 in
  view 1200 (the_db (erase tick_clock $"k" w).2) = delete $"k" (view 1200 (the_db w)).
Proof.
  assert (H := operations_on_view tick_clock $"k" $"x" 1500 1200 (mkWorld (set_string $"k" $"v" 1500 (new_db 3)) 0)
    ltac:(vm_compute; discriminate)).
  destruct H as [H _]. cbv zeta. destruct (erase _ _ _) as [b w']. exact (proj2 H).
Defined.

(** C28: Active expiry is invisible and accounts for itself.  For any layout of
    the index into buckets, any sample size and any clock: the cycle changes the
    live keyspace at no time from its last reading on, removes only entries and
    as many as it says, at most sixteen samples of them, with at most sixteen
    readings of the clock, and keeps the index exact. *)
Theorem active_expiry_invisible (time : nat → Z) (layout : nat → gset bytes → list (list bytes))
    (samples : nat) (w : World) (Hlayout : layout_ok layout) (Hidx : index_ok (the_db w)) :
  let '(n, w') := active_expire_cycle time layout samples w in
  (∀ t, reads_le time t (reads w) (reads w') → view t (the_db w') = view t (the_db w)) ∧
  index_ok (the_db w') ∧ map_ (the_db w') ⊆ map_ (the_db w) ∧
  (n + Db.size (the_db w') = Db.size (the_db w))%nat ∧
  (n ≤ 16 * samples)%nat ∧ (reads w ≤ reads w' ≤ reads w + 16)%nat.
Proof.
  pose proof (active_expire_cycle_ok time layout Hlayout samples w) as H. cbv zeta in H.
  destruct (active_expire_cycle time layout samples w) as [n w'].
  destruct H as [H1 _ H3 H4 H5 H6 _ H8]. simpl in *. split_and!; try done; try lia; auto.
  - apply map_subseteq_spec. intros k v. apply H8.
  - specialize (H6 (index_ok_weak _ Hidx)). lia.
Qed.

Definition two_dead_one_alive : World :=
  mkWorld (set_string $"c" $"3" 9000 (set_string $"b" $"2" 500 (set_string $"a" $"1" 600 (new_db 3)))) 0.

Lemma two_dead_index : index_ok (the_db two_dead_one_alive).
Proof. unfold two_dead_one_alive. simpl. repeat apply index_ok_set_string. apply empty_index_ok. Qed.

Lemma active_expiry_invisible_witness :
  let '(n, w') := active_expire_cycle tick_clock one_list 20 two_dead_one_alive in
  (∀ t, reads_le tick_clock t 0 (reads w') → view t (the_db w') = view t (the_db two_dead_one_alive)) ∧
  index_ok (the_db w') ∧ map_ (the_db w') ⊆ map_ (the_db two_dead_one_alive) ∧
  (n + Db.size (the_db w') = Db.size (the_db two_dead_one_alive))%nat ∧
  (n ≤ 16 * 20)%nat ∧ (0 ≤ reads w' ≤ 0 + 16)%nat.
Proof.
  apply (active_expiry_invisible tick_clock one_list 20 two_dead_one_alive); [apply one_list_ok|apply two_dead_index].
Defined.

(** C37: A mass expiry is cleared as fast as the cap allows: when every indexed
    key is dead, one cycle reclaims sixteen samples of them, or all. *)
Theorem mass_expiry_progress (time : nat → Z) (layout : nat → gset bytes → list (list bytes))
    (samples : nat) (w : World) (Hlayout : layout_ok layout) (Hs : (0 < samples)%nat) (Hdead : all_dead time w) :
  (active_expire_cycle time layout samples w).1 = min (16 * samples) (volatile_size (the_db w)).
Proof.
  unfold active_expire_cycle. replace (samples =? 0)%nat with false by lia.
  by rewrite (rounds_all_dead time layout Hlayout kMaxRounds samples 0 w).
Qed.

Definition three_dead : World :=
  mkWorld (set_string $"c" $"3" 7 (set_string $"b" $"2" 500 (set_string $"a" $"1" 600 (new_db 3)))) 0.

Lemma three_dead_dead : all_dead tick_clock three_dead.
Proof.
  intros k i Hk Hi.
  assert (k = $"a" ∨ k = $"b" ∨ k = $"c") as Hc by (simpl in Hk; set_solver).
  unfold dead.
  assert (map_ (the_db three_dead) !! $"a" = Some (mkValue TString $"1" 600)) as Ha by (vm_compute; reflexivity).
  assert (map_ (the_db three_dead) !! $"b" = Some (mkValue TString $"2" 500)) as Hb by (vm_compute; reflexivity).
  assert (map_ (the_db three_dead) !! $"c" = Some (mkValue TString $"3" 7)) as Hc' by (vm_compute; reflexivity).
  destruct Hc as [->|[->| ->]]; rewrite ?Ha, ?Hb, ?Hc'; unfold is_expired, has_expiry, tick_clock, kNoExpiry;
    cbn [expire_at_ms]; lia.
Qed.

Lemma mass_expiry_progress_witness :
  (active_expire_cycle tick_clock one_list 1 three_dead).1 = min 16 3.
Proof. apply (mass_expiry_progress tick_clock one_list 1 three_dead); [apply one_list_ok|lia|apply three_dead_dead]. Defined.

(** A sample as large as the index leaves nothing dead: after the cycle, no
    entry had expired by the cycle's first reading of the clock. *)
Theorem full_sample_complete (time : nat → Z) (layout : nat → gset bytes → list (list bytes))
    (samples : nat) (w : World) (k : bytes) (v : Value)
    (Hlayout : layout_ok layout) (Hidx : index_ok (the_db w)) (Hs : (0 < samples)%nat)
    (Hsize : (volatile_size (the_db w) ≤ samples)%nat)
    (Hk : map_ (the_db (active_expire_cycle time layout samples w).2) !! k = Some v) :
  is_expired v (time (reads w)) = false.
Proof.
  unfold active_expire_cycle in Hk. replace (samples =? 0)%nat with false in Hk by lia.
  by apply (rounds_complete time layout Hlayout 15 samples 0 w k v Hsize (index_ok_weak _ Hidx)).
Qed.

Lemma full_sample_complete_witness :
  is_expired (mkValue TString $"3" 9000) 1000 = false.
Proof.
  apply (full_sample_complete tick_clock one_list 3 two_dead_one_alive $"c" (mkValue TString $"3" 9000)).
  - apply one_list_ok.
  - apply two_dead_index.
  - lia.
  - apply Nat.leb_le. vm_compute. reflexivity.
  - vm_compute. reflexivity.
Defined.
