(* ===== verification/ServerTheorems.v ===== *)
(** * Theorems on the server

    The event loop, the connections' life cycle, the pollers and the command
    line. *)
From S2P Require Import Prelude Digits Buffer Inline Parser Stream Writer Keyspace Expire Commands.
From S2P Require Import Options Spec Refine Handlers Dispatch Linear Spread Session Kernel Server Input Serial.
From S2P Require Import ServerInv Events ServerSerial Poller Main CommandTheorems.
Import Db (the_db, reads, mkWorld, map_).

(** ** A scripted kernel, for the witnesses

    The [n]-th wait and read answer as the script says, and nothing more
    happens when it is over; so many calls to [accept] and [open] succeed;
    output is taken whole, or not at all. *)
Record Script := mkScript {
  waits : list (list PollEvent);
  accepts : nat;
  accept_error : errno;
  inputs : list bytes;
  takes_output : bool;
  opens : nat;
}.

Definition count (f : Action → bool) (t : Trace) : nat := length (filter (λ a, f a = true) t).

Definition fresh_fd (t : Trace) : Z := 1 + foldr Z.max 0 (elements (opened t)).

Definition script_kernel (x : Script) : Kernel := {|
  k_socket t := inr (fresh_fd t);
  k_bind _ _ _ _ := None;
  k_listen _ _ _ := None;
  k_read t _ n :=
    match inputs x !! count (λ a, if a is ARead _ _ then true else false) t with
    | Some p => inr (take n p)
    | None => inl EAGAIN
    end;
  k_send _ _ p := if takes_output x then inr (length p) else inl EAGAIN;
  k_accept t _ :=
    if (count (λ a, if a is AAccept _ _ then true else false) t <? accepts x)%nat
    then inr (fresh_fd t) else inl (accept_error x);
  k_open t :=
    if (count (λ a, if a is AOpenNull _ then true else false) t <? opens x)%nat
    then Some (fresh_fd t) else None;
  k_getfl _ _ := inr 2;
  k_setfl _ _ _ := None;
  k_setopt _ _ _ := true;
  k_poll_add _ _ _ := true;
  k_poll_mod _ _ _ := true;
  k_poll_del _ _ := true;
  k_wait t _ := Some (nth (count is_wait t) (waits x) []);
  k_shutdown _ := false;
|}.

Lemma fresh_fd_fresh t : 0 ≤ fresh_fd t ∧ fresh_fd t ∉ opened t.
Proof.
  unfold fresh_fd. rewrite <-elem_of_elements.
  assert (∀ l x, x ∈ l → x ≤ foldr Z.max 0 l) as Hle.
  { induction l as [|y l IH]; intros x Hx; [set_solver|]. simpl.
    apply elem_of_cons in Hx as [->|Hx]; [lia|]. specialize (IH x Hx). lia. }
  assert (∀ l, 0 ≤ foldr Z.max 0 l) as H0 by (induction l; simpl; lia).
  split; [specialize (H0 (elements (opened t))); lia|].
  intros Hin. specialize (Hle _ _ Hin). lia.
Qed.

Lemma script_kernel_ok x : @kernel_ok (script_kernel x) 0.
Proof.
  split; simpl.
  - intros t fd k p. destruct (inputs x !! _); [|done]. intros [= <-]. rewrite length_take. lia.
  - intros t fd p k. destruct (takes_output x); [|done]. by intros [= <-].
  - intros t fd p. exists 0%nat. split; [done|]. by destruct (takes_output x).
  - intros t r [= <-]. apply fresh_fd_fresh.
  - intros t fd r. destruct (_ <? _)%nat; [|done]. intros [= <-]. apply fresh_fd_fresh.
  - intros t r. destruct (_ <? _)%nat; [|done]. intros [= <-]. apply fresh_fd_fresh.
  - done.
  - done.
Qed.

(** The server listens on descriptor 1, keeps 2 in reserve; the first client
    is 3. *)
Definition listener_ready : PollEvent := mkPollEvent 1 true false false.

Definition client_ready : PollEvent := mkPollEvent 3 true false false.

Definition no_error_text : errno → bytes := λ _, [].

Definition start_script (x : Script) : option bytes * Server :=
  @start (script_kernel x) no_error_text (λ _, true) true $"epoll" (new_server default_config 7).

Definition run_script (x : Script) (n : nat) : Server :=
  (@run (script_kernel x) clock_1s one_bucket 0 n (start_script x).2).2.

Lemma start_script_started x : started (start_script x).2.
Proof.
  unfold start_script. apply (@start_ok (script_kernel x) 0 (script_kernel_ok x)). reflexivity.
Qed.

Definition client_conn (x : Script) (n : nat) : Conn Buffer.Buffer := default new_conn (conns_ (run_script x n) !! 3).

(** A client that writes two commands in three reads, and reads its replies. *)
Definition chatting : Script :=
  mkScript [[listener_ready]; [client_ready]; [client_ready]; [client_ready]] 1 EAGAIN
    [$"SET k 1"; CRLF ++ $"GE"; $"T k" ++ CRLF] true 1.

(** ** The server as a whole *)

(** C3: The server serves its clients as if one at a time.  Let it run for any
    number of iterations, on any kernel that keeps its promises, with any
    interleaving of clients, reads and partial writes.  There is a log, a
    sequence of calls, refusals and expiry cycles, such that the keyspace is
    what the log makes of the first one, and for every connection: what was
    sent to it since it was accepted, followed by what is pending, is exactly
    what the log owes it; and, as long as it is not to be closed, the calls of
    the log are the ones that the bytes read from it parse to, in order, with
    the rest of those bytes still in its buffer.  At every earlier moment, for
    connections that have since been closed or cut off too, what had been sent
    is a prefix of what the log owes: no client ever saw a byte of another's
    reply, or one out of order. *)
Theorem server_serializes {KE : Kernel} (retries : nat) (time : nat → Z)
    (layout : nat → gset bytes → list (list bytes)) (n : nat) (s : Server)
    (HK : kernel_ok retries) (Hclock : clock_ok time) (Hlayout : layout_ok layout) (Hs : started s) :
  let s' := (run time layout retries n s).2 in
  ∃ log, (run_log time layout log (db_ s)).2 = db_ s' ∧ Forall (about_args args_ok) log ∧
    (∀ fd c, conns_ s' !! fd = Some c →
      let t := session fd (trace s') in
      let id := id_of fd (trace s') in
      sent fd t ++ contents (out_ c) = owed id (run_log time layout log (db_ s)).1 ∧
      (close_after_write c = false → ∃ cmds,
         feed (new_parser default_limits) [] (chunks fd t) = (cmds, parser c, contents (in_ c), None) ∧
         filter (λ a, a ≠ []) cmds = asked id log)) ∧
    ∀ t fd, t `prefix_of` trace s' →
      sent fd (session fd t) `prefix_of` owed (id_of fd t) (run_log time layout log (db_ s)).1.
Proof.
  intros s'. destruct (run_serial retries HK time Hclock layout Hlayout (db_ s) n s Hs eq_refl) as [log [H1 _ H2 H3 H4 _]].
  exists log. split_and!; [done|done| |intros t fd Ht; by apply H4]. intros fd c Hc. destruct (H3 fd c Hc) as (Hp & _ & Hh); [done|].
  split; [done|]. intros Hcl. destruct (Hh Hcl) as (cmds & ? & ? & _). by exists cmds.
Qed.

Lemma server_serializes_witness :
  let s := (start_script chatting).2 in
  let s' := run_script chatting 4 in
  (contents (out_ (client_conn chatting 4)) = [] ∧ chunks 3 (session 3 (trace s')) = [$"SET k 1"; CRLF ++ $"GE"; $"T k" ++ CRLF] ∧
   sent 3 (session 3 (trace s')) = $"+OK" ++ CRLF ++ $"$1" ++ CRLF ++ $"1" ++ CRLF) ∧
  ∃ log, (run_log clock_1s one_bucket log (db_ s)).2 = db_ s' ∧ Forall (about_args args_ok) log ∧
    (∀ fd c, conns_ s' !! fd = Some c →
      let t := session fd (trace s') in
      let id := id_of fd (trace s') in
      sent fd t ++ contents (out_ c) = owed id (run_log clock_1s one_bucket log (db_ s)).1 ∧
      (close_after_write c = false → ∃ cmds,
         feed (new_parser default_limits) [] (chunks fd t) = (cmds, parser c, contents (in_ c), None) ∧
         filter (λ a, a ≠ []) cmds = asked id log)) ∧
    ∀ t fd, t `prefix_of` trace s' →
      sent fd (session fd t) `prefix_of` owed (id_of fd t) (run_log clock_1s one_bucket log (db_ s)).1.
Proof.
  split; [split_and!; vm_compute; reflexivity|].
  apply (@server_serializes (script_kernel chatting) 0 clock_1s one_bucket 4).
  - apply script_kernel_ok.
  - apply clock_1s_ok.
  - apply one_bucket_ok.
  - apply start_script_started.
Defined.

(** Calls that one instant explains ask nothing of the clock. *)
Lemma steady_log_instants time layout log w :
  Forall (about_args (λ a, one_instant a = true)) log → steady_log time layout log w.
Proof.
  intros Hl. revert w. induction Hl as [|e log He _ IH]; intros w; [done|]. split; [|apply IH].
  destruct e; [by left|done|done].
Qed.

(** C5: The serial view speaks the specification.  Replay any log from a new
    keyspace, under a clock that does not go back, and that stands still during
    the few calls that one instant does not explain: there are replies, one per call, that [history_spec] allows, each
    given by the README's semantics at its instant, with expired keys absent
    and expiry cycles without effect, such that every client is owed exactly
    the wire form of the replies to its own calls, and of its refusals. *)
Theorem log_implements_spec (time : nat → Z) (layout : nat → gset bytes → list (list bytes)) (seed : Z)
    (log : list LogEntry)
    (Hclock : clock_ok time) (Hmono : monotone time) (Hlayout : layout_ok layout)
    (Hargs : Forall (about_args (λ a, args_ok a ∧ echo_safe a)) log)
    (Hsteady : steady_log time layout log (mkWorld (Db.new_db seed) 0))
    (Hcount : Z.of_nat (length log) ≤ INT64_MAX) :
  ∃ rs, history_spec (time 0%nat) ∅ (events log) rs ∧ Forall sendable rs ∧
    (run_log time layout log (mkWorld (Db.new_db seed) 0)).1 = told log rs.
Proof.
  destruct (log_spec time layout Hclock Hmono Hlayout log (mkWorld (Db.new_db seed) 0) ∅ (time 0%nat))
    as (rs & ? & ? & ?); [done|done|exact (fresh_looks_like time)|apply fresh_store| |done|by exists rs].
  unfold Db.size. simpl. rewrite map_size_empty. lia.
Qed.

(** Two clients; the second one's stream is refused. *)
Definition two_clients : list LogEntry :=
  [SCall (3, 1%nat) set_k_1; SCall (4, 2%nat) incr_k; STick 20; SRefuse (4, 2%nat) $"x"; SCall (3, 1%nat) incr_k].

Lemma log_implements_spec_witness :
  ∃ rs, history_spec 1000 ∅ (events two_clients) rs ∧ Forall sendable rs ∧
    (run_log ticking one_bucket two_clients (mkWorld (Db.new_db 7) 0)).1 = told two_clients rs.
Proof.
  apply (log_implements_spec ticking one_bucket 7 two_clients).
  - apply ticking_ok.
  - apply ticking_mono.
  - apply one_bucket_ok.
  - pose proof two_calls_fit as Hf. pose proof two_calls_fine as Hc. unfold two_calls in *.
    rewrite !Forall_cons in Hf, Hc. destruct Hf as (Hf1 & Hf2 & _), Hc as ((Hn1 & He1 & _) & (Hn2 & He2 & _) & _).
    repeat constructor; simpl; try (split; [by apply fits_args_ok|done]); done.
  - apply steady_log_instants. repeat constructor.
  - simpl. mach. lia.
Defined.

(** A log from the server's first keyspace on is a history. *)
Lemma log_history time layout (s : Server) log :
  clock_ok time → monotone time → layout_ok layout → started s → Forall (about_args args_ok) log →
  ∃ rs, history_over time (reads (run_log time layout log (db_ s)).2) 0 0 ∅ (events log) rs ∧
    (run_log time layout log (db_ s)).1 = told log rs ∧ legible (calls log) rs.
Proof.
  intros Hclock Hmono Hlayout Hs Hargs. destruct (started_db _ Hs) as [seed ->].
  apply (log_over time layout Hclock Hmono Hlayout log (mkWorld (Db.new_db seed) 0) ∅ 0); [done| | |done].
  - exact (fresh_looks_like time).
  - apply fresh_store.
Qed.



(** C9: The server's invariant, over its whole life.  Start it with any
    configuration on any kernel that keeps its promises, and let its loop run
    for any number of iterations: no connection is used after it was erased,
    the send loop never spins, every connection is registered with the loop and
    every registration has an owner, and the poller watches exactly the
    connections and the listener; so the loop counts one registration more than
    the server connections, or as many while the listener is paused. *)
Theorem server_safe {KE : Kernel} (retries : nat) (time : nat → Z)
    (layout : nat → gset bytes → list (list bytes)) (strerror : errno → bytes) (inet_pton : bytes → bool)
    (poller_valid : bool) (backend : bytes) (cfg : ServerConfig) (seed : Z) (n : nat)
    (HK : kernel_ok retries) (Hclock : clock_ok time) (Hlayout : layout_ok layout)
    (Hstart : (start strerror inet_pton poller_valid backend (new_server cfg seed)).1 = None) :
  let s := (run time layout retries n (start strerror inet_pton poller_valid backend (new_server cfg seed)).2).2 in
  fault s = false ∧ store_ok (the_db (db_ s)) ∧
  (∀ fd, callback <$> handlers_ s !! fd = Some ConnCallback ↔ is_Some (conns_ s !! fd)) ∧
  (∀ fd, callback <$> handlers_ s !! fd = Some ListenerCallback ↔ fd = listen_fd_ s ∧ listener_paused_ s = false) ∧
  dom (watched (trace s)) = dom (handlers_ s) ∧
  registered_count s = (connection_count s + if listener_paused_ s then 0 else 1)%nat.
Proof.
  intros s. destruct (start_ok retries HK strerror inet_pton poller_valid backend cfg seed Hstart) as [Hs _].
  pose proof (run_inv retries HK time Hclock layout Hlayout n _ Hs) as Hi. fold s in Hi.
  pose proof (inv_fds _ _ _ Hi) as (_ & Hl & _).
  assert (conns_ s !! listen_fd_ s = None) as Hnl by (apply not_elem_of_dom; set_solver).
  destruct Hi as [Hfault _ Hstore _ _ Hh Hw _ _ _]. simpl in Hh, Hw. split_and!; [done|done|..].
  - intros fd. rewrite <-lookup_fmap, Hh. destruct (listener_paused_ s).
    + rewrite lookup_fmap, fmap_Some. split; [by intros (c & ? & _); eexists|intros [c ?]; by exists c].
    + rewrite lookup_insert. case_decide as Hfd; [subst; rewrite Hnl; split; [done|by intros [? ?]]|].
      rewrite lookup_fmap, fmap_Some. split; [by intros (c & ? & _); eexists|intros [c ?]; by exists c].
  - intros fd. rewrite <-lookup_fmap, Hh. destruct (listener_paused_ s).
    + rewrite lookup_fmap. destruct (conns_ s !! fd); simpl; split; naive_solver.
    + rewrite lookup_insert. case_decide as Hfd; [by subst|].
      rewrite lookup_fmap. destruct (conns_ s !! fd); simpl; split; naive_solver.
  - rewrite <-(dom_fmap_L callback), Hh, Hw. destruct (listener_paused_ s); [by rewrite !dom_fmap_L|].
    by rewrite !dom_insert_L, !dom_fmap_L.
  - unfold registered_count, connection_count. rewrite <-(map_size_fmap callback), Hh.
    destruct (listener_paused_ s); [by rewrite map_size_fmap, Nat.add_0_r|].
    rewrite map_size_insert_None, map_size_fmap by (by rewrite lookup_fmap, Hnl). lia.
Qed.

Definition one_client : Script :=
  mkScript [[listener_ready]; [client_ready]; [client_ready]] 1 EAGAIN
    [$"QUIT" ++ CRLF; $"SET k v" ++ CRLF] false 1.

Lemma server_safe_witness :
  let s := run_script one_client 3 in
  fault s = false ∧ store_ok (the_db (db_ s)) ∧
  (∀ fd, callback <$> handlers_ s !! fd = Some ConnCallback ↔ is_Some (conns_ s !! fd)) ∧
  (∀ fd, callback <$> handlers_ s !! fd = Some ListenerCallback ↔ fd = listen_fd_ s ∧ listener_paused_ s = false) ∧
  dom (watched (trace s)) = dom (handlers_ s) ∧
  registered_count s = (connection_count s + if listener_paused_ s then 0 else 1)%nat.
Proof.
  apply (@server_safe (script_kernel one_client) 0 clock_1s one_bucket no_error_text (λ _, true) true
           $"epoll" default_config 7 3).
  - apply script_kernel_ok.
  - apply clock_1s_ok.
  - apply one_bucket_ok.
  - vm_compute. reflexivity.
Defined.

(** C16: The loop never sleeps in a call on one client's behalf.  In the whole
    life of a server, every [read], [send] and [accept] is made on a descriptor
    that was switched to non-blocking mode before, by a successful [fcntl], and
    has not been closed since. *)
Theorem never_blocks {KE : Kernel} (retries : nat) (time : nat → Z)
    (layout : nat → gset bytes → list (list bytes)) (strerror : errno → bytes) (inet_pton : bytes → bool)
    (poller_valid : bool) (backend : bytes) (cfg : ServerConfig) (seed : Z) (n : nat)
    (HK : kernel_ok retries) (Hclock : clock_ok time) (Hlayout : layout_ok layout)
    (Hstart : (start strerror inet_pton poller_valid backend (new_server cfg seed)).1 = None) :
  let t := trace (run time layout retries n (start strerror inet_pton poller_valid backend (new_server cfg seed)).2).2 in
  ∀ t1 a t2 fd, t = t1 ++ a :: t2 → waits_on a = Some fd → fd ∈ nonblocking t1.
Proof.
  intros t. assert (orderly t) as Hst.
  { apply (inv_orderly None ∅), (run_inv retries); [done..|].
    by destruct (start_ok retries HK strerror inet_pton poller_valid backend cfg seed Hstart). }
  intros t1 a t2 fd Ht Hw. specialize (Hst t1 a t2 Ht). destruct a; simpl in *; congruence.
Qed.

Lemma never_blocks_witness :
  let t := trace (run_script one_client 3) in
  (received 3 t = $"QUIT" ++ CRLF ++ $"SET k v" ++ CRLF ∧ 3 ∈ nonblocking t) ∧
  ∀ t1 a t2 fd, t = t1 ++ a :: t2 → waits_on a = Some fd → fd ∈ nonblocking t1.
Proof.
  split; [split; [vm_compute; reflexivity|eapply bool_decide_unpack; vm_compute; reflexivity]|].
  apply (@never_blocks (script_kernel one_client) 0 clock_1s one_bucket no_error_text (λ _, true) true
           $"epoll" default_config 7 3).
  - apply script_kernel_ok.
  - apply clock_1s_ok.
  - apply one_bucket_ok.
  - vm_compute. reflexivity.
Defined.

(** C14: Write interest is exact.  Between events, the poller watches a
    connection for writing if and only if it has output pending, so a partial
    reply is always continued and an idle connection never wakes the loop; and
    a connection that is to be closed still has output pending, so none
    lingers after its last reply. *)
Theorem write_interest_exact {KE : Kernel} (retries : nat) (time : nat → Z)
    (layout : nat → gset bytes → list (list bytes)) (n : nat) (s : Server) (fd : Z) (c : Conn Buffer.Buffer)
    (HK : kernel_ok retries) (Hclock : clock_ok time) (Hlayout : layout_ok layout) (Hs : started s)
    (Hc : conns_ (run time layout retries n s).2 !! fd = Some c) :
  watched (trace (run time layout retries n s).2) !! fd = Some (pending c) ∧
  (close_after_write c = true → pending c = true).
Proof.
  pose proof (run_inv retries HK time Hclock layout Hlayout n s Hs) as Hi.
  destruct (inv_conn retries HK _ _ _ _ _ Hi Hc) as (_ & _ & ->).
  by destruct (inv_settled _ _ _ Hi fd c Hc) as [-> ?].
Qed.

Lemma write_interest_exact_witness :
  watched (trace (run_script one_client 2)) !! 3 = Some (pending (client_conn one_client 2)) ∧
  (close_after_write (client_conn one_client 2) = true → pending (client_conn one_client 2) = true).
Proof.
  apply (@write_interest_exact (script_kernel one_client) 0 clock_1s one_bucket 2 (start_script one_client).2 3).
  - apply script_kernel_ok.
  - apply clock_1s_ok.
  - apply one_bucket_ok.
  - apply start_script_started.
  - vm_compute. reflexivity.
Defined.

(** C15: No descriptor leaks.  While the server runs, the descriptors it holds
    are exactly its connections, its listener and the spare one in reserve,
    all distinct; and destroying it closes every one of them. *)
Theorem descriptors_exact {KE : Kernel} (retries : nat) (time : nat → Z)
    (layout : nat → gset bytes → list (list bytes)) (n : nat) (s : Server)
    (HK : kernel_ok retries) (Hclock : clock_ok time) (Hlayout : layout_ok layout) (Hs : started s) :
  let s' := (run time layout retries n s).2 in
  opened (trace s') = dom (conns_ s') ∪ {[listen_fd_ s']} ∪ spare_set s' ∧
  listen_fd_ s' ∉ dom (conns_ s') ∪ spare_set s' ∧ spare_set s' ## dom (conns_ s') ∧
  opened (trace (destroy s').2) = ∅.
Proof.
  intros s'. assert (inv None ∅ s') as Hi by by apply run_inv.
  destruct (inv_fds _ _ _ Hi) as (Ho & Hl & Hsp & _). rewrite union_empty_r_L in Ho, Hl, Hsp.
  split_and!; [done|done|done|]. by apply destroy_ok.
Qed.

Lemma descriptors_exact_witness :
  let s' := run_script one_client 1 in
  opened (trace s') = dom (conns_ s') ∪ {[listen_fd_ s']} ∪ spare_set s' ∧
  listen_fd_ s' ∉ dom (conns_ s') ∪ spare_set s' ∧ spare_set s' ## dom (conns_ s') ∧
  opened (trace (destroy s').2) = ∅.
Proof.
  apply (@descriptors_exact (script_kernel one_client) 0 clock_1s one_bucket 1).
  - apply script_kernel_ok.
  - apply clock_1s_ok.
  - apply one_bucket_ok.
  - apply start_script_started.
Defined.

(** C13: Flushing neither loses, repeats nor reorders a byte.  However the
    kernel splits or interrupts the writes, [flush_output] ends; what it sent,
    followed by what is still pending, is what had been sent followed by what
    was pending, and write interest is armed exactly if something is left; or
    else the connection is closed, and no registration of it remains. *)
Theorem flush_conserves {KE : Kernel} (retries : nat) (fd : Z) (s : Server) (c : Conn Buffer.Buffer)
    (HK : kernel_ok retries) (Hi : inv (Some fd) ∅ s) (Hc : conns_ s !! fd = Some c) :
  let '(alive, s') := flush_output retries fd s in
  fault s' = false ∧
  if alive then
    ∃ c', conns_ s' = <[fd := c']> (conns_ s) ∧ in_ c' = in_ c ∧
      sent fd (trace s') ++ contents (out_ c') = sent fd (trace s) ++ contents (out_ c) ∧
      watched (trace s') !! fd = Some (negb (bool_decide (contents (out_ c') = [])))
  else conns_ s' = delete fd (conns_ s) ∧ handlers_ s' !! fd = None ∧ watched (trace s') !! fd = None.
Proof.
  pose proof (flush_output_ok retries HK ∅ fd s c Hi Hc) as H. cbv zeta in H.
  destruct (flush_output retries fd s) as [[] s']; cbn [fst snd] in H.
  - destruct H as [Hi' [(c' & Hcs & Hin & _ & _ & Hsent) _ _]]. split; [apply Hi'|].
    exists c'. split_and!; [done|done|done|].
    assert (conns_ s' !! fd = Some c') as Hc' by (rewrite Hcs; apply lookup_insert_eq).
    destruct (inv_conn retries HK _ _ _ _ _ Hi' Hc') as (_ & _ & ->).
    destruct (inv_settled _ _ _ Hi' fd c' Hc') as [-> _]; [done|]. f_equal. unfold pending. f_equal.
    destruct (inv_pre _ _ _ Hi' _ _ Hc') as [_ Hok _ _].
    change Buffer.readable with (@readable Buffer.Buffer _). rewrite readable_contents by done.
    case_bool_decide as Hd; [by rewrite Hd|]. destruct (contents (out_ c')); done.
  - destruct H as (Hi' & Hfr & Hcs & _). split; [apply Hi'|]. split; [done|].
    destruct (inv_conn retries HK _ _ _ _ _ Hi Hc) as (Hl & _). rewrite <-(frame_listen _ _ Hfr) in Hl.
    assert (fd ∉ dom (conns_ s')) as Hd by (rewrite Hcs; set_solver).
    split; [by eapply no_handler; [exact Hi'| |right]|by eapply inv_unwatched; [exact Hi'| |right]].
Qed.

Definition draining : Script := mkScript [] 0 EAGAIN [] true 1.

Lemma flush_conserves_witness :
  let s := run_script one_client 2 in
  let '(alive, s') := @flush_output (script_kernel draining) 0 3 s in
  fault s' = false ∧
  if alive then
    ∃ c', conns_ s' = <[3 := c']> (conns_ s) ∧ in_ c' = in_ (client_conn one_client 2) ∧
      sent 3 (trace s') ++ contents (out_ c') = sent 3 (trace s) ++ contents (out_ (client_conn one_client 2)) ∧
      watched (trace s') !! 3 = Some (negb (bool_decide (contents (out_ c') = [])))
  else conns_ s' = delete 3 (conns_ s) ∧ handlers_ s' !! 3 = None ∧ watched (trace s') !! 3 = None.
Proof.
  apply (@flush_conserves (script_kernel draining) 0 3 (run_script one_client 2) (client_conn one_client 2)).
  - apply script_kernel_ok.
  - apply inv_focus, (@run_inv (script_kernel one_client) 0).
    + apply script_kernel_ok.
    + apply clock_1s_ok.
    + apply one_bucket_ok.
    + apply start_script_started.
  - vm_compute. reflexivity.
Defined.

(** Shutdown is prompt.  Once the shutdown check answers yes, and keeps to it,
    the loop makes at most one more iteration and stops, whatever the pollers
    report; however many iterations it was allowed. *)
Theorem shutdown_stops {KE : Kernel} (retries : nat) (time : nat → Z)
    (layout : nat → gset bytes → list (list bytes)) (n : nat) (s : Server)
    (HK : kernel_ok retries) (Hclock : clock_ok time) (Hlayout : layout_ok layout)
    (Hi : inv None ∅ s) (Ht : tick_ s = true) (Hflag : flag_up s) :
  let s' := (run_loop time layout retries (S n) s).2 in
  running_ s' = false ∧ s' = (run_loop time layout retries 1 s).2 ∧ inv None ∅ s'.
Proof.
  intros s'. destruct (run_loop_stops retries HK time Hclock layout Hlayout n s Hi Ht Hflag) as [H1 H2].
  split_and!; [done|done|]. by apply run_loop_ok.
Qed.

Definition stopping (K : Kernel) : Kernel := {|
  k_socket := k_socket; k_bind := k_bind; k_listen := k_listen; k_read := k_read; k_send := k_send;
  k_accept := k_accept; k_open := k_open; k_getfl := k_getfl; k_setfl := k_setfl; k_setopt := k_setopt; k_poll_add := k_poll_add;
  k_poll_mod := k_poll_mod; k_poll_del := k_poll_del; k_wait := k_wait; k_shutdown _ := true;
|}.

Lemma stopping_ok K retries : @kernel_ok K retries → @kernel_ok (stopping K) retries.
Proof. by intros []. Qed.

Definition generous (K : Kernel) : Kernel := {|
  k_socket := k_socket; k_bind := k_bind; k_listen := k_listen; k_read := k_read; k_send := k_send;
  k_accept := k_accept; k_open t := Some (fresh_fd t); k_getfl := k_getfl; k_setfl := k_setfl; k_setopt := k_setopt;
  k_poll_add _ _ _ := true; k_poll_mod := k_poll_mod; k_poll_del := k_poll_del; k_wait := k_wait;
  k_shutdown := k_shutdown;
|}.

Lemma generous_ok K retries : @kernel_ok K retries → @kernel_ok (generous K) retries.
Proof. intros []. split; try done. intros t r [= <-]. apply fresh_fd_fresh. Qed.

Lemma run_script_inv x n : inv None ∅ (run_script x n).
Proof.
  apply (@run_inv (script_kernel x) 0); [apply script_kernel_ok|apply clock_1s_ok|apply one_bucket_ok|].
  apply start_script_started.
Qed.

Lemma shutdown_stops_witness :
  let s' := (@run_loop (stopping (script_kernel one_client)) clock_1s one_bucket 0 5 (run_script one_client 1)).2 in
  running_ s' = false ∧
  s' = (@run_loop (stopping (script_kernel one_client)) clock_1s one_bucket 0 1 (run_script one_client 1)).2 ∧
  inv None ∅ s'.
Proof.
  apply (@shutdown_stops (stopping (script_kernel one_client)) 0 clock_1s one_bucket 4).
  - apply stopping_ok, script_kernel_ok.
  - apply clock_1s_ok.
  - apply one_bucket_ok.
  - apply run_script_inv.
  - vm_compute. reflexivity.
  - intros u. reflexivity.
Defined.

(** ** Out of descriptors *)

(** C36: Running out of descriptors never makes the loop spin.  After
    [shed_connection] either a descriptor is in reserve again, so that the next
    connection can be accepted and turned away, or the listener is not watched
    any more; no connection is affected, and none is leaked. *)
Theorem shed_never_spins {KE : Kernel} (retries : nat) (s : Server)
    (HK : kernel_ok retries) (Hi : inv None ∅ s) :
  let s' := (shed_connection s).2 in
  (0 ≤ spare_fd_ s' ∨ listener_paused_ s' = true ∧ watched (trace s') !! listen_fd_ s' = None) ∧
  conns_ s' = conns_ s ∧ db_ s' = db_ s ∧
  opened (trace s') = dom (conns_ s) ∪ {[listen_fd_ s]} ∪ spare_set s'.
Proof.
  intros s'. destruct (shed_connection_ok retries HK None ∅ s Hi) as (Hi' & Hf & Hc & Hd & Hp). fold s' in Hi', Hf, Hc, Hd, Hp.
  destruct (inv_fds _ _ _ Hi') as (Ho & Hl & _). rewrite union_empty_r_L, Hc, (frame_listen _ _ Hf) in Ho.
  split_and!; [|done|done|done]. destruct Hp as [?|Hp]; [by left|right].
  split; [done|]. pose proof (inv_watched _ _ _ Hi') as Hw. simpl in Hw. rewrite Hp in Hw.
  rewrite Hw, lookup_fmap. rewrite (not_elem_of_dom_1 (conns_ s')); [done|set_solver].
Qed.

(** Descriptors run out at once, and the reserve cannot be renewed. *)
Definition exhausted : Script := mkScript [[listener_ready]] 0 ENFILE [] true 1.

(** The same while a client is connected. *)
Definition crowded : Script :=
  mkScript [[listener_ready]; [client_ready]] 1 EMFILE [$"PING" ++ CRLF] false 1.

Lemma shed_never_spins_witness :
  let s := run_script crowded 0 in
  let s' := (@shed_connection (script_kernel crowded) s).2 in
  (0 ≤ spare_fd_ s' ∨ listener_paused_ s' = true ∧ watched (trace s') !! listen_fd_ s' = None) ∧
  conns_ s' = conns_ s ∧ db_ s' = db_ s ∧
  opened (trace s') = dom (conns_ s) ∪ {[listen_fd_ s]} ∪ spare_set s'.
Proof.
  apply (@shed_never_spins (script_kernel crowded) 0).
  - apply script_kernel_ok.
  - apply run_script_inv.
Defined.

(** A closing connection resumes the listener.  When a connection closes
    while the listener is paused, and the kernel gives a descriptor for the
    reserve and takes the registration, the listener is watched again. *)
Theorem close_resumes_listener {KE : Kernel} (retries : nat) (s : Server) (fd : Z) (c : Conn Buffer.Buffer)
    (HK : kernel_ok retries) (Hi : inv None ∅ s) (Hc : conns_ s !! fd = Some c)
    (Hopen : ∀ t, is_Some (k_open t)) (Hadd : ∀ t fd, k_poll_add t fd false = true) :
  let s' := (close_conn fd s).2 in
  listener_paused_ s' = false ∧ watched (trace s') !! listen_fd_ s = Some false ∧
  conns_ s' = delete fd (conns_ s).
Proof.
  intros s'. destruct (close_conn_ok retries HK None ∅ s fd c Hi Hc) as (Hi' & Hf & Hcs & _); [by left|].
  fold s' in Hi', Hf, Hcs. assert (listener_paused_ s' = false) as Hp.
  { destruct (inv_conn retries HK _ _ _ _ _ Hi Hc) as (_ & (r & Hh & _) & Hw). unfold s', close_conn.
    rewrite bind_run, (loop_remove_registered retries HK _ r) by eauto.
    cbn [fst snd]. rewrite !bind_run. by apply (resume_listener_resumes retries HK). }
  split_and!; [done| |done]. pose proof (inv_watched _ _ _ Hi') as Hw. simpl in Hw.
  by rewrite Hw, Hp, (frame_listen _ _ Hf), lookup_insert_eq.
Qed.

(** A kernel that has descriptors again. *)
Definition relieved : Script := mkScript [] 0 EAGAIN [] true 100.

Lemma close_resumes_listener_witness :
  let s' := (@close_conn (generous (script_kernel relieved)) 3 (run_script crowded 1)).2 in
  listener_paused_ s' = false ∧ watched (trace s') !! listen_fd_ (run_script crowded 1) = Some false ∧
  conns_ s' = delete 3 (conns_ (run_script crowded 1)).
Proof.
  apply (@close_resumes_listener (generous (script_kernel relieved)) 0 _ 3 (client_conn crowded 1)).
  - apply generous_ok, script_kernel_ok.
  - apply run_script_inv.
  - vm_compute. reflexivity.
  - intros t. by eexists.
  - done.
Defined.

(** A pause with nobody connected is for ever.  The listener resumes only
    when a connection closes; if descriptors run out, through other processes,
    while no client is connected, the paused server never accepts again,
    whatever the kernel does and however long it runs. *)
Theorem pause_without_clients_is_final {KE : Kernel} (retries : nat) (time : nat → Z)
    (layout : nat → gset bytes → list (list bytes)) (n : nat)
    (HK : kernel_ok retries) (Hclock : clock_ok time) (Hlayout : layout_ok layout) :
  let s := run_script exhausted 1 in
  let s' := (run_loop time layout retries n s).2 in
  listener_paused_ s' = true ∧ conns_ s' = ∅ ∧
  ∃ t, trace s' = trace s ++ t ∧ ∀ l r, AAccept l r ∉ t.
Proof.
  intros s s'. assert (deaf s) as Hd by (split_and!; vm_compute; reflexivity).
  by destruct (run_loop_deaf retries HK time Hclock layout Hlayout n s Hd) as [(? & ? & _) ?].
Qed.

Lemma pause_without_clients_is_final_witness :
  let s := run_script exhausted 1 in
  let s' := (@run_loop (generous (script_kernel relieved)) clock_1s one_bucket 0 50 s).2 in
  listener_paused_ s' = true ∧ conns_ s' = ∅ ∧
  ∃ t, trace s' = trace s ++ t ∧ ∀ l r, AAccept l r ∉ t.
Proof.
  apply (@pause_without_clients_is_final (generous (script_kernel relieved)) 0 clock_1s one_bucket 50).
  - apply generous_ok, script_kernel_ok.
  - apply clock_1s_ok.
  - apply one_bucket_ok.
Defined.

(** The reply to QUIT is not the last one.  A client sends QUIT while it
    does not read; the reply stays queued and the connection is marked to be
    closed, yet its next read is parsed and dispatched all the same: the SET
    that follows the QUIT changes the keyspace, and a second reply is queued. *)
Theorem late_commands_execute :
  let s2 := run_script one_client 2 in
  let s3 := run_script one_client 3 in
  close_after_write (client_conn one_client 2) = true ∧ Db.map_ (the_db (db_ s2)) = ∅ ∧
  contents (out_ (client_conn one_client 2)) = $"+OK" ++ CRLF ∧
  data <$> Db.map_ (the_db (db_ s3)) !! $"k" = Some $"v" ∧
  contents (out_ (client_conn one_client 3)) = $"+OK" ++ CRLF ++ $"+OK" ++ CRLF.
Proof. split_and!; vm_compute; reflexivity. Qed.

(** ** The pollers *)

(** C34: Both backends report faithfully, over the whole life of a poller,
    whatever the kernel answers.  kqueue's reports, several per descriptor and
    in any order, are coalesced: each [wait] yields exactly one event per
    descriptor named, which is readable, writable or in error if and only if
    some report of that descriptor says so, with nothing left over from earlier
    waits.  epoll's are translated one by one.  An interrupted wait is no event,
    and any other error is reported.  The event buffer is 64 entries times a
    power of two and never more than 4096. *)
Theorem pollers_report (kq epfd : Z) (answers : list (errno + list Kqueue.kevent))
    (answers' : list (errno + list Epoll.epoll_event)) :
  (let '(rs, i) := polls Kqueue.poll answers (Kqueue.new_poller kq) in
   Forall2 kqueue_result answers rs ∧ clean (Kqueue.slots i) ∧ capacity_ok (Kqueue.capacity i) ∧ Kqueue.kq i = kq) ∧
  (let '(rs, i) := polls Epoll.poll answers' (Epoll.new_poller epfd) in
   Forall2 epoll_result answers' rs ∧ capacity_ok (Epoll.capacity i) ∧ Epoll.epfd i = epfd).
Proof.
  split.
  - pose proof (kqueue_polls answers (Kqueue.new_poller kq) ltac:(constructor) initial_capacity_ok) as H.
    by destruct (polls Kqueue.poll answers _).
  - pose proof (epoll_polls answers' (Epoll.new_poller epfd) initial_capacity_ok) as H.
    by destruct (polls Epoll.poll answers' _).
Qed.

Definition both_ways : list Kqueue.kevent :=
  [Kqueue.mkKevent 5 Kqueue.EVFILT_READ 0; Kqueue.mkKevent 7 Kqueue.EVFILT_READ Kqueue.EV_EOF;
   Kqueue.mkKevent 5 Kqueue.EVFILT_WRITE 0].

Example both_ways_coalesced :
  (polls Kqueue.poll [inr both_ways; inl EINTR; inr both_ways] (Kqueue.new_poller 4)).1 =
  [Some [mkPollEvent 5 true true false; mkPollEvent 7 true false true]; Some [];
   Some [mkPollEvent 5 true true false; mkPollEvent 7 true false true]].
Proof. vm_compute. reflexivity. Qed.

(** ** The command line *)

(** Options are in range.  Whatever the command line, [parse_args] either
    refuses it, with an exit status, or yields a configuration within the
    ranges the usage text gives. *)
Theorem options_in_range (args : list bytes) (o : Main.Options) (H : main_options args = inr o) :
  0 ≤ port (Main.cfg o) ≤ 65535 ∧ 1 ≤ max_output_buffer (Main.cfg o) ≤ 2 ^ 40 ∧
  Z.of_nat (active_expire_samples (Main.cfg o)) ≤ 100000 ∧ 1 ≤ tick_interval_ms (Main.cfg o) ≤ 60000.
Proof.
  by destruct (parse_args_ok args (Main.mkOptions default_config false) o default_config_ok H).
Qed.

Lemma options_in_range_witness :
  let o := Main.mkOptions (Main.set_port 7000 default_config) true in
  main_options [$"--verbose"; $"--port"; $"7000"] = inr o ∧
  0 ≤ port (Main.cfg o) ≤ 65535 ∧ 1 ≤ max_output_buffer (Main.cfg o) ≤ 2 ^ 40 ∧
  Z.of_nat (active_expire_samples (Main.cfg o)) ≤ 100000 ∧ 1 ≤ tick_interval_ms (Main.cfg o) ≤ 60000.
Proof.
  split; [vm_compute; reflexivity|].
  apply (options_in_range [$"--verbose"; $"--port"; $"7000"]). vm_compute. reflexivity.
Defined.

(** [parse_u64] is not strict.  It accepts what [strtoull] accepts: a
    negative number wraps around, so that a port, or a limit, of
    -18446744073709551615 is 1, and leading blanks and a plus sign pass. *)
Theorem parse_u64_accepts_negative :
  parse_u64 (Some $"-18446744073709551615") 65535 = Some 1 ∧
  parse_u64 (Some $"  +80") 65535 = Some 80 ∧
  (main_options [$"--port"; $"-18446744073709551615"] = inr (Main.mkOptions (Main.set_port 1 default_config) false)).
Proof. split_and!; vm_compute; reflexivity. Qed.
