(* ===== verification/LoopTheorems.v ===== *)
(** * Theorems on the event loop

    Callbacks and reports, the poller backends, and [main]. *)
From S2P Require Import Prelude Digits Buffer Inline Parser Stream Writer Keyspace Expire Commands.
From S2P Require Import Options Spec Refine Handlers Dispatch Linear Session Kernel Server Input Serial.
From S2P Require Import ServerInv Events ServerSerial Poller Backends Main Program Log CommandTheorems ServerTheorems.
Import Db (the_db, reads, mkWorld, map_).

(** ** Dispatching a batch *)
Section Batch.
Context {KE : Kernel} (retries : nat) (HK : kernel_ok retries).
Context (time : nat → Z) (Hclock : clock_ok time).
Context (layout : nat → gset bytes → list (list bytes)) (Hlayout : layout_ok layout).

(** After [n] iterations, [wait] has returned [evs] and [l1] is dispatched. *)
Definition waited (evs : list PollEvent) (s : Server) : Server := record (AWait (tick_interval_ms_ s) (Some evs)) s.

Definition after_reports (n : nat) (evs l1 : list PollEvent) (s : Server) : Server :=
  (dispatch_events time retries l1 (waited evs (run time layout retries n s).2)).2.

Lemma waited_inv n evs s : started s → inv None ∅ (waited evs (run time layout retries n s).2).
Proof. intros Hs. apply inv_record; [done|done|]. by apply run_inv. Qed.

Lemma after_reports_inv n evs l1 s : started s → inv None ∅ (after_reports n evs l1 s).
Proof. intros Hs. by apply dispatch_events_ok, waited_inv. Qed.
End Batch.

(** C18: A report reaches the connection it is about.  Suppose [wait] reports
    each descriptor once, and only watched ones, as the pollers do.  Whatever
    the earlier reports of the batch did, closing connections and accepting
    new ones on the same numbers, a connection's callback called for a later
    report is the very object that was registered when [wait] returned, and
    its connection has not been touched since. *)
Theorem events_reach_their_connection {KE : Kernel} (retries : nat) (time : nat → Z)
    (layout : nat → gset bytes → list (list bytes)) (n : nat) (s : Server)
    (evs l1 l2 : list PollEvent) (ev : PollEvent) (r : Registration)
    (HK : kernel_ok retries) (Hclock : clock_ok time) (Hlayout : layout_ok layout) (Hs : started s)
    (Hnodup : NoDup (ev_fd <$> evs))
    (Hwatched : Forall (λ e, ev_fd e ∈ dom (watched (trace (run time layout retries n s).2))) evs)
    (Hsplit : evs = l1 ++ ev :: l2)
    (Hr : handlers_ (after_reports retries time layout n evs l1 s) !! ev_fd ev = Some r)
    (Hcb : callback r = ConnCallback) :
  let s1 := (run time layout retries n s).2 in
  handlers_ s1 !! ev_fd ev = Some r ∧ is_Some (conns_ s1 !! ev_fd ev) ∧
  conns_ (after_reports retries time layout n evs l1 s) !! ev_fd ev = conns_ s1 !! ev_fd ev.
Proof.
  intros s1. pose proof (waited_inv retries HK time Hclock layout Hlayout n evs s Hs) as Hi1.
  pose proof (after_reports_inv retries HK time Hclock layout Hlayout n evs l1 s Hs) as Hi2.
  destruct (dispatch_events_ok retries HK time Hclock l1 _ Hi1) as [_ Hf].
  assert (ev_fd ev ≠ listen_fd_ s1) as Hl.
  { intros E. pose proof (inv_handlers _ _ _ Hi2) as Hh. apply (f_equal (lookup (ev_fd ev))) in Hh.
    rewrite lookup_fmap, Hr in Hh. simpl in Hh. rewrite Hcb in Hh.
    pose proof (inv_fds _ _ _ Hi2) as (_ & Hd & _). pose proof (frame_listen _ _ Hf) as Hfl. simpl in Hfl.
    assert (ev_fd ev ∉ dom (conns_ (after_reports retries time layout n evs l1 s))) as Hn.
    { unfold after_reports at 1. rewrite E. fold s1 in Hfl. rewrite <-Hfl. set_solver. }
    apply not_elem_of_dom in Hn.
    destruct (listener_paused_ _); [|rewrite lookup_insert in Hh; case_decide; [done|]];
      by rewrite lookup_fmap, Hn in Hh. }
  assert (ev_fd ev ∈ dom (conns_ s1)) as Hc.
  { rewrite Hsplit, Forall_app, Forall_cons in Hwatched. destruct Hwatched as (_ & Hw & _).
    pose proof (inv_watched _ _ _ (run_inv retries HK time Hclock layout Hlayout n s Hs)) as Hwt.
    fold s1 in Hw, Hwt. rewrite Hwt in Hw. destruct (listener_paused_ s1); set_solver. }
  destruct (dispatch_events_untouched retries HK time Hclock l1 _ (ev_fd ev) Hi1 Hc) as (H1 & H2 & _).
  { rewrite Hsplit, fmap_app in Hnodup. apply NoDup_app in Hnodup as (_ & Hd & _). intros Hin.
    apply (Hd _ Hin). simpl. by left. }
  split_and!; [|by apply elem_of_dom|done]. etrans; [symmetry; exact H1|exact Hr].
Qed.

(** Three clients; the first one quits while the second one is waiting. *)
Definition crowd : Script :=
  mkScript [[listener_ready]; [client_ready]] 3 EAGAIN [$"PING" ++ CRLF; $"QUIT" ++ CRLF] true 1.

Definition crowd_batch : list PollEvent := [client_ready; listener_ready; mkPollEvent 4 true false false].

Lemma events_reach_their_connection_witness :
  let s1 := run_script crowd 2 in
  let s2 := @after_reports (script_kernel crowd) 0 clock_1s one_bucket 2 crowd_batch [client_ready; listener_ready]
              (start_script crowd).2 in
  let r := mkRegistration ConnCallback 19 in
  handlers_ s1 !! 4 = Some r ∧ is_Some (conns_ s1 !! 4) ∧ conns_ s2 !! 4 = conns_ s1 !! 4.
Proof.
  apply (@events_reach_their_connection (script_kernel crowd) 0 clock_1s one_bucket 2 (start_script crowd).2
           crowd_batch [client_ready; listener_ready] [] (mkPollEvent 4 true false false)).
  - apply script_kernel_ok.
  - apply clock_1s_ok.
  - apply one_bucket_ok.
  - apply start_script_started.
  - eapply bool_decide_unpack. vm_compute. reflexivity.
  - eapply bool_decide_unpack. vm_compute. reflexivity.
  - reflexivity.
  - vm_compute. reflexivity.
  - reflexivity.
Defined.

(** C19: No callback object is freed while a call may be inside it.  Look up
    the object registered for a report and call it.  Whatever the call does,
    closing its own connection included, and whatever the rest of the batch
    does, the server still owns that very object: it is registered, or in
    [retired_].  Everything else it owns existed before the call, or was
    allocated after the object was, so it is not another one at its address. *)
Theorem callbacks_outlive_their_calls {KE : Kernel} (retries : nat) (time : nat → Z)
    (layout : nat → gset bytes → list (list bytes)) (strerror : errno → bytes) (inet_pton : bytes → bool)
    (poller_valid : bool) (backend : bytes) (cfg : ServerConfig) (seed : Z) (n : nat)
    (evs l1 rest : list PollEvent) (ev : PollEvent) (r : Registration)
    (HK : kernel_ok retries) (Hclock : clock_ok time) (Hlayout : layout_ok layout)
    (Hstart : (start strerror inet_pton poller_valid backend (new_server cfg seed)).1 = None)
    (Hr : handlers_ (after_reports retries time layout n evs l1
            (start strerror inet_pton poller_valid backend (new_server cfg seed)).2) !! ev_fd ev = Some r) :
  let s2 := after_reports retries time layout n evs l1
              (start strerror inet_pton poller_valid backend (new_server cfg seed)).2 in
  let s3 := (dispatch_events time retries (ev :: rest) s2).2 in
  owns s3 r ∧ ∀ r', owns s3 r' → owns s2 r' ∨ (since r < since r')%nat.
Proof.
  intros s2 s3. set (s0 := (start _ _ _ _ _).2) in *.
  destruct (start_ok retries HK strerror inet_pton poller_valid backend cfg seed Hstart) as [Hs _].
  pose proof (after_reports_inv retries HK time Hclock layout Hlayout n evs l1 s0 Hs) as Hi. fold s2 in Hi.
  destruct (dispatch_events_ok retries HK time Hclock (ev :: rest) s2 Hi) as [_ Hf]. fold s3 in Hf.
  assert (owns s2 r) as Ho by (left; by exists (ev_fd ev)).
  split; [by apply (frame_owned _ _ Hf)|]. intros r' Hr'.
  destruct (stable_dispatch_events later time retries (ev :: rest) s2) as [_ Hl].
  destruct (Hl r' Hr') as [?|?]; [by left|]. right.
  assert (since r ≤ length (trace s2))%nat; [|lia]. apply (later_bounded cfg seed); [|done].
  etrans; [apply (later_start strerror inet_pton poller_valid backend)|]. fold s0.
  etrans; [apply (stable_run later time layout retries n)|].
  etrans; [|apply (stable_dispatch_events later time retries l1)]. split; [simpl; rewrite length_app; lia|by left].
Qed.

Lemma callbacks_outlive_their_calls_witness :
  let s2 := @after_reports (script_kernel crowd) 0 clock_1s one_bucket 2 [client_ready] [] (start_script crowd).2 in
  let s3 := (@dispatch_events (script_kernel crowd) clock_1s 0 [client_ready] s2).2 in
  let r := mkRegistration ConnCallback 14 in
  (handlers_ s2 !! 3 = Some r ∧ handlers_ s3 !! 3 = None ∧ retired_ s3 = [r]) ∧
  owns s3 r ∧ ∀ r', owns s3 r' → owns s2 r' ∨ (since r < since r')%nat.
Proof.
  split; [split_and!; vm_compute; reflexivity|].
  apply (@callbacks_outlive_their_calls (script_kernel crowd) 0 clock_1s one_bucket no_error_text (λ _, true) true
           $"epoll" default_config 7 2 [client_ready] [] [] client_ready).
  - apply script_kernel_ok.
  - apply clock_1s_ok.
  - apply one_bucket_ok.
  - vm_compute. reflexivity.
  - vm_compute. reflexivity.
Defined.

(** ** Poller backends *)

(** C20: The table of registrations that the rest of this library assumes of
    the kernel is what the pollers keep.  Make any sequence of calls on the
    epoll backend, and on the kqueue one, that adds only what is not watched
    and changes or removes only what is.  Then each descriptor is watched, for
    writing too or not, exactly as the history of calls says, but for those
    whose registration failed and that are still open; no call on a registered
    descriptor was refused; and if the same calls succeeded on both backends,
    both watch the same. *)
Theorem pollers_keep_the_table (E : EpollCtl.EpollKernel) (Q : Kevent.KqueueKernel)
    (e : EpollCtl.ep E) (q : Kevent.kq Q) (cs : list PollCall)
    (He : ∀ fd, EpollCtl.interest E e fd = None) (Hq : ∀ fd f, Kevent.filters Q q fd f = None)
    (Hde : disciplined cs e) (Hdq : disciplined cs q) :
  let '(t1, e') := poll_calls cs e in
  let '(t2, q') := poll_calls cs q in
  ((∀ fd, fd ∉ failed t1 → table e' fd = watched t1 !! fd) ∧ Forall never_refused t1) ∧
  ((∀ fd, fd ∉ failed t2 → table q' fd = watched t2 !! fd) ∧ Forall never_refused t2) ∧
  (t1 = t2 → ∀ fd, fd ∉ failed t1 → table e' fd = table q' fd).
Proof.
  destruct (poll_calls_agree cs e) as [H1 H2]; [|by intros fd; simpl; rewrite He|done|].
  { intros fd m Hm. by rewrite He in Hm. }
  destruct (poll_calls_agree cs q) as [H3 H4]; [|by intros fd; simpl; rewrite Hq|done|].
  { intros fd _. unfold Kevent.whole. by rewrite !Hq. }
  destruct (poll_calls cs e) as [t1 e'], (poll_calls cs q) as [t2 q']. cbn [fst snd] in *.
  split_and!; [by apply H1|done|by apply H3|done|].
  intros -> fd Hfd. etrans; [by apply H1|]. symmetry. by apply H3.
Qed.

(** An interest list with no limit, and filters with room for [n] more. *)
Definition set_entry {A} (fd : Z) (v : A) (m : Z → A) : Z → A := λ x, if decide (x = fd) then v else m x.

Definition plain_ctl (op : EpollCtl.Op) (fd m : Z) (k : Z → option Z) : bool * (Z → option Z) :=
  match op, k fd with
  | EpollCtl.EPOLL_CTL_ADD, None => (true, set_entry fd (Some m) k)
  | EpollCtl.EPOLL_CTL_MOD, Some _ => (true, set_entry fd (Some m) k)
  | EpollCtl.EPOLL_CTL_DEL, Some _ => (true, set_entry fd None k)
  | _, _ => (false, k)
  end.

#[program]
Definition plain_epoll : EpollCtl.EpollKernel := {|
  EpollCtl.ep := Z → option Z;
  EpollCtl.epoll_ctl := plain_ctl;
  EpollCtl.ep_close fd k := set_entry fd None k;
  EpollCtl.interest k := k;
|}.
Next Obligation. intros [] fd m k k'; unfold plain_ctl; destruct (k fd); intros ?; by simplify_eq. Qed.
Next Obligation.
  intros fd m k k'. unfold plain_ctl. destruct (k fd); [done|]. intros ?. simplify_eq. unfold set_entry.
  by rewrite decide_True.
Qed.
Next Obligation.
  intros fd m k [x Hx]. unfold plain_ctl. rewrite Hx. split; [done|]. simpl. unfold set_entry. by rewrite decide_True.
Qed.
Next Obligation.
  intros fd m k [x Hx]. unfold plain_ctl. rewrite Hx. split; [done|]. simpl. unfold set_entry. by rewrite decide_True.
Qed.
Next Obligation.
  intros [] fd m k fd' Hne; unfold plain_ctl; destruct (k fd); try done; simpl; unfold set_entry; by rewrite decide_False.
Qed.
Next Obligation.
  intros fd k. unfold set_entry. split; [by rewrite decide_True|]. intros fd' Hne. by rewrite decide_False.
Qed.

Definition set_filter (c : Kevent.Change) (v : option bool) (m : Kevent.Filters) : Kevent.Filters :=
  λ fd f, if decide (Kevent.at_change c fd f) then v else m fd f.

Definition small_kevent (c : Kevent.Change) (k : Kevent.Filters * nat) : bool * (Kevent.Filters * nat) :=
  let old := k.1 (Kevent.ch_ident c) (Kevent.ch_filter c) in
  if Kevent.has Kevent.EV_ADD c && bool_decide (old = None) && (k.2 =? 0)%nat then (false, k)
  else match Kevent.change_entry c old with
       | Some v => (true, (set_filter c v k.1, if bool_decide (old = None) then pred k.2 else k.2))
       | None => (false, k)
       end.

#[program]
Definition small_kqueue : Kevent.KqueueKernel := {|
  Kevent.kq := Kevent.Filters * nat;
  Kevent.kevent1 := small_kevent;
  Kevent.kq_close fd k := (λ fd' f, if decide (fd' = fd) then None else k.1 fd' f, k.2);
  Kevent.filters k := k.1;
|}.
Next Obligation.
  intros c k k'. unfold small_kevent. destruct (_ && _); [done|].
  destruct (Kevent.change_entry _ _) as [v|] eqn:E; [|done].
  intros ?. simplify_eq. simpl. unfold set_filter. by rewrite decide_True.
Qed.
Next Obligation.
  intros c k k'. unfold small_kevent. destruct (_ && _); [intros ?; by simplify_eq|].
  destruct (Kevent.change_entry _ _); [done|intros ?; by simplify_eq].
Qed.
Next Obligation.
  intros c k Hadd [b Hb]. unfold small_kevent. rewrite Hadd, Hb. simpl. unfold Kevent.change_entry. rewrite Hadd.
  by destruct (Kevent.has Kevent.EV_DELETE c).
Qed.
Next Obligation.
  intros c k fd f Hn. unfold small_kevent. destruct (_ && _); [done|].
  destruct (Kevent.change_entry _ _); [|done]. simpl. unfold set_filter. by rewrite decide_False.
Qed.
Next Obligation. intros fd k f. simpl. by rewrite decide_True. Qed.
Next Obligation. intros fd k fd' f Hne. simpl. by rewrite decide_False. Qed.

Definition poll_script : list PollCall :=
  [PAdd 1 false; PAdd 3 false; PSet 3 true; PAdd 4 false; PDel 3; PClose 3; PAdd 3 false; PSet 4 true].

Definition no_interest : EpollCtl.ep plain_epoll := λ _ : Z, None.

Definition no_filters : Kevent.kq small_kqueue := ((λ _ _, None) : Kevent.Filters, 6%nat).

(** A check that [allowed] holds at every call, by evaluation. *)
Fixpoint discipline_check {K} `{!Poller K} (t : Trace) (k : K) (cs : list PollCall) : bool :=
  match cs with
  | [] => true
  | c :: cs' =>
      match c with
      | PAdd fd _ => bool_decide (watched t !! fd = None)
      | PSet fd _ | PDel fd => bool_decide (is_Some (watched t !! fd))
      | PClose _ => true
      end && let '(a, k') := poll_call c k in discipline_check (t ++ [a]) k' cs'
  end.

Lemma discipline_checked {K} `{!Poller K} cs (k : K) : discipline_check [] k cs = true → disciplined cs k.
Proof.
  intros H cs1 c cs2 ->. assert (∀ t k0, discipline_check t k0 (cs1 ++ c :: cs2) = true →
    allowed (foldl (λ '(t, k) c, let '(a, k') := poll_call c k in (t ++ [a], k')) (t, k0) cs1).1 c) as Hg; [|by apply Hg].
  clear H k. induction cs1 as [|c1 cs1 IH]; intros t k; simpl.
  - intros [H _]%andb_true_iff. destruct c; simpl; [by apply bool_decide_eq_true in H..|done].
  - intros [_ H]%andb_true_iff. destruct (poll_call c1 k) as [a k']. by apply IH.
Qed.

Lemma pollers_keep_the_table_witness :
  let '(t1, e') := poll_calls poll_script no_interest in
  let '(t2, q') := poll_calls poll_script no_filters in
  ((∀ fd, fd ∉ failed t1 → table e' fd = watched t1 !! fd) ∧ Forall never_refused t1) ∧
  ((∀ fd, fd ∉ failed t2 → table q' fd = watched t2 !! fd) ∧ Forall never_refused t2) ∧
  (t1 = t2 → ∀ fd, fd ∉ failed t1 → table e' fd = table q' fd).
Proof.
  apply (pollers_keep_the_table plain_epoll small_kqueue no_interest no_filters poll_script).
  - reflexivity.
  - reflexivity.
  - apply discipline_checked. vm_compute. reflexivity.
  - apply discipline_checked. vm_compute. reflexivity.
Defined.

(** C17: What the kernel watches is what the server means it to.  Run a server
    on a poller that keeps the contract of poller.h, starting with nothing
    registered: either backend will do.  The server adds only what is not
    registered and changes or removes only what is, so at any moment the
    poller watches every connection, for writing exactly if output is pending;
    the listener, unless it is paused; and nothing else, apart from what a
    failed registration may have left. *)
Theorem registrations_exact {KE : Kernel} (retries : nat) (time : nat → Z)
    (layout : nat → gset bytes → list (list bytes)) (n : nat) (s : Server)
    {K : Type} {P : Poller K} {L : PollerLaws K} (k : K)
    (HK : kernel_ok retries) (Hclock : clock_ok time) (Hlayout : layout_ok layout) (Hs : started s)
    (Hok : poll_ok ∅ k) (Hempty : ∀ fd, table k fd = None)
    (Hans : answered (trace (run time layout retries n s).2) k) :
  let s' := (run time layout retries n s).2 in
  let k' := poll_state (trace s') k in
  orderly (trace s') ∧
  (∀ fd c, conns_ s' !! fd = Some c → table k' fd = Some (pending c)) ∧
  (listener_paused_ s' = false → table k' (listen_fd_ s') = Some false) ∧
  (∀ fd, fd ∉ failed (trace s') → is_Some (table k' fd) →
    fd ∈ dom (conns_ s') ∨ fd = listen_fd_ s' ∧ listener_paused_ s' = false).
Proof.
  intros s' k'. pose proof (run_inv retries HK time Hclock layout Hlayout n s Hs) as Hi. fold s' in Hi, Hans.
  destruct (poll_state_agrees (trace s') k Hok Hempty (inv_orderly _ _ _ Hi) Hans) as [_ Ht Hf]. fold k' in Ht.
  assert (∀ fd b, watched (trace s') !! fd = Some b → table k' fd = Some b) as Hreg.
  { intros fd b Hw. rewrite Ht; [done|]. intros Hd. by rewrite (Hf fd Hd) in Hw. }
  pose proof (inv_watched _ _ _ Hi) as Hw. simpl in Hw. split_and!.
  - apply Hi.
  - intros fd c Hc. apply Hreg. destruct (inv_conn retries HK _ _ _ _ _ Hi Hc) as (_ & _ & ->).
    by destruct (inv_settled _ _ _ Hi fd c Hc) as [-> _].
  - intros Hp. apply Hreg. by rewrite Hw, Hp, lookup_insert_eq.
  - intros fd Hd. rewrite Ht by done. intros Hsome. destruct (decide (fd ∈ dom (conns_ s'))) as [?|Hc]; [by left|].
    right. destruct (decide (listener_paused_ s' = true ∨ fd ≠ listen_fd_ s')) as [Hl|Hl].
    + rewrite (inv_unwatched _ _ _ _ Hi Hc Hl) in Hsome. by destruct Hsome.
    + split; [|destruct (listener_paused_ s'); naive_solver]. destruct (decide (fd = listen_fd_ s')); naive_solver.
Qed.

Lemma registrations_exact_witness :
  let s' := run_script one_client 2 in
  let k' := poll_state (trace s') no_interest in
  (table k' 3 = Some true ∧ table k' 1 = Some false) ∧
  orderly (trace s') ∧
  (∀ fd c, conns_ s' !! fd = Some c → table k' fd = Some (pending c)) ∧
  (listener_paused_ s' = false → table k' (listen_fd_ s') = Some false) ∧
  (∀ fd, fd ∉ failed (trace s') → is_Some (table k' fd) →
    fd ∈ dom (conns_ s') ∨ fd = listen_fd_ s' ∧ listener_paused_ s' = false).
Proof.
  split; [split; vm_compute; reflexivity|].
  apply (@registrations_exact (script_kernel one_client) 0 clock_1s one_bucket 2 (start_script one_client).2 _ _ _
           no_interest).
  - apply script_kernel_ok.
  - apply clock_1s_ok.
  - apply one_bucket_ok.
  - apply start_script_started.
  - intros fd m Hm. done.
  - reflexivity.
  - vm_compute. repeat split.
Defined.

(** Registering is not atomic on kqueue: when the kernel has room for the read
    filter only, [add] reports failure and leaves that filter registered. *)
Lemma kqueue_add_leaves_half :
  let '(ok, k') := Kevent.add small_kqueue 3 false ((λ _ _, None) : Kevent.Filters, 1%nat) in
  ok = false ∧ table (K := Kevent.kq small_kqueue) k' 3 = None ∧
  Kevent.filters small_kqueue k' 3 Kqueue.EVFILT_READ = Some true.
Proof. vm_compute. done. Qed.

(** ** The program *)

(** C24: Every way the program ends is clean.  Run [main] on any command line
    and any kernel that keeps its promises.  It refuses the command line, with
    status 0 for --help and 2 otherwise; or it exits with status 1 and a reason
    when the server does not start, and with 0 after it has run, and in both
    cases no descriptor is left open and no connection was used after it was
    erased; or it is still serving.  It does not serve for ever once the
    shutdown flag is up. *)
Theorem main_exits {KE : Kernel} (retries : nat) (time : nat → Z)
    (layout : nat → gset bytes → list (list bytes)) (strerror : errno → bytes) (inet_pton : bytes → bool)
    (poller_valid : bool) (backend : bytes) (args : list bytes) (seed : Z) (n : nat)
    (HK : kernel_ok retries) (Hclock : clock_ok time) (Hlayout : layout_ok layout) :
  let out := Program.main retries time layout strerror inet_pton poller_valid backend args seed (S n) in
  match out with
  | Refused r => main_options args = inl r ∧ status_of out = Some (if r is Help then 0 else 2)
  | Exited status err s =>
      opened (trace s) = ∅ ∧ fault s = false ∧ (status = 1 ∧ is_Some err ∨ status = 0 ∧ err = None)
  | Serving s => running_ s = true ∧ opened (trace s) = dom (conns_ s) ∪ {[listen_fd_ s]} ∪ spare_set s
  end ∧
  ((∀ t, k_shutdown t = true) → is_Some (status_of out)).
Proof.
  intros out. split.
  - pose proof (main_ok retries time layout strerror inet_pton poller_valid backend HK Hclock Hlayout args seed (S n)) as H.
    fold out in H. destruct out as [r|status err s|s].
    + split; [done|]. by destruct r.
    + done.
    + destruct H as [Hi Hr]. split; [done|]. destruct (inv_fds _ _ _ Hi) as (Ho & _). set_solver.
  - intros Hstop.
    destruct (main_stops retries time layout strerror inet_pton poller_valid backend HK Hclock Hlayout args seed n Hstop)
      as [st Hst]. by eexists.
Qed.

(** The port is taken. *)
Definition taken (K : Kernel) : Kernel := {|
  k_socket := k_socket; k_bind _ _ _ _ := Some (EOTHER 98); k_listen := k_listen; k_read := k_read; k_send := k_send;
  k_accept := k_accept; k_open := k_open; k_getfl := k_getfl; k_setfl := k_setfl; k_setopt := k_setopt;
  k_poll_add := k_poll_add; k_poll_mod := k_poll_mod; k_poll_del := k_poll_del; k_wait := k_wait; k_shutdown := k_shutdown;
|}.

Lemma main_exits_witness :
  let K := taken (script_kernel one_client) in
  let out := @Program.main K 0 clock_1s one_bucket no_error_text (λ _, true) true $"epoll" [$"--port"; $"80"] 7 3 in
  (status_of out = Some 1) ∧
  match out with
  | Refused r => main_options [$"--port"; $"80"] = inl r ∧ status_of out = Some (if r is Help then 0 else 2)
  | Exited status err s =>
      opened (trace s) = ∅ ∧ fault s = false ∧ (status = 1 ∧ is_Some err ∨ status = 0 ∧ err = None)
  | Serving s => running_ s = true ∧ opened (trace s) = dom (conns_ s) ∪ {[listen_fd_ s]} ∪ spare_set s
  end ∧
  ((∀ t, @k_shutdown K t = true) → is_Some (status_of out)).
Proof.
  split; [vm_compute; reflexivity|].
  apply (@main_exits (taken (script_kernel one_client)) 0 clock_1s one_bucket no_error_text (λ _, true) true $"epoll"
           [$"--port"; $"80"] 7 2).
  - by destruct (script_kernel_ok one_client).
  - apply clock_1s_ok.
  - apply one_bucket_ok.
Defined.

(** C38: The configurations that can be asked for are the documented ones,
    exactly.  A command line can yield a configuration if and only if the
    configuration is within the ranges of the usage text; and then the command
    line that spells it, verbose or not, is read back as that configuration. *)
Theorem options_round_trip (c : ServerConfig) (v : bool) :
  ((∃ args, main_options args = inr (Main.mkOptions c v)) ↔ config_ok c) ∧
  (main_options (spell c v) = inr (Main.mkOptions c v) ↔ config_ok c).
Proof.
  assert (∀ args, main_options args = inr (Main.mkOptions c v) → config_ok c) as H.
  { intros args. apply (parse_args_ok args (Main.mkOptions default_config false) (Main.mkOptions c v) default_config_ok). }
  split; split.
  - intros [args Ha]. by eapply H.
  - intros Hc. exists (spell c v). by apply main_options_spell.
  - apply H.
  - apply main_options_spell.
Qed.

Lemma options_round_trip_witness :
  let c := mkServerConfig $"0.0.0.0" 7000 511 4096 250 0 in
  spell c true = [$"--verbose"; $"--bind"; $"0.0.0.0"; $"--port"; $"7000"; $"--max-output-buffer"; $"4096";
                  $"--expire-samples"; $"0"; $"--tick-interval"; $"250"] ∧
  main_options (spell c true) = inr (Main.mkOptions c true).
Proof.
  split; [vm_compute; reflexivity|]. apply (options_round_trip (mkServerConfig $"0.0.0.0" 7000 511 4096 250 0) true).
  split; simpl; lia.
Defined.

(** ** Logging *)

(** Log calls in order, each with its level, its text and its moment. *)
Fixpoint log_all (calls : list (Log.Level * bytes * (Log.tm * Z))) (g : Log.Logger) : Log.Logger :=
  match calls with
  | [] => g
  | (l, text, (t, usec)) :: calls' => log_all calls' (Log.vwrite l text t usec g)
  end.

Definition log_line (call : Log.Level * bytes * (Log.tm * Z)) : bytes :=
  let '(l, text, (t, usec)) := call in
  Log.date t ++ $"." ++ Log.padded 3 (Z.quot usec 1000) ++ $" " ++ Log.level_tag l ++ $" " ++ text ++ [LF].

(** The log is complete and its stamps are whole.  Of any sequence of log
    calls, exactly those at or above the minimum level are written, in order,
    and the 32-byte array always holds the whole stamp, in any year an [int]
    can hold: date, time and three digits of milliseconds. *)
Theorem log_exact (calls : list (Log.Level * bytes * (Log.tm * Z))) (g : Log.Logger)
    (Htimes : Forall (λ c, Log.tm_ok c.2.1 c.2.2) calls) :
  log_all calls g =
    Log.mkLogger (Log.g_min_level g)
      (Log.stderr g ++ (log_line <$> filter (λ c, Log.severity (Log.g_min_level g) ≤ Log.severity c.1.1) calls)).
Proof.
  revert g. induction Htimes as [|[[l text] [t usec]] calls Ht _ IH]; intros g; simpl.
  { rewrite app_nil_r. by destruct g. }
  unfold Log.vwrite. simpl in Ht. rewrite filter_cons. simpl.
  destruct (Z.ltb_spec (Log.severity l) (Log.severity (Log.g_min_level g))) as [Hlt|Hge]; simpl.
  - rewrite IH. rewrite decide_False by lia. done.
  - rewrite Log.stamp_ok by done. simpl. rewrite IH, decide_True by done. simpl. f_equal.
    rewrite <-(assoc_L (++)). simpl. do 2 f_equal. by rewrite <-!(assoc_L (++)).
Qed.

Definition noon : Log.tm := Log.mkTm 125 0 31 12 0 5.

Lemma log_exact_witness :
  let calls := [(Log.Debug, $"accepted", (noon, 0)); (Log.Warn, $"paused", (noon, 7042))] in
  (log_line (Log.Warn, $"paused", (noon, 7042)) = $"2025-01-31 12:00:05.007 WARN  paused" ++ [LF]) ∧
  log_all calls (Log.mkLogger Log.Info []) =
    Log.mkLogger Log.Info
      ([] ++ (log_line <$> filter (λ c, Log.severity Log.Info ≤ Log.severity c.1.1) calls)).
Proof.
  split; [vm_compute; reflexivity|].
  apply (log_exact [(Log.Debug, $"accepted", (noon, 0)); (Log.Warn, $"paused", (noon, 7042))] (Log.mkLogger Log.Info [])).
  repeat constructor; simpl; lia.
Defined.
