(* ===== verification/ResourceTheorems.v ===== *)
(** * Theorems on resources

    Memory per connection, signals, waiting times, fairness, promptness, machine
    types. *)
From S2P Require Import Prelude Digits Buffer Inline Parser Stream Writer Keyspace Expire Commands.
From S2P Require Import Options Spec Refine Handlers Dispatch Linear Spread Session Kernel Server Input Serial.
From S2P Require Import ServerInv Events ServerSerial Conns Memory Work Prompt Drain Poller Main Program Signals Types.
From S2P Require Import CommandTheorems ServerTheorems.
Import Db (the_db, reads, mkWorld, map_).

(** ** Memory *)

(** C12: What a client makes the server hold is bounded, until it is closing.
    In any reachable state, a connection that is not marked to be closed has
    at most 512 MiB and one byte of input waiting to be parsed, at most
    [max_output_buffer] bytes of replies waiting to be sent, and the storage
    behind its input is larger than that by at most one read and one step of
    growth, whatever the client sends and however it is cut up. *)
Theorem memory_bounded {KE : Kernel} (retries : nat) (time : nat → Z)
    (layout : nat → gset bytes → list (list bytes)) (n : nat) (s : Server) (fd : Z) (c : Conn Buffer.Buffer)
    (HK : kernel_ok retries) (Hclock : clock_ok time) (Hlayout : layout_ok layout) (Hs : started s)
    (Hlimit : 0 ≤ max_output_buffer (cfg_ s))
    (Hc : conns_ (run time layout retries n s).2 !! fd = Some c) (Hopen : close_after_write c = false) :
  Z.of_nat (Buffer.readable (in_ c)) ≤ 2 ^ 29 + 1 ∧
  Z.of_nat (Buffer.readable (out_ c)) ≤ max_output_buffer (cfg_ s) ∧
  Z.of_nat (Buffer.capacity (in_ c)) ≤ 2 ^ 29 + 1 + 2 ^ 14 + 2 ^ 24.
Proof.
  destruct (run_memory retries HK time Hclock layout Hlayout n s Hs Hlimit) as [Hm Hcfg].
  destruct (Hm fd c Hc Hopen) as [H1 H2 H3]. rewrite Hcfg in H2. by split_and!.
Qed.

Definition slow_client : Script :=
  mkScript [[listener_ready]; [client_ready]] 1 EAGAIN [$"PING" ++ CRLF ++ $"SET k"] false 1.

Lemma memory_bounded_witness :
  let c := client_conn slow_client 2 in
  (Buffer.to_string (in_ c) = $"SET k" ∧ Buffer.to_string (out_ c) = $"+PONG" ++ CRLF) ∧
  Z.of_nat (Buffer.readable (in_ c)) ≤ 2 ^ 29 + 1 ∧
  Z.of_nat (Buffer.readable (out_ c)) ≤ max_output_buffer default_config ∧
  Z.of_nat (Buffer.capacity (in_ c)) ≤ 2 ^ 29 + 1 + 2 ^ 14 + 2 ^ 24.
Proof.
  split; [split; vm_compute; reflexivity|].
  apply (@memory_bounded (script_kernel slow_client) 0 clock_1s one_bucket 2 (start_script slow_client).2 3).
  - apply script_kernel_ok.
  - apply clock_1s_ok.
  - apply one_bucket_ok.
  - apply start_script_started.
  - vm_compute. discriminate.
  - vm_compute. reflexivity.
  - vm_compute. reflexivity.
Defined.

(** *** A closing connection that is not read from *)
Definition quits (k : nat) : bytes := concat (replicate k ($"QUIT" ++ CRLF)).

Lemma quits_S k : quits (S k) = $"QUIT" ++ CRLF ++ quits k.
Proof. done. Qed.

Lemma quits_app k l : quits (k + l) = quits k ++ quits l.
Proof. unfold quits. by rewrite replicate_add, concat_app. Qed.

Lemma quits_length k : length (quits k) = (6 * k)%nat.
Proof. induction k as [|k IH]; [done|]. rewrite quits_S, !length_app, IH. simpl. lia. Qed.

Lemma parse_quit rest :
  parse (new_parser default_limits) ($"QUIT" ++ CRLF ++ rest) = (new_parser default_limits, rest, Complete [$"QUIT"]).
Proof. rewrite parse_step by apply new_parser_ok, default_limits_ok. reflexivity. Qed.

(** The loop stops at the first QUIT. *)
Lemma process_quit {B} `{!ByteQueue B} `{!ByteQueueLaws B} time limit (c : Conn B) w rest :
  conn_pre c → parser c = new_parser default_limits → contents (in_ c) = $"QUIT" ++ CRLF ++ rest →
  ∃ i o, process_loop time limit c w = (mkConn i o (parser c) true (write_armed c), w, LoopBreak) ∧
    contents i = rest ∧ contents o = contents (out_ c) ++ $"+OK" ++ CRLF.
Proof.
  intros Hpre Hp Hin. pose proof (parse_quit rest) as Hq. rewrite <-Hin, <-Hp in Hq.
  destruct (parse (parser c) (in_ c)) as [[p i] st] eqn:E.
  destruct (parse_contents _ _ _ _ _ (pre_in _ Hpre) E) as [Hi E']. rewrite Hq in E'. injection E' as <- Hrest <-.
  destruct (ok_encodes (out_ c) (pre_out _ Hpre)) as [_ Ho].
  exists i, (reply.ok (out_ c)). split; [|by split].
  unfold process_loop. cbn [input_loop]. rewrite E. by rewrite bool_decide_eq_false_2 by done.
Qed.

Section Flood.
Context {KE : Kernel} (retries : nat) (HK : kernel_ok retries) (time : nat → Z) (Hclock : clock_ok time).
Context (layout : nat → gset bytes → list (list bytes)) (Hlayout : layout_ok layout) (fd : Z).

(** From [s] on, the peer sends two QUITs at a time and reads nothing. *)
Definition deaf_peer (s : Server) : Prop := ∀ u,
  let t := trace s ++ u in
  k_read t fd kReadChunk = inr (quits 2) ∧ (∀ p, k_send t fd p = inl EAGAIN) ∧
  (∀ ms, k_wait t ms = Some [mkPollEvent fd true false false]) ∧ k_shutdown t = false.

Lemma deaf_later s s' : timed s s' → deaf_peer s → deaf_peer s'.
Proof. intros [_ (u & Hu & _)] Hs v. rewrite Hu, <-(assoc_L (++)). apply Hs. Qed.

(** The connection is to be closed; [a] QUITs wait to be parsed, [b] bytes to
    be sent. *)
Definition flooded (a b : nat) (s : Server) : Prop :=
  ∃ c, conns_ s !! fd = Some c ∧ close_after_write c = true ∧ parser c = new_parser default_limits ∧
    contents (in_ c) = quits a ∧ Buffer.readable (out_ c) = b.

Lemma flush_deaf X s c :
  inv (Some fd) X s → conns_ s !! fd = Some c → pending c = true → write_armed c = true →
  k_send (trace s) fd (Buffer.to_string (out_ c)) = inl EAGAIN →
  ∃ a, flush_output retries fd s = (true, record a s).
Proof.
  intros Hi Hc Hp Ha Hsend. unfold flush_output. rewrite bind_run, (the_conn_run _ _ _ Hc). cbn [fst snd].
  pose proof Hp as Hne. unfold pending in Hne. destruct (Buffer.readable (out_ c)) as [|m] eqn:Er; [done|].
  rewrite bind_run. cbn [Nat.mul]. rewrite Nat.add_succ_l, (flush_loop_step _ _ _ c) by done. rewrite Hsend.
  cbn [fst snd negb]. rewrite bind_run, (the_conn_run _ _ c) by exact Hc. cbn [fst snd].
  rewrite Er, Ha. cbn [Nat.eqb negb]. by eexists.
Qed.

Lemma handle_read_data s c p :
  conns_ s !! fd = Some c → k_read (trace s) fd kReadChunk = inr p → p ≠ [] →
  let s1 := record (ARead fd (inr p)) (set_conns (<[fd := reading_conn c]> (conns_ s)) s) in
  handle_read time retries fd s =
    process_input time retries fd (set_conns (<[fd := received_conn p c]> (conns_ s1)) s1).
Proof. intros Hc Hr Hp. rewrite (handle_read_run retries time fd s c Hc). cbv zeta. rewrite Hr. by destruct p. Qed.

Lemma handle_read_flooded a b s :
  inv None ∅ s → deaf_peer s → flooded a (S b) s →
  (handle_read time retries fd s).1 = true ∧ flooded (S a) (S b + 5) (handle_read time retries fd s).2.
Proof.
  intros Hi Hd (c & Hc & Hcl & Hp & Hin & Hb). pose proof (inv_pre _ _ _ Hi _ _ Hc) as Hpre.
  assert (pending c = true) as Hpend by (unfold pending; by rewrite Hb).
  destruct (inv_settled _ _ _ Hi _ _ Hc ltac:(done)) as [Harm _]. rewrite Hpend in Harm.
  destruct (Hd []) as (Hread & _). rewrite app_nil_r in Hread.
  assert (length (quits 2) ≤ kReadChunk)%nat as Hlen by (apply Nat.leb_le; reflexivity).
  destruct (received_conn_spec (quits 2) c Hpre Hlen) as (_ & Hpr & _ & Hinr).
  rewrite (handle_read_data s c (quits 2)) by done. set (r := received_conn (quits 2) c) in *.
  set (s1 := record _ _). set (s2 := set_conns _ s1).
  assert (inv (Some fd) ∅ s2) as Hi2.
  { apply (inv_put ∅ s1 fd (reading_conn c)); [by apply inv_reading|by apply lookup_insert_eq|done|done]. }
  assert (contents (in_ r) = $"QUIT" ++ CRLF ++ quits (S a)) as Hr.
  { rewrite Hinr, Hin, <-quits_app, Nat.add_comm. apply quits_S. }
  destruct (process_quit time (max_output_buffer (cfg_ s)) r (db_ s) (quits (S a)) Hpr Hp Hr) as (i & o & Hrun & Hi' & Ho).
  assert (conns_ s2 !! fd = Some r) as Hc2 by apply lookup_insert_eq.
  rewrite (process_input_run retries time fd s2 r) by done. change (cfg_ s2) with (cfg_ s). change (db_ s2) with (db_ s).
  pose proof (process_loop_ok time Hclock (max_output_buffer (cfg_ s)) r (db_ s) Hpr (inv_store _ _ _ Hi)) as Hok.
  rewrite Hrun in Hok |- *. destruct Hok as (Hpre' & Hst & _). cbv zeta. set (c' := mkConn _ _ _ _ _) in *.
  set (s3 := set_world _ _). assert (inv (Some fd) ∅ s3) as Hi3.
  { apply inv_world; [done|]. by apply (inv_put ∅ s2 fd r). }
  assert (conns_ s3 !! fd = Some c') as Hc3 by apply lookup_insert_eq.
  assert (Buffer.readable o = (S b + 5)%nat) as Hob.
  { change (readable o = (S b + 5)%nat). rewrite readable_contents by apply Hpre'. rewrite Ho, length_app.
    rewrite <-readable_contents by apply Hpr. change (readable (out_ r)) with (Buffer.readable (out_ c)).
    rewrite Hb. reflexivity. }
  destruct (flush_deaf ∅ s3 c' Hi3 Hc3) as [act ->].
  - unfold pending. cbn [out_ c']. by rewrite Hob.
  - done.
  - by apply (Hd [ARead fd (inr (quits 2))]).
  - split; [done|]. by exists c'.
Qed.

Lemma dispatch_flooded a b s :
  inv None ∅ s → deaf_peer s → flooded a (S b) s →
  flooded (S a) (S b + 5) (dispatch_event time retries (mkPollEvent fd true false false) s).2.
Proof.
  intros Hi Hd Hfl. destruct (handle_read_flooded a b s Hi Hd Hfl) as [Htrue (c1 & Hc1 & Hcl & Hrest)].
  pose proof Hfl as (c & Hc & _). destruct (inv_conn retries HK _ _ _ _ _ Hi Hc) as (_ & (r & Hr & Hcb) & _).
  unfold dispatch_event. rewrite bind_run. cbn [fst snd get ev_fd ev_readable ev_writable]. rewrite Hr.
  cbn [fmap option_fmap option_map]. rewrite Hcb. unfold on_conn_event. rewrite bind_run. cbn [fst snd get]. rewrite Hc, bind_run.
  destruct (handle_read time retries fd s) as [ok s1]. cbn [fst snd] in *. subst ok. cbn [negb].
  rewrite bind_run, (the_conn_run _ _ _ Hc1). cbn [fst snd andb]. rewrite bind_run. cbn [fst snd mret ST_ret negb].
  rewrite bind_run, (the_conn_run _ _ _ Hc1). cbn [fst snd]. destruct Hrest as (Hp & Hin & Hb).
  unfold Buffer.empty. rewrite Hcl, Hb. cbn [andb Nat.eqb Nat.add]. by exists c1.
Qed.

Lemma iterate_flooded a b s :
  inv None ∅ s → deaf_peer s → flooded a (S b) s →
  let r := iterate time layout retries s in
  r.1 = true ∧ (running_ s = true → running_ r.2 = true) ∧ flooded (S a) (S b + 5) r.2.
Proof.
  intros Hi Hd Hfl. unfold iterate. rewrite bind_run. cbn [fst snd get]. rewrite bind_run. unfold sys_wait, sys. cbn [fst snd].
  destruct (Hd []) as (_ & _ & Hwait & _). rewrite app_nil_r in Hwait. rewrite Hwait. set (s1 := record _ s).
  assert (inv None ∅ s1) as Hi1 by by apply inv_record.
  assert (timed s s1) as Ht1 by by apply timed_record.
  pose proof (dispatch_flooded a b s1 Hi1 (deaf_later _ _ Ht1 Hd) Hfl) as Hfl2.
  set (ev := mkPollEvent fd true false false) in *. rewrite bind_run.
  destruct (dispatch_events_ok retries HK time Hclock [ev] s1 Hi1) as [Hi2 Hf2].
  pose proof (stable_dispatch_events timed time retries [ev] s1) as Ht2.
  assert ((dispatch_events time retries [ev] s1).2 = (dispatch_event time retries ev s1).2) as E
    by (simpl dispatch_events; by rewrite bind_run).
  rewrite E in *. set (s2 := (dispatch_event time retries ev s1).2) in *.
  destruct (deaf_later _ _ Ht2 (deaf_later _ _ Ht1 Hd) []) as (_ & _ & _ & Hflag). rewrite app_nil_r in Hflag.
  rewrite bind_run. destruct (tick_same time layout s2) as [Hc3 _]. rewrite bind_run. cbn [fst snd modify mret ST_ret].
  split_and!; [done| |].
  - intros Hrun. cbn [running_ set_handlers]. rewrite tick_run.
    assert (running_ s2 = true) as Hr2 by (etrans; [apply (frame_running _ _ Hf2)|exact Hrun]).
    destruct (tick_ s2); [|done].
    destruct (on_tick_ok time layout Hlayout None ∅ s2 Hi2) as (_ & _ & _ & Hr). by rewrite Hr.
  - destruct Hfl2 as (c & Hc & Hrest). exists c. split; [|done]. cbn [conns_ set_handlers]. by rewrite Hc3.
Qed.

Lemma run_loop_flooded n a b s :
  inv None ∅ s → running_ s = true → deaf_peer s → flooded a (S b) s →
  flooded (a + n) (S b + 5 * n) (run_loop time layout retries n s).2.
Proof.
  revert a b s. induction n as [|n IH]; intros a b s Hi Hrun Hd Hfl.
  { by rewrite Nat.mul_0_r, !Nat.add_0_r. }
  simpl run_loop. rewrite bind_run. cbn [fst snd get]. rewrite Hrun, bind_run.
  destruct (iterate_flooded a b s Hi Hd Hfl) as (H1 & H2 & H3). specialize (H2 Hrun).
  pose proof (iterate_ok retries HK time Hclock layout Hlayout s Hi) as Hi1.
  pose proof (stable_iterate timed time layout retries s) as Ht.
  destruct (iterate time layout retries s) as [ok s1]. cbn [fst snd] in *. subst ok.
  replace (a + S n)%nat with (S a + n)%nat by lia. replace (S b + 5 * S n)%nat with (S (b + 5) + 5 * n)%nat by lia.
  apply IH; [done|done|by eapply deaf_later|done].
Qed.
End Flood.

(** C39: What a closing connection holds is not bounded.  Take a connection
    that is to be closed, in any reachable state, whose peer does not read what
    is pending and goes on sending two QUITs at a time.  It is never closed;
    every iteration of the loop parses one of the two and keeps the other, so
    the input it holds grows by six bytes each time; and each QUIT is answered,
    so that the pending output grows by five, past any [max_output_buffer]: the
    limit is not checked for a command that closes.  The bound that
    [memory_bounded] gives to open connections does not hold here. *)
Theorem closing_input_grows {KE : Kernel} (retries : nat) (time : nat → Z)
    (layout : nat → gset bytes → list (list bytes)) (m n a : nat) (s : Server) (fd : Z) (c : Conn Buffer.Buffer)
    (HK : kernel_ok retries) (Hclock : clock_ok time) (Hlayout : layout_ok layout) (Hs : started s)
    (Hrun : running_ (run time layout retries m s).2 = true)
    (Hpeer : deaf_peer fd (run time layout retries m s).2)
    (Hc : conns_ (run time layout retries m s).2 !! fd = Some c) (Hclosing : close_after_write c = true)
    (Hp : parser c = new_parser default_limits) (Hin : contents (in_ c) = quits a) :
  ∃ c', conns_ (run time layout retries (m + n) s).2 !! fd = Some c' ∧ close_after_write c' = true ∧
    Buffer.readable (in_ c') = (Buffer.readable (in_ c) + 6 * n)%nat ∧
    Buffer.readable (out_ c') = (Buffer.readable (out_ c) + 5 * n)%nat.
Proof.
  pose proof (run_inv retries HK time Hclock layout Hlayout m s Hs) as Hi. unfold run in *. rewrite bind_run in *.
  cbn [snd modify] in *. set (s0 := set_running true s) in *. rewrite run_loop_add.
  pose proof (run_loop_ok retries HK time Hclock layout Hlayout n _ Hi) as Hi'.
  destruct (inv_settled _ _ _ Hi fd c Hc ltac:(done)) as [_ Hpend]. specialize (Hpend Hclosing). unfold pending in Hpend.
  destruct (Buffer.readable (out_ c)) as [|b] eqn:Hb; [done|].
  destruct (run_loop_flooded retries HK time Hclock layout Hlayout fd n a b _ Hi Hrun Hpeer) as (c' & Hc' & Hcl & _ & Hin' & Hb').
  { by exists c. }
  exists c'. split_and!; [done|done| |exact Hb']. change Buffer.readable with (@readable Buffer.Buffer _).
  rewrite !readable_contents by (apply (inv_pre _ _ _ Hi _ _ Hc) || apply (inv_pre _ _ _ Hi' _ _ Hc')).
  rewrite Hin, Hin', !quits_length. lia.
Qed.

(** One client, ready in every report after the first. *)
Definition flooding : Script := mkScript [[listener_ready]] 1 EAGAIN [] false 1.

Definition flood_kernel : Kernel := {|
  k_socket := @k_socket (script_kernel flooding);
  k_bind := @k_bind (script_kernel flooding);
  k_listen := @k_listen (script_kernel flooding);
  k_read _ _ n := inr (take n (quits 2));
  k_send := @k_send (script_kernel flooding);
  k_accept := @k_accept (script_kernel flooding);
  k_open := @k_open (script_kernel flooding);
  k_getfl := @k_getfl (script_kernel flooding);
  k_setfl := @k_setfl (script_kernel flooding);
  k_setopt := @k_setopt (script_kernel flooding);
  k_poll_add := @k_poll_add (script_kernel flooding);
  k_poll_mod := @k_poll_mod (script_kernel flooding);
  k_poll_del := @k_poll_del (script_kernel flooding);
  k_wait t _ := Some [if existsb is_wait t then client_ready else listener_ready];
  k_shutdown := @k_shutdown (script_kernel flooding);
|}.

Lemma flood_kernel_ok : @kernel_ok flood_kernel 0.
Proof.
  destruct (script_kernel_ok flooding) as [_ H2 H3 H4 H5 H6 H7 H8]. split; [|done..].
  intros t fd k p. simpl. intros [= <-]. rewrite length_take. lia.
Qed.

Definition flood_start : Server :=
  (@start flood_kernel no_error_text (λ _, true) true $"epoll" (new_server default_config 7)).2.

Definition flood_run (n : nat) : Server := (@run flood_kernel clock_1s one_bucket 0 n flood_start).2.

Lemma closing_input_grows_witness :
  let c := default new_conn (conns_ (flood_run 2) !! 3) in
  (Buffer.to_string (in_ c) = $"QUIT" ++ CRLF ∧ Buffer.to_string (out_ c) = $"+OK" ++ CRLF) ∧
  ∃ c', conns_ (flood_run (2 + 1000)) !! 3 = Some c' ∧ close_after_write c' = true ∧
    Buffer.readable (in_ c') = (Buffer.readable (in_ c) + 6 * 1000)%nat ∧
    Buffer.readable (out_ c') = (Buffer.readable (out_ c) + 5 * 1000)%nat.
Proof.
  split; [split; vm_compute; reflexivity|].
  apply (@closing_input_grows flood_kernel 0 clock_1s one_bucket 2 1000 1 flood_start 3).
  - apply flood_kernel_ok.
  - apply clock_1s_ok.
  - apply one_bucket_ok.
  - apply (@start_ok flood_kernel 0 flood_kernel_ok). reflexivity.
  - vm_compute. reflexivity.
  - intros u t. split_and!; [vm_compute; reflexivity|done| |done]. intros ms.
    assert (existsb is_wait t = true) as Hw by (unfold t; rewrite existsb_app; vm_compute; reflexivity).
    cbn [k_wait flood_kernel]. by rewrite Hw.
  - vm_compute. reflexivity.
  - vm_compute. reflexivity.
  - vm_compute. reflexivity.
  - vm_compute. reflexivity.
Defined.

(** ** Signals *)
Section SignalLife.
Context {KE : Kernel} (retries : nat) (HK : kernel_ok retries) (time : nat → Z) (Hclock : clock_ok time).
Context (layout : nat → gset bytes → list (list bytes)) (Hlayout : layout_ok layout).
Context (strerror : errno → bytes) (inet_pton : bytes → bool) (poller_valid : bool) (backend : bytes).

(** The server that [main] runs. *)
Lemma main_inv args seed n :
  match main retries time layout strerror inet_pton poller_valid backend args seed n with
  | Exited 0 _ s => ∃ o s0, main_options args = inr o ∧ started s0 ∧ cfg_ s0 = Main.cfg o ∧
      start strerror inet_pton poller_valid backend (new_server (Main.cfg o) seed) = (None, s0) ∧
      running_ (run time layout retries n s0).2 = false ∧ s = (destroy (run time layout retries n s0).2).2
  | Serving s => ∃ o s0, main_options args = inr o ∧ started s0 ∧ cfg_ s0 = Main.cfg o ∧
      start strerror inet_pton poller_valid backend (new_server (Main.cfg o) seed) = (None, s0) ∧
      running_ s = true ∧ s = (run time layout retries n s0).2
  | _ => True
  end.
Proof.
  unfold main. destruct (main_options args) as [r|o]; [done|].
  pose proof (start_ok retries HK strerror inet_pton poller_valid backend (Main.cfg o) seed) as Hok.
  destruct (start _ _ _ _ _) as [[err|] s] eqn:Es; [done|]. cbn [fst snd] in *. destruct (Hok eq_refl) as [Hs Hcfg].
  destruct (running_ _) eqn:Er; by exists o, s.
Qed.

Lemma run_tick n s : started s → tick_ (run time layout retries n s).2 = true.
Proof.
  intros Hs. destruct (timed_tick _ _ (stable_run timed time layout retries n s)) as [E _].
  rewrite E. apply Hs.
Qed.
End SignalLife.

(** C23: Signals do what main.cpp means them to.  With the handlers installed,
    whatever was inherited, and whatever SIGINT, SIGTERM and SIGPIPE arrive
    between the server's system calls: the process is never killed; a server
    that was asked to stop before its last call stops in the next iteration of
    the loop, with status 0 and every descriptor closed; and a server that has
    stopped was asked to, or its [wait] failed: SIGPIPE stops nothing. *)
Theorem signals_stop_cleanly {KE : Kernel} (retries : nat) (time : nat → Z)
    (layout : nat → gset bytes → list (list bytes)) (strerror : errno → bytes) (inet_pton : bytes → bool)
    (poller_valid : bool) (backend : bytes) (arrivals : nat → list signal) (inherited : signal → Disposition)
    (args : list bytes) (seed : Z) (n : nat)
    (HK : kernel_ok retries) (Hclock : clock_ok time) (Hlayout : layout_ok layout) :
  let life n := main_signalled retries time layout strerror inet_pton poller_valid backend arrivals inherited args seed n in
  match life n with
  | None => False
  | Some (Refused r) => main_options args = inl r
  | Some (Serving s) => stop_asked arrivals 0 (length (trace s)) →
      ∃ s', life (S n) = Some (Exited 0 None s') ∧ opened (trace s') = ∅
  | Some (Exited status err s) => opened (trace s) = ∅ ∧
      (status = 1 ∧ is_Some err ∨
       status = 0 ∧ (stop_asked arrivals 0 (length (trace s)) ∨ ∃ ms, AWait ms None ∈ trace s))
  end.
Proof.
  intros life. subst life. cbv beta. set (K := signalled arrivals inherited).
  assert (@kernel_ok K retries) as HK' by by apply signalled_ok.
  destruct (@main_survives KE retries time layout strerror inet_pton poller_valid backend arrivals inherited args seed n)
    as (o & -> & Ho).
  pose proof (@main_ok K retries time layout strerror inet_pton poller_valid backend HK' Hclock Hlayout args seed n) as Hmain.
  pose proof (@main_inv K retries HK' time layout strerror inet_pton poller_valid backend args seed n) as Hinv.
  fold K in Ho. rewrite <-Ho in Hmain, Hinv. destruct o as [r|status err s|s]; [done|..].
  - destruct Hmain as (Hop & _ & [[-> ?]|[-> ->]]); (split; [done|]); [by left|right]. split; [done|].
    destruct Hinv as (o & s0 & _ & Hs & _ & _ & Hr & ->). unfold run in *. rewrite bind_run in *. cbn [snd modify] in *.
    destruct (@run_loop_reason K retries HK' time Hclock layout Hlayout n (set_running true s0)) as [(t & Ht & Hk)|[ms Hw]].
    all: pose proof (@stable_destroy K timed _ (@run_loop K time layout retries n (set_running true s0)).2) as [_ (u & Hu & _)].
    + by eapply inv_ext; [by apply started_inv|..].
    + done.
    + done.
    + left. apply shutdown_check_spec in Hk as (j & Hj & Ha). exists j. split; [|done].
      apply prefix_length in Ht. rewrite Hu, length_app. lia.
    + right. exists ms. rewrite Hu. set_solver.
  - intros Hask. destruct Hinv as (o & s0 & Hopt & Hs & _ & Hstart & Hr & ->).
    pose proof (@run_inv K retries HK' time Hclock layout Hlayout n s0 Hs) as Hi.
    pose proof (@run_tick K retries time layout n s0 Hs) as Ht. unfold run in *. rewrite bind_run in *. cbn [snd modify] in *.
    set (s1 := (run_loop time layout retries n (set_running true s0)).2) in *.
    assert (@flag_up K s1) as Hflag.
    { intros u. apply shutdown_check_spec. destruct Hask as (j & Hj & Ha). exists j. rewrite length_app. split; [lia|done]. }
    destruct (@run_loop_stops K retries HK' time Hclock layout Hlayout 0 s1 Hi Ht Hflag) as [Hstop _].
    destruct (@main_survives KE retries time layout strerror inet_pton poller_valid backend arrivals inherited args seed (S n))
      as (o' & -> & Ho'). fold K in Ho'. unfold main in Ho'. rewrite Hopt, Hstart in Ho'.
    unfold run in Ho'. rewrite bind_run in Ho'. cbn [snd modify] in Ho'.
    replace (S n) with (n + 1)%nat in Ho' by lia. rewrite run_loop_add in Ho'. fold s1 in Ho'. rewrite Hstop in Ho'.
    eexists. split; [by f_equal|]. apply destroy_ok. by apply (@run_loop_ok K retries HK' time Hclock layout Hlayout 1 s1).
Qed.

(** SIGPIPE before every call, and SIGTERM while the first client is served. *)
Definition noisy (i : nat) : list signal := if (i =? 20)%nat then [SIGPIPE; SIGTERM] else [SIGPIPE].

Definition noisy_life (n : nat) : option Outcome :=
  @main_signalled (script_kernel one_client) 0 clock_1s one_bucket no_error_text (λ _, true) true $"epoll"
    noisy (λ _, SIG_DFL) [] 7 n.

Lemma signals_stop_cleanly_witness :
  (status_of <$> noisy_life 1 = Some None ∧ status_of <$> noisy_life 2 = Some (Some 0)) ∧
  match noisy_life 2 with
  | None => False
  | Some (Refused r) => main_options [] = inl r
  | Some (Serving s) => stop_asked noisy 0 (length (trace s)) →
      ∃ s', noisy_life 3 = Some (Exited 0 None s') ∧ opened (trace s') = ∅
  | Some (Exited status err s) => opened (trace s) = ∅ ∧
      (status = 1 ∧ is_Some err ∨
       status = 0 ∧ (stop_asked noisy 0 (length (trace s)) ∨ ∃ ms, AWait ms None ∈ trace s))
  end.
Proof.
  split; [split; vm_compute; reflexivity|].
  apply (@signals_stop_cleanly (script_kernel one_client) 0 clock_1s one_bucket no_error_text (λ _, true) true
           $"epoll" noisy (λ _, SIG_DFL) [] 7 2).
  - apply script_kernel_ok.
  - apply clock_1s_ok.
  - apply one_bucket_ok.
Defined.

(** ** Waiting *)

(** The loop never waits for ever, and never spins on the timer.  In
    every run of [main], each call of [wait] is given the interval of the
    command line, from 1 ms to a minute; and the [timespec] that the kqueue
    backend makes of it is exactly that long and well formed. *)
Theorem waits_are_bounded {KE : Kernel} (retries : nat) (time : nat → Z)
    (layout : nat → gset bytes → list (list bytes)) (strerror : errno → bytes) (inet_pton : bytes → bool)
    (poller_valid : bool) (backend : bytes) (args : list bytes) (o : Main.Options) (seed : Z) (n : nat) (ms : Z)
    (r : option (list PollEvent)) (HK : kernel_ok retries) (Hargs : main_options args = inr o)
    (Hstart : (start strerror inet_pton poller_valid backend (new_server (Main.cfg o) seed)).1 = None)
    (Hwait : AWait ms r ∈ trace (run time layout retries n
               (start strerror inet_pton poller_valid backend (new_server (Main.cfg o) seed)).2).2) :
  ms = tick_interval_ms (Main.cfg o) ∧ 1 ≤ ms ≤ 60000 ∧
  ∃ sec nsec, Kqueue.timespec ms = Some (sec, nsec) ∧ 0 ≤ nsec < 10 ^ 9 ∧ sec * 10 ^ 9 + nsec = ms * 10 ^ 6.
Proof.
  destruct (start_ok retries HK strerror inet_pton poller_valid backend (Main.cfg o) seed Hstart) as [Hs Hcfg].
  set (s0 := (start _ _ _ _ _).2) in *.
  assert (ms = tick_interval_ms (Main.cfg o)) as ->.
  { destruct (stable_run timed time layout retries n s0) as [_ (u & Hu & Hf)]. rewrite Hu in Hwait.
    apply elem_of_app in Hwait as [Hw|Hw].
    - pose proof (started_quiet _ Hs) as Hq. rewrite Forall_forall in Hq. by destruct (Hq _ Hw) as [_ [=]].
    - rewrite Forall_forall in Hf. rewrite <-Hcfg. destruct (started_timer _ Hs) as [_ <-]. exact (Hf _ Hw). }
  pose proof (config_tick _ (parse_args_ok args (mkOptions default_config false) o default_config_ok Hargs)) as Ht.
  set (ms := tick_interval_ms _) in *. split; [done|split; [done|]]. unfold Kqueue.timespec.
  replace (0 <=? ms) with true by lia. eexists _, _. split; [done|].
  pose proof (Z.quot_rem' ms 1000). pose proof (Z.rem_bound_pos ms 1000). lia.
Qed.

Lemma waits_are_bounded_witness :
  (AWait 60000 (Some [listener_ready]) ∈ trace (@run (script_kernel one_client) clock_1s one_bucket 0 1
     (@start (script_kernel one_client) no_error_text (λ _, true) true $"epoll"
        (new_server (set_tick 60000 default_config) 7)).2).2) ∧
  60000 = tick_interval_ms (set_tick 60000 default_config) ∧ 1 ≤ 60000 ≤ 60000 ∧
  ∃ sec nsec, Kqueue.timespec 60000 = Some (sec, nsec) ∧ 0 ≤ nsec < 10 ^ 9 ∧ sec * 10 ^ 9 + nsec = 60000 * 10 ^ 6.
Proof.
  match goal with |- ?P ∧ _ => assert P as Hw end.
  { apply list_elem_of_lookup_2 with 8%nat. vm_compute. reflexivity. }
  split; [exact Hw|].
  refine (@waits_are_bounded (script_kernel one_client) 0 clock_1s one_bucket no_error_text (λ _, true) true $"epoll"
    [$"--tick-interval"; $"60000"] (mkOptions (set_tick 60000 default_config) false) 7 1 60000 _ _ _ _ Hw).
  - apply script_kernel_ok.
  - vm_compute. reflexivity.
  - vm_compute. reflexivity.
Defined.

(** ** Fairness *)

(** C35: No client holds the thread.  In any reachable state, one iteration of
    the loop reads from a connection at most once for each report about it, at
    most 16 KiB each time, whatever the client sends; and it accepts at most
    1001 times for each report about the listener, the last time only to turn
    a connection away; whatever the poller reports, and in any order.  With the
    reports of either backend that is one read, and one batch of accepts, per
    iteration. *)
Theorem iteration_is_fair {KE : Kernel} (retries : nat) (time : nat → Z)
    (layout : nat → gset bytes → list (list bytes)) (n : nat) (s : Server) (fd : Z)
    (HK : kernel_ok retries) (Hclock : clock_ok time) (Hlayout : layout_ok layout) (Hs : started s)
    (Hfd : fd ≠ listen_fd_ (run time layout retries n s).2) :
  let s1 := (run time layout retries n s).2 in
  let evs := default [] (k_wait (trace s1) (tick_interval_ms_ s1)) in
  ∃ a u, trace (iterate time layout retries s1).2 = trace s1 ++ a :: u ∧ is_wait a = true ∧
    (tally (reads_from fd) u ≤ reports fd evs)%nat ∧
    Z.of_nat (length (received fd u)) ≤ 2 ^ 14 * Z.of_nat (reports fd evs) ∧
    (tally accepting u ≤ 1001 * reports (listen_fd_ s1) evs)%nat ∧
    (reported evs → (tally (reads_from fd) u ≤ 1)%nat ∧ Z.of_nat (length (received fd u)) ≤ 2 ^ 14 ∧
                    (tally accepting u ≤ 1001)%nat).
Proof.
  pose proof (run_inv retries HK time Hclock layout Hlayout n s Hs) as Hi.
  set (s1 := (run time layout retries n s).2) in *. clearbody s1. intros s2 evs. subst s2.
  pose proof (iterate_fair retries HK time Hclock layout s1 fd Hi Hfd) as H. cbv zeta in H. fold evs in H.
  destruct H as (u & Eu & Hr & Hb & Ha).
  assert (Z.of_nat kReadChunk = 2 ^ 14) as Hchunk by (vm_compute; reflexivity).
  assert (kMaxAcceptsPerEvent + 1 = 1001)%nat as Hmax by (vm_compute; reflexivity).
  rewrite Hmax in Ha. apply inj_le in Hb. rewrite Nat2Z.inj_mul, Hchunk in Hb.
  eexists _, u. split; [exact Eu|]. split; [done|]. split; [exact Hr|]. split; [exact Hb|]. split; [exact Ha|].
  intros Hnd%reported_nodup. pose proof (reports_once fd evs Hnd). pose proof (reports_once (listen_fd_ s1) evs Hnd).
  split_and!; nia.
Qed.

Lemma iteration_is_fair_witness :
  let s1 := run_script chatting 1 in
  let evs := default [] (@k_wait (script_kernel chatting) (trace s1) (tick_interval_ms_ s1)) in
  evs = [client_ready] ∧
  ∃ a u, trace (@iterate (script_kernel chatting) clock_1s one_bucket 0 s1).2 = trace s1 ++ a :: u ∧ is_wait a = true ∧
    (tally (reads_from 3) u ≤ reports 3 evs)%nat ∧
    Z.of_nat (length (received 3 u)) ≤ 2 ^ 14 * Z.of_nat (reports 3 evs) ∧
    (tally accepting u ≤ 1001 * reports (listen_fd_ s1) evs)%nat ∧
    (reported evs → (tally (reads_from 3) u ≤ 1)%nat ∧ Z.of_nat (length (received 3 u)) ≤ 2 ^ 14 ∧
                    (tally accepting u ≤ 1001)%nat).
Proof.
  split; [vm_compute; reflexivity|].
  apply (@iteration_is_fair (script_kernel chatting) 0 clock_1s one_bucket 1 (start_script chatting).2 3).
  - apply script_kernel_ok.
  - apply clock_1s_ok.
  - apply one_bucket_ok.
  - apply start_script_started.
  - vm_compute. discriminate.
Defined.

(** ** Promptness *)

(** The story of a connection that keeps up. *)
Lemma run_prompt {KE : Kernel} retries time layout n s fd c :
  kernel_ok retries → clock_ok time → layout_ok layout → started s →
  (∀ t p, k_send t fd p ≠ inl EAGAIN) → conns_ (run time layout retries n s).2 !! fd = Some c →
  let s' := (run time layout retries n s).2 in
  let t := session fd (trace s') in
  let id := id_of fd (trace s') in
  close_after_write c = false ∧
  ∃ log cmds, (run_log time layout log (db_ s)).2 = db_ s' ∧ Forall (about_args args_ok) log ∧
    Forall (polite id) log ∧ (∀ i, read_from log (trace s') i) ∧
    feed (new_parser default_limits) [] (chunks fd t) = (cmds, parser c, contents (in_ c), None) ∧
    asked id log = filter (λ a, a ≠ []) cmds ∧
    sent fd t = owed id (run_log time layout log (db_ s)).1.
Proof.
  intros HK Hclock Hlayout Hs Hpeer Hc s' t id.
  pose proof (run_inv retries HK time Hclock layout Hlayout n s Hs) as Hi. fold s' in Hi, Hc.
  pose proof (run_dry retries HK time Hclock fd Hpeer layout n s Hlayout Hs c Hc) as Hdry.
  destruct (inv_settled _ _ _ Hi fd c Hc ltac:(done)) as [_ Hp]. unfold pending in Hp. rewrite Hdry in Hp.
  assert (close_after_write c = false) as Hcl by (destruct (close_after_write c); [by specialize (Hp eq_refl)|done]).
  split; [done|].
  destruct (run_serial retries HK time Hclock layout Hlayout (db_ s) n s Hs eq_refl) as [log [H1 _ H2 H3 _ H4]].
  destruct (H3 fd c Hc) as (Hsent & _ & Hcmds); [done|]. destruct (Hcmds Hcl) as (cmds & Hfeed & Hasked & _ & Hpo).
  exists log, cmds. split_and!; [exact H1|exact H2|exact Hpo|exact H4|exact Hfeed|by symmetry|].
  assert (contents (out_ c) = []) as Hempty.
  { apply nil_length_inv. rewrite <-readable_contents by apply (inv_pre _ _ _ Hi _ _ Hc). exact Hdry. }
  change (sent fd t ++ contents (out_ c) = owed id (run_log time layout log (db_ s)).1) in Hsent.
  rewrite Hempty, app_nil_r in Hsent. exact Hsent.
Qed.

(** C21: A client that keeps up is answered at once.  Suppose the kernel always
    has room for what is sent to [fd], however often it interrupts a [send] or
    takes only a part, and whatever the other clients do.  Then in any reachable
    state the connection is not waiting to be closed, and every call that its
    bytes so far contain has been answered: what was sent to it is exactly what
    the log owes it, the calls of the log are exactly the complete commands in
    the bytes read from it, and only an unfinished command is left in its
    input.  No reply waits for a later event. *)
Theorem replies_are_prompt {KE : Kernel} (retries : nat) (time : nat → Z)
    (layout : nat → gset bytes → list (list bytes)) (n : nat) (s : Server) (fd : Z) (c : Conn Buffer.Buffer)
    (HK : kernel_ok retries) (Hclock : clock_ok time) (Hlayout : layout_ok layout) (Hs : started s)
    (Hpeer : ∀ t p, k_send t fd p ≠ inl EAGAIN)
    (Hc : conns_ (run time layout retries n s).2 !! fd = Some c) :
  let s' := (run time layout retries n s).2 in
  let t := session fd (trace s') in
  let id := id_of fd (trace s') in
  close_after_write c = false ∧
  ∃ log cmds, (run_log time layout log (db_ s)).2 = db_ s' ∧
    feed (new_parser default_limits) [] (chunks fd t) = (cmds, parser c, contents (in_ c), None) ∧
    asked id log = filter (λ a, a ≠ []) cmds ∧
    sent fd t = owed id (run_log time layout log (db_ s)).1.
Proof.
  intros s' t id. destruct (run_prompt retries time layout n s fd c) as (Hcl & log & cmds & H1 & _ & _ & _ & H2 & H3 & H4); [done..|].
  split; [exact Hcl|]. exists log, cmds. by split_and!.
Qed.

Lemma replies_are_prompt_witness :
  let s' := (@run (script_kernel chatting) clock_1s one_bucket 0 4 (start_script chatting).2).2 in
  let t := session 3 (trace s') in
  let id := id_of 3 (trace s') in
  (length (received 3 (trace s')) = 16%nat ∧ sent 3 t = $"+OK" ++ CRLF ++ $"$1" ++ CRLF ++ $"1" ++ CRLF) ∧
  ∃ c, conns_ s' !! 3 = Some c ∧ close_after_write c = false ∧
  ∃ log cmds, (run_log clock_1s one_bucket log (db_ (start_script chatting).2)).2 = db_ s' ∧
    feed (new_parser default_limits) [] (chunks 3 t) = (cmds, parser c, contents (in_ c), None) ∧
    asked id log = filter (λ a, a ≠ []) cmds ∧
    sent 3 t = owed id (run_log clock_1s one_bucket log (db_ (start_script chatting).2)).1.
Proof.
  split; [split; vm_compute; reflexivity|].
  set (s' := (@run (script_kernel chatting) clock_1s one_bucket 0 4 (start_script chatting).2).2).
  assert (bool_decide (is_Some (conns_ s' !! 3)) = true) as Hopen by (vm_compute; reflexivity).
  apply bool_decide_eq_true in Hopen as [c Hc]. exists c. split; [exact Hc|].
  apply (@replies_are_prompt (script_kernel chatting) 0 clock_1s one_bucket 4 (start_script chatting).2 3 c).
  - apply script_kernel_ok.
  - apply clock_1s_ok.
  - apply one_bucket_ok.
  - apply start_script_started.
  - done.
  - exact Hc.
Defined.

Lemma filter_nonempty (l : list (list bytes)) : Forall (λ a, a ≠ []) l → filter (λ a, a ≠ []) l = l.
Proof. induction 1 as [|a l Ha _ IH]; [done|]. by rewrite filter_cons_True, IH. Qed.

(** C2: The whole server, from one client's side.  Start it with any
    configuration, under any clock that does not go back, and let it serve any
    number of clients for any number of iterations.  Take a connection whose
    kernel buffer always has room, and suppose that what it has been read from
    so far is a pipeline of calls, encoded as clients do, in whatever pieces it
    came.  Then nothing of it is left in the buffers and the connection stays
    open; and what was sent to it is the wire form of exactly one reply per
    call, in order: its share of a history of all clients' calls, and of nothing
    but what clients sent, which the README's semantics answers from the empty
    keyspace on, each call while it runs.  If this client's calls are not
    unknown commands whose error echoes a carriage return, it reads back exactly
    these replies. *)
Theorem clients_are_served {KE : Kernel} (retries : nat) (time : nat → Z)
    (layout : nat → gset bytes → list (list bytes)) (strerror : errno → bytes) (inet_pton : bytes → bool)
    (poller_valid : bool) (backend : bytes) (cfg : ServerConfig) (seed : Z) (n : nat)
    (fd : Z) (c : Conn Buffer.Buffer) (cmds : list (list bytes))
    (HK : kernel_ok retries) (Hclock : clock_ok time) (Hmono : monotone time) (Hlayout : layout_ok layout)
    (Hstart : (start strerror inet_pton poller_valid backend (new_server cfg seed)).1 = None)
    (Hpeer : ∀ t p, k_send t fd p ≠ inl EAGAIN) (Hfits : Forall (fits default_limits) cmds) (Hne : Forall (λ a, a ≠ []) cmds) :
  let s := (start strerror inet_pton poller_valid backend (new_server cfg seed)).2 in
  let s' := (run time layout retries n s).2 in
  let t := session fd (trace s') in
  let id := id_of fd (trace s') in
  conns_ s' !! fd = Some c → received fd t = concat (encode <$> cmds) →
  close_after_write c = false ∧ contents (in_ c) = [] ∧ Buffer.readable (out_ c) = 0%nat ∧
  ∃ log rs, history_over time (reads (db_ s')) 0 0 ∅ (events log) rs ∧
    (run_log time layout log (db_ s)).2 = db_ s' ∧ (∀ i, read_from log (trace s') i) ∧ asked id log = cmds ∧
    length (replies_to id log rs) = length cmds ∧ sent fd t = concat (wire <$> replies_to id log rs) ∧
    (Forall echo_safe cmds → read_replies (length cmds) (sent fd t) = Some (replies_to id log rs, [])).
Proof.
  cbv zeta. destruct (start_ok retries HK strerror inet_pton poller_valid backend cfg seed Hstart) as [Hs _].
  set (s := (start _ _ _ _ _).2) in *. clearbody s. clear Hstart.
  intros Hc Hbytes. destruct (run_prompt retries time layout n s fd c)
    as (Hcl & log & cmds' & H1 & Hargs & Hpo & Hread & Hfeed & Hasked & Hsent); [done..|].
  rewrite <-chunks_received in Hbytes.
  assert (feed (new_parser default_limits) [] (chunks fd (session fd (trace (run time layout retries n s).2))) =
    (cmds, new_parser default_limits, [], None)) as Hf.
  { apply feed_expects; [apply default_limits_ok|done|apply new_parser_ok, default_limits_ok|done|].
    rewrite Hbytes. by apply expects_start. }
  rewrite Hf in Hfeed.
  injection Hfeed as <- _ Hin. symmetry in Hin. rewrite filter_nonempty in Hasked by done.
  split_and!; [done|done|by eapply run_dry|].
  destruct (log_history time layout s log Hclock Hmono Hlayout Hs Hargs) as (rs & Hh & Ho & Hleg).
  rewrite H1 in Hh. rewrite Ho, owed_told in Hsent by done.
  apply (replies_to_legible (id_of fd (trace (run time layout retries n s).2))) in Hleg. rewrite Hasked in Hleg.
  pose proof (Forall2_length _ _ _ Hleg) as Hlen.
  exists log, rs. split_and!; [done|done|done|done|done|done|]. intros Hecho.
  rewrite Hsent, Hlen, <-(app_nil_r (concat _)). by eapply read_replies_wire, legible_sendable.
Qed.

(** The client's two calls, in three reads. *)
Definition chat : list (list bytes) := [[$"SET"; $"k"; $"1"]; [$"GET"; $"k"]].

Definition chat_bytes : bytes := concat (encode <$> chat).

Definition pipelining : Script :=
  mkScript [[listener_ready]; [client_ready]; [client_ready]; [client_ready]] 1 EAGAIN
    [take 7 chat_bytes; take 30 (drop 7 chat_bytes); drop 37 chat_bytes] true 1.

Lemma clients_are_served_witness :
  let s := (@start (script_kernel pipelining) no_error_text (λ _, true) true $"epoll" (new_server default_config 7)).2 in
  let s' := (@run (script_kernel pipelining) ticking one_bucket 0 4 s).2 in
  let t := session 3 (trace s') in
  let id := id_of 3 (trace s') in
  sent 3 t = $"+OK" ++ CRLF ++ $"$1" ++ CRLF ++ $"1" ++ CRLF ∧
  ∃ c, close_after_write c = false ∧ contents (in_ c) = [] ∧ Buffer.readable (out_ c) = 0%nat ∧
  ∃ log rs, history_over ticking (reads (db_ s')) 0 0 ∅ (events log) rs ∧
    (run_log ticking one_bucket log (db_ s)).2 = db_ s' ∧ (∀ i, read_from log (trace s') i) ∧ asked id log = chat ∧
    length (replies_to id log rs) = 2%nat ∧ sent 3 t = concat (wire <$> replies_to id log rs) ∧
    (Forall echo_safe chat → read_replies 2 (sent 3 t) = Some (replies_to id log rs, [])).
Proof.
  split; [vm_compute; reflexivity|].
  set (s := (@start (script_kernel pipelining) no_error_text (λ _, true) true $"epoll" (new_server default_config 7)).2).
  set (s' := (@run (script_kernel pipelining) ticking one_bucket 0 4 s).2).
  assert (bool_decide (is_Some (conns_ s' !! 3)) = true) as Hopen by (vm_compute; reflexivity).
  apply bool_decide_eq_true in Hopen as [c Hc]. exists c.
  apply (@clients_are_served (script_kernel pipelining) 0 ticking one_bucket no_error_text (λ _, true) true
           $"epoll" default_config 7 4 3 c chat).
  - apply script_kernel_ok.
  - apply ticking_ok.
  - apply ticking_mono.
  - apply one_bucket_ok.
  - vm_compute. reflexivity.
  - done.
  - repeat constructor; simpl; lia.
  - repeat constructor; done.
  - exact Hc.
  - vm_compute. reflexivity.
Defined.

(** ** Progress *)

(** C22: What is pending gets sent.  Take any connection in any reachable state,
    and suppose that from then on its peer reads and does not write: no [send]
    to it fails for good, the first one after each wait takes at least a byte,
    and the poller reports it ready for writing while it is watched for that.
    Whatever the other clients do, there is an iteration, at most as many from
    now as there are bytes pending, after which the kernel has been given
    exactly these bytes, in order; and then a connection to be closed has been
    closed, not before, and any other is idle: nothing is pending, it is no
    longer watched for writing, and what it had received is as it was. *)
Theorem output_drains {KE : Kernel} (retries : nat) (time : nat → Z)
    (layout : nat → gset bytes → list (list bytes)) (m : nat) (s : Server) (fd : Z) (c : Conn Buffer.Buffer)
    (HK : kernel_ok retries) (Hclock : clock_ok time) (Hlayout : layout_ok layout) (Hs : started s)
    (Hrun : running_ (run time layout retries m s).2 = true)
    (Hpeer : patient_peer fd (run time layout retries m s).2)
    (Hc : conns_ (run time layout retries m s).2 !! fd = Some c) :
  ∃ k u, (k ≤ Buffer.readable (out_ c))%nat ∧
    trace (run time layout retries (m + k) s).2 = trace (run time layout retries m s).2 ++ u ∧
    if close_after_write c then AClose fd ∈ u ∧ Buffer.to_string (out_ c) `prefix_of` sent fd u
    else ∃ c', conns_ (run time layout retries (m + k) s).2 !! fd = Some c' ∧
      sent fd u = Buffer.to_string (out_ c) ∧ Buffer.readable (out_ c') = 0%nat ∧ write_armed c' = false ∧
      close_after_write c' = false ∧ in_ c' = in_ c ∧ parser c' = parser c.
Proof.
  pose proof (run_inv retries HK time Hclock layout Hlayout m s Hs) as Hi. unfold run in *. rewrite bind_run in *.
  cbn [snd modify] in *. set (s0 := set_running true s) in *.
  destruct (run_loop_drains retries HK time Hclock layout Hlayout fd (Buffer.readable (out_ c)) _ c Hi Hrun Hpeer Hc)
    as (k & u & Hk & Hu & Hend); [lia|].
  exists k, u. rewrite bind_run. cbn [snd modify]. fold s0. rewrite run_loop_add. split_and!; [done|done|].
  pose proof (run_loop_ok retries HK time Hclock layout Hlayout k _ Hi) as Hi'.
  destruct Hend as [[(c' & Hc' & Hsent & Hin & Hp & Hcl) Hdone]|(-> & H2 & H3)]; [|done].
  specialize (Hdone c' Hc'). destruct (inv_settled _ _ _ Hi' fd c' Hc' ltac:(done)) as [Harm Hpend].
  rewrite Hcl in Hpend. destruct (close_after_write c); [by rewrite Hpend in Hdone|].
  pose proof Hdone as Hz. unfold pending in Hz. apply negb_false_iff, Nat.eqb_eq in Hz.
  exists c'. rewrite Harm. split_and!; try done.
  assert (contents (out_ c') = []) as E.
  { apply nil_length_inv. rewrite <-readable_contents by apply (inv_pre _ _ _ Hi' _ _ Hc'). exact Hz. }
  by rewrite E, app_nil_r in Hsent.
Qed.

(** A kernel that takes one byte for a descriptor after each wait, and then
    none. *)
Definition room_step (fd : Z) (b : bool) (a : Action) : bool :=
  if is_wait a then true else if a is ASend fd' _ _ then (if fd' =? fd then false else b) else b.

Definition room (fd : Z) (t : Trace) : bool := foldl (room_step fd) false t.

Lemma rested_room fd t : rested fd t → room fd t = true.
Proof.
  intros (t0 & a & u & -> & Ha & Hu). unfold room. rewrite foldl_app. cbn [foldl]. set (b := foldl _ _ t0).
  assert (room_step fd b a = true) as -> by (unfold room_step; by rewrite Ha).
  induction Hu as [|x u Hx _ IH]; [done|]. cbn [foldl]. unfold room_step at 2.
  destruct x; simpl in *; try exact IH. by destruct (Z.eqb_spec fd0 fd).
Qed.

Definition dripping : Script := mkScript [[listener_ready]; [client_ready]] 1 EAGAIN [$"PING" ++ CRLF] false 1.

Definition drip_kernel : Kernel := {|
  k_socket := @k_socket (script_kernel dripping);
  k_bind := @k_bind (script_kernel dripping);
  k_listen := @k_listen (script_kernel dripping);
  k_read := @k_read (script_kernel dripping);
  k_send t fd p := if room fd t then inr (Nat.min 1 (length p)) else inl EAGAIN;
  k_accept := @k_accept (script_kernel dripping);
  k_open := @k_open (script_kernel dripping);
  k_getfl := @k_getfl (script_kernel dripping);
  k_setfl := @k_setfl (script_kernel dripping);
  k_setopt := @k_setopt (script_kernel dripping);
  k_poll_add := @k_poll_add (script_kernel dripping);
  k_poll_mod := @k_poll_mod (script_kernel dripping);
  k_poll_del := @k_poll_del (script_kernel dripping);
  k_wait t _ := Some (nth (count is_wait t) (waits dripping) [mkPollEvent 3 false true false]);
  k_shutdown := @k_shutdown (script_kernel dripping);
|}.

Lemma drip_kernel_ok : @kernel_ok drip_kernel 0.
Proof.
  destruct (script_kernel_ok dripping) as [H1 _ _ H4 H5 H6 H7 H8]. split; [done|..|done|done|done|done|done].
  - intros t fd p k. cbn [k_send drip_kernel]. destruct (room fd t); [|done]. intros [= <-]. destruct (length p); lia.
  - intros t fd p. exists 0%nat. split; [done|]. simpl. by destruct (room fd _).
Qed.

Definition drip_start : Server :=
  (@start drip_kernel no_error_text (λ _, true) true $"epoll" (new_server default_config 7)).2.

Lemma drip_patient u0 :
  count is_wait (trace (@run drip_kernel clock_1s one_bucket 0 u0 drip_start).2) = 2%nat →
  @patient_peer drip_kernel 3 (@run drip_kernel clock_1s one_bucket 0 u0 drip_start).2.
Proof.
  set (s := (@run drip_kernel clock_1s one_bucket 0 u0 drip_start).2). intros Hw. split; intros u.
  - intros p Hp. simpl. destruct (room 3 _); [|by left]. destruct p; [done|]. simpl. lia.
  - intros p Hp Hr. exists 0%nat. simpl. rewrite (rested_room _ _ Hr). by destruct p.
  - intros ms _. eexists _, false. split; [reflexivity|].
    assert (count is_wait (trace s ++ u) = 2 + count is_wait u)%nat as ->.
    { unfold count in *. by rewrite filter_app, length_app, Hw. }
    assert (∀ i, nth (2 + i) (waits dripping) [mkPollEvent 3 false true false] = [mkPollEvent 3 false true false]) as ->.
    { intros i. simpl. by destruct i. }
    split; [apply NoDup_singleton|by apply list_elem_of_singleton].
  - done.
Qed.

Lemma output_drains_witness :
  ∃ c, Buffer.to_string (out_ c) = $"PONG" ++ CRLF ∧
  ∃ k u, (k ≤ Buffer.readable (out_ c))%nat ∧
    trace (@run drip_kernel clock_1s one_bucket 0 (2 + k) drip_start).2 =
      trace (@run drip_kernel clock_1s one_bucket 0 2 drip_start).2 ++ u ∧
    if close_after_write c then AClose 3 ∈ u ∧ Buffer.to_string (out_ c) `prefix_of` sent 3 u
    else ∃ c', conns_ (@run drip_kernel clock_1s one_bucket 0 (2 + k) drip_start).2 !! 3 = Some c' ∧
      sent 3 u = Buffer.to_string (out_ c) ∧ Buffer.readable (out_ c') = 0%nat ∧ write_armed c' = false ∧
      close_after_write c' = false ∧ in_ c' = in_ c ∧ parser c' = parser c.
Proof.
  set (s1 := (@run drip_kernel clock_1s one_bucket 0 2 drip_start).2).
  assert ((λ c, Buffer.to_string (out_ c)) <$> conns_ s1 !! 3 = Some ($"PONG" ++ CRLF)) as Ho by (vm_compute; reflexivity).
  destruct (conns_ s1 !! 3) as [c|] eqn:Hc; [|done]. injection Ho as Ho. exists c. split; [exact Ho|].
  apply (@output_drains drip_kernel 0 clock_1s one_bucket 2 drip_start 3 c).
  - apply drip_kernel_ok.
  - apply clock_1s_ok.
  - apply one_bucket_ok.
  - apply (@start_ok drip_kernel 0 drip_kernel_ok). reflexivity.
  - vm_compute. reflexivity.
  - apply drip_patient. vm_compute. reflexivity.
  - exact Hc.
Defined.

(** ** Types *)

(** C25: Every number the server keeps stays in the C++ type it is declared
    with.  In any reachable state of a server started by [main]: every deadline
    is a non-negative [int64_t] and every string's length fits; the generator
    is in its range and never zero, where it would stay for ever; the counter
    of expired keys is a [uint64_t]; the options are in the ranges documented,
    and the loop's interval is the configured one; the cursors of every buffer
    are in order and within its storage; and the counters of every parser, and
    what it has collected, are within the protocol's limits. *)
Theorem server_well_typed {KE : Kernel} (retries : nat) (time : nat → Z)
    (layout : nat → gset bytes → list (list bytes)) (strerror : errno → bytes) (inet_pton : bytes → bool)
    (poller_valid : bool) (backend : bytes) (args : list bytes) (o : Main.Options) (seed : Z) (n : nat)
    (HK : kernel_ok retries) (Hclock : clock_ok time) (Hlayout : layout_ok layout) (Hargs : main_options args = inr o)
    (Hstart : (start strerror inet_pton poller_valid backend (new_server (Main.cfg o) seed)).1 = None) :
  server_typed (run time layout retries n
    (start strerror inet_pton poller_valid backend (new_server (Main.cfg o) seed)).2).2.
Proof.
  destruct (start_ok retries HK strerror inet_pton poller_valid backend (Main.cfg o) seed Hstart) as [Hs Hcfg].
  apply run_typed; [done..|]. rewrite Hcfg.
  exact (parse_args_ok args (mkOptions default_config false) o default_config_ok Hargs).
Qed.

Lemma server_well_typed_witness :
  server_typed (@run (script_kernel chatting) clock_1s one_bucket 0 4
    (@start (script_kernel chatting) no_error_text (λ _, true) true $"epoll" (new_server (set_samples 5 default_config) 7)).2).2.
Proof.
  apply (@server_well_typed (script_kernel chatting) 0 clock_1s one_bucket no_error_text (λ _, true) true $"epoll"
    [$"--expire-samples"; $"5"] (mkOptions (set_samples 5 default_config) false) 7 4).
  - apply script_kernel_ok.
  - apply clock_1s_ok.
  - apply one_bucket_ok.
  - vm_compute. reflexivity.
  - vm_compute. reflexivity.
Defined.
